(* ===== verification/_CoqProject ===== *)
-Q . S2P
Prelude.v
Bytes.v
Bits.v
PageLayout.v
SlottedPage.v
Disk.v
DiskThreads.v
LRU.v
BufferPool.v
BufferInv.v
PoolSpec.v
Checkpoint.v
Pager.v
Callback.v
Heap.v
Record.v
Utf8.v
JSON.v
Catalog.v
CatalogJSON.v
CatalogReopen.v
Truncation.v
Slices.v
CatalogSlices.v
BTreeNode.v
BTree.v
BTreeInv.v
BTreeSpec.v
BTreeInsert.v
BTreeIndex.v
BTreeExamples.v
BTreeErrors.v
Stack.v
Recovery.v
Queries.v
