(* ===== verification/Prelude.v ===== *)
(** * minidb: a verification of its storage engine

    minidb (Go, src/internal) is a small storage engine.  From the bottom up:

    - [util] reads and writes runs of bits; [storage/page] lays out a page
      (header, slot directory, tuples) over an 8 KiB array with it;
    - [storage/disk] serves the pages of one file; [storage/buffer] caches the
      pages of many files in a fixed set of frames, with pins, dirty flags and
      LRU eviction, and hands out a handle per file;
    - [access/heap] (tables) and [access/nbtree] (indexes) are access methods
      over such a handle, through a four-method [pager] interface;
    - [record] turns typed rows into the tuple bytes a heap stores;
    - [catalog] keeps the tables, their schemas, indexes and file names, and
      rewrites them as one document on every change.

    ** Files

    - [Prelude] (this file): errors, results with panics, the state-and-error
      monad, machine widths, windows of a list ([sub], [splice], [slice]) and
      their lemmas, tactics and the [bytes] rewrite database.
    - [Bytes]: bytes as integers, big-endian integers, the MSB-first bit stream.
    - [Bits] (util/bits.go): [ReadBits], [WriteBits] at their widths.
    - [PageLayout] (page.go, slot_entry.go, page_header.go, tuple.go): every
      accessor; [SlottedPage] (slotted_page.go): the slotted page and its
      abstraction [rep] to a list of tuples.
    - [Disk] (disk.go): the disk manager over a model of [os.File];
      [DiskThreads]: the same calls as threads that interleave at every lock,
      counter access and piece of I/O.
    - [LRU] (lru_replacer.go); [BufferPool] (buffer_pool.go), the operations;
      [BufferInv], the pool's invariant and a specification of each operation;
      [PoolSpec], its contract: histories of calls, refinement, progress,
      durability; [Checkpoint]: [FlushAll] and [Sync] while other callers go on.
    - [Pager]: the [pager] interface as type classes, and the instance that
      shows a [FileHandle] of the buffer pool implements it.
    - [Callback]: the callbacks of the scans, which may use the pool while the
      scan holds a page, and the loop invariants the scans are proved against.
    - [Heap] (heap.go), written and proved against [Pager].
    - [BTreeNode] (nbtree/node.go): a node over the bytes of a page, its search
      and mutations, abstracted to lists ([leaf], [internal]); [BTree]
      (nbtree/nbtree.go): the operations of the index over [Pager];
      [BTreeInv]: what it means that a set of pages is a tree ([sub]);
      [BTreeSpec]: an index file ([tree], [btree]), lookups and range scans;
      [BTreeInsert]: insertion below a node, split by split; [BTreeIndex]: the
      theorems about a whole file; [BTreeExamples]: runs over a real pool;
      [BTreeErrors]: what a failed split costs.
    - [Record] (record.go); [Catalog] (catalog.go, store.go), with metadata as
      values, over a JSON codec as a class; [Utf8], [JSON]: the text and the
      documents of the codec, [encoding/json] as far as the catalog uses it;
      [CatalogJSON]: the codec of the catalog's types, which discharges the
      class; [CatalogReopen]: memory and store after any calls; [Truncation]: a
      document that was cut short; [Slices]: Go slices and [append] over shared arrays;
      [CatalogSlices]: the catalog again with its slices and [clone], and the
      refinement of the value model.
    - [Stack]: a table and its index as two files of one pool, end to end;
      [Recovery]: a checkpoint, a crash and a restart; [Queries]: the two access
      methods composed through their callbacks.

    ** How the code is modelled

    A byte slice or array is a [list byte]; a view into a page (header, slot
    entry, tuple header) is a window of it, and a write through the view is a
    [splice].  Integers are [Z] with the wrap-around of their Go type written
    out ([u8], [u16], [u32], [u64], [i64]).  A Go call returns [Ret], an error
    ([Fail]) or panics ([Panic]): an index or slice out of range panics.  An
    error is a sentinel that callers can match, [Errorf] with its fixed text
    (the formatted arguments are dropped) or [Wrapf] around its cause
    ([errors_Is] follows the chain).  Stateful code is a function from state to
    state and result ([st]).

    A [*page.Page] is the id of a frame; reading and writing through it act on
    the pool's frame, so aliasing between the pool and the holders of a page is
    that of the code.  A pool operation runs under the pool lock and is one
    step, except [Sync], which holds the lock only to copy the set of files: each
    of its fsyncs is a step ([OFsync]).  The callers' writes are steps of their
    own, so a history of steps is an interleaving.  Below the pool a disk call
    is one function ([Disk]); [DiskThreads] drops that, [Sync] included, and its [_alone] lemmas
    show that the functions are the runs without interference.  The files registered with a pool are distinct (no two
    handles over one [DiskManager]).

    Operating system: a file is its cached and its durable bytes and a schedule
    of outcomes for the next calls; a failing read or write may have transferred
    a prefix, [Sync] makes the cached bytes durable.  An empty schedule is a
    healthy file.  [Open] takes what it reads to be on the device.  The order in which Go walks a map is an argument
    ([FlushAll], [ListTables]), constrained to be a permutation.

    ** What the theorems show

    - Bit fields and layout: [ReadBits_total], [WriteBits_total] (equal to the
      bit-stream reference on every argument, errors and the wrap-around panic
      included); each header field is independent of the others; the slotted
      page refines a list of tuples with a byte budget.
    - Disk: writes are read back and do not leak into other pages even when
      torn; growth never advertises a page that is not there, though a torn
      extension leaves a file that cannot be opened; opening.  Under any
      interleaving of calls ids are handed out once, an advertised page exists
      ([threads_invariant]), lock-free I/O on distinct pages does not interfere
      ([page_io_isolated]) and nothing deadlocks ([all_can_return]).
    - Buffer pool: after any history of calls within the pin/dirty contract,
      with any disk failures, the pool is an array of pages ([view]) that only
      the callers' writes change, frames are in exactly one of their three
      documented states, pinned pages do not move, calls succeed on healthy
      disks while a frame is free, and a checkpoint is durable, also with other
      calls between and during its two halves ([checkpoint_under_traffic]).  The
      frames
      modified since their last dirty unpin are tracked by [M]: the contract
      is that the last unpin of such a page says dirty.
    - Heap: over any pager, insert, get and scan implement a list of pages of
      tuples, give back every pin and leave other files alone; a scan does so
      around any callback that keeps an invariant of its own and leaves the
      scanned file alone ([Scan_visits_all]).
    - B+Tree: a node's mutations are list insertion and halving and its binary
      search is counting; over any pager, [Insert], [Search] and [Scan]
      implement a sorted map and its ranges on a tree that is balanced, sorted,
      chained and half full ([Insert_implements_map], [Search_is_lookup],
      [Scan_is_range]), with every way an insertion can fail; creation and
      opening; the height and size of a tree and with them the frames and rounds
      any operation needs ([operations_bounded]); and what an insertion that
      fails in the middle of a split costs ([failed_split_damage]).
    - Record: what is encoded decodes to the same row; which rows are accepted;
      decoding arbitrary bytes never panics.
    - Full stack: a row encoded, stored and indexed is found and decoded again
      ([indexed_row_roundtrip]); a unique index is built by inserting from the
      callback of a table scan ([index_build]); a range query gets the rows from
      the callback of an index scan ([range_query]); after a checkpoint and a
      crash the reopened files hold the same database ([crash_recovery]).
    - Catalog: memory and store agree after any calls, failed ones included
      ([reopen_same]), up to the U+FFFD that replaces invalid UTF-8, by which
      two tables can become one ([invalid_names_merge]); for calls with UTF-8
      names and a counter that has not wrapped, relations have files of their
      own ([catalog_invariant]); saving is atomic; callers that assign
      through slices they share with a call cannot reach the catalog's state
      ([sharing_invisible]), whatever capacity [append] chooses; the document
      that is written reads back as the same metadata ([codec_roundtrip]), and
      one that was cut short is refused ([truncated_refused]).

    Fuel: the heap's [Scan] takes fuel because its loop re-reads the page
    count; one unit per page and one more is proved enough.  The index's
    descents and its walk over the leaf chain follow page ids: one unit per
    level (at most five, [operations_bounded]) and one per page are proved enough.
    A node's binary search takes the key count plus one.  Every other loop is
    structural.

    ** Not modelled

    [cmd/server] (prints a banner); the contents of formatted error messages;
    data races on the bytes of a frame (a caller that writes while the pool
    copies the page) and concurrent calls on one heap or one index, which have
    no locks and leave both to their callers (a catalog call is one step under
    the catalog's lock); the partial writes of a call that panics; the overflow of
    a pin count (a Go int, unbounded here); the difference between cached and
    durable bytes of the catalog file, which is saved without an fsync; what [encoding/json] does beyond the catalog's needs (a
    nil slice and an empty one are the same list here); [noCopy], a marker for
    vet. *)

From stdpp Require Export base list gmap strings sorting.
From Stdlib Require Export ZArith Lia.
From Corelib Require Export Init.Byte.

#[global] Open Scope Z_scope.

(** ** Errors and results of Go calls *)

(** A Go [error] value.  Sentinels that callers match with [errors.Is] are
    constructors; an error built by [errors.New] or [fmt.Errorf] without [%w] is
    [Errorf] with its fixed text, and [fmt.Errorf] with [%w] is [Wrapf]. *)
Inductive error : Type :=
| ErrNoSpace
| ErrNoFreeFrame
| ErrDuplicateKey
| ErrTableExists
| ErrTableNotFound
| ErrIndexExists
| ErrBadColumn
| ErrEmptyName
| ErrNoColumns
| ErrNotExist
| ErrIO
| ErrEOF
| ErrClosed
| ErrUser (code : Z)
| Errorf (msg : string)
| Wrapf (msg : string) (cause : error).

#[global] Instance error_eq_dec : EqDecision error.
Proof. solve_decision. Defined.

(** [errors.Is]: follow the chain of wrapped errors. *)
Fixpoint errors_Is (e target : error) : bool :=
  bool_decide (e = target) ||
  match e with Wrapf _ c => errors_Is c target | _ => false end.

(** The outcome of a Go call: normal return with a nil error, return with a
    non-nil error, or a run-time panic. *)
Inductive res (A : Type) : Type :=
| Ret (a : A)
| Fail (e : error)
| Panic.
Arguments Ret {A} _.
Arguments Fail {A} _.
Arguments Panic {A}.

Definition res_bind {A B} (r : res A) (f : A → res B) : res B :=
  match r with Ret a => f a | Fail e => Fail e | Panic => Panic end.

(** Rewrap the error of a failed call, as [fmt.Errorf("...: %w", err)] does. *)
Definition res_wrap {A} (msg : string) (r : res A) : res A :=
  match r with Fail e => Fail (Wrapf msg e) | _ => r end.

(** Stateful calls: a step from the current state to the next one and an
    outcome; an error or a panic keeps the state reached so far. *)
Definition st (S A : Type) : Type := S → S * res A.

Definition st_ret {S A} (a : A) : st S A := λ s, (s, Ret a).
Definition st_fail {S A} (e : error) : st S A := λ s, (s, Fail e).
Definition st_bind {S A B} (m : st S A) (f : A → st S B) : st S B := λ s,
  match m s with
  | (s', Ret a) => f a s'
  | (s', Fail e) => (s', Fail e)
  | (s', Panic) => (s', Panic)
  end.
(** A call that does not change the state. *)
Definition st_lift {S A} (r : S → res A) : st S A := λ s, (s, r s).
Definition st_wrap {S A} (msg : string) (m : st S A) : st S A := λ s,
  let '(s', r) := m s in (s', res_wrap msg r).

Definition is_ret {A} (r : res A) : bool :=
  match r with Ret _ => true | _ => false end.

Declare Scope go_scope.
Delimit Scope go_scope with go.
Notation "'let!' x := r 'in' k" := (res_bind r (λ x, k))
  (at level 10, x pattern, r at level 100, k at level 200) : go_scope.
Notation "'do!' x := m 'in' k" := (st_bind m (λ x, k))
  (at level 10, x pattern, m at level 100, k at level 200) : go_scope.
#[global] Open Scope go_scope.

(** ** Machine integers: a w-bit unsigned integer is its value in Z *)

Definition u8 (z : Z) : Z := z mod 2 ^ 8.
Definition u16 (z : Z) : Z := z mod 2 ^ 16.
Definition u32 (z : Z) : Z := z mod 2 ^ 32.
Definition u64 (z : Z) : Z := z mod 2 ^ 64.
(** Conversion of a uint64 bit pattern to int64. *)
Definition i64 (z : Z) : Z := (z + 2 ^ 63) mod 2 ^ 64 - 2 ^ 63.

(** ** Byte sequences with Z offsets *)

Abbreviation len l := (Z.of_nat (length l)) (only parsing).

(** [sub off n l] is the window [l[off:off+n]]; [splice off d l] overwrites the
    window of [length d] elements starting at [off]. *)
Definition sub {A} (off n : Z) (l : list A) : list A :=
  take (Z.to_nat n) (drop (Z.to_nat off) l).

Definition splice {A} (off : Z) (d l : list A) : list A :=
  take (Z.to_nat off) l ++ d ++ drop (Z.to_nat off + length d) l.

(** The slice expression [l[lo:hi]] with its bounds check. *)
Definition slice {A} (lo hi : Z) (l : list A) : res (list A) :=
  if (0 <=? lo) && (lo <=? hi) && (hi <=? len l) then Ret (sub lo (hi - lo) l)
  else Panic.

Definition zeroes (n : Z) : list byte := replicate (Z.to_nat n) x00.

(** ** Tactics *)

Ltac u_unfold := unfold u8, u16, u32, u64 in *.

(** Case analysis on the matches of a hypothesis, with injectivity. *)
Ltac simplify_res :=
  repeat (unfold res_bind, res_wrap in *; simplify_eq/=; try case_match; simplify_eq/=).

(** Turn boolean tests of the code into propositions. *)
Ltac bools :=
  repeat match goal with
  | H : (_ && _) = true |- _ => apply andb_prop in H; destruct H
  | H : (_ <? _) = true |- _ => apply Z.ltb_lt in H
  | H : (_ <? _) = false |- _ => apply Z.ltb_ge in H
  | H : (_ <=? _) = true |- _ => apply Z.leb_le in H
  | H : (_ <=? _) = false |- _ => apply Z.leb_gt in H
  | H : (_ =? _) = true |- _ => apply Z.eqb_eq in H
  | H : (_ =? _) = false |- _ => apply Z.eqb_neq in H
  end.

(** Case analysis on an integer test of the goal. *)
Ltac case_test :=
  match goal with
  | |- context [?a <? ?b] => destruct (Z.ltb_spec a b)
  | |- context [?a <=? ?b] => destruct (Z.leb_spec a b)
  | |- context [?a =? ?b] => destruct (Z.eqb_spec a b)
  end.

(** ** Machine integers *)

Lemma u8_small z : 0 ≤ z < 256 → u8 z = z.
Proof. apply Z.mod_small. Qed.
Lemma u16_small z : 0 ≤ z < 65536 → u16 z = z.
Proof. apply Z.mod_small. Qed.
Lemma u32_small z : 0 ≤ z < 4294967296 → u32 z = z.
Proof. apply Z.mod_small. Qed.
Lemma u64_small z : 0 ≤ z < 2 ^ 64 → u64 z = z.
Proof. apply Z.mod_small. Qed.
Lemma u16_range z : 0 ≤ u16 z < 65536.
Proof. by apply Z.mod_pos_bound. Qed.
(** int64 values survive the trip through uint64. *)
Lemma i64_u64 z : - 2 ^ 63 ≤ z < 2 ^ 63 → i64 (u64 z) = z.
Proof.
  intros. unfold i64, u64. rewrite Zplus_mod_idemp_l, Z.mod_small by lia. lia.
Qed.
Lemma i64_range z : - 2 ^ 63 ≤ i64 z < 2 ^ 63.
Proof. unfold i64. pose proof (Z.mod_pos_bound (z + 2 ^ 63) (2 ^ 64)). lia. Qed.

(** ** Lemmas on windows *)

Create HintDb bytes.
Create Rewrite HintDb bytes.

Section windows.
Context {A : Type}.
Implicit Types (l d : list A) (off n : Z).

Lemma length_sub off n l :
  0 ≤ off → 0 ≤ n → off + n ≤ len l → length (sub off n l) = Z.to_nat n.
Proof. intros. unfold sub. rewrite length_take, length_drop. lia. Qed.

Lemma len_sub off n l :
  0 ≤ off → 0 ≤ n → off + n ≤ len l → len (sub off n l) = n.
Proof. intros. rewrite length_sub; lia. Qed.

Lemma length_splice off d l :
  0 ≤ off → off + len d ≤ len l → length (splice off d l) = length l.
Proof.
  intros. unfold splice. rewrite !length_app, length_take, length_drop. lia.
Qed.

Lemma sub_add off a b l : 0 ≤ off → 0 ≤ a → 0 ≤ b → sub off (a + b) l = sub off a l ++ sub (off + a) b l.
Proof.
  intros. unfold sub. rewrite Z2Nat.inj_add, <-take_take_drop, drop_drop by lia. do 3 f_equal. lia.
Qed.

Lemma lookup_sub off n l (i : nat) :
  sub off n l !! i = if decide (Z.of_nat i < n) then l !! (Z.to_nat off + i)%nat else None.
Proof.
  unfold sub. case_decide.
  - rewrite lookup_take_lt by lia. apply lookup_drop.
  - apply lookup_take_ge. lia.
Qed.

Lemma lookup_splice off d l (i : nat) :
  0 ≤ off → off + len d ≤ len l →
  splice off d l !! i =
    if decide (off ≤ Z.of_nat i < off + len d) then d !! (i - Z.to_nat off)%nat else l !! i.
Proof.
  intros. unfold splice.
  destruct (decide (Z.of_nat i < off)).
  - rewrite lookup_app_l by (rewrite length_take; lia).
    rewrite lookup_take_lt by lia. by rewrite decide_False by lia.
  - rewrite lookup_app_r by (rewrite length_take; lia).
    rewrite length_take, Nat.min_l by lia. case_decide.
    + by rewrite lookup_app_l by lia.
    + rewrite lookup_app_r by lia. rewrite lookup_drop. f_equal. lia.
Qed.

Lemma sub_splice_eq off d l n :
  0 ≤ off → off + len d ≤ len l → n = len d → sub off n (splice off d l) = d.
Proof.
  intros ?? ->. apply list_eq. intros i. rewrite lookup_sub. case_decide.
  - rewrite lookup_splice by lia. rewrite decide_True by lia. f_equal. lia.
  - symmetry. apply lookup_ge_None. lia.
Qed.

Lemma sub_splice_ne off n off' d l :
  0 ≤ off → 0 ≤ off' → off' + len d ≤ len l →
  off + n ≤ off' ∨ off' + len d ≤ off →
  sub off n (splice off' d l) = sub off n l.
Proof.
  intros. apply list_eq. intros i. rewrite !lookup_sub. case_decide; [|done].
  rewrite lookup_splice by lia. by rewrite decide_False by lia.
Qed.

Lemma sub_sub a n b m l :
  0 ≤ a → 0 ≤ b → a + n ≤ m → sub a n (sub b m l) = sub (b + a) n l.
Proof.
  intros. apply list_eq. intros i. rewrite !lookup_sub. case_decide; [|done].
  rewrite decide_True by lia. f_equal. lia.
Qed.

(** A window written inside a larger window. *)
Lemma sub_splice_in b m a d l :
  0 ≤ a → 0 ≤ b → a + len d ≤ m → b + m ≤ len l →
  sub b m (splice (b + a) d l) = splice a d (sub b m l).
Proof.
  intros. apply list_eq. intros i.
  rewrite lookup_splice by (rewrite ?length_sub; lia).
  rewrite !lookup_sub, lookup_splice by lia.
  repeat case_decide; try done; try lia.
  f_equal. lia.
Qed.

Lemma splice_sub_id off n l :
  0 ≤ off → 0 ≤ n → off + n ≤ len l → splice off (sub off n l) l = l.
Proof.
  intros. apply list_eq. intros i.
  rewrite lookup_splice by (rewrite ?length_sub; lia).
  rewrite length_sub by lia. case_decide; [|done].
  rewrite lookup_sub, decide_True by lia. f_equal. lia.
Qed.

Lemma sub_full n l : n = len l → sub 0 n l = l.
Proof. intros ->. unfold sub. simpl. apply take_ge. lia. Qed.

Lemma sub_app_l off n l d : off + n ≤ len l → 0 ≤ off → sub off n (l ++ d) = sub off n l.
Proof.
  intros. apply list_eq. intros i. rewrite !lookup_sub. case_decide; [|done].
  rewrite lookup_app_l by lia. done.
Qed.

Lemma sub_app_r off n l d : len l ≤ off → sub off n (l ++ d) = sub (off - len l) n d.
Proof.
  intros. apply list_eq. intros i. rewrite !lookup_sub. case_decide; [|done].
  rewrite lookup_app_r by lia. f_equal. lia.
Qed.

Lemma slice_ok lo hi l :
  0 ≤ lo ≤ hi → hi ≤ len l → slice lo hi l = Ret (sub lo (hi - lo) l).
Proof.
  intros. unfold slice.
  by rewrite !(proj2 (Z.leb_le _ _)) by lia.
Qed.

Lemma slice_inv lo hi l w :
  slice lo hi l = Ret w → 0 ≤ lo ≤ hi ∧ hi ≤ len l ∧ w = sub lo (hi - lo) l.
Proof. unfold slice. intros. case_match; simplify_eq; bools. split_and!; done || lia. Qed.
End windows.

#[export] Hint Rewrite @length_sub @length_splice @length_app @length_take
  @length_drop @length_replicate using lia : bytes.

Lemma length_zeroes n : length (zeroes n) = Z.to_nat n.
Proof. apply length_replicate. Qed.
#[export] Hint Rewrite length_zeroes : bytes.
Lemma zeroes_app a b : 0 ≤ a → 0 ≤ b → zeroes a ++ zeroes b = zeroes (a + b).
Proof. intros. unfold zeroes. rewrite Z2Nat.inj_add by lia. by rewrite replicate_add. Qed.

Lemma sub_zeroes off n m : 0 ≤ off → 0 ≤ n → off + n ≤ m → sub off n (zeroes m) = zeroes n.
Proof.
  intros. unfold sub, zeroes. rewrite drop_replicate, take_replicate. f_equal. lia.
Qed.

Lemma zeroes_nil n : n ≤ 0 → zeroes n = [].
Proof. intros. unfold zeroes. by replace (Z.to_nat n) with 0%nat by lia. Qed.

#[global] Opaque zeroes.
#[global] Arguments sub : simpl never.
#[global] Arguments splice : simpl never.

(** Solve goals about lengths of windows. *)
Ltac len_lia := autorewrite with bytes in *; try lia.

Lemma filter_all {A} (P : A → Prop) `{!∀ x, Decision (P x)} (l : list A) :
  (∀ x, x ∈ l → P x) → filter P l = l.
Proof.
  induction l as [|x l IH]; intros Hl; [done|].
  rewrite filter_cons_True by (apply Hl; left). f_equal. apply IH. intros y Hy. apply Hl. by right.
Qed.

Lemma filter_none {A} (P : A → Prop) `{!∀ x, Decision (P x)} (l : list A) :
  Forall (λ x, ¬ P x) l → filter P l = [].
Proof. induction 1 as [|x l Hx Hl IH]; [done|]. by rewrite filter_cons, decide_False. Qed.

(** Sorting by a key of the image sorts the image. *)
Section sorting.
Context {A B : Type} (f : A → B) (R : relation A) (S : relation B).
Context `{!RelDecision R} `{!RelDecision S} (HRS : ∀ x y, R x y ↔ S (f x) (f y)).

Local Notation on_stack := (fmap (M:=list) (fmap (M:=option) (fmap (M:=list) f))).

Lemma list_merge_fmap l1 l2 : list_merge S (f <$> l1) (f <$> l2) = f <$> list_merge R l1 l2.
Proof.
  revert l2. induction l1 as [|x1 l1 IH1]; intros l2; [by destruct l2|].
  induction l2 as [|x2 l2 IH2]; [done|]. rewrite !fmap_cons, !list_merge_cons.
  destruct (decide (R x1 x2)) as [Hr|Hr]; rewrite HRS in Hr.
  - rewrite decide_True by done. by rewrite fmap_cons, <-IH1.
  - rewrite decide_False by done. by rewrite fmap_cons, <-IH2.
Qed.

Lemma merge_list_to_stack_fmap st l :
  merge_list_to_stack S (on_stack st) (f <$> l) =
  on_stack (merge_list_to_stack R st l).
Proof.
  revert l. induction st as [|[l'|] st IH]; intros l; [done| |done].
  simpl. by rewrite list_merge_fmap, IH.
Qed.

Lemma merge_stack_fmap st :
  merge_stack S (on_stack st) = f <$> merge_stack R st.
Proof.
  induction st as [|[l'|] st IH]; [done| |done]. simpl. by rewrite <-list_merge_fmap, <-IH.
Qed.

Lemma merge_sort_fmap l : merge_sort S (f <$> l) = f <$> merge_sort R l.
Proof.
  unfold merge_sort. change (@nil (option (list B))) with (on_stack (@nil (option (list A)))).
  generalize (@nil (option (list A))). induction l as [|x l IH]; intros st; simpl; [apply merge_stack_fmap|].
  rewrite <-IH. f_equal. apply (merge_list_to_stack_fmap st [x]).
Qed.
End sorting.

Lemma errors_Is_refl e : errors_Is e e = true.
Proof. destruct e; cbn [errors_Is]; by rewrite bool_decide_true. Qed.

Lemma errors_Is_wrap msg e t : errors_Is e t = true → errors_Is (Wrapf msg e) t = true.
Proof. intros H. cbn [errors_Is]. rewrite H. apply orb_true_r. Qed.
