(* ===== verification/Bytes.v ===== *)
(** * Bytes, big-endian integers and the MSB-first bit stream

    What the program uses of Go's byte slices and of [encoding/binary]: the
    value of a byte, [binary.BigEndian.UintN]/[PutUintN] on a slice (with their
    bounds check), and the reading of a byte slice as one big-endian bit
    stream, the reference the bit helpers of [util] are compared with. *)

From S2P Require Import Prelude.
From Stdlib Require Strings.Byte.

Definition byte_Z (b : byte) : Z := Z.of_N (Strings.Byte.to_N b).
(** Go's conversion [byte(z)]. *)
Definition Z_byte (z : Z) : byte := default x00 (Strings.Byte.of_N (Z.to_N (z mod 256))).

(** Value of a byte sequence read big-endian. *)
Definition be_get (l : list byte) : Z := fold_left (λ acc b, acc * 256 + byte_Z b) l 0.

(** The low [n] bytes of [v], most significant first. *)
Fixpoint be_put (n : nat) (v : Z) : list byte :=
  match n with
  | O => []
  | S n => be_put n (Z.shiftr v 8) ++ [Z_byte v]
  end.

(** [binary.BigEndian.UintN(data[off:])] and [PutUintN(data[off:], v)] with [n]
    the width in bytes: they panic when fewer than [n] bytes remain. *)
Definition UintAt (n off : Z) (data : list byte) : res Z :=
  if (0 <=? off) && (off + n <=? len data) then Ret (be_get (sub off n data)) else Panic.

Definition PutUintAt (n off v : Z) (data : list byte) : res (list byte) :=
  if (0 <=? off) && (off + n <=? len data)
  then Ret (splice off (be_put (Z.to_nat n) v) data) else Panic.

(** The same on an array whose length is fixed by its type, where the constant
    offsets are in range by construction. *)
Definition be_at (off n : Z) (data : list byte) : Z := be_get (sub off n data).
Definition be_set (off n v : Z) (data : list byte) : list byte :=
  splice off (be_put (Z.to_nat n) v) data.

(** Bit [i] of a byte slice seen as one MSB-first bit stream. *)
Definition bit_at (l : list byte) (i : Z) : bool :=
  Z.testbit (byte_Z (nth (Z.to_nat (i / 8)) l x00)) (7 - i mod 8).

#[global] Instance byte_eq_dec : EqDecision byte := Strings.Byte.byte_eq_dec.

(** ** Bytes *)

Lemma byte_Z_range b : 0 ≤ byte_Z b < 256.
Proof.
  unfold byte_Z. pose proof (Strings.Byte.to_N_bounded b). lia.
Qed.

Lemma byte_Z_of_Z z : byte_Z (Z_byte z) = z mod 256.
Proof.
  unfold byte_Z, Z_byte. pose proof (Z.mod_pos_bound z 256 ltac:(lia)).
  destruct (Strings.Byte.of_N _) as [b|] eqn:E; simpl.
  - apply Strings.Byte.to_of_N in E. rewrite E. lia.
  - apply Strings.Byte.of_N_None_iff in E. lia.
Qed.

Lemma Z_byte_of_byte b : Z_byte (byte_Z b) = b.
Proof.
  unfold Z_byte. rewrite Z.mod_small by apply byte_Z_range.
  unfold byte_Z. rewrite N2Z.id, Strings.Byte.of_to_N. done.
Qed.

Lemma Z_byte_mod z : Z_byte (z mod 256) = Z_byte z.
Proof. unfold Z_byte. by rewrite Z.mod_mod. Qed.

Lemma byte_Z_inj b1 b2 : byte_Z b1 = byte_Z b2 → b1 = b2.
Proof. intros H. by rewrite <-(Z_byte_of_byte b1), H, Z_byte_of_byte. Qed.

(** ** Big-endian integers *)

Lemma be_get_snoc l b : be_get (l ++ [b]) = be_get l * 256 + byte_Z b.
Proof. unfold be_get. by rewrite fold_left_app. Qed.

Lemma pow256_S n : 256 ^ Z.of_nat (S n) = 256 ^ Z.of_nat n * 256.
Proof. rewrite Nat2Z.inj_succ, Z.pow_succ_r by lia. lia. Qed.

Lemma pow256_pos n : 0 < 256 ^ Z.of_nat n.
Proof. apply Z.pow_pos_nonneg; lia. Qed.

Lemma be_get_range l : 0 ≤ be_get l < 256 ^ len l.
Proof.
  induction l as [|b l IH] using rev_ind; [by vm_compute|].
  rewrite be_get_snoc, length_app, Nat.add_comm. simpl length.
  change (1 + length l)%nat with (S (length l)). rewrite pow256_S.
  pose proof (byte_Z_range b). lia.
Qed.

Lemma length_be_put n v : length (be_put n v) = n.
Proof. revert v. induction n as [|n IH]; intros v; simpl; rewrite ?length_app, ?IH; simpl; lia. Qed.
#[export] Hint Rewrite length_be_put : bytes.

Lemma be_get_put n v : be_get (be_put n v) = v mod 256 ^ Z.of_nat n.
Proof.
  revert v. induction n as [|n IH]; intros v; simpl be_put.
  - rewrite Z.mod_1_r. done.
  - rewrite be_get_snoc, IH, byte_Z_of_Z, pow256_S, Z.shiftr_div_pow2 by lia.
    change (2 ^ 8) with 256. pose proof (pow256_pos n).
    rewrite (Z.mul_comm (256 ^ _)), Z.rem_mul_r by lia. lia.
Qed.

Lemma be_put_get l n : n = length l → be_put n (be_get l) = l.
Proof.
  intros ->. induction l as [|b l IH] using rev_ind; [done|].
  rewrite be_get_snoc, length_app, Nat.add_comm. simpl.
  pose proof (byte_Z_range b). f_equal.
  - rewrite Z.shiftr_div_pow2 by lia. change (2 ^ 8) with 256.
    rewrite Z.div_add_l by lia. rewrite Z.div_small by lia. by rewrite Z.add_0_r.
  - f_equal. rewrite <-Z_byte_mod, Z.add_comm, Z.mod_add by lia.
    by rewrite Z_byte_mod, Z_byte_of_byte.
Qed.

Lemma be_get_inj l1 l2 : length l1 = length l2 → be_get l1 = be_get l2 → l1 = l2.
Proof.
  intros Hl He. rewrite <-(be_put_get l1 (length l1)) by done.
  by rewrite He, Hl, be_put_get.
Qed.

(** Reading a field back, and reading another field. *)
Lemma be_at_set off n v data :
  0 ≤ off → 0 ≤ n → off + n ≤ len data → 0 ≤ v < 256 ^ n →
  be_at off n (be_set off n v data) = v.
Proof.
  intros. unfold be_at, be_set.
  rewrite sub_splice_eq by len_lia. rewrite be_get_put.
  apply Z.mod_small. by rewrite Z2Nat.id by lia.
Qed.

Lemma be_at_set_ne off n off' n' v data :
  0 ≤ off → 0 ≤ off' → 0 ≤ n' → off' + n' ≤ len data →
  off + n ≤ off' ∨ off' + n' ≤ off →
  be_at off n (be_set off' n' v data) = be_at off n data.
Proof. intros. unfold be_at, be_set. by rewrite sub_splice_ne by len_lia. Qed.

Lemma be_at_range off n data :
  0 ≤ off → 0 ≤ n → off + n ≤ len data → 0 ≤ be_at off n data < 256 ^ n.
Proof.
  intros. unfold be_at. pose proof (be_get_range (sub off n data)) as H'.
  by rewrite len_sub in H' by lia.
Qed.

Lemma length_be_set off n v data :
  0 ≤ off → 0 ≤ n → off + n ≤ len data → length (be_set off n v data) = length data.
Proof. intros. unfold be_set. rewrite length_splice; len_lia. Qed.
#[export] Hint Rewrite length_be_set using lia : bytes.

Lemma sub_be_set_ne off n off' n' v data :
  0 ≤ off → 0 ≤ off' → 0 ≤ n' → off' + n' ≤ len data →
  off + n ≤ off' ∨ off' + n' ≤ off →
  sub off n (be_set off' n' v data) = sub off n data.
Proof. intros. unfold be_set. by rewrite sub_splice_ne by len_lia. Qed.

Lemma UintAt_ok n off data :
  0 ≤ off → off + n ≤ len data → UintAt n off data = Ret (be_at off n data).
Proof. intros. unfold UintAt. by rewrite !(proj2 (Z.leb_le _ _)) by lia. Qed.

Lemma PutUintAt_ok n off v data :
  0 ≤ off → off + n ≤ len data → PutUintAt n off v data = Ret (be_set off n v data).
Proof. intros. unfold PutUintAt. by rewrite !(proj2 (Z.leb_le _ _)) by lia. Qed.

(** ** The bit stream *)

Lemma testbit_above n z i : 0 ≤ z < 2 ^ n → 0 ≤ n ≤ i → Z.testbit z i = false.
Proof.
  intros. rewrite <-(Z.mod_small z (2 ^ n)) by lia. apply Z.mod_pow2_bits_high. lia.
Qed.

Lemma testbit_cat a b i :
  0 ≤ b < 256 → 0 ≤ i →
  Z.testbit (a * 256 + b) i = if decide (i < 8) then Z.testbit b i else Z.testbit a (i - 8).
Proof.
  intros Hb Hi. case_decide.
  - rewrite <-(Z.mod_pow2_bits_low _ 8 i) by lia.
    change (2 ^ 8) with 256. rewrite Z.add_comm, Z.mod_add by lia.
    by rewrite Z.mod_small.
  - replace i with ((i - 8) + 8) at 1 by lia.
    rewrite <-Z.div_pow2_bits by lia. change (2 ^ 8) with 256.
    rewrite Z.div_add_l, Z.div_small by lia. by rewrite Z.add_0_r.
Qed.

Lemma bit_at_app_l l1 l2 i : 0 ≤ i < 8 * len l1 → bit_at (l1 ++ l2) i = bit_at l1 i.
Proof.
  intros. unfold bit_at. rewrite app_nth1; [done|].
  apply Nat2Z.inj_lt. rewrite Z2Nat.id by (apply Z.div_pos; lia).
  apply Z.div_lt_upper_bound; lia.
Qed.

Lemma bit_at_app_r l1 l2 i : 8 * len l1 ≤ i → bit_at (l1 ++ l2) i = bit_at l2 (i - 8 * len l1).
Proof.
  intros. unfold bit_at. pose proof (Z.div_le_lower_bound i 8 (len l1) ltac:(lia) ltac:(lia)).
  rewrite app_nth2 by lia.
  replace (i - 8 * len l1) with (i + (- len l1) * 8) by lia.
  rewrite Z.mod_add, Z.div_add by lia. do 3 f_equal. lia.
Qed.

Lemma be_get_testbit l i :
  0 ≤ i < 8 * len l → Z.testbit (be_get l) i = bit_at l (8 * len l - 1 - i).
Proof.
  revert i. induction l as [|b l IH] using rev_ind; [simpl; lia|]. intros i Hi.
  rewrite length_app in *. simpl length in *.
  rewrite be_get_snoc, testbit_cat by (lia || apply byte_Z_range). case_decide.
  - rewrite bit_at_app_r by lia. unfold bit_at.
    replace (8 * Z.of_nat (length l + 1) - 1 - i - 8 * len l) with (7 - i) by lia.
    rewrite Z.div_small, Z.mod_small by lia. simpl. f_equal. lia.
  - rewrite bit_at_app_l by lia. rewrite IH by lia. f_equal. lia.
Qed.

Lemma bit_at_be_put n v i :
  0 ≤ i < 8 * Z.of_nat n → bit_at (be_put n v) i = Z.testbit v (8 * Z.of_nat n - 1 - i).
Proof.
  intros. replace i with (8 * len (be_put n v) - 1 - (8 * Z.of_nat n - 1 - i)) at 1
    by (rewrite length_be_put; lia).
  rewrite <-be_get_testbit by (rewrite length_be_put; lia).
  rewrite be_get_put. change 256 with (2 ^ 8). rewrite <-Z.pow_mul_r by lia.
  apply Z.mod_pow2_bits_low. lia.
Qed.

Lemma bit_at_sub off n l i :
  0 ≤ off → 0 ≤ i < 8 * n → off + n ≤ len l → bit_at (sub off n l) i = bit_at l (8 * off + i).
Proof.
  intros. unfold bit_at. replace (8 * off + i) with (i + off * 8) by lia.
  rewrite Z.mod_add, Z.div_add by lia.
  pose proof (Z.div_pos i 8 ltac:(lia) ltac:(lia)).
  pose proof (Z.div_lt_upper_bound i 8 n ltac:(lia) ltac:(lia)).
  do 2 f_equal. rewrite !nth_lookup, lookup_sub, decide_True by lia.
  do 2 f_equal. lia.
Qed.

Lemma bit_at_splice off d l i :
  0 ≤ off → off + len d ≤ len l → 0 ≤ i →
  bit_at (splice off d l) i =
    if decide (8 * off ≤ i < 8 * (off + len d)) then bit_at d (i - 8 * off) else bit_at l i.
Proof.
  intros. unfold bit_at. replace (i - 8 * off) with (i + (- off) * 8) by lia.
  rewrite Z.mod_add, Z.div_add, !nth_lookup, lookup_splice by lia.
  pose proof (Z.div_pos i 8 ltac:(lia) ltac:(lia)).
  pose proof (Z.div_mod i 8 ltac:(lia)). pose proof (Z.mod_pos_bound i 8 ltac:(lia)).
  repeat case_decide; try lia; [|done]. do 4 f_equal. lia.
Qed.
