(* ===== verification/Bits.v ===== *)
(** * Package util: reading and writing runs of bits (src/internal/util/bits.go)

    [ReadBits] and [WriteBits] at their machine widths: the offset is a uint16,
    the window is packed into a uint32, and the slice expression keeps its
    bounds check.  The reference is the bit stream of [Bytes]: [stream_val] for
    reading and [stream_upd] for writing. *)

From S2P Require Import Prelude Bytes.

Module Bits.

Definition maxBitLength : Z := 16.

(** [bytes[startByte : endByte+1]], the bytes spanned by the target bits. *)
Definition window (bytes : list byte) (offset nbits : Z) : res (list byte) :=
  let startByte := offset / 8 in
  let endByte := u16 (u16 (offset + nbits) - 1) / 8 in
  slice startByte (u16 (endByte + 1)) bytes.

(** Bits sitting after the target inside the window. *)
Definition tail (w : list byte) (offset nbits : Z) : Z :=
  u16 (u16 (u16 (u16 (len w) * 8) - offset mod 8) - nbits).

(** [for _, b := range window { windowVal = windowVal<<8 | uint32(b) }]. *)
Definition pack (w : list byte) : Z :=
  fold_left (λ windowVal b, Z.lor (u32 (Z.shiftl windowVal 8)) (byte_Z b)) w 0.

Definition ReadBits (bytes : list byte) (offset nbits : Z) : res Z :=
  if (nbits =? 0) || (maxBitLength <? nbits)
  then Fail (Errorf "length out of range")
  else if u32 (u32 (len bytes) * 8) <? u32 (offset + nbits)
  then Fail (Errorf "read range exceeds bits")
  else
    let! w := window bytes offset nbits in
    let t := tail w offset nbits in
    let windowVal := pack w in
    let mask := u32 (u32 (Z.shiftl 1 nbits) - 1) in
    Ret (u16 (Z.land (Z.shiftr windowVal t) mask)).

(** The result is the updated slice; the returned boolean is true exactly when
    the error is nil, and on an error nothing has been written. *)
Definition WriteBits (bytes : list byte) (offset nbits val : Z) : res (list byte) :=
  if (nbits =? 0) || (maxBitLength <? nbits)
  then Fail (Errorf "length out of range")
  else if u32 (u32 (len bytes) * 8) <? u32 (offset + nbits)
  then Fail (Errorf "write range exceeds bits")
  else if u32 (u32 (Z.shiftl 1 nbits) - 1) <? val
  then Fail (Errorf "value does not fit")
  else
    let! w := window bytes offset nbits in
    let t := tail w offset nbits in
    let mask := u32 (Z.shiftl (u32 (u32 (Z.shiftl 1 nbits) - 1)) t) in
    let windowVal := Z.lor (Z.ldiff (pack w) mask) (u32 (Z.shiftl val t)) in
    Ret (splice (offset / 8) (be_put (length w) windowVal) bytes).

(** Reference: the value of [n] consecutive bits of the stream. *)
Fixpoint stream_val (bytes : list byte) (off : Z) (n : nat) : Z :=
  match n with
  | O => 0
  | S n => 2 * stream_val bytes off n + Z.b2z (bit_at bytes (off + Z.of_nat n))
  end.

(** Reference: bit [i] of the stream after the run at [off] is overwritten. *)
Definition stream_upd (bytes : list byte) (off n val i : Z) : bool :=
  if decide (off ≤ i < off + n) then Z.testbit val (n - 1 - (i - off)) else bit_at bytes i.

(** ** The reference value *)

Lemma stream_val_range bytes off n : 0 ≤ stream_val bytes off n < 2 ^ Z.of_nat n.
Proof.
  induction n as [|n IH]; [simpl; lia|]. rewrite Nat2Z.inj_succ, Z.pow_succ_r by lia.
  simpl stream_val. destruct (bit_at _ _); simpl Z.b2z; lia.
Qed.

Lemma stream_val_testbit bytes off n i :
  0 ≤ i < Z.of_nat n →
  Z.testbit (stream_val bytes off n) i = bit_at bytes (off + (Z.of_nat n - 1 - i)).
Proof.
  revert i. induction n as [|n IH]; intros i Hi; [lia|]. simpl stream_val.
  destruct (decide (i = 0)) as [->|].
  - rewrite Z.testbit_0_r. f_equal. lia.
  - replace i with (Z.succ (i - 1)) at 1 by lia.
    rewrite Z.testbit_succ_r by lia.
    rewrite IH by lia. f_equal. lia.
Qed.

(** Adjacent runs concatenate, and the whole stream is the big-endian value. *)
Lemma stream_val_app bytes off n m :
  stream_val bytes off (n + m) =
    stream_val bytes off n * 2 ^ Z.of_nat m + stream_val bytes (off + Z.of_nat n) m.
Proof.
  induction m as [|m IH]; [rewrite Nat.add_0_r; simpl; lia|].
  rewrite Nat.add_succ_r, Nat2Z.inj_succ, Z.pow_succ_r by lia. simpl stream_val.
  rewrite IH. replace (off + Z.of_nat (n + m)) with (off + Z.of_nat n + Z.of_nat m) by lia. lia.
Qed.

(** A value is determined by its bits below its width. *)
Lemma bits_ext n a b :
  0 ≤ n → 0 ≤ a < 2 ^ n → 0 ≤ b < 2 ^ n →
  (∀ i, 0 ≤ i < n → Z.testbit a i = Z.testbit b i) → a = b.
Proof.
  intros ??? H. apply Z.bits_inj'. intros i Hi.
  destruct (decide (i < n)); [apply H; lia|].
  by rewrite !(testbit_above n) by lia.
Qed.

Lemma stream_val_all bytes n : Z.of_nat n = 8 * len bytes → stream_val bytes 0 n = be_get bytes.
Proof.
  intros Hn. apply (bits_ext (Z.of_nat n)); [lia|apply stream_val_range|..].
  - rewrite Hn, Z.pow_mul_r by lia. apply be_get_range.
  - intros i Hi. rewrite stream_val_testbit, be_get_testbit by lia. f_equal. lia.
Qed.

(** ** The window *)

Lemma window_geometry offset nbits :
  0 ≤ offset → 1 ≤ nbits ≤ 16 →
  let k := (offset + nbits - 1) / 8 + 1 - offset / 8 in
  1 ≤ k ≤ 3 ∧ 0 ≤ offset mod 8 < 8 ∧ offset mod 8 + nbits ≤ 8 * k ∧
  8 * k - offset mod 8 - nbits < 8 ∧ offset = 8 * (offset / 8) + offset mod 8.
Proof.
  intros ?? k. subst k.
  pose proof (Z.div_mod offset 8 ltac:(lia)). pose proof (Z.mod_pos_bound offset 8 ltac:(lia)).
  pose proof (Z.div_mod (offset + nbits - 1) 8 ltac:(lia)).
  pose proof (Z.mod_pos_bound (offset + nbits - 1) 8 ltac:(lia)). lia.
Qed.

Lemma window_ok bytes offset nbits :
  0 ≤ offset → 1 ≤ nbits ≤ 16 → offset + nbits ≤ 65536 → offset + nbits ≤ 8 * len bytes →
  let k := (offset + nbits - 1) / 8 + 1 - offset / 8 in
  window bytes offset nbits = Ret (sub (offset / 8) k bytes).
Proof.
  intros ???? k. subst k. destruct (window_geometry offset nbits) as (?&?&?&?&?); [lia..|].
  assert (u16 (u16 (offset + nbits) - 1) = offset + nbits - 1) as E1.
  { unfold u16. rewrite Zminus_mod_idemp_l. apply Z.mod_small. lia. }
  unfold window. rewrite E1.
  assert ((offset + nbits - 1) / 8 < 8192) by (apply Z.div_lt_upper_bound; lia).
  assert ((offset + nbits - 1) / 8 + 1 ≤ len bytes).
  { pose proof (Z.div_lt_upper_bound (offset + nbits - 1) 8 (len bytes)). lia. }
  pose proof (Z.div_pos offset 8 ltac:(lia) ltac:(lia)).
  unfold u16. rewrite (Z.mod_small ((offset + nbits - 1) / 8 + 1)) by lia.
  by rewrite slice_ok by lia.
Qed.

(** Past bit 65536 the end position wraps and the slice expression is inverted. *)
Lemma window_wraps bytes offset nbits :
  0 ≤ offset < 65536 → 1 ≤ nbits ≤ 16 → 65536 < offset + nbits →
  window bytes offset nbits = Panic.
Proof.
  intros. unfold window, slice.
  assert (u16 (u16 (offset + nbits) - 1) = offset + nbits - 1 - 65536) as ->.
  { unfold u16. rewrite Zminus_mod_idemp_l. symmetry.
    apply (Z.mod_unique _ _ 1); lia. }
  pose proof (Z.div_le_lower_bound offset 8 8190 ltac:(lia) ltac:(lia)).
  pose proof (Z.div_lt_upper_bound (offset + nbits - 1 - 65536) 8 2 ltac:(lia) ltac:(lia)).
  pose proof (Z.div_pos (offset + nbits - 1 - 65536) 8 ltac:(lia) ltac:(lia)).
  unfold u16. rewrite Z.mod_small by lia.
  rewrite (proj2 (Z.leb_gt (offset / 8) _)) by lia. by rewrite andb_false_r.
Qed.

Lemma tail_ok w offset nbits k :
  1 ≤ k ≤ 3 → len w = k → 0 ≤ offset mod 8 < 8 → 1 ≤ nbits → offset mod 8 + nbits ≤ 8 * k →
  tail w offset nbits = 8 * k - offset mod 8 - nbits.
Proof.
  intros. unfold tail, u16. rewrite H0. rewrite (Z.mod_small k) by lia.
  rewrite (Z.mod_small (k * 8)) by lia.
  rewrite (Z.mod_small (k * 8 - _)) by lia. rewrite Z.mod_small by lia. lia.
Qed.

Lemma lor_cat a b : 0 ≤ b < 256 → Z.lor (Z.shiftl a 8) b = a * 256 + b.
Proof.
  intros. apply Z.bits_inj'. intros i Hi. rewrite Z.lor_spec, testbit_cat by lia.
  case_decide.
  - by rewrite Z.shiftl_spec_low by lia.
  - rewrite Z.shiftl_spec, (testbit_above 8 b) by lia. apply orb_false_r.
Qed.

Lemma pack_be w : len w ≤ 4 → pack w = be_get w.
Proof.
  induction w as [|b w IH] using rev_ind; [done|]. intros H.
  rewrite length_app in H. simpl in H.
  unfold pack in *. rewrite fold_left_app, be_get_snoc. simpl. rewrite IH by lia.
  rewrite <-lor_cat by apply byte_Z_range. f_equal. unfold u32.
  apply Z.mod_small. rewrite Z.shiftl_mul_pow2 by lia. change (2 ^ 8) with 256.
  pose proof (be_get_range w).
  assert (256 ^ len w ≤ 256 ^ 3) by (apply Z.pow_le_mono_r; lia).
  change (256 ^ 3) with 16777216 in *. lia.
Qed.

Lemma pow_range n : 1 ≤ n ≤ 16 → 2 ≤ 2 ^ n ≤ 65536.
Proof.
  intros. change 2 with (2 ^ 1) at 1. change 65536 with (2 ^ 16).
  split; apply Z.pow_le_mono_r; lia.
Qed.

Lemma mask_ok n : 1 ≤ n ≤ 16 → u32 (u32 (Z.shiftl 1 n) - 1) = Z.ones n.
Proof.
  intros. pose proof (pow_range n H). rewrite Z.shiftl_1_l.
  unfold u32. rewrite (Z.mod_small (2 ^ n)) by lia. rewrite Z.mod_small by lia.
  rewrite Z.ones_equiv. lia.
Qed.

(** The number of bits the range check sees: [uint32(len(bytes))*8]. *)
Definition seen (bytes : list byte) : Z := u32 (8 * len bytes).

Lemma seen_le bytes : seen bytes ≤ 8 * len bytes.
Proof. unfold seen, u32. apply Z.mod_le; lia. Qed.
Lemma seen_small bytes : len bytes < 2 ^ 29 → seen bytes = 8 * len bytes.
Proof. intros. unfold seen, u32. apply Z.mod_small. lia. Qed.

Lemma guard_ok (bytes : list byte) x :
  0 ≤ x < 2 ^ 32 → (u32 (u32 (len bytes) * 8) <? u32 x) = (seen bytes <? x).
Proof.
  intros. unfold seen, u32. rewrite Zmult_mod_idemp_l, (Z.mod_small x) by lia. do 2 f_equal. lia.
Qed.

(** Bit [j] counted from the right end of the window, in stream coordinates. *)
Lemma window_bit bytes offset nbits i :
  0 ≤ offset → 1 ≤ nbits ≤ 16 → offset + nbits ≤ 8 * len bytes →
  let k := (offset + nbits - 1) / 8 + 1 - offset / 8 in
  0 ≤ i < 8 * k →
  Z.testbit (be_get (sub (offset / 8) k bytes)) i =
    bit_at bytes (8 * (offset / 8) + (8 * k - 1 - i)).
Proof.
  intros ??? k Hi. destruct (window_geometry offset nbits) as (?&?&?&?&?); [lia..|].
  fold k in H2, H4, H5. pose proof (Z.div_pos offset 8 ltac:(lia) ltac:(lia)).
  assert (offset / 8 + k ≤ len bytes).
  { unfold k. pose proof (Z.div_lt_upper_bound (offset + nbits - 1) 8 (len bytes)). lia. }
  rewrite be_get_testbit by (rewrite length_sub by lia; lia).
  rewrite len_sub by lia. by rewrite bit_at_sub by lia.
Qed.

(** ** ReadBits *)

Lemma ReadBits_seen bytes offset nbits :
  0 ≤ offset → 1 ≤ nbits ≤ 16 → offset + nbits ≤ seen bytes → offset + nbits ≤ 65536 →
  ReadBits bytes offset nbits = Ret (stream_val bytes offset (Z.to_nat nbits)).
Proof.
  intros. pose proof (seen_le bytes). destruct (window_geometry offset nbits) as (Hk&?&?&?&?); [lia..|].
  set (k := (offset + nbits - 1) / 8 + 1 - offset / 8) in *.
  pose proof (Z.div_pos offset 8 ltac:(lia) ltac:(lia)).
  assert (offset / 8 + k ≤ len bytes).
  { unfold k. pose proof (Z.div_lt_upper_bound (offset + nbits - 1) 8 (len bytes)). lia. }
  unfold ReadBits, maxBitLength. rewrite guard_ok by lia.
  rewrite (proj2 (Z.eqb_neq nbits 0)), (proj2 (Z.ltb_ge 16 nbits)) by lia. simpl.
  rewrite (proj2 (Z.ltb_ge _ _)) by lia. rewrite window_ok by lia. fold k. simpl.
  rewrite (tail_ok _ _ _ k) by (rewrite ?len_sub; lia).
  rewrite pack_be by (rewrite len_sub; lia). rewrite mask_ok by lia.
  pose proof (stream_val_range bytes offset (Z.to_nat nbits)) as Hr.
  rewrite Z2Nat.id in Hr by lia. pose proof (pow_range nbits ltac:(lia)).
  rewrite Z.land_ones by lia. f_equal. apply (bits_ext nbits); [lia| |done|].
  - unfold u16. pose proof (Z.mod_pos_bound
      (Z.shiftr (be_get (sub (offset / 8) k bytes)) (8 * k - offset mod 8 - nbits))
      (2 ^ nbits) ltac:(lia)).
    rewrite Z.mod_small; lia.
  - intros i Hi. unfold u16. rewrite Z.mod_pow2_bits_low by lia.
    rewrite Z.mod_pow2_bits_low, Z.shiftr_spec by lia.
    unfold k. rewrite window_bit by lia. fold k.
    rewrite stream_val_testbit by lia. f_equal. lia.
Qed.

Lemma ReadBits_ok bytes offset nbits :
  0 ≤ offset → 1 ≤ nbits ≤ 16 → offset + nbits ≤ 8 * len bytes →
  offset + nbits ≤ 65536 → len bytes < 2 ^ 29 →
  ReadBits bytes offset nbits = Ret (stream_val bytes offset (Z.to_nat nbits)).
Proof. intros. apply ReadBits_seen; rewrite ?seen_small; lia. Qed.

Lemma ReadBits_wraps bytes offset nbits :
  0 ≤ offset < 65536 → 1 ≤ nbits ≤ 16 → offset + nbits ≤ seen bytes →
  65536 < offset + nbits → ReadBits bytes offset nbits = Panic.
Proof.
  intros. pose proof (seen_le bytes). unfold ReadBits, maxBitLength. rewrite guard_ok by lia.
  rewrite (proj2 (Z.eqb_neq nbits 0)), (proj2 (Z.ltb_ge 16 nbits)) by lia. simpl.
  rewrite (proj2 (Z.ltb_ge _ _)) by lia. by rewrite window_wraps by lia.
Qed.

(** For every argument of [ReadBits] at its Go type, the call returns the value
    of the addressed bits of the MSB-first stream; it reports an error exactly
    when the length is not in [1,16] or the run leaves the bits the range check
    counts, and it panics exactly when the run ends beyond bit 65536, where the
    uint16 end position wraps around.  The check counts all bits of a slice
    below 2^29 bytes, and their number modulo 2^32 beyond. *)
Theorem ReadBits_total bytes offset nbits :
  0 ≤ offset < 65536 → 0 ≤ nbits < 256 →
  ReadBits bytes offset nbits =
    if decide (nbits = 0 ∨ 16 < nbits) then Fail (Errorf "length out of range")
    else if decide (seen bytes < offset + nbits) then Fail (Errorf "read range exceeds bits")
    else if decide (65536 < offset + nbits) then Panic
    else Ret (stream_val bytes offset (Z.to_nat nbits)).
Proof.
  intros. repeat case_decide.
  - unfold ReadBits, maxBitLength.
    destruct (Z.eqb_spec nbits 0), (Z.ltb_spec 16 nbits); simpl; done || lia.
  - unfold ReadBits, maxBitLength. rewrite guard_ok by lia.
    destruct (Z.eqb_spec nbits 0), (Z.ltb_spec 16 nbits); [lia..|]. simpl.
    by rewrite (proj2 (Z.ltb_lt _ _)) by lia.
  - by apply ReadBits_wraps; lia.
  - apply ReadBits_seen; lia.
Qed.

Lemma ReadBits_total_witness : ReadBits [x0f; xf0] 4 8 = Ret 255.
Proof. rewrite (ReadBits_total [x0f; xf0] 4 8); [by vm_compute|done..]. Defined.

(** ** WriteBits *)

(** [bytes'] is [bytes] with the run at [offset] replaced by [val]. *)
Definition written (bytes : list byte) (offset nbits val : Z) (bytes' : list byte) : Prop :=
  length bytes' = length bytes ∧
  ∀ i, 0 ≤ i < 8 * len bytes → bit_at bytes' i = stream_upd bytes offset nbits val i.

(** The new window value: target bits from [val], the others kept. *)
Lemma merge_bit a nbits val t i :
  1 ≤ nbits ≤ 16 → 0 ≤ val < 2 ^ nbits → 0 ≤ t < 8 → 0 ≤ i < 32 →
  Z.testbit (Z.lor (Z.ldiff a (u32 (Z.shiftl (Z.ones nbits) t))) (u32 (Z.shiftl val t))) i =
    if decide (t ≤ i < t + nbits) then Z.testbit val (i - t) else Z.testbit a i.
Proof.
  intros. unfold u32. rewrite Z.lor_spec, Z.ldiff_spec.
  rewrite !Z.mod_pow2_bits_low, !Z.shiftl_spec by lia.
  case_decide.
  - rewrite Z.ones_spec_low by lia. by rewrite andb_false_r.
  - destruct (decide (i < t)).
    + rewrite !(Z.testbit_neg_r _ (i - t)) by lia. by rewrite andb_true_r, orb_false_r.
    + rewrite Z.ones_spec_high, (testbit_above nbits val) by lia.
      by rewrite andb_true_r, orb_false_r.
Qed.

Lemma WriteBits_seen bytes offset nbits val :
  0 ≤ offset → 1 ≤ nbits ≤ 16 → offset + nbits ≤ seen bytes →
  offset + nbits ≤ 65536 → 0 ≤ val < 2 ^ nbits →
  ∃ bytes', WriteBits bytes offset nbits val = Ret bytes' ∧
            written bytes offset nbits val bytes'.
Proof.
  intros. pose proof (seen_le bytes). destruct (window_geometry offset nbits) as (Hk&?&?&?&?); [lia..|].
  set (k := (offset + nbits - 1) / 8 + 1 - offset / 8) in *.
  pose proof (Z.div_pos offset 8 ltac:(lia) ltac:(lia)).
  assert (offset / 8 + k ≤ len bytes).
  { unfold k. pose proof (Z.div_lt_upper_bound (offset + nbits - 1) 8 (len bytes)). lia. }
  unfold WriteBits, maxBitLength. rewrite guard_ok by lia.
  rewrite (proj2 (Z.eqb_neq nbits 0)), (proj2 (Z.ltb_ge 16 nbits)) by lia. simpl.
  rewrite (proj2 (Z.ltb_ge (seen _) _)) by lia. rewrite mask_ok by lia.
  rewrite (proj2 (Z.ltb_ge (Z.ones nbits) val)) by (rewrite Z.ones_equiv; lia).
  rewrite window_ok by lia. fold k. simpl.
  rewrite (tail_ok _ _ _ k), pack_be, length_sub by (rewrite ?len_sub; lia).
  eexists. split; [reflexivity|]. split; [by rewrite length_splice by len_lia|].
  intros i Hi. rewrite bit_at_splice by len_lia.
  autorewrite with bytes. unfold stream_upd. case_decide.
  - rewrite bit_at_be_put, merge_bit by lia. rewrite Z2Nat.id by lia.
    repeat case_decide; try lia; [f_equal; lia|].
    unfold k. rewrite window_bit by lia. f_equal. fold k. lia.
  - by rewrite decide_False by lia.
Qed.

Lemma WriteBits_seen_big bytes offset nbits val :
  0 ≤ offset < 65536 → 1 ≤ nbits ≤ 16 → offset + nbits ≤ seen bytes →
  2 ^ nbits ≤ val → WriteBits bytes offset nbits val = Fail (Errorf "value does not fit").
Proof.
  intros. unfold WriteBits, maxBitLength. rewrite guard_ok by lia.
  rewrite (proj2 (Z.eqb_neq nbits 0)), (proj2 (Z.ltb_ge 16 nbits)) by lia. simpl.
  rewrite (proj2 (Z.ltb_ge (seen _) _)) by lia. rewrite mask_ok by lia.
  by rewrite (proj2 (Z.ltb_lt _ _)) by (rewrite Z.ones_equiv; lia).
Qed.

(** For the slices of the page layout. *)
Lemma WriteBits_ok bytes offset nbits val :
  0 ≤ offset → 1 ≤ nbits ≤ 16 → offset + nbits ≤ 8 * len bytes →
  offset + nbits ≤ 65536 → len bytes < 2 ^ 29 → 0 ≤ val < 2 ^ nbits →
  ∃ bytes', WriteBits bytes offset nbits val = Ret bytes' ∧
            written bytes offset nbits val bytes'.
Proof. intros. apply WriteBits_seen; rewrite ?seen_small; lia. Qed.
Lemma WriteBits_big bytes offset nbits val :
  0 ≤ offset < 65536 → 1 ≤ nbits ≤ 16 → offset + nbits ≤ 8 * len bytes → len bytes < 2 ^ 29 →
  2 ^ nbits ≤ val → WriteBits bytes offset nbits val = Fail (Errorf "value does not fit").
Proof. intros. apply WriteBits_seen_big; rewrite ?seen_small; lia. Qed.

Lemma WriteBits_wraps bytes offset nbits val :
  0 ≤ offset < 65536 → 1 ≤ nbits ≤ 16 → offset + nbits ≤ seen bytes →
  val < 2 ^ nbits → 65536 < offset + nbits → WriteBits bytes offset nbits val = Panic.
Proof.
  intros. pose proof (seen_le bytes). unfold WriteBits, maxBitLength. rewrite guard_ok by lia.
  rewrite (proj2 (Z.eqb_neq nbits 0)), (proj2 (Z.ltb_ge 16 nbits)) by lia. simpl.
  rewrite (proj2 (Z.ltb_ge (seen _) _)) by lia. rewrite mask_ok by lia.
  rewrite (proj2 (Z.ltb_ge _ _)) by (rewrite Z.ones_equiv; lia).
  by rewrite window_wraps by lia.
Qed.

(** C34: for every argument of [WriteBits] at its Go type, the call overwrites
    exactly the addressed bits of the stream and keeps every other bit and the
    length; it reports an error, leaving the slice alone, exactly when the length
    is not in [1,16], the run leaves the bits the range check counts or the value
    does not fit; it panics exactly when the run ends beyond bit 65536.  The
    check counts all bits of a slice below 2^29 bytes; beyond, it counts them
    modulo 2^32. *)
Theorem WriteBits_total bytes offset nbits val :
  0 ≤ offset < 65536 → 0 ≤ nbits < 256 → 0 ≤ val < 65536 →
  (len bytes < 2 ^ 29 → seen bytes = 8 * len bytes) ∧
  if decide (nbits = 0 ∨ 16 < nbits)
  then WriteBits bytes offset nbits val = Fail (Errorf "length out of range")
  else if decide (seen bytes < offset + nbits)
  then WriteBits bytes offset nbits val = Fail (Errorf "write range exceeds bits")
  else if decide (2 ^ nbits ≤ val)
  then WriteBits bytes offset nbits val = Fail (Errorf "value does not fit")
  else if decide (65536 < offset + nbits)
  then WriteBits bytes offset nbits val = Panic
  else ∃ bytes', WriteBits bytes offset nbits val = Ret bytes' ∧
                 written bytes offset nbits val bytes'.
Proof.
  intros. split; [apply seen_small|]. repeat case_decide.
  - unfold WriteBits, maxBitLength.
    destruct (Z.eqb_spec nbits 0), (Z.ltb_spec 16 nbits); simpl; done || lia.
  - unfold WriteBits, maxBitLength. rewrite guard_ok by lia.
    destruct (Z.eqb_spec nbits 0), (Z.ltb_spec 16 nbits); [lia..|]. simpl.
    by rewrite (proj2 (Z.ltb_lt _ _)) by lia.
  - apply WriteBits_seen_big; lia.
  - apply WriteBits_wraps; lia.
  - apply WriteBits_seen; lia.
Qed.

Lemma WriteBits_total_witness :
  ∃ bytes', WriteBits [x00; x00] 4 8 255 = Ret bytes' ∧ written [x00; x00] 4 8 255 bytes'.
Proof. apply (WriteBits_total [x00; x00] 4 8 255); done. Defined.

(** Reading the run just written, and any run disjoint from it. *)
Lemma stream_val_written bytes offset nbits val bytes' :
  written bytes offset nbits val bytes' →
  0 ≤ offset → 0 ≤ nbits → offset + nbits ≤ 8 * len bytes → 0 ≤ val < 2 ^ nbits →
  stream_val bytes' offset (Z.to_nat nbits) = val.
Proof.
  intros [_ Hw] ????. pose proof (stream_val_range bytes' offset (Z.to_nat nbits)) as Hr.
  rewrite Z2Nat.id in Hr by lia. apply (bits_ext nbits); [done..|].
  intros i Hi. rewrite stream_val_testbit, Hw by lia. unfold stream_upd.
  rewrite decide_True by lia. f_equal. lia.
Qed.

Lemma stream_val_written_ne bytes offset nbits val bytes' off2 n2 :
  written bytes offset nbits val bytes' →
  0 ≤ off2 → 0 ≤ n2 → off2 + n2 ≤ 8 * len bytes →
  off2 + n2 ≤ offset ∨ offset + nbits ≤ off2 →
  stream_val bytes' off2 (Z.to_nat n2) = stream_val bytes off2 (Z.to_nat n2).
Proof.
  intros [_ Hw] ????. pose proof (stream_val_range bytes' off2 (Z.to_nat n2)).
  apply (bits_ext (Z.of_nat (Z.to_nat n2))); [lia|done|apply stream_val_range|].
  intros i Hi. rewrite !stream_val_testbit, Hw by lia. unfold stream_upd.
  by rewrite decide_False by lia.
Qed.

Lemma written_length bytes offset nbits val bytes' :
  written bytes offset nbits val bytes' → length bytes' = length bytes.
Proof. by intros []. Qed.

(** A byte slice is determined by its bits, so [written] has one solution. *)
Lemma bit_at_ext l1 l2 :
  length l1 = length l2 → (∀ i, 0 ≤ i < 8 * len l1 → bit_at l1 i = bit_at l2 i) → l1 = l2.
Proof.
  intros Hl Hb. apply be_get_inj; [done|].
  apply (bits_ext (8 * len l1)); [lia|..].
  - rewrite Z.pow_mul_r by lia. apply be_get_range.
  - rewrite Z.pow_mul_r, Hl by lia. apply be_get_range.
  - intros i Hi. rewrite !be_get_testbit by lia. rewrite Hb by lia. by rewrite Hl.
Qed.

End Bits.
