(* ===== verification/PageLayout.v ===== *)
(** * Package page: the raw page and its packed structures

    The fixed-size arrays of src/internal/storage/page: the page frame
    (page.go), the 4-byte slot entry (slot_entry.go), the 24-byte page header
    (page_header.go) and the 12-byte tuple header (tuple.go).  A Go view holds a
    pointer into the page's backing array; here an accessor works on the bytes
    the pointer designates and a setter returns the new bytes, which
    [SlottedPage] writes back at the view's position. *)

From S2P Require Import Prelude Bytes Bits.
Import Bits.

(** ** page.go *)

Definition PageSize : Z := 8192.

(** The backing array of a frame, of length [PageSize]. *)
Abbreviation page := (list byte).
Definition wf_page (p : page) : Prop := len p = PageSize.

(** [NewPage]: a fresh, zeroed frame. *)
Definition NewPage : page := zeroes PageSize.

Definition HeaderSize : Z := 24.
Definition SlotEntrySize : Z := 4.
Definition TupleHeaderSize : Z := 12.

(** [v, _ := util.ReadBits(...)]: the value is 0 when there is an error. *)
Definition or_zero (r : res Z) : Z := match r with Ret v => v | _ => 0 end.

(** ** slot_entry.go *)

Module SlotEntry.
Definition offsetBitPos : Z := 0.
Definition offsetBitLen : Z := 15.
Definition lengthBitPos : Z := offsetBitPos + offsetBitLen.
Definition lengthBitLen : Z := 15.
Definition flagBitPos : Z := lengthBitPos + lengthBitLen.
Definition flagBitLen : Z := 2.

Definition Offset (e : list byte) : Z := or_zero (ReadBits e offsetBitPos offsetBitLen).
Definition SetOffset (e : list byte) (val : Z) : res (list byte) :=
  WriteBits e offsetBitPos offsetBitLen val.
Definition Length (e : list byte) : Z := or_zero (ReadBits e lengthBitPos lengthBitLen).
Definition SetLength (e : list byte) (val : Z) : res (list byte) :=
  WriteBits e lengthBitPos lengthBitLen val.
Definition Flag (e : list byte) : Z := u8 (or_zero (ReadBits e flagBitPos flagBitLen)).
Definition SetFlag (e : list byte) (val : Z) : res (list byte) :=
  WriteBits e flagBitPos flagBitLen val.

(** The three fields as a record. *)
Record fields := Fields { off : Z; length_ : Z; flag : Z }.
Definition view (e : list byte) : fields := Fields (Offset e) (Length e) (Flag e).
End SlotEntry.

(** ** page_header.go *)

Module PageHeader.
Definition PdLsn (h : list byte) : Z := be_at 0 8 h.
Definition SetPdLsn (h : list byte) (pd : Z) : list byte := be_set 0 8 pd h.
Definition PdChecksum (h : list byte) : Z := be_at 8 2 h.
Definition SetPdChecksum (h : list byte) (pd : Z) : list byte := be_set 8 2 pd h.
Definition PdFlags (h : list byte) : Z := be_at 10 2 h.
Definition SetPdFlags (h : list byte) (pd : Z) : list byte := be_set 10 2 pd h.
Definition PdLower (h : list byte) : Z := be_at 12 2 h.
Definition SetPdLower (h : list byte) (pd : Z) : list byte := be_set 12 2 pd h.
Definition PdUpper (h : list byte) : Z := be_at 14 2 h.
Definition SetPdUpper (h : list byte) (pd : Z) : list byte := be_set 14 2 pd h.
Definition PdSpecial (h : list byte) : Z := be_at 16 2 h.
Definition SetPdSpecial (h : list byte) (pd : Z) : list byte := be_set 16 2 pd h.
Definition PdPagesize (h : list byte) : Z := be_at 18 2 h.
Definition SetPdPagesize (h : list byte) (pd : Z) : list byte := be_set 18 2 pd h.
Definition PdPruneXid (h : list byte) : Z := be_at 20 4 h.
Definition SetPdPruneXid (h : list byte) (pd : Z) : list byte := be_set 20 4 pd h.

(** The eight fields as a record. *)
Record fields := Fields {
  pd_lsn : Z; pd_checksum : Z; pd_flags : Z; pd_lower : Z;
  pd_upper : Z; pd_special : Z; pd_pagesize : Z; pd_prune_xid : Z }.
Definition view (h : list byte) : fields :=
  Fields (PdLsn h) (PdChecksum h) (PdFlags h) (PdLower h)
         (PdUpper h) (PdSpecial h) (PdPagesize h) (PdPruneXid h).
End PageHeader.

(** ** tuple.go *)

Definition FlagHasNull : Z := Z.shiftl 1 0.
Definition FlagXminCommitted : Z := Z.shiftl 1 1.
Definition FlagXminAborted : Z := Z.shiftl 1 2.
Definition FlagXmaxCommitted : Z := Z.shiftl 1 3.
Definition FlagXmaxAborted : Z := Z.shiftl 1 4.

Module TupleHeader.
Definition flagsBitPos : Z := 8 * 8.
Definition flagsBitLen : Z := 6.
Definition colCountBitPos : Z := flagsBitPos + flagsBitLen.
Definition colCountBitLen : Z := 10.

Definition TxMin (h : list byte) : Z := be_at 0 4 h.
Definition SetTxMin (h : list byte) (xid : Z) : list byte := be_set 0 4 xid h.
Definition TxMax (h : list byte) : Z := be_at 4 4 h.
Definition SetTxMax (h : list byte) (xid : Z) : list byte := be_set 4 4 xid h.
Definition Flags (h : list byte) : Z := u8 (or_zero (ReadBits h flagsBitPos flagsBitLen)).
Definition SetFlags (h : list byte) (val : Z) : res (list byte) :=
  WriteBits h flagsBitPos flagsBitLen val.
Definition HasNull (h : list byte) : bool := negb (Z.land (Flags h) FlagHasNull =? 0).
Definition ColumnCount (h : list byte) : Z := or_zero (ReadBits h colCountBitPos colCountBitLen).
Definition SetColumnCount (h : list byte) (val : Z) : res (list byte) :=
  WriteBits h colCountBitPos colCountBitLen val.
Definition Hoff (h : list byte) : Z := be_at 10 1 h.
Definition SetHoff (h : list byte) (off : Z) : list byte := be_set 10 1 off h.

(** The five fields as a record. *)
Record fields := Fields { t_xmin : Z; t_xmax : Z; flags : Z; col_count : Z; t_hoff : Z }.
Definition view (h : list byte) : fields :=
  Fields (TxMin h) (TxMax h) (Flags h) (ColumnCount h) (Hoff h).
End TupleHeader.

(** [Tuple.TupleHeader]: the first 12 bytes of a tuple's data (a slice whose
    capacity is its length), as a conversion to a pointer to an array. *)
Definition Tuple_TupleHeader (data : list byte) : res (list byte) :=
  slice 0 TupleHeaderSize data.

(** ** Packed fields *)

(** A packed field of a short array, read through [ReadBits]. *)
Lemma or_zero_ReadBits data pos n :
  len data < 4096 → 0 ≤ pos → 1 ≤ n ≤ 16 → pos + n ≤ 8 * len data →
  or_zero (ReadBits data pos n) = stream_val data pos (Z.to_nat n).
Proof. intros. by rewrite ReadBits_ok by lia. Qed.

(** Every way a packed setter can go: it succeeds exactly on a fitting value. *)
Lemma WriteBits_field data pos n val :
  len data < 4096 → 0 ≤ pos → 1 ≤ n ≤ 16 → pos + n ≤ 8 * len data → 0 ≤ val →
  (val < 2 ^ n ∧ ∃ data', WriteBits data pos n val = Ret data' ∧ written data pos n val data') ∨
  (2 ^ n ≤ val ∧ WriteBits data pos n val = Fail (Errorf "value does not fit")).
Proof.
  intros. destruct (decide (val < 2 ^ n)).
  - left. split; [done|]. apply WriteBits_ok; lia.
  - right. split; [lia|]. apply WriteBits_big; lia.
Qed.

(** A byte-aligned field written over, seen from the bit stream. *)
Lemma stream_val_be_set off n v data pos m :
  0 ≤ off → 0 ≤ n → off + n ≤ len data → 0 ≤ pos → 0 ≤ m → pos + m ≤ 8 * len data →
  pos + m ≤ 8 * off ∨ 8 * (off + n) ≤ pos →
  stream_val (be_set off n v data) pos (Z.to_nat m) = stream_val data pos (Z.to_nat m).
Proof.
  intros. unfold be_set. apply (bits_ext (Z.of_nat (Z.to_nat m)));
    [lia|apply stream_val_range..|].
  intros i Hi. rewrite !stream_val_testbit, bit_at_splice by len_lia.
  rewrite decide_False by len_lia. done.
Qed.

(** A packed run written over, seen from a byte-aligned field. *)
Lemma be_at_written data pos m v data' off n :
  written data pos m v data' → 0 ≤ off → 0 ≤ n → off + n ≤ len data →
  8 * (off + n) ≤ pos ∨ pos + m ≤ 8 * off →
  be_at off n data' = be_at off n data.
Proof.
  intros [Hl Hw] ????. unfold be_at. f_equal. apply bit_at_ext; [len_lia|].
  intros i Hi. rewrite len_sub in Hi by lia. rewrite !bit_at_sub, Hw by lia.
  unfold stream_upd. by rewrite decide_False by lia.
Qed.

(** ** Slot entries *)

Module SlotEntryFacts.
Import SlotEntry.

Lemma Offset_val e : len e = 4 → Offset e = stream_val e 0 15.
Proof. intros. by apply (or_zero_ReadBits e 0 15); unfold offsetBitPos; lia. Qed.
Lemma Length_val e : len e = 4 → Length e = stream_val e 15 15.
Proof. intros. by apply (or_zero_ReadBits e 15 15); lia. Qed.
Lemma Flag_val e : len e = 4 → Flag e = stream_val e 30 2.
Proof.
  intros. unfold Flag. change flagBitPos with 30. change flagBitLen with 2.
  rewrite or_zero_ReadBits by lia. simpl Z.to_nat.
  pose proof (stream_val_range e 30 2) as Hr. unfold u8. apply Z.mod_small.
  change (2 ^ Z.of_nat 2) with 4 in Hr. lia.
Qed.

(** The entry is the 32-bit word offset | length | flag. *)
Lemma entry_word e : len e = 4 → be_get e = Offset e * 2 ^ 17 + Length e * 2 ^ 2 + Flag e.
Proof.
  intros. rewrite Offset_val, Length_val, Flag_val by done.
  rewrite <-(stream_val_all e 32) by lia.
  rewrite (stream_val_app e 0 15 17 : stream_val e 0 32 = _).
  rewrite (stream_val_app e 15 15 2 : stream_val e (0 + Z.of_nat 15) 17 = _).
  change (15 + Z.of_nat 15) with 30. change (Z.of_nat 17) with 17. change (Z.of_nat 2) with 2. lia.
Qed.

Lemma len4 (e e' : list byte) : length e' = length e → len e = 4 → len e' = 4.
Proof. lia. Qed.

(** A setter changes exactly its field. *)
Lemma SetOffset_ok e v :
  len e = 4 → 0 ≤ v < 2 ^ 15 →
  ∃ e', SetOffset e v = Ret e' ∧ len e' = 4 ∧ view e' = Fields v (Length e) (Flag e).
Proof.
  intros He Hv. destruct (WriteBits_ok e 0 15 v) as (e'&Hw&Wr); [lia..|].
  pose proof (len4 _ _ (written_length _ _ _ _ _ Wr) He) as He'.
  exists e'. split_and!; [done|done|]. unfold view.
  rewrite !Offset_val, !Length_val, !Flag_val by done. f_equal.
  - apply (stream_val_written e 0 15 v); [done|lia..].
  - apply (stream_val_written_ne e 0 15 v e' 15 15); [done|lia..].
  - apply (stream_val_written_ne e 0 15 v e' 30 2); [done|lia..].
Qed.

Lemma SetLength_ok e v :
  len e = 4 → 0 ≤ v < 2 ^ 15 →
  ∃ e', SetLength e v = Ret e' ∧ len e' = 4 ∧ view e' = Fields (Offset e) v (Flag e).
Proof.
  intros He Hv. destruct (WriteBits_ok e 15 15 v) as (e'&Hw&Wr); [lia..|].
  pose proof (len4 _ _ (written_length _ _ _ _ _ Wr) He) as He'.
  exists e'. split_and!; [done|done|]. unfold view.
  rewrite !Offset_val, !Length_val, !Flag_val by done. f_equal.
  - apply (stream_val_written_ne e 15 15 v e' 0 15); [done|lia..].
  - apply (stream_val_written e 15 15 v); [done|lia..].
  - apply (stream_val_written_ne e 15 15 v e' 30 2); [done|lia..].
Qed.

Lemma SetFlag_ok e v :
  len e = 4 → 0 ≤ v < 4 →
  ∃ e', SetFlag e v = Ret e' ∧ len e' = 4 ∧ view e' = Fields (Offset e) (Length e) v.
Proof.
  intros He Hv. destruct (WriteBits_ok e 30 2 v) as (e'&Hw&Wr); [lia..|].
  pose proof (len4 _ _ (written_length _ _ _ _ _ Wr) He) as He'.
  exists e'. split_and!; [done|done|]. unfold view.
  rewrite !Offset_val, !Length_val, !Flag_val by done. f_equal.
  - apply (stream_val_written_ne e 30 2 v e' 0 15); [done|lia..].
  - apply (stream_val_written_ne e 30 2 v e' 15 15); [done|lia..].
  - apply (stream_val_written e 30 2 v); [done|lia..].
Qed.

Lemma entry_ranges e : len e = 4 → 0 ≤ Offset e < 2 ^ 15 ∧ 0 ≤ Length e < 2 ^ 15 ∧ 0 ≤ Flag e < 4.
Proof.
  intros. rewrite Offset_val, Length_val, Flag_val by done.
  split_and!; apply (stream_val_range e).
Qed.

(** The slot entry's setters, on any 4-byte entry and any value of their Go
    argument type: a value that fits the field is stored there and leaves the
    two other fields alone, a value that does not fit is refused; and the entry
    is the word offset:15 | length:15 | flag:2. *)
Theorem slot_entry_fields e v :
  len e = 4 → 0 ≤ v < 65536 →
  be_get e = Offset e * 2 ^ 17 + Length e * 2 ^ 2 + Flag e ∧
  (if decide (v < 2 ^ 15)
   then (∃ e', SetOffset e v = Ret e' ∧ len e' = 4 ∧ view e' = Fields v (Length e) (Flag e)) ∧
        (∃ e', SetLength e v = Ret e' ∧ len e' = 4 ∧ view e' = Fields (Offset e) v (Flag e))
   else SetOffset e v = Fail (Errorf "value does not fit") ∧
        SetLength e v = Fail (Errorf "value does not fit")) ∧
  (if decide (v < 4)
   then ∃ e', SetFlag e v = Ret e' ∧ len e' = 4 ∧ view e' = Fields (Offset e) (Length e) v
   else SetFlag e v = Fail (Errorf "value does not fit")).
Proof.
  intros. split; [by apply entry_word|]. split; case_decide.
  - split; [apply SetOffset_ok|apply SetLength_ok]; lia.
  - split; apply WriteBits_big;
      cbv [lengthBitPos lengthBitLen offsetBitPos offsetBitLen]; lia.
  - apply SetFlag_ok; lia.
  - apply WriteBits_big; change flagBitPos with 30; change flagBitLen with 2; lia.
Qed.

Lemma slot_entry_fields_witness :
  len [x00; x00; x00; x00] = 4 ∧
  ∃ e', SetFlag [x00; x00; x00; x00] 1 = Ret e' ∧ len e' = 4 ∧ view e' = Fields 0 0 1.
Proof. split; [done|]. apply (slot_entry_fields [x00; x00; x00; x00] 1); done. Defined.
End SlotEntryFacts.

(** ** Page header *)

Module PageHeaderFacts.
Import PageHeader.

(** Solve a field equation of a byte-aligned layout: the written field by
    [be_at_set], the others by [be_at_set_ne]. *)
Ltac header_field :=
  first [ rewrite be_at_set by lia; reflexivity | rewrite be_at_set_ne by lia; reflexivity ].

(** Each of the eight setters of the page header stores its value in its own
    field and changes no other field: the header behaves as a record of eight
    independent machine integers. *)
Theorem page_header_fields h v :
  len h = HeaderSize → 0 ≤ v →
  let r := view h in
  (v < 2 ^ 64 → view (SetPdLsn h v) = Fields v (pd_checksum r) (pd_flags r) (pd_lower r)
     (pd_upper r) (pd_special r) (pd_pagesize r) (pd_prune_xid r)) ∧
  (v < 2 ^ 16 →
     view (SetPdChecksum h v) = Fields (pd_lsn r) v (pd_flags r) (pd_lower r)
       (pd_upper r) (pd_special r) (pd_pagesize r) (pd_prune_xid r) ∧
     view (SetPdFlags h v) = Fields (pd_lsn r) (pd_checksum r) v (pd_lower r)
       (pd_upper r) (pd_special r) (pd_pagesize r) (pd_prune_xid r) ∧
     view (SetPdLower h v) = Fields (pd_lsn r) (pd_checksum r) (pd_flags r) v
       (pd_upper r) (pd_special r) (pd_pagesize r) (pd_prune_xid r) ∧
     view (SetPdUpper h v) = Fields (pd_lsn r) (pd_checksum r) (pd_flags r) (pd_lower r)
       v (pd_special r) (pd_pagesize r) (pd_prune_xid r) ∧
     view (SetPdSpecial h v) = Fields (pd_lsn r) (pd_checksum r) (pd_flags r) (pd_lower r)
       (pd_upper r) v (pd_pagesize r) (pd_prune_xid r) ∧
     view (SetPdPagesize h v) = Fields (pd_lsn r) (pd_checksum r) (pd_flags r) (pd_lower r)
       (pd_upper r) (pd_special r) v (pd_prune_xid r)) ∧
  (v < 2 ^ 32 → view (SetPdPruneXid h v) = Fields (pd_lsn r) (pd_checksum r) (pd_flags r)
     (pd_lower r) (pd_upper r) (pd_special r) (pd_pagesize r) v).
Proof.
  intros Hh Hv r. unfold HeaderSize in Hh.
  split_and!; intros; split_and?; unfold view, r, SetPdLsn, SetPdChecksum, SetPdFlags,
    SetPdLower, SetPdUpper, SetPdSpecial, SetPdPagesize, SetPdPruneXid, PdLsn, PdChecksum,
    PdFlags, PdLower, PdUpper, PdSpecial, PdPagesize, PdPruneXid; simpl;
    f_equal; header_field.
Qed.

Lemma page_header_fields_witness :
  view (SetPdLsn (zeroes HeaderSize) 7) = Fields 7 0 0 0 0 0 0 0.
Proof. apply (page_header_fields (zeroes HeaderSize) 7); done || by rewrite length_zeroes. Defined.
End PageHeaderFacts.

(** ** Tuple header *)

Module TupleHeaderFacts.
Import TupleHeader.

Lemma Flags_val h : len h = 12 → Flags h = stream_val h 64 6.
Proof.
  intros. unfold Flags. change flagsBitPos with 64. change flagsBitLen with 6.
  rewrite or_zero_ReadBits by lia. simpl Z.to_nat.
  pose proof (stream_val_range h 64 6) as Hr. unfold u8. apply Z.mod_small.
  change (2 ^ Z.of_nat 6) with 64 in Hr. lia.
Qed.
Lemma ColumnCount_val h : len h = 12 → ColumnCount h = stream_val h 70 10.
Proof. intros. by apply (or_zero_ReadBits h 70 10); lia. Qed.

Lemma SetFlags_ok h v :
  len h = 12 → 0 ≤ v < 64 →
  ∃ h', SetFlags h v = Ret h' ∧ len h' = 12 ∧
        view h' = Fields (TxMin h) (TxMax h) v (ColumnCount h) (Hoff h).
Proof.
  intros Hh Hv. destruct (WriteBits_ok h 64 6 v) as (h'&Hw&Wr); [lia..|].
  pose proof (written_length _ _ _ _ _ Wr) as Hl.
  exists h'. split_and!; [done|lia|]. unfold view, TxMin, TxMax, Hoff.
  rewrite !Flags_val, !ColumnCount_val by lia.
  rewrite !(be_at_written h 64 6 v h') by (done || lia). f_equal.
  - apply (stream_val_written h 64 6 v); [done|lia..].
  - apply (stream_val_written_ne h 64 6 v h' 70 10); [done|lia..].
Qed.

Lemma SetColumnCount_ok h v :
  len h = 12 → 0 ≤ v < 1024 →
  ∃ h', SetColumnCount h v = Ret h' ∧ len h' = 12 ∧
        view h' = Fields (TxMin h) (TxMax h) (Flags h) v (Hoff h).
Proof.
  intros Hh Hv. destruct (WriteBits_ok h 70 10 v) as (h'&Hw&Wr); [lia..|].
  pose proof (written_length _ _ _ _ _ Wr) as Hl.
  exists h'. split_and!; [done|lia|]. unfold view, TxMin, TxMax, Hoff.
  rewrite !Flags_val, !ColumnCount_val by lia.
  rewrite !(be_at_written h 70 10 v h') by (done || lia). f_equal.
  - apply (stream_val_written_ne h 70 10 v h' 64 6); [done|lia..].
  - apply (stream_val_written h 70 10 v); [done|lia..].
Qed.

(** A byte-aligned setter of the tuple header. *)
Lemma view_be_set h pos n v :
  len h = 12 → 0 ≤ pos → 0 ≤ n → pos + n ≤ 12 → pos + n ≤ 8 ∨ 10 ≤ pos →
  view (be_set pos n v h) =
    Fields (be_at 0 4 (be_set pos n v h)) (be_at 4 4 (be_set pos n v h))
           (Flags h) (ColumnCount h) (be_at 10 1 (be_set pos n v h)).
Proof.
  intros. unfold view, TxMin, TxMax, Hoff.
  rewrite !Flags_val, !ColumnCount_val by (autorewrite with bytes; lia).
  f_equal; [apply (stream_val_be_set _ _ _ _ 64 6)|apply (stream_val_be_set _ _ _ _ 70 10)]; lia.
Qed.

Lemma SetHoff_ok h v :
  len h = 12 → 0 ≤ v < 256 →
  len (SetHoff h v) = 12 ∧
  view (SetHoff h v) = Fields (TxMin h) (TxMax h) (Flags h) (ColumnCount h) v.
Proof.
  intros. unfold SetHoff. split; [autorewrite with bytes; lia|].
  rewrite view_be_set by lia. f_equal; PageHeaderFacts.header_field.
Qed.

(** The five setters of the tuple header: a value that fits its field is
    stored there and changes no other field, and the two packed setters refuse a
    value beyond 6 or 10 bits, leaving the header as it was. *)
Theorem tuple_header_fields h v :
  len h = TupleHeaderSize → 0 ≤ v < 2 ^ 32 →
  view (SetTxMin h v) = Fields v (TxMax h) (Flags h) (ColumnCount h) (Hoff h) ∧
  view (SetTxMax h v) = Fields (TxMin h) v (Flags h) (ColumnCount h) (Hoff h) ∧
  (v < 256 → view (SetHoff h v) = Fields (TxMin h) (TxMax h) (Flags h) (ColumnCount h) v) ∧
  (if decide (v < 64)
   then ∃ h', SetFlags h v = Ret h' ∧
              view h' = Fields (TxMin h) (TxMax h) v (ColumnCount h) (Hoff h)
   else v < 256 → SetFlags h v = Fail (Errorf "value does not fit")) ∧
  (if decide (v < 1024)
   then ∃ h', SetColumnCount h v = Ret h' ∧
              view h' = Fields (TxMin h) (TxMax h) (Flags h) v (Hoff h)
   else v < 65536 → SetColumnCount h v = Fail (Errorf "value does not fit")).
Proof.
  intros Hh Hv. unfold TupleHeaderSize in Hh. split_and!.
  - unfold SetTxMin. rewrite view_be_set by lia. f_equal; PageHeaderFacts.header_field.
  - unfold SetTxMax. rewrite view_be_set by lia. f_equal; PageHeaderFacts.header_field.
  - intros. apply SetHoff_ok; lia.
  - case_decide; [destruct (SetFlags_ok h v) as (h'&?&?&?); [lia..|by exists h']|].
    intros. apply WriteBits_big; change flagsBitPos with 64; change flagsBitLen with 6; lia.
  - case_decide; [destruct (SetColumnCount_ok h v) as (h'&?&?&?); [lia..|by exists h']|].
    intros. apply WriteBits_big; change colCountBitPos with 70; change colCountBitLen with 10; lia.
Qed.

Lemma tuple_header_fields_witness :
  view (SetTxMin (zeroes TupleHeaderSize) 7) = Fields 7 0 0 0 0.
Proof. apply (tuple_header_fields (zeroes TupleHeaderSize) 7); done || by rewrite length_zeroes. Defined.
End TupleHeaderFacts.
