(* ===== verification/SlottedPage.v ===== *)
(** * Package page: the slotted page (src/internal/storage/page/slotted_page.go)

    A slotted page is a view over a page frame: a header, a slot directory that
    grows up from it, and tuples that grow down from the end of the page.  The
    operations work on the frame's bytes; [rep p ts] says that the bytes [p]
    hold the tuples [ts] in slot order, and is the abstraction through which the
    heap sees a page. *)

From S2P Require Import Prelude Bytes Bits PageLayout.

Module SlottedPage.
Import PageHeader SlotEntry.

(** [Header]: the first 24 bytes; [set_header] is a write through that view. *)
Definition Header (p : page) : list byte := sub 0 HeaderSize p.
Definition set_header (h : list byte) (p : page) : page := splice 0 h p.

Definition SlotCount (p : page) : Z := u16 (PdUpper (Header p) - HeaderSize) / SlotEntrySize.

(** A slot entry is a pointer into the page: its position. *)
Definition entry (p : page) (at_ : Z) : list byte := sub at_ SlotEntrySize p.
Definition set_entry (at_ : Z) (e : list byte) (p : page) : page := splice at_ e p.

Definition slotEntryAt (p : page) (i : Z) : res Z :=
  let at_ := u16 (HeaderSize + u16 (i * SlotEntrySize)) in
  let! _ := slice at_ (u16 (at_ + SlotEntrySize)) p in
  Ret at_.

Definition SlotEntryAt (p : page) (i : Z) : res Z :=
  if SlotCount p <=? i then Panic else slotEntryAt p i.

(** [Slots]: the slot count is read once, the entries while the loop
    [for i := uint16(0); i < n; i++] runs ([todo] iterations left).  The consumer
    [yield] has a state [S] of which the page [p] may be a part, and answers
    whether to go on. *)
Fixpoint Slots_loop {S} (p : S → page) (yield : Z → Z → st S bool) (todo : nat) (i : Z) : st S unit :=
  match todo with
  | O => st_ret tt
  | Datatypes.S todo =>
      do! at_ := st_lift (λ s, slotEntryAt (p s) i) in
      do! more := yield i at_ in
      if more : bool then Slots_loop p yield todo (u16 (i + 1)) else st_ret tt
  end.

Definition Slots {S} (p : S → page) (yield : Z → Z → st S bool) : st S unit := λ s,
  Slots_loop p yield (Z.to_nat (SlotCount (p s))) 0 s.

Definition LocateTupleByEntry (p : page) (at_ : Z) : res (list byte) :=
  let e := entry p at_ in
  slice (Offset e) (u16 (Offset e + Length e)) p.

(** [Init]: clear the frame, then set the boundary pointers. *)
Definition Init (p : page) : page :=
  let p := zeroes (len p) in
  let p := set_header (SetPdUpper (Header p) HeaderSize) p in
  let p := set_header (SetPdLower (Header p) PageSize) p in
  set_header (SetPdPagesize (Header p) PageSize) p.

Definition FreeSpace (p : page) : Z := u16 (PdLower (Header p) - PdUpper (Header p)).

(** [InsertTuple]: the page is the state, the slot index the result.  [h] and
    [entry] are views, so every read goes through the current bytes. *)
Definition InsertTuple (data : list byte) : st page Z := λ p,
  if FreeSpace p <? len data + SlotEntrySize then (p, Fail ErrNoSpace)
  else
    let dataLen := u16 (len data) in
    let slotIndex := SlotCount p in
    let tupleOffset := u16 (PdLower (Header p) - dataLen) in
    (do! at_ := st_lift (λ p, slotEntryAt p slotIndex) in
     do! _ := st_wrap "page: insert tuple" (λ p,
       match SetOffset (entry p at_) tupleOffset with
       | Ret e => (set_entry at_ e p, Ret tt) | Fail e => (p, Fail e) | Panic => (p, Panic) end) in
     do! _ := st_wrap "page: insert tuple" (λ p,
       match SetLength (entry p at_) dataLen with
       | Ret e => (set_entry at_ e p, Ret tt) | Fail e => (p, Fail e) | Panic => (p, Panic) end) in
     do! dst := st_lift (λ p, slice tupleOffset (PdLower (Header p)) p) in
     do! _ := (λ p, (splice tupleOffset (take (length dst) data) p, Ret tt)) in
     do! _ := (λ p, (set_header (SetPdUpper (Header p)
                        (u16 (PdUpper (Header p) + SlotEntrySize))) p, Ret tt)) in
     do! _ := (λ p, (set_header (SetPdLower (Header p) tupleOffset) p, Ret tt)) in
     st_ret slotIndex) p.

(** ** Abstraction: the tuples a page holds *)

(** Bytes taken by a list of tuples. *)
Definition total (ts : list (list byte)) : Z := foldr (λ t acc, len t + acc) 0 ts.

(** Position of slot [i]'s entry and of its tuple. *)
Definition slot_pos (i : nat) : Z := HeaderSize + SlotEntrySize * Z.of_nat i.
Definition tuple_pos (ts : list (list byte)) (i : nat) : Z := PageSize - total (take (S i) ts).

Record rep (p : page) (ts : list (list byte)) : Prop := Rep {
  rep_size : wf_page p;
  rep_upper : PdUpper (Header p) = slot_pos (length ts);
  rep_lower : PdLower (Header p) = PageSize - total ts;
  rep_fits : slot_pos (length ts) + total ts ≤ PageSize;
  rep_slots : ∀ i t, ts !! i = Some t →
    view (entry p (slot_pos i)) = Fields (tuple_pos ts i) (len t) 0 ∧
    sub (tuple_pos ts i) (len t) p = t;
  rep_free : sub (slot_pos (length ts)) (PageSize - total ts - slot_pos (length ts)) p =
    zeroes (PageSize - total ts - slot_pos (length ts)) }.

(** Whether one more tuple fits beside [ts]. *)
Definition fits (ts : list (list byte)) (data : list byte) : bool :=
  slot_pos (length ts) + total ts + len data + SlotEntrySize <=? PageSize.

(** ** Sums *)

Lemma total_app ts ts' : total (ts ++ ts') = total ts + total ts'.
Proof. induction ts as [|t ts IH]; simpl; lia. Qed.

Lemma total_nonneg ts : 0 ≤ total ts.
Proof. induction ts as [|t ts IH]; simpl; lia. Qed.

Lemma total_take_S ts i t : ts !! i = Some t → total (take (S i) ts) = total (take i ts) + len t.
Proof. intros H. rewrite (take_S_r _ _ t) by done. rewrite total_app. simpl. lia. Qed.

Lemma total_take_le ts i : total (take i ts) ≤ total ts.
Proof.
  rewrite <-(take_drop i ts) at 2. rewrite total_app. pose proof (total_nonneg (drop i ts)). lia.
Qed.

Lemma tuple_pos_app ts ts' i : (i < length ts)%nat → tuple_pos (ts ++ ts') i = tuple_pos ts i.
Proof. intros. unfold tuple_pos. by rewrite take_app_le by lia. Qed.

Lemma tuple_pos_last ts t : tuple_pos (ts ++ [t]) (length ts) = PageSize - (total ts + len t).
Proof.
  unfold tuple_pos. rewrite take_ge by (rewrite length_app; simpl; lia).
  rewrite total_app. simpl. lia.
Qed.

(** The tuples tile the end of the page. *)
Lemma tuple_bounds ts i t :
  ts !! i = Some t → PageSize - total ts ≤ tuple_pos ts i ∧ tuple_pos ts i + len t ≤ PageSize.
Proof.
  intros H. unfold tuple_pos. rewrite (total_take_S _ _ t) by done.
  pose proof (total_take_le ts (S i)) as Hle. rewrite (total_take_S _ _ t) in Hle by done.
  pose proof (total_nonneg (take i ts)). lia.
Qed.

(** ** Header fields of a page *)

Lemma be_at_header off n p :
  wf_page p → 0 ≤ off → 0 ≤ n → off + n ≤ 24 → be_at off n (Header p) = be_at off n p.
Proof.
  intros. unfold be_at, Header, HeaderSize. by rewrite sub_sub by lia.
Qed.

Lemma be_set_header off n v p :
  wf_page p → 0 ≤ off → 0 ≤ n → off + n ≤ 24 →
  set_header (be_set off n v (Header p)) p = be_set off n v p.
Proof.
  unfold wf_page, PageSize. intros. unfold be_set, Header, set_header, HeaderSize.
  apply list_eq. intros i.
  assert (len (sub 0 24 p) = 24) by (rewrite len_sub; lia).
  rewrite !lookup_splice by (rewrite ?length_splice; len_lia).
  rewrite length_splice by len_lia. rewrite length_be_put, length_sub by lia.
  rewrite lookup_sub. repeat case_decide; try lia; try done; f_equal; lia.
Qed.

Lemma PdUpper_at p : wf_page p → PdUpper (Header p) = be_at 14 2 p.
Proof. intros. by apply be_at_header. Qed.
Lemma PdLower_at p : wf_page p → PdLower (Header p) = be_at 12 2 p.
Proof. intros. by apply be_at_header. Qed.
Lemma set_PdUpper p v : wf_page p → set_header (SetPdUpper (Header p) v) p = be_set 14 2 v p.
Proof. intros. by apply be_set_header. Qed.
Lemma set_PdLower p v : wf_page p → set_header (SetPdLower (Header p) v) p = be_set 12 2 v p.
Proof. intros. by apply be_set_header. Qed.
Lemma set_PdPagesize p v : wf_page p → set_header (SetPdPagesize (Header p) v) p = be_set 18 2 v p.
Proof. intros. by apply be_set_header. Qed.

Lemma be_at_splice_ne off n off' d p :
  0 ≤ off → 0 ≤ off' → off' + len d ≤ len p → off + n ≤ off' ∨ off' + len d ≤ off →
  be_at off n (splice off' d p) = be_at off n p.
Proof. intros. unfold be_at. by rewrite sub_splice_ne. Qed.

(** ** Init *)

Lemma Init_eq p :
  wf_page p → Init p = be_set 18 2 8192 (be_set 12 2 8192 (be_set 14 2 24 (zeroes 8192))).
Proof.
  intros Hp. unfold Init. unfold wf_page in Hp. rewrite Hp. unfold PageSize, HeaderSize.
  assert (wf_page (zeroes 8192)) as H1 by (unfold wf_page; by rewrite length_zeroes).
  rewrite set_PdUpper by done.
  assert (wf_page (be_set 14 2 24 (zeroes 8192))) as H2.
  { unfold wf_page, PageSize in *. rewrite length_be_set; lia. }
  rewrite set_PdLower by done.
  assert (wf_page (be_set 12 2 8192 (be_set 14 2 24 (zeroes 8192)))) as H3.
  { unfold wf_page, PageSize in *. rewrite length_be_set; lia. }
  by rewrite set_PdPagesize.
Qed.

Lemma Init_rep p : wf_page p → rep (Init p) [].
Proof.
  intros Hp. rewrite Init_eq by done. set (z := zeroes 8192).
  assert (len z = 8192) as Hz by (unfold z; by rewrite length_zeroes).
  assert (len (be_set 14 2 24 z) = 8192) as H1 by (rewrite length_be_set; lia).
  assert (len (be_set 12 2 8192 (be_set 14 2 24 z)) = 8192) as H2 by (rewrite length_be_set; lia).
  assert (wf_page (be_set 18 2 8192 (be_set 12 2 8192 (be_set 14 2 24 z)))) as Hw.
  { unfold wf_page, PageSize. rewrite length_be_set; lia. }
  split; [done|..].
  - rewrite PdUpper_at by done. rewrite !be_at_set_ne by lia. by rewrite be_at_set by lia.
  - rewrite PdLower_at by done. rewrite be_at_set_ne by lia. by rewrite be_at_set by lia.
  - by vm_compute.
  - intros i t Hi. by rewrite lookup_nil in Hi.
  - change (sub 24 8168 (be_set 18 2 8192 (be_set 12 2 8192 (be_set 14 2 24 z))) = zeroes 8168).
    rewrite !sub_be_set_ne by lia. unfold z. by apply sub_zeroes.
Qed.

(** ** Reading a well-formed page *)

Lemma rep_bounds p ts :
  rep p ts → len p = 8192 ∧ 0 ≤ total ts ∧ 24 + 4 * len ts + total ts ≤ 8192.
Proof.
  intros [H1 _ _ H2 _ _]. unfold wf_page, slot_pos, PageSize, HeaderSize, SlotEntrySize in *.
  pose proof (total_nonneg ts). lia.
Qed.

Lemma SlotCount_rep p ts : rep p ts → SlotCount p = len ts.
Proof.
  intros H. pose proof (rep_bounds _ _ H). unfold SlotCount. rewrite (rep_upper _ _ H).
  unfold slot_pos, HeaderSize, SlotEntrySize. rewrite u16_small by lia.
  replace (24 + 4 * len ts - 24) with (len ts * 4) by lia. by apply Z.div_mul.
Qed.

Lemma FreeSpace_rep p ts : rep p ts → FreeSpace p = PageSize - total ts - slot_pos (length ts).
Proof.
  intros H. pose proof (rep_bounds _ _ H). unfold FreeSpace.
  rewrite (rep_upper _ _ H), (rep_lower _ _ H).
  apply u16_small. unfold slot_pos, HeaderSize, SlotEntrySize, PageSize. lia.
Qed.

Lemma slotEntryAt_ok p i :
  wf_page p → slot_pos i + 4 ≤ PageSize → slotEntryAt p (Z.of_nat i) = Ret (slot_pos i).
Proof.
  unfold wf_page, slot_pos, PageSize, HeaderSize, SlotEntrySize. intros.
  unfold slotEntryAt, HeaderSize, SlotEntrySize.
  rewrite (u16_small (Z.of_nat i * 4)), (u16_small (24 + _)), (u16_small (_ + 4)) by lia.
  rewrite slice_ok by lia. simpl. f_equal. lia.
Qed.

Lemma slot_room p ts i t : rep p ts → ts !! i = Some t → slot_pos i + 4 ≤ PageSize - total ts.
Proof.
  intros H Hi. apply rep_bounds in H. apply lookup_lt_Some in Hi.
  unfold slot_pos, PageSize, HeaderSize, SlotEntrySize. lia.
Qed.

Lemma slotEntryAt_rep p ts i t :
  rep p ts → ts !! i = Some t → slotEntryAt p (Z.of_nat i) = Ret (slot_pos i).
Proof.
  intros H Hi. pose proof (slot_room _ _ _ _ H Hi). pose proof (total_nonneg ts).
  apply slotEntryAt_ok; [apply H|lia].
Qed.

Lemma Locate_rep p ts i t :
  rep p ts → ts !! i = Some t → LocateTupleByEntry p (slot_pos i) = Ret t.
Proof.
  intros H Hi. destruct (rep_slots _ _ H _ _ Hi) as [Hv Hs].
  destruct (tuple_bounds _ _ _ Hi). pose proof (rep_bounds _ _ H).
  unfold view in Hv. injection Hv as Ho Hl _.
  unfold LocateTupleByEntry. rewrite Ho, Hl. unfold PageSize in *.
  rewrite u16_small by lia. rewrite slice_ok by lia. f_equal.
  rewrite <-Hs at 2. f_equal. lia.
Qed.

(** ** InsertTuple *)

(** The bytes after an insertion that fits: slot entry, tuple, pointers. *)
Definition inserted (p : page) (ts : list (list byte)) (e data : list byte) : page :=
  be_set 12 2 (PageSize - total ts - len data)
    (be_set 14 2 (slot_pos (length ts) + 4)
      (splice (PageSize - total ts - len data) data (splice (slot_pos (length ts)) e p))).

Lemma fits_true ts data :
  fits ts data = true → 24 + 4 * len ts + total ts + len data + 4 ≤ 8192.
Proof. unfold fits, slot_pos, HeaderSize, SlotEntrySize, PageSize. intros. bools. lia. Qed.

(** The entry written for the new slot: both setters succeed, the flag keeps the
    zero bits of the free space. *)
Lemma free_entry p ts data :
  rep p ts → fits ts data = true → entry p (slot_pos (length ts)) = zeroes 4.
Proof.
  intros H Hf. pose proof (rep_free _ _ H) as Hz. pose proof (fits_true _ _ Hf).
  unfold entry, slot_pos, HeaderSize, SlotEntrySize, PageSize in *.
  rewrite <-(sub_zeroes 0 4 (8192 - total ts - (24 + 4 * len ts))) by lia.
  rewrite <-Hz, sub_sub by lia. f_equal. lia.
Qed.

Lemma set_new_entry off n :
  0 ≤ off < 2 ^ 15 → 0 ≤ n < 2 ^ 15 →
  ∃ e1 e2, SetOffset (zeroes 4) off = Ret e1 ∧ SetLength e1 n = Ret e2 ∧
           len e1 = 4 ∧ len e2 = 4 ∧ view e2 = Fields off n 0.
Proof.
  intros Ho Hn.
  destruct (SlotEntryFacts.SetOffset_ok (zeroes 4) off) as (e1&He1&Hl1&Hv1); [done..|].
  destruct (SlotEntryFacts.SetLength_ok e1 n) as (e2&He2&Hl2&Hv2); [done..|].
  exists e1, e2. split_and!; try done. rewrite Hv2.
  unfold view in Hv1. by injection Hv1 as -> _ ->.
Qed.

Lemma splice_splice off d1 d2 (p : page) :
  0 ≤ off → length d1 = length d2 → off + len d1 ≤ len p →
  splice off d2 (splice off d1 p) = splice off d2 p.
Proof.
  intros. apply list_eq. intros i.
  rewrite !lookup_splice by (rewrite ?length_splice; lia). repeat case_decide; done || lia.
Qed.

Lemma wf_splice off d p : wf_page p → 0 ≤ off → off + len d ≤ 8192 → wf_page (splice off d p).
Proof. unfold wf_page, PageSize. intros. rewrite length_splice; lia. Qed.

Lemma wf_be_set off n v p : wf_page p → 0 ≤ off → 0 ≤ n → off + n ≤ 8192 → wf_page (be_set off n v p).
Proof. unfold wf_page, PageSize. intros. rewrite length_be_set; lia. Qed.

Lemma InsertTuple_eq p ts data :
  rep p ts → fits ts data = true →
  ∃ e, len e = 4 ∧ view e = Fields (PageSize - total ts - len data) (len data) 0 ∧
       InsertTuple data p = (inserted p ts e data, Ret (len ts)).
Proof.
  intros H Hf. pose proof (fits_true _ _ Hf) as Hb. pose proof (total_nonneg ts).
  pose proof (rep_size _ _ H) as Hw.
  destruct (set_new_entry (PageSize - total ts - len data) (len data))
    as (e1&e2&E1&E2&L1&L2&V); [unfold PageSize; lia..|].
  exists e2. split_and!; [done|done|].
  unfold InsertTuple. rewrite (FreeSpace_rep _ _ H), (SlotCount_rep _ _ H), (rep_lower _ _ H).
  rewrite (proj2 (Z.ltb_ge _ _))
    by (unfold slot_pos, HeaderSize, SlotEntrySize, PageSize; lia).
  rewrite (u16_small (len data)) by lia. rewrite (u16_small (PageSize - _ - _)) by (unfold PageSize; lia).
  unfold st_bind, st_lift, st_wrap, st_ret.
  rewrite slotEntryAt_ok by (done || unfold slot_pos, HeaderSize, SlotEntrySize, PageSize; lia).
  rewrite (free_entry _ _ _ H Hf), E1. simpl.
  set (pos := slot_pos (length ts)). set (off := PageSize - total ts - len data).
  assert (pos = 24 + 4 * len ts) as Hpos by done.
  assert (off = 8192 - total ts - len data) as Hoff by done.
  assert (len p = 8192) as Hlp by done.
  assert (entry (set_entry pos e1 p) pos = e1) as -> by (apply sub_splice_eq; unfold SlotEntrySize; lia).
  rewrite E2. simpl.
  assert (set_entry pos e2 (set_entry pos e1 p) = splice pos e2 p) as ->
    by (apply splice_splice; lia).
  assert (wf_page (splice pos e2 p)) as Hw2 by (apply wf_splice; done || lia).
  rewrite (PdLower_at (splice pos e2 p)) by done.
  rewrite be_at_splice_ne by lia. rewrite <-PdLower_at, (rep_lower _ _ H) by done.
  rewrite slice_ok by (rewrite ?length_splice; unfold PageSize in *; lia).
  rewrite length_sub by (rewrite ?length_splice; unfold PageSize in *; lia).
  rewrite take_ge by (unfold PageSize in *; lia).
  assert (wf_page (splice off data (splice pos e2 p))) as Hw3 by (apply wf_splice; done || lia).
  rewrite set_PdUpper, PdUpper_at by done.
  rewrite !be_at_splice_ne by (rewrite ?length_splice; lia).
  rewrite <-PdUpper_at, (rep_upper _ _ H) by done. fold pos.
  unfold SlotEntrySize. rewrite u16_small by lia.
  rewrite set_PdLower by (apply wf_be_set; done || lia). done.
Qed.

(** Windows of the page after an insertion, away from what it writes. *)
Section inserted.
Context (p : page) (ts : list (list byte)) (e data : list byte).
Context (Hrep : rep p ts) (Hfits : fits ts data = true) (He : len e = 4).

Let Hb := fits_true _ _ Hfits.
Let Hb' := rep_bounds _ _ Hrep.

Lemma inserted_len1 : len (splice (slot_pos (length ts)) e p) = 8192.
Proof. unfold slot_pos, HeaderSize, SlotEntrySize. rewrite length_splice; lia. Qed.

Lemma inserted_len2 :
  len (splice (PageSize - total ts - len data) data (splice (slot_pos (length ts)) e p)) = 8192.
Proof. pose proof inserted_len1. unfold PageSize in *. rewrite length_splice; lia. Qed.

Lemma inserted_wf : wf_page (inserted p ts e data).
Proof.
  pose proof inserted_len2. unfold inserted. repeat apply wf_be_set; try lia. done.
Qed.

(** A window outside the header pointers, the new entry and the new tuple. *)
Lemma inserted_frame off n :
  16 ≤ off → 0 ≤ n → off + n ≤ 8192 →
  off + n ≤ slot_pos (length ts) ∨ slot_pos (length ts) + 4 ≤ off →
  off + n ≤ PageSize - total ts - len data ∨ PageSize - total ts ≤ off →
  sub off n (inserted p ts e data) = sub off n p.
Proof.
  intros. pose proof inserted_len1. pose proof inserted_len2. unfold inserted.
  rewrite !sub_be_set_ne by (rewrite ?length_be_set; lia).
  unfold slot_pos, HeaderSize, SlotEntrySize, PageSize in *.
  rewrite !sub_splice_ne by lia. done.
Qed.

Lemma inserted_entry : entry (inserted p ts e data) (slot_pos (length ts)) = e.
Proof.
  pose proof inserted_len1. pose proof inserted_len2. unfold entry, inserted.
  unfold slot_pos, HeaderSize, SlotEntrySize, PageSize in *.
  rewrite !sub_be_set_ne by (rewrite ?length_be_set; lia).
  rewrite sub_splice_ne by lia. apply sub_splice_eq; lia.
Qed.

Lemma inserted_tuple :
  sub (PageSize - total ts - len data) (len data) (inserted p ts e data) = data.
Proof.
  pose proof inserted_len1. pose proof inserted_len2. unfold inserted.
  unfold slot_pos, HeaderSize, SlotEntrySize, PageSize in *.
  rewrite !sub_be_set_ne by (rewrite ?length_be_set; lia). apply sub_splice_eq; lia.
Qed.

Lemma inserted_upper : PdUpper (Header (inserted p ts e data)) = slot_pos (S (length ts)).
Proof.
  pose proof inserted_len2. rewrite PdUpper_at by apply inserted_wf. unfold inserted.
  rewrite be_at_set_ne by (rewrite ?length_be_set; lia).
  unfold slot_pos, HeaderSize, SlotEntrySize, PageSize in *. rewrite be_at_set; lia.
Qed.

Lemma inserted_lower : PdLower (Header (inserted p ts e data)) = PageSize - (total ts + len data).
Proof.
  pose proof inserted_len2. rewrite PdLower_at by apply inserted_wf. unfold inserted.
  rewrite be_at_set by (rewrite ?length_be_set; unfold PageSize in *; lia). lia.
Qed.

Lemma inserted_slot i t :
  (ts ++ [data]) !! i = Some t →
  view e = Fields (PageSize - total ts - len data) (len data) 0 →
  view (entry (inserted p ts e data) (slot_pos i)) = Fields (tuple_pos (ts ++ [data]) i) (len t) 0 ∧
  sub (tuple_pos (ts ++ [data]) i) (len t) (inserted p ts e data) = t.
Proof.
  intros Hi Hv. destruct (decide (i < length ts)%nat) as [Hlt|Hge].
  - rewrite lookup_app_l in Hi by done. rewrite tuple_pos_app by done.
    destruct (rep_slots _ _ Hrep _ _ Hi) as [Hv' Hs]. destruct (tuple_bounds _ _ _ Hi).
    rewrite inserted_frame by (unfold slot_pos, HeaderSize, SlotEntrySize, PageSize in *; lia).
    split; [|done]. unfold entry.
    rewrite inserted_frame by (unfold slot_pos, HeaderSize, SlotEntrySize, PageSize in *; lia).
    done.
  - assert (i = length ts) as ->.
    { apply lookup_lt_Some in Hi. rewrite length_app in Hi. simpl in Hi. lia. }
    rewrite list_lookup_middle in Hi by done. injection Hi as <-.
    rewrite tuple_pos_last, inserted_entry, Hv.
    replace (PageSize - (total ts + len data)) with (PageSize - total ts - len data) by lia.
    split; [done|apply inserted_tuple].
Qed.

Lemma inserted_rep :
  view e = Fields (PageSize - total ts - len data) (len data) 0 →
  rep (inserted p ts e data) (ts ++ [data]).
Proof.
  intros Hv. split.
  - apply inserted_wf.
  - rewrite inserted_upper, length_app, Nat.add_comm. done.
  - rewrite inserted_lower, total_app. simpl. lia.
  - rewrite length_app, total_app. simpl.
    unfold slot_pos, HeaderSize, SlotEntrySize, PageSize in *. lia.
  - intros i t Hi. by apply inserted_slot.
  - rewrite length_app, total_app, Nat.add_comm. simpl.
    assert (slot_pos (S (length ts)) = slot_pos (length ts) + 4) as ->
      by (unfold slot_pos, HeaderSize, SlotEntrySize; lia).
    assert (slot_pos (length ts) = 24 + 4 * len ts) as Hpos by done. unfold PageSize in *.
    rewrite inserted_frame by (unfold PageSize; lia).
    rewrite <-(sub_zeroes 4 _ (8192 - total ts - slot_pos (length ts))) by lia.
    pose proof (rep_free _ _ Hrep) as Hz. unfold PageSize in Hz.
    by rewrite <-Hz, sub_sub by lia.
Qed.
End inserted.

Lemma InsertTuple_ok p ts data :
  rep p ts → fits ts data = true →
  ∃ p', InsertTuple data p = (p', Ret (len ts)) ∧ rep p' (ts ++ [data]).
Proof.
  intros H Hf. destruct (InsertTuple_eq _ _ _ H Hf) as (e&He&Hv&->).
  eexists. split; [done|]. by apply inserted_rep.
Qed.

Lemma InsertTuple_full p ts data :
  rep p ts → fits ts data = false → InsertTuple data p = (p, Fail ErrNoSpace).
Proof.
  intros H Hf. unfold InsertTuple. rewrite (FreeSpace_rep _ _ H).
  unfold fits in Hf. bools. by rewrite (proj2 (Z.ltb_lt _ _)) by lia.
Qed.

(** The specification of an insertion: a list of tuples with a byte budget. *)
Definition spec_insert (ts : list (list byte)) (data : list byte) : list (list byte) * res Z :=
  if fits ts data then (ts ++ [data], Ret (len ts)) else (ts, Fail ErrNoSpace).

(** C26: [Init] formats any frame of a page's size, whatever bytes it holds, into
    an empty page, and [InsertTuple] on a formatted page refines the
    specification on every branch: a tuple that fits is appended to the list
    of tuples and gets the next slot index, a tuple that does not fit leaves the
    page's bytes unchanged and reports ErrNoSpace. *)
Theorem InsertTuple_refines :
  (∀ frame, wf_page frame → rep (Init frame) []) ∧
  (∀ p ts data, rep p ts →
     rep (InsertTuple data p).1 (spec_insert ts data).1 ∧
     (InsertTuple data p).2 = (spec_insert ts data).2 ∧
     (fits ts data = false → (InsertTuple data p).1 = p)).
Proof.
  split; [exact Init_rep|]. intros p ts data H. unfold spec_insert.
  destruct (fits ts data) eqn:Hf.
  - destruct (InsertTuple_ok _ _ _ H Hf) as (p'&->&H'). by split_and!.
  - rewrite (InsertTuple_full _ _ _ H Hf). by split_and!.
Qed.

Lemma InsertTuple_refines_witness :
  rep (Init NewPage) [] ∧ rep (InsertTuple [x2a] (Init NewPage)).1 [[x2a]] ∧
  (InsertTuple [x2a] (Init NewPage)).2 = Ret 0.
Proof.
  assert (wf_page NewPage) as HN by (unfold wf_page, NewPage; by rewrite length_zeroes).
  pose proof (proj1 InsertTuple_refines NewPage HN) as HI.
  destruct (proj2 InsertTuple_refines (Init NewPage) [] [x2a] HI) as (H1&H2&_).
  split; [exact HI|]. split; [exact H1|exact H2].
Defined.

Lemma SlotEntryAt_rep p ts i t :
  rep p ts → ts !! i = Some t → SlotEntryAt p (Z.of_nat i) = Ret (slot_pos i).
Proof.
  intros H Hi. unfold SlotEntryAt. rewrite (SlotCount_rep _ _ H).
  pose proof (lookup_lt_Some _ _ _ Hi).
  rewrite (proj2 (Z.leb_gt _ _)) by lia. by eapply slotEntryAt_rep.
Qed.

(** Reading a page that holds the tuples [ts]: the slot count and the free
    space are those of [ts], slot [i] locates exactly the [i]-th tuple's bytes,
    and an index past the directory panics. *)
Theorem slotted_page_reads p ts i :
  rep p ts → 0 ≤ i →
  SlotCount p = len ts ∧
  FreeSpace p = PageSize - HeaderSize - SlotEntrySize * len ts - total ts ∧
  res_bind (SlotEntryAt p i) (LocateTupleByEntry p) =
    match ts !! Z.to_nat i with Some t => Ret t | None => Panic end.
Proof.
  intros H Hi. split; [by apply SlotCount_rep|]. split.
  - rewrite (FreeSpace_rep _ _ H). unfold slot_pos. lia.
  - destruct (ts !! Z.to_nat i) as [t|] eqn:E.
    + rewrite <-(Z2Nat.id i) by done. rewrite (SlotEntryAt_rep _ _ _ _ H E). simpl.
      by apply (Locate_rep _ _ _ _ H).
    + apply lookup_ge_None in E. unfold SlotEntryAt. rewrite (SlotCount_rep _ _ H).
      by rewrite (proj2 (Z.leb_le _ _)) by lia.
Qed.

Lemma slotted_page_reads_witness :
  rep (Init NewPage) [] ∧ SlotCount (Init NewPage) = 0 ∧
  res_bind (SlotEntryAt (Init NewPage) 0) (LocateTupleByEntry (Init NewPage)) = Panic.
Proof.
  assert (wf_page NewPage) as HN by (unfold wf_page, NewPage; by rewrite length_zeroes).
  pose proof (Init_rep NewPage HN) as HI. split; [exact HI|].
  destruct (slotted_page_reads (Init NewPage) [] 0 HI (Z.le_refl 0)) as (H1&_&H3).
  split; [exact H1|exact H3].
Defined.

(** C40: the slot of a freshly inserted tuple carries flag 0 (which the design
    document calls UNUSED), and an insertion that takes the whole free space
    leaves pd_upper = pd_lower. *)
Theorem inserted_slot_flag p ts data :
  rep p ts → fits ts data = true →
  let p' := (InsertTuple data p).1 in
  Flag (entry p' (slot_pos (length ts))) = 0 ∧
  (FreeSpace p = len data + SlotEntrySize → PdUpper (Header p') = PdLower (Header p')).
Proof.
  intros H Hf. destruct (InsertTuple_ok _ _ _ H Hf) as (p'&E&H'). rewrite E. simpl. split.
  - destruct (rep_slots _ _ H' (length ts) data) as [Hv _]; [by apply list_lookup_middle|].
    by injection Hv.
  - rewrite (FreeSpace_rep _ _ H), (rep_upper _ _ H'), (rep_lower _ _ H').
    rewrite length_app, total_app. unfold slot_pos, HeaderSize, SlotEntrySize. simpl. lia.
Qed.

Lemma inserted_slot_flag_witness :
  rep (Init NewPage) [] ∧ fits [] [x2a] = true ∧
  Flag (entry (InsertTuple [x2a] (Init NewPage)).1 (slot_pos 0)) = 0.
Proof.
  assert (wf_page NewPage) as HN by (unfold wf_page, NewPage; by rewrite length_zeroes).
  pose proof (Init_rep NewPage HN) as HI. split; [exact HI|]. split; [reflexivity|].
  exact (proj1 (inserted_slot_flag (Init NewPage) [] [x2a] HI eq_refl)).
Defined.

(** a frame that was zeroed but not formatted is not an empty page: its slot
    count underflows to 16378, and inserting into it reports ErrNoSpace. *)
Theorem zero_page_not_valid data :
  SlotCount NewPage = 16378 ∧ InsertTuple data NewPage = (NewPage, Fail ErrNoSpace).
Proof.
  assert (FreeSpace NewPage = 0) as E by (vm_compute; reflexivity).
  split; [vm_compute; reflexivity|]. unfold InsertTuple. rewrite E.
  unfold SlotEntrySize. by rewrite (proj2 (Z.ltb_lt _ _)) by lia.
Qed.

End SlottedPage.
