(* ===== verification/Disk.v ===== *)
(** * Package disk: the disk manager (src/internal/storage/disk/disk.go)

    The file is modelled as what the code uses of [os.File]: the bytes the
    operating system serves ([cached]), the bytes that survive a crash
    ([durable], brought up to date by fsync), whether the handle is open, and a
    schedule of the outcomes of its system calls: [IOok], or [IOfail n] when the
    call fails after [n] bytes were transferred.  An exhausted schedule means no
    more failures.  Here a method is a function from state to state, the run
    of a call that nothing interferes with. *)

From S2P Require Import Prelude Bytes PageLayout.

Inductive io_outcome := IOok | IOfail (n : nat).

Record osfile := OsFile {
  cached : list byte;
  durable : list byte;
  isopen : bool;
  sched : list io_outcome }.

(** The outcome of the next system call on the file. *)
Definition next_io (f : osfile) : io_outcome * osfile :=
  match sched f with
  | [] => (IOok, f)
  | o :: rest => (o, OsFile (cached f) (durable f) (isopen f) rest)
  end.

(** Positioned write: overwrite, extending the file (with zeros over a gap). *)
Definition write_at (off : Z) (src l : list byte) : list byte :=
  match src with
  | [] => l
  | _ => take (Z.to_nat off) (l ++ zeroes (off - len l)) ++ src ++
         drop (Z.to_nat off + length src) l
  end.

Definition set_cached (f : osfile) (l : list byte) : osfile :=
  OsFile l (durable f) (isopen f) (sched f).

(** [File.ReadAt(dst, off)]: the new contents of [dst] and the error. *)
Definition ReadAt (dst : list byte) (off : Z) (f : osfile) : osfile * (list byte * res unit) :=
  if negb (isopen f) then (f, (dst, Fail ErrClosed))
  else
    let '(o, f) := next_io f in
    let avail := sub off (len dst) (cached f) in
    match o with
    | IOok => (f, (avail ++ drop (length avail) dst,
                   if len avail <? len dst then Fail ErrEOF else Ret tt))
    | IOfail n => let got := take n avail in
                  (f, (got ++ drop (length got) dst, Fail ErrIO))
    end.

(** [File.WriteAt(src, off)]. *)
Definition WriteAt (src : list byte) (off : Z) (f : osfile) : osfile * res unit :=
  if negb (isopen f) then (f, Fail ErrClosed)
  else
    let '(o, f) := next_io f in
    match o with
    | IOok => (set_cached f (write_at off src (cached f)), Ret tt)
    | IOfail n => (set_cached f (write_at off (take n src) (cached f)), Fail ErrIO)
    end.

(** [File.Sync] and [File.Close]. *)
Definition FileSync (f : osfile) : osfile * res unit :=
  if negb (isopen f) then (f, Fail ErrClosed)
  else
    let '(o, f) := next_io f in
    match o with
    | IOok => (OsFile (cached f) (cached f) (isopen f) (sched f), Ret tt)
    | IOfail _ => (f, Fail ErrIO)
    end.

Definition FileClose (f : osfile) : osfile * res unit :=
  if negb (isopen f) then (f, Fail ErrClosed)
  else
    let '(o, f) := next_io f in
    (OsFile (cached f) (durable f) false (sched f),
     match o with IOok => Ret tt | IOfail _ => Fail ErrIO end).

Module Disk.

Record DiskManager := DM { file : osfile; numPages : Z }.

Definition MaxUint32 : Z := 4294967295.

(** [Open]: [fs] maps paths to file contents; [o_open] and [o_stat] are the
    outcomes of OpenFile and Stat, [s] the schedule of the opened file. *)
Definition Open (path : string) (o_open o_stat : io_outcome) (s : list io_outcome)
    (fs : gmap string (list byte)) : gmap string (list byte) * res DiskManager :=
  match o_open with
  | IOfail _ => (fs, Fail (Wrapf "disk: open" ErrIO))
  | IOok =>
      let content := default [] (fs !! path) in
      let fs := <[path := content]> fs in
      match o_stat with
      | IOfail _ => (fs, Fail (Wrapf "disk: stat" ErrIO))
      | IOok =>
          let size := len content in
          if negb (size mod PageSize =? 0)
          then (fs, Fail (Errorf "disk: file is not a multiple of page size (corrupt?)"))
          else (fs, Ret (DM (OsFile content content true s) (u32 (size / PageSize))))
      end
  end.

Definition Close : st DiskManager unit := λ d,
  let '(f, r) := FileClose (file d) in (DM f (numPages d), r).

Definition ReadPage (id : Z) (dst : list byte) (d : DiskManager)
    : DiskManager * (list byte * res unit) :=
  if negb (len dst =? PageSize) then (d, (dst, Fail (Errorf "disk: read buffer size")))
  else
    let n := numPages d in
    if n <=? id then (d, (dst, Fail (Errorf "disk: read page out of range")))
    else
      let '(f, (dst, r)) := ReadAt dst (id * PageSize) (file d) in
      (DM f (numPages d), (dst, res_wrap "disk: read page" r)).

Definition WritePage (id : Z) (src : list byte) : st DiskManager unit := λ d,
  if negb (len src =? PageSize) then (d, Fail (Errorf "disk: write buffer size"))
  else
    let n := numPages d in
    if n <=? id then (d, Fail (Errorf "disk: write page out of range"))
    else
      let '(f, r) := WriteAt src (id * PageSize) (file d) in
      (DM f (numPages d), res_wrap "disk: write page" r).

Definition Sync : st DiskManager unit := λ d,
  let '(f, r) := FileSync (file d) in (DM f (numPages d), r).

Definition NumPages (d : DiskManager) : Z := numPages d.

Definition AllocatePage : st DiskManager Z := λ d,
  if numPages d =? MaxUint32 then (d, Fail (Errorf "disk: page limit reached"))
  else
    let id := numPages d in
    let offset := id * PageSize in
    match WriteAt (zeroes PageSize) offset (file d) with
    | (f, Ret _) => (DM f (u32 (numPages d + 1)), Ret id)
    | (f, Fail e) => (DM f (numPages d), Fail (Wrapf "disk: extend" e))
    | (f, Panic) => (DM f (numPages d), Panic)
    end.

(** ** Well-formedness and the pages of a disk *)

(** Every advertised page exists in the file. *)
Definition wf (d : DiskManager) : Prop :=
  0 ≤ numPages d ≤ MaxUint32 ∧ numPages d * PageSize ≤ len (cached (file d)).

Definition page_at (id : Z) (l : list byte) : page := sub (id * PageSize) PageSize l.

(** The page the manager serves for [id], and the one that survives a crash. *)
Definition disk_page (d : DiskManager) (id : Z) : page := page_at id (cached (file d)).
Definition durable_page (d : DiskManager) (id : Z) : page := page_at id (durable (file d)).

(** No failure ahead: the handle is open and the schedule is exhausted. *)
Definition healthy (d : DiskManager) : Prop := isopen (file d) = true ∧ sched (file d) = [].

(** ** Positioned writes *)

Lemma lookup_write_at off src l i :
  0 ≤ off ≤ len l →
  write_at off src l !! i =
    if decide (off ≤ Z.of_nat i < off + len src) then src !! (i - Z.to_nat off)%nat else l !! i.
Proof.
  intros. destruct src as [|b src']; [simpl; case_decide; done || lia|].
  unfold write_at. set (src := b :: src').
  rewrite zeroes_nil, app_nil_r by lia. destruct (decide (Z.of_nat i < off)).
  - rewrite lookup_app_l by (rewrite length_take; lia).
    rewrite lookup_take_lt by lia. by rewrite decide_False by lia.
  - rewrite lookup_app_r by (rewrite length_take; lia).
    rewrite length_take, Nat.min_l by lia. case_decide.
    + by rewrite lookup_app_l by lia.
    + rewrite lookup_app_r by lia. rewrite lookup_drop. f_equal. lia.
Qed.

Lemma length_write_at off src l :
  0 ≤ off ≤ len l → len (write_at off src l) = Z.max (len l) (if decide (src = []) then 0 else off + len src).
Proof.
  intros. destruct src as [|b src']; [rewrite decide_True by done; simpl; lia|].
  rewrite decide_False by done. unfold write_at. set (src := b :: src').
  rewrite !length_app, length_take, length_drop, length_app, length_zeroes. lia.
Qed.

Lemma sub_write_at_eq off src l n :
  0 ≤ off ≤ len l → n = len src → sub off n (write_at off src l) = src.
Proof.
  intros ? ->. apply list_eq. intros i. rewrite lookup_sub. case_decide.
  - rewrite lookup_write_at by lia. rewrite decide_True by lia. f_equal. lia.
  - symmetry. apply lookup_ge_None. lia.
Qed.

Lemma sub_write_at_ne off n off' src l :
  0 ≤ off → 0 ≤ off' ≤ len l → off + n ≤ off' ∨ off' + len src ≤ off →
  sub off n (write_at off' src l) = sub off n l.
Proof.
  intros. apply list_eq. intros i. rewrite !lookup_sub. case_decide; [|done].
  rewrite lookup_write_at by lia. by rewrite decide_False by lia.
Qed.

(** ** The file calls *)

Lemma next_io_same f o f' :
  next_io f = (o, f') → cached f' = cached f ∧ durable f' = durable f ∧ isopen f' = isopen f.
Proof. unfold next_io. intros. destruct (sched f); simplify_eq/=; done. Qed.

Lemma ReadAt_spec dst off f f' dst' r :
  0 ≤ off → ReadAt dst off f = (f', (dst', r)) →
  cached f' = cached f ∧ durable f' = durable f ∧ length dst' = length dst ∧
  match r with
  | Ret _ => off + len dst ≤ len (cached f) ∨ dst = []
  | Fail _ => True
  | Panic => False
  end ∧ (is_ret r = true → dst' = sub off (len dst) (cached f)).
Proof.
  intros Hoff H. unfold ReadAt in H. destruct (isopen f); simplify_eq/=; [|done].
  destruct (next_io f) as [o f1] eqn:E. apply next_io_same in E as (Hc&Hd&_).
  assert (length (sub off (len dst) (cached f)) ≤ length dst)%nat as Hle.
  { unfold sub. rewrite length_take. lia. }
  destruct o as [|n]; simplify_eq/=; rewrite Hc in *.
  - split_and!; try done.
    + rewrite length_app, length_drop. lia.
    + case_test; [done|]. destruct dst; [by right|left].
      unfold sub in *. rewrite length_take, length_drop in *. simpl in *. lia.
    + case_test; [done|]. intros _. rewrite drop_ge by lia. apply app_nil_r.
  - split_and!; try done. rewrite length_app, length_drop.
    pose proof (length_take (sub off (len dst) (cached f)) n). lia.
Qed.

Lemma WriteAt_spec src off f f' r :
  WriteAt src off f = (f', r) →
  durable f' = durable f ∧ isopen f' = isopen f ∧
  match r with
  | Ret _ => cached f' = write_at off src (cached f)
  | Fail _ => ∃ n, cached f' = write_at off (take n src) (cached f)
  | Panic => False
  end.
Proof.
  intros H. unfold WriteAt in H. destruct (isopen f) eqn:Ho; simplify_eq/=.
  - destruct (next_io f) as [o f1] eqn:E. apply next_io_same in E as (Hc&Hd&Hop).
    destruct o as [|n]; simplify_eq/=; rewrite Hc; split_and!; try congruence; eauto.
  - split_and!; [done..|]. by exists 0%nat.
Qed.

(** ** The disk manager's operations *)

Lemma ReadPage_spec d id dst d' dst' r :
  0 ≤ id → ReadPage id dst d = (d', (dst', r)) →
  numPages d' = numPages d ∧ cached (file d') = cached (file d) ∧
  durable (file d') = durable (file d) ∧ length dst' = length dst ∧
  match r with
  | Ret _ => id < numPages d ∧ dst' = disk_page d id
  | Fail _ => True
  | Panic => False
  end.
Proof.
  intros Hid H. unfold ReadPage in H.
  destruct (Z.eqb_spec (len dst) PageSize) as [Hl|]; simplify_eq/=; [|done].
  destruct (Z.leb_spec (numPages d) id); simplify_eq/=; [done|].
  destruct (ReadAt _ _ _) as [f1 [dst1 r1]] eqn:E. simplify_eq/=.
  apply ReadAt_spec in E as (?&?&?&Hr&Hs); [|unfold PageSize; lia].
  rewrite Hl in Hs. destruct r1; simpl; split_and!; try done. by apply Hs.
Qed.

Lemma page_len d id : wf d → 0 ≤ id < numPages d → len (disk_page d id) = PageSize.
Proof.
  intros [_ H] ?. unfold disk_page, page_at. apply len_sub; unfold PageSize in *; lia.
Qed.

(** Distinct pages occupy disjoint byte ranges. *)
Lemma pages_disjoint a b : a ≠ b → a * PageSize + PageSize ≤ b * PageSize ∨ b * PageSize + PageSize ≤ a * PageSize.
Proof. unfold PageSize. lia. Qed.

Lemma WritePage_spec d id src d' r :
  wf d → 0 ≤ id → WritePage id src d = (d', r) →
  wf d' ∧ numPages d' = numPages d ∧ durable (file d') = durable (file d) ∧
  (∀ id', 0 ≤ id' → id' ≠ id → disk_page d' id' = disk_page d id') ∧
  match r with
  | Ret _ => id < numPages d ∧ len src = PageSize ∧ disk_page d' id = src
  | Fail _ => True
  | Panic => False
  end.
Proof.
  intros Hwf Hid H. pose proof Hwf as [Hn Hc]. unfold WritePage in H.
  destruct (Z.eqb_spec (len src) PageSize) as [Hl|]; simplify_eq/=; [|done].
  destruct (Z.leb_spec (numPages d) id); simplify_eq/=; [done|].
  destruct (WriteAt _ _ _) as [f1 r1] eqn:E. simplify_eq/=.
  apply WriteAt_spec in E as (Hd&_&Hr).
  assert (0 ≤ id * PageSize ≤ len (cached (file d))) by (unfold PageSize in *; lia).
  assert (∃ w, cached f1 = write_at (id * PageSize) w (cached (file d)) ∧ len w ≤ PageSize ∧
               (is_ret r1 = true → w = src)) as (w&Hw&Hlw&Hsrc).
  { destruct r1; [exists src; split_and!; done || lia|destruct Hr as [n Hr]|done].
    exists (take n src). rewrite length_take. split_and!; done || lia. }
  split_and!.
  - split; [done|]. simpl. rewrite Hw, length_write_at by lia. lia.
  - done.
  - done.
  - intros id' ? Hne. unfold disk_page, page_at. simpl. rewrite Hw.
    pose proof (pages_disjoint id' id Hne).
    rewrite sub_write_at_ne by (unfold PageSize in *; lia). done.
  - destruct r1; simpl; [|done|done]. split_and!; [done..|].
    unfold disk_page, page_at. simpl. rewrite Hw, Hsrc by done. by rewrite sub_write_at_eq by lia.
Qed.

(** Writing bytes that are there already, completely or in part. *)
Lemma write_at_same off src l : 0 ≤ off → sub off (len src) l = src → write_at off src l = l.
Proof.
  intros Ho Hs. destruct src as [|b src']; [done|]. set (src := b :: src') in *.
  assert (off + len src ≤ len l) as Hle.
  { apply (f_equal length) in Hs. unfold sub in Hs. rewrite length_take, length_drop in Hs. unfold src in *. simpl in *. lia. }
  apply list_eq. intros i. rewrite lookup_write_at by lia. case_decide; [|done].
  rewrite <-Hs at 1. rewrite lookup_sub, decide_True by lia. f_equal. lia.
Qed.

Lemma WritePage_same d id src d' r :
  wf d → 0 ≤ id → disk_page d id = src → WritePage id src d = (d', r) → disk_page d' id = src.
Proof.
  intros [Hn Hc] Hid Hp H. unfold WritePage in H.
  destruct (Z.eqb_spec (len src) PageSize) as [Hl|]; simplify_eq/=; [|done].
  destruct (Z.leb_spec (numPages d) id); simplify_eq/=; [done|].
  destruct (WriteAt _ _ _) as [f1 r1] eqn:E. simplify_eq/=. apply WriteAt_spec in E as (_&_&Hr).
  assert (∃ n, cached f1 = write_at (id * PageSize) (take n (disk_page d id)) (cached (file d))) as [n Hw].
  { destruct r1; [|done|done]. exists (length (disk_page d id)). by rewrite firstn_all. }
  assert (0 ≤ id * PageSize) as Ho by (clear -Hid; unfold PageSize; lia).
  rewrite write_at_same in Hw; [unfold disk_page; cbn [file]; by rewrite Hw|exact Ho|].
  apply list_eq. intros i. rewrite lookup_sub, length_take. unfold disk_page, page_at in *. case_decide.
  - rewrite lookup_take_lt by lia. rewrite lookup_sub, decide_True by lia. done.
  - symmetry. apply lookup_ge_None. rewrite length_take. lia.
Qed.

Lemma AllocatePage_spec d d' r :
  wf d → AllocatePage d = (d', r) →
  wf d' ∧ durable (file d') = durable (file d) ∧
  (∀ id, 0 ≤ id < numPages d → disk_page d' id = disk_page d id) ∧
  match r with
  | Ret id => id = numPages d ∧ numPages d' = numPages d + 1 ∧ disk_page d' id = zeroes PageSize
  | Fail _ => numPages d' = numPages d
  | Panic => False
  end.
Proof.
  intros Hwf H. pose proof Hwf as [Hn Hc]. unfold AllocatePage in H.
  assert (len (zeroes PageSize) = PageSize) as Hz by (by rewrite length_zeroes).
  revert H Hz. generalize (zeroes PageSize) as z. intros z H Hz.
  destruct (Z.eqb_spec (numPages d) MaxUint32); simplify_eq/=; [done|].
  destruct (WriteAt _ _ _) as [f1 r1] eqn:E.
  apply WriteAt_spec in E as (Hd&_&Hr).
  assert (0 ≤ numPages d * PageSize ≤ len (cached (file d))) by (unfold PageSize in *; lia).
  assert (∃ w, cached f1 = write_at (numPages d * PageSize) w (cached (file d))) as (w&Hw).
  { destruct r1; [eauto|destruct Hr as [k ?]; by exists (take k z)|done]. }
  assert (∀ id, 0 ≤ id < numPages d → page_at id (cached f1) = disk_page d id) as Hold.
  { intros id ?. unfold disk_page, page_at. rewrite Hw.
    rewrite sub_write_at_ne; [done|..]; unfold PageSize in *; lia. }
  assert (len (cached (file d)) ≤ len (cached f1)) as Hgrow
    by (rewrite Hw, length_write_at by lia; lia).
  unfold MaxUint32 in *.
  destruct r1; simplify_eq/=; [|split_and!; try done; split; simpl; unfold MaxUint32; lia].
  rewrite u32_small by lia. split_and!; try done.
  - split; simpl; [unfold MaxUint32; lia|].
    rewrite Hr, length_write_at by lia. rewrite decide_False.
    + rewrite Hz. unfold PageSize in *. lia.
    + intros Hnil. rewrite Hnil in Hz. unfold PageSize in Hz. simpl in Hz. lia.
  - unfold disk_page, page_at. simpl. rewrite Hr. by rewrite sub_write_at_eq.
Qed.

(** ** Progress: without failures every valid request succeeds *)

Lemma ReadAt_healthy dst off f :
  isopen f = true → sched f = [] → 0 ≤ off → off + len dst ≤ len (cached f) →
  ReadAt dst off f = (f, (sub off (len dst) (cached f), Ret tt)).
Proof.
  intros Ho Hs ??. unfold ReadAt, next_io. rewrite Ho, Hs. simpl.
  rewrite len_sub, Z.ltb_irrefl by lia. by rewrite drop_ge, app_nil_r by (rewrite length_sub; lia).
Qed.

Lemma ReadPage_healthy d id dst :
  wf d → healthy d → 0 ≤ id < numPages d → len dst = PageSize →
  ReadPage id dst d = (d, (disk_page d id, Ret tt)).
Proof.
  intros [_ Hc] [Ho Hs] Hid Hl. unfold ReadPage. rewrite (proj2 (Z.eqb_eq _ _) Hl).
  rewrite (proj2 (Z.leb_gt _ _)) by lia. cbn [negb].
  rewrite ReadAt_healthy by (done || unfold PageSize in *; lia).
  unfold disk_page, page_at. rewrite Hl. by destruct d.
Qed.

(** A healthy file stays healthy. *)
Lemma ReadPage_spec_healthy d id dst d' dst' r :
  healthy d → ReadPage id dst d = (d', (dst', r)) → healthy d'.
Proof.
  intros [Ho Hs] H. unfold ReadPage in H. repeat case_match; simplify_eq/=; try done.
  unfold ReadAt, next_io in *. rewrite Ho, Hs in *. by simplify_eq/=.
Qed.

Lemma AllocatePage_spec_healthy d d' r : healthy d → AllocatePage d = (d', r) → healthy d'.
Proof.
  intros [Ho Hs] H. unfold AllocatePage, WriteAt, next_io in H. rewrite Ho, Hs in H.
  revert H. generalize (zeroes PageSize) as z. intros z H.
  repeat case_match; simplify_eq/=; done.
Qed.

Lemma WritePage_healthy d id src :
  healthy d → 0 ≤ id < numPages d → len src = PageSize →
  ∃ d', WritePage id src d = (d', Ret tt) ∧ healthy d'.
Proof.
  intros [Ho Hs] Hid Hl. unfold WritePage. rewrite Hl, Z.eqb_refl. simpl.
  rewrite (proj2 (Z.leb_gt _ _)) by lia. unfold WriteAt, next_io. rewrite Ho, Hs.
  simpl. eexists. split; [done|]. done.
Qed.

Lemma AllocatePage_healthy d :
  healthy d → numPages d < MaxUint32 →
  ∃ d', AllocatePage d = (d', Ret (numPages d)) ∧ healthy d'.
Proof.
  intros [Ho Hs] Hn. unfold AllocatePage. generalize (zeroes PageSize) as z. intros z.
  rewrite (proj2 (Z.eqb_neq _ _)) by lia. unfold WriteAt, next_io. rewrite Ho, Hs. simpl. eexists. split; [done|]. done.
Qed.

Lemma Sync_spec d d' r :
  Sync d = (d', r) →
  numPages d' = numPages d ∧ cached (file d') = cached (file d) ∧
  match r with
  | Ret _ => durable (file d') = cached (file d)
  | Fail _ => durable (file d') = durable (file d)
  | Panic => False
  end.
Proof.
  unfold Sync, FileSync. intros H. destruct (isopen (file d)); simplify_eq/=; [|done].
  destruct (next_io (file d)) as [o f1] eqn:E. apply next_io_same in E as (Hc&Hd&_).
  destruct o; simplify_eq/=; by rewrite ?Hc.
Qed.

(** A write that succeeds is what a later successful read of the page
    returns, and reads of every other page are unaffected by the write, whether
    it succeeded or failed after transferring some of its bytes. *)
Theorem write_then_read d id src d1 r1 id' dst d2 dst' :
  wf d → 0 ≤ id → 0 ≤ id' → len dst = PageSize →
  WritePage id src d = (d1, r1) →
  ReadPage id' dst d1 = (d2, (dst', Ret tt)) →
  (id' = id → r1 = Ret tt → dst' = src) ∧ (id' ≠ id → dst' = disk_page d id').
Proof.
  intros Hwf Hid Hid' Hl HW HR.
  apply WritePage_spec in HW as (Hwf1&Hn&_&Hoth&Hr1); [|done..].
  apply ReadPage_spec in HR as (_&_&_&_&Hlt&->); [|done].
  split; [intros -> ->; by apply Hr1|]. intros. by apply Hoth.
Qed.

(** The file holds its pages and nothing more. *)
Definition whole (d : DiskManager) : Prop := len (cached (file d)) = numPages d * PageSize.

(** How long the file is after an attempt to extend it. *)
Lemma AllocatePage_length d d' r :
  wf d → whole d → AllocatePage d = (d', r) →
  match r with
  | Ret _ => whole d'
  | _ => ∃ n, 0 ≤ n ≤ PageSize ∧ len (cached (file d')) = numPages d * PageSize + n
  end.
Proof.
  intros [Hn _] HW H. unfold whole, AllocatePage in *.
  assert (len (zeroes PageSize) = PageSize) as Hz by (by rewrite length_zeroes).
  revert H Hz. generalize (zeroes PageSize) as z. intros z H Hz.
  destruct (Z.eqb_spec (numPages d) MaxUint32); simplify_eq/=; [exists 0; unfold PageSize in *; lia|].
  destruct (WriteAt _ _ _) as [f1 r1] eqn:E. apply WriteAt_spec in E as (_&_&Hr).
  assert (0 ≤ numPages d * PageSize ≤ len (cached (file d))) by (unfold PageSize in *; lia).
  destruct r1 as [u|e|]; simplify_eq/=.
  - unfold MaxUint32 in *. rewrite u32_small, Hr, length_write_at, HW, decide_False by lia || (intros ->; done). lia.
  - destruct Hr as [m ->]. exists (len (take m z)). rewrite length_write_at by lia. rewrite length_take.
    case_decide as Et; [apply (f_equal length) in Et; rewrite length_take in Et; simpl in Et|]; unfold PageSize in *; lia.
Qed.

(** C36: growing the file: [AllocatePage] hands out the old page count, the new
    page is zero, every existing page keeps its bytes, and a failed or refused
    extension leaves the page count alone, so no page id is advertised whose
    bytes are not in the file.  But an extension that fails after part of the
    page was written leaves that part in the file, and [Open] then refuses the
    file with all its pages. *)
Theorem AllocatePage_safe d d' r :
  wf d → AllocatePage d = (d', r) →
  wf d' ∧ (∀ id, 0 ≤ id < numPages d → disk_page d' id = disk_page d id) ∧
  match r with
  | Ret id => id = numPages d ∧ numPages d' = numPages d + 1 ∧
              len (disk_page d' id) = PageSize ∧ disk_page d' id = zeroes PageSize ∧ (whole d → whole d')
  | Fail e => numPages d' = numPages d ∧
      (whole d → ∃ n, 0 ≤ n ≤ PageSize ∧ len (cached (file d')) = numPages d * PageSize + n ∧
         (0 < n < PageSize → ∀ path s fs, fs !! path = Some (cached (file d')) →
            ∃ fs' e', Open path IOok IOok s fs = (fs', Fail e')))
  | Panic => False
  end ∧
  (numPages d = MaxUint32 → r = Fail (Errorf "disk: page limit reached") ∧ d' = d).
Proof.
  intros Hwf H. pose proof H as H'. pose proof (λ HW, AllocatePage_length _ _ _ Hwf HW H) as HL.
  apply AllocatePage_spec in H as (Hwf'&_&Hold&Hr); [|done].
  split_and!; [done|done|..].
  - destruct r; [| |done].
    + destruct Hr as (?&?&Hz). split_and!; try done. rewrite Hz. by rewrite length_zeroes.
    + split; [done|]. intros HW. destruct (HL HW) as (n&Hn&El). exists n. split_and!; [lia|lia|done|].
      intros Hr0 path s fs Hp. unfold Open. rewrite Hp. cbn [default id].
      rewrite (proj2 (Z.eqb_neq (len (cached (file d')) mod PageSize) 0)); [simpl; eauto|].
      rewrite El, Z.add_comm, Z.mod_add, Z.mod_small by (done || lia). lia.
  - intros Hmax. unfold AllocatePage in H'. rewrite Hmax, Z.eqb_refl in H'. by simplify_eq.
Qed.

(** An empty file, open and with no failure scheduled. *)
Definition empty_disk : DiskManager := DM (OsFile [] [] true []) 0.

Lemma empty_disk_wf : wf empty_disk.
Proof. done. Qed.

(** A file system that runs full in the middle of the first page. *)
Example torn_extension :
  let d' := (AllocatePage (DM (OsFile [] [] true [IOfail 4096]) 0)).1 in
  is_ret (Open "t" IOok IOok [] {["t" := cached (file d')]}).2 = false.
Proof. vm_compute. reflexivity. Qed.

Lemma AllocatePage_safe_witness :
  wf empty_disk ∧
  match (AllocatePage empty_disk).2 with Ret id => id = 0 | _ => False end.
Proof.
  split; [exact empty_disk_wf|].
  destruct (AllocatePage_healthy empty_disk) as (d'&E&_); [done|done|].
  destruct (AllocatePage_safe empty_disk d' (Ret 0) empty_disk_wf E) as (_&_&(H&_)&_).
  rewrite E. exact H.
Defined.

Lemma write_then_read_witness :
  ∃ d1 d2 d3 d4, AllocatePage empty_disk = (d1, Ret 0) ∧
    WritePage 0 (replicate (Z.to_nat PageSize) x2a) d1 = (d2, Ret tt) ∧
    ReadPage 0 d3 d2 = (d2, (d4, Ret tt)) ∧ d4 = replicate (Z.to_nat PageSize) x2a.
Proof.
  destruct (AllocatePage_healthy empty_disk) as (d1&E1&H1); [done|done|].
  destruct (AllocatePage_spec _ _ _ empty_disk_wf E1) as (W1&_&_&_&N1&_).
  assert (len (replicate (Z.to_nat PageSize) x2a) = PageSize) as HL by (by rewrite length_replicate).
  revert HL. generalize (replicate (Z.to_nat PageSize) x2a) as src. intros src HL.
  destruct (WritePage_healthy d1 0 src H1) as (d2&E2&H2); [rewrite N1; done|done|].
  pose proof (WritePage_spec _ _ _ _ _ W1 (Z.le_refl 0) E2) as (W2&N2&_).
  assert (ReadPage 0 src d2 = (d2, (disk_page d2 0, Ret tt))) as E3
    by (apply ReadPage_healthy; [done|done|rewrite N2, N1; done|done]).
  exists d1, d2, src, (disk_page d2 0). repeat split; [done..|].
  apply (write_then_read d1 0 src d2 (Ret tt) 0 src d2 (disk_page d2 0)); done.
Defined.

(** C38: closing and reopening: a file whose length is that of its page count
    reopens with the same pages; a file whose length is not a multiple of the
    page size is refused.  In general the count is that of the pages modulo 2^32,
    so a file of 2^32 pages or more is opened without an error and with fewer
    pages than it has, though each id still names the page at its offset. *)
Theorem Open_pages path s fs content :
  fs !! path = Some content →
  (len content mod PageSize ≠ 0 →
     ∃ e, Open path IOok IOok s fs = (<[path := content]> fs, Fail e)) ∧
  (len content mod PageSize = 0 →
     ∃ d, Open path IOok IOok s fs = (<[path := content]> fs, Ret d) ∧
       (∀ id, 0 ≤ id → disk_page d id = page_at id content) ∧
       wf d ∧ numPages d = (len content / PageSize) mod 2 ^ 32 ∧
       (len content < 2 ^ 32 * PageSize → numPages d * PageSize = len content) ∧
       (2 ^ 32 * PageSize ≤ len content → numPages d * PageSize < len content)).
Proof.
  intros Hp. unfold Open. rewrite Hp. cbn [default]. split; intros Hm.
  - rewrite (proj2 (Z.eqb_neq _ _)) by done. simpl. eauto.
  - rewrite (proj2 (Z.eqb_eq _ _)) by done. simpl. eexists. split; [done|].
    pose proof (Z.div_mod (len content) PageSize ltac:(done)) as Hd. rewrite Hm in Hd.
    simpl. set (n := len content / PageSize) in *. unfold wf. simpl. unfold MaxUint32, u32.
    assert (0 ≤ n) by (apply Z.div_pos; [lia|done]).
    pose proof (Z.mod_pos_bound n (2 ^ 32) ltac:(lia)). pose proof (Z.mod_le n (2 ^ 32) ltac:(lia) ltac:(lia)).
    split_and!; [done|lia|lia|unfold PageSize in *; lia|done|..]; intros Hlt.
    + rewrite Z.mod_small by (unfold PageSize in *; lia). unfold PageSize in *. lia.
    + unfold PageSize in *. lia.
Qed.

Lemma Open_pages_witness :
  ∃ e, Open "t" IOok IOok [] {["t" := [x01]]} = (<["t" := [x01]]> {["t" := [x01]]}, Fail e).
Proof. apply (Open_pages "t" [] {["t" := [x01]]} [x01]); vm_compute; done. Defined.

End Disk.
