(* ===== verification/DiskThreads.v ===== *)
(** * The disk manager under concurrent calls (src/internal/storage/disk/disk.go)

    A [DiskManager] is shared by goroutines.  Its mutex guards the page count
    only: [ReadPage] and [WritePage] release it before their I/O, and a read or
    write of a page reaches the file piece by piece.  This file models every call
    as a thread that stops between any two of these actions, with any number of
    calls running at once ([Sync] included; a [Close] by another goroutine shows as
    I/O errors of any kind), and proves what the comments of the source promise
    of them. *)

From S2P Require Import Prelude Bytes PageLayout Disk.

Module DiskThreads.
Import Disk.

(** ** Threads *)

(** The buffer of a [ReadPage] or [WritePage]. *)
Inductive access := ARead (dst : list byte) | AWrite (src : list byte).
Definition buffer (a : access) : list byte := match a with ARead b | AWrite b => b end.

(** Where a call is.  [k] bytes of the page have been transferred. *)
Inductive pc :=
| PEnter (a : access) (id : Z)
| PLock (a : access) (id : Z)
| PCount (a : access) (id : Z)
| PUnlock (a : access) (id n : Z)
| PCheck (a : access) (id n : Z)
| PIO (a : access) (id k : Z)
| PDone (a : access) (r : res unit)
| ALock
| ALimit
| AExtend (id k : Z)
| ABump (id : Z)
| AUnlock (r : res Z)
| ADone (r : res Z)
| NLock
| NCount
| NUnlock (n : Z)
| NDone (n : Z)
| SSync
| SDone (r : res unit).

(** The thread is between [d.mu.Lock()] and [d.mu.Unlock()]. *)
Definition holds (x : pc) : bool :=
  match x with
  | PCount _ _ | PUnlock _ _ _ | ALimit | AExtend _ _ | ABump _ | AUnlock _ | NCount | NUnlock _ => true
  | _ => false
  end.
(** The call has returned. *)
Definition returned (x : pc) : bool :=
  match x with PDone _ _ | ADone _ | NDone _ | SDone _ => true | _ => false end.
(** The call has just been made. *)
Definition called (x : pc) : Prop :=
  match x with PEnter _ id => 0 ≤ id | ALock | NLock | SSync => True | _ => False end.

(** The file's bytes, those on the device, the page count and the mutex. *)
Record shared := Shared { bytes : list byte; synced : list byte; count : Z; lock : option nat }.
Definition set_bytes (l : list byte) (m : shared) := Shared l (synced m) (count m) (lock m).
Definition set_synced (l : list byte) (m : shared) := Shared (bytes m) l (count m) (lock m).
Definition set_count (n : Z) (m : shared) := Shared (bytes m) (synced m) n (lock m).
Definition set_lock (o : option nat) (m : shared) := Shared (bytes m) (synced m) (count m) o.

(** What a step does to the file: thread [t] writes to page [id]. *)
Inductive event := Silent | Wrote (t : nat) (id : Z).

(** The errors of the two calls. *)
Definition size_error (a : access) : error :=
  Errorf (match a with ARead _ => "disk: read buffer size" | AWrite _ => "disk: write buffer size" end).
Definition range_error (a : access) : error :=
  Errorf (match a with ARead _ => "disk: read page out of range" | AWrite _ => "disk: write page out of range" end).
Definition io_error (a : access) (e : error) : error :=
  Wrapf (match a with ARead _ => "disk: read page" | AWrite _ => "disk: write page" end) e.

(** A step of thread [t].  An I/O call may fail at any point and with any error,
    also because another goroutine has closed the file. *)
Inductive go (t : nat) (m : shared) : pc → event → shared → pc → Prop :=
| go_size a id :
    len (buffer a) ≠ PageSize → go t m (PEnter a id) Silent m (PDone a (Fail (size_error a)))
| go_enter a id : len (buffer a) = PageSize → go t m (PEnter a id) Silent m (PLock a id)
| go_lock a id : lock m = None → go t m (PLock a id) Silent (set_lock (Some t) m) (PCount a id)
| go_count a id : go t m (PCount a id) Silent m (PUnlock a id (count m))
| go_unlock a id n : go t m (PUnlock a id n) Silent (set_lock None m) (PCheck a id n)
| go_range a id n :
    n ≤ id → go t m (PCheck a id n) Silent m (PDone a (Fail (range_error a)))
| go_begin a id n : id < n → go t m (PCheck a id n) Silent m (PIO a id 0)
| go_read dst id k n :
    0 < n → k + n ≤ PageSize → id * PageSize + k + n ≤ len (bytes m) →
    go t m (PIO (ARead dst) id k) Silent m
       (PIO (ARead (splice k (sub (id * PageSize + k) n (bytes m)) dst)) id (k + n))
| go_eof dst id k :
    len (bytes m) < id * PageSize + PageSize →
    go t m (PIO (ARead dst) id k) Silent m (PDone (ARead dst) (Fail (io_error (ARead dst) ErrEOF)))
| go_write src id k n :
    0 < n → k + n ≤ PageSize →
    go t m (PIO (AWrite src) id k) (Wrote t id)
       (set_bytes (write_at (id * PageSize + k) (sub k n src) (bytes m)) m) (PIO (AWrite src) id (k + n))
| go_done a id : go t m (PIO a id PageSize) Silent m (PDone a (Ret tt))
| go_fail a id k e : go t m (PIO a id k) Silent m (PDone a (Fail (io_error a e)))
| go_alock : lock m = None → go t m ALock Silent (set_lock (Some t) m) ALimit
| go_limit : count m = MaxUint32 → go t m ALimit Silent m (AUnlock (Fail (Errorf "disk: page limit reached")))
| go_extend : count m ≠ MaxUint32 → go t m ALimit Silent m (AExtend (count m) 0)
| go_zero id k n :
    0 < n → k + n ≤ PageSize →
    go t m (AExtend id k) (Wrote t id)
       (set_bytes (write_at (id * PageSize + k) (zeroes n) (bytes m)) m) (AExtend id (k + n))
| go_extended id : go t m (AExtend id PageSize) Silent m (ABump id)
| go_torn id k e : go t m (AExtend id k) Silent m (AUnlock (Fail (Wrapf "disk: extend" e)))
| go_bump id : go t m (ABump id) Silent (set_count (u32 (count m + 1)) m) (AUnlock (Ret id))
| go_aunlock r : go t m (AUnlock r) Silent (set_lock None m) (ADone r)
| go_nlock : lock m = None → go t m NLock Silent (set_lock (Some t) m) NCount
| go_ncount : go t m NCount Silent m (NUnlock (count m))
| go_nunlock n : go t m (NUnlock n) Silent (set_lock None m) (NDone n)
| go_sync : go t m SSync Silent (set_synced (bytes m) m) (SDone (Ret tt))
| go_unsynced e : go t m SSync Silent m (SDone (Fail e)).

Abbreviation conf := (shared * gmap nat pc)%type.

(** A step of some thread, or a new call. *)
Inductive step : conf → event → conf → Prop :=
| step_go t m T x ev m' x' : T !! t = Some x → go t m x ev m' x' → step (m, T) ev (m', <[t := x']> T)
| step_call t m T x : T !! t = None → called x → step (m, T) Silent (m, <[t := x]> T).

Inductive steps : conf → list event → conf → Prop :=
| steps_nil c : steps c [] c
| steps_cons c ev c1 evs c2 : step c ev c1 → steps c1 evs c2 → steps c (ev :: evs) c2.

(** The manager between calls, and as [Open] leaves it. *)
Definition at_rest (d : DiskManager) : shared := Shared (cached (file d)) (durable (file d)) (numPages d) None.
Definition opened (d : DiskManager) : conf := (at_rest d, ∅).

(** ** Invariant *)

Definition pc_ok (m : shared) (x : pc) : Prop :=
  match x with
  | PEnter _ id => 0 ≤ id
  | PLock a id | PCount a id => 0 ≤ id ∧ len (buffer a) = PageSize
  | PUnlock a id n | PCheck a id n => 0 ≤ id ∧ len (buffer a) = PageSize ∧ n ≤ count m
  | PIO a id k => 0 ≤ id < count m ∧ len (buffer a) = PageSize ∧ 0 ≤ k ≤ PageSize
  | AExtend id k => id = count m ∧ count m < MaxUint32 ∧ 0 ≤ k ≤ PageSize ∧
      id * PageSize + k ≤ len (bytes m) ∧ sub (id * PageSize) k (bytes m) = zeroes k
  | ABump id => id = count m ∧ count m < MaxUint32 ∧
      id * PageSize + PageSize ≤ len (bytes m) ∧ page_at id (bytes m) = zeroes PageSize
  | _ => True
  end.

(** The page id an allocation has got. *)
Definition got (x : pc) : option Z :=
  match x with AUnlock (Ret id) | ADone (Ret id) => Some id | _ => None end.

Record cinv (n0 : Z) (c : conf) : Prop := CInv {
  c_count : 0 ≤ n0 ≤ count c.1 ∧ count c.1 ≤ MaxUint32;
  c_bytes : count c.1 * PageSize ≤ len (bytes c.1);
  c_lock : ∀ t x, c.2 !! t = Some x → (holds x = true ↔ lock c.1 = Some t);
  c_owner : ∀ t, lock c.1 = Some t → is_Some (c.2 !! t);
  c_pc : ∀ t x, c.2 !! t = Some x → pc_ok c.1 x;
  c_got : ∀ t x i, c.2 !! t = Some x → got x = Some i → n0 ≤ i < count c.1;
  c_inj : ∀ t t' x x' i, c.2 !! t = Some x → c.2 !! t' = Some x' → got x = Some i → got x' = Some i → t = t';
  c_all : ∀ i, n0 ≤ i < count c.1 → ∃ t x, c.2 !! t = Some x ∧ got x = Some i }.

(** ** Writes to the file *)

(** A piece of page [id], somewhere in the file or at its end. *)
Lemma write_piece id k w l :
  0 ≤ id → 0 ≤ k → k + len w ≤ PageSize → id * PageSize + k ≤ len l →
  len l ≤ len (write_at (id * PageSize + k) w l) ∧
  id * PageSize + k + len w ≤ len (write_at (id * PageSize + k) w l) ∧
  (∀ off n, 0 ≤ off → off + n ≤ id * PageSize + k ∨ id * PageSize + PageSize ≤ off →
     sub off n (write_at (id * PageSize + k) w l) = sub off n l) ∧
  sub (id * PageSize + k) (len w) (write_at (id * PageSize + k) w l) = w.
Proof.
  intros Hid Hk Hw Hl. assert (0 ≤ id * PageSize + k ≤ len l) as Ho by (unfold PageSize in *; lia).
  rewrite length_write_at by done. split_and!; [lia| | |].
  - case_decide as E; [rewrite E; simpl; lia|lia].
  - intros off n H0 Hd. apply sub_write_at_ne; [done|done|lia].
  - by apply sub_write_at_eq.
Qed.

Lemma write_other id k w l id' :
  0 ≤ id → 0 ≤ k → k + len w ≤ PageSize → id * PageSize + k ≤ len l → 0 ≤ id' → id' ≠ id →
  page_at id' (write_at (id * PageSize + k) w l) = page_at id' l.
Proof.
  intros Hid Hk Hw Hl Hid' Hne. destruct (write_piece id k w l Hid Hk Hw Hl) as (_&_&Hd&_). apply Hd;
    destruct (pages_disjoint id' id Hne); unfold PageSize in *; lia.
Qed.

(** ** The invariant is kept *)

(** What a step does to the lock. *)
Lemma go_lock_step t m x ev m' x' :
  go t m x ev m' x' →
  (lock m' = lock m ∧ holds x' = holds x) ∨
  (lock m = None ∧ lock m' = Some t ∧ holds x = false ∧ holds x' = true) ∨
  (lock m' = None ∧ holds x = true ∧ holds x' = false).
Proof. destruct 1; simpl; try (left; done); try (right; left; done); right; by right. Qed.

(** The count grows by at most one, under the lock, and with it the id it names is
    handed out; nothing else is. *)
Lemma go_count_step t m x ev m' x' :
  go t m x ev m' x' → pc_ok m x → 0 ≤ count m ≤ MaxUint32 →
  (count m' = count m ∧ got x' = got x) ∨
  (count m' = count m + 1 ∧ got x = None ∧ got x' = Some (count m) ∧ count m < MaxUint32 ∧ x = ABump (count m)).
Proof.
  intros H Hx Hc. destruct H; try (left; simpl; done).
  right. destruct Hx as (->&?&_). simpl. unfold MaxUint32 in *. rewrite u32_small by lia. split_and!; try done; lia.
Qed.

(** The file never shrinks, and only the page of the event changes. *)
Lemma go_bytes_step t m x ev m' x' :
  go t m x ev m' x' → pc_ok m x → 0 ≤ count m → count m * PageSize ≤ len (bytes m) →
  len (bytes m) ≤ len (bytes m') ∧
  (∀ off n, 0 ≤ off → (∀ id, ev = Wrote t id → off + n ≤ id * PageSize ∨ id * PageSize + PageSize ≤ off) →
     sub off n (bytes m') = sub off n (bytes m)).
Proof.
  intros H Hx Hc Hb. destruct H as [| | | | | | | | |src id k n Hn Hk| | | | | |id k n Hn Hk| | | | | | | | |]; try done.
  - destruct Hx as (Hid&Hl&Hk0). simpl in *.
    assert (len (sub k n src) = n) as El by (apply len_sub; lia).
    destruct (write_piece id k (sub k n src) (bytes m)) as (?&_&Hd&_);
      [lia|lia|rewrite El; lia|unfold PageSize in *; lia|].
    split; [done|]. intros off q H0 Ho. apply Hd; [done|]. destruct (Ho id eq_refl); unfold PageSize in *; lia.
  - destruct Hx as (->&_&Hk0&Hle&_). simpl in *. assert (len (zeroes n) = n) as El by (rewrite length_zeroes; lia).
    destruct (write_piece (count m) k (zeroes n) (bytes m)) as (?&_&Hd&_); [lia|lia|rewrite El; lia|done|].
    split; [done|]. intros off q H0 Ho. apply Hd; [done|]. destruct (Ho (count m) eq_refl); unfold PageSize in *; lia.
Qed.

(** The thread that moved. *)
Lemma go_pc_step t m x ev m' x' :
  go t m x ev m' x' → pc_ok m x → 0 ≤ count m ≤ MaxUint32 → count m * PageSize ≤ len (bytes m) → pc_ok m' x'.
Proof.
  intros H Hx Hc Hb. destruct H as [| | | | | | |dst id k n Hn Hk Hle| |src id k n Hn Hk| | | | | |id k n Hn Hk|id| | | | | | | |];
    simpl in *; try done; try (unfold PageSize in *; lia).
  - destruct Hx as (?&Hl&?). split_and!; [lia|lia| |lia|lia].
    rewrite length_splice by (rewrite ?len_sub; unfold PageSize in *; lia). done.
  - split_and!; [done|unfold MaxUint32 in *; lia|lia|unfold PageSize; lia|lia|].
    rewrite zeroes_nil by lia. done.
  - destruct Hx as (->&?&?&Hle&Hz). assert (len (zeroes n) = n) as El by (rewrite length_zeroes; lia).
    destruct (write_piece (count m) k (zeroes n) (bytes m)) as (?&?&Hd&He); [lia|lia|rewrite El; lia|done|].
    split_and!; [done|done|lia|lia|lia|]. rewrite El in He.
    rewrite sub_add, Hd, Hz, He, zeroes_app by (unfold PageSize in *; lia). done.
  - destruct Hx as (?&?&_&?&?). by split_and!.
Qed.

(** The other threads: only the lock holder cares about the end of the file, and a
    thread without the lock writes inside it. *)
Lemma go_pc_other t m x ev m' x' y :
  go t m x ev m' x' → pc_ok m x → pc_ok m y → 0 ≤ count m ≤ MaxUint32 → count m * PageSize ≤ len (bytes m) →
  (holds y = true → holds x = false) → pc_ok m' y.
Proof.
  intros H Hx Hy Hc Hb Hh.
  destruct (go_count_step _ _ _ _ _ _ H Hx Hc) as [[Ec _]|(Ec&_&_&_&Ex)].
  - destruct (go_bytes_step _ _ _ _ _ _ H Hx ltac:(lia) Hb) as [Hlen Hsub].
    assert (holds y = true → ∀ id, ev = Wrote t id → id < count m) as Hev.
    { intros Hy' id ->. specialize (Hh Hy'). inversion H; subst; simpl in *; [lia|done]. }
    destruct y; cbn [pc_ok holds] in *; rewrite ?Ec; try exact Hy.
    + destruct Hy as (->&?&?&?&Hz). split_and!; [done|done|lia|lia|lia|]. rewrite Hsub; [done|unfold PageSize in *; lia|].
      intros id' E. specialize (Hev eq_refl _ E). unfold PageSize in *. lia.
    + destruct Hy as (->&?&?&Hz). split_and!; [done|done|lia|]. unfold page_at in *.
      rewrite Hsub; [done|unfold PageSize in *; lia|]. intros id' E. specialize (Hev eq_refl _ E). unfold PageSize in *. lia.
  - subst x. destruct y; cbn [pc_ok holds] in *; try exact Hy; try lia; discriminate (Hh eq_refl).
Qed.

Lemma upd_cases (T : gmap nat pc) t x t' y :
  <[t := x]> T !! t' = Some y → t' = t ∧ y = x ∨ t' ≠ t ∧ T !! t' = Some y.
Proof. intros [[-> ->]|[? ?]]%lookup_insert_Some; [by left|right; by split]. Qed.

(** A step of a thread keeps the ids right. *)
Lemma go_ids n0 t m T x m' x' :
  cinv n0 (m, T) → T !! t = Some x →
  (count m' = count m ∧ got x' = got x) ∨ (count m' = count m + 1 ∧ got x = None ∧ got x' = Some (count m)) →
  (∀ t' y i, <[t := x']> T !! t' = Some y → got y = Some i → n0 ≤ i < count m') ∧
  (∀ t1 t2 y1 y2 i, <[t := x']> T !! t1 = Some y1 → <[t := x']> T !! t2 = Some y2 →
     got y1 = Some i → got y2 = Some i → t1 = t2) ∧
  (∀ i, n0 ≤ i < count m' → ∃ t' y, <[t := x']> T !! t' = Some y ∧ got y = Some i).
Proof.
  intros [[? _] _ _ _ _ Hg Hi Ha] Ht HC. cbn [fst snd] in *. split_and!.
  - intros t' y i [[-> ->]|[Hne Hy]]%upd_cases Hi'; [|pose proof (Hg _ _ _ Hy Hi'); lia].
    destruct HC as [[-> E]|(->&_&E)]; [rewrite E in Hi'; by eapply Hg|]. rewrite E in Hi'. injection Hi' as <-. lia.
  - intros t1 t2 y1 y2 i [[-> ->]|[Hn1 Hy1]]%upd_cases [[-> ->]|[Hn2 Hy2]]%upd_cases G1 G2; [done|..].
    + destruct HC as [[_ E]|(_&_&E)]; [rewrite E in G1; by eapply (Hi t t2)|].
      pose proof (Hg _ _ _ Hy2 G2). rewrite E in G1. injection G1 as <-. lia.
    + destruct HC as [[_ E]|(_&_&E)]; [rewrite E in G2; by eapply (Hi t1 t)|].
      pose proof (Hg _ _ _ Hy1 G1). rewrite E in G2. injection G2 as <-. lia.
    + by eapply (Hi t1 t2).
  - intros i Hi'. destruct HC as [[E1 E2]|(E1&E0&E2)].
    + rewrite E1 in Hi'. destruct (Ha i Hi') as (t'&y&Hy&G). destruct (decide (t' = t)) as [->|].
      * exists t, x'. rewrite lookup_insert_eq. split; [done|]. congruence.
      * exists t', y. by rewrite lookup_insert_ne.
    + destruct (decide (i = count m)) as [->|]; [exists t, x'; by rewrite lookup_insert_eq|].
      destruct (Ha i ltac:(lia)) as (t'&y&Hy&G). exists t', y. rewrite lookup_insert_ne; [done|]. intros ->. congruence.
Qed.

Lemma go_inv n0 t m T x ev m' x' :
  cinv n0 (m, T) → T !! t = Some x → go t m x ev m' x' → cinv n0 (m', <[t := x']> T).
Proof.
  intros I Ht H. pose proof I as [Hc Hb Hl Ho Hp _ _ _]. cbn [fst snd] in *.
  pose proof (Hp _ _ Ht) as Hx. pose proof (Hl _ _ Ht) as Hlt.
  pose proof (go_lock_step _ _ _ _ _ _ H) as HL. pose proof (go_count_step _ _ _ _ _ _ H Hx ltac:(lia)) as HC.
  destruct (go_bytes_step _ _ _ _ _ _ H Hx ltac:(lia) Hb) as [HB _].
  destruct (go_ids n0 t m T x m' x' I Ht) as (Hg'&Hi'&Ha'); [naive_solver|].
  split; cbn [fst snd]; [lia| | | | |exact Hg'|exact Hi'|exact Ha'].
  - destruct HC as [[-> _]|(->&_&_&_&->)]; [lia|]. destruct Hx as (_&_&?&_). unfold PageSize in *. lia.
  - intros t' y [[-> ->]|[Hne Hy]]%upd_cases; [destruct (holds x'), (holds x); naive_solver congruence|].
    pose proof (Hl _ _ Hy). destruct (holds y), (holds x); naive_solver congruence.
  - intros t' E. destruct (decide (t' = t)) as [->|]; [rewrite lookup_insert_eq; eauto|rewrite lookup_insert_ne by done].
    apply Ho. destruct HL as [[E' _]|[(_&E'&_)|(E'&_)]]; congruence.
  - intros t' y [[-> ->]|[Hne Hy]]%upd_cases; [by eapply go_pc_step; [exact H|exact Hx|lia|]|].
    eapply go_pc_other; [exact H|exact Hx|by eapply Hp|lia|done|].
    intros Hy'. destruct (holds x) eqn:E; [|done]. exfalso. apply Hne.
    assert (lock m = Some t') by (by apply (Hl _ _ Hy)). assert (lock m = Some t) by (by apply Hlt). congruence.
Qed.

Lemma call_inv n0 t m T x : cinv n0 (m, T) → T !! t = None → called x → cinv n0 (m, <[t := x]> T).
Proof.
  intros [Hc Hb Hl Ho Hp Hg Hi Ha] Ht Hx. cbn [fst snd] in *.
  assert (got x = None ∧ holds x = false ∧ pc_ok m x) as (Gx&Hh&Hok) by (by destruct x).
  assert (lock m ≠ Some t) as Hnl by (intros [? E]%Ho; congruence).
  split; cbn [fst snd]; try done.
  - intros t' y [[-> ->]|[Hne Hy]]%upd_cases; [by rewrite Hh|by apply Hl].
  - intros t' [y Hy]%Ho. destruct (decide (t' = t)) as [->|]; [congruence|]. rewrite lookup_insert_ne by done. eauto.
  - intros t' y [[-> ->]|[Hne Hy]]%upd_cases; [done|by eapply Hp].
  - intros t' y i [[-> ->]|[Hne Hy]]%upd_cases G; [congruence|by eapply Hg].
  - intros t1 t2 y1 y2 i [[-> ->]|[Hn1 Hy1]]%upd_cases [[-> ->]|[Hn2 Hy2]]%upd_cases G1 G2; [done|congruence..|by eapply (Hi t1 t2)].
  - intros i (t'&y&Hy&G)%Ha. exists t', y. rewrite lookup_insert_ne; [done|]. intros ->. congruence.
Qed.

Lemma step_inv n0 c ev c' : step c ev c' → cinv n0 c → cinv n0 c'.
Proof. destruct 1; eauto using go_inv, call_inv. Qed.

Lemma steps_inv n0 c evs c' : steps c evs c' → cinv n0 c → cinv n0 c'.
Proof. induction 1; eauto using step_inv. Qed.

Lemma opened_inv d : wf d → cinv (numPages d) (opened d).
Proof.
  intros [? ?]. split; cbn [fst snd opened at_rest count bytes lock]; try (intros *; rewrite lookup_empty; done); try done.
  - lia.
  - intros i Hi. lia.
Qed.

(** ** Allocation and mutual exclusion *)

(** C16: concurrent calls.  Whatever calls run at once and however they interleave:
    at most one is inside the mutex; every page below the count is in the file, so
    a call that passed its range check finds its page, and a read never comes to
    the end of the file; a page is zero in the moment it is advertised; and the
    ids [AllocatePage] has handed out are exactly those between the old count and
    the new one, each to one caller. *)
Theorem threads_invariant d evs m T :
  wf d → steps (opened d) evs (m, T) →
  numPages d ≤ count m ≤ MaxUint32 ∧ count m * PageSize ≤ len (bytes m) ∧
  (∀ t t' x x', T !! t = Some x → T !! t' = Some x' → holds x = true → holds x' = true → t = t') ∧
  (∀ t a id k, T !! t = Some (PIO a id k) → 0 ≤ id < count m ∧ id * PageSize + PageSize ≤ len (bytes m)) ∧
  (∀ t id, T !! t = Some (ABump id) → id = count m ∧ page_at id (bytes m) = zeroes PageSize) ∧
  (∀ i, numPages d ≤ i < count m ↔ ∃ t x, T !! t = Some x ∧ got x = Some i) ∧
  (∀ t t' x x' i, T !! t = Some x → T !! t' = Some x' → got x = Some i → got x' = Some i → t = t').
Proof.
  intros Hwf H. destruct (steps_inv _ _ _ _ H (opened_inv _ Hwf)) as [Hc Hb Hl Ho Hp Hg Hi Ha]. cbn [fst snd] in *.
  split_and!; [lia|lia|done| | | | |exact Hi].
  - intros t t' x x' Ht Ht' Hx Hx'. apply (Hl _ _ Ht) in Hx. apply (Hl _ _ Ht') in Hx'. congruence.
  - intros t a id k Ht. destruct (Hp _ _ Ht) as [? _]. split; [done|]. unfold PageSize in *. lia.
  - intros t id Ht. by destruct (Hp _ _ Ht) as (?&_&_&?).
  - intros i. split; [apply Ha|]. intros (t&x&Ht&G). by eapply Hg.
Qed.

(** ** Isolation of page I/O *)

(** The same call further on: a write keeps its source. *)
Definition same (a a' : access) : Prop :=
  match a, a' with ARead _, ARead _ => True | AWrite b, AWrite b' => b' = b | _, _ => False end.

(** The bytes transferred so far are the same in the buffer and in the page. *)
Definition tracks (id : Z) (a : access) (m : shared) (x : pc) : Prop :=
  match x with
  | PEnter a' i | PLock a' i | PCount a' i | PUnlock a' i _ | PCheck a' i _ => i = id ∧ same a a'
  | PIO a' i k => i = id ∧ same a a' ∧ sub 0 k (buffer a') = sub (id * PageSize) k (bytes m)
  | PDone a' (Ret _) => same a a' ∧ buffer a' = page_at id (bytes m)
  | PDone _ _ => True
  | _ => False
  end.

Lemma go_tracks id a t m x ev m' x' :
  go t m x ev m' x' → pc_ok m x → 0 ≤ count m → count m * PageSize ≤ len (bytes m) →
  tracks id a m x → tracks id a m' x'.
Proof.
  intros H Hx Hc Hb Ht. destruct H; cbn [tracks] in *; try exact Ht; try exact I; try contradiction.
  - destruct Ht as [-> ?]. split_and!; [reflexivity|assumption|]. unfold sub. reflexivity.
  - destruct Ht as (->&Hs&E). destruct Hx as (?&Hl&?). cbn [buffer] in *.
    assert (len (sub (id * PageSize + k) n (bytes m)) = n) as El by (apply len_sub; unfold PageSize in *; lia).
    split_and!; [reflexivity|exact Hs|]. rewrite !sub_add by (unfold PageSize in *; lia).
    rewrite sub_splice_ne, E, sub_splice_eq by (rewrite ?El; lia). reflexivity.
  - destruct Ht as (->&Hs&E). destruct Hx as (?&Hl&?). cbn [buffer set_bytes bytes] in *.
    assert (len (sub k n src) = n) as El by (apply len_sub; lia).
    destruct (write_piece id k (sub k n src) (bytes m)) as (_&_&Hd&He);
      [lia|lia|rewrite El; lia|unfold PageSize in *; lia|].
    split_and!; [reflexivity|exact Hs|]. rewrite El in He.
    rewrite !sub_add, Hd, He, E by (unfold PageSize in *; lia). reflexivity.
  - destruct Ht as (->&Hs&E). destruct Hx as (?&Hl&?). split; [exact Hs|]. rewrite sub_full in E by lia. exact E.
Qed.

Lemma go_tracks_other id a t m x ev m' x' y :
  go t m x ev m' x' → pc_ok m x → pc_ok m y → 0 ≤ count m → count m * PageSize ≤ len (bytes m) →
  0 ≤ id → (∀ i, ev = Wrote t i → i ≠ id) → tracks id a m y → tracks id a m' y.
Proof.
  intros H Hx Hy Hc Hb Hid Hev Ht. destruct (go_bytes_step _ _ _ _ _ _ H Hx Hc Hb) as [_ Hs].
  assert (∀ k, k ≤ PageSize → sub (id * PageSize) k (bytes m') = sub (id * PageSize) k (bytes m)) as Hk.
  { intros k Hk. apply Hs; [unfold PageSize; lia|]. intros i E. specialize (Hev i E).
    destruct (pages_disjoint id i); unfold PageSize in *; lia. }
  destruct y as [| | | | | | ? []| | | | | | | | | | | |]; cbn [tracks] in *; try exact Ht.
  - destruct Hy as (_&_&?). rewrite Hk by lia. exact Ht.
  - unfold page_at. rewrite Hk by lia. exact Ht.
Qed.

(** A page nobody writes keeps its bytes. *)
Lemma steps_page n0 id c evs c' :
  steps c evs c' → cinv n0 c → 0 ≤ id → (∀ t, Wrote t id ∉ evs) → page_at id (bytes c'.1) = page_at id (bytes c.1).
Proof.
  induction 1 as [|c ev c1 evs c2 Hs _ IH]; intros I Hid Hno; [reflexivity|].
  rewrite IH; [|by eapply step_inv|done|intros t E; by apply (Hno t); right].
  destruct Hs as [t m T x ev m' x' Ht Hg|]; [|reflexivity]. destruct I as [Hc Hb _ _ Hp _ _ _]. cbn [fst snd] in *.
  destruct (go_bytes_step _ _ _ _ _ _ Hg (Hp _ _ Ht) ltac:(lia) Hb) as [_ Hsub].
  apply Hsub; [unfold PageSize; lia|]. intros i ->.
  assert (id ≠ i) as Hne by (intros ->; apply (Hno t); left).
  destruct (pages_disjoint id i Hne); unfold PageSize in *; lia.
Qed.

(** Only a thread itself makes its events, and a read makes none. *)
Lemma go_event id a t m x ev m' x' t' :
  go t m x ev m' x' → ev = Wrote t' id → t' = t ∧ (∀ b, a = ARead b → ¬ tracks id a m x).
Proof.
  destruct 1; intros E; try discriminate E; injection E as <- ->; (split; [done|]); intros b ->; cbn; tauto.
Qed.

Lemma steps_tracks n0 id a t c evs c' x :
  steps c evs c' → cinv n0 c → 0 ≤ id → (∀ t', Wrote t' id ∈ evs → t' = t) →
  c.2 !! t = Some x → tracks id a c.1 x →
  (∃ x', c'.2 !! t = Some x' ∧ tracks id a c'.1 x') ∧ (∀ b t', a = ARead b → Wrote t' id ∉ evs).
Proof.
  intros H. revert x. induction H as [|c ev c1 evs c2 Hs _ IH]; intros x I Hid Hev Hx Htr.
  { split; [eauto|]. intros b t' _ []%elem_of_nil. }
  assert ((∃ x1, c1.2 !! t = Some x1 ∧ tracks id a c1.1 x1) ∧
          (∀ b t', a = ARead b → Wrote t' id ≠ ev)) as [(x1&Hx1&Htr1) Hr].
  { pose proof I as [Hc Hb _ _ Hp _ _ _].
    destruct Hs as [t0 m T y ev m' y' Ht Hg|t0 m T y Hn Hy]; cbn [fst snd] in *.
    - destruct (decide (t0 = t)) as [->|Hne].
      + assert (y = x) as -> by congruence. split.
        * exists y'. rewrite lookup_insert_eq. split; [reflexivity|].
          eapply go_tracks; [exact Hg|by eapply Hp|lia|exact Hb|exact Htr].
        * intros b t' Ea <-. destruct (go_event id a _ _ _ _ _ _ t' Hg eq_refl) as [_ Hno]. exact (Hno b Ea Htr).
      + assert (∀ t' i, ev = Wrote t' i → i ≠ id) as Hi.
        { intros t' i E ->. destruct (go_event id a _ _ _ _ _ _ t' Hg E) as [-> _]. apply Hne, Hev.
          rewrite E. left. }
        split; [|intros b t' _ E; by apply (Hi t' id)].
        exists x. rewrite lookup_insert_ne by done. split; [exact Hx|].
        eapply go_tracks_other; [exact Hg|by eapply Hp|by eapply Hp|lia|exact Hb|exact Hid|by apply Hi|exact Htr].
    - split; [|discriminate]. exists x. rewrite lookup_insert_ne by congruence. split; [exact Hx|exact Htr]. }
  destruct (IH x1) as [IH1 IH2]; [by eapply step_inv|exact Hid| |exact Hx1|exact Htr1|].
  - intros t' E. apply Hev. by right.
  - split; [exact IH1|]. intros b t' Ea [E|E]%elem_of_cons; [by eapply Hr|by eapply IH2].
Qed.

(** C17: page I/O runs outside the mutex and in pieces, but calls on distinct pages
    do not disturb one another.  From any reachable state, let a [ReadPage] or
    [WritePage] of page [id] run to success while other calls run in any
    interleaving, on other pages or allocating.  A read has then
    filled its buffer with the page as it was when the call was made, which it
    still is, and a write has left exactly its source in the page; and
    a page that no call wrote has kept its bytes. *)
Theorem page_io_isolated d evs0 m T evs m' T' t a a' id :
  wf d → steps (opened d) evs0 (m, T) → steps (m, T) evs (m', T') →
  T !! t = Some (PEnter a id) → T' !! t = Some (PDone a' (Ret tt)) →
  (∀ t', Wrote t' id ∈ evs → t' = t) →
  match a with
  | ARead _ => a' = ARead (page_at id (bytes m)) ∧ page_at id (bytes m') = page_at id (bytes m)
  | AWrite src => a' = AWrite src ∧ page_at id (bytes m') = src
  end ∧
  (∀ id', 0 ≤ id' → (∀ t', Wrote t' id' ∉ evs) → page_at id' (bytes m') = page_at id' (bytes m)).
Proof.
  intros Hwf H0 H Ht Ht' Hev. pose proof (steps_inv _ _ _ _ H0 (opened_inv _ Hwf)) as I.
  pose proof (λ i, steps_page _ i _ _ _ H I) as Hpage. cbn [fst] in Hpage. split; [|exact Hpage].
  pose proof (c_pc _ _ I _ _ Ht) as Hid. cbn [pc_ok] in Hid.
  destruct (steps_tracks _ id a t _ _ _ _ H I Hid Hev Ht) as [(x&Hx&Htr) Hr].
  { split; [reflexivity|]. by destruct a. }
  cbn [snd fst] in Hx, Htr. rewrite Ht' in Hx. injection Hx as <-. destruct Htr as [Hs Hb].
  destruct a as [b|src], a' as [b'|src']; cbn [same buffer] in *; try contradiction.
  - rewrite Hb, (Hpage id Hid) by (intros t'; by eapply Hr). split; reflexivity.
  - subst src'. split; [reflexivity|by symmetry].
Qed.

(** ** Every call can return *)

(** A bound on the steps a call still needs when its transfers are not cut. *)
Definition rank (x : pc) : nat :=
  match x with
  | PEnter _ _ => 7 | PLock _ _ => 6 | PCount _ _ => 5 | PUnlock _ _ _ => 4 | PCheck _ _ _ => 3
  | PIO _ _ k => if decide (k = PageSize) then 1 else 2
  | ALock => 6 | ALimit => 5 | AExtend _ k => if decide (k = PageSize) then 3 else 4
  | ABump _ => 2 | AUnlock _ => 1
  | NLock => 3 | NCount => 2 | NUnlock _ => 1 | SSync => 1
  | PDone _ _ | ADone _ | NDone _ | SDone _ => 0
  end.

(** Past its checks, a call returns no error unless the system call fails. *)
Definition succeeding (x : pc) : bool :=
  match x with
  | PIO _ _ _ | AExtend _ _ | ABump _ => true
  | PDone _ r => is_ret r
  | AUnlock r | ADone r => is_ret r
  | SSync => true
  | SDone r => is_ret r
  | _ => false
  end.

Local Ltac rank_lia := cbn [rank]; repeat case_decide; lia.

Lemma go_progress t m x :
  pc_ok m x → count m * PageSize ≤ len (bytes m) → lock m = None ∨ holds x = true → returned x = false →
  ∃ ev m' x', go t m x ev m' x' ∧ (rank x' < rank x)%nat ∧ (succeeding x = true → succeeding x' = true).
Proof.
  intros Hx Hb Hl Hr. destruct x as [a id| | | |a id n|a id k| | | |id k| | | | | | | | |]; try discriminate Hr;
    try (destruct Hl as [Hl|Hl]; [|discriminate Hl]).
  - destruct (decide (len (buffer a) = PageSize)).
    + do 3 eexists. split_and!; [by apply go_enter|rank_lia|discriminate].
    + do 3 eexists. split_and!; [by apply go_size|rank_lia|discriminate].
  - do 3 eexists. split_and!; [by apply go_lock|rank_lia|discriminate].
  - do 3 eexists. split_and!; [apply go_count|rank_lia|discriminate].
  - do 3 eexists. split_and!; [apply go_unlock|rank_lia|discriminate].
  - destruct (Z.le_gt_cases n id).
    + do 3 eexists. split_and!; [by apply go_range|rank_lia|discriminate].
    + do 3 eexists. split_and!; [apply go_begin; lia|rank_lia|discriminate].
  - destruct (decide (k = PageSize)) as [->|Hk].
    + do 3 eexists. split_and!; [apply go_done|rank_lia|done].
    + destruct Hx as (?&?&?). destruct a as [dst|src].
      * do 3 eexists. split_and!; [apply (go_read _ _ _ _ _ (PageSize - k)); unfold PageSize in *; lia|rank_lia|done].
      * do 3 eexists. split_and!; [apply (go_write _ _ _ _ _ (PageSize - k)); lia|rank_lia|done].
  - do 3 eexists. split_and!; [by apply go_alock|rank_lia|discriminate].
  - destruct (decide (count m = MaxUint32)).
    + do 3 eexists. split_and!; [by apply go_limit|rank_lia|discriminate].
    + do 3 eexists. split_and!; [by apply go_extend|rank_lia|discriminate].
  - destruct (decide (k = PageSize)) as [->|Hk].
    + do 3 eexists. split_and!; [apply go_extended|rank_lia|done].
    + destruct Hx as (?&?&?&?). do 3 eexists. split_and!; [apply (go_zero _ _ _ _ (PageSize - k)); lia|rank_lia|done].
  - do 3 eexists. split_and!; [apply go_bump|rank_lia|done].
  - do 3 eexists. split_and!; [apply go_aunlock|rank_lia|done].
  - do 3 eexists. split_and!; [by apply go_nlock|rank_lia|discriminate].
  - do 3 eexists. split_and!; [apply go_ncount|rank_lia|discriminate].
  - do 3 eexists. split_and!; [apply go_nunlock|rank_lia|discriminate].
  - do 3 eexists. split_and!; [apply go_sync|rank_lia|done].
Qed.

Lemma steps_app c evs c1 evs' c2 : steps c evs c1 → steps c1 evs' c2 → steps c (evs ++ evs') c2.
Proof. induction 1; simpl; [done|]. intros. econstructor; eauto. Qed.

(** One call runs to its end when the lock is free or its own. *)
Lemma finish_one n0 t : ∀ n m T x,
  (rank x ≤ n)%nat → cinv n0 (m, T) → T !! t = Some x → lock m = None ∨ lock m = Some t →
  ∃ evs m' x', steps (m, T) evs (m', <[t := x']> T) ∧ lock m' = None ∧ returned x' = true ∧
    (returned x = true → x' = x) ∧ (succeeding x = true → succeeding x' = true).
Proof.
  induction n as [|n IH]; intros m T x Hn I Ht Hl.
  all: destruct (returned x) eqn:Er;
    [exists [], m, x; rewrite insert_id by done; split_and!; [constructor| |done|done|done];
     destruct Hl as [?|Hl]; [done|]; apply (c_lock _ _ I _ _ Ht) in Hl; by destruct x|].
  { destruct x; try discriminate Er; cbn [rank] in Hn; try lia; case_decide; lia. }
  pose proof I as [_ Hb Hlk _ Hp _ _ _]. cbn [fst snd] in *.
  destruct (go_progress t m x) as (ev&m1&x1&Hg&Hrk&Hs); [by eapply Hp|done| |done|].
  { destruct Hl as [?|Hl]; [by left|right; by apply (Hlk _ _ Ht)]. }
  destruct (IH m1 (<[t := x1]> T) x1) as (evs&m'&x'&Hsteps&?&?&_&?); [lia|by eapply go_inv|apply lookup_insert_eq| |].
  { destruct (go_lock_step _ _ _ _ _ _ Hg) as [[-> _]|[(_&->&_)|[-> _]]]; auto. }
  exists (ev :: evs), m', x'. rewrite insert_insert_eq in Hsteps. split_and!; [|done|done|congruence|auto].
  econstructor; [eapply step_go; [exact Ht|exact Hg]|done].
Qed.

(** What has become of each call. *)
Definition finished (ts : list nat) (T T' : gmap nat pc) : Prop :=
  ∀ t x, T !! t = Some x → ∃ x', T' !! t = Some x' ∧ (t ∈ ts → returned x' = true) ∧
    (returned x = true → x' = x) ∧ (succeeding x = true → succeeding x' = true).

Lemma finish_all n0 ts : ∀ m T,
  cinv n0 (m, T) → lock m = None →
  ∃ evs m' T', steps (m, T) evs (m', T') ∧ lock m' = None ∧ dom T' = dom T ∧ finished ts T T'.
Proof.
  induction ts as [|t ts IH]; intros m T I Hl.
  { exists [], m, T. split_and!; [constructor|done|done|]. intros t x Hx. exists x. split_and!; try done.
    by intros []%elem_of_nil. }
  destruct (IH m T I Hl) as (evs&m1&T1&H1&Hl1&Hd1&F1).
  destruct (T1 !! t) as [x|] eqn:Ht.
  - destruct (finish_one n0 t (rank x) m1 T1 x) as (evs'&m'&x'&H2&Hl2&Hr&Hk&Hs); [lia|by eapply steps_inv|done|by left|].
    exists (evs ++ evs'), m', (<[t := x']> T1). split_and!; [by eapply steps_app|done| |].
    + rewrite dom_insert_lookup_L by eauto. done.
    + intros u y Hy. destruct (F1 u y Hy) as (y1&Hy1&Ha&Hb&Hc). destruct (decide (u = t)) as [->|Hne].
      * exists x'. rewrite lookup_insert_eq. assert (y1 = x) as -> by congruence.
        split_and!; [done|done| |auto]. intros Hy'. specialize (Hb Hy'). subst y. auto.
      * exists y1. rewrite lookup_insert_ne by done. split_and!; [done| |done|done].
        intros [?|?]%elem_of_cons; [done|auto].
  - exists evs, m1, T1. split_and!; [done..|]. intros u y Hy. destruct (F1 u y Hy) as (y1&Hy1&Ha&Hb&Hc).
    exists y1. split_and!; [done| |done|done]. intros [->|?]%elem_of_cons; [congruence|auto].
Qed.

(** The holder of the mutex can always give it back. *)
Lemma free_lock n0 m T :
  cinv n0 (m, T) →
  ∃ evs m' T', steps (m, T) evs (m', T') ∧ lock m' = None ∧ dom T' = dom T ∧ finished [] T T'.
Proof.
  intros I. destruct (lock m) as [t|] eqn:El; [|by apply (finish_all n0)].
  destruct (c_owner _ _ I t El) as [x Hx]. cbn [fst snd] in Hx.
  destruct (finish_one n0 t (rank x) m T x) as (evs&m'&x'&H&Hl&_&Hk&Hs); [lia|done|done|by right|].
  exists evs, m', (<[t := x']> T). split_and!; [done|done|by rewrite dom_insert_lookup_L by eauto|].
  intros u y Hy. destruct (decide (u = t)) as [->|].
  - exists x'. rewrite lookup_insert_eq. assert (y = x) as -> by congruence. split_and!; try done. by intros []%elem_of_nil.
  - exists y. rewrite lookup_insert_ne by done. split_and!; try done. by intros []%elem_of_nil.
Qed.

(** C18: no deadlock.  From any reachable state, whatever calls are under way and
    wherever each of them stands, there is a schedule in which all of them return,
    with the mutex free; calls past their checks return without an error in it,
    and the calls that had returned keep their results. *)
Theorem all_can_return d evs m T :
  wf d → steps (opened d) evs (m, T) →
  ∃ evs' m' T', steps (m, T) evs' (m', T') ∧ lock m' = None ∧ dom T' = dom T ∧
    ∀ t x, T !! t = Some x → ∃ x', T' !! t = Some x' ∧ returned x' = true ∧
      (returned x = true → x' = x) ∧ (succeeding x = true → succeeding x' = true).
Proof.
  intros Hwf H. pose proof (steps_inv _ _ _ _ H (opened_inv _ Hwf)) as I.
  destruct (free_lock _ _ _ I) as (evs1&m1&T1&H1&Hl1&Hd1&F1).
  destruct (finish_all (numPages d) (elements (dom T)) m1 T1) as (evs2&m2&T2&H2&Hl2&Hd2&F2); [by eapply steps_inv|done|].
  exists (evs1 ++ evs2), m2, T2. split_and!; [by eapply steps_app|done|congruence|].
  intros t x Hx. destruct (F1 t x Hx) as (x1&Hx1&_&Hk1&Hs1). destruct (F2 t x1 Hx1) as (x2&Hx2&Hr2&Hk2&Hs2).
  exists x2. split_and!; [done| |naive_solver|auto].
  apply Hr2, elem_of_elements, elem_of_dom. eauto.
Qed.

(** ** A call that runs alone *)

(** A step of thread [t], the next one found by [go]'s rule for its position. *)
Lemma steps_go t m T x ev m1 x1 evs m2 T2 :
  go t m x ev m1 x1 → steps (m1, <[t := x1]> T) evs (m2, T2) → steps (m, <[t := x]> T) (ev :: evs) (m2, T2).
Proof.
  intros Hg H. econstructor; [eapply step_go; [apply lookup_insert_eq|exact Hg]|]. by rewrite insert_insert_eq.
Qed.

(** The checks of [ReadPage] and [WritePage]. *)
Lemma checks_alone t d T a id evs c :
  len (buffer a) = PageSize → id < numPages d →
  steps (at_rest d, <[t := PIO a id 0]> T) evs c →
  ∃ evs', steps (at_rest d, <[t := PEnter a id]> T) evs' c.
Proof.
  intros Hl Hid H. destruct c as [m' T']. eexists.
  eapply steps_go; [by apply go_enter|]. eapply steps_go; [by apply go_lock|]. eapply steps_go; [apply go_count|].
  eapply steps_go; [apply go_unlock|]. eapply steps_go; [by apply go_begin|]. exact H.
Qed.

(** A transfer of [n] bytes that then succeeds, if it is the whole page, or fails. *)
Lemma read_alone t m T dst id n r :
  0 ≤ n ≤ PageSize → id * PageSize + n ≤ len (bytes m) → r = Fail (io_error (ARead dst) ErrIO) ∨ n = PageSize ∧ r = Ret tt →
  ∃ evs, steps (m, <[t := PIO (ARead dst) id 0]> T) evs
               (m, <[t := PDone (ARead (splice 0 (sub (id * PageSize) n (bytes m)) dst)) r]> T).
Proof.
  intros Hn Hle Hr. destruct (decide (n = 0)) as [->|].
  - destruct Hr as [->|[? _]]; [|discriminate]. eexists. eapply steps_go; [apply go_fail|].
    assert (splice 0 (sub (id * PageSize) 0 (bytes m)) dst = dst) as -> by reflexivity. constructor.
  - destruct Hr as [->|[En ->]]; eexists.
    all: eapply steps_go; [apply (go_read _ _ _ _ _ n); lia|]; rewrite Z.add_0_r, Z.add_0_l.
    + eapply steps_go; [apply go_fail|]. constructor.
    + rewrite En. eapply steps_go; [apply go_done|]. constructor.
Qed.

Lemma write_alone t m T src id n r :
  0 ≤ n ≤ PageSize → r = Fail (io_error (AWrite src) ErrIO) ∨ n = PageSize ∧ r = Ret tt →
  ∃ evs, steps (m, <[t := PIO (AWrite src) id 0]> T) evs
               (set_bytes (write_at (id * PageSize) (sub 0 n src) (bytes m)) m, <[t := PDone (AWrite src) r]> T).
Proof.
  intros Hn Hr. destruct (decide (n = 0)) as [->|].
  - destruct Hr as [->|[? _]]; [|discriminate]. eexists. eapply steps_go; [apply go_fail|].
    assert (set_bytes (write_at (id * PageSize) (sub 0 0 src) (bytes m)) m = m) as -> by (by destruct m). constructor.
  - destruct Hr as [->|[En ->]]; eexists.
    all: eapply steps_go; [apply (go_write _ _ _ _ _ n); lia|]; rewrite Z.add_0_r, Z.add_0_l.
    + eapply steps_go; [apply go_fail|]. constructor.
    + rewrite En. eapply steps_go; [apply go_done|]. constructor.
Qed.

Lemma take_sub (n : nat) off (q : Z) (l : list byte) : 0 ≤ q → take n (sub off q l) = sub off (Z.min (Z.of_nat n) q) l.
Proof. intros. unfold sub. rewrite take_take. f_equal. lia. Qed.

Lemma next_io_rest d o f n : next_io (file d) = (o, f) → at_rest (DM f n) = set_count n (at_rest d).
Proof. intros (E&Ed&_)%next_io_same. unfold at_rest, set_count. simpl. by rewrite E, Ed. Qed.

Lemma splice_0 (w l : list byte) : splice 0 w l = w ++ drop (length w) l.
Proof. reflexivity. Qed.

Lemma ReadPage_alone d t T id dst d' dst' r :
  wf d → isopen (file d) = true → 0 ≤ id → ReadPage id dst d = (d', (dst', r)) →
  ∃ evs, steps (at_rest d, <[t := PEnter (ARead dst) id]> T) evs (at_rest d', <[t := PDone (ARead dst') r]> T).
Proof.
  intros [Hc Hb] Ho Hid. unfold ReadPage. destruct (Z.eqb_spec (len dst) PageSize) as [Hl|Hl]; cbn [negb]; intros H.
  2: { injection H as <- <- <-. eexists. eapply steps_go; [by apply go_size|]. constructor. }
  destruct (Z.leb_spec (numPages d) id) as [Hn|Hn].
  { injection H as <- <- <-. eexists. eapply steps_go; [by apply go_enter|]. eapply steps_go; [by apply go_lock|].
    eapply steps_go; [apply go_count|]. eapply steps_go; [apply go_unlock|]. eapply steps_go; [by apply go_range|].
    constructor. }
  assert (id * PageSize + PageSize ≤ len (cached (file d))) as Hp by (unfold PageSize in *; lia).
  unfold ReadAt in H. rewrite Ho in H. cbn [negb] in H. destruct (next_io (file d)) as [o f] eqn:E.
  pose proof (next_io_rest _ _ _ (numPages d) E) as Er. apply next_io_same in E as (Ec&_&_). rewrite Ec, Hl in H.
  assert (len (sub (id * PageSize) PageSize (cached (file d))) = PageSize) as El by (apply len_sub; unfold PageSize in *; lia).
  destruct o as [|n].
  - rewrite El, Z.ltb_irrefl in H. injection H as <- <- <-. rewrite Er.
    destruct (read_alone t (at_rest d) T dst id PageSize (Ret tt)) as [evs H]; [done|done|auto|].
    rewrite splice_0 in H. eapply checks_alone; [exact Hl|exact Hn|exact H].
  - rewrite take_sub in H by done. injection H as <- <- <-. rewrite Er.
    destruct (read_alone t (at_rest d) T dst id (Z.min (Z.of_nat n) PageSize) (Fail (io_error (ARead dst) ErrIO))) as [evs H];
      [unfold PageSize; lia|cbn [at_rest bytes]; lia|auto|].
    rewrite splice_0 in H. eapply checks_alone; [exact Hl|exact Hn|exact H].
Qed.

Lemma WritePage_alone d t T id src d' r :
  isopen (file d) = true → WritePage id src d = (d', r) →
  ∃ evs, steps (at_rest d, <[t := PEnter (AWrite src) id]> T) evs (at_rest d', <[t := PDone (AWrite src) r]> T).
Proof.
  intros Ho. unfold WritePage. destruct (Z.eqb_spec (len src) PageSize) as [Hl|Hl]; cbn [negb]; intros H.
  2: { injection H as <- <-. eexists. eapply steps_go; [by apply go_size|]. constructor. }
  destruct (Z.leb_spec (numPages d) id) as [Hn|Hn].
  { injection H as <- <-. eexists. eapply steps_go; [by apply go_enter|]. eapply steps_go; [by apply go_lock|].
    eapply steps_go; [apply go_count|]. eapply steps_go; [apply go_unlock|]. eapply steps_go; [by apply go_range|].
    constructor. }
  unfold WriteAt in H. rewrite Ho in H. cbn [negb] in H. destruct (next_io (file d)) as [o f] eqn:E.
  apply next_io_same in E as (Ec&Ed&_). rewrite Ec in H.
  destruct o as [|n]; injection H as <- <-; unfold at_rest at 2; cbn [file set_cached cached durable numPages]; rewrite Ed.
  - destruct (write_alone t (at_rest d) T src id PageSize (Ret tt)) as [evs H]; [done|auto|].
    rewrite sub_full in H by done. eapply checks_alone; [exact Hl|exact Hn|exact H].
  - destruct (write_alone t (at_rest d) T src id (Z.min (Z.of_nat n) PageSize) (Fail (io_error (AWrite src) ErrIO))) as [evs H];
      [unfold PageSize; lia|auto|].
    rewrite <-take_sub, sub_full in H by done. eapply checks_alone; [exact Hl|exact Hn|exact H].
Qed.

Lemma AllocatePage_alone d t T d' r :
  isopen (file d) = true → AllocatePage d = (d', r) →
  ∃ evs, steps (at_rest d, <[t := ALock]> T) evs (at_rest d', <[t := ADone r]> T).
Proof.
  intros Ho. unfold AllocatePage. destruct (Z.eqb_spec (numPages d) MaxUint32) as [Hm|Hm]; intros H.
  { injection H as <- <-. eexists. eapply steps_go; [by apply go_alock|]. eapply steps_go; [by apply go_limit|].
    eapply steps_go; [apply go_aunlock|]. constructor. }
  unfold WriteAt in H. rewrite Ho in H. cbn [negb] in H. destruct (next_io (file d)) as [o f] eqn:E.
  apply next_io_same in E as (Ec&Ed&_). rewrite Ec in H.
  destruct o as [|[|n]]; injection H as <- <-; unfold at_rest at 2; cbn [file set_cached cached durable numPages]; rewrite Ed; eexists.
  all: eapply steps_go; [by apply go_alock|]; eapply steps_go; [by apply go_extend|].
  - eapply steps_go; [by apply (go_zero _ _ _ _ PageSize)|]. eapply steps_go; [apply go_extended|].
    eapply steps_go; [apply go_bump|]. eapply steps_go; [apply go_aunlock|]. rewrite Z.add_0_r. constructor.
  - eapply steps_go; [apply go_torn|]. eapply steps_go; [apply go_aunlock|]. constructor.
  - set (q := Z.min (Z.of_nat (S n)) PageSize).
    assert (take (S n) (sub 0 PageSize (zeroes PageSize)) = zeroes q) as Ez
      by (rewrite take_sub, sub_zeroes; unfold q, PageSize; lia || done).
    rewrite sub_full in Ez by (rewrite length_zeroes; done). rewrite Ez.
    eapply steps_go; [apply (go_zero _ _ _ _ q); unfold q, PageSize; lia|].
    eapply steps_go; [apply go_torn|]. eapply steps_go; [apply go_aunlock|]. rewrite Z.add_0_r. constructor.
Qed.

Lemma Sync_alone d t T d' r :
  isopen (file d) = true → Sync d = (d', r) →
  ∃ evs, steps (at_rest d, <[t := SSync]> T) evs (at_rest d', <[t := SDone r]> T).
Proof.
  intros Ho. unfold Sync, FileSync. rewrite Ho. cbn [negb]. destruct (next_io (file d)) as [o f] eqn:E.
  apply next_io_same in E as (Ec&Ed&_). destruct o as [|n]; intros [= <- <-]; unfold at_rest at 2; cbn; rewrite Ec, ?Ed; eexists.
  - eapply steps_go; [apply go_sync|]. constructor.
  - eapply steps_go; [apply go_unsynced|]. constructor.
Qed.

(** ** Two allocations and two writes at once *)

Lemma steps_call t m T x evs m' T' :
  T !! t = None → called x → steps (m, <[t := x]> T) evs (m', T') → steps (m, T) (Silent :: evs) (m', T').
Proof. intros. econstructor; [by apply step_call|done]. Qed.

(** The thread that is not on top of the map moves. *)
Lemma steps_swap t u m T x y evs c :
  t ≠ u → steps (m, <[t := x]> (<[u := y]> T)) evs c → steps (m, <[u := y]> (<[t := x]> T)) evs c.
Proof. intros. by rewrite insert_insert_ne by done. Qed.

(** The second caller comes while the first extends the file, and waits. *)
Lemma two_pages :
  ∃ evs m, steps (opened empty_disk) evs (m, <[1%nat := ADone (Ret 1)]> (<[0%nat := ADone (Ret 0)]> ∅)) ∧
           lock m = None ∧ count m = 2.
Proof.
  do 2 eexists. split.
  - eapply (steps_call 0 _ _ ALock); [apply lookup_empty|exact I|].
    eapply steps_go; [by apply go_alock|]. eapply steps_go; [by apply go_extend|].
    eapply steps_go; [by apply (go_zero _ _ _ _ 4096)|].
    eapply (steps_call 1 _ _ ALock); [by rewrite lookup_insert_ne|exact I|]. apply steps_swap; [done|].
    eapply steps_go; [by apply (go_zero _ _ _ _ 4096)|].
    eapply steps_go; [apply go_extended|]. eapply steps_go; [apply go_bump|]. eapply steps_go; [apply go_aunlock|].
    apply steps_swap; [done|].
    eapply steps_go; [by apply go_alock|]. eapply steps_go; [by apply go_extend|].
    eapply steps_go; [by apply (go_zero _ _ _ _ PageSize)|]. eapply steps_go; [apply go_extended|].
    eapply steps_go; [apply go_bump|]. eapply steps_go; [apply go_aunlock|]. constructor.
  - split; reflexivity.
Qed.

Lemma threads_invariant_witness :
  ∃ (m : shared) (T : gmap nat pc), T !! 0%nat = Some (ADone (Ret 0)) ∧ T !! 1%nat = Some (ADone (Ret 1)) ∧
    count m * PageSize ≤ len (bytes m) ∧ (∀ i, 0 ≤ i < count m ↔ ∃ t x, T !! t = Some x ∧ got x = Some i).
Proof.
  destruct two_pages as (evs&m&H&_&_). do 2 eexists. split; [|split; [|split]].
  3: { exact (proj1 (proj2 (threads_invariant _ _ _ _ empty_disk_wf H))). }
  3: { exact (proj1 (proj2 (proj2 (proj2 (proj2 (proj2 (threads_invariant _ _ _ _ empty_disk_wf H))))))). }
  - by rewrite lookup_insert_ne.
  - apply lookup_insert_eq.
Defined.

(** Two writes of distinct pages, piece by piece. *)
Lemma page_io_isolated_witness :
  let src := replicate (Z.to_nat PageSize) x2a in
  let src' := replicate (Z.to_nat PageSize) x2b in
  ∃ evs0 evs m T m' (T' : gmap nat pc),
    steps (opened empty_disk) evs0 (m, T) ∧ steps (m, T) evs (m', T') ∧
    evs = [Silent; Silent; Silent; Silent; Silent; Silent; Silent; Silent; Silent; Silent;
           Wrote 3 1; Wrote 2 0; Wrote 3 1; Silent; Wrote 2 0; Silent] ∧
    T' !! 2%nat = Some (PDone (AWrite src) (Ret tt)) ∧ page_at 0 (bytes m') = src.
Proof.
  intros src src'. assert (len src = PageSize) as HL by reflexivity. assert (len src' = PageSize) as HL' by reflexivity.
  clearbody src src'. destruct two_pages as (evs0&m&H0&Hl&Hc).
  set (T0 := <[1%nat := ADone (Ret 1)]> (<[0%nat := ADone (Ret 0)]> ∅)) in *.
  assert (steps (opened empty_disk) (evs0 ++ [Silent; Silent])
            (m, <[2%nat := PEnter (AWrite src) 0]> (<[3%nat := PEnter (AWrite src') 1]> T0))) as H1.
  { eapply steps_app; [exact H0|]. eapply (steps_call 3 _ _ (PEnter (AWrite src') 1)); [reflexivity|by simpl|].
    eapply (steps_call 2 _ _ (PEnter (AWrite src) 0)); [reflexivity|by simpl|]. constructor. }
  assert (∃ m' T', steps (m, <[2%nat := PEnter (AWrite src) 0]> (<[3%nat := PEnter (AWrite src') 1]> T0))
    [Silent; Silent; Silent; Silent; Silent; Silent; Silent; Silent; Silent; Silent;
     Wrote 3 1; Wrote 2 0; Wrote 3 1; Silent; Wrote 2 0; Silent] (m', T') ∧
    T' !! 2%nat = Some (PDone (AWrite src) (Ret tt))) as (m'&T'&H2&HT').
  { do 2 eexists. split.
    - eapply steps_go; [by apply go_enter|]. eapply steps_go; [by apply go_lock|]. eapply steps_go; [apply go_count|].
      eapply steps_go; [apply go_unlock|]. eapply steps_go; [apply go_begin; cbn; lia|]. apply steps_swap; [done|].
      eapply steps_go; [by apply go_enter|]. eapply steps_go; [by apply go_lock|]. eapply steps_go; [apply go_count|].
      eapply steps_go; [apply go_unlock|]. eapply steps_go; [apply go_begin; cbn; lia|].
      eapply steps_go; [by apply (go_write _ _ _ _ _ 4096)|]. apply steps_swap; [done|].
      eapply steps_go; [by apply (go_write _ _ _ _ _ 4096)|]. apply steps_swap; [done|].
      eapply steps_go; [by apply (go_write _ _ _ _ _ 4096)|]. eapply steps_go; [apply go_done|]. apply steps_swap; [done|].
      eapply steps_go; [by apply (go_write _ _ _ _ _ 4096)|]. eapply steps_go; [apply go_done|]. constructor.
    - apply lookup_insert_eq. }
  exists (evs0 ++ [Silent; Silent]). do 5 eexists. split; [exact H1|]. split; [exact H2|]. split; [reflexivity|].
  split; [exact HT'|].
  refine (proj2 (proj1 (page_io_isolated _ _ _ _ _ _ _ 2 (AWrite src) _ 0 empty_disk_wf H1 H2 (lookup_insert_eq _ _ _) HT' _))).
  intros t' E. repeat (apply elem_of_cons in E as [E|E]; [first [discriminate E | by injection E]|]). by apply elem_of_nil in E.
Defined.

Lemma all_can_return_witness :
  ∃ evs m m' (T' : gmap nat pc), steps (opened empty_disk) evs (m, {[0%nat := AExtend 0 4096; 1%nat := ALock]}) ∧
    lock m = Some 0%nat ∧ lock m' = None ∧
    ∃ x y, T' !! 0%nat = Some x ∧ returned x = true ∧ succeeding x = true ∧ T' !! 1%nat = Some y ∧ returned y = true.
Proof.
  assert (∃ evs m, steps (opened empty_disk) evs (m, {[0%nat := AExtend 0 4096; 1%nat := ALock]}) ∧ lock m = Some 0%nat)
    as (evs&m&H&Hl).
  { do 2 eexists. split.
    - eapply (steps_call 1 _ _ ALock); [apply lookup_empty|exact I|].
      eapply (steps_call 0 _ _ ALock); [by rewrite lookup_insert_ne|exact I|].
      eapply steps_go; [by apply go_alock|]. eapply steps_go; [by apply go_extend|].
      eapply steps_go; [by apply (go_zero _ _ _ _ 4096)|]. rewrite insert_empty. constructor.
    - reflexivity. }
  destruct (all_can_return _ _ _ _ empty_disk_wf H) as (evs'&m'&T'&_&Hl'&_&HT).
  destruct (HT 0%nat (AExtend 0 4096)) as (x&Hx&Rx&_&Sx); [reflexivity|].
  destruct (HT 1%nat ALock) as (y&Hy&Ry&_); [reflexivity|].
  exists evs, m, m', T'. split_and!; [exact H|exact Hl|exact Hl'|].
  exists x, y. split_and!; [exact Hx|exact Rx|exact (Sx eq_refl)|exact Hy|exact Ry].
Defined.

End DiskThreads.
