(* ===== verification/LRU.v ===== *)
(** * Package buffer: the LRU replacer (src/internal/storage/buffer/lru_replacer.go)

    The replacer keeps a doubly-linked list of frames and a map from a frame to
    its list element.  The list is modelled with the identity of its elements,
    since the map points at elements and [Remove] takes an element.  The
    specification is a duplicate-free list of frames, most recent first. *)

From S2P Require Import Prelude.

Module LRU.

Abbreviation frameID := nat.
(** Identity of a [*list.Element]. *)
Abbreviation elem := nat.

Record LRUReplacer := Replacer {
  order : list (elem * frameID);
  index : gmap frameID elem;
  next_elem : elem }.

Definition NewLRUReplacer : LRUReplacer := Replacer [] ∅ 0.

(** [list.Remove(e)]. *)
Definition list_remove (e : elem) (l : list (elem * frameID)) : list (elem * frameID) :=
  filter (λ x, x.1 ≠ e) l.

Definition Unpin (f : frameID) (r : LRUReplacer) : LRUReplacer :=
  match index r !! f with
  | Some _ => r
  | None => Replacer ((next_elem r, f) :: order r) (<[f := next_elem r]> (index r)) (S (next_elem r))
  end.

Definition Pin (f : frameID) (r : LRUReplacer) : LRUReplacer :=
  match index r !! f with
  | None => r
  | Some e => Replacer (list_remove e (order r)) (delete f (index r)) (next_elem r)
  end.

Definition Victim (r : LRUReplacer) : LRUReplacer * option frameID :=
  match last (order r) with
  | None => (r, None)
  | Some (e, f) =>
      (Replacer (list_remove e (order r)) (delete f (index r)) (next_elem r), Some f)
  end.

Definition Size (r : LRUReplacer) : Z := len (order r).

(** ** Specification: a duplicate-free list, front = most recently used *)

Definition spec_unpin (f : frameID) (l : list frameID) : list frameID :=
  if decide (f ∈ l) then l else f :: l.
Definition spec_pin (f : frameID) (l : list frameID) : list frameID := filter (λ x, x ≠ f) l.
Definition spec_victim (l : list frameID) : list frameID * option frameID :=
  match last l with
  | None => (l, None)
  | Some f => (take (length l - 1) l, Some f)
  end.

Definition frames (r : LRUReplacer) : list frameID := (order r).*2.

(** The map and the list agree, and element identities are fresh. *)
Record wf (r : LRUReplacer) : Prop := Wf {
  wf_elems : NoDup (order r).*1;
  wf_frames : NoDup (order r).*2;
  wf_fresh : ∀ e f, (e, f) ∈ order r → (e < next_elem r)%nat;
  wf_index : ∀ f e, index r !! f = Some e ↔ (e, f) ∈ order r }.

(** ** Refinement *)

Lemma NoDup_fst_inj {A B} (l : list (A * B)) a b b' :
  NoDup l.*1 → (a, b) ∈ l → (a, b') ∈ l → b = b'.
Proof.
  intros Hn H1 H2. apply list_elem_of_lookup in H1 as [i Hi], H2 as [j Hj].
  assert (i = j) as <-; [|by simplify_eq].
  eapply (NoDup_lookup _ _ _ a Hn); rewrite list_lookup_fmap, ?Hi, ?Hj; done.
Qed.

Lemma frames_index r f : wf r → f ∈ frames r ↔ is_Some (index r !! f).
Proof.
  intros Hw. unfold frames. rewrite list_elem_of_fmap. split.
  - intros ([e f']&->&Hin). exists e. by apply (wf_index _ Hw).
  - intros [e He]. apply (wf_index _ Hw) in He. by exists (e, f).
Qed.

(** Removing an element removes its frame. *)
Lemma remove_frames r e f :
  wf r → (e, f) ∈ order r → (list_remove e (order r)).*2 = spec_pin f (frames r).
Proof.
  intros Hw Hin. unfold spec_pin, frames, list_remove.
  pose proof (wf_elems _ Hw) as H1. pose proof (wf_frames _ Hw) as H2. revert H1 H2 Hin.
  generalize (order r) as l. induction l as [|[e' f'] l IH]; [done|].
  intros H1 H2 Hin. rewrite !fmap_cons in *. simpl in H1, H2.
  apply NoDup_cons in H1 as [N1 H1], H2 as [N2 H2].
  rewrite !filter_cons. simpl. apply elem_of_cons in Hin as [[= -> ->]|Hin].
  - rewrite !decide_False by (by intros ?).
    assert (filter (λ x : nat * nat, x.1 ≠ e') l = l) as ->.
    { apply filter_all. intros x Hx Hxe. apply N1. rewrite <-Hxe. by apply list_elem_of_fmap_2. }
    symmetry. apply filter_all. by intros x Hx ->.
  - assert (e' ≠ e). { intros ->. apply N1. by apply (list_elem_of_fmap_2 fst) in Hin. }
    assert (f' ≠ f). { intros ->. apply N2. by apply (list_elem_of_fmap_2 snd) in Hin. }
    rewrite !decide_True by done. simpl. f_equal. by apply IH.
Qed.

Lemma wf_remove r e f :
  wf r → (e, f) ∈ order r →
  wf (Replacer (list_remove e (order r)) (delete f (index r)) (next_elem r)).
Proof.
  intros Hw Hin. split; simpl; unfold list_remove.
  - eapply sublist_NoDup; [apply (wf_elems _ Hw)|]. apply fmap_sublist, sublist_filter.
  - eapply sublist_NoDup; [apply (wf_frames _ Hw)|]. apply fmap_sublist, sublist_filter.
  - intros e' f' [_ H]%list_elem_of_filter. by eapply wf_fresh.
  - intros f' e'. rewrite list_elem_of_filter. simpl. rewrite <-(wf_index _ Hw).
    rewrite lookup_delete_Some. split.
    + intros [Hne He']. split; [|done]. intros ->. apply Hne. apply (wf_index _ Hw) in He'.
      eapply NoDup_fst_inj; [apply (wf_elems _ Hw)|done..].
    + intros [Hne He']. split; [|done]. intros ->. apply Hne.
      apply (wf_index _ Hw) in Hin. congruence.
Qed.

Lemma spec_pin_absent f l : f ∉ l → spec_pin f l = l.
Proof. intros H. apply filter_all. by intros x Hx ->. Qed.

Lemma spec_pin_last f l : NoDup (l ++ [f]) → spec_pin f (l ++ [f]) = l.
Proof.
  intros H. unfold spec_pin. rewrite filter_app.
  rewrite filter_cons_False by (by intros ?). rewrite app_nil_r.
  apply spec_pin_absent. intros Hin.
  apply NoDup_app in H as (_&Hd&_). apply (Hd f Hin). by left.
Qed.

Lemma spec_pin_length f l : NoDup l → f ∈ l → S (length (spec_pin f l)) = length l.
Proof.
  intros Hn (l1&l2&->)%list_elem_of_split. apply NoDup_app in Hn as (_&Hd&Hn).
  apply NoDup_cons in Hn as [Hf _]. unfold spec_pin. rewrite filter_app.
  rewrite filter_cons_False by (by intros ?).
  fold (spec_pin f l1) (spec_pin f l2).
  rewrite !spec_pin_absent; [rewrite !length_app; simpl; lia|done|].
  intros Hin. apply (Hd f Hin). by left.
Qed.

Lemma Unpin_wf f r : wf r → wf (Unpin f r).
Proof.
  intros Hw. unfold Unpin. destruct (index r !! f) eqn:E; [done|].
  assert (f ∉ (order r).*2).
  { intros Hf. apply (frames_index _ _ Hw) in Hf. by rewrite E in Hf; destruct Hf. }
  split; simpl.
  - apply NoDup_cons. split; [|apply Hw]. intros ([e f']&He&Hin)%list_elem_of_fmap.
    apply (wf_fresh _ Hw) in Hin. simpl in He. lia.
  - apply NoDup_cons. split; [done|apply Hw].
  - intros e f' [[= -> ->]|Hin]%elem_of_cons; [lia|]. apply (wf_fresh _ Hw) in Hin. lia.
  - intros f' e. rewrite elem_of_cons, <-(wf_index _ Hw).
    destruct (decide (f = f')) as [<-|]; simplify_map_eq; naive_solver.
Qed.

Lemma Unpin_frames f r : wf r → frames (Unpin f r) = spec_unpin f (frames r).
Proof.
  intros Hw. unfold spec_unpin, Unpin. pose proof (frames_index r f Hw) as Hf.
  destruct (index r !! f); case_decide; try done.
  - exfalso. naive_solver.
  - destruct Hf as [Hf _]. by destruct Hf.
Qed.

Lemma Pin_wf f r : wf r → wf (Pin f r).
Proof.
  intros Hw. unfold Pin. destruct (index r !! f) eqn:E; [|done].
  apply wf_remove; [done|]. by apply (wf_index _ Hw).
Qed.

Lemma Pin_frames f r : wf r → frames (Pin f r) = spec_pin f (frames r).
Proof.
  intros Hw. unfold Pin. destruct (index r !! f) as [e|] eqn:E.
  - apply remove_frames; [done|]. by apply (wf_index _ Hw).
  - symmetry. apply spec_pin_absent. intros Hf. apply (frames_index _ _ Hw) in Hf.
    rewrite E in Hf. by destruct Hf.
Qed.

Lemma Victim_wf r : wf r → wf (Victim r).1.
Proof.
  intros Hw. unfold Victim. destruct (last (order r)) as [[e f]|] eqn:E; [|done].
  apply wf_remove; [done|]. by apply last_Some_elem_of.
Qed.

Lemma Victim_frames r :
  wf r → (frames (Victim r).1, (Victim r).2) = spec_victim (frames r).
Proof.
  intros Hw. unfold Victim, spec_victim. unfold frames at 2. rewrite fmap_last.
  destruct (last (order r)) as [[e f]|] eqn:E; simpl; [|done]. f_equal.
  unfold frames at 1. simpl. rewrite (remove_frames _ _ f) by (done || by apply last_Some_elem_of).
  apply last_Some in E as [l Hl]. pose proof (wf_frames _ Hw) as Hn.
  unfold frames in *. rewrite Hl, fmap_app in *. simpl in *.
  rewrite spec_pin_last by done. rewrite length_app. simpl.
  by rewrite Nat.add_sub, take_app_length.
Qed.

Lemma NewLRUReplacer_wf : wf NewLRUReplacer.
Proof.
  split; simpl; try constructor.
  - intros e f H. by apply elem_of_nil in H.
  - intros. by simplify_map_eq.
  - intros H. by apply elem_of_nil in H.
Qed.

(** C35: the replacer refines a duplicate-free list of frames, most recent
    first: Unpin adds a frame at the front unless it is already there, Pin
    removes it, Victim takes the frame at the back (the one unpinned longest
    ago), Size is the length; every operation keeps the map from frames to list
    elements consistent with the list. *)
Theorem replacer_refines f r :
  wf r →
  (wf (Unpin f r) ∧ frames (Unpin f r) = spec_unpin f (frames r)) ∧
  (wf (Pin f r) ∧ frames (Pin f r) = spec_pin f (frames r)) ∧
  (wf (Victim r).1 ∧ (frames (Victim r).1, (Victim r).2) = spec_victim (frames r)) ∧
  Size r = len (frames r) ∧ NoDup (frames r).
Proof.
  intros Hw. split_and!; try apply Hw.
  - by apply Unpin_wf.
  - by apply Unpin_frames.
  - by apply Pin_wf.
  - by apply Pin_frames.
  - by apply Victim_wf.
  - by apply Victim_frames.
  - unfold Size, frames. by rewrite length_fmap.
Qed.

Lemma replacer_refines_witness :
  wf (Unpin 3 NewLRUReplacer) ∧ (Victim (Unpin 3 NewLRUReplacer)).2 = Some 3%nat.
Proof.
  assert (wf (Unpin 3 NewLRUReplacer)) as Hw
    by exact (proj1 (proj1 (replacer_refines 3 NewLRUReplacer NewLRUReplacer_wf))).
  split; [exact Hw|].
  destruct (replacer_refines 3 (Unpin 3 NewLRUReplacer) Hw) as (_&_&(_&Hv)&_).
  exact (f_equal snd Hv).
Defined.

End LRU.
