(* ===== verification/BufferPool.v ===== *)
(** * Package buffer: the buffer pool (src/internal/storage/buffer/buffer_pool.go)

    The pool's record and its operations, as steps on the pool's state.  A
    [*page.Page] the pool hands out is the id of the frame it points to: the
    caller reads and writes the frame's bytes through [load] and [store], which
    alias the pool's frame as the Go pointer does.  The pool lock makes every
    operation atomic.  This file holds the operations; [BufferInv] holds the
    invariant and the theorems. *)

From S2P Require Import Prelude Bytes PageLayout Disk LRU.

Module Pool.

Abbreviation FileID := Z.
Abbreviation PageID := Z.
Abbreviation frameID := nat.
Abbreviation DiskManager := Disk.DiskManager.

(** [pageKey]: which file, and which page within it. *)
Abbreviation pageKey := (FileID * PageID)%type.

Record frameMeta := FrameMeta { key : pageKey; pinCount : Z; dirty : bool }.

Record BufferPool := BP {
  files : list DiskManager;
  frames : list page;
  meta : list frameMeta;
  pageTable : gmap pageKey frameID;
  freeList : list frameID;
  replacer : LRU.LRUReplacer }.

(** Field updates. *)
Definition set_files (x : list DiskManager) (bp : BufferPool) :=
  BP x (frames bp) (meta bp) (pageTable bp) (freeList bp) (replacer bp).
Definition set_frames (x : list page) (bp : BufferPool) :=
  BP (files bp) x (meta bp) (pageTable bp) (freeList bp) (replacer bp).
Definition set_meta (x : list frameMeta) (bp : BufferPool) :=
  BP (files bp) (frames bp) x (pageTable bp) (freeList bp) (replacer bp).
Definition set_table (x : gmap pageKey frameID) (bp : BufferPool) :=
  BP (files bp) (frames bp) (meta bp) x (freeList bp) (replacer bp).
Definition set_free (x : list frameID) (bp : BufferPool) :=
  BP (files bp) (frames bp) (meta bp) (pageTable bp) x (replacer bp).
Definition set_replacer (x : LRU.LRUReplacer) (bp : BufferPool) :=
  BP (files bp) (frames bp) (meta bp) (pageTable bp) (freeList bp) x.

(** Reading a slice element panics out of range. *)
Definition idx {A} (l : list A) (i : Z) : option A := if 0 <=? i then l !! Z.to_nat i else None.

(** Run a disk-manager method on [bp.files[file]]. *)
Definition on_file {A} (file : FileID) (m : st DiskManager A) : st BufferPool A := λ bp,
  match idx (files bp) file with
  | None => (bp, Panic)
  | Some d => let '(d', r) := m d in (set_files (<[Z.to_nat file := d']> (files bp)) bp, r)
  end.

Definition zero_meta : frameMeta := FrameMeta (0, 0) 0 false.

(** [NewBufferPool]. *)
Definition NewBufferPool (poolSize : Z) : res BufferPool :=
  if poolSize <=? 0 then Panic
  else Ret (BP [] (replicate (Z.to_nat poolSize) NewPage) (replicate (Z.to_nat poolSize) zero_meta)
               ∅ (seq 0 (Z.to_nat poolSize)) LRU.NewLRUReplacer).

(** [FileHandle]: the pool is the state the methods act on. *)
Record FileHandle := Handle { hfile : FileID }.

(** [FileID] is a uint32. *)
Definition Register (dm : DiskManager) : st BufferPool FileHandle := λ bp,
  let id := u32 (len (files bp)) in
  (set_files (files bp ++ [dm]) bp, Ret (Handle id)).

Definition bindFrame (f : frameID) (k : pageKey) (bp : BufferPool) : BufferPool :=
  set_table (<[k := f]> (pageTable bp)) (set_meta (<[f := FrameMeta k 1 false]> (meta bp)) bp).

(** Return a frame to the free list. *)
Definition release (f : frameID) (bp : BufferPool) : BufferPool := set_free (freeList bp ++ [f]) bp.

Definition acquireFrame : st BufferPool frameID := λ bp,
  match last (freeList bp) with
  | Some f => (set_free (take (length (freeList bp) - 1) (freeList bp)) bp, Ret f)
  | None =>
      match LRU.Victim (replacer bp) with
      | (r, None) => (set_replacer r bp, Fail ErrNoFreeFrame)
      | (r, Some v) =>
          let bp := set_replacer r bp in
          match meta bp !! v, frames bp !! v with
          | Some m, Some bytes =>
              let old := key m in
              let evict bp := (set_table (delete old (pageTable bp)) bp, Ret v) in
              if dirty m then
                match on_file old.1 (Disk.WritePage old.2 bytes) bp with
                | (bp, Ret _) => evict bp
                | (bp, Fail e) => (set_replacer (LRU.Unpin v (replacer bp)) bp,
                                   Fail (Wrapf "buffer: flush victim" e))
                | (bp, Panic) => (bp, Panic)
                end
              else evict bp
          | _, _ => (bp, Panic)
          end
      end
  end.

(** Phase B of [fetch]: [ReadPage] into the frame, then bind it or give it back. *)
Definition load_frame (file : FileID) (pid : PageID) (f : frameID) : st BufferPool frameID := λ bp,
  match idx (files bp) file, frames bp !! f with
  | Some d, Some dst =>
      let '(d', (dst', r)) := Disk.ReadPage pid dst d in
      let bp := set_files (<[Z.to_nat file := d']> (files bp))
                  (set_frames (<[f := dst']> (frames bp)) bp) in
      match r with
      | Ret _ => (bindFrame f (file, pid) bp, Ret f)
      | Fail e => (release f bp, Fail (Wrapf "buffer: load" e))
      | Panic => (bp, Panic)
      end
  | _, _ => (bp, Panic)
  end.

Definition fetch (file : FileID) (pid : PageID) : st BufferPool frameID := λ bp,
  match pageTable bp !! (file, pid) with
  | Some f =>
      match meta bp !! f with
      | Some m =>
          (set_replacer (LRU.Pin f (replacer bp))
             (set_meta (<[f := FrameMeta (key m) (pinCount m + 1) (dirty m)]> (meta bp)) bp), Ret f)
      | None => (bp, Panic)
      end
  | None => (do! f := acquireFrame in load_frame file pid f) bp
  end.

Definition newPage (file : FileID) : st BufferPool (frameID * PageID) :=
  do! f := acquireFrame in
  λ bp, match on_file file Disk.AllocatePage bp with
  | (bp, Ret pid) =>
      match frames bp !! f with
      | Some bytes =>
          let bp := set_frames (<[f := zeroes (len bytes)]> (frames bp)) bp in
          (bindFrame f (file, pid) bp, Ret (f, pid))
      | None => (bp, Panic)
      end
  | (bp, Fail e) => (release f bp, Fail (Wrapf "buffer: allocate page" e))
  | (bp, Panic) => (bp, Panic)
  end.

Definition unpin (file : FileID) (pid : PageID) (d : bool) : st BufferPool unit := λ bp,
  match pageTable bp !! (file, pid) with
  | None => (bp, Fail (Errorf "buffer: unpin page that is not resident"))
  | Some f =>
      match meta bp !! f with
      | None => (bp, Panic)
      | Some m =>
          if pinCount m =? 0 then (bp, Fail (Errorf "buffer: unpin page that is not pinned"))
          else
            let m' := FrameMeta (key m) (pinCount m - 1) (dirty m || d) in
            let bp := set_meta (<[f := m']> (meta bp)) bp in
            (if pinCount m' =? 0 then set_replacer (LRU.Unpin f (replacer bp)) bp else bp, Ret tt)
      end
  end.

Definition numPages (file : FileID) (bp : BufferPool) : res PageID :=
  match idx (files bp) file with Some d => Ret (Disk.NumPages d) | None => Panic end.

Definition flushLocked (f : frameID) : st BufferPool unit := λ bp,
  match meta bp !! f, frames bp !! f with
  | Some m, Some bytes =>
      if dirty m then
        match on_file (key m).1 (Disk.WritePage (key m).2 bytes) bp with
        | (bp, Ret _) => (set_meta (<[f := FrameMeta (key m) (pinCount m) false]> (meta bp)) bp, Ret tt)
        | (bp, Fail e) => (bp, Fail (Wrapf "buffer: flush" e))
        | (bp, Panic) => (bp, Panic)
        end
      else (bp, Ret tt)
  | _, _ => (bp, Panic)
  end.

Definition flushPage (file : FileID) (pid : PageID) : st BufferPool unit := λ bp,
  match pageTable bp !! (file, pid) with
  | None => (bp, Fail (Errorf "buffer: flush page that is not resident"))
  | Some f => flushLocked f bp
  end.

(** [FlushAll]: [order] is the order in which Go's map iteration yields the
    frames of the page table. *)
Fixpoint FlushAll (order : list frameID) : st BufferPool unit :=
  match order with
  | [] => st_ret tt
  | f :: order => do! _ := flushLocked f in FlushAll order
  end.
Definition map_order (order : list frameID) (bp : BufferPool) : Prop :=
  order ≡ₚ (map_to_list (pageTable bp)).*2.

(** [Sync]: fsync every registered file, in registration order. *)
Fixpoint Sync_from (i : Z) (n : nat) : st BufferPool unit :=
  match n with
  | O => st_ret tt
  | S n => do! _ := on_file i Disk.Sync in Sync_from (i + 1) n
  end.
Definition Sync : st BufferPool unit := λ bp, Sync_from 0 (length (files bp)) bp.

(** The methods of a [FileHandle]. *)
Definition FetchPage (h : FileHandle) (pid : PageID) : st BufferPool frameID := fetch (hfile h) pid.
Definition NewPageIn (h : FileHandle) : st BufferPool (frameID * PageID) := newPage (hfile h).
Definition UnpinPage (h : FileHandle) (pid : PageID) (d : bool) : st BufferPool unit :=
  unpin (hfile h) pid d.
Definition NumPages (h : FileHandle) (bp : BufferPool) : res PageID := numPages (hfile h) bp.
Definition FlushPage (h : FileHandle) (pid : PageID) : st BufferPool unit := flushPage (hfile h) pid.

(** What a holder of a [*page.Page] does with it: [Bytes()] aliases the frame. *)
Definition load (f : frameID) (bp : BufferPool) : page := default [] (frames bp !! f).
Definition store (f : frameID) (bytes : page) (bp : BufferPool) : BufferPool :=
  set_frames (<[f := bytes]> (frames bp)) bp.

End Pool.
