(* ===== verification/BufferInv.v ===== *)
(** * The buffer pool's invariant and its guarantees

    [inv M hole bp]: the three-state invariant of the pool's documentation, the
    coherence of clean frames with the disk, and the bookkeeping that ties them.
    [M] is the set of frames a caller has modified and not yet declared dirty;
    [hole] is the frame an operation owns between taking it and binding it.
    [view] is the pool's abstract state: the contents of every page of every
    file, whether it is served from memory or from disk. *)

From S2P Require Import Prelude Bytes PageLayout Disk LRU BufferPool.

Module PoolInv.
Import Pool.

(** ** Abstract state *)

Definition disk_view (fs : list DiskManager) (k : pageKey) : option page :=
  match idx fs k.1 with
  | Some d => if decide (0 ≤ k.2 < Disk.numPages d) then Some (Disk.disk_page d k.2) else None
  | None => None
  end.

(** The contents of page [k], wherever it lives. *)
Definition view (bp : BufferPool) (k : pageKey) : option page :=
  match pageTable bp !! k with
  | Some f => frames bp !! f
  | None => disk_view (files bp) k
  end.

Definition pins (bp : BufferPool) (k : pageKey) : Z :=
  match pageTable bp !! k with
  | Some f => match meta bp !! f with Some m => pinCount m | None => 0 end
  | None => 0
  end.

(** Frames that can be given to a new page: free ones and idle resident ones. *)
Definition room (bp : BufferPool) : nat :=
  length (freeList bp) + length (LRU.frames (replacer bp)).

(** ** Invariant *)

(** Page [k] sits in frame [f]: its bookkeeping names it, its id is in range,
    and unless it is dirty or being modified its bytes are those on disk. *)
Inductive resident_ok (M : gset frameID) (bp : BufferPool) (k : pageKey) (f : frameID) : Prop :=
| ResOk m p d :
    meta bp !! f = Some m → frames bp !! f = Some p →
    key m = k → 0 ≤ pinCount m →
    idx (files bp) k.1 = Some d → 0 ≤ k.2 < Disk.numPages d →
    (dirty m = false → f ∉ M → p = Disk.disk_page d k.2) →
    resident_ok M bp k f.

Record inv (M : gset frameID) (hole : option frameID) (bp : BufferPool) : Prop := Inv {
  i_len : length (meta bp) = length (frames bp);
  i_frames : ∀ f p, frames bp !! f = Some p → wf_page p;
  i_files : ∀ i d, idx (files bp) i = Some d → Disk.wf d;
  i_lru : LRU.wf (replacer bp);
  i_free_nodup : NoDup (freeList bp);
  i_free : ∀ f, f ∈ freeList bp → (f < length (frames bp))%nat ∧ (∀ k, pageTable bp !! k ≠ Some f);
  i_table : ∀ k f, pageTable bp !! k = Some f → resident_ok M bp k f;
  i_idle : ∀ f, (f ∈ LRU.frames (replacer bp)) ↔
    (∃ k m, pageTable bp !! k = Some f ∧ meta bp !! f = Some m ∧ pinCount m = 0);
  i_mod : ∀ f, f ∈ M →
    ∃ k m, pageTable bp !! k = Some f ∧ meta bp !! f = Some m ∧ 0 < pinCount m;
  i_hole : ∀ f, hole = Some f →
    (f < length (frames bp))%nat ∧ (f ∉ freeList bp) ∧ (∀ k, pageTable bp !! k ≠ Some f);
  i_cover : ∀ f, (f < length (frames bp))%nat →
    f ∈ freeList bp ∨ hole = Some f ∨ ∃ k, pageTable bp !! k = Some f }.

(** What no operation but a caller's own writes may change. *)
Record same (bp bp' : BufferPool) : Prop := Same {
  s_view : ∀ k, view bp' k = view bp k;
  s_pins : ∀ k, pins bp' k = pins bp k;
  s_loc : ∀ k, 0 < pins bp k → pageTable bp' !! k = pageTable bp !! k;
  s_count : ∀ i, numPages i bp' = numPages i bp }.

Definition healthy (bp : BufferPool) : Prop := ∀ i d, idx (files bp) i = Some d → Disk.healthy d.

(** ** Elementary facts *)

Lemma idx_Some {A} (l : list A) i x : idx l i = Some x → 0 ≤ i ∧ l !! Z.to_nat i = Some x.
Proof. unfold idx. case_match; [|done]. bools. done. Qed.

Lemma idx_insert {A} (l : list A) i j x :
  0 ≤ i < len l →
  idx (<[Z.to_nat i := x]> l) j = if decide (j = i) then Some x else idx l j.
Proof.
  intros. unfold idx. case_decide as E; [subst|].
  - rewrite (proj2 (Z.leb_le _ _)) by lia. apply list_lookup_insert_eq. lia.
  - case_match; [|done]. bools. apply list_lookup_insert_ne. lia.
Qed.

Lemma idx_lt {A} (l : list A) i x : idx l i = Some x → 0 ≤ i < len l.
Proof. intros [? H]%idx_Some. apply lookup_lt_Some in H. lia. Qed.

#[global] Instance same_preorder : PreOrder same.
Proof.
  split; [by split|]. intros b1 b2 b3 [V1 P1 L1 C1] [V2 P2 L2 C2]. split; intros.
  - by rewrite V2.
  - by rewrite P2.
  - rewrite L2 by (by rewrite P1). by apply L1.
  - by rewrite C2.
Qed.

(** Only the files and the frame's own entries matter to a resident page. *)
Lemma resident_ext M bp bp' k f :
  files bp' = files bp → frames bp' !! f = frames bp !! f → meta bp' !! f = meta bp !! f →
  resident_ok M bp k f → resident_ok M bp' k f.
Proof. intros Hf Hp Hm [m p d ???????]. exists m p d; rewrite ?Hf, ?Hp, ?Hm; done. Qed.

Section facts.
Context {M : gset frameID} {hole : option frameID} {bp : BufferPool}.
Context (I : inv M hole bp).

(** The table is injective: a frame holds one page. *)
Lemma table_inj k k' f : pageTable bp !! k = Some f → pageTable bp !! k' = Some f → k = k'.
Proof.
  intros [m p d Hm _ Hk]%(i_table _ _ _ I) [m' p' d' Hm' _ Hk']%(i_table _ _ _ I). congruence.
Qed.

Lemma table_lt k f : pageTable bp !! k = Some f → (f < length (frames bp))%nat.
Proof. intros [m p d _ Hp]%(i_table _ _ _ I). by eapply lookup_lt_Some. Qed.

Lemma pins_nonneg k : 0 ≤ pins bp k.
Proof.
  unfold pins. destruct (pageTable bp !! k) eqn:E; [|done].
  apply (i_table _ _ _ I) in E as [m p d -> _ _ ?]. done.
Qed.

Lemma pins_resident k f m :
  pageTable bp !! k = Some f → meta bp !! f = Some m → pins bp k = pinCount m.
Proof. unfold pins. by intros -> ->. Qed.

Lemma pinned_resident k : 0 < pins bp k → ∃ f, pageTable bp !! k = Some f.
Proof. unfold pins. destruct (pageTable bp !! k); [eauto|lia]. Qed.

(** A page has contents exactly when its id is in range. *)
Lemma view_valid k : is_Some (view bp k) ↔ is_Some (disk_view (files bp) k).
Proof.
  unfold view. destruct (pageTable bp !! k) as [f|] eqn:E; [|done].
  apply (i_table _ _ _ I) in E as [m p d _ -> _ _ Hd Hr _].
  unfold disk_view. rewrite Hd, decide_True by done. split; by eexists.
Qed.

Lemma view_size k p : view bp k = Some p → wf_page p.
Proof.
  unfold view. destruct (pageTable bp !! k) as [f|] eqn:E; [by apply (i_frames _ _ _ I)|].
  unfold disk_view. destruct (idx _ _) as [d|] eqn:Ed; [|done]. case_decide; [|done].
  intros [= <-]. apply Disk.page_len; [|done]. by eapply i_files.
Qed.
End facts.

(** ** Replacing the files *)

(** [fs'] is [fs] after disk traffic that may have changed the pages in [X]. *)
Record files_step (X : pageKey → Prop) (fs fs' : list DiskManager) : Prop := FilesStep {
  fs_len : length fs' = length fs;
  fs_disk : ∀ i d, idx fs i = Some d → ∃ d', idx fs' i = Some d' ∧ Disk.wf d' ∧
    Disk.numPages d ≤ Disk.numPages d' ∧
    ∀ pid, 0 ≤ pid < Disk.numPages d → ¬ X (i, pid) → Disk.disk_page d' pid = Disk.disk_page d pid }.

Lemma idx_step X fs fs' i d' :
  files_step X fs fs' → idx fs' i = Some d' → ∃ d, idx fs i = Some d.
Proof.
  intros [Hl _] H%idx_lt. unfold idx. rewrite (proj2 (Z.leb_le _ _)) by lia.
  apply lookup_lt_is_Some. lia.
Qed.

Lemma inv_set_files X fs' M hole bp :
  inv M hole bp → files_step X (files bp) fs' →
  (∀ k f m, pageTable bp !! k = Some f → meta bp !! f = Some m → X k → dirty m = true ∨ f ∈ M) →
  inv M hole (set_files fs' bp).
Proof.
  intros I S HX. destruct I as [H1 H2 H3 H4 H5 H6 H7 H8 H9 H10 H11].
  split; simpl; try done.
  - intros i d' Hd'. destruct (idx_step _ _ _ _ _ S Hd') as [d Hd].
    destruct (fs_disk _ _ _ S _ _ Hd) as (d2&?&?&_). congruence.
  - intros k f Hk. destruct (H7 k f Hk) as [m p d Hm Hp Hkey Hpin Hd Hr Hc].
    destruct (fs_disk _ _ _ S _ _ Hd) as (d'&Hd'&Hwf&Hn&Hsame).
    apply (ResOk _ _ _ _ m p d'); [exact Hm|exact Hp|exact Hkey|exact Hpin|exact Hd'|lia|].
    intros Hcl HM. rewrite Hc by done. symmetry. apply Hsame; [done|]. rewrite <-surjective_pairing.
    intros Hx. destruct (HX _ _ _ Hk Hm Hx); congruence.
Qed.

Lemma same_set_files X fs' bp :
  files_step X (files bp) fs' → (∀ k, X k → is_Some (pageTable bp !! k)) →
  (∀ i d d', idx (files bp) i = Some d → idx fs' i = Some d' → Disk.numPages d' = Disk.numPages d) →
  same bp (set_files fs' bp).
Proof.
  intros S HX HN. split; try done.
  - intros k. unfold view. simpl. destruct (pageTable bp !! k) eqn:E; [done|].
    unfold disk_view. destruct (idx (files bp) k.1) as [d|] eqn:Ed.
    + destruct (fs_disk _ _ _ S _ _ Ed) as (d'&Ed'&_&_&Hsame). rewrite Ed', (HN _ _ _ Ed Ed').
      case_decide; [|done]. apply (f_equal Some), Hsame; [done|]. rewrite <-surjective_pairing.
      intros [f Hf]%HX. congruence.
    + destruct (idx fs' k.1) eqn:Ed'; [|done]. apply (idx_step _ _ _ _ _ S) in Ed' as [? ?]. congruence.
  - intros i. unfold numPages. simpl. destruct (idx (files bp) i) as [d|] eqn:Ed.
    + destruct (fs_disk _ _ _ S _ _ Ed) as (d'&Ed'&_&_&_). rewrite Ed'.
      unfold Disk.NumPages. by rewrite (HN _ _ _ Ed Ed').
    + destruct (idx fs' i) eqn:Ed'; [|done]. apply (idx_step _ _ _ _ _ S) in Ed' as [? ?]. congruence.
Qed.

(** ** Replacing one file *)

Section one_file.
Context {bp : BufferPool} {file : FileID} {d d' : DiskManager}.
Context (Hd : idx (files bp) file = Some d).
#[local] Notation fs' := (<[Z.to_nat file := d']> (files bp)).

Lemma one_file_idx i : idx fs' i = if decide (i = file) then Some d' else idx (files bp) i.
Proof. apply idx_insert. by eapply idx_lt. Qed.

Lemma one_file_step X M hole :
  inv M hole bp → Disk.wf d' → Disk.numPages d ≤ Disk.numPages d' →
  (∀ q, 0 ≤ q < Disk.numPages d → ¬ X (file, q) → Disk.disk_page d' q = Disk.disk_page d q) →
  files_step X (files bp) fs'.
Proof.
  intros I Hwf Hn Hp. split; [apply length_insert|]. intros i d0 Hi. rewrite one_file_idx.
  case_decide as E; [subst i; assert (d0 = d) as -> by congruence; by exists d'|].
  exists d0. split_and!; try done. by eapply (i_files _ _ _ I).
Qed.

Lemma one_file_same X :
  files_step X (files bp) fs' → (∀ k, X k → is_Some (pageTable bp !! k)) →
  Disk.numPages d' = Disk.numPages d → same bp (set_files fs' bp).
Proof.
  intros S HX Hn. eapply same_set_files; [done..|]. intros i d1 d2 H1. rewrite one_file_idx.
  case_decide; [subst i|]; congruence.
Qed.

Lemma one_file_healthy : healthy bp → Disk.healthy d' → healthy (set_files fs' bp).
Proof.
  intros Hh Hh' i d0. simpl. rewrite one_file_idx. case_decide; [by intros [= <-]|apply Hh].
Qed.

(** Traffic that changed no page. *)
Lemma one_file_quiet M hole :
  inv M hole bp → Disk.wf d' → Disk.numPages d' = Disk.numPages d →
  (∀ q, 0 ≤ q < Disk.numPages d → Disk.disk_page d' q = Disk.disk_page d q) →
  inv M hole (set_files fs' bp) ∧ same bp (set_files fs' bp).
Proof.
  intros I Hwf Hn Hp. assert (files_step (λ _, False) (files bp) fs') as S
    by (eapply one_file_step; [done|done|lia|auto]).
  split; [by eapply inv_set_files|by eapply one_file_same].
Qed.
End one_file.

(** ** Changing the bookkeeping of one resident frame *)

Section retag.
Context {M M' : gset frameID} {bp : BufferPool} {k : pageKey} {f : frameID} {m m' : frameMeta}.
Context {r' : LRU.LRUReplacer}.
Context (I : inv M None bp) (Hk : pageTable bp !! k = Some f) (Hm : meta bp !! f = Some m).
#[local] Notation bp' := (set_replacer r' (set_meta (<[f := m']> (meta bp)) bp)).

Lemma retag_meta : <[f := m']> (meta bp) !! f = Some m'.
Proof. apply list_lookup_insert_eq. by eapply lookup_lt_Some. Qed.

Lemma retag_pins k' :
  pins bp' k' = pins bp k' + (if decide (k' = k) then pinCount m' - pinCount m else 0).
Proof.
  unfold pins. simpl. destruct (pageTable bp !! k') as [g|] eqn:E.
  - destruct (decide (g = f)) as [->|].
    + assert (k' = k) as -> by (by eapply (table_inj I)).
      rewrite retag_meta, Hm, decide_True by done. lia.
    + rewrite list_lookup_insert_ne by done. rewrite decide_False by (intros ->; congruence).
      destruct (meta bp !! g); lia.
  - rewrite decide_False by (intros ->; congruence). lia.
Qed.

(** The new entry has the same page, the candidates follow its pin count, and
    the unreported modifications are those of before except perhaps [f]'s. *)
Lemma retag_inv :
  key m' = key m → 0 ≤ pinCount m' →
  (∀ g, g ∈ M' → g ∈ M) → (∀ g, g ≠ f → g ∈ M → g ∈ M') → (f ∈ M' → 0 < pinCount m') →
  (∀ p d, frames bp !! f = Some p → idx (files bp) k.1 = Some d →
     dirty m' = false → f ∉ M' → p = Disk.disk_page d k.2) →
  LRU.wf r' → (∀ g, g ≠ f → g ∈ LRU.frames r' ↔ g ∈ LRU.frames (replacer bp)) →
  (f ∈ LRU.frames r' ↔ pinCount m' = 0) →
  inv M' None bp'.
Proof.
  intros Hkey Hnn Hsub Hsup Hmod Hclean Hw Hoth Hf. pose proof retag_meta as Hm'.
  pose proof I as [H1 H2 H3 H4 H5 H6 H7 H8 H9 H10 H11].
  split; simpl; rewrite ?length_insert; try done.
  - intros k' g Hk'. destruct (H7 _ _ Hk') as [m2 p d Hm2 Hp ? ? ? ? Hc].
    destruct (decide (g = f)) as [->|Hne].
    + assert (k' = k) as -> by (by eapply (table_inj I)). assert (m2 = m) as -> by congruence.
      exists m' p d; simpl; try done; [congruence|]. by apply Hclean.
    + exists m2 p d; simpl; try done; [by rewrite list_lookup_insert_ne|].
      intros Hd1 HgM. apply Hc; [done|]. intros HM. by apply HgM, Hsup.
  - intros g. destruct (decide (g = f)) as [->|Hne].
    + rewrite Hf. split; [intros Hz; by exists k, m'|].
      intros (k'&m2&_&Hm2&Hz). rewrite Hm' in Hm2. congruence.
    + rewrite list_lookup_insert_ne, Hoth by done. apply H8.
  - intros g Hg. destruct (decide (g = f)) as [->|Hne]; [exists k, m'; auto|].
    rewrite list_lookup_insert_ne by done. by apply H9, Hsub.
Qed.
End retag.

(** Writing a dirty resident page to its file. *)
Lemma write_back M hole bp k f m bytes bp' r :
  inv M hole bp → pageTable bp !! k = Some f → meta bp !! f = Some m → dirty m = true →
  frames bp !! f = Some bytes →
  on_file k.1 (Disk.WritePage k.2 bytes) bp = (bp', r) →
  ∃ fs', bp' = set_files fs' bp ∧ inv M hole bp' ∧ same bp bp' ∧ r ≠ Panic ∧
    (is_ret r = true → ∃ d', idx fs' k.1 = Some d' ∧ Disk.disk_page d' k.2 = bytes) ∧
    (healthy bp → r = Ret tt ∧ healthy bp').
Proof.
  intros I Hk Hm Hdirty Hb H. destruct (i_table _ _ _ I _ _ Hk) as [m' p' d ? _ _ _ Hd Hr _].
  unfold on_file in H. rewrite Hd in H.
  destruct (Disk.WritePage k.2 bytes d) as [d' r'] eqn:E. injection H as <- <-.
  pose proof E as HW. apply Disk.WritePage_spec in HW as (Hwf&Hn&_&Hoth&Hres);
    [|by eapply i_files|lia].
  pose proof (idx_lt _ _ _ Hd) as Hlt.
  assert (files_step (λ k', k' = k) (files bp) (<[Z.to_nat k.1 := d']> (files bp))) as S.
  { eapply one_file_step; [done..|lia|]. intros pid ? Hne. apply Hoth; [lia|].
    intros ->. apply Hne. by destruct k. }
  eexists. split_and!; [done| | | | |].
  - eapply inv_set_files; [done..|]. intros k' f' m2 Hk' Hm2 ->. left. congruence.
  - eapply one_file_same; [done..|intros k' ->; eauto|done].
  - by destruct r'.
  - intros Hret. exists d'. rewrite (one_file_idx Hd), decide_True by done.
    split; [done|]. destruct r'; [|done..]. by destruct Hres as (_&_&?).
  - intros Hh. destruct (Disk.WritePage_healthy d k.2 bytes) as (d2&E2&Hh2);
      [by eapply Hh|done|by eapply i_frames|].
    rewrite E in E2. simplify_eq. split; [done|by eapply one_file_healthy].
Qed.

(** Dropping an idle page whose bytes are on disk. *)
Lemma evict_inv M bp k v m p d r' :
  inv M None bp → pageTable bp !! k = Some v → meta bp !! v = Some m → pinCount m = 0 →
  frames bp !! v = Some p → idx (files bp) k.1 = Some d → p = Disk.disk_page d k.2 →
  LRU.wf r' → LRU.frames (replacer bp) = LRU.frames r' ++ [v] →
  let bp' := set_table (delete k (pageTable bp)) (set_replacer r' bp) in
  inv M (Some v) bp' ∧ same bp bp' ∧ S (room bp') = room bp.
Proof.
  intros I Hk Hm Hz Hp Hd Heq Hw' Hfr bp'. pose proof (table_inj I) as Hinj.
  pose proof (LRU.wf_frames _ (i_lru _ _ _ I)) as Hnd. fold (LRU.frames (replacer bp)) in Hnd.
  rewrite Hfr in Hnd. apply NoDup_app in Hnd as (_&Hnd&_).
  pose proof I as [H1 H2 H3 H4 H5 H6 H7 H8 H9 H10 H11].
  assert (∀ k', delete k (pageTable bp) !! k' ≠ Some v) as Hgone.
  { intros k' [Hne Hk']%lookup_delete_Some. apply Hne. by eapply Hinj. }
  split_and!.
  - split; simpl; try done.
    + intros f Hf. destruct (H6 f Hf) as [? Hno]. split; [done|].
      intros k' [_ Hk']%lookup_delete_Some. by apply (Hno k').
    + intros k' f [_ Hk']%lookup_delete_Some. by eapply resident_ext, H7.
    + intros f. specialize (H8 f). rewrite Hfr, elem_of_app, list_elem_of_singleton in H8. split.
      * intros Hf. destruct (proj1 H8 (or_introl Hf)) as (k'&m'&Hk'&Hm'&Hz').
        exists k', m'. split_and!; [|done..]. apply lookup_delete_Some. split; [|done].
        intros <-. rewrite Hk in Hk'. simplify_eq. apply (Hnd f Hf). by left.
      * intros (k'&m'&[Hne Hk']%lookup_delete_Some&Hm'&Hz').
        destruct H8 as [_ H8]. destruct H8 as [|Hf]; [by eauto|done|].
        subst. exfalso. apply Hne. by eapply Hinj.
    + intros f Hf. destruct (H9 f Hf) as (k'&m'&Hk'&Hm'&Hp').
      exists k', m'. split_and!; [|done..]. apply lookup_delete_Some. split; [|done].
      intros <-. rewrite Hk in Hk'. simplify_eq. lia.
    + intros f [= <-]. split_and!; [by eapply lookup_lt_Some| |done].
      intros Hf. by apply (proj2 (H6 v Hf) k).
    + intros f Hf. destruct (H11 f Hf) as [?|[?|[k' Hk']]]; [by left|done|].
      destruct (decide (k' = k)) as [->|Hne]; [right; left; congruence|].
      right; right. exists k'. by apply lookup_delete_Some.
  - assert (0 ≤ k.2 < Disk.numPages d) as Hr by (destruct (H7 _ _ Hk); congruence).
    split; simpl; try done.
    + intros k'. unfold view. simpl. destruct (decide (k = k')) as [<-|].
      * rewrite lookup_delete_eq, Hk, Hp. unfold disk_view. rewrite Hd, decide_True; congruence.
      * by rewrite lookup_delete_ne.
    + intros k'. unfold pins. simpl. destruct (decide (k = k')) as [<-|].
      * by rewrite lookup_delete_eq, Hk, Hm.
      * by rewrite lookup_delete_ne.
    + intros k' Hpos. rewrite lookup_delete_ne; [done|]. intros ->.
      rewrite (pins_resident _ _ _ Hk Hm) in Hpos. lia.
  - unfold room. simpl. rewrite Hfr, length_app. simpl. lia.
Qed.

(** ** Acquiring a frame *)

Lemma free_inv M bp f :
  inv M None bp → last (freeList bp) = Some f →
  let bp' := set_free (take (length (freeList bp) - 1) (freeList bp)) bp in
  inv M (Some f) bp' ∧ same bp bp' ∧ S (room bp') = room bp.
Proof.
  intros I [l Hl]%last_Some bp'. assert (freeList bp' = l) as Hl'.
  { simpl. rewrite Hl, length_app. simpl. by rewrite Nat.add_sub, take_app_length. }
  pose proof I as [H1 H2 H3 H4 H5 H6 H7 H8 H9 H10 H11].
  pose proof H5 as Hnd. rewrite Hl in Hnd. apply NoDup_app in Hnd as (Hn&Hd&_).
  assert (∀ g, g ∈ freeList bp ↔ g ∈ l ∨ g = f) as Hin.
  { intros g. by rewrite Hl, elem_of_app, list_elem_of_singleton. }
  split_and!; [|done|unfold room; rewrite Hl'; simpl; rewrite Hl, length_app; simpl; lia].
  split; rewrite ?Hl'; try done.
  - intros g Hg. apply H6. apply Hin. by left.
  - intros k g Hk. by eapply resident_ext, H7.
  - intros g Hg. injection Hg as <-. destruct (H6 f) as [? ?]; [apply Hin; by right|].
    split_and!; try done. intros Hf. apply (Hd f Hf). by left.
  - intros g Hg. destruct (H11 g Hg) as [[?|Heq]%Hin|[?|?]]; subst; auto. done.
Qed.

Lemma victim_cases r :
  LRU.wf r →
  match LRU.Victim r with
  | (r', None) => r' = r ∧ LRU.frames r = []
  | (r', Some v) => LRU.wf r' ∧ LRU.frames r = LRU.frames r' ++ [v]
  end.
Proof.
  intros Hw. pose proof (LRU.Victim_frames r Hw) as Hf. pose proof (LRU.Victim_wf r Hw) as Hw'.
  unfold LRU.spec_victim in Hf. destruct (last (LRU.frames r)) as [v|] eqn:E.
  - destruct (LRU.Victim r) as [r' o]. simpl in *. injection Hf as Hf ->. split; [done|].
    apply last_Some in E as [l Hl]. rewrite Hf, Hl, length_app. simpl.
    by rewrite Nat.add_sub, take_app_length.
  - assert (order_nil : LRU.order r = []).
    { apply last_None in E. unfold LRU.frames in E. by apply fmap_nil_inv in E. }
    unfold LRU.Victim. rewrite order_nil. simpl. split; [done|].
    unfold LRU.frames. by rewrite order_nil.
Qed.

(** Undoing [Victim]'s removal: the frame is a candidate again, at the front. *)
Lemma unvictim_frames r r' v :
  LRU.wf r → LRU.wf r' → LRU.frames r = LRU.frames r' ++ [v] →
  LRU.frames (LRU.Unpin v r') = v :: LRU.frames r'.
Proof.
  intros Hw Hw' Hf. rewrite LRU.Unpin_frames by done. unfold LRU.spec_unpin.
  rewrite decide_False; [done|]. intros Hin.
  pose proof (LRU.wf_frames _ Hw) as Hn. fold (LRU.frames r) in Hn. rewrite Hf in Hn.
  apply NoDup_app in Hn as (_&Hd&_). apply (Hd v Hin). by left.
Qed.

(** Reordering the candidates keeps the invariant. *)
Lemma inv_reorder M hole bp r' :
  inv M hole bp → LRU.wf r' → LRU.frames r' ≡ₚ LRU.frames (replacer bp) →
  inv M hole (set_replacer r' bp) ∧ same bp (set_replacer r' bp) ∧
  room (set_replacer r' bp) = room bp.
Proof.
  intros [H1 H2 H3 H4 H5 H6 H7 H8 H9 H10 H11] Hw Hp. split_and!; [split; simpl; try done|done|].
  - intros k f Hk. by eapply resident_ext, H7.
  - intros f. by rewrite Hp.
  - unfold room. simpl. by rewrite Hp.
Qed.

Lemma acquire_spec M bp bp' r :
  inv M None bp → acquireFrame bp = (bp', r) →
  same bp bp' ∧
  match r with
  | Ret f => inv M (Some f) bp' ∧ S (room bp') = room bp
  | Fail e => inv M None bp' ∧ room bp' = room bp ∧ (room bp = 0%nat → bp' = bp ∧ e = ErrNoFreeFrame)
  | Panic => False
  end ∧
  (healthy bp → healthy bp' ∧ ((0 < room bp)%nat → is_ret r = true)).
Proof.
  intros I H. unfold acquireFrame in H. destruct (last (freeList bp)) as [f|] eqn:E.
  { injection H as <- <-. destruct (free_inv M bp f I E) as (?&?&?). by split_and!. }
  apply last_None in E. pose proof (victim_cases _ (i_lru _ _ _ I)) as HV.
  destruct (LRU.Victim (replacer bp)) as [r' [v|]].
  2:{ destruct HV as [-> Hnil]. injection H as <- <-.
      assert (set_replacer (replacer bp) bp = bp) as -> by (by destruct bp).
      assert (room bp = 0%nat) as Hz by (unfold room; by rewrite E, Hnil).
      split_and!; try done. intros Hh. split; [done|lia]. }
  destruct HV as [Hw' Hfr].
  destruct (proj1 (i_idle _ _ _ I v)) as (k&m&Hk&Hm&Hz); [rewrite Hfr; set_solver|].
  destruct (i_table _ _ _ I _ _ Hk) as [m' p d Hm' Hp Hkey _ Hd Hr Hc].
  assert (m' = m) as -> by congruence. simpl in H. rewrite Hm, Hp, Hkey in H.
  destruct (dirty m) eqn:Hdirty.
  - assert (on_file k.1 (Disk.WritePage k.2 p) (set_replacer r' bp) =
            let '(b, r) := on_file k.1 (Disk.WritePage k.2 p) bp in (set_replacer r' b, r)) as Hcomm.
    { unfold on_file. simpl. destruct (idx _ _) as [d0|]; [|done]. by destruct (Disk.WritePage k.2 p d0). }
    rewrite Hcomm in H. clear Hcomm.
    destruct (on_file k.1 _ bp) as [b rw] eqn:Ew.
    destruct (write_back _ _ _ _ _ _ _ _ _ I Hk Hm Hdirty Hp Ew)
      as (fs'&->&I1&S1&Hnp&Hret&Hheal).
    destruct rw as [u|e|]; [|injection H as <- <-|done].
    + injection H as <- <-. destruct (Hret eq_refl) as (d'&Hd'&Hpg).
      destruct (evict_inv M (set_files fs' bp) k v m p d' r') as (I2&S2&R2); try done.
      split_and!; [by etrans|done..|]. intros Hh. split; [|done]. by apply Hheal.
    + destruct (inv_reorder M None (set_files fs' bp) (LRU.Unpin v r')) as (I2&S2&R2);
        [done|by apply LRU.Unpin_wf| |].
      { simpl. rewrite (unvictim_frames (replacer bp)) by (done || apply I). rewrite Hfr.
        by rewrite Permutation_app_comm. }
      assert (room bp ≠ 0)%nat by (unfold room; rewrite Hfr, length_app; simpl; lia).
      split_and!; [by etrans|done|done|done|]. intros Hh. by destruct (Hheal Hh).
  - injection H as <- <-.
    assert (v ∉ M) as HvM.
    { intros Hv. destruct (i_mod _ _ _ I v Hv) as (k2&m2&_&Hm2&?). simplify_eq. lia. }
    destruct (evict_inv M bp k v m p d r' I Hk Hm Hz Hp Hd (Hc eq_refl HvM) Hw' Hfr) as (I2&S2&R2).
    by split_and!.
Qed.

(** Acquiring a frame never brings a page in. *)
Lemma acquire_table bp bp' r k g :
  acquireFrame bp = (bp', r) → pageTable bp !! k = None → pageTable bp' !! k = Some g → False.
Proof.
  unfold acquireFrame, on_file. intros H Hk Hg.
  repeat case_match; simplify_eq/=; try congruence;
    apply lookup_delete_Some in Hg as [_ ?]; congruence.
Qed.

(** ** Installing a page *)

(** Like [same], except that [k] has [n] more pins. *)
Record moved (k : pageKey) (n : Z) (bp bp' : BufferPool) : Prop := Moved {
  v_view : ∀ k', view bp' k' = view bp k';
  v_pins : ∀ k', pins bp' k' = pins bp k' + (if decide (k' = k) then n else 0);
  v_loc : ∀ k', 0 < pins bp k' → 0 < pins bp' k' → pageTable bp' !! k' = pageTable bp !! k';
  v_count : ∀ i, numPages i bp' = numPages i bp }.

Lemma same_moved k n b1 b2 b3 :
  same b1 b2 → moved k n b2 b3 → moved k n b1 b3.
Proof.
  intros [V1 P1 L1 C1] [V2 P2 L2 C2]. split; intros.
  - by rewrite V2.
  - by rewrite P2, P1.
  - rewrite L2 by (rewrite ?P1; done). by apply L1.
  - by rewrite C2.
Qed.

(** Writing the bytes of a frame that belongs to no page. *)
Lemma hole_write M bp f p' :
  inv M (Some f) bp → wf_page p' →
  inv M (Some f) (set_frames (<[f := p']> (frames bp)) bp) ∧
  same bp (set_frames (<[f := p']> (frames bp)) bp).
Proof.
  intros [H1 H2 H3 H4 H5 H6 H7 H8 H9 H10 H11] Hp. destruct (H10 f eq_refl) as (Hlt&Hnf&Hnt).
  split.
  - split; simpl; rewrite ?length_insert; try done.
    + intros g p. rewrite list_lookup_insert. case_decide; [by intros [= <-]|apply H2].
    + intros k g Hk. eapply resident_ext, H7; try done. simpl.
      apply list_lookup_insert_ne. intros <-. by apply (Hnt k).
  - split; try done. intros k. unfold view. simpl. destruct (pageTable bp !! k) as [g|] eqn:E; [|done].
    apply list_lookup_insert_ne. intros <-. by apply (Hnt k).
Qed.

(** Giving the frame back. *)
Lemma release_inv M bp f :
  inv M (Some f) bp → inv M None (release f bp) ∧ same bp (release f bp) ∧
  room (release f bp) = S (room bp).
Proof.
  intros [H1 H2 H3 H4 H5 H6 H7 H8 H9 H10 H11]. destruct (H10 f eq_refl) as (Hlt&Hnf&Hnt).
  split_and!; [|done|unfold room; simpl; rewrite length_app; simpl; lia].
  split; simpl; try done.
  - apply NoDup_app. split_and!; [done| |apply NoDup_singleton].
    intros g Hg ->%list_elem_of_singleton. done.
  - intros g [Hg| ->%list_elem_of_singleton]%elem_of_app; [by apply H6|done].
  - intros k g Hk. by eapply resident_ext, H7.
  - intros g Hg. destruct (H11 g Hg) as [?|[[= ->]|?]];
      [by left; apply elem_of_app; left|left; apply elem_of_app; right; by left|by right; right].
Qed.

(** [bindFrame] on a frame that holds the page's bytes. *)
Lemma bind_inv M bp f k d :
  inv M (Some f) bp → pageTable bp !! k = None →
  idx (files bp) k.1 = Some d → 0 ≤ k.2 < Disk.numPages d →
  frames bp !! f = Some (Disk.disk_page d k.2) →
  inv M None (bindFrame f k bp) ∧ moved k 1 bp (bindFrame f k bp) ∧
  pageTable (bindFrame f k bp) !! k = Some f ∧ room (bindFrame f k bp) = room bp.
Proof.
  intros I Hk Hd Hr Hp. pose proof I as [H1 H2 H3 H4 H5 H6 H7 H8 H9 H10 H11].
  destruct (H10 f eq_refl) as (Hlt&Hnf&Hnt).
  assert (∀ k' g, <[k := f]> (pageTable bp) !! k' = Some g →
            (k' = k ∧ g = f) ∨ (k' ≠ k ∧ g ≠ f ∧ pageTable bp !! k' = Some g)) as Htab.
  { intros k' g [[-> ->]|[? Hk']]%lookup_insert_Some; [by left|right].
    split_and!; [done| |done]. intros ->. by apply (Hnt k'). }
  assert (<[f := FrameMeta k 1 false]> (meta bp) !! f = Some (FrameMeta k 1 false)) as Hmf
    by (apply list_lookup_insert_eq; lia).
  split_and!; [| |by simpl; rewrite lookup_insert_eq|done].
  - split; simpl; rewrite ?length_insert; try done.
    + intros g Hg. destruct (H6 g Hg) as [? Hno]. split; [done|].
      intros k' [[-> ->]|(?&?&?)]%Htab; [done|by apply (Hno k')].
    + intros k' g [[-> ->]|(?&?&Hk')]%Htab; [by exists (FrameMeta k 1 false) (Disk.disk_page d k.2) d|].
      eapply resident_ext, H7; try done. simpl. by apply list_lookup_insert_ne.
    + intros g. rewrite H8. split.
      * intros (k'&m&Hk'&Hm&Hz). exists k', m. assert (g ≠ f) by (intros ->; by apply (Hnt k')).
        assert (k ≠ k') by congruence.
        rewrite lookup_insert_ne, list_lookup_insert_ne by done. done.
      * intros (k'&m&[[-> ->]|(?&?&Hk')]%Htab&Hm&Hz); [rewrite Hmf in Hm; by simplify_eq/=|].
        rewrite list_lookup_insert_ne in Hm by done. eauto.
    + intros g Hg. destruct (H9 g Hg) as (k'&m&Hk'&Hm&Hz). exists k', m.
      assert (g ≠ f) by (intros ->; by apply (Hnt k')). assert (k ≠ k') by congruence.
      rewrite lookup_insert_ne, list_lookup_insert_ne by done. done.
    + intros g Hg. destruct (H11 g Hg) as [?|[[= ->]|[k' ?]]]; [by left|right; right..].
      * exists k. apply lookup_insert_eq.
      * exists k'. rewrite lookup_insert_ne by congruence. done.
  - split; try done.
    + intros k'. unfold view. simpl. destruct (decide (k = k')) as [<-|].
      * rewrite lookup_insert_eq, Hk, Hp. unfold disk_view. by rewrite Hd, decide_True.
      * by rewrite lookup_insert_ne.
    + intros k'. unfold pins. simpl. case_decide; [subst k'|].
      * by rewrite lookup_insert_eq, Hmf, Hk.
      * rewrite lookup_insert_ne by done. destruct (pageTable bp !! k') as [g|] eqn:E; [|done].
        rewrite list_lookup_insert_ne by (intros <-; by apply (Hnt k')). destruct (meta bp !! g); lia.
    + intros k' Hpos _. simpl. rewrite lookup_insert_ne; [done|]. intros <-.
      unfold pins in Hpos. rewrite Hk in Hpos. lia.
Qed.

(** ** fetch *)

Definition valid (bp : BufferPool) (k : pageKey) : Prop := is_Some (view bp k).

Lemma hit_inv M bp k f m :
  inv M None bp → pageTable bp !! k = Some f → meta bp !! f = Some m →
  let bp' := set_replacer (LRU.Pin f (replacer bp))
    (set_meta (<[f := FrameMeta (key m) (pinCount m + 1) (dirty m)]> (meta bp)) bp) in
  inv M None bp' ∧ moved k 1 bp bp' ∧
  (room bp' + (if decide (pins bp k = 0%Z) then 1 else 0) = room bp)%nat.
Proof.
  intros I Hk Hm bp'. pose proof (i_lru _ _ _ I) as Hw. pose proof (LRU.Pin_frames f _ Hw) as HF.
  assert (0 ≤ pinCount m) as Hnn.
  { destruct (i_table _ _ _ I _ _ Hk) as [m' ?? Hm' ?? ? ???]. congruence. }
  assert (∀ g, g ∈ LRU.frames (LRU.Pin f (replacer bp)) ↔ g ≠ f ∧ g ∈ LRU.frames (replacer bp)) as HP
    by (intros g; rewrite HF; unfold LRU.spec_pin; by rewrite list_elem_of_filter).
  split_and!.
  - apply (retag_inv I Hk Hm); simpl; try done; [lia|lia| |by apply LRU.Pin_wf| |].
    + intros p d Hp Hd. destruct (i_table _ _ _ I _ _ Hk) as [m2 p2 d2 Hm2 ?????]. by simplify_eq.
    + intros g Hne. rewrite HP. naive_solver.
    + rewrite HP. split; [by intros []|lia].
  - split; try done. intros k'. unfold bp'. rewrite (retag_pins I Hk Hm). simpl. f_equal. case_decide; lia.
  - rewrite (pins_resident _ _ _ Hk Hm). unfold room. simpl. rewrite HF.
    pose proof (LRU.wf_frames _ Hw) as Hnd. fold (LRU.frames (replacer bp)) in Hnd.
    case_decide as Hz.
    + assert (f ∈ LRU.frames (replacer bp)) as Hin by (apply (i_idle _ _ _ I); eauto).
      pose proof (LRU.spec_pin_length f _ Hnd Hin). lia.
    + rewrite LRU.spec_pin_absent; [lia|].
      intros (k'&m'&?&?&?)%(i_idle _ _ _ I). simplify_eq.
Qed.

Lemma load_frame_spec M bp file pid f bp' r :
  inv M (Some f) bp → 0 ≤ pid → pageTable bp !! (file, pid) = None → is_Some (idx (files bp) file) →
  load_frame file pid f bp = (bp', r) →
  match r with
  | Ret g => g = f ∧ inv M None bp' ∧ moved (file, pid) 1 bp bp' ∧
             pageTable bp' !! (file, pid) = Some f ∧ room bp' = room bp ∧ valid bp (file, pid)
  | Fail e => inv M None bp' ∧ same bp bp' ∧ room bp' = S (room bp)
  | Panic => False
  end ∧ (healthy bp → healthy bp' ∧ (valid bp (file, pid) → is_ret r = true)).
Proof.
  intros I Hpid Hk [d Hd] H. unfold load_frame in H. rewrite Hd in H.
  destruct (i_hole _ _ _ I f eq_refl) as (Hlt&_&_).
  destruct (frames bp !! f) as [dst|] eqn:Hf; [|apply lookup_ge_None in Hf; lia].
  pose proof (i_frames _ _ _ I _ _ Hf) as Hdst.
  destruct (Disk.ReadPage pid dst d) as [d' [dst' rr]] eqn:E.
  pose proof E as HR. apply Disk.ReadPage_spec in HR as (Hn&Hc&_&Hl&Hres); [|done].
  pose proof (i_files _ _ _ I _ _ Hd) as Hwf.
  assert (∀ q, Disk.disk_page d' q = Disk.disk_page d q) as Hpg
    by (intros q; unfold Disk.disk_page; by rewrite Hc).
  destruct (hole_write M bp f dst' I) as [I1 S1]; [unfold wf_page in *; lia|].
  set (bp1 := set_frames (<[f := dst']> (frames bp)) bp) in *.
  assert (idx (files bp1) file = Some d) as Hd1 by done.
  destruct (one_file_quiet (d' := d') Hd1 M (Some f) I1) as [I2 S2];
    [unfold Disk.wf in *; by rewrite Hn, Hc|done|auto|].
  set (fs' := <[Z.to_nat file := d']> (files bp1)) in *.
  assert (healthy bp → healthy (set_files fs' bp1)) as HH.
  { intros Hh. apply (one_file_healthy Hd1 Hh).
    by destruct (Disk.ReadPage_spec_healthy _ _ _ _ _ _ (Hh _ _ Hd) E). }
  assert (healthy bp → valid bp (file, pid) → is_ret rr = true) as HV.
  { intros Hh [p Hp]. unfold view in Hp. rewrite Hk in Hp. unfold disk_view in Hp. simpl in Hp.
    rewrite Hd in Hp. case_decide; [|done].
    rewrite (Disk.ReadPage_healthy d pid dst) in E by (done || by eapply Hh). by simplify_eq. }
  destruct rr as [u|e|]; [|injection H as <- <-|done].
  - injection H as <- <-. destruct Hres as [Hlt' ->].
    destruct (bind_inv M (set_files fs' bp1) f (file, pid) d' I2) as (I3&V3&T3&R3);
      [done|simpl; unfold fs'; by rewrite (one_file_idx Hd1), decide_True|simpl; lia| |].
    { simpl. rewrite Hpg. by apply list_lookup_insert_eq. }
    split; [|intros Hh; split; [apply HH|]; done]. split_and!; try done.
    + eapply same_moved; [|done]. by etrans.
    + unfold valid, view. rewrite Hk. unfold disk_view. simpl. rewrite Hd.
      by rewrite decide_True by lia.
  - destruct (release_inv M (set_files fs' bp1) f I2) as (I3&S3&R3).
    split; [|intros Hh; split; [apply HH|by apply HV]; done]. split_and!; try done.
    etrans; [|done]. by etrans.
Qed.

Lemma fetch_spec M bp file pid bp' r :
  inv M None bp → 0 ≤ pid → is_Some (idx (files bp) file) →
  fetch file pid bp = (bp', r) →
  let k := (file, pid) in
  inv M None bp' ∧
  match r with
  | Ret f => moved k 1 bp bp' ∧ pageTable bp' !! k = Some f ∧ view bp k = Some (load f bp') ∧
             (room bp' + (if decide (pins bp k = 0%Z) then 1 else 0) = room bp)%nat
  | Fail e => same bp bp' ∧ room bp' = room bp
  | Panic => False
  end ∧
  (healthy bp → healthy bp' ∧ (valid bp k → (0 < room bp)%nat ∨ 0 < pins bp k → is_ret r = true)).
Proof.
  intros I Hpid Hfile H k. unfold fetch in H. fold k in H.
  assert (∀ f b, inv M None b → moved k 1 bp b → pageTable b !! k = Some f →
            view bp k = Some (load f b)) as Hload.
  { intros f b Ib V T. rewrite <-(v_view _ _ _ _ V k). unfold view, load. rewrite T.
    destruct (i_table _ _ _ Ib _ _ T) as [? p ? _ Hp _ _ _ _ _]. by rewrite Hp. }
  destruct (pageTable bp !! k) as [f|] eqn:Hk.
  - destruct (i_table _ _ _ I _ _ Hk) as [m p d Hm _ _ _ _ _ _]. rewrite Hm in H.
    injection H as <- <-. destruct (hit_inv M bp k f m I Hk Hm) as (I1&V1&R1).
    split_and!; try done. by apply Hload.
  - unfold st_bind in H. destruct (acquireFrame bp) as [b ra] eqn:Ea.
    destruct (acquire_spec _ _ _ _ I Ea) as (S1&Hra&Hh1).
    assert (pins bp k = 0) as Hz by (unfold pins; by rewrite Hk).
    assert (valid bp k → (0 < room bp)%nat ∨ 0 < pins bp k → (0 < room bp)%nat) as Hroom by (rewrite Hz; lia).
    destruct ra as [f|e|]; [|injection H as <- <-|done].
    + destruct Hra as [I1 R1].
      assert (pageTable b !! k = None) as Hkb.
      { destruct (pageTable b !! k) as [g|] eqn:Eg; [exfalso|done].
        eapply acquire_table; [exact Ea|exact Hk|exact Eg]. }
      assert (is_Some (idx (files b) file)) as Hfb.
      { pose proof (s_count _ _ S1 file) as Hc. unfold numPages in Hc. destruct Hfile as [d Hd].
        rewrite Hd in Hc. destruct (idx (files b) file); [eauto|done]. }
      destruct (load_frame_spec _ _ _ _ _ _ _ I1 Hpid Hkb Hfb H) as (Hr&Hh2).
      assert (valid bp k ↔ valid b k) as Hv by (unfold valid; by rewrite (s_view _ _ S1)).
      destruct r as [g|e|]; [destruct Hr as (->&I2&V2&T2&R2&Hval)|destruct Hr as (I2&S2&R2)|done].
      * assert (moved k 1 bp bp') as V by (by eapply same_moved).
        split_and!; try done; [by apply Hload|rewrite decide_True by done; lia|].
        intros Hh. split; [|done]. apply Hh2. by apply Hh1.
      * split_and!; try done; [by etrans|lia|].
        intros Hh. destruct (Hh2 (proj1 (Hh1 Hh))) as [? Hret].
        split; [done|]. intros Hval. by apply Hv, Hret in Hval.
    + destruct Hra as (I1&R1&_). split_and!; try done. intros Hh. destruct (Hh1 Hh) as [? Hret].
      split; [done|]. intros. by apply Hret, Hroom.
Qed.

(** ** unpin *)

Lemma unpin_spec M bp file pid dty bp' r :
  inv M None bp → unpin file pid dty bp = (bp', r) →
  let k := (file, pid) in
  match pageTable bp !! k with
  | Some f =>
      (pins bp k = 0 → bp' = bp ∧ r = Fail (Errorf "buffer: unpin page that is not pinned")) ∧
      (0 < pins bp k → dty = true ∨ f ∉ M ∨ 1 < pins bp k →
        r = Ret tt ∧ inv (if dty then M ∖ {[f]} else M) None bp' ∧ moved k (-1) bp bp' ∧
        room bp' = (room bp + (if decide (pins bp k = 1%Z) then 1 else 0))%nat ∧
        files bp' = files bp)
  | None => bp' = bp ∧ r = Fail (Errorf "buffer: unpin page that is not resident")
  end.
Proof.
  intros I H k. unfold unpin in H. fold k in H.
  destruct (pageTable bp !! k) as [f|] eqn:Hk; [|by simplify_eq].
  destruct (i_table _ _ _ I _ _ Hk) as [m p d Hm Hp Hkey Hnn Hd Hr Hc]. rewrite Hm in H.
  rewrite (pins_resident _ _ _ Hk Hm).
  destruct (Z.eqb_spec (pinCount m) 0) as [Hz|Hz]; [by simplify_eq; split; [|lia]|].
  split; [lia|]. intros Hpos Hcond. simpl in H.
  set (m' := FrameMeta (key m) (pinCount m - 1) (dirty m || dty)) in *.
  set (bp1 := set_meta (<[f := m']> (meta bp)) bp) in *.
  set (r' := if decide (pinCount m = 1) then LRU.Unpin f (replacer bp) else replacer bp).
  assert (bp' = set_replacer r' bp1 ∧ r = Ret tt) as [-> ->].
  { unfold r'. destruct (Z.eqb_spec (pinCount m - 1) 0); case_decide; try lia; simplify_eq; done. }
  assert (LRU.wf r' ∧ LRU.frames r' = if decide (pinCount m = 1) then f :: LRU.frames (replacer bp)
                                     else LRU.frames (replacer bp)) as [Hw' HF].
  { unfold r'. pose proof (i_lru _ _ _ I) as Hw. case_decide; [|done]. split; [by apply LRU.Unpin_wf|].
    rewrite LRU.Unpin_frames by done. unfold LRU.spec_unpin. rewrite decide_False; [done|].
    intros (k'&m2&?&?&?)%(i_idle _ _ _ I). simplify_eq. }
  assert (f ∉ LRU.frames (replacer bp)) as Hno
    by (intros (k'&m2&?&?&?)%(i_idle _ _ _ I); simplify_eq).
  split_and!; try done.
  - apply (retag_inv I Hk Hm); simpl; try done; [lia|destruct dty; set_solver..| | | |].
    + destruct Hcond as [->|[?|?]]; [set_solver|by destruct dty; set_solver|lia].
    + intros p2 d2 Hp2 Hd2 [Hd1 ->]%orb_false_elim HfM. simplify_eq/=. by apply Hc.
    + intros g Hne. rewrite HF. case_decide; [|done]. rewrite elem_of_cons. naive_solver.
    + rewrite HF. case_decide; [split; [lia|by left]|]. split; [done|lia].
  - split; try done. intros k'. unfold bp1, m'. rewrite (retag_pins I Hk Hm). simpl. f_equal.
    destruct (decide (k' = k)); lia.
  - unfold room. simpl. rewrite HF. case_decide; simpl; lia.
Qed.

(** ** newPage *)

(** Like [moved], for the page [k] that did not exist before. *)
Record created (k : pageKey) (p : page) (bp bp' : BufferPool) : Prop := Created {
  c_fresh : view bp k = None;
  c_view : ∀ k', view bp' k' = if decide (k' = k) then Some p else view bp k';
  c_pins : ∀ k', pins bp' k' = pins bp k' + (if decide (k' = k) then 1 else 0);
  c_loc : ∀ k', 0 < pins bp k' → pageTable bp' !! k' = pageTable bp !! k';
  c_count : ∀ i, numPages i bp' = if decide (i = k.1) then Ret (k.2 + 1) else numPages i bp }.

(** Growing file [file] by one page, seen from the pool. *)
Lemma grow_inv M hole bp file d d' pid :
  inv M hole bp → idx (files bp) file = Some d → Disk.AllocatePage d = (d', Ret pid) →
  let bp1 := set_files (<[Z.to_nat file := d']> (files bp)) bp in
  pid = Disk.numPages d ∧ Disk.numPages d' = pid + 1 ∧ Disk.disk_page d' pid = zeroes PageSize ∧
  inv M hole bp1 ∧ pageTable bp !! (file, pid) = None ∧ view bp (file, pid) = None ∧
  idx (files bp1) file = Some d' ∧
  (∀ k', view bp1 k' = if decide (k' = (file, pid)) then Some (zeroes PageSize) else view bp k') ∧
  (∀ i, numPages i bp1 = if decide (i = file) then Ret (pid + 1) else numPages i bp).
Proof.
  intros I Hd E bp1. pose proof (i_files _ _ _ I _ _ Hd) as Hwf.
  apply Disk.AllocatePage_spec in E as (Hwf'&_&Hold&->&Hn&Hz); [|done].
  revert Hz. generalize (zeroes PageSize) as z. intros z Hz.
  set (pid := Disk.numPages d) in *. assert (0 ≤ pid) as Hpid by apply Hwf.
  pose proof (one_file_idx (d' := d') Hd) as Hidx.
  assert (pageTable bp !! (file, pid) = None) as Hk.
  { destruct (pageTable bp !! (file, pid)) eqn:E; [exfalso|done].
    destruct (i_table _ _ _ I _ _ E) as [??? _ _ _ _ Hd2 Hr2 _]. simpl in *.
    assert (d0 = d) as -> by congruence. unfold pid in Hr2. lia. }
  assert (files_step (λ _, False) (files bp) (files bp1)) as FS
    by (eapply one_file_step; [done..|lia|auto]).
  assert (view bp (file, pid) = None) as Hv.
  { unfold view. rewrite Hk. unfold disk_view. simpl. rewrite Hd. apply decide_False. unfold pid. lia. }
  split_and!; try done.
  - eapply inv_set_files; by try apply FS.
  - by rewrite Hidx, decide_True.
  - intros k'. case_decide as E; [subst k'|]; unfold view; cbn [pageTable set_files bp1].
    + rewrite Hk. unfold disk_view. simpl fst. rewrite Hidx, decide_True by done.
      simpl snd. rewrite Hz. apply decide_True. lia.
    + destruct (pageTable bp !! k'); [done|]. unfold disk_view. rewrite Hidx.
      destruct (decide (k'.1 = file)) as [E1|]; [|done]. rewrite E1, Hd.
      assert (k'.2 ≠ pid) by (intros E2; apply E; destruct k'; simpl in *; congruence).
      destruct (decide (0 ≤ k'.2 < Disk.numPages d)).
      * rewrite decide_True by lia. by apply (f_equal Some), Hold.
      * rewrite decide_False; [done|]. unfold pid in *. lia.
  - intros i. unfold numPages. rewrite Hidx. case_decide; [|done]. unfold Disk.NumPages. by rewrite Hn.
Qed.

(** A failed extension, seen from the pool: no page changed. *)
Lemma grow_failed M hole bp file d d' e :
  inv M hole bp → idx (files bp) file = Some d → Disk.AllocatePage d = (d', Fail e) →
  let bp1 := set_files (<[Z.to_nat file := d']> (files bp)) bp in
  inv M hole bp1 ∧ same bp bp1 ∧ (healthy bp → Disk.MaxUint32 ≤ Disk.numPages d).
Proof.
  intros I Hd E bp1. pose proof E as (Hwf'&_&Hold&Hn)%Disk.AllocatePage_spec; [|by eapply i_files].
  destruct (one_file_quiet (d' := d') Hd M hole I) as [I1 S1]; [done..|].
  split_and!; [done..|]. intros Hh. destruct (decide (Disk.numPages d < Disk.MaxUint32)); [|lia].
  destruct (Disk.AllocatePage_healthy d) as (d2&E2&_); [by eapply Hh|done|]. congruence.
Qed.

(** A page added to a file, its frame filled and bound: it is created. *)
Lemma grown_created file pid z bp b b1 b2 b3 :
  same bp b → view b (file, pid) = None → (∀ k, pins b1 k = pins b k) → pageTable b1 = pageTable b →
  (∀ k, view b1 k = if decide (k = (file, pid)) then Some z else view b k) →
  (∀ i, numPages i b1 = if decide (i = file) then Ret (pid + 1) else numPages i b) →
  same b1 b2 → moved (file, pid) 1 b2 b3 → created (file, pid) z bp b3.
Proof.
  intros S1 Hvn Hp Ht Hv Hc S2 V. split.
  - by rewrite <-(s_view _ _ S1).
  - intros k'. rewrite (v_view _ _ _ _ V), (s_view _ _ S2), Hv. case_decide; [done|]. apply (s_view _ _ S1).
  - intros k'. by rewrite (v_pins _ _ _ _ V), (s_pins _ _ S2), Hp, (s_pins _ _ S1).
  - intros k' Hpos. assert (pins b2 k' = pins bp k') as Hpb by (by rewrite (s_pins _ _ S2), Hp, (s_pins _ _ S1)).
    rewrite (v_loc _ _ _ _ V); [|lia|rewrite (v_pins _ _ _ _ V); case_decide; lia].
    rewrite (s_loc _ _ S2), Ht; [by apply (s_loc _ _ S1)|]. by rewrite Hp, (s_pins _ _ S1).
  - intros i. rewrite (v_count _ _ _ _ V), (s_count _ _ S2), Hc. simpl. case_decide; [done|].
    apply (s_count _ _ S1).
Qed.

Lemma newPage_spec M bp file d bp' r :
  inv M None bp → idx (files bp) file = Some d → newPage file bp = (bp', r) →
  inv M None bp' ∧
  match r with
  | Ret (f, pid) => pid = Disk.numPages d ∧ created (file, pid) (zeroes PageSize) bp bp' ∧
      pageTable bp' !! (file, pid) = Some f ∧ load f bp' = zeroes PageSize ∧ S (room bp') = room bp
  | Fail e => same bp bp' ∧ room bp' = room bp
  | Panic => False
  end ∧
  (healthy bp → healthy bp' ∧
     ((0 < room bp)%nat → Disk.numPages d < Disk.MaxUint32 → is_ret r = true)).
Proof.
  intros I Hd H. unfold newPage, st_bind in H. destruct (acquireFrame bp) as [b ra] eqn:Ea.
  destruct (acquire_spec _ _ _ _ I Ea) as (S1&Hra&Hh1).
  destruct ra as [f|e|]; [|injection H as <- <-; destruct Hra as (?&?&_)|done].
  2:{ split_and!; try done. intros Hh. destruct (Hh1 Hh) as [? Hret]. split; [done|].
      intros Hr. by apply Hret in Hr. }
  destruct Hra as [I1 R1].
  assert (∃ db, idx (files b) file = Some db ∧ Disk.numPages db = Disk.numPages d) as (db&Hdb&Hn).
  { pose proof (s_count _ _ S1 file) as Hc. unfold numPages, Disk.NumPages in Hc. rewrite Hd in Hc.
    destruct (idx (files b) file) as [db|]; [|done]. exists db. split; congruence. }
  unfold on_file in H. rewrite Hdb in H. destruct (Disk.AllocatePage db) as [d' rr] eqn:E.
  assert (healthy bp → healthy (set_files (<[Z.to_nat file := d']> (files b)) b)) as Hh2.
  { intros [Hhb _]%Hh1. apply (one_file_healthy Hdb Hhb).
    by eapply Disk.AllocatePage_spec_healthy; [|exact E]; eapply Hhb. }
  destruct rr as [pid|e|].
  - destruct (grow_inv _ _ _ _ _ _ _ I1 Hdb E) as (Hpid&Hn'&Hz&I2&Hk&Hvn&Hd'&Hv2&Hc2).
    set (b1 := set_files _ b) in *. cbn [frames set_files b1] in H.
    destruct (i_hole _ _ _ I1 f eq_refl) as (Hfl&_&_).
    destruct (frames b !! f) as [bytes|] eqn:Hf; [|apply lookup_ge_None in Hf; lia].
    pose proof (i_frames _ _ _ I1 _ _ Hf) as Hsz. unfold wf_page in Hsz. rewrite Hsz in H.
    assert (wf_page (zeroes PageSize)) as Hzw by (unfold wf_page; by rewrite length_zeroes).
    revert H Hz Hv2 Hzw. generalize (zeroes PageSize) as z. intros z H Hz Hv2 Hzw.
    destruct (hole_write M b1 f z I2 Hzw) as [I3 S3].
    set (b2 := set_frames (<[f := z]> (frames b1)) b1) in *.
    assert (0 ≤ pid) by (rewrite Hpid; by apply (i_files _ _ _ I1 _ _ Hdb)).
    destruct (bind_inv M b2 f (file, pid) d') as (I4&V4&T4&R4); [done..|simpl; lia| |].
    { simpl. rewrite Hz. by apply list_lookup_insert_eq. }
    injection H as <- <-. split_and!; [done|lia| |done| |exact R1|].
    + eapply (grown_created _ _ _ _ b b1 b2); done.
    + unfold load. simpl. by rewrite list_lookup_insert_eq.
    + intros Hh. split; [exact (Hh2 Hh)|done].
  - injection H as <- <-. destruct (grow_failed M (Some f) b file db d' e I1 Hdb E) as (I2&S2&Hfull).
    set (b1 := set_files _ b) in *. destruct (release_inv M b1 f I2) as (I3&S3&R3).
    split_and!; [done|etrans; [done|by etrans]|by rewrite R3|].
    intros Hh. split; [exact (Hh2 Hh)|]. intros _ Hm. destruct (Hh1 Hh) as [Hhb _].
    specialize (Hfull Hhb). lia.
  - apply Disk.AllocatePage_spec in E; [|by eapply i_files]. by destruct E as (_&_&_&?).
Qed.

(** ** The caller's writes *)

Lemma store_spec M bp k f p :
  inv M None bp → pageTable bp !! k = Some f → 0 < pins bp k → wf_page p →
  inv (M ∪ {[f]}) None (store f p bp) ∧
  (∀ k', view (store f p bp) k' = if decide (k' = k) then Some p else view bp k') ∧
  load f (store f p bp) = p.
Proof.
  intros I Hk Hpos Hp. pose proof (table_inj I) as Hinj.
  pose proof I as [H1 H2 H3 H4 H5 H6 H7 H8 H9 H10 H11].
  pose proof (table_lt I _ _ Hk) as Hlt. split_and!.
  - split; simpl; rewrite ?length_insert; try done.
    + intros g q. rewrite list_lookup_insert. case_decide; [by intros [= <-]|apply H2].
    + intros k' g Hk'. destruct (H7 _ _ Hk') as [m q d Hm Hq ? ? ? ? Hc].
      destruct (decide (g = f)) as [->|].
      * exists m p d; simpl; try done; [by apply list_lookup_insert_eq|set_solver].
      * exists m q d; simpl; try done; [by rewrite list_lookup_insert_ne|].
        intros ? Hg. apply Hc; [done|]. intros ?. apply Hg. by apply elem_of_union_l.
    + intros g [Hg| ->%elem_of_singleton]%elem_of_union; [by apply H9|].
      destruct (H7 _ _ Hk) as [m q d Hm ? ? ? ? ? ?]. exists k, m.
      rewrite (pins_resident _ _ _ Hk Hm) in Hpos. done.
  - intros k'. unfold view. simpl. case_decide; [subst|].
    + rewrite Hk. by apply list_lookup_insert_eq.
    + destruct (pageTable bp !! k') as [g|] eqn:E; [|done].
      apply list_lookup_insert_ne. intros <-. by apply H, (Hinj _ _ f).
  - unfold load. simpl. by rewrite list_lookup_insert_eq.
Qed.

(** ** Flushing and durability *)

Definition clean (bp : BufferPool) (f : frameID) : Prop :=
  ∃ m, meta bp !! f = Some m ∧ dirty m = false.

(** Clearing the dirty flag of a page whose bytes are on disk. *)
Lemma clean_inv M bp k f m p d :
  inv M None bp → pageTable bp !! k = Some f → meta bp !! f = Some m → frames bp !! f = Some p →
  idx (files bp) k.1 = Some d → Disk.disk_page d k.2 = p →
  let bp' := set_meta (<[f := FrameMeta (key m) (pinCount m) false]> (meta bp)) bp in
  inv M None bp' ∧ same bp bp' ∧ clean bp' f.
Proof.
  intros I Hk Hm Hp Hd Hpg bp'.
  destruct (i_table _ _ _ I _ _ Hk) as [m2 p2 d2 Hm2 _ _ Hnn _ _ _]. assert (m2 = m) as -> by congruence.
  change bp' with (set_replacer (replacer bp) bp'). split_and!.
  - apply (retag_inv I Hk Hm); simpl; try done; [| |apply I|].
    + intros (k'&m2&_&?&?)%(i_mod _ _ _ I). congruence.
    + intros p3 d3 ???. congruence.
    + rewrite (i_idle _ _ _ I). split; [intros (k'&m2&_&?&?); congruence|]. intros Hz. by exists k, m.
  - split; try done. intros k'. unfold bp'. rewrite (retag_pins I Hk Hm). simpl.
    destruct (decide (k' = k)); lia.
  - exists (FrameMeta (key m) (pinCount m) false). split; [exact (retag_meta Hm)|done].
Qed.

Lemma flushLocked_spec M bp k f bp' r :
  inv M None bp → pageTable bp !! k = Some f → flushLocked f bp = (bp', r) →
  inv M None bp' ∧ same bp bp' ∧ pageTable bp' = pageTable bp ∧ room bp' = room bp ∧
  (∀ g, clean bp g → clean bp' g) ∧ r ≠ Panic ∧ (is_ret r = true → clean bp' f) ∧
  (healthy bp → healthy bp' ∧ is_ret r = true).
Proof.
  intros I Hk H. destruct (i_table _ _ _ I _ _ Hk) as [m p d Hm Hp Hkey _ Hd _ _].
  unfold flushLocked in H. rewrite Hm, Hp, Hkey in H. destruct (dirty m) eqn:Hdirty.
  - destruct (on_file k.1 _ bp) as [b rw] eqn:Ew.
    destruct (write_back _ _ _ _ _ _ _ _ _ I Hk Hm Hdirty Hp Ew)
      as (fs'&->&I1&S1&Hnp&Hret&Hheal).
    destruct rw as [u|e|]; [|injection H as <- <-|done].
    + destruct (Hret eq_refl) as (d'&Hd'&Hpg).
      destruct (clean_inv M (set_files fs' bp) k f m p d') as (I2&S2&C2); try done.
      simpl in H. rewrite Hkey in *. injection H as <- <-.
      split_and!; try done; [by etrans| |].
      * intros g (m2&Hm2&?). destruct (decide (g = f)) as [->|]; [done|].
        exists m2. simpl. by rewrite list_lookup_insert_ne.
      * intros Hh. split; [by apply Hheal|done].
    + split_and!; try done. intros Hh. by destruct (Hheal Hh).
  - injection H as <- <-. split_and!; try done. intros _. by exists m.
Qed.

Lemma FlushAll_spec M order bp bp' r :
  inv M None bp → (∀ f, f ∈ order → ∃ k, pageTable bp !! k = Some f) →
  FlushAll order bp = (bp', r) →
  inv M None bp' ∧ same bp bp' ∧ pageTable bp' = pageTable bp ∧ room bp' = room bp ∧
  (∀ g, clean bp g → clean bp' g) ∧ r ≠ Panic ∧ (is_ret r = true → ∀ f, f ∈ order → clean bp' f) ∧
  (healthy bp → healthy bp' ∧ is_ret r = true).
Proof.
  revert bp. induction order as [|f order IH]; intros bp I Hin H; simpl in H.
  { injection H as <- <-. split_and!; try done. intros _ f Hf. by apply elem_of_nil in Hf. }
  unfold st_bind in H. destruct (flushLocked f bp) as [b rf] eqn:Ef.
  destruct (Hin f) as [k Hk]; [by left|].
  destruct (flushLocked_spec _ _ _ _ _ _ I Hk Ef) as (I1&S1&T1&R1&C1&P1&F1&H1).
  destruct rf as [u|e|]; [|injection H as <- <-|done].
  - destruct (IH b I1) as (I2&S2&T2&R2&C2&P2&F2&H2); [|done|].
    { intros g Hg. rewrite T1. apply Hin. by right. }
    split_and!; try done; [by etrans|congruence|congruence|by auto| |].
    + intros Hr g [->|Hg]%elem_of_cons; [by apply C2, F1|by apply F2].
    + intros Hh. by apply H2, H1.
  - by split_and!.
Qed.

Definition durable_view (fs : list DiskManager) (k : pageKey) : option page :=
  match idx fs k.1 with
  | Some d => if decide (0 ≤ k.2 < Disk.numPages d) then Some (Disk.durable_page d k.2) else None
  | None => None
  end.

(** Once every resident page is clean, the files hold the pool's contents. *)
Lemma flushed_view bp :
  inv ∅ None bp → (∀ k f, pageTable bp !! k = Some f → clean bp f) →
  ∀ k, disk_view (files bp) k = view bp k.
Proof.
  intros I HC k. unfold view. destruct (pageTable bp !! k) as [f|] eqn:Hk; [|done].
  destruct (i_table _ _ _ I _ _ Hk) as [m p d Hm Hp _ _ Hd Hr Hc].
  destruct (HC _ _ Hk) as (m'&Hm'&Hcl). assert (m' = m) as -> by congruence.
  unfold disk_view. rewrite Hd, decide_True, Hp by done. by rewrite Hc by set_solver.
Qed.

End PoolInv.
