(* ===== verification/PoolSpec.v ===== *)
(** * The buffer pool's contract

    The pool as its callers see it: an array of pages per file.  [op] is a call
    on the pool or a caller's write through a page it holds pinned; [run]
    executes it with the operations of [BufferPool]; [effect] says what it does
    to the abstract contents.  The theorems: the three-state invariant of
    [BufferPool]'s documentation in every reachable state, the refinement of
    the abstract array under every history of calls (disk failures included),
    progress on healthy disks, and durability of a checkpoint. *)

From S2P Require Import Prelude Bytes PageLayout Disk LRU BufferPool BufferInv.

Module PoolSpec.
Import Pool PoolInv.

(** ** Sync *)

Definition synced (fs : list DiskManager) (i : Z) : Prop :=
  ∀ d, idx fs i = Some d → durable (Disk.file d) = cached (Disk.file d).

(** fsync of one file changes no cached page. *)
Lemma sync_one M bp i d bp' r :
  inv M None bp → idx (files bp) i = Some d → on_file i Disk.Sync bp = (bp', r) →
  ∃ fs', bp' = set_files fs' bp ∧ length fs' = length (files bp) ∧ inv M None bp' ∧ same bp bp' ∧
    (∀ k, disk_view fs' k = disk_view (files bp) k) ∧ r ≠ Panic ∧
    (is_ret r = true → synced fs' i) ∧ (∀ j, j ≠ i → synced (files bp) j → synced fs' j) ∧
    (healthy bp → healthy bp' ∧ is_ret r = true).
Proof.
  intros I Hd H. unfold on_file in H. rewrite Hd in H.
  destruct (Disk.Sync d) as [d' r'] eqn:E. injection H as <- <-.
  pose proof E as (Hn&Hc&Hr)%Disk.Sync_spec. pose proof (idx_lt _ _ _ Hd) as Hlt.
  set (fs' := <[Z.to_nat i := d']> (files bp)).
  assert (∀ j, idx fs' j = if decide (j = i) then Some d' else idx (files bp) j) as Hidx
    by (intros j; by apply idx_insert).
  assert (Disk.wf d') as Hwf.
  { pose proof (i_files _ _ _ I _ _ Hd) as Hw. unfold Disk.wf in *. by rewrite Hn, Hc. }
  assert (∀ q, Disk.disk_page d' q = Disk.disk_page d q) as Hpg
    by (intros q; unfold Disk.disk_page; by rewrite Hc).
  assert (files_step (λ _, False) (files bp) fs') as FS.
  { split; [apply length_insert|]. intros j d0 Hj. rewrite Hidx.
    case_decide; [subst j; assert (d0 = d) as -> by congruence|].
    - exists d'. split_and!; [done|done|lia|]. intros q _ _. apply Hpg.
    - exists d0. split_and!; try done. by eapply (i_files _ _ _ I). }
  exists fs'. split_and!; try done.
  - apply length_insert.
  - eapply inv_set_files; by try apply FS.
  - eapply same_set_files; [apply FS|done|]. intros j d1 d2 H1. rewrite Hidx.
    case_decide; [subst j|]; congruence.
  - intros k. unfold disk_view. rewrite Hidx. case_decide as Ek; [|done].
    by rewrite Ek, Hd, Hn, Hpg.
  - by destruct r'.
  - intros Hret d0. rewrite Hidx, decide_True by done. intros [= <-].
    destruct r'; [|done..]. by rewrite Hr, Hc.
  - intros j Hne HS d0. rewrite Hidx, decide_False by done. apply HS.
  - intros Hh. destruct (Hh _ _ Hd) as [Ho Hs]. unfold Disk.Sync, FileSync, next_io in E.
    rewrite Ho, Hs in E. simplify_eq/=. split; [|done].
    intros j d0. simpl. rewrite Hidx. case_decide; [by intros [= <-]|apply Hh].
Qed.

Lemma Sync_from_spec M n i bp bp' r :
  inv M None bp → 0 ≤ i → i + Z.of_nat n ≤ len (files bp) → Sync_from i n bp = (bp', r) →
  ∃ fs', bp' = set_files fs' bp ∧ length fs' = length (files bp) ∧ inv M None bp' ∧ same bp bp' ∧
    (∀ k, disk_view fs' k = disk_view (files bp) k) ∧ r ≠ Panic ∧
    (is_ret r = true → (∀ j, j < i → synced (files bp) j) → ∀ j, j < i + Z.of_nat n → synced fs' j) ∧
    (healthy bp → healthy bp' ∧ is_ret r = true).
Proof.
  revert i bp. induction n as [|n IH]; intros i bp I Hi Hn H.
  { injection H as <- <-. exists (files bp). destruct bp. split_and!; try done.
    intros _ HS j ?. apply HS. lia. }
  cbn [Sync_from] in H. unfold st_bind in H. destruct (on_file i Disk.Sync bp) as [b rf] eqn:E.
  assert (∃ d, idx (files bp) i = Some d) as [d Hd].
  { unfold idx. rewrite (proj2 (Z.leb_le _ _)) by lia. apply lookup_lt_is_Some. lia. }
  destruct (sync_one _ _ _ _ _ _ I Hd E) as (fs1&->&L1&I1&S1&V1&P1&D1&O1&H1).
  destruct rf as [u|e|]; [|injection H as <- <-; exists fs1|done].
  - destruct (IH (i + 1) (set_files fs1 bp)) as (fs2&->&L2&I2&S2&V2&P2&D2&H2);
      [done|lia|simpl; lia|done|].
    exists fs2. split_and!; try done.
    + by rewrite L2.
    + by etrans.
    + intros k. by rewrite V2.
    + intros Hr HS j Hj. apply D2; [done| |lia]. intros j' Hj'. simpl.
      destruct (decide (j' = i)) as [->|]; [by apply D1|]. apply O1; [done|]. apply HS. lia.
    + intros Hh. by apply H2, H1.
  - by split_and!.
Qed.

(** [Sync]: no page changes; on success what was cached is durable. *)
Lemma pool_sync_spec M bp bp' r :
  inv M None bp → Sync bp = (bp', r) →
  inv M None bp' ∧ same bp bp' ∧ room bp' = room bp ∧ r ≠ Panic ∧
  (is_ret r = true → ∀ k, durable_view (files bp') k = disk_view (files bp) k) ∧
  (healthy bp → healthy bp' ∧ is_ret r = true).
Proof.
  intros I H. destruct (Sync_from_spec M (length (files bp)) 0 bp bp' r) as
    (fs'&->&L&I'&S&V&P&D&Hh); [done|lia|lia|done|].
  split_and!; [done..| |done]. intros Hr k. rewrite <-V. unfold durable_view, disk_view. simpl.
  destruct (idx fs' k.1) as [d|] eqn:Ed; [|done]. case_decide; [|done].
  unfold Disk.durable_page, Disk.disk_page. f_equal. f_equal.
  pose proof (idx_lt _ _ _ Ed). eapply D; [done|..|done]; [|lia].
  intros j Hj d0 Hj0. apply idx_lt in Hj0. lia.
Qed.

(** ** Creation and registration *)

Lemma NewBufferPool_spec poolSize bp :
  NewBufferPool poolSize = Ret bp →
  inv ∅ None bp ∧ room bp = Z.to_nat poolSize ∧ length (frames bp) = Z.to_nat poolSize ∧
  files bp = [] ∧ pageTable bp = ∅.
Proof.
  unfold NewBufferPool. destruct (Z.leb_spec poolSize 0); [done|]. intros [= <-].
  assert (len NewPage = PageSize) as HP by (unfold NewPage; by rewrite length_zeroes).
  revert HP. generalize NewPage. intros p HP.
  split_and!; try done; simpl; rewrite ?length_replicate; try done.
  - split; simpl; rewrite ?length_replicate; try done.
    + intros f q [-> _]%lookup_replicate. done.
    + intros i d Hd. by apply idx_lt in Hd; simpl in Hd; lia.
    + apply LRU.NewLRUReplacer_wf.
    + apply NoDup_seq.
    + intros f Hf. apply elem_of_seq in Hf. split; [lia|]. intros k. by rewrite lookup_empty.
    + intros f. split; [intros Hf; by apply elem_of_nil in Hf|].
      intros (k&m&Hk&_). by rewrite lookup_empty in Hk.
    + intros f Hf. left. apply elem_of_seq. lia.
  - unfold room. simpl. rewrite length_seq. lia.
Qed.

Lemma Register_spec M bp dm bp' r :
  inv M None bp → Disk.wf dm → len (files bp) < 2 ^ 32 → Register dm bp = (bp', r) →
  let id := len (files bp) in
  r = Ret (Handle id) ∧ inv M None bp' ∧ room bp' = room bp ∧
  (∀ k, pins bp' k = pins bp k) ∧ pageTable bp' = pageTable bp ∧
  (∀ k, view bp' k = if decide (k.1 = id) then
     (if decide (0 ≤ k.2 < Disk.numPages dm) then Some (Disk.disk_page dm k.2) else None)
     else view bp k).
Proof.
  intros I Hwf Hlen H id. unfold Register in H. injection H as <- <-.
  assert (∀ i, idx (files bp ++ [dm]) i = if decide (i = id) then Some dm else idx (files bp) i) as Hidx.
  { intros i. unfold idx, id. case_decide as E; [subst|].
    - rewrite (proj2 (Z.leb_le _ _)) by lia. rewrite Nat2Z.id. by rewrite lookup_app_r, Nat.sub_diag.
    - case_match; [|done]. bools. destruct (decide (i < len (files bp))).
      + by rewrite lookup_app_l by lia.
      + rewrite lookup_app_r by lia. rewrite (proj2 (lookup_ge_None (files bp) _)) by lia.
        apply lookup_ge_None. simpl. lia. }
  assert (∀ k f, pageTable bp !! k = Some f → k.1 ≠ id) as Hne.
  { intros k f Hk Hid. destruct (i_table _ _ _ I _ _ Hk) as [m p d _ _ _ _ Hd _ _].
    apply idx_lt in Hd. unfold id in *. lia. }
  split_and!; [by rewrite u32_small by (unfold id in *; lia)| |done|done|done|].
  - pose proof I as [H1 H2 H3 H4 H5 H6 H7 H8 H9 H10 H11]. split; simpl; try done.
    + intros i d. rewrite Hidx. case_decide; [by intros [= <-]|apply H3].
    + intros k f Hk. destruct (H7 _ _ Hk) as [m p d ???????]. exists m p d; simpl; try done.
      rewrite Hidx, decide_False; [done|]. by eapply Hne.
  - intros k. unfold view. simpl. destruct (pageTable bp !! k) eqn:Hk.
    + by rewrite decide_False by (by eapply Hne).
    + unfold disk_view. rewrite Hidx. by case_decide.
Qed.

(** ** Calls on the pool *)

(** What happens to the pool in one step: a call, which runs under the pool lock; a
    caller's write of [p] through the pointer it holds to page [k]; or the fsync
    of one file, [Sync] being a series of them that runs outside the lock. *)
Inductive op :=
| OFetch (k : pageKey)
| ONew (file : FileID)
| OUnpin (k : pageKey) (d : bool)
| OWrite (k : pageKey) (p : page)
| OFlush (k : pageKey)
| OFlushAll (order : list frameID)
| OFsync (file : FileID)
| ORegister (dm : DiskManager).

(** The id and the bytes a call returns; [(0, [])] for a call that returns nothing. *)
Abbreviation out := (Z * page)%type.

Definition run (o : op) : st BufferPool out := λ bp,
  match o with
  | OFetch k => (do! f := fetch k.1 k.2 in λ bp, (bp, Ret (k.2, load f bp))) bp
  | ONew file => (do! fp := newPage file in λ bp, (bp, Ret (fp.2, load fp.1 bp))) bp
  | OUnpin k d => (do! _ := unpin k.1 k.2 d in st_ret (0, [])) bp
  | OWrite k p =>
      match pageTable bp !! k with
      | Some f => (store f p bp, Ret (0, []))
      | None => (bp, Panic)
      end
  | OFlush k => (do! _ := flushPage k.1 k.2 in st_ret (0, [])) bp
  | OFlushAll order => (do! _ := FlushAll order in st_ret (0, [])) bp
  | OFsync file => (do! _ := on_file file Disk.Sync in st_ret (0, [])) bp
  | ORegister dm => (do! h := Register dm in st_ret (hfile h, [])) bp
  end.

(** The caller's side of the contract.  [M] are the frames modified since their
    last dirty unpin: the last unpin of a modified page must say so. *)
Definition allowed (M : gset frameID) (o : op) (bp : BufferPool) : Prop :=
  match o with
  | OFetch k => 0 ≤ k.2 ∧ is_Some (idx (files bp) k.1)
  | ONew file | OFsync file => is_Some (idx (files bp) file)
  | OUnpin k d => ∀ f, pageTable bp !! k = Some f → 0 < pins bp k → d = true ∨ f ∉ M ∨ 1 < pins bp k
  | OWrite k p => 0 < pins bp k ∧ wf_page p
  | OFlush _ => True
  | OFlushAll order => map_order order bp
  | ORegister dm => Disk.wf dm ∧ len (files bp) < 2 ^ 32
  end.

Definition modified (M : gset frameID) (o : op) (bp : BufferPool) : gset frameID :=
  match o with
  | OUnpin k true => match pageTable bp !! k with
                     | Some f => if decide (0 < pins bp k) then M ∖ {[f]} else M
                     | None => M
                     end
  | OWrite k p => match pageTable bp !! k with Some f => M ∪ {[f]} | None => M end
  | _ => M
  end.

(** What a call does to the contents of the pages, as an array of pages would. *)
Definition effect (o : op) (r : res out) (a : pageKey → option page) (k : pageKey) : option page :=
  match o, r with
  | ONew file, Ret (pid, _) => if decide (k = (file, pid)) then Some (zeroes PageSize) else a k
  | OWrite k' p, Ret _ => if decide (k = k') then Some p else a k
  | ORegister dm, Ret (id, _) =>
      if decide (k.1 = id)
      then if decide (0 ≤ k.2 < Disk.numPages dm) then Some (Disk.disk_page dm k.2) else None
      else a k
  | _, _ => a k
  end.

(** What it does to the pins. *)
Definition pin_effect (o : op) (r : res out) (n : pageKey → Z) (k : pageKey) : Z :=
  match o, r with
  | OFetch k', Ret _ => if decide (k = k') then n k + 1 else n k
  | ONew file, Ret (pid, _) => if decide (k = (file, pid)) then n k + 1 else n k
  | OUnpin k' _, Ret _ => if decide (k = k') then n k - 1 else n k
  | _, _ => n k
  end.

(** What it returns. *)
Definition returns (o : op) (a : pageKey → option page) (r : res out) : Prop :=
  match o, r with
  | _, Panic => False
  | OFetch k, Ret (pid, bytes) => pid = k.2 ∧ a k = Some bytes
  | ONew file, Ret (pid, bytes) => a (file, pid) = None ∧ bytes = zeroes PageSize
  | _, _ => True
  end.

(** ** Each call implements its specification *)

(** The shape every call's specification has. *)
Definition step_ok (M : gset frameID) (o : op) (bp bp' : BufferPool) (r : res out) : Prop :=
  inv (modified M o bp) None bp' ∧ returns o (view bp) r ∧
  (∀ k, view bp' k = effect o r (view bp) k) ∧
  (∀ k, pins bp' k = pin_effect o r (pins bp) k) ∧
  (∀ k, 0 < pins bp k → 0 < pins bp' k → pageTable bp' !! k = pageTable bp !! k).

(** A call that changed nothing. *)
Lemma same_ok M o bp bp' r :
  inv (modified M o bp) None bp' → same bp bp' → returns o (view bp) r →
  (∀ a k, effect o r a k = a k) → (∀ n k, pin_effect o r n k = n k) →
  step_ok M o bp bp' r.
Proof.
  intros I S R E P. split_and!; [done|done|..].
  - intros k. rewrite E. apply (s_view _ _ S).
  - intros k. rewrite P. apply (s_pins _ _ S).
  - intros k Hk _. by apply (s_loc _ _ S).
Qed.

Lemma fetch_ok M k bp bp' r :
  inv M None bp → allowed M (OFetch k) bp → run (OFetch k) bp = (bp', r) →
  step_ok M (OFetch k) bp bp' r.
Proof.
  intros I [Hp Hf] H. unfold run, st_bind in H. destruct (fetch k.1 k.2 bp) as [b rf] eqn:E.
  apply (fetch_spec M) in E as (I1&Hr&_); [|done..]. rewrite <-surjective_pairing in Hr.
  destruct rf as [f|e|]; simplify_eq/=; [|by destruct Hr; apply same_ok|done].
  destruct Hr as ([V P L C]&T&Hv&_). split_and!; try done.
  intros k'. simpl. rewrite P. repeat case_decide; lia || congruence.
Qed.

Lemma new_ok M file bp bp' r :
  inv M None bp → allowed M (ONew file) bp → run (ONew file) bp = (bp', r) →
  step_ok M (ONew file) bp bp' r.
Proof.
  intros I [d Hd] H. unfold run, st_bind in H. destruct (newPage file bp) as [b rf] eqn:E.
  apply (newPage_spec M _ _ d) in E as (I1&Hr&_); [|done..].
  destruct rf as [[f pid]|e|]; injection H as <- <-; [|by destruct Hr; apply same_ok|done].
  destruct Hr as (Hpid&[F V P L C]&T&Hl&_). unfold step_ok, returns, effect. simpl fst. simpl snd.
  rewrite Hl. revert V. generalize (zeroes PageSize). intros z V. split_and!; try done.
  - intros k'. simpl. rewrite P. repeat case_decide; lia || congruence.
  - intros k' Hk' _. by apply L.
Qed.

Lemma unpin_ok M k d bp bp' r :
  inv M None bp → allowed M (OUnpin k d) bp → run (OUnpin k d) bp = (bp', r) →
  step_ok M (OUnpin k d) bp bp' r.
Proof.
  intros I HA H. unfold run, st_bind in H. destruct (unpin k.1 k.2 d bp) as [b rf] eqn:E.
  apply (unpin_spec M) in E; [|done]. rewrite <-surjective_pairing in E. simpl in HA.
  assert (0 ≤ pins bp k) as Hnn by (by eapply pins_nonneg).
  destruct (pageTable bp !! k) as [f|] eqn:Hk.
  - destruct E as [E0 E1]. destruct (decide (0 < pins bp k)) as [Hpos|].
    + destruct (E1 Hpos (HA _ eq_refl Hpos)) as (->&I1&[V P L C]&_).
      injection H as <- <-. split_and!; try done.
      * simpl. rewrite Hk, decide_True by done. by destruct d.
      * intros k'. simpl. rewrite P. repeat case_decide; lia || congruence.
    + destruct E0 as [-> ->]; [lia|]. injection H as <- <-. apply same_ok; try done.
      simpl. rewrite Hk, decide_False by done. by destruct d.
  - destruct E as [-> ->]. injection H as <- <-. apply same_ok; try done.
    simpl. rewrite Hk. by destruct d.
Qed.

Lemma write_ok M k p bp bp' r :
  inv M None bp → allowed M (OWrite k p) bp → run (OWrite k p) bp = (bp', r) →
  step_ok M (OWrite k p) bp bp' r.
Proof.
  intros I [Hpos Hp] H. unfold run in H. destruct (pinned_resident _ Hpos) as [f Hf].
  rewrite Hf in H. injection H as <- <-.
  destruct (store_spec M bp k f p I Hf Hpos Hp) as (I1&V&_).
  split_and!; try done. simpl. by rewrite Hf.
Qed.

Lemma order_resident order bp f :
  map_order order bp → f ∈ order → ∃ k, pageTable bp !! k = Some f.
Proof.
  intros Ho Hf. rewrite Ho in Hf. apply list_elem_of_fmap in Hf as ([k g]&->&Hk).
  exists k. by apply elem_of_map_to_list in Hk.
Qed.

Lemma resident_order order bp k f :
  map_order order bp → pageTable bp !! k = Some f → f ∈ order.
Proof.
  intros Ho Hf. rewrite Ho. apply list_elem_of_fmap. exists (k, f).
  by split; [|apply elem_of_map_to_list].
Qed.

Lemma run_ok M o bp bp' r :
  inv M None bp → allowed M o bp → run o bp = (bp', r) → step_ok M o bp bp' r.
Proof.
  intros I HA H. destruct o as [k|file|k d|k p|k|order|file|dm].
  - by apply fetch_ok.
  - by apply new_ok.
  - by apply unpin_ok.
  - by apply write_ok.
  - unfold run, st_bind, flushPage in H. rewrite <-surjective_pairing in H.
    destruct (pageTable bp !! k) as [f|] eqn:Hk; [|by simplify_eq; apply same_ok].
    destruct (flushLocked f bp) as [b rf] eqn:E.
    apply (flushLocked_spec M bp k) in E as (I1&S1&_&_&_&Hp&_); [|done..].
    destruct rf; injection H as <- <-; [by apply same_ok..|done].
  - unfold run, st_bind in H. destruct (FlushAll order bp) as [b rf] eqn:E.
    apply (FlushAll_spec M) in E as (I1&S1&_&_&_&Hp&_); [|done|by intros; eapply order_resident].
    destruct rf; injection H as <- <-; [by apply same_ok..|done].
  - destruct HA as [d Hd]. unfold run, st_bind in H. destruct (on_file file Disk.Sync bp) as [b rf] eqn:E.
    apply (sync_one M _ _ d) in E as (fs'&->&_&I1&S1&_&Hp&_); [|done..].
    destruct rf; injection H as <- <-; [by apply same_ok..|done].
  - destruct HA as [Hwf Hlen]. unfold run, st_bind in H. destruct (Register dm bp) as [b rf] eqn:E.
    apply (Register_spec M) in E as (->&I1&_&P&T&V); [|done..]. injection H as <- <-.
    split_and!; try done. intros k _ _. by rewrite T.
Qed.

(** No call creates or destroys a frame. *)
Lemma acquire_len bp : length (frames (acquireFrame bp).1) = length (frames bp).
Proof. unfold acquireFrame, on_file. repeat (case_match; simplify_eq/=; try done). Qed.

Lemma fetch_len file pid bp : length (frames (fetch file pid bp).1) = length (frames bp).
Proof.
  unfold fetch, st_bind. destruct (pageTable bp !! _); [by destruct (meta bp !! _)|].
  pose proof (acquire_len bp) as H1. destruct (acquireFrame bp) as [b [f|e|]]; simpl in *; try done.
  rewrite <-H1. unfold load_frame. repeat (case_match; simplify_eq/=; rewrite ?length_insert; try done).
Qed.

Lemma newPage_len file bp : length (frames (newPage file bp).1) = length (frames bp).
Proof.
  unfold newPage, st_bind. pose proof (acquire_len bp) as H1.
  destruct (acquireFrame bp) as [b [f|e|]]; simpl in *; try done. rewrite <-H1.
  unfold on_file. destruct (idx _ _) as [d|]; [|done].
  destruct (Disk.AllocatePage d) as [d' [pid|e|]]; try done. simpl.
  case_match; simpl; rewrite ?length_insert; done.
Qed.

Lemma on_file_frames {A} file (m : st DiskManager A) bp : frames (on_file file m bp).1 = frames bp.
Proof. unfold on_file. destruct (idx _ _) as [d|]; [|done]. by destruct (m d). Qed.

Lemma flushLocked_frames f bp : frames (flushLocked f bp).1 = frames bp.
Proof.
  unfold flushLocked. destruct (meta bp !! f) as [m|]; [|done]. destruct (frames bp !! f) as [p|]; [|done].
  destruct (dirty m); [|done]. pose proof (on_file_frames (key m).1 (Disk.WritePage (key m).2 p) bp) as H.
  by destruct (on_file _ _ _) as [b [| |]].
Qed.

Lemma FlushAll_frames order bp : frames (FlushAll order bp).1 = frames bp.
Proof.
  revert bp. induction order as [|f order IH]; intros bp; [done|]. simpl. unfold st_bind.
  pose proof (flushLocked_frames f bp). destruct (flushLocked f bp) as [b [| |]]; simpl in *; try done.
  by rewrite IH.
Qed.

Lemma run_len o bp bp' r : run o bp = (bp', r) → length (frames bp') = length (frames bp).
Proof.
  intros H. assert (bp' = (run o bp).1) as -> by (by rewrite H). clear H.
  destruct o as [k|file|k d|k p|k|order|file|dm]; simpl; unfold st_bind.
  - pose proof (fetch_len k.1 k.2 bp). by destruct (fetch _ _ _) as [b [| |]].
  - pose proof (newPage_len file bp). by destruct (newPage _ _) as [b [| |]].
  - unfold unpin. repeat (case_match; simplify_eq/=; try done).
  - case_match; [|done]. apply length_insert.
  - unfold flushPage. destruct (pageTable bp !! _) as [f|]; [|done]. pose proof (flushLocked_frames f bp).
    destruct (flushLocked _ _) as [b [| |]]; simpl in *; congruence.
  - pose proof (FlushAll_frames order bp). destruct (FlushAll _ _) as [b [| |]]; simpl in *; congruence.
  - pose proof (on_file_frames file Disk.Sync bp). destruct (on_file _ _ _) as [b [| |]]; simpl in *; congruence.
  - done.
Qed.

(** ** Histories *)

(** [hist bp0 h M bp]: from [bp0] the calls of [h], each within the contract,
    gave the recorded results and led to [bp]. *)
Inductive hist (bp0 : BufferPool) : list (op * res out) → gset frameID → BufferPool → Prop :=
| hist_nil : hist bp0 [] ∅ bp0
| hist_call h M bp o bp' r :
    hist bp0 h M bp → allowed M o bp → run o bp = (bp', r) →
    hist bp0 (h ++ [(o, r)]) (modified M o bp) bp'.

(** The array of pages and the pin counts a history amounts to. *)
Definition contents (h : list (op * res out)) : pageKey → option page :=
  foldl (λ a '(o, r), effect o r a) (λ _, None) h.
Definition pin_total (h : list (op * res out)) : pageKey → Z :=
  foldl (λ n '(o, r), pin_effect o r n) (λ _, 0) h.

#[global] Instance effect_proper o r :
  Proper (pointwise_relation _ eq ==> pointwise_relation _ eq) (effect o r).
Proof. intros a a' Ha k. unfold effect. repeat case_match; auto. Qed.

#[global] Instance pin_effect_proper o r :
  Proper (pointwise_relation _ eq ==> pointwise_relation _ eq) (pin_effect o r).
Proof.
  intros a a' Ha k. specialize (Ha k). unfold pin_effect.
  repeat (match goal with |- context [match ?x with _ => _ end] => destruct x end); congruence.
Qed.

Lemma contents_snoc h o r : contents (h ++ [(o, r)]) = effect o r (contents h).
Proof. unfold contents. by rewrite foldl_app. Qed.
Lemma pin_total_snoc h o r : pin_total (h ++ [(o, r)]) = pin_effect o r (pin_total h).
Proof. unfold pin_total. by rewrite foldl_app. Qed.

Lemma returns_ext o a a' r : (∀ k, a k = a' k) → returns o a r → returns o a' r.
Proof. intros Ha. unfold returns. repeat case_match; by rewrite <-?Ha. Qed.

Section history.
Context {poolSize : Z} {bp0 : BufferPool} (Hnew : NewBufferPool poolSize = Ret bp0).

Lemma hist_inv h M bp :
  hist bp0 h M bp → inv M None bp ∧ length (frames bp) = Z.to_nat poolSize.
Proof.
  destruct (NewBufferPool_spec _ _ Hnew) as (I0&_&L0&_&_).
  induction 1 as [|h M bp o bp' r Hh [I L] HA H]; [done|].
  pose proof (run_len _ _ _ _ H). apply (run_ok M) in H as (?&_); [|done..]. split; [done|lia].
Qed.

Lemma hist_contents h M bp :
  hist bp0 h M bp →
  (∀ k, view bp k = contents h k) ∧ (∀ k, pins bp k = pin_total h k).
Proof.
  destruct (NewBufferPool_spec _ _ Hnew) as (I0&_&_&F0&T0).
  induction 1 as [|h M bp o bp' r Hh [IV IP] HA H].
  - split; intros k; unfold view, pins; rewrite T0, lookup_empty; [|done].
    unfold disk_view. rewrite F0. unfold idx. by destruct (0 <=? k.1); rewrite ?lookup_nil.
  - destruct (hist_inv _ _ _ Hh) as [I _].
    apply (run_ok M) in H as (_&_&HV&HP&_); [|done..].
    split; intros k; rewrite ?contents_snoc, ?pin_total_snoc, ?HV, ?HP.
    + by apply effect_proper.
    + by apply pin_effect_proper.
Qed.

Lemma hist_returns h M bp :
  hist bp0 h M bp → ∀ h1 o r h2, h = h1 ++ (o, r) :: h2 → returns o (contents h1) r.
Proof.
  induction 1 as [|h M bp o bp' r Hh IH HA H]; intros h1 o1 r1 h2 E.
  { by destruct h1. }
  destruct h2 as [|x h2' _] using rev_ind.
  - apply app_inj_tail in E as [-> [= -> ->]]. destruct (hist_inv _ _ _ Hh) as [I _].
    apply (run_ok M) in H as (_&R&_); [|done..]. eapply returns_ext, R.
    by apply (hist_contents _ _ _ Hh).
  - rewrite app_comm_cons, app_assoc in E. apply app_inj_tail in E as [-> _]. by eapply IH.
Qed.
End history.

(** ** The documented frame states *)

Definition is_free (bp : BufferPool) (f : frameID) : Prop := f ∈ freeList bp.
Definition in_use (bp : BufferPool) (f : frameID) : Prop :=
  ∃ k m, pageTable bp !! k = Some f ∧ meta bp !! f = Some m ∧ 0 < pinCount m.
Definition is_idle (bp : BufferPool) (f : frameID) : Prop :=
  ∃ k m, pageTable bp !! k = Some f ∧ meta bp !! f = Some m ∧ pinCount m = 0.
Definition candidate (bp : BufferPool) (f : frameID) : Prop := f ∈ LRU.frames (replacer bp).

Lemma states_excl M bp f :
  inv M None bp →
  ¬ (is_free bp f ∧ in_use bp f) ∧ ¬ (is_free bp f ∧ is_idle bp f) ∧ ¬ (in_use bp f ∧ is_idle bp f) ∧
  (candidate bp f ↔ is_idle bp f).
Proof.
  intros I. split_and!.
  - intros [Hf (k&m&Hk&_)]. by apply (proj2 (i_free _ _ _ I f Hf) k).
  - intros [Hf (k&m&Hk&_)]. by apply (proj2 (i_free _ _ _ I f Hf) k).
  - intros [(k&m&_&Hm&?) (k'&m'&_&Hm'&?)]. simplify_eq. lia.
  - apply (i_idle _ _ _ I).
Qed.

Lemma states_cover M bp f :
  inv M None bp → (f < length (frames bp))%nat → is_free bp f ∨ in_use bp f ∨ is_idle bp f.
Proof.
  intros I Hf. destruct (i_cover _ _ _ I f Hf) as [?|[?|[k Hk]]]; [by left|done|right].
  destruct (i_table _ _ _ I _ _ Hk) as [m p d Hm _ _ Hnn _ _ _].
  destruct (decide (pinCount m = 0)); [right|left]; exists k, m; split_and!; try done. lia.
Qed.

(** There is room exactly when some frame is not in use. *)
Lemma room_spec M bp :
  inv M None bp → (0 < room bp)%nat ↔ ∃ f, (f < length (frames bp))%nat ∧ ¬ in_use bp f.
Proof.
  intros I. unfold room. split.
  - intros H. destruct (freeList bp) as [|f l] eqn:E.
    + destruct (LRU.frames (replacer bp)) as [|f l'] eqn:E'; [simpl in H; lia|].
      destruct (states_excl M bp f I) as (_&_&H3&H4).
      assert (is_idle bp f) as Hi by (apply H4; unfold candidate; rewrite E'; by left).
      exists f. split; [|tauto]. destruct Hi as (k&m&Hk&_). by eapply (table_lt I).
    + assert (is_free bp f) as Hf by (unfold is_free; rewrite E; by left).
      exists f. split; [by apply (i_free _ _ _ I f)|]. destruct (states_excl M bp f I). tauto.
  - intros (f&Hlt&Hu). destruct (states_cover M bp f I Hlt) as [Hf|[?|Hi]]; [|done|].
    + unfold is_free in Hf. destruct (freeList bp); [by apply elem_of_nil in Hf|simpl; lia].
    + apply (states_excl M bp f I) in Hi. unfold candidate in Hi.
      destruct (LRU.frames (replacer bp)); [by apply elem_of_nil in Hi|simpl; lia].
Qed.

(** With every frame in use no frame can be acquired, and nothing changes. *)
Lemma full_acquire M bp :
  inv M None bp → (∀ f, (f < length (frames bp))%nat → in_use bp f) →
  acquireFrame bp = (bp, Fail ErrNoFreeFrame).
Proof.
  intros I Hall. assert (room bp = 0%nat) as Hz.
  { destruct (decide (room bp = 0%nat)) as [|Hn]; [done|exfalso].
    destruct (proj1 (room_spec M bp I)) as (f&?&Hf); [lia|]. by apply Hf, Hall. }
  destruct (acquireFrame bp) as [b ra] eqn:Ea.
  destruct (acquire_spec _ _ _ _ I Ea) as (_&Hra&_).
  destruct ra as [f|e|]; [lia| |done]. destruct Hra as (_&_&He). by destruct (He Hz) as [-> ->].
Qed.

(** A page that exists belongs to a registered file. *)
Lemma valid_file M bp file pid :
  inv M None bp → valid bp (file, pid) → ∃ d, idx (files bp) file = Some d ∧ 0 ≤ pid < Disk.numPages d.
Proof.
  intros I Hv. apply (view_valid I) in Hv as [p Hp]. unfold disk_view in Hp. simpl in Hp.
  destruct (idx (files bp) file) as [d|]; [|done]. exists d. by case_decide.
Qed.

Lemma fetch_progress M bp file pid :
  inv M None bp → healthy bp → valid bp (file, pid) →
  (0 < room bp)%nat ∨ is_Some (pageTable bp !! (file, pid)) →
  ∃ bp' f, fetch file pid bp = (bp', Ret f) ∧ healthy bp' ∧ view bp (file, pid) = Some (load f bp').
Proof.
  intros I Hheal Hval Hroom. destruct (valid_file M bp file pid I Hval) as (d&Hd&Hpid&_).
  destruct (fetch file pid bp) as [bp' r] eqn:E. pose proof E as E'.
  apply (fetch_spec M) in E as (_&Hr&Hh'); [|done..]. destruct (Hh' Hheal) as [? Hret].
  assert (is_ret r = true) as Hok.
  { destruct (pageTable bp !! (file, pid)) as [f|] eqn:Hf.
    - destruct (i_table _ _ _ I _ _ Hf) as [m p ? Hm _ _ _ _ _ _].
      unfold fetch in E'. rewrite Hf, Hm in E'. by injection E' as _ <-.
    - apply Hret; [done|]. destruct Hroom as [?|[? ?]]; [by left|done]. }
  destruct r as [f|e|]; [|done..]. exists bp', f. split_and!; try done. by destruct Hr as (_&_&?&_).
Qed.

Lemma newPage_progress M bp file d :
  inv M None bp → healthy bp → idx (files bp) file = Some d → Disk.numPages d < Disk.MaxUint32 →
  (0 < room bp)%nat →
  ∃ bp' f pid, newPage file bp = (bp', Ret (f, pid)) ∧ healthy bp'.
Proof.
  intros I Hheal Hd Hlim Hroom. destruct (newPage file bp) as [bp' r] eqn:E.
  apply (newPage_spec M _ _ d) in E as (_&Hr&Hh'); [|done..]. destruct (Hh' Hheal) as [? Hret].
  specialize (Hret Hroom Hlim). destruct r as [[f pid']|e|]; try done. by exists bp', f, pid'.
Qed.

(** C2: in every state a history of calls can reach, the pool has exactly the
    frames it was created with, and each is in exactly one of the three states
    of BufferPool's documentation: on the free list; resident with a pin, and
    not an eviction candidate; or resident with no pin, and a candidate.  A
    frame holds at most one page, and its metadata names that page. *)
Theorem frame_states poolSize bp0 h M bp f :
  NewBufferPool poolSize = Ret bp0 → hist bp0 h M bp →
  length (frames bp) = Z.to_nat poolSize ∧ length (meta bp) = Z.to_nat poolSize ∧
  ((f < Z.to_nat poolSize)%nat →
     (is_free bp f ∧ ¬ in_use bp f ∧ ¬ is_idle bp f ∧ ¬ candidate bp f) ∨
     (¬ is_free bp f ∧ in_use bp f ∧ ¬ is_idle bp f ∧ ¬ candidate bp f) ∨
     (¬ is_free bp f ∧ ¬ in_use bp f ∧ is_idle bp f ∧ candidate bp f)) ∧
  (∀ k, pageTable bp !! k = Some f → (f < Z.to_nat poolSize)%nat ∧ (key <$> meta bp !! f) = Some k).
Proof.
  intros Hnew Hh. destruct (hist_inv Hnew _ _ _ Hh) as [I L].
  split_and!; [done|by rewrite (i_len _ _ _ I)|..].
  - intros Hf. destruct (states_excl M bp f I) as (?&?&?&?).
    destruct (states_cover M bp f I) as [?|[?|?]]; [lia|tauto..].
  - intros k Hk. split; [rewrite <-L; by eapply (table_lt I)|].
    destruct (i_table _ _ _ I _ _ Hk) as [m p d Hm _ Hkey _ _ _ _]. by rewrite Hm, <-Hkey.
Qed.

(** C1: the pool implements an array of pages.  After any history of calls by
    callers that keep the contract (dirty unpins of modified pages), whatever the
    disks did (failed reads, torn and failed write-backs), every page has the
    contents and every page the number of pins the history alone determines;
    every fetch in the history returned the bytes its page had at that point,
    every new page a page that did not exist and reads as zeros, and no call
    panicked. *)
Theorem pool_refines_array poolSize bp0 h M bp :
  NewBufferPool poolSize = Ret bp0 → hist bp0 h M bp →
  (∀ k, view bp k = contents h k) ∧ (∀ k, pins bp k = pin_total h k) ∧
  (∀ h1 o r h2, h = h1 ++ (o, r) :: h2 → returns o (contents h1) r).
Proof.
  intros Hnew Hh. destruct (hist_contents Hnew _ _ _ Hh) as [V P].
  split_and!; [done|done|]. by eapply (hist_returns Hnew).
Qed.

(** A page a caller holds pinned does not move: across any call, as long as
    it stays pinned, its frame is the same, so the pointer handed out by
    FetchPage or NewPage keeps aliasing the page. *)
Theorem pinned_stays poolSize bp0 h M bp o bp' r k f :
  NewBufferPool poolSize = Ret bp0 → hist bp0 h M bp → allowed M o bp → run o bp = (bp', r) →
  pageTable bp !! k = Some f → 0 < pins bp k → 0 < pins bp' k →
  pageTable bp' !! k = Some f ∧ view bp' k = Some (load f bp').
Proof.
  intros Hnew Hh HA H Hk Hp Hp'. destruct (hist_inv Hnew _ _ _ Hh) as [I _].
  apply (run_ok M) in H as (I'&_&_&_&L); [|done..].
  assert (pageTable bp' !! k = Some f) as Hk' by (by rewrite L). split; [done|].
  unfold view, load. rewrite Hk'. destruct (i_table _ _ _ I' _ _ Hk') as [? p ? _ -> _ _ _ _ _]. done.
Qed.

(** C27: on healthy disks a page operation fails only for want of a frame or of a
    page id.  Fetching a page that exists succeeds if some frame is not in use or
    the page is resident; allocating one in any registered file, also an empty
    one, succeeds if some frame is not in use and the file has fewer than 2^32-1
    pages; with every frame in use a fetch of a page that is not resident and any
    allocation return ErrNoFreeFrame and leave the pool exactly as it was. *)
Theorem pool_progress poolSize bp0 h M bp :
  NewBufferPool poolSize = Ret bp0 → hist bp0 h M bp → healthy bp →
  (∀ file pid, view bp (file, pid) ≠ None →
     (∃ f, (f < Z.to_nat poolSize)%nat ∧ ¬ in_use bp f) ∨ is_Some (pageTable bp !! (file, pid)) →
     ∃ bp' f, fetch file pid bp = (bp', Ret f) ∧ healthy bp' ∧ view bp (file, pid) = Some (load f bp')) ∧
  (∀ file n, numPages file bp = Ret n → n < Disk.MaxUint32 →
     (∃ f, (f < Z.to_nat poolSize)%nat ∧ ¬ in_use bp f) →
     ∃ bp' f pid, newPage file bp = (bp', Ret (f, pid)) ∧ healthy bp') ∧
  ((∀ f, (f < Z.to_nat poolSize)%nat → in_use bp f) → ∀ file,
     (∀ pid, pageTable bp !! (file, pid) = None → fetch file pid bp = (bp, Fail ErrNoFreeFrame)) ∧
     newPage file bp = (bp, Fail ErrNoFreeFrame)).
Proof.
  intros Hnew Hh Hheal. destruct (hist_inv Hnew _ _ _ Hh) as [I L]. rewrite <-L. split_and!.
  - intros file pid Hv Hroom. assert (valid bp (file, pid)) as Hval by (unfold valid; by destruct (view bp (file, pid)); [eexists|]).
    apply (fetch_progress M); [done..|]. destruct Hroom as [Hr|?]; [left|by right]. by apply (room_spec M).
  - intros file n Hn Hmax Hroom%(room_spec M); [|done]. unfold numPages in Hn.
    destruct (idx (files bp) file) as [d|] eqn:Hd; [|done]. apply (newPage_progress M _ _ d); try done. by injection Hn as <-.
  - intros Hall%(full_acquire M) file; [|done]. unfold fetch, newPage, st_bind.
    split; [intros pid ->|]; by rewrite Hall.
Qed.

(** [unpin] on every branch.  A page that is not resident, or resident with
    no pin, gives an error and changes nothing; otherwise one pin is released,
    no page's contents change, the dirty flag is merged and never cleared, and
    the frame becomes an eviction candidate exactly when its last pin goes. *)
Theorem unpin_branches poolSize bp0 h M bp file pid d bp' r :
  NewBufferPool poolSize = Ret bp0 → hist bp0 h M bp → allowed M (OUnpin (file, pid) d) bp →
  unpin file pid d bp = (bp', r) →
  (pins bp (file, pid) = 0 → bp' = bp ∧ ∃ e, r = Fail e) ∧
  (0 < pins bp (file, pid) →
     r = Ret tt ∧ files bp' = files bp ∧
     (∀ k, view bp' k = view bp k) ∧
     (∀ k, pins bp' k = pins bp k - (if decide (k = (file, pid)) then 1 else 0)) ∧
     ∃ f m, pageTable bp !! (file, pid) = Some f ∧ meta bp !! f = Some m ∧
       (dirty <$> meta bp' !! f) = Some (dirty m || d) ∧
       (candidate bp' f ↔ pins bp (file, pid) = 1)).
Proof.
  intros Hnew Hh HA H. destruct (hist_inv Hnew _ _ _ Hh) as [I L].
  pose proof (unpin_spec M _ _ _ _ _ _ I H) as E. simpl in E, HA.
  split.
  - intros Hz. destruct (pageTable bp !! (file, pid)) as [f|]; [destruct E as [E _]|]; naive_solver.
  - intros Hpos. destruct (pageTable bp !! (file, pid)) as [f|] eqn:Hk.
    2:{ unfold pins in Hpos. rewrite Hk in Hpos. lia. }
    destruct E as [_ E]. destruct (E Hpos (HA _ eq_refl Hpos)) as (->&I'&[V P Lc C]&_&F).
    destruct (i_table _ _ _ I _ _ Hk) as [m p dm Hm _ _ _ _ _ _].
    assert (f < length (meta bp))%nat as Hlt by (by eapply lookup_lt_Some).
    assert (pageTable bp' = pageTable bp ∧
            meta bp' !! f = Some (FrameMeta (key m) (pinCount m - 1) (dirty m || d))) as [T Hm'].
    { unfold unpin in H. rewrite Hk, Hm in H. rewrite (pins_resident _ _ _ Hk Hm) in Hpos.
      rewrite (proj2 (Z.eqb_neq _ _)) in H by lia. simpl in H.
      destruct (pinCount m - 1 =? 0); injection H as <-; (split; [done|]);
        by apply list_lookup_insert_eq. }
    split_and!; try done.
    + intros k. rewrite P. repeat case_decide; lia || congruence.
    + exists f, m. rewrite Hm'. split_and!; try done.
      rewrite (pins_resident _ _ _ Hk Hm). unfold candidate. rewrite (i_idle _ _ _ I').
      rewrite T, Hm'. split; [intros (?&?&_&[= <-]&Hz); simpl in Hz; lia|].
      intros H1. exists (file, pid), (FrameMeta (key m) (pinCount m - 1) (dirty m || d)).
      simpl. by rewrite H1.
Qed.

(** [FlushAll] and [Sync] on any well-formed pool. *)
Lemma checkpoint_spec bp order b1 r1 b2 r2 :
  inv ∅ None bp → map_order order bp → FlushAll order bp = (b1, r1) → Sync b1 = (b2, r2) →
  inv ∅ None b2 ∧ same bp b2 ∧
  (r1 = Ret tt → r2 = Ret tt → ∀ k, durable_view (files b2) k = view bp k) ∧
  (healthy bp → r1 = Ret tt ∧ r2 = Ret tt).
Proof.
  intros I Ho HF HS.
  apply (FlushAll_spec ∅) in HF as (I1&S1&T1&_&_&_&C1&H1); [|done|by intros; eapply order_resident].
  apply (pool_sync_spec ∅) in HS as (I2&S2&_&_&D2&H2); [|done].
  split_and!; [done|by etrans|..].
  - intros -> -> k. rewrite D2 by done. rewrite flushed_view; [by rewrite (s_view _ _ S1)|done|].
    intros k' f. rewrite T1. intros Hk'. apply C1; [done|]. by eapply resident_order.
  - intros Hb. destruct (H1 Hb) as [Hb1 ?]. destruct (H2 Hb1).
    by destruct r1 as [[]| |], r2 as [[]| |].
Qed.

(** A checkpoint is durable.  If no caller holds modifications it has not
    reported, then FlushAll (in whatever order the map is walked) followed by
    Sync, when both succeed, leaves on the devices exactly the contents of every
    page of every file; neither changes any page; and on healthy disks both
    succeed. *)
Theorem checkpoint_durable poolSize bp0 h bp order b1 r1 b2 r2 :
  NewBufferPool poolSize = Ret bp0 → hist bp0 h ∅ bp → map_order order bp →
  FlushAll order bp = (b1, r1) → Sync b1 = (b2, r2) →
  (∀ k, view b2 k = contents h k) ∧
  (r1 = Ret tt → r2 = Ret tt → ∀ k, durable_view (files b2) k = contents h k) ∧
  (healthy bp → r1 = Ret tt ∧ r2 = Ret tt).
Proof.
  intros Hnew Hh Ho HF HS. destruct (hist_inv Hnew _ _ _ Hh) as [I _].
  destruct (hist_contents Hnew _ _ _ Hh) as [HV _].
  destruct (checkpoint_spec _ _ _ _ _ _ I Ho HF HS) as (_&S&D&Hb). split_and!; [|..|done].
  - intros k. by rewrite (s_view _ _ S).
  - intros ? ? k. by rewrite D.
Qed.

(** C39: when the write-back of an eviction victim fails, every page, pin and
    table entry is as before, but the pool is not exactly as it was: the victim
    goes back at the most-recently-used end of the candidates, so the eviction
    order is rotated. *)
Theorem failed_eviction_rotates poolSize bp0 h M bp bp' e rest v :
  NewBufferPool poolSize = Ret bp0 → hist bp0 h M bp →
  LRU.frames (replacer bp) = rest ++ [v] →
  acquireFrame bp = (bp', Fail e) →
  (∀ k, view bp' k = view bp k) ∧ (∀ k, pins bp' k = pins bp k) ∧
  pageTable bp' = pageTable bp ∧ meta bp' = meta bp ∧ freeList bp' = freeList bp ∧
  LRU.frames (replacer bp') = v :: rest ∧
  (rest ≠ [] → LRU.frames (replacer bp') ≠ LRU.frames (replacer bp)).
Proof.
  intros Hnew Hh Hfr H. destruct (hist_inv Hnew _ _ _ Hh) as [I _].
  destruct (acquire_spec _ _ _ _ I H) as (S&_&_).
  pose proof (victim_cases _ (i_lru _ _ _ I)) as HV. pose proof (i_lru _ _ _ I) as Hw.
  unfold acquireFrame in H. destruct (last (freeList bp)); [done|].
  destruct (LRU.Victim (replacer bp)) as [r' [v'|]].
  2:{ destruct HV as [_ HV]. rewrite HV in Hfr. by destruct rest. }
  destruct HV as [Hw' HV]. pose proof HV as HV2. rewrite Hfr in HV2.
  apply app_inj_tail in HV2 as [Hrest <-]. rewrite Hrest in *.
  assert (LRU.frames (replacer bp') = v :: LRU.frames r' ∧ pageTable bp' = pageTable bp ∧
          meta bp' = meta bp ∧ freeList bp' = freeList bp) as (Hl&?&?&?).
  { rewrite <-(unvictim_frames _ r' v Hw Hw' HV). simpl in H. unfold on_file in H.
    repeat (case_match; simplify_eq/=; try done). }
  split_and!; try done; [apply (s_view _ _ S)|apply (s_pins _ _ S)|].
  intros Hne. rewrite Hl, HV. intros E. pose proof (LRU.wf_frames _ Hw) as Hnd.
  fold (LRU.frames (replacer bp)) in Hnd. rewrite HV in Hnd. apply NoDup_app in Hnd as (_&Hnd&_).
  destruct (LRU.frames r') as [|x l]; [done|]. injection E as -> _. apply (Hnd x); by left.
Qed.

(** ** Witnesses *)

(** The contract as a test, and histories by execution. *)
Definition allowedb (M : gset frameID) (o : op) (bp : BufferPool) : bool :=
  match o with
  | OFetch k => (0 <=? k.2) && bool_decide (is_Some (idx (files bp) k.1))
  | ONew file | OFsync file => bool_decide (is_Some (idx (files bp) file))
  | OUnpin k d => match pageTable bp !! k with
                  | Some f => (pins bp k <=? 0) || d || bool_decide (f ∉ M) || (1 <? pins bp k)
                  | None => true
                  end
  | OWrite k p => (0 <? pins bp k) && (len p =? PageSize)
  | OFlush _ => true
  | OFlushAll order => bool_decide (order = (map_to_list (pageTable bp)).*2)
  | ORegister dm => (0 <=? Disk.numPages dm) && (Disk.numPages dm <=? Disk.MaxUint32) &&
      (Disk.numPages dm * PageSize <=? len (cached (Disk.file dm))) && (len (files bp) <? 2 ^ 32)
  end.

Lemma allowedb_sound M o bp : allowedb M o bp = true → allowed M o bp.
Proof.
  destruct o as [k|file|k d|k p|k|order|file|dm]; simpl; intros H; bools; try done.
  - split; [lia|]. by apply bool_decide_eq_true in H0.
  - by apply bool_decide_eq_true in H.
  - intros f Hf Hpos. rewrite Hf in H.
    destruct (Z.leb_spec (pins bp k) 0); [lia|]. destruct d; [by left|]. simpl in H. right.
    apply orb_true_iff in H as [H%bool_decide_eq_true|H]; [by left|right; lia].
  - apply bool_decide_eq_true in H. unfold map_order. by rewrite H.
  - by apply bool_decide_eq_true in H.
Qed.

Fixpoint play (os : list op) (h : list (op * res out)) (M : gset frameID) (bp : BufferPool)
    : option (list (op * res out) * gset frameID * BufferPool) :=
  match os with
  | [] => Some (h, M, bp)
  | o :: os =>
      if allowedb M o bp
      then let '(bp', r) := run o bp in play os (h ++ [(o, r)]) (modified M o bp) bp'
      else None
  end.

Lemma play_hist bp0 os h M bp h' M' bp' :
  hist bp0 h M bp → play os h M bp = Some (h', M', bp') → hist bp0 h' M' bp'.
Proof.
  revert h M bp. induction os as [|o os IH]; intros h M bp Hh H; simpl in H; [by simplify_eq|].
  destruct (allowedb M o bp) eqn:E; [|done]. destruct (run o bp) as [b r] eqn:Er.
  eapply IH; [|done]. econstructor; [done|by apply allowedb_sound|done].
Qed.

(** The state a list of calls leads to, from a fresh pool of [n] frames. *)
Definition ex_fresh (n : nat) : BufferPool :=
  BP [] (replicate n NewPage) (replicate n zero_meta) ∅ (seq 0 n) LRU.NewLRUReplacer.
Definition ex_state (n : nat) (os : list op) : list (op * res out) * gset frameID * BufferPool :=
  default ([], ∅, ex_fresh n) (play os [] ∅ (ex_fresh n)).
Abbreviation ex_hist n os := (ex_state n os).1.1.
Abbreviation ex_mods n os := (ex_state n os).1.2.
Abbreviation ex_bp n os := (ex_state n os).2.

Lemma ex_reach n os :
  bool_decide (is_Some (play os [] ∅ (ex_fresh n))) = true →
  hist (ex_fresh n) (ex_hist n os) (ex_mods n os) (ex_bp n os).
Proof.
  intros [[[h M] bp] H]%bool_decide_eq_true. unfold ex_state. rewrite H.
  eapply play_hist; [apply hist_nil|done].
Qed.

Lemma healthy_forall bp : Forall Disk.healthy (files bp) → healthy bp.
Proof. intros H i d [_ Hd]%idx_Some. by eapply Forall_lookup_1. Qed.

(** A page created, written, released dirty and evicted by a second one. *)
Definition ex_page : page := replicate (Z.to_nat PageSize) x2a.
Definition ex_evict : list op :=
  [ORegister Disk.empty_disk; ONew 0; OWrite (0, 0) ex_page; OUnpin (0, 0) true;
   ONew 0; OUnpin (0, 1) false].
(** A page its caller still holds. *)
Definition ex_held : list op := [ORegister Disk.empty_disk; ONew 0].
(** Two dirty candidates on a disk whose third write fails half-way. *)
Definition ex_failing : list op :=
  [ORegister (Disk.DM (OsFile [] [] true [IOok; IOok; IOfail 4096]) 0);
   ONew 0; ONew 0; OUnpin (0, 0) true; OUnpin (0, 1) true].

Lemma ex_evict_reach : hist (ex_fresh 1) (ex_hist 1 ex_evict) (ex_mods 1 ex_evict) (ex_bp 1 ex_evict).
Proof. apply ex_reach. vm_compute. reflexivity. Qed.
Lemma ex_evict_clean : ex_mods 1 ex_evict = ∅.
Proof. vm_compute. reflexivity. Qed.
Lemma ex_evict_healthy : healthy (ex_bp 1 ex_evict).
Proof. apply healthy_forall. vm_compute. by repeat constructor. Qed.
Lemma ex_held_reach : hist (ex_fresh 1) (ex_hist 1 ex_held) (ex_mods 1 ex_held) (ex_bp 1 ex_held).
Proof. apply ex_reach. vm_compute. reflexivity. Qed.
Lemma ex_failing_reach :
  hist (ex_fresh 2) (ex_hist 2 ex_failing) (ex_mods 2 ex_failing) (ex_bp 2 ex_failing).
Proof. apply ex_reach. vm_compute. reflexivity. Qed.

Lemma frame_states_witness :
  length (frames (ex_bp 1 ex_evict)) = 1%nat ∧ length (meta (ex_bp 1 ex_evict)) = 1%nat.
Proof.
  destruct (frame_states 1 (ex_fresh 1) _ _ (ex_bp 1 ex_evict) 0 eq_refl ex_evict_reach) as (H1&H2&_).
  split; [exact H1|exact H2].
Defined.

Lemma pool_refines_array_witness :
  view (ex_bp 1 ex_evict) (0, 0) = Some ex_page ∧ pageTable (ex_bp 1 ex_evict) !! (0, 0) = None.
Proof.
  destruct (pool_refines_array 1 (ex_fresh 1) _ _ (ex_bp 1 ex_evict) eq_refl ex_evict_reach) as (H&_&_).
  split; [rewrite (H (0, 0))|]; vm_compute; reflexivity.
Defined.

Lemma pinned_stays_witness :
  pageTable (run (OFetch (0, 0)) (ex_bp 1 ex_held)).1 !! (0, 0) = Some 0%nat.
Proof.
  apply (pinned_stays 1 (ex_fresh 1) _ _ (ex_bp 1 ex_held) (OFetch (0, 0)) _
           (run (OFetch (0, 0)) (ex_bp 1 ex_held)).2 (0, 0) 0 eq_refl ex_held_reach).
  - apply allowedb_sound. vm_compute. reflexivity.
  - apply surjective_pairing.
  - vm_compute. reflexivity.
  - vm_compute. reflexivity.
  - vm_compute. reflexivity.
Defined.

Lemma pool_progress_witness :
  ∃ bp' f, fetch 0 0 (ex_bp 1 ex_evict) = (bp', Ret f) ∧ healthy bp' ∧
    view (ex_bp 1 ex_evict) (0, 0) = Some (load f bp').
Proof.
  apply (proj1 (pool_progress 1 (ex_fresh 1) _ _ (ex_bp 1 ex_evict) eq_refl ex_evict_reach ex_evict_healthy)).
  - vm_compute. discriminate.
  - left. exists 0%nat. split; [vm_compute; lia|]. intros (k&m&_&Hm&Hp).
    assert ((pinCount <$> meta (ex_bp 1 ex_evict) !! 0%nat) = Some 0) as E by (vm_compute; reflexivity).
    rewrite Hm in E. injection E as E. lia.
Defined.

Lemma unpin_branches_witness :
  (unpin 0 0 true (ex_bp 1 ex_held)).2 = Ret tt.
Proof.
  apply (unpin_branches 1 (ex_fresh 1) _ _ (ex_bp 1 ex_held) 0 0 true
           (unpin 0 0 true (ex_bp 1 ex_held)).1 _ eq_refl ex_held_reach).
  - apply allowedb_sound. vm_compute. reflexivity.
  - apply surjective_pairing.
  - vm_compute. reflexivity.
Defined.

Lemma checkpoint_durable_witness :
  durable_view (files (Sync (FlushAll [0%nat] (ex_bp 1 ex_evict)).1).1) (0, 0) = Some ex_page.
Proof.
  pose proof ex_evict_reach as Hr. rewrite ex_evict_clean in Hr.
  destruct (checkpoint_durable 1 (ex_fresh 1) _ (ex_bp 1 ex_evict) [0%nat] _ _ _ _ eq_refl Hr
    ltac:(vm_compute; reflexivity) (surjective_pairing _) (surjective_pairing _)) as (_&H&Hh).
  destruct (Hh ex_evict_healthy) as [E1 E2]. rewrite (H E1 E2 (0, 0)). vm_compute. reflexivity.
Defined.

Lemma failed_eviction_rotates_witness :
  LRU.frames (replacer (ex_bp 2 ex_failing)) = [0%nat; 1%nat] ∧
  LRU.frames (replacer (acquireFrame (ex_bp 2 ex_failing)).1) = [1%nat; 0%nat].
Proof.
  assert (LRU.frames (replacer (ex_bp 2 ex_failing)) = [0%nat] ++ [1%nat]) as E
    by (vm_compute; reflexivity).
  split; [exact E|].
  apply (failed_eviction_rotates 2 (ex_fresh 2) _ _ (ex_bp 2 ex_failing) _
           (Wrapf "buffer: flush victim" (Wrapf "disk: write page" ErrIO)) [0%nat] 1 eq_refl
           ex_failing_reach E).
  vm_compute. reflexivity.
Defined.

End PoolSpec.
