(* ===== verification/Checkpoint.v ===== *)
(** * Checkpoints under traffic (src/internal/storage/buffer/buffer_pool.go)

    [FlushAll] holds the pool lock, but [Sync] only takes a snapshot of the files
    under it and calls fsync on each outside, so other calls run between and
    during the fsyncs.  This file follows what is on disk and what is durable
    through such runs. *)

From S2P Require Import Prelude Bytes PageLayout Disk LRU BufferPool BufferInv PoolSpec.

Module Checkpoint.
Import Pool PoolInv PoolSpec.

(** ** Runs from any state *)

(** The steps [t], with their results, lead from [bp] to [bp']; [M] are the frames
    modified and not reported, as in [hist]. *)
Inductive calls : gset frameID → BufferPool → list (op * res out) → gset frameID → BufferPool → Prop :=
| calls_nil M bp : calls M bp [] M bp
| calls_cons M bp o bp1 r t M2 bp2 :
    allowed M o bp → run o bp = (bp1, r) → calls (modified M o bp) bp1 t M2 bp2 →
    calls M bp ((o, r) :: t) M2 bp2.

(** ** A page that is on disk stays there *)

(** If page [k] is [p] on disk, it still is, and the durable bytes of its file are
    as before. *)
Definition stays (k : pageKey) (p : page) (fs fs' : list DiskManager) : Prop :=
  ∀ d, idx fs k.1 = Some d → 0 ≤ k.2 < Disk.numPages d → Disk.disk_page d k.2 = p →
  ∃ d', idx fs' k.1 = Some d' ∧ k.2 < Disk.numPages d' ∧ Disk.disk_page d' k.2 = p ∧
    durable (Disk.file d') = durable (Disk.file d).

#[global] Instance stays_preorder k p : PreOrder (stays k p).
Proof.
  split; [intros fs d Hd Hr Hp; exists d; split_and!; done || lia|].
  intros a b c H1 H2 d Hd Hr Hp. destruct (H1 d Hd Hr Hp) as (d1&Hd1&Hr1&Hp1&E1).
  destruct (H2 d1 Hd1 ltac:(lia) Hp1) as (d2&Hd2&Hr2&Hp2&E2). exists d2. split_and!; congruence.
Qed.

(** Replacing the manager of one file. *)
Lemma stays_insert k p fs i d d' :
  idx fs i = Some d →
  (i = k.1 → 0 ≤ k.2 < Disk.numPages d → Disk.disk_page d k.2 = p →
    k.2 < Disk.numPages d' ∧ Disk.disk_page d' k.2 = p ∧ durable (Disk.file d') = durable (Disk.file d)) →
  stays k p fs (<[Z.to_nat i := d']> fs).
Proof.
  intros Hi H e He Hr Hp. pose proof (idx_lt _ _ _ Hi). rewrite idx_insert by done. case_decide as E.
  - subst i. assert (e = d) as -> by congruence. exists d'. split; [done|]. by apply H.
  - exists e. split_and!; [done|lia|done|done].
Qed.

Lemma write_stays k p bp i id src bp' r :
  (∀ j d, idx (files bp) j = Some d → Disk.wf d) → 0 ≤ id → (k = (i, id) → src = p) →
  on_file i (Disk.WritePage id src) bp = (bp', r) → stays k p (files bp) (files bp').
Proof.
  intros Hwf Hid Hk H. unfold on_file in H. destruct (idx (files bp) i) as [d|] eqn:Hd; [|by injection H as <- _].
  destruct (Disk.WritePage id src d) as [d' r'] eqn:E. injection H as <- _. eapply stays_insert; [done|].
  intros -> Hr Hp. destruct (Disk.WritePage_spec _ _ _ _ _ (Hwf _ _ Hd) Hid E) as (_&N&D&Hoth&_).
  split_and!; [lia| |done]. destruct (decide (k.2 = id)) as [<-|Hne]; [|rewrite Hoth; [done|lia|done]].
  rewrite <-(Hk (surjective_pairing k)) in Hp |- *.
  eapply Disk.WritePage_same; [by eapply Hwf|lia|exact Hp|exact E].
Qed.

Lemma alloc_stays k p bp i bp' r :
  (∀ j d, idx (files bp) j = Some d → Disk.wf d) →
  on_file i Disk.AllocatePage bp = (bp', r) → stays k p (files bp) (files bp').
Proof.
  intros Hwf H. unfold on_file in H. destruct (idx (files bp) i) as [d|] eqn:Hd; [|by injection H as <- _].
  destruct (Disk.AllocatePage d) as [d' r'] eqn:E. injection H as <- _. eapply stays_insert; [done|].
  intros -> Hr Hp. destruct (Disk.AllocatePage_spec _ _ _ (Hwf _ _ Hd) E) as (_&D&Hold&Hres).
  split_and!; [destruct r'; [lia|lia|done]|by rewrite Hold|done].
Qed.

(** The bytes of a frame that is written back are those of its page. *)
Lemma victim_view M bp v m bytes :
  inv M None bp → (∃ k, pageTable bp !! k = Some v) → meta bp !! v = Some m → frames bp !! v = Some bytes →
  view bp (key m) = Some bytes ∧ 0 ≤ (key m).2.
Proof.
  intros I [k Hk] Hm Hp. destruct (i_table _ _ _ I _ _ Hk) as [m' p' d Hm' _ <- _ _ Hr _].
  assert (m' = m) as -> by congruence. split; [unfold view; by rewrite Hk|lia].
Qed.

Lemma acquire_stays M bp bp' r k p :
  inv M None bp → view bp k = Some p → acquireFrame bp = (bp', r) → stays k p (files bp) (files bp').
Proof.
  intros I Hk H. unfold acquireFrame in H. destruct (last (freeList bp)); [by injection H as <- _|].
  pose proof (victim_cases _ (i_lru _ _ _ I)) as HV. destruct (LRU.Victim (replacer bp)) as [r' [v|]]; [|by injection H as <- _].
  destruct HV as [_ HV]. assert (∃ k, pageTable bp !! k = Some v) as Hv.
  { destruct (proj1 (i_idle _ _ _ I v)) as (k'&_&?&_); [rewrite HV; set_solver|eauto]. }
  simpl in H. destruct (meta bp !! v) as [m|] eqn:Hm; [|by injection H as <- _].
  destruct (frames bp !! v) as [bytes|] eqn:Hp; [|by injection H as <- _].
  destruct (victim_view _ _ _ _ _ I Hv Hm Hp) as [HK Hid]. destruct (dirty m); [|by injection H as <- _].
  destruct (on_file _ _ _) as [b rw] eqn:E.
  apply (write_stays k p) in E; [|apply I|done|by intros ->; rewrite <-surjective_pairing in Hk; congruence].
  destruct rw; injection H as <- _; done.
Qed.

Lemma load_stays k p file pid f bp bp' r :
  0 ≤ pid → load_frame file pid f bp = (bp', r) → stays k p (files bp) (files bp').
Proof.
  intros Hpid H. unfold load_frame in H. destruct (idx (files bp) file) as [d|] eqn:Hd; [|by injection H as <- _].
  destruct (frames bp !! f) as [dst|]; [|by injection H as <- _].
  destruct (Disk.ReadPage pid dst d) as [d' [dst' rr]] eqn:E.
  destruct (Disk.ReadPage_spec _ _ _ _ _ _ Hpid E) as (N&C&D&_).
  assert (files bp' = <[Z.to_nat file := d']> (files bp)) as -> by (by destruct rr; injection H as <- _).
  eapply stays_insert; [done|]. intros _ Hr Hp. unfold Disk.disk_page in *. rewrite C. split_and!; [lia|done|done].
Qed.

Lemma flush_stays M bp f bp' r k p :
  inv M None bp → (∃ k, pageTable bp !! k = Some f) → view bp k = Some p → flushLocked f bp = (bp', r) →
  stays k p (files bp) (files bp').
Proof.
  intros I Hf Hk H. unfold flushLocked in H. destruct (meta bp !! f) as [m|] eqn:Hm; [|by injection H as <- _].
  destruct (frames bp !! f) as [bytes|] eqn:Hp; [|by injection H as <- _].
  destruct (victim_view _ _ _ _ _ I Hf Hm Hp) as [HK Hid]. destruct (dirty m); [|by injection H as <- _].
  destruct (on_file _ _ _) as [b rw] eqn:E.
  apply (write_stays k p) in E; [|apply I|done|by intros ->; rewrite <-surjective_pairing in Hk; congruence].
  destruct rw; injection H as <- _; done.
Qed.

Lemma FlushAll_stays M order bp bp' r k p :
  inv M None bp → (∀ f, f ∈ order → ∃ k, pageTable bp !! k = Some f) → view bp k = Some p →
  FlushAll order bp = (bp', r) → stays k p (files bp) (files bp').
Proof.
  revert bp. induction order as [|f order IH]; intros bp I Ho Hk H; simpl in H; [by injection H as <- _|].
  unfold st_bind in H. destruct (flushLocked f bp) as [b rf] eqn:Ef. destruct (Ho f) as [k0 Hk0]; [by left|].
  pose proof (flush_stays _ _ _ _ _ k p I ltac:(eauto) Hk Ef) as S1.
  destruct (flushLocked_spec _ _ _ _ _ _ I Hk0 Ef) as (I1&V1&T1&_).
  destruct rf; [|by injection H as <- _..]. etrans; [exact S1|].
  eapply IH; [done| |by rewrite (s_view _ _ V1)|done]. intros g Hg. rewrite T1. apply Ho. by right.
Qed.

(** Every step but an fsync of its file leaves a page that is on disk and its
    file's durable bytes alone. *)
Lemma run_stays M o bp bp' r k p :
  inv M None bp → allowed M o bp → run o bp = (bp', r) → view bp k = Some p → o ≠ OFsync k.1 →
  stays k p (files bp) (files bp').
Proof.
  intros I HA H Hk Hne. assert (bp' = (run o bp).1) as -> by (by rewrite H). clear H.
  destruct o as [k'|file|k' d|k' q|k'|order|file|dm]; simpl; unfold st_bind.
  - destruct (fetch k'.1 k'.2 bp) as [b rf] eqn:E. assert (stays k p (files bp) (files b)) as S; [|by destruct rf].
    unfold fetch in E. destruct (pageTable bp !! _); [destruct (meta bp !! _); by injection E as <- _|].
    unfold st_bind in E. destruct (acquireFrame bp) as [b1 ra] eqn:Ea.
    pose proof (acquire_stays _ _ _ _ _ _ I Hk Ea) as S1. destruct ra; [|by injection E as <- _..].
    etrans; [exact S1|]. eapply load_stays; [apply HA|exact E].
  - destruct (newPage file bp) as [b rf] eqn:E. assert (stays k p (files bp) (files b)) as S; [|by destruct rf].
    unfold newPage, st_bind in E. destruct (acquireFrame bp) as [b1 ra] eqn:Ea.
    pose proof (acquire_stays _ _ _ _ _ _ I Hk Ea) as S1. apply (acquire_spec M) in Ea as (_&Ia&_); [|done].
    destruct ra as [f|e|]; [|by injection E as <- _..]. destruct Ia as [Ia _]. etrans; [exact S1|].
    destruct (on_file file Disk.AllocatePage b1) as [b2 rn] eqn:En. apply (alloc_stays k p) in En; [|apply Ia].
    destruct rn; [destruct (frames b2 !! f)|..]; by injection E as <- _.
  - unfold unpin. repeat (case_match; simplify_eq/=; try done).
  - by destruct (pageTable bp !! k').
  - unfold flushPage. rewrite <-surjective_pairing. destruct (pageTable bp !! k') as [f|] eqn:Hf; [|done].
    destruct (flushLocked f bp) as [b rf] eqn:E. eapply (flush_stays M _ _ _ _ k p) in E; [by destruct rf|done|by eexists|done].
  - destruct (FlushAll order bp) as [b rf] eqn:E.
    eapply (FlushAll_stays M _ _ _ _ k p) in E; [by destruct rf|done|by intros; eapply order_resident|done].
  - destruct (on_file file Disk.Sync bp) as [b rf] eqn:E. unfold on_file in E.
    assert (stays k p (files bp) (files b)) as S; [|by destruct rf].
    destruct (idx (files bp) file) as [d|] eqn:Hd; [|by injection E as <- _]. destruct (Disk.Sync d).
    injection E as <- _. eapply stays_insert; [done|]. intros ->. done.
  - intros d Hd Hr Hp. exists d. split_and!; [|lia|done|done]. unfold idx in *. destruct (0 <=? k.1); [|done].
    by apply lookup_app_l_Some.
Qed.

(** ** One step *)

Lemma disk_view_Some fs k p :
  disk_view fs k = Some p ↔
  ∃ d, idx fs k.1 = Some d ∧ 0 ≤ k.2 < Disk.numPages d ∧ Disk.disk_page d k.2 = p.
Proof.
  unfold disk_view. split.
  - destruct (idx fs k.1) as [d|]; [|done]. case_decide; [|done]. intros [= <-]. eauto.
  - intros (d&->&Hr&<-). by rewrite decide_True.
Qed.

Lemma durable_view_Some fs k p :
  durable_view fs k = Some p ↔
  ∃ d, idx fs k.1 = Some d ∧ 0 ≤ k.2 < Disk.numPages d ∧ Disk.durable_page d k.2 = p.
Proof.
  unfold durable_view. split.
  - destruct (idx fs k.1) as [d|]; [|done]. case_decide; [|done]. intros [= <-]. eauto.
  - intros (d&->&Hr&<-). by rewrite decide_True.
Qed.

Lemma disk_page_cached d d' q : cached (Disk.file d') = cached (Disk.file d) → Disk.disk_page d' q = Disk.disk_page d q.
Proof. unfold Disk.disk_page. by intros ->. Qed.
Lemma durable_page_durable d d' q :
  durable (Disk.file d') = durable (Disk.file d) → Disk.durable_page d' q = Disk.durable_page d q.
Proof. unfold Disk.durable_page. by intros ->. Qed.
Lemma durable_page_cached d d' q :
  durable (Disk.file d') = cached (Disk.file d) → Disk.durable_page d' q = Disk.disk_page d q.
Proof. unfold Disk.durable_page, Disk.disk_page. by intros ->. Qed.

(** A page that is on disk stays there; if it was durable it stays so; and a
    successful fsync of its file makes it durable. *)
Lemma step_disk M o bp bp' r k p :
  inv M None bp → allowed M o bp → run o bp = (bp', r) → view bp k = Some p →
  disk_view (files bp) k = Some p →
  disk_view (files bp') k = Some p ∧
  (durable_view (files bp) k = Some p ∨ (o = OFsync k.1 ∧ is_ret r = true) →
   durable_view (files bp') k = Some p).
Proof.
  intros I HA H Hv Hd. pose proof Hd as (d&Hi&Hr&Hp)%disk_view_Some.
  assert ({o = OFsync k.1} + {o ≠ OFsync k.1}) as [->|Hne].
  { destruct o; try (right; discriminate). destruct (decide (file = k.1)) as [->|]; [by left|right; congruence]. }
  - unfold run, st_bind, on_file in H. rewrite Hi in H. destruct (Disk.Sync d) as [d' rs] eqn:E.
    destruct (Disk.Sync_spec _ _ _ E) as (N&C&D). pose proof (idx_lt _ _ _ Hi).
    assert (files bp' = <[Z.to_nat k.1 := d']> (files bp) ∧ is_ret r = is_ret rs) as [-> ->]
      by (destruct rs; by injection H as <- <-).
    split; [apply disk_view_Some; exists d'; rewrite idx_insert, decide_True by done|
            intros Hs; apply durable_view_Some; exists d'; rewrite idx_insert, decide_True by done];
      (split_and!; [done|lia|lia|]).
    + by rewrite (disk_page_cached _ _ _ C).
    + destruct rs; [by rewrite (durable_page_cached _ _ _ D)| |destruct D].
      destruct Hs as [(d0&He&_&Hq)%durable_view_Some|[_ Hx]]; [|discriminate Hx]. assert (d0 = d) as -> by congruence.
      by rewrite (durable_page_durable _ _ _ D).
  - destruct (run_stays _ _ _ _ _ _ _ I HA H Hv Hne d Hi Hr Hp) as (d'&Hi'&Hr'&Hp'&Dd). split.
    + apply disk_view_Some. exists d'. split_and!; [done|lia|done|done].
    + intros [(e&He&_&Hq)%durable_view_Some|[Eo _]]; [|by destruct (Hne Eo)]. apply durable_view_Some. exists d'.
      assert (e = d) as -> by congruence. split_and!; [done|lia|done|]. by rewrite (durable_page_durable _ _ _ Dd).
Qed.

(** Only a caller's write changes an existing page. *)
Lemma step_view M o bp bp' r k p :
  inv M None bp → allowed M o bp → run o bp = (bp', r) → view bp k = Some p →
  (∀ q, o ≠ OWrite k q) → view bp' k = Some p.
Proof.
  intros I HA H Hv Hne. pose proof H as (_&Hret&HV&_)%(run_ok M); [|done..]. rewrite HV, <-Hv. unfold effect.
  destruct o as [k'|file|k' d|k' q|k'|order|file|dm]; try done.
  - destruct r as [[pid bytes]| |]; [|done..]. case_decide as E; [|done]. subst k. destruct Hret as [Hn _]. congruence.
  - destruct r as [x| |]; [|done..]. case_decide as E; [|done]. subst k'. by destruct (Hne q).
  - destruct r as [[id bytes]| |]; [|done..]. case_decide as E; [|done]. exfalso.
    destruct (proj1 (view_valid I k)) as [q (d&Hd&_)%disk_view_Some]; [by eexists|]. apply idx_lt in Hd.
    destruct HA as [_ Hlen]. unfold run, st_bind, Register, st_ret in H. injection H as _ Hid _. simpl in Hid.
    rewrite u32_small in Hid by lia. lia.
Qed.

(** ** Whole runs *)

(** The steps that succeeded, in order. *)
Definition succeeded (t : list (op * res out)) : list op := (filter (λ x, is_ret x.2 = true) t).*1.

(** The fsyncs of a [Sync] over the first [n] files, in the order it makes them. *)
Definition fsyncs (n : nat) : list op := (λ i, OFsync (Z.of_nat i)) <$> seq 0 n.

(** A [Sync] with nothing in between is such a run. *)
Lemma Sync_from_calls M n : ∀ i bp bp',
  inv M None bp → (i + n ≤ length (files bp))%nat → Sync_from (Z.of_nat i) n bp = (bp', Ret tt) →
  calls M bp ((λ j, (OFsync (Z.of_nat j), Ret (0, []))) <$> seq i n) M bp'.
Proof.
  induction n as [|n IH]; intros i bp bp' I Hn H; [injection H as <-; constructor|].
  cbn [Sync_from] in H. unfold st_bind in H. destruct (on_file (Z.of_nat i) Disk.Sync bp) as [b r] eqn:E.
  assert (∃ d, idx (files bp) (Z.of_nat i) = Some d) as [d Hd].
  { unfold idx. rewrite (proj2 (Z.leb_le _ _)), Nat2Z.id by lia. apply lookup_lt_is_Some. lia. }
  destruct r as [[]|e|]; [|done|done]. pose proof E as (fs'&->&L&I1&_)%(sync_one M _ _ d); [|done|done].
  simpl. eapply calls_cons; [by eexists|unfold run, st_bind; by rewrite E|]. simpl.
  replace (Z.of_nat i + 1) with (Z.of_nat (S i)) in H by lia. apply IH; [done|simpl; lia|exact H].
Qed.

Lemma Sync_calls M bp bp' :
  inv M None bp → Sync bp = (bp', Ret tt) →
  ∃ t, calls M bp t M bp' ∧ succeeded t = fsyncs (length (files bp)) ∧ t.*1 = fsyncs (length (files bp)).
Proof.
  intros I H. eexists. split; [apply (Sync_from_calls M (length (files bp)) 0); [done|lia|exact H]|]. unfold succeeded, fsyncs.
  rewrite filter_all; [|by intros x (j&->&_)%list_elem_of_fmap].
  by rewrite <-list_fmap_compose.
Qed.

(** Along a run: the page stays on disk, and is durable from the first successful
    fsync of its file on. *)
Lemma calls_durable M bp t M' bp' k p :
  calls M bp t M' bp' → inv M None bp → view bp k = Some p → disk_view (files bp) k = Some p →
  (∀ q r, (OWrite k q, r) ∉ t) →
  view bp' k = Some p ∧ disk_view (files bp') k = Some p ∧
  (durable_view (files bp) k = Some p ∨ OFsync k.1 ∈ succeeded t → durable_view (files bp') k = Some p).
Proof.
  induction 1 as [M bp|M bp o bp1 r t M2 bp2 HA H HC IH]; intros I Hv Hd Hw.
  { split_and!; [done..|]. intros [?|Hin]; [done|]. apply elem_of_nil in Hin as []. }
  assert (∀ q, o ≠ OWrite k q) as Ho by (intros q ->; by apply (Hw q r); left).
  pose proof (step_view _ _ _ _ _ _ _ I HA H Hv Ho) as Hv1.
  destruct (step_disk _ _ _ _ _ _ _ I HA H Hv Hd) as [Hd1 HD1].
  destruct (IH (proj1 (run_ok _ _ _ _ _ I HA H)) Hv1 Hd1) as (?&?&HD); [intros q r' Hin; by apply (Hw q r'); right|].
  split_and!; [done..|]. intros Hs. apply HD. destruct Hs as [Hs|Hs]; [left; apply HD1; by left|].
  unfold succeeded in Hs. rewrite filter_cons in Hs. case_decide as Er; [|by right].
  rewrite fmap_cons in Hs. apply elem_of_cons in Hs as [E|Hs]; [|by right].
  left. apply HD1. right. by split.
Qed.

(** After [FlushAll] every page that is not being modified is on disk. *)
Lemma flushed_page M bp order b1 k p :
  inv M None bp → map_order order bp → FlushAll order bp = (b1, Ret tt) →
  view bp k = Some p → (∀ f, pageTable bp !! k = Some f → f ∉ M) →
  inv M None b1 ∧ view b1 k = Some p ∧ disk_view (files b1) k = Some p ∧ length (files b1) = length (files bp).
Proof.
  intros I Ho HF Hv HM. pose proof (λ k p Hk, FlushAll_stays _ _ _ _ _ k p I (λ f, order_resident _ _ f Ho) Hk HF) as HS.
  assert (length (files b1) = length (files bp)) as HL.
  { clear -HF. revert bp HF. induction order as [|f order IH]; intros bp HF; simpl in HF; [by injection HF as <-|].
    unfold st_bind in HF. destruct (flushLocked f bp) as [b [u|e|]] eqn:E; [|done|done]. rewrite (IH _ HF).
    unfold flushLocked, on_file in E. repeat (case_match; simplify_eq/=; rewrite ?length_insert; try done). }
  apply (FlushAll_spec M) in HF as (I1&S1&T1&_&_&_&C1&_); [|done|by intros; eapply order_resident].
  pose proof Hv as Hv1. rewrite <-(s_view _ _ S1) in Hv1. split_and!; [done|done| |done].
  unfold view in Hv1. destruct (pageTable b1 !! k) as [f|] eqn:Hk; [|done].
  destruct (i_table _ _ _ I1 _ _ Hk) as [m q d Hm Hq _ _ Hd Hr Hc]. rewrite T1 in Hk.
  destruct (C1 eq_refl f) as (m'&Hm'&Hcl); [by eapply resident_order|]. assert (m' = m) as -> by congruence.
  apply disk_view_Some. exists d. split_and!; [done|lia|lia|]. rewrite <-Hc; [congruence|done|by apply HM].
Qed.

(** C15: a checkpoint under traffic.  [FlushAll] succeeds; afterwards any calls of
    any callers run, among them the fsyncs of a [Sync] over the files there were,
    in its order and all successful.  Then every page that held no unreported
    modification when it was flushed, and that no caller has written since, is
    durable with the contents it had at the flush, whatever was evicted, fetched,
    created, flushed or failed in between. *)
Theorem checkpoint_under_traffic poolSize bp0 h M bp order b1 t M' b2 k p :
  NewBufferPool poolSize = Ret bp0 → hist bp0 h M bp → map_order order bp →
  FlushAll order bp = (b1, Ret tt) → calls M b1 t M' b2 →
  fsyncs (length (files bp)) `sublist_of` succeeded t →
  contents h k = Some p → (∀ f, pageTable bp !! k = Some f → f ∉ M) → (∀ q r, (OWrite k q, r) ∉ t) →
  view b2 k = Some p ∧ durable_view (files b2) k = Some p.
Proof.
  intros Hnew Hh Ho HF HC HS Hk HM Hw. destruct (hist_inv Hnew _ _ _ Hh) as [I _].
  rewrite <-(proj1 (hist_contents Hnew _ _ _ Hh)) in Hk.
  destruct (flushed_page _ _ _ _ _ _ I Ho HF Hk HM) as (I1&Hv1&Hd1&_).
  destruct (calls_durable _ _ _ _ _ _ _ HC I1 Hv1 Hd1 Hw) as (Hv&_&HD). split; [done|]. apply HD. right.
  eapply elem_of_sublist; [|exact HS]. apply list_elem_of_fmap.
  destruct (proj1 (view_valid I k)) as [q (d&Hi&_)%disk_view_Some]; [by eexists|]. apply idx_lt in Hi.
  exists (Z.to_nat k.1). rewrite Z2Nat.id by lia. split; [done|]. apply elem_of_seq. lia.
Qed.

(** ** Witness: a page is flushed, evicted by a new one, and then fsynced *)

Lemma play_calls os : ∀ h M bp h' M' bp',
  play os h M bp = Some (h', M', bp') → ∃ t, h' = h ++ t ∧ calls M bp t M' bp'.
Proof.
  induction os as [|o os IH]; intros h M bp h' M' bp' H; simpl in H.
  { injection H as <- <- <-. exists []. split; [by rewrite app_nil_r|constructor]. }
  destruct (allowedb M o bp) eqn:E; [|done]. destruct (run o bp) as [b r] eqn:Er.
  destruct (IH _ _ _ _ _ _ H) as (t&->&HC). exists ((o, r) :: t). rewrite <-app_assoc. split; [done|].
  eapply calls_cons; [by apply allowedb_sound|done|done].
Qed.

Definition ex_dirty : list op :=
  [ORegister Disk.empty_disk; ONew 0; OWrite (0, 0) ex_page; OUnpin (0, 0) true].
Definition ex_flushed : BufferPool := (FlushAll [0%nat] (ex_bp 1 ex_dirty)).1.
Definition ex_traffic : list op := [ONew 0; OWrite (0, 1) ex_page; OFsync 0; OUnpin (0, 1) true].
Definition ex_run : list (op * res out) * gset frameID * BufferPool :=
  default ([], ∅, ex_flushed) (play ex_traffic [] (ex_mods 1 ex_dirty) ex_flushed).

Lemma ex_run_calls : calls (ex_mods 1 ex_dirty) ex_flushed ex_run.1.1 ex_run.1.2 ex_run.2.
Proof.
  assert (bool_decide (is_Some (play ex_traffic [] (ex_mods 1 ex_dirty) ex_flushed)) = true) as E
    by (vm_compute; reflexivity).
  apply bool_decide_eq_true in E as [[[h M] bp] E]. unfold ex_run. rewrite E.
  by destruct (play_calls _ _ _ _ _ _ _ E) as (t&->&HC).
Qed.

Lemma ex_run_steps : ex_run.1.1.*1 = ex_traffic ∧ succeeded ex_run.1.1 = ex_traffic.
Proof. vm_compute. split; reflexivity. Qed.

Lemma checkpoint_under_traffic_witness : durable_view (files ex_run.2) (0, 0) = Some ex_page.
Proof.
  apply (checkpoint_under_traffic 1 (ex_fresh 1) (ex_hist 1 ex_dirty) (ex_mods 1 ex_dirty) (ex_bp 1 ex_dirty)
    [0%nat] ex_flushed ex_run.1.1 ex_run.1.2 ex_run.2 (0, 0) ex_page).
  - reflexivity.
  - apply ex_reach. vm_compute. reflexivity.
  - vm_compute. reflexivity.
  - vm_compute. reflexivity.
  - exact ex_run_calls.
  - rewrite (proj2 ex_run_steps). change (fsyncs _) with [OFsync 0]. do 2 apply sublist_cons. apply sublist_skip, sublist_nil_l.
  - vm_compute. reflexivity.
  - intros f _. assert (ex_mods 1 ex_dirty = ∅) as -> by (vm_compute; reflexivity). set_solver.
  - intros q r Hin. apply (list_elem_of_fmap_2 fst) in Hin. rewrite (proj1 ex_run_steps) in Hin.
    repeat (apply elem_of_cons in Hin as [Hin|Hin]; [discriminate Hin|]). by apply elem_of_nil in Hin.
Defined.
End Checkpoint.
