(* ===== verification/Pager.v ===== *)
(** * The pager interface (declared in src/internal/access/heap/heap.go and
    src/internal/access/nbtree/nbtree.go; implemented by buffer.FileHandle)

    [Pager] are the operations an access method calls; [PagerSpec] is what it
    may rely on.  Access methods are written and proved against these classes;
    the last part of the file shows that a [FileHandle] over the buffer pool
    implements them. *)

From S2P Require Import Prelude Bytes PageLayout Disk LRU BufferPool BufferInv PoolSpec.

(** ** The interface *)

(** A [*page.Page] is a frame id; [load] and [store] are reads and writes
    through the pointer. *)
Class Pager (W : Type) := {
  FetchPage : Z → st W nat;
  NewPageIn : st W (nat * Z);
  UnpinPage : Z → bool → st W unit;
  NumPages : W → res Z;
  load : nat → W → page;
  store : nat → page → W → W }.

(** A call whose error result is discarded ([_ = f()]); a panic is not. *)
Definition ignore {W A} (m : st W A) : st W unit := λ s,
  match m s with
  | (s', Panic) => (s', Panic)
  | (s', _) => (s', Ret tt)
  end.

(** The abstract state of one file: its pages and their pins, where the pinned
    ones are, and how many frames are left. *)
Class PagerView (W : Type) := {
  p_inv : gset nat → W → Prop;
  p_page : W → Z → option page;
  p_pins : W → Z → Z;
  p_at : W → Z → option nat;
  p_count : W → Z;
  p_room : W → nat;
  p_healthy : W → Prop;
  p_others : W → W → Prop }.

(** [s'] has the same pages as [s] and [n] more pins on [pid]. *)
Record p_moved {W} `{PagerView W} (pid n : Z) (s s' : W) : Prop := PMoved {
  pm_page : ∀ q, p_page s' q = p_page s q;
  pm_pins : ∀ q, p_pins s' q = p_pins s q + (if decide (q = pid) then n else 0);
  pm_at : ∀ q, 0 < p_pins s q → 0 < p_pins s' q → p_at s' q = p_at s q;
  pm_count : p_count s' = p_count s;
  pm_others : p_others s s' }.

(** [s'] is [s] with page [pid] rewritten to [p]. *)
Record p_wrote {W} `{PagerView W} (pid : Z) (p : page) (s s' : W) : Prop := PWrote {
  pw_page : ∀ q, p_page s' q = if decide (q = pid) then Some p else p_page s q;
  pw_pins : ∀ q, p_pins s' q = p_pins s q;
  pw_at : ∀ q, p_at s' q = p_at s q;
  pw_count : p_count s' = p_count s;
  pw_room : p_room s' = p_room s;
  pw_healthy : p_healthy s → p_healthy s';
  pw_others : p_others s s' }.

(** [s'] is [s] with one more page [p], pinned once. *)
Record p_grown {W} `{PagerView W} (pid : Z) (p : page) (s s' : W) : Prop := PGrown {
  pg_id : pid = p_count s;
  pg_page : ∀ q, p_page s' q = if decide (q = pid) then Some p else p_page s q;
  pg_pins : ∀ q, p_pins s' q = p_pins s q + (if decide (q = pid) then 1 else 0);
  pg_fresh : p_pins s pid = 0;
  pg_at : ∀ q, 0 < p_pins s q → p_at s' q = p_at s q;
  pg_count : p_count s' = p_count s + 1;
  pg_others : p_others s s' }.

Class PagerSpec (W : Type) `{Pager W, PagerView W} := {
  others_preorder :: PreOrder p_others;
  count_ok M s : p_inv M s → 0 ≤ p_count s ≤ Disk.MaxUint32 ∧ NumPages s = Ret (p_count s);
  page_ok M s pid : p_inv M s → is_Some (p_page s pid) ↔ 0 ≤ pid < p_count s;
  page_wf M s pid p : p_inv M s → p_page s pid = Some p → wf_page p;
  pins_ok M s pid : p_inv M s → 0 ≤ p_pins s pid;
  at_page M s pid f : p_inv M s → p_at s pid = Some f → p_page s pid = Some (load f s);
  store_load M s pid f : p_inv M s → p_at s pid = Some f → store f (load f s) s = s;
  fetch_ok M s pid s' r :
    p_inv M s → 0 ≤ pid → FetchPage pid s = (s', r) →
    p_inv M s' ∧
    match r with
    | Ret f => p_moved pid 1 s s' ∧ p_at s' pid = Some f ∧ p_page s pid = Some (load f s') ∧
               (p_room s' + (if decide (p_pins s pid = 0%Z) then 1 else 0) = p_room s)%nat
    | Fail e => p_moved pid 0 s s' ∧ p_room s' = p_room s
    | Panic => False
    end ∧
    (p_healthy s → p_healthy s' ∧
       (0 ≤ pid < p_count s → (0 < p_room s)%nat → is_ret r = true));
  new_ok M s s' r :
    p_inv M s → NewPageIn s = (s', r) →
    p_inv M s' ∧
    match r with
    | Ret (f, pid) => p_grown pid (zeroes PageSize) s s' ∧ p_at s' pid = Some f ∧
                      load f s' = zeroes PageSize ∧ S (p_room s') = p_room s
    | Fail e => p_moved 0 0 s s' ∧ p_room s' = p_room s
    | Panic => False
    end ∧
    (p_healthy s → p_healthy s' ∧
       ((0 < p_room s)%nat → p_count s < Disk.MaxUint32 → is_ret r = true));
  unpin_ok M s pid f d s' r :
    p_inv M s → p_at s pid = Some f → 0 < p_pins s pid →
    d = true ∨ f ∉ M ∨ 1 < p_pins s pid → UnpinPage pid d s = (s', r) →
    r = Ret tt ∧ p_inv (if d then M ∖ {[f]} else M) s' ∧ p_moved pid (-1) s s' ∧
    p_room s' = (p_room s + (if decide (p_pins s pid = 1%Z) then 1 else 0))%nat ∧
    (p_healthy s → p_healthy s');
  store_ok M s pid f p :
    p_inv M s → p_at s pid = Some f → 0 < p_pins s pid → wf_page p →
    p_inv (M ∪ {[f]}) (store f p s) ∧ p_wrote pid p s (store f p s) ∧ load f (store f p s) = p }.

(** Nothing an access method's caller can see has changed. *)
Record p_same {W} `{PagerView W} (s s' : W) : Prop := PSame {
  ps_page : ∀ q, p_page s' q = p_page s q;
  ps_pins : ∀ q, p_pins s' q = p_pins s q;
  ps_count : p_count s' = p_count s;
  ps_room : p_room s' = p_room s;
  ps_others : p_others s s';
  ps_at : ∀ q, 0 < p_pins s q → p_at s' q = p_at s q }.

Section pager.
Context {W : Type} {PW : Pager W} {VW : PagerView W} {SW : PagerSpec W}.

Lemma moved_same pid s s' : p_moved pid 0 s s' → p_room s' = p_room s → p_same s s'.
Proof.
  intros [P N A C O] R. split; try done; intros q; [rewrite N; case_decide; lia|].
  intros Hq. apply A; [done|]. rewrite N. case_decide; lia.
Qed.

#[global] Instance p_same_preorder : PreOrder p_same.
Proof.
  split; [intros s; split; done || reflexivity|].
  intros a b c [P1 N1 C1 R1 O1 A1] [P2 N2 C2 R2 O2 A2].
  split; [intros; by rewrite P2|intros; by rewrite N2|lia|lia|by etrans|].
  intros q Hq. rewrite A2 by (by rewrite N1). by apply A1.
Qed.

(** Fetching a page and releasing it clean. *)
Lemma fetch_unpin M s pid s1 f s2 r :
  p_inv M s → 0 ≤ pid → f ∉ M → FetchPage pid s = (s1, Ret f) → UnpinPage pid false s1 = (s2, r) →
  r = Ret tt ∧ p_inv M s2 ∧ p_same s s2 ∧ (p_healthy s → p_healthy s2).
Proof.
  intros I Hp HfM HF HU. destruct (fetch_ok _ _ _ _ _ I Hp HF) as (I1&(V1&A1&Hl&R1)&H1).
  pose proof (pins_ok M s pid I) as Hn.
  assert (p_pins s1 pid = p_pins s pid + 1) as Hpin by (rewrite (pm_pins _ _ _ _ V1), decide_True; done).
  destruct (unpin_ok _ _ _ _ _ _ _ I1 A1 ltac:(lia) (or_intror (or_introl HfM)) HU)
    as (->&I2&V2&R2&H2).
  split_and!; [done|done| |intros Hh; by apply H2, H1]. destruct V1 as [P1 N1 L1 C1 O1], V2 as [P2 N2 L2 C2 O2]. split.
  - intros q. by rewrite P2.
  - intros q. rewrite N2, N1. repeat case_decide; lia.
  - lia.
  - rewrite R2, Hpin. repeat case_decide; lia.
  - by etrans.
  - intros q Hq. pose proof (N1 q) as E1. pose proof (N2 q) as E2.
    assert (0 < p_pins s1 q ∧ 0 < p_pins s2 q) as [??] by (repeat case_decide; lia).
    rewrite L2 by done. by apply L1.
Qed.

(** Writing a pinned page and releasing it dirty. *)
Lemma write_unpin M s pid f p s' r :
  p_inv M s → p_at s pid = Some f → 0 < p_pins s pid → wf_page p →
  UnpinPage pid true (store f p s) = (s', r) →
  r = Ret tt ∧ p_inv (M ∖ {[f]}) s' ∧
  (∀ q, p_page s' q = if decide (q = pid) then Some p else p_page s q) ∧
  (∀ q, p_pins s' q = p_pins s q - (if decide (q = pid) then 1 else 0)) ∧
  p_count s' = p_count s ∧
  p_room s' = (p_room s + (if decide (p_pins s pid = 1%Z) then 1 else 0))%nat ∧
  p_others s s' ∧ (p_healthy s → p_healthy s').
Proof.
  intros I Hat Hpos Hp HU. destruct (store_ok _ _ _ _ _ I Hat Hpos Hp) as (I1&[P1 N1 A1 C1 R1 H1 O1]&_).
  destruct (unpin_ok (M ∪ {[f]}) (store f p s) pid f true s' r)
    as (->&I2&[P2 N2 _ C2 O2]&R2&H2); [done|by rewrite A1|by rewrite N1|by left|done|].
  split_and!; [done| | | |lia| |by etrans|auto].
  - replace ((M ∪ {[f]}) ∖ {[f]}) with (M ∖ {[f]}) in I2 by set_solver. done.
  - intros q. by rewrite P2.
  - intros q. rewrite N2, N1. repeat case_decide; lia.
  - by rewrite R2, R1, N1.
Qed.
End pager.

(** ** The buffer pool implements the interface *)

Section handle.
Import Pool PoolInv PoolSpec.
Context (h : FileHandle).

#[global] Instance pool_pager : Pager BufferPool := {
  FetchPage := Pool.FetchPage h;
  NewPageIn := Pool.NewPageIn h;
  UnpinPage := Pool.UnpinPage h;
  NumPages := Pool.NumPages h;
  load := Pool.load;
  store := Pool.store }.

#[global] Instance pool_view : PagerView BufferPool := {
  p_inv M bp := inv M None bp ∧ is_Some (idx (files bp) (hfile h));
  p_page bp pid := view bp (hfile h, pid);
  p_pins bp pid := pins bp (hfile h, pid);
  p_at bp pid := pageTable bp !! (hfile h, pid);
  p_count bp := match idx (files bp) (hfile h) with Some d => Disk.numPages d | None => 0 end;
  p_room := room;
  p_healthy := healthy;
  p_others bp bp' := ∀ i, i ≠ hfile h → numPages i bp' = numPages i bp ∧
    ∀ pid, view bp' (i, pid) = view bp (i, pid) ∧ pins bp' (i, pid) = pins bp (i, pid) ∧
      (0 < pins bp (i, pid) → pageTable bp' !! (i, pid) = pageTable bp !! (i, pid)) }.

Lemma same_moved0 pid bp bp' : same bp bp' → p_moved pid 0 bp bp'.
Proof.
  intros [V P L C]. split; simpl.
  - done.
  - intros q. rewrite P. case_decide; lia.
  - intros q Hq _. by apply L.
  - specialize (C (hfile h)). unfold numPages, Disk.NumPages in C.
    destruct (idx (files bp') _), (idx (files bp) _); congruence.
  - intros i _. split; [apply C|]. intros q. split_and!; [done..|apply L].
Qed.

Lemma moved_pager pid n bp bp' : moved (hfile h, pid) n bp bp' → p_moved pid n bp bp'.
Proof.
  intros [V P L C]. split; simpl.
  - done.
  - intros q. rewrite P. repeat case_decide; congruence || lia.
  - intros q. apply L.
  - specialize (C (hfile h)). unfold numPages, Disk.NumPages in C.
    destruct (idx (files bp') _), (idx (files bp) _); congruence.
  - intros i Hi. split; [apply C|]. intros q. rewrite V.
    assert (pins bp' (i, q) = pins bp (i, q)) as E by (rewrite P, decide_False; [lia|congruence]).
    split_and!; [done..|]. intros Hq. apply L; [done|lia].
Qed.

Lemma moved_file k n bp bp' i :
  moved k n bp bp' → is_Some (idx (files bp) i) → is_Some (idx (files bp') i).
Proof.
  intros [_ _ _ C] [d Hd]. specialize (C i). unfold numPages in C. rewrite Hd in C.
  destruct (idx (files bp') i); [eauto|done].
Qed.

Lemma same_file bp bp' i : same bp bp' → is_Some (idx (files bp) i) → is_Some (idx (files bp') i).
Proof.
  intros [_ _ _ C] [d Hd]. specialize (C i). unfold numPages in C. rewrite Hd in C.
  destruct (idx (files bp') i); [eauto|done].
Qed.

Lemma pool_fetch_ok M bp pid bp' r :
  p_inv M bp → 0 ≤ pid → Pool.FetchPage h pid bp = (bp', r) →
  p_inv M bp' ∧
  match r with
  | Ret f => p_moved pid 1 bp bp' ∧ p_at bp' pid = Some f ∧ p_page bp pid = Some (load f bp') ∧
             (p_room bp' + (if decide (p_pins bp pid = 0%Z) then 1 else 0) = p_room bp)%nat
  | Fail e => p_moved pid 0 bp bp' ∧ p_room bp' = p_room bp
  | Panic => False
  end ∧
  (p_healthy bp → p_healthy bp' ∧
     (0 ≤ pid < p_count bp → (0 < p_room bp)%nat → is_ret r = true)).
Proof.
  simpl. revert M bp pid bp' r.
  intros M s pid s' r [I Hf] Hp H. apply (fetch_spec M) in H as (I'&Hr&Hh); [|done..]. split_and!.
  - done.
  - destruct r; [destruct Hr as [Hm _]|destruct Hr as [Hm _]|done];
      (by eapply moved_file) || by eapply same_file.
  - destruct r; [|by destruct Hr; split; [apply same_moved0|]|done].
    destruct Hr as (?&?&?&?). split_and!; try done. by apply moved_pager.
  - intros Hs. destruct (Hh Hs) as [? Hret]. split; [done|]. intros Hc Hroom.
    apply Hret; [|by left]. destruct Hf as [d Hd]. rewrite Hd in Hc. unfold valid.
    apply (view_valid I). unfold disk_view. simpl. rewrite Hd, decide_True by done. by eexists.
Qed.

Lemma pool_new_ok M bp bp' r :
  p_inv M bp → Pool.NewPageIn h bp = (bp', r) →
  p_inv M bp' ∧
  match r with
  | Ret (f, pid) => p_grown pid (zeroes PageSize) bp bp' ∧ p_at bp' pid = Some f ∧
                    load f bp' = zeroes PageSize ∧ S (p_room bp') = p_room bp
  | Fail e => p_moved 0 0 bp bp' ∧ p_room bp' = p_room bp
  | Panic => False
  end ∧
  (p_healthy bp → p_healthy bp' ∧
     ((0 < p_room bp)%nat → p_count bp < Disk.MaxUint32 → is_ret r = true)).
Proof.
  simpl. revert M bp bp' r.
  intros M s s' r [I [d Hd]] H. apply (newPage_spec M _ _ d) in H as (I'&Hr&Hh); [|done..].
  rewrite Hd. split_and!.
  - done.
  - destruct r as [[f pid]|e|]; [|by eapply same_file; [apply Hr|]|done].
    destruct Hr as (_&[_ _ _ _ C]&_). specialize (C (hfile h)). simpl in C.
    rewrite decide_True in C by done. unfold numPages in C. destruct (idx (files s') _); [eauto|done].
  - destruct r as [[f pid]|e|]; [|by destruct Hr; split; [apply same_moved0|]|done].
    destruct Hr as (Hpid&[F V P L C]&T&Hl&R). split_and!; try done. split; simpl.
    + rewrite Hd. done.
    + intros q. rewrite V. repeat case_decide; congruence.
    + intros q. rewrite P. repeat case_decide; congruence || lia.
    + destruct (decide (pins s (hfile h, pid) = 0)) as [|Hn]; [done|exfalso].
      pose proof (pins_nonneg I (hfile h, pid)).
      destruct (pinned_resident (bp:=s) (hfile h, pid)) as [g Hg]; [lia|].
      destruct (i_table _ _ _ I _ _ Hg) as [? p ? _ Hp _ _ _ _ _].
      unfold view in F. rewrite Hg, Hp in F. done.
    + intros q Hq. by apply L.
    + specialize (C (hfile h)). simpl in C. rewrite decide_True in C by done.
      unfold numPages, Disk.NumPages in C. rewrite Hd. destruct (idx (files s') _); [|done].
      injection C as C. lia.
    + intros i Hi. split; [by rewrite C, decide_False|]. intros q. rewrite V, P, !decide_False by congruence.
      split_and!; [done|lia|apply L].
  - intros Hs. by apply Hh.
Qed.

#[global] Instance pool_pager_spec : PagerSpec BufferPool.
Proof.
  split; simpl.
  - split; [by intros s i|]. intros a b c H1 H2 i Hi. destruct (H1 i Hi) as [N1 V1], (H2 i Hi) as [N2 V2].
    split; [congruence|]. intros q. destruct (V1 q) as (E1&P1&L1), (V2 q) as (E2&P2&L2).
    split_and!; [congruence..|]. intros Hq. rewrite L2 by (by rewrite P1). by apply L1.
  - intros M s [I [d Hd]]. unfold NumPages, Pool.NumPages, Pool.numPages. rewrite Hd.
    split; [|done]. apply (i_files _ _ _ I _ _ Hd).
  - intros M s pid [I [d Hd]]. rewrite (view_valid I). unfold disk_view. simpl. rewrite Hd.
    case_decide; split; [done|by eexists|by intros [? ?]|done].
  - intros M s pid p [I _]. by apply (view_size I).
  - intros M s pid [I _]. by apply (pins_nonneg I).
  - intros M s pid f [I _] Hf. unfold view, Pool.load. rewrite Hf.
    destruct (i_table _ _ _ I _ _ Hf) as [? p ? _ -> _ _ _ _ _]. done.
  - intros M s pid f [I _] Hf. destruct (i_table _ _ _ I _ _ Hf) as [? p ? _ Hp _ _ _ _ _].
    unfold Pool.store, Pool.load, set_frames. rewrite Hp. simpl. rewrite list_insert_id by done. by destruct s.
  - apply pool_fetch_ok.
  - apply pool_new_ok.
  - intros M s pid f dty s' r [I Hf] Hat Hpos Hc H. apply (unpin_spec M) in H; [|done].
    rewrite Hat in H. destruct H as [_ H]. destruct (H Hpos Hc) as (->&I'&V&R&F).
    split_and!; try done.
    + by rewrite F.
    + by apply moved_pager.
    + unfold healthy. by rewrite F.
  - intros M s pid f p [I Hf] Hat Hpos Hp. destruct (store_spec M s _ f p I Hat Hpos Hp) as (I'&V&L).
    split_and!; try done. split; try done; simpl.
    + intros q. rewrite V. repeat case_decide; congruence.
    + intros i Hi. split; [done|]. intros q. rewrite V, decide_False by congruence. done.
Qed.

End handle.

(** ** Two handles of one pool *)

(** A step of one file's access method, seen from another file. *)
Lemma other_handle (h h' : Pool.FileHandle) M s s' :
  Pool.hfile h' ≠ Pool.hfile h → p_inv (PagerView:=pool_view h) M s' → p_others (PagerView:=pool_view h) s s' →
  p_inv (PagerView:=pool_view h') M s →
  p_inv (PagerView:=pool_view h') M s' ∧
  (∀ q, p_page (PagerView:=pool_view h') s' q = p_page (PagerView:=pool_view h') s q) ∧
  p_count (PagerView:=pool_view h') s' = p_count (PagerView:=pool_view h') s.
Proof.
  intros Hne [I _] HO [_ [d Hd]]. destruct (HO _ Hne) as [HN HV]. simpl.
  unfold Pool.numPages, Disk.NumPages in HN. rewrite Hd in *.
  destruct (Pool.idx (Pool.files s') (Pool.hfile h')) as [d'|]; [|done].
  split_and!; [done|by eexists|intros q; by destruct (HV q) as (?&_)|congruence].
Qed.
