(* ===== verification/Callback.v ===== *)
(** * Callbacks of a scan (the [fn] arguments of Heap.Scan in
    src/internal/access/heap/heap.go and BTree.Scan in
    src/internal/access/nbtree/nbtree.go)

    A scan runs its callback while it holds a pin on the current page and no
    lock, so the callback may use the buffer pool itself: read the same file,
    write another one.  [loop_inv] is what a scan needs from its callback, in the
    form of a loop invariant; the scans are proved against it and their clients
    choose the invariant. *)

From S2P Require Import Prelude Bytes PageLayout Disk LRU BufferPool BufferInv PoolSpec Pager.

Module Callback.

(** A closure [func(x I) error]: it may use the pager, of state [W], and its
    captured variables are [A]. *)
Definition callback (W I A : Type) : Type := I → st (W * A) unit.

(** Call [fn] on each item in turn, up to its first error. *)
Fixpoint feed {W I A} (fn : callback W I A) (l : list I) : st (W * A) unit :=
  match l with
  | [] => st_ret tt
  | x :: l => do! _ := fn x in feed fn l
  end.

(** A closure that only uses its captured variables. *)
Definition collect {W I A} (f : I → A → A * option error) : callback W I A := λ x '(s, a),
  let '(a, err) := f x a in
  ((s, a), match err with None => Ret tt | Some e => Fail e end).

Lemma prefix_snoc {I} (L pre : list I) x l : pre ++ x :: l `prefix_of` L →
  pre ++ [x] `prefix_of` L ∧ (pre ++ [x]) ++ l `prefix_of` L.
Proof.
  intros [k ->]. split; [|by rewrite <-app_assoc; exists k]. exists (l ++ k). by rewrite <-!app_assoc.
Qed.

Section spec.
Context {W : Type} {PW : Pager W} {VW : PagerView W} {SW : PagerSpec W}.

(** What a scan and its callback keep of the scanned file: the pages, the pins,
    the places of the pinned pages and the free frames.  Other files may change. *)
Record p_kept (s s' : W) : Prop := PKept {
  kp_inv : p_inv ∅ s → p_inv ∅ s';
  kp_page : ∀ q, p_page s' q = p_page s q;
  kp_pins : ∀ q, p_pins s' q = p_pins s q;
  kp_at : ∀ q, 0 < p_pins s q → p_at s' q = p_at s q;
  kp_count : p_count s' = p_count s;
  kp_room : p_room s' = p_room s;
  kp_healthy : p_healthy s → p_healthy s' }.

#[global] Instance p_kept_preorder : PreOrder p_kept.
Proof.
  split; [by intros s; split|]. intros a b c [I1 P1 N1 A1 C1 R1 H1] [I2 P2 N2 A2 C2 R2 H2].
  split; [auto|intros; by rewrite P2|intros; by rewrite N2| |lia|lia|auto].
  intros q Hq. rewrite A2 by (by rewrite N1). by apply A1.
Qed.

Lemma same_kept s s' : p_inv ∅ s' → p_same s s' → (p_healthy s → p_healthy s') → p_kept s s'.
Proof. by intros I [P N C R O A]. Qed.

(** A state in which a scan that started in [s0] calls its callback: one more
    page may be pinned. *)
Record during (s0 s : W) : Prop := During {
  du_inv : p_inv ∅ s;
  du_page : ∀ q, p_page s q = p_page s0 q;
  du_count : p_count s = p_count s0;
  du_room : (p_room s0 ≤ S (p_room s))%nat;
  du_healthy : p_healthy s0 → p_healthy s }.

Lemma during_kept s0 s s' : during s0 s → p_kept s s' → during s0 s'.
Proof.
  intros [I P C R H] [I' P' _ _ C' R' H']. split; [auto|intros; by rewrite P'|lia|lia|auto].
Qed.
Lemma kept_during s0 s s' : p_kept s0 s → during s s' → during s0 s'.
Proof.
  intros [I P _ _ C R H] [I' P' C' R' H']. split; [auto|intros; by rewrite P'|lia|lia|auto].
Qed.

(** [during], with page [pid] pinned in frame [f] and holding [p]. *)
Definition held (s0 : W) (pid : Z) (f : nat) (p : page) (s : W) : Prop :=
  during s0 s ∧ p_at s pid = Some f ∧ 0 < p_pins s pid ∧ load f s = p.

Lemma held_kept s0 pid f p s s' : held s0 pid f p s → p_kept s s' → held s0 pid f p s'.
Proof.
  intros (D&At&Hp&L) K. pose proof (during_kept _ _ _ D K) as D'. destruct K as [I P N A C R H].
  rewrite <-A in At by done. split_and!; [done|done|by rewrite N|].
  pose proof (at_page _ _ _ _ (du_inv _ _ D') At) as E'. rewrite A in At by done.
  pose proof (at_page _ _ _ _ (du_inv _ _ D) At) as E. rewrite P in E'. congruence.
Qed.

(** Fetching the page a scan is about to visit. *)
Lemma fetch_held s pid s1 rf p :
  p_inv ∅ s → p_page s pid = Some p → FetchPage pid s = (s1, rf) →
  (∃ f, rf = Ret f ∧ held s pid f p s1 ∧ p_others s s1 ∧ p_moved pid 1 s s1 ∧
     (p_room s1 + (if decide (p_pins s pid = 0%Z) then 1 else 0) = p_room s)%nat) ∨
  (∃ e, rf = Fail e ∧ p_kept s s1 ∧ p_others s s1 ∧ ¬ (p_healthy s ∧ (0 < p_room s)%nat)).
Proof.
  intros I Hp EF. assert (0 ≤ pid < p_count s) as Hr by (apply (page_ok ∅ s pid I); eauto).
  destruct (fetch_ok ∅ s pid s1 rf I ltac:(lia) EF) as (I1&Hrf&Hheal).
  destruct rf as [f|e|]; [left|right|done].
  - destruct Hrf as (V&At&L&R). exists f. pose proof V as [P N A C O]. pose proof (pins_ok ∅ s pid I).
    split_and!; [done| |done|done|done]. split; [|split_and!; [done| |congruence]].
    + split; [done|done|done|case_decide; lia|]. intros ?. by apply Hheal.
    + rewrite N, decide_True by done. lia.
  - destruct Hrf as [V R]. pose proof (moved_same _ _ _ V R) as S. exists e. split_and!; [done| |apply S|].
    + apply same_kept; [done..|]. intros ?. by apply Hheal.
    + intros [Hh Hroom]. destruct (Hheal Hh) as [_ Hret]. by specialize (Hret Hr Hroom).
Qed.

(** Releasing it again, after the callbacks. *)
Lemma release_kept s pid f p s1 s1' s2 r :
  held s pid f p s1 → p_inv ∅ s → p_moved pid 1 s s1 →
  (p_room s1 + (if decide (p_pins s pid = 0%Z) then 1 else 0) = p_room s)%nat →
  p_kept s1 s1' → UnpinPage pid false s1' = (s2, r) →
  r = Ret tt ∧ p_kept s s2 ∧ p_inv ∅ s2 ∧ p_others s1' s2.
Proof.
  intros Hh I V R K EU. pose proof (held_kept _ _ _ _ _ _ Hh K) as (D'&At'&Hp'&_).
  destruct (unpin_ok ∅ s1' pid f false s2 r) as (->&I2&V2&R2&H2);
    [apply D'|done|done|right; left; set_solver|done|].
  split_and!; [done| |done|apply V2]. destruct V as [P1 N1 A1 C1 O1], V2 as [P2 N2 A2 C2 O2].
  pose proof Hh as (D&_&_&_). pose proof (du_healthy _ _ D). destruct K as [_ P N A C R' H'].
  pose proof (pins_ok ∅ s pid I) as Hnn.
  assert (p_pins s1' pid = p_pins s pid + 1) as Hpin by (rewrite N, N1, decide_True; done).
  split; [done| | | | | |auto].
  - intros q. by rewrite P2, P, P1.
  - intros q. rewrite N2, N, N1. repeat case_decide; lia.
  - intros q Hq. assert (0 < p_pins s1 q) by (rewrite N1; repeat case_decide; lia).
    rewrite A2; [rewrite A by done; by apply A1|by rewrite N|rewrite N2, N, N1; repeat case_decide; lia].
  - lia.
  - rewrite R2, Hpin, R'. repeat case_decide; lia.
Qed.

(** ** Loop invariants *)

Section invariant.
Context {I A : Type}.

(** A scan over [L] that started in [s0] calls [fn].  [J l s a]: after the items
    [l]; [E l e s a]: after the items [l], the last of which gave the error [e].
    Both may speak of other files, which the scan's own steps leave alone. *)
Record loop_inv (s0 : W) (L : list I) (fn : callback W I A)
    (J : list I → W → A → Prop) (E : list I → error → W → A → Prop) : Prop := LoopInv {
  li_call : ∀ l x s a s' a' r, during s0 s → l ++ [x] `prefix_of` L → J l s a →
    fn x (s, a) = ((s', a'), r) → p_kept s s' ∧
    match r with
    | Ret _ => J (l ++ [x]) s' a'
    | Fail e => E (l ++ [x]) e s' a'
    | Panic => False
    end;
  li_step : ∀ l s s' a, p_inv ∅ s' → p_others s s' → J l s a → J l s' a;
  li_stop : ∀ l e s s' a, p_inv ∅ s' → p_others s s' → E l e s a → E l e s' a }.

(** The items [l] were handed out after [pre], up to the first error. *)
Definition ran (J : list I → W → A → Prop) (E : list I → error → W → A → Prop) (pre l : list I)
    (s : W) (a : A) (r : res unit) : Prop :=
  match r with
  | Ret _ => J (pre ++ l) s a
  | Fail e => ∃ l' x, l' ++ [x] `prefix_of` l ∧ E (pre ++ l' ++ [x]) e s a
  | Panic => False
  end.

Context {s0 : W} {L : list I} {fn : callback W I A}
  {J : list I → W → A → Prop} {E : list I → error → W → A → Prop} (LI : loop_inv s0 L fn J E).

Lemma feed_ok l : ∀ pre s a,
  during s0 s → pre ++ l `prefix_of` L → J pre s a →
  ∃ s' a' r, feed fn l (s, a) = ((s', a'), r) ∧ p_kept s s' ∧ ran J E pre l s' a' r.
Proof.
  induction l as [|x l IH]; intros pre s a D Hl HJ.
  { exists s, a, (Ret tt). split_and!; [done|done|]. simpl. by rewrite app_nil_r. }
  apply prefix_snoc in Hl as [Hx Hl]. simpl. unfold st_bind. destruct (fn x (s, a)) as [[s1 a1] r1] eqn:EF.
  destruct (li_call _ _ _ _ _ LI _ _ _ _ _ _ _ D Hx HJ EF) as [K Hr].
  destruct r1 as [u|e|]; [|exists s1, a1, (Fail e); split_and!; [done..|]|done].
  - destruct (IH (pre ++ [x]) s1 a1) as (s'&a'&r&->&K'&Hr'); [by eapply during_kept|done|done|].
    exists s', a', r. split_and!; [done|by etrans|]. destruct r as [u'|e|]; simpl in *; [by rewrite <-app_assoc in Hr'| |done].
    destruct Hr' as (l'&y&Hp&HE). exists (x :: l'), y. rewrite <-app_assoc in HE. split; [by apply prefix_cons|done].
  - exists [], x. split; [by exists l|done].
Qed.

Lemma ran_step pre l s s' a r : p_inv ∅ s' → p_others s s' → ran J E pre l s a r → ran J E pre l s' a r.
Proof.
  intros I' O. destruct r as [u|e|]; simpl; [by apply (li_step _ _ _ _ _ LI)| |done].
  intros (l'&x&Hp&HE). exists l', x. split; [done|]. by eapply (li_stop _ _ _ _ _ LI).
Qed.

Lemma ran_stop pre l l2 s a e : ran J E pre l s a (Fail e) → ran J E pre (l ++ l2) s a (Fail e).
Proof.
  intros (l'&x&Hp&HE). exists l', x. split; [|done]. etrans; [done|]. by eexists.
Qed.

Lemma ran_app pre l l2 s a r : ran J E (pre ++ l) l2 s a r → ran J E pre (l ++ l2) s a r.
Proof.
  destruct r as [u|e|]; simpl; [by rewrite app_assoc| |done]. intros (l'&x&Hp&HE). exists (l ++ l'), x.
  rewrite <-app_assoc. split; [by apply prefix_app|]. by rewrite <-!app_assoc in *.
Qed.
End invariant.

(** A closure that does not use the pager keeps any fact about its variables. *)
Lemma collect_inv {I A} s0 (L : list I) (f : I → A → A * option error) a0 :
  loop_inv s0 L (collect f)
    (λ l s a, p_others s0 s ∧ feed (collect f) l (s0, a0) = ((s0, a), Ret tt))
    (λ l e s a, p_others s0 s ∧ feed (collect f) l (s0, a0) = ((s0, a), Fail e)).
Proof.
  assert (∀ (l : list I) x a, feed (collect f) l (s0, a0) = ((s0, a), Ret tt) →
    feed (collect f) (l ++ [x]) (s0, a0) = collect f x (s0, a)) as Happ.
  { intros l x. generalize a0. induction l as [|y l IH]; intros a1 a.
    - intros [= <-]. cbn [app feed]. unfold st_bind, st_ret. destruct (collect f x _) as [? [[]|e|]]; done.
    - simpl. unfold st_bind, collect. destruct (f y a1) as [a2 [e|]]; [done|]. apply IH. }
  split.
  - intros l x s a s' a' r D Hp [O HJ] EF. specialize (Happ _ x _ HJ). unfold collect in EF.
    destruct (f x a) as [a2 [e|]] eqn:Ef; injection EF as <- <- <-; (split; [reflexivity|]); (split; [done|]);
      rewrite Happ; unfold collect; by rewrite Ef.
  - intros l s s' a _ O [O' H]. split; [by etrans|done].
  - intros l e s s' a _ O [O' H]. split; [by etrans|done].
Qed.
End spec.

(** ** Two files of one pool *)

(** A step of the access method of [h], seen from the file of [h']. *)
Lemma other_kept (h h' : Pool.FileHandle) s s' :
  Pool.hfile h' ≠ Pool.hfile h → p_inv (PagerView:=pool_view h) ∅ s' → p_others (PagerView:=pool_view h) s s' →
  PoolInv.room s' = PoolInv.room s → (PoolInv.healthy s → PoolInv.healthy s') → p_inv (PagerView:=pool_view h') ∅ s →
  p_kept (VW:=pool_view h') s s'.
Proof.
  intros Hne I O R H I'. destruct (other_handle h h' ∅ s s' Hne I O I') as (I2&P&C).
  destruct (O _ Hne) as [_ HV]. split; simpl; [done|done|intros q; apply (HV q)|intros q; apply (HV q)|done|done|done].
Qed.
End Callback.
