(* ===== verification/Heap.v ===== *)
(** * Package heap: the table access method (src/internal/access/heap/heap.go)

    [Insert], [Get] and [Scan] over any pager, and what they mean: a heap file
    is a list of pages, each a list of tuples ([heap_rep]). *)

From S2P Require Import Prelude Bytes PageLayout SlottedPage Disk LRU BufferPool BufferInv PoolSpec Pager Callback.

Module Heap.
Import Callback.

Record TID := Tid { Page : Z; Slot : Z }.

(** The arguments of a scan's callback: a tuple's id and its bytes. *)
Abbreviation item := (TID * list byte)%type.

Section ops.
Context {W : Type} {PW : Pager W}.

(** The second half of [Insert]: allocate and format a page, insert there. *)
Definition Insert_grow (data : list byte) : st W TID := λ s,
  match NewPageIn s with
  | (s, Fail err) => (s, Fail (Wrapf "heap: insert" err))
  | (s, Panic) => (s, Panic)
  | (s, Ret (raw, pid)) =>
      let s := store raw (SlottedPage.Init (load raw s)) s in
      let '(p, r) := SlottedPage.InsertTuple data (load raw s) in
      let s := store raw p s in
      match r with
      | Panic => (s, Panic)
      | Fail err =>
          (do! _ := ignore (UnpinPage pid true) in
           st_fail (Wrapf "heap: insert: tuple does not fit an empty page" err)) s
      | Ret slot =>
          (do! _ := ignore (UnpinPage pid true) in st_ret (Tid pid slot)) s
      end
  end.

Definition Insert (data : list byte) : st W TID := λ s,
  match NumPages s with
  | Fail e => (s, Fail e)
  | Panic => (s, Panic)
  | Ret n =>
      if 0 <? n then
        let pid := u32 (n - 1) in
        match FetchPage pid s with
        | (s, Fail err) => (s, Fail (Wrapf "heap: insert" err))
        | (s, Panic) => (s, Panic)
        | (s, Ret raw) =>
            let '(p, r) := SlottedPage.InsertTuple data (load raw s) in
            let s := store raw p s in
            match r with
            | Panic => (s, Panic)
            | Ret slot =>
                (do! _ := ignore (UnpinPage pid true) in st_ret (Tid pid slot)) s
            | Fail err =>
                (do! _ := ignore (UnpinPage pid false) in
                 if negb (errors_Is err ErrNoSpace) then st_fail (Wrapf "heap: insert" err)
                 else Insert_grow data) s
            end
        end
      else Insert_grow data s
  end.

(** The body of [Get] between the fetch and the deferred unpin. *)
Definition Get_body (slot : Z) (p : page) : res (list byte) :=
  if SlottedPage.SlotCount p <=? slot then Fail (Errorf "heap: get: slot out of range")
  else
    let! entry := SlottedPage.SlotEntryAt p slot in
    SlottedPage.LocateTupleByEntry p entry.

(** The deferred unpin runs whatever the body did. *)
Definition Get (tid : TID) : st W (list byte) := λ s,
  match FetchPage (Page tid) s with
  | (s, Fail err) => (s, Fail (Wrapf "heap: get" err))
  | (s, Panic) => (s, Panic)
  | (s, Ret raw) =>
      let r := Get_body (Slot tid) (load raw s) in
      match ignore (UnpinPage (Page tid) false) s with
      | (s, Panic) => (s, Panic)
      | (s, _) => (s, r)
      end
  end.

(** [scanPage] on the page in frame [raw]: an error of the callback is kept
    beside its variables and ends the iteration.  The page is read as it is when
    it is read, between the calls of [fn]. *)
Definition scanPage {A} (pid : Z) (raw : nat) (fn : callback W item A) : st (W * A) unit := λ sa,
  let '((sa, err), r) :=
    SlottedPage.Slots (λ '((s, _), _), load raw s) (λ slot entry '(sa, err),
      match SlottedPage.LocateTupleByEntry (load raw sa.1) entry with
      | Ret tup =>
          match fn (Tid pid slot, tup) sa with
          | (sa, Ret _) => ((sa, err), Ret true)
          | (sa, Fail e) => ((sa, Some e), Ret false)
          | (sa, Panic) => ((sa, err), Panic)
          end
      | _ => ((sa, err), Panic)
      end) (sa, None) in
  (sa, match r, err with
       | Ret _, None => Ret tt
       | Ret _, Some e => Fail e
       | _, _ => Panic
       end).

(** [Scan]: the loop re-reads the page count before every page; [None] is a run
    that needs more fuel. *)
Fixpoint Scan_loop {A} (fuel : nat) (pid : Z) (fn : callback W item A) (sa : W * A)
    : option (W * A * res unit) :=
  let '(s, a) := sa in
  match fuel with
  | O => None
  | S fuel =>
      match NumPages s with
      | Ret n =>
          if pid <? n then
            match FetchPage pid s with
            | (s, Fail err) => Some ((s, a), Fail (Wrapf "heap: scan page" err))
            | (s, Panic) => Some ((s, a), Panic)
            | (s, Ret raw) =>
                match scanPage pid raw fn (s, a) with
                | (sa, Panic) => Some (sa, Panic)
                | ((s, a), err) =>
                    match ignore (UnpinPage pid false) s with
                    | (s, Ret _) =>
                        match err with
                        | Ret _ => Scan_loop fuel (u32 (pid + 1)) fn (s, a)
                        | _ => Some ((s, a), err)
                        end
                    | (s, _) => Some ((s, a), Panic)
                    end
                end
            end
          else Some ((s, a), Ret tt)
      | _ => Some ((s, a), Panic)
      end
  end.
Definition Scan {A} (fuel : nat) (fn : callback W item A) (s : W) (a : A) : option (W * A * res unit) :=
  Scan_loop fuel 0 fn (s, a).
End ops.

(** ** Abstract heap *)

Abbreviation tuples := (list (list byte)).

(** Page [i] of the file holds the tuples [tss !! i]. *)
Definition heap_rep {W} `{PagerView W} (s : W) (tss : list tuples) : Prop :=
  p_count s = len tss ∧
  ∀ i ts, tss !! i = Some ts → ∃ p, p_page s (Z.of_nat i) = Some p ∧ SlottedPage.rep p ts.

(** The tuple at a tid. *)
Definition tuple_at (tss : list tuples) (tid : TID) : option (list byte) :=
  ts ← tss !! Z.to_nat (Page tid); ts !! Z.to_nat (Slot tid).

(** Growing by a page, and the whole insertion. *)
Definition spec_grow (tss : list tuples) (data : list byte) : list tuples * option TID :=
  if SlottedPage.fits [] data then (tss ++ [[data]], Some (Tid (len tss) 0)) else (tss ++ [[]], None).
Definition spec_insert (tss : list tuples) (data : list byte) : list tuples * option TID :=
  match last tss with
  | Some ts =>
      if SlottedPage.fits ts data
      then (<[(length tss - 1)%nat := ts ++ [data]]> tss, Some (Tid (len tss - 1) (len ts)))
      else spec_grow tss data
  | None => spec_grow tss data
  end.

(** The tuples in physical order. *)
Fixpoint page_tuples (pid slot : Z) (ts : tuples) : list (TID * list byte) :=
  match ts with
  | [] => []
  | t :: ts => (Tid pid slot, t) :: page_tuples pid (slot + 1) ts
  end.
Fixpoint all_tuples (pid : Z) (tss : list tuples) : list (TID * list byte) :=
  match tss with
  | [] => []
  | ts :: tss => page_tuples pid 0 ts ++ all_tuples (pid + 1) tss
  end.

Lemma ignore_ret {W A} (m : st W A) s s' x : m s = (s', Ret x) → ignore m s = (s', Ret tt).
Proof. unfold ignore. by intros ->. Qed.

(** [Get]'s body on a page that holds [ts]. *)
Lemma Get_body_rep p ts slot :
  SlottedPage.rep p ts → 0 ≤ slot →
  Get_body slot p = match ts !! Z.to_nat slot with
                    | Some t => Ret t
                    | None => Fail (Errorf "heap: get: slot out of range")
                    end.
Proof.
  intros Hrep Hs. unfold Get_body. rewrite (SlottedPage.SlotCount_rep _ _ Hrep).
  destruct (ts !! Z.to_nat slot) as [t|] eqn:E.
  - pose proof (lookup_lt_Some _ _ _ E). rewrite (proj2 (Z.leb_gt _ _)) by lia.
    rewrite <-(Z2Nat.id slot) by done. rewrite (SlottedPage.SlotEntryAt_rep _ _ _ _ Hrep E). simpl.
    by rewrite (SlottedPage.Locate_rep _ _ _ _ Hrep E).
  - apply lookup_ge_None in E. by rewrite (proj2 (Z.leb_le _ _)) by lia.
Qed.

Section proofs.
Context {W : Type} {PW : Pager W} {VW : PagerView W} {SW : PagerSpec W}.

(** What every heap operation guarantees besides its result. *)
Record frame_rule (s s' : W) : Prop := FrameRule {
  fr_inv : p_inv ∅ s';
  fr_pins : ∀ q, p_pins s' q = p_pins s q;
  fr_room : p_room s' = p_room s;
  fr_others : p_others s s';
  fr_healthy : p_healthy s → p_healthy s' }.

Lemma same_rule s s' : p_inv ∅ s' → p_same s s' → (p_healthy s → p_healthy s') → frame_rule s s'.
Proof. by intros I [P N C R O]. Qed.

Lemma rule_trans s1 s2 s3 : frame_rule s1 s2 → frame_rule s2 s3 → frame_rule s1 s3.
Proof.
  intros [I1 N1 R1 O1 H1] [I2 N2 R2 O2 H2]. split; [done| |lia|by etrans|auto].
  intros q. by rewrite N2.
Qed.

Lemma heap_same s s' tss : p_same s s' → heap_rep s tss → heap_rep s' tss.
Proof.
  intros [P N C R O] [Hc Hp]. split; [lia|]. intros i ts Hi. rewrite P. by apply Hp.
Qed.

(** Replacing one page of a heap. *)
Lemma heap_update s s' tss i p ts :
  heap_rep s tss → (i < length tss)%nat → SlottedPage.rep p ts →
  (∀ q, p_page s' q = if decide (q = Z.of_nat i) then Some p else p_page s q) →
  p_count s' = p_count s → heap_rep s' (<[i := ts]> tss).
Proof.
  intros [Hc Hp] Hi Hrep HP HC. split; [rewrite length_insert; lia|].
  intros j us. rewrite list_lookup_insert. case_decide as E.
  - destruct E as [-> _]. intros [= <-]. exists p. rewrite HP, decide_True by done. done.
  - intros Hj. rewrite HP, decide_False; [by apply Hp|]. intros ?. apply E. split; [lia|done].
Qed.

(** Adding one page to a heap. *)
Lemma heap_grow s s' tss p ts :
  heap_rep s tss → SlottedPage.rep p ts →
  (∀ q, p_page s' q = if decide (q = p_count s) then Some p else p_page s q) →
  p_count s' = p_count s + 1 → heap_rep s' (tss ++ [ts]).
Proof.
  intros [Hc Hp] Hrep HP HC. split; [rewrite length_app; simpl; lia|].
  intros j us Hj. rewrite HP. apply lookup_app_Some in Hj as [Hj|[Hge Hj]].
  - pose proof (lookup_lt_Some _ _ _ Hj). rewrite decide_False by lia. by apply Hp.
  - apply list_lookup_singleton_Some in Hj as [Hj ->]. rewrite decide_True by lia. by exists p.
Qed.

Lemma Insert_grow_spec s tss data s' r :
  p_inv ∅ s → heap_rep s tss → Insert_grow data s = (s', r) →
  frame_rule s s' ∧
  match r with
  | Ret tid => spec_grow tss data = ((spec_grow tss data).1, Some tid) ∧ heap_rep s' (spec_grow tss data).1
  | Fail e => heap_rep s' tss ∨
      ((spec_grow tss data).2 = None ∧ heap_rep s' (spec_grow tss data).1 ∧ errors_Is e ErrNoSpace = true)
  | Panic => False
  end ∧
  (p_healthy s → (0 < p_room s)%nat → p_count s < Disk.MaxUint32 →
     match r with
     | Ret _ => True
     | _ => (spec_grow tss data).2 = None
     end).
Proof.
  intros I Hh H. unfold Insert_grow in H. destruct (NewPageIn s) as [s1 rn] eqn:EN.
  destruct (new_ok _ _ _ _ I EN) as (I1&Hrn&Hheal).
  destruct rn as [[f pid]|e|]; [|injection H as <- <-|done].
  2:{ destruct Hrn as [V R]. pose proof (moved_same _ _ _ V R) as S.
      split_and!; [apply same_rule; [done..|]; intros ?; by apply Hheal|left; by eapply heap_same|].
      intros Hs Hr Hc. by destruct (Hheal Hs) as [_ ?%(λ f, f Hr Hc)]. }
  destruct Hrn as ([Hid P1 N1 F1 A1 C1 O1]&At1&L1&R1).
  assert (p_pins s1 pid = 1) as Hpin by (rewrite N1, F1, decide_True; done).
  assert (wf_page (load f s1)) as Hw1.
  { eapply (page_wf ∅ s1 pid); [done|]. by eapply at_page. }
  pose proof (SlottedPage.Init_rep _ Hw1) as HI. set (p1 := SlottedPage.Init (load f s1)) in *.
  destruct (store_ok ∅ s1 pid f p1 I1 At1) as (I2&[P2 N2 A2 C2 R2 H2 O2]&L2); [lia|apply HI|].
  rewrite L2 in H. destruct (SlottedPage.InsertTuple data p1) as [p2 ri] eqn:EI.
  assert (∃ ts, SlottedPage.rep p2 ts ∧
    ((SlottedPage.fits [] data = true ∧ ts = [data] ∧ ri = Ret 0) ∨
     (SlottedPage.fits [] data = false ∧ ts = [] ∧ ri = Fail ErrNoSpace))) as (ts&Hrep&Hcase).
  { destruct (SlottedPage.fits [] data) eqn:Hf.
    - destruct (SlottedPage.InsertTuple_ok _ _ _ HI Hf) as (p'&E&?).
      rewrite EI in E. simplify_eq. exists [data]. split; [done|]. by left.
    - rewrite (SlottedPage.InsertTuple_full _ _ _ HI Hf) in EI. simplify_eq.
      exists []. split; [done|]. by right. }
  destruct (UnpinPage pid true (store f p2 (store f p1 s1))) as [s3 ru] eqn:EU.
  destruct (write_unpin _ (store f p1 s1) pid f p2 s3 ru I2) as (->&I3&P3&N3&C3&R3&O3&H3);
    [by rewrite A2|rewrite N2; lia|apply Hrep|done|].
  assert (frame_rule s s3) as FR.
  { split.
    - by replace ((∅ ∪ {[f]}) ∖ {[f]}) with (∅ : gset nat) in I3 by set_solver.
    - intros q. rewrite N3, N2, N1. case_decide; lia.
    - rewrite R3, R2, N2, Hpin. rewrite decide_True by done. lia.
    - etrans; [done|]. by etrans.
    - intros Hs. by apply H3, H2, Hheal. }
  assert (heap_rep s3 (tss ++ [ts])) as HR.
  { eapply heap_grow; [done|done| |lia].
    intros q. rewrite P3, P2, P1, <-Hid. repeat case_decide; congruence. }
  unfold spec_grow. destruct Hh as [Hcnt _].
  destruct Hcase as [(->&->&->)|(->&->&->)]; unfold st_bind in H;
    rewrite (ignore_ret _ _ _ _ EU) in H; injection H as <- <-.
  - split_and!; try done. simpl. by rewrite Hid, Hcnt.
  - split_and!; try done. right. by split_and!.
Qed.

Lemma heap_last s tss ts :
  heap_rep s tss → last tss = Some ts →
  ∃ p, p_page s (len tss - 1) = Some p ∧ SlottedPage.rep p ts ∧ (0 < length tss)%nat.
Proof.
  intros [_ Hp] Hl. rewrite last_lookup in Hl. pose proof (lookup_lt_Some _ _ _ Hl).
  destruct (Hp _ _ Hl) as (p&Hpg&Hr). exists p. split_and!; [|done|lia].
  by replace (len tss - 1) with (Z.of_nat (Nat.pred (length tss))) by lia.
Qed.

(** The outcome of an insertion against its specification [spec]. *)
Definition insert_ok (tss : list tuples) (spec : list tuples * option TID) (s s' : W) (r : res TID) : Prop :=
  frame_rule s s' ∧
  match r with
  | Ret tid => spec.2 = Some tid ∧ heap_rep s' spec.1
  | Fail e => heap_rep s' tss ∨ (spec.2 = None ∧ heap_rep s' spec.1 ∧ errors_Is e ErrNoSpace = true)
  | Panic => False
  end ∧
  (p_healthy s → (0 < p_room s)%nat → p_count s < Disk.MaxUint32 →
     match r with Ret _ => True | _ => spec.2 = None end).

Lemma grow_ok s s1 tss data s' r :
  frame_rule s s1 → p_same s s1 → heap_rep s1 tss → Insert_grow data s1 = (s', r) →
  insert_ok tss (spec_grow tss data) s s' r.
Proof.
  intros FR S Hh H. destruct (Insert_grow_spec _ _ _ _ _ (fr_inv _ _ FR) Hh H) as (FR'&Hr&Hp).
  split_and!; [by eapply rule_trans| |].
  - destruct r as [tid| |]; [|done|done]. destruct Hr as [E ?]. split; [by rewrite E|done].
  - intros Hs Hrm Hc. apply Hp; [by apply FR|rewrite (ps_room _ _ S); lia|rewrite (ps_count _ _ S); lia].
Qed.

Lemma Insert_spec s tss data s' r :
  p_inv ∅ s → heap_rep s tss → Insert data s = (s', r) →
  insert_ok tss (spec_insert tss data) s s' r.
Proof.
  intros I Hh H. destruct (count_ok _ _ I) as [Hc Hn]. pose proof Hh as [Hcnt _].
  assert (frame_rule s s) as FR0 by (by apply same_rule).
  unfold Insert in H. rewrite Hn, Hcnt in H. unfold spec_insert.
  destruct (last tss) as [ts|] eqn:El.
  2:{ apply last_None in El as ->. simpl in H. by eapply grow_ok. }
  destruct (heap_last _ _ _ Hh El) as (p&Hpg&Hrep&Hlen). unfold Disk.MaxUint32 in Hc.
  rewrite (proj2 (Z.ltb_lt _ _)) in H by lia. rewrite u32_small in H by lia.
  set (pid := len tss - 1) in *. destruct (FetchPage pid s) as [s1 rf] eqn:EF.
  destruct (fetch_ok ∅ s pid s1 rf I ltac:(unfold pid; lia) EF) as (I1&Hrf&Hheal).
  destruct rf as [f|e|]; [|injection H as <- <-|done].
  2:{ destruct Hrf as [V R]. pose proof (moved_same _ _ _ V R) as S.
      split_and!; [apply same_rule; [done..|]; intros ?; by apply Hheal|left; by eapply heap_same|].
      intros Hs Hr _. destruct (Hheal Hs) as [_ Hret]. rewrite Hcnt in Hret.
      by discriminate Hret; [unfold pid; lia|]. }
  destruct Hrf as (V1&At1&L1&R1). assert (load f s1 = p) as Hl by congruence. rewrite Hl in H.
  pose proof (pins_ok _ _ pid I) as Hpn.
  assert (p_pins s1 pid = p_pins s pid + 1) as Hpin by (rewrite (pm_pins _ _ _ _ V1), decide_True; done).
  destruct (SlottedPage.fits ts data) eqn:Hf.
  - destruct (SlottedPage.InsertTuple_ok _ _ _ Hrep Hf) as (p'&E&Hrep'). rewrite E in H.
    destruct (UnpinPage pid true (store f p' s1)) as [s2 ru] eqn:EU.
    destruct (write_unpin ∅ s1 pid f p' s2 ru I1 At1) as (->&I2&P2&N2&C2&R2&O2&H2);
      [lia|apply Hrep'|done|].
    unfold st_bind in H. rewrite (ignore_ret _ _ _ _ EU) in H. injection H as <- <-.
    destruct V1 as [PV NV _ CV OV]. split_and!; [split|done| |done].
    + by replace (∅ ∖ {[f]}) with (∅ : gset nat) in I2 by set_solver.
    + intros q. rewrite N2, NV. case_decide; lia.
    + rewrite R2, Hpin. repeat case_decide; lia.
    + by etrans.
    + intros Hs. by apply H2, Hheal.
    + eapply heap_update; [done|lia|done| |lia]. intros q. rewrite P2, PV.
      replace (Z.of_nat (length tss - 1)) with pid by (unfold pid; lia). done.
  - rewrite (SlottedPage.InsertTuple_full _ _ _ Hrep Hf) in H.
    rewrite <-Hl, (store_load _ _ _ _ I1 At1) in H.
    destruct (UnpinPage pid false s1) as [s2 ru] eqn:EU.
    destruct (fetch_unpin ∅ s pid s1 f s2 ru I) as (->&I2&S2&H2); [unfold pid; lia|set_solver|done|done|].
    unfold st_bind in H. rewrite (ignore_ret _ _ _ _ EU) in H. simpl in H.
    eapply grow_ok; [by apply same_rule|done|by eapply heap_same|done].
Qed.

Lemma Get_spec s tss tid s' r :
  p_inv ∅ s → heap_rep s tss → 0 ≤ Page tid → 0 ≤ Slot tid → Get tid s = (s', r) →
  frame_rule s s' ∧ p_same s s' ∧
  match r with
  | Ret t => tuple_at tss tid = Some t
  | Fail e => True
  | Panic => False
  end ∧
  (p_healthy s → (0 < p_room s)%nat → tuple_at tss tid ≠ None → is_ret r = true).
Proof.
  intros I Hh Hp Hs H. unfold Get in H. destruct (FetchPage (Page tid) s) as [s1 rf] eqn:EF.
  destruct (fetch_ok _ _ _ _ _ I Hp EF) as (I1&Hrf&Hheal). pose proof Hh as [Hcnt Hpg].
  destruct rf as [f|e|]; [|injection H as <- <-|done].
  - destruct Hrf as (V1&At1&L1&R1).
    assert (0 ≤ Page tid < len tss) as Hr by (rewrite <-Hcnt; by eapply (page_ok ∅); eauto).
    destruct (lookup_lt_is_Some_2 tss (Z.to_nat (Page tid))) as [ts Hts]; [lia|].
    destruct (Hpg _ _ Hts) as (p&Hpp&Hrep). rewrite Z2Nat.id in Hpp by done.
    assert (load f s1 = p) as Hl by congruence. rewrite Hl in H. rewrite (Get_body_rep _ _ _ Hrep Hs) in H.
    destruct (UnpinPage (Page tid) false s1) as [s2 ru] eqn:EU.
    destruct (fetch_unpin ∅ s (Page tid) s1 f s2 ru I) as (->&I2&S2&H2); [done|set_solver|done|done|].
    rewrite (ignore_ret _ _ _ _ EU) in H. unfold tuple_at. rewrite Hts. simpl.
    injection H as <- <-. split_and!; [by apply same_rule|done|by destruct (ts !! _)|].
    intros _ _ ?. by destruct (ts !! _).
  - destruct Hrf as [V R]. pose proof (moved_same _ _ _ V R) as S. split_and!; try done.
    + apply same_rule; [done..|]. intros ?. by apply Hheal.
    + intros Hss Hr Ht. destruct (Hheal Hss) as [_ Hret]. enough (is_ret (@Fail nat e) = true) by done. apply Hret; [|done].
      unfold tuple_at in Ht. destruct (tss !! Z.to_nat (Page tid)) eqn:E; [|done].
      apply lookup_lt_Some in E. lia.
Qed.

(** ** Scanning *)

Section scan.
Context {A : Type} {s0 : W} {L : list item} {fn : callback W item A}.
Context {J : list item → W → A → Prop} {E : list item → error → W → A → Prop} (LI : loop_inv s0 L fn J E).

(** The page stays as it is under the callbacks, so its tuples are handed out. *)
Lemma scan_slots pid f p ts ts2 : ∀ ts1 pre s a,
  SlottedPage.rep p ts → ts = ts1 ++ ts2 → held s0 pid f p s →
  pre ++ page_tuples pid (len ts1) ts2 `prefix_of` L → J pre s a →
  SlottedPage.Slots_loop (λ '((s, _), _), load f s) (λ slot entry '(sa, err),
    match SlottedPage.LocateTupleByEntry (load f sa.1) entry with
    | Ret tup =>
        match fn (Tid pid slot, tup) sa with
        | (sa, Ret _) => ((sa, err), Ret true)
        | (sa, Fail e) => ((sa, Some e), Ret false)
        | (sa, Panic) => ((sa, err), Panic)
        end
    | _ => ((sa, err), Panic)
    end) (length ts2) (len ts1) ((s, a), None) =
  match feed fn (page_tuples pid (len ts1) ts2) (s, a) with
  | (sa, Ret _) => ((sa, None), Ret tt)
  | (sa, Fail e) => ((sa, Some e), Ret tt)
  | (sa, Panic) => ((sa, None), Panic)
  end.
Proof.
  induction ts2 as [|t ts2 IH]; intros ts1 pre s a Hrep Hts Hh Hl HJ; [done|].
  assert (ts !! length ts1 = Some t) as Hi by (rewrite Hts; by apply list_lookup_middle).
  pose proof Hh as (D&_&_&HL). simpl in *. apply prefix_snoc in Hl as [Hx Hl]. unfold st_bind at 1, st_lift.
  rewrite HL, (SlottedPage.slotEntryAt_rep _ _ _ _ Hrep Hi). unfold st_bind. simpl.
  rewrite HL, (SlottedPage.Locate_rep _ _ _ _ Hrep Hi).
  destruct (fn (Tid pid (len ts1), t) (s, a)) as [[s1 a1] r] eqn:EF.
  destruct (li_call _ _ _ _ _ LI _ _ _ _ _ _ _ D Hx HJ EF) as [K Hr]. destruct r as [u|e|]; [|done|done].
  pose proof (SlottedPage.rep_bounds _ _ Hrep) as Hb. rewrite Hts, length_app in Hb. simpl in Hb.
  rewrite u16_small by lia. specialize (IH (ts1 ++ [t]) (pre ++ [(Tid pid (len ts1), t)]) s1 a1).
  rewrite length_app in IH. simpl in IH. rewrite Nat2Z.inj_add in IH.
  apply IH; [done|by rewrite <-app_assoc|by eapply held_kept|done|done].
Qed.

Lemma scanPage_feed pid f p ts pre s a :
  SlottedPage.rep p ts → held s0 pid f p s → pre ++ page_tuples pid 0 ts `prefix_of` L → J pre s a →
  scanPage pid f fn (s, a) = feed fn (page_tuples pid 0 ts) (s, a).
Proof.
  intros Hrep Hh Hl HJ. unfold scanPage, SlottedPage.Slots. pose proof Hh as (_&_&_&HL).
  rewrite HL, (SlottedPage.SlotCount_rep _ _ Hrep), Nat2Z.id.
  pose proof (scan_slots pid f p ts ts [] pre s a Hrep eq_refl Hh Hl HJ) as HS.
  change (len []) with 0 in HS. rewrite HS.
  by destruct (feed _ _ _) as [sa [[]|e|]].
Qed.

(** A scan cut short by a page it could not fetch: it handed out exactly the
    tuples of the pages before. *)
Definition scan_cut (pid : Z) (pre : list item) (tss : list tuples) (s : W) (a : A) (r : res unit) : Prop :=
  ∃ n e, (n < length tss)%nat ∧ J (pre ++ all_tuples pid (take n tss)) s a ∧
    r = Fail (Wrapf "heap: scan page" e).

Lemma Scan_loop_spec tss tss2 : ∀ fuel s tss1 pre a,
  p_inv ∅ s → heap_rep s tss → tss = tss1 ++ tss2 → (length tss2 < fuel)%nat →
  p_kept s0 s → pre ++ all_tuples (len tss1) tss2 `prefix_of` L → J pre s a →
  ∃ s' a' r, Scan_loop fuel (len tss1) fn (s, a) = Some ((s', a'), r) ∧ p_inv ∅ s' ∧ p_kept s s' ∧
    (ran J E pre (all_tuples (len tss1) tss2) s' a' r ∨
     scan_cut (len tss1) pre tss2 s' a' r ∧ ¬ (p_healthy s0 ∧ (0 < p_room s0)%nat)).
Proof.
  induction tss2 as [|ts tss2 IH]; intros fuel s tss1 pre a I Hh Htss Hfuel K0 Hl HJ;
    (destruct fuel as [|fuel]; [lia|]); simpl Scan_loop; pose proof Hh as [Hcnt Hpg];
    destruct (count_ok _ _ I) as [Hmax Hn]; rewrite Hn, Hcnt, Htss, length_app; simpl length.
  { rewrite (proj2 (Z.ltb_ge _ _)) by lia. exists s, a, (Ret tt).
    split_and!; [done|done|reflexivity|]. left. simpl. by rewrite app_nil_r. }
  rewrite (proj2 (Z.ltb_lt _ _)) by lia.
  assert (tss !! length tss1 = Some ts) as Hi by (rewrite Htss; by apply list_lookup_middle).
  destruct (Hpg _ _ Hi) as (p&Hpp&Hrep). simpl in Hfuel, Hl.
  destruct (FetchPage (len tss1) s) as [s1 rf] eqn:EF.
  destruct (fetch_held _ _ _ _ _ I Hpp EF) as [(f&->&Hf&O1&V1&R1)|(e&->&K1&O1&Hbad)].
  2:{ exists s1, a, (Fail (Wrapf "heap: scan page" e)). split_and!; [done|by apply K1|done|right].
      split; [|intros [H R]; apply Hbad; split; [by apply K0|rewrite (kp_room _ _ K0); lia]].
      exists 0%nat, e. split_and!; [simpl; lia| |done]. simpl. rewrite app_nil_r.
      eapply (li_step _ _ _ _ _ LI); [by apply K1|done|done]. }
  assert (held s0 (len tss1) f p s1) as Hf0 by (destruct Hf as [D ?]; split; [by eapply kept_during|done]).
  apply (li_step _ _ _ _ _ LI _ _ s1) in HJ; [|apply Hf0|done].
  assert (pre ++ page_tuples (len tss1) 0 ts `prefix_of` L) as Hl1.
  { etrans; [|exact Hl]. rewrite app_assoc. by eexists. }
  rewrite (scanPage_feed _ _ _ _ _ _ _ Hrep Hf0 Hl1 HJ).
  destruct (feed_ok LI _ _ _ _ (proj1 Hf0) Hl1 HJ) as (s1'&a1&r1&->&K1&Hr1).
  destruct (UnpinPage (len tss1) false s1') as [s2 ru] eqn:EU.
  destruct (release_kept _ _ _ _ _ _ _ _ Hf I V1 R1 K1 EU) as (->&K2&I2&O2).
  rewrite (ignore_ret _ _ _ _ EU). apply (ran_step LI _ _ _ s2) in Hr1; [|done|done].
  destruct r1 as [u|e|]; [|exists s2, a1, (Fail e); split_and!; [done..|left]; by apply ran_stop|done].
  unfold Disk.MaxUint32 in Hmax. rewrite Hcnt, Htss, length_app in Hmax. simpl in Hmax.
  rewrite u32_small by lia. assert (len tss1 + 1 = len (tss1 ++ [ts])) as El by (rewrite length_app; simpl; lia).
  rewrite El in *. destruct (IH fuel s2 (tss1 ++ [ts]) (pre ++ page_tuples (len tss1) 0 ts) a1)
    as (s'&a'&r&HE&I'&K'&Hout);
    [done|split; [by rewrite (kp_count _ _ K2)|]; intros ???; rewrite (kp_page _ _ K2); by apply Hpg
    |by rewrite <-app_assoc|lia|by etrans|by rewrite <-app_assoc|done|].
  exists s', a', r. split_and!; [done|done|by etrans|].
  destruct Hout as [Hs|[(n&e&Hlt&Hf'&->) Hb]]; [left|right; split; [exists (S n), e|done]].
  - simpl. rewrite El. by apply ran_app.
  - split_and!; [simpl; lia| |done]. simpl. by rewrite El, app_assoc.
Qed.
End scan.

Lemma spec_insert_at tss data tss' tid :
  spec_insert tss data = (tss', Some tid) →
  tuple_at tss' tid = Some data ∧ 0 ≤ Page tid ∧ 0 ≤ Slot tid ∧
  tuple_at tss tid = None ∧
  (∀ tid' t, tuple_at tss tid' = Some t → tuple_at tss' tid' = Some t).
Proof.
  assert (spec_grow tss data = (tss', Some tid) →
    tuple_at tss' tid = Some data ∧ 0 ≤ Page tid ∧ 0 ≤ Slot tid ∧ tuple_at tss tid = None ∧
    (∀ tid' t, tuple_at tss tid' = Some t → tuple_at tss' tid' = Some t)) as Hgrow.
  { unfold spec_grow. case_match; [|done]. intros [= <- <-]. unfold tuple_at. simpl. rewrite Nat2Z.id.
    split_and!; [by rewrite list_lookup_middle|lia|lia|by rewrite (proj2 (lookup_ge_None _ _))|].
    intros tid' t Ht. destruct (tss !! Z.to_nat (Page tid')) as [ts|] eqn:E; [|done].
    by rewrite (lookup_app_l_Some _ _ _ _ E). }
  unfold spec_insert. destruct (last tss) as [ts|] eqn:El; [|done].
  case_match; [|done]. intros [= <- <-]. rewrite last_lookup in El.
  replace (Nat.pred (length tss)) with (length tss - 1)%nat in El by lia.
  pose proof (lookup_lt_Some _ _ _ El). unfold tuple_at. simpl.
  replace (Z.to_nat (len tss - 1)) with (length tss - 1)%nat by lia. rewrite Nat2Z.id. split_and!.
  - rewrite list_lookup_insert_eq by done. simpl. by apply list_lookup_middle.
  - lia.
  - lia.
  - rewrite El. simpl. by apply lookup_ge_None.
  - intros tid' t Ht. rewrite list_lookup_insert. case_decide as E.
    + destruct E as [E _]. rewrite <-E, El in Ht. simpl in *. by apply lookup_app_l_Some.
    + done.
Qed.

(** C7: [Insert] on every branch, over any pager.  A heap whose pages hold [tss]
    afterwards holds what the specification says: the tuple appended to the last
    page if it fits there, else alone on a new page, with the tid of that place;
    a tuple too large for an empty page gives ErrNoSpace and leaves one valid
    empty page behind; after an I/O error the heap is unchanged.  Every pin is
    given back, no other file is touched, and on a healthy pager with a free
    frame the only failure is a tuple too large for a page. *)
Theorem Insert_refines s tss data s' r :
  p_inv ∅ s → heap_rep s tss → Insert data s = (s', r) →
  p_inv ∅ s' ∧ (∀ q, p_pins s' q = p_pins s q) ∧ p_room s' = p_room s ∧ p_others s s' ∧
  match r with
  | Ret tid => spec_insert tss data = ((spec_insert tss data).1, Some tid) ∧
               heap_rep s' (spec_insert tss data).1
  | Fail e => heap_rep s' tss ∨
      (SlottedPage.fits [] data = false ∧ heap_rep s' (tss ++ [[]]) ∧ errors_Is e ErrNoSpace = true)
  | Panic => False
  end ∧
  (p_healthy s → (0 < p_room s)%nat → p_count s < Disk.MaxUint32 →
     is_ret r = true ∨ SlottedPage.fits [] data = false).
Proof.
  intros I Hh H. destruct (Insert_spec _ _ _ _ _ I Hh H) as ([I' N R O He]&Hr&Hp).
  assert ((spec_insert tss data).2 = None →
          SlottedPage.fits [] data = false ∧ (spec_insert tss data).1 = tss ++ [[]]) as HN.
  { unfold spec_insert, spec_grow. by repeat case_match. }
  split_and!; try done.
  - destruct r as [tid|e|]; [|destruct Hr as [?|(Hn&Hr&?)]; [by left|right]|done].
    + destruct Hr as [E ?]. split; [by rewrite <-E, <-surjective_pairing|done].
    + destruct (HN Hn) as [? E]. by rewrite E in Hr.
  - intros Hs Hrm Hc. specialize (Hp Hs Hrm Hc). destruct r; [by left|right; by apply HN..].
Qed.

(** C3: insert then get, into any heap, also an empty one.  The tid [Insert]
    returns was unused, [Get] of it then returns the inserted bytes and [Get] of
    any tid that held a tuple before still returns that tuple, unless the pager
    fails; on a healthy pager with a free frame both succeed.  A [Get] changes
    nothing. *)
Theorem insert_then_get s tss data s1 tid s2 r2 :
  p_inv ∅ s → heap_rep s tss → Insert data s = (s1, Ret tid) → Get tid s1 = (s2, r2) →
  tuple_at tss tid = None ∧ p_same s1 s2 ∧ (r2 = Ret data ∨ ∃ e, r2 = Fail e) ∧
  (p_healthy s → (0 < p_room s)%nat → r2 = Ret data) ∧
  (∀ tid' t s3 r3, 0 ≤ Page tid' → 0 ≤ Slot tid' → tuple_at tss tid' = Some t → Get tid' s2 = (s3, r3) →
     p_same s2 s3 ∧ (r3 = Ret t ∨ ∃ e, r3 = Fail e) ∧
     (p_healthy s → (0 < p_room s)%nat → r3 = Ret t)).
Proof.
  intros I Hh HI HG.
  destruct (Insert_spec _ _ _ _ _ I Hh HI) as (FR1&[Hspec Hh1]&_).
  destruct (spec_insert tss data) as [tss' o] eqn:E. simpl in *. subst o.
  destruct (spec_insert_at _ _ _ _ E) as (Hat&Hp&Hs&Hnew&Hold).
  destruct (Get_spec _ _ _ _ _ (fr_inv _ _ FR1) Hh1 Hp Hs HG) as (FR2&S2&Hr2&Hok2).
  pose proof (heap_same _ _ _ S2 Hh1) as Hh2. rewrite Hat in Hok2.
  assert (p_healthy s → (0 < p_room s)%nat → p_healthy s1 ∧ (0 < p_room s1)%nat) as Hable.
  { intros Hheal Hroom. rewrite (fr_room _ _ FR1). split; [by apply (fr_healthy _ _ FR1)|done]. }
  split_and!; [done|done|destruct r2; [left; congruence|right; eauto|done]| |].
  - intros Hheal Hroom. destruct (Hable Hheal Hroom) as [H1 H2]. specialize (Hok2 H1 H2).
    destruct r2 as [t2| |]; [|by discriminate Hok2..]. congruence.
  - intros tid' t s3 r3 Hp' Hs' Ht' HG'. pose proof (Hold _ _ Ht') as Ht2.
    destruct (Get_spec _ _ _ _ _ (fr_inv _ _ FR2) Hh2 Hp' Hs' HG') as (FR3&S3&Hr3&Hok3). rewrite Ht2 in Hok3.
    split_and!; [done|destruct r3; [left; congruence|right; eauto|done]|].
    intros Hheal Hroom. destruct (Hable Hheal Hroom) as [H1 H2]. rewrite <-(fr_room _ _ FR2) in H2.
    specialize (Hok3 (fr_healthy _ _ FR2 H1) H2).
    destruct r3 as [t3| |]; [|by discriminate Hok3..]. congruence.
Qed.

(** [Get] of a tid no tuple has: a page outside the file or a slot outside
    the page gives an error and never a panic or a tuple; in every case the
    pages, the pins and the free frames are as before. *)
Theorem Get_absent s tss tid s' r :
  p_inv ∅ s → heap_rep s tss → 0 ≤ Page tid → 0 ≤ Slot tid → tuple_at tss tid = None →
  Get tid s = (s', r) →
  p_same s s' ∧ p_inv ∅ s' ∧ ∃ e, r = Fail e.
Proof.
  intros I Hh Hp Hs Hn H. destruct (Get_spec _ _ _ _ _ I Hh Hp Hs H) as (FR&S&Hr&_).
  split_and!; [done|by apply FR|]. destruct r; [congruence|eauto|done].
Qed.

(** C28: [Scan] terminates within one round per page and one to stop, and hands
    the callback every tuple of the heap with its tid in physical order, stopping
    at its first error, which it returns.  The callback may use the pool: it has to
    give back its pins, leave this file as it is (it may not insert into the heap
    that is scanned) and not panic, and [J] is any invariant of
    its own over its variables and the other files, which the scan does not
    disturb.  If a page cannot be fetched the scan stops with that error, having
    handed out exactly the tuples of the pages before; on a healthy pager with a
    free frame that does not happen.  Every page is unpinned again, whatever the
    callback returned. *)
Theorem Scan_visits_all {A} (fn : callback W item A) J E fuel s tss a :
  p_inv ∅ s → heap_rep s tss → (length tss < fuel)%nat →
  loop_inv s (all_tuples 0 tss) fn J E → J [] s a →
  ∃ s' a' r, Scan fuel fn s a = Some ((s', a'), r) ∧ p_inv ∅ s' ∧ p_kept s s' ∧
    (ran J E [] (all_tuples 0 tss) s' a' r ∨
     scan_cut (J:=J) 0 [] tss s' a' r ∧ ¬ (p_healthy s ∧ (0 < p_room s)%nat)).
Proof.
  intros I Hh Hf LI HJ. by apply (Scan_loop_spec LI tss tss fuel s [] [] a).
Qed.
End proofs.

(** The physical order lists exactly the tuples of the heap. *)
Lemma page_tuples_lookup pid ts : ∀ slot j,
  page_tuples pid slot ts !! j = (λ t, (Tid pid (slot + Z.of_nat j), t)) <$> ts !! j.
Proof.
  induction ts as [|t ts IH]; intros slot j; [done|]. destruct j as [|j]; simpl.
  - by rewrite Z.add_0_r.
  - rewrite IH. by replace (slot + 1 + Z.of_nat j) with (slot + Z.of_nat (S j)) by lia.
Qed.

Lemma all_tuples_elem tss : ∀ pid tid t,
  (tid, t) ∈ all_tuples pid tss ↔
  ∃ i j ts, tss !! i = Some ts ∧ ts !! j = Some t ∧ tid = Tid (pid + Z.of_nat i) (Z.of_nat j).
Proof.
  induction tss as [|ts tss IH]; intros pid tid t; simpl.
  { split; [intros H; by apply elem_of_nil in H|]. by intros (i&j&ts&H&_). }
  rewrite elem_of_app, IH. split.
  - intros [[j Hj]%list_elem_of_lookup|(i&j&us&Hi&Hj&->)].
    + rewrite page_tuples_lookup in Hj. apply fmap_Some in Hj as (t'&Hj&[= -> ->]).
      exists 0%nat, j, ts. split_and!; try done. f_equal; lia.
    + exists (S i), j, us. split_and!; try done. f_equal; lia.
  - intros ([|i]&j&us&Hi&Hj&->); simpl in Hi; [left; simplify_eq|right].
    + apply list_elem_of_lookup. exists j. rewrite page_tuples_lookup, Hj. simpl. do 3 f_equal. lia.
    + exists i, j, us. split_and!; try done. f_equal; lia.
Qed.

(** the sequence a scan feeds to its callback is complete and exact: a tid
    and its bytes occur in it exactly when [Get] would find those bytes there. *)
Theorem scan_order_exact tss tid t :
  (tid, t) ∈ all_tuples 0 tss ↔ 0 ≤ Page tid ∧ 0 ≤ Slot tid ∧ tuple_at tss tid = Some t.
Proof.
  rewrite all_tuples_elem. unfold tuple_at. split.
  - intros (i&j&ts&Hi&Hj&->). cbn [Page Slot]. rewrite Z.add_0_l, !Nat2Z.id, Hi. simpl. split_and!; [lia..|done].
  - destruct tid as [p q]. simpl. intros (Hp&Hq&H).
    destruct (tss !! Z.to_nat p) as [ts|] eqn:E; [|done].
    exists (Z.to_nat p), (Z.to_nat q), ts. split_and!; try done. f_equal; lia.
Qed.

(** ** Witnesses: a heap over the buffer pool, one frame, one empty file *)

Section witnesses.
Import Pool PoolSpec.

Definition ex_h : FileHandle := Handle 0.
#[local] Instance ex_pager : Pager BufferPool := pool_pager ex_h.
#[local] Instance ex_view : PagerView BufferPool := pool_view ex_h.
#[local] Instance ex_spec : PagerSpec BufferPool := pool_pager_spec ex_h.

Definition ex_heap0 : BufferPool := ex_bp 1 [ORegister Disk.empty_disk].
Definition ex_heap1 : BufferPool := (Insert [x2a] ex_heap0).1.

Lemma ex_heap0_inv : p_inv ∅ ex_heap0.
Proof.
  split; [|vm_compute; eauto].
  assert (hist (ex_fresh 1) (ex_hist 1 [ORegister Disk.empty_disk]) ∅ ex_heap0) as H.
  { apply (ex_reach 1 [ORegister Disk.empty_disk]). vm_compute. reflexivity. }
  exact (proj1 (hist_inv (poolSize:=1) (bp0:=ex_fresh 1) eq_refl _ _ _ H)).
Qed.

Lemma ex_heap0_rep : heap_rep ex_heap0 [].
Proof. split; [vm_compute; reflexivity|]. intros i ts Hi. by rewrite lookup_nil in Hi. Qed.

Lemma ex_heap1_rep : p_inv ∅ ex_heap1 ∧ heap_rep ex_heap1 [[[x2a]]].
Proof.
  assert (Insert [x2a] ex_heap0 = (ex_heap1, Ret (Tid 0 0))) as E by (vm_compute; reflexivity).
  destruct (Insert_spec _ _ _ _ _ ex_heap0_inv ex_heap0_rep E) as (FR&[_ Hh]&_).
  split; [apply FR|exact Hh].
Qed.

Lemma Insert_refines_witness :
  p_inv ∅ (Insert [x2a] ex_heap0).1 ∧ heap_rep (Insert [x2a] ex_heap0).1 [[[x2a]]].
Proof.
  destruct (Insert_refines ex_heap0 [] [x2a] (Insert [x2a] ex_heap0).1 (Ret (Tid 0 0))
    ex_heap0_inv ex_heap0_rep) as (H1&_&_&_&[_ H2]&_); [vm_compute; reflexivity|].
  split; [exact H1|exact H2].
Defined.

Definition ex_heap2 : BufferPool := (Insert [x2b] ex_heap1).1.
Definition ex_heap3 : BufferPool := (Get (Tid 0 1) ex_heap2).1.

Lemma insert_then_get_witness :
  p_same ex_heap2 ex_heap3 ∧
  (Get (Tid 0 1) ex_heap2).2 = Ret [x2b] ∧ (Get (Tid 0 0) ex_heap3).2 = Ret [x2a].
Proof.
  assert (p_healthy ex_heap1) as Hh by (apply PoolSpec.healthy_forall; vm_compute; repeat constructor).
  assert (0 < p_room ex_heap1)%nat as Hr by (vm_compute; lia).
  destruct (insert_then_get ex_heap1 [[[x2a]]] [x2b] ex_heap2 (Tid 0 1)
    ex_heap3 (Get (Tid 0 1) ex_heap2).2
    (proj1 ex_heap1_rep) (proj2 ex_heap1_rep)) as (_&H2&_&H3&H4).
  - vm_compute. reflexivity.
  - apply surjective_pairing.
  - split; [exact H2|]. split; [exact (H3 Hh Hr)|].
    destruct (H4 (Tid 0 0) [x2a] (Get (Tid 0 0) ex_heap3).1 (Get (Tid 0 0) ex_heap3).2 (Z.le_refl 0) (Z.le_refl 0)
      eq_refl (surjective_pairing _)) as (_&_&H5). exact (H5 Hh Hr).
Defined.

Lemma Get_absent_witness : ∃ e, (Get (Tid 0 7) ex_heap1).2 = Fail e.
Proof.
  apply (Get_absent ex_heap1 [[[x2a]]] (Tid 0 7) (Get (Tid 0 7) ex_heap1).1 _
    (proj1 ex_heap1_rep) (proj2 ex_heap1_rep)); [done|done|done|apply surjective_pairing].
Defined.

Definition ex_seen : callback BufferPool item (list item) := collect (λ x a, (a ++ [x], None)).

Lemma Scan_visits_all_witness :
  ∃ s', Scan 2 ex_seen ex_heap1 [] = Some ((s', [(Tid 0 0, [x2a])]), Ret tt) ∧ p_kept ex_heap1 s'.
Proof.
  destruct (Scan_visits_all ex_seen _ _ 2 ex_heap1 [[[x2a]]] [] (proj1 ex_heap1_rep) (proj2 ex_heap1_rep)
    ltac:(simpl; lia) (collect_inv ex_heap1 _ _ []) ltac:(by split)) as (s'&a'&r&H&_&HK&[Hr|[_ Hn]]).
  - exists s'. rewrite H. split; [|exact HK]. destruct r as [[]|e|]; [|exfalso|destruct Hr].
    + destruct Hr as [_ Hr]. assert (a' = [(Tid 0 0, [x2a])]) as -> by exact (eq_sym (f_equal (λ z, z.1.2) Hr)). reflexivity.
    + destruct Hr as (l&x&[k Hk]&_&Hr). apply (f_equal snd) in Hr.
      destruct l as [|y [|z l]]; [injection Hk as <- _; discriminate Hr|discriminate Hk..].
  - exfalso. apply Hn. split; [apply PoolSpec.healthy_forall; vm_compute; repeat constructor|vm_compute; lia].
Defined.
End witnesses.

End Heap.
