(* ===== verification/Record.v ===== *)
(** * Package record: rows as tuple bytes (src/internal/record/record.go)

    [Encode] and [Decode] of a schema, every loop and error branch of the
    source.  A Go string is its list of bytes; a row value is an [any] that is
    nil, an int64, a string, or something else. *)

From S2P Require Import Prelude Bytes Bits PageLayout.
Import Bits.

Module Record.
Import TupleHeader.

Definition TypeInt : Z := 0.
Definition TypeText : Z := 1.

Record Column := Col { Name : string; Type_ : Z; Nullable : bool }.
Record Schema := MkSchema { Columns : list Column }.

Inductive value :=
| VNil
| VInt (n : Z)
| VText (s : list byte)
| VOther.
Abbreviation Row := (list value).

#[global] Instance value_eq_dec : EqDecision value.
Proof. solve_decision. Defined.

Definition MaxUint16 : Z := 65535.

(** The first loop of [Encode]: check every value, find whether there is a NULL
    and size the column data. *)
Fixpoint validate (cols : list Column) (row : Row) (hasNull : bool) (dataLen : Z) : res (bool * Z) :=
  match cols, row with
  | [], _ => Ret (hasNull, dataLen)
  | _ :: _, [] => Panic
  | col :: cols, VNil :: row =>
      if negb (Nullable col) then Fail (Errorf "record: column is not nullable but value is nil")
      else validate cols row true dataLen
  | col :: cols, v :: row =>
      if Type_ col =? TypeInt then
        match v with
        | VInt _ => validate cols row hasNull (dataLen + 8)
        | _ => Fail (Errorf "record: column expects int64")
        end
      else if Type_ col =? TypeText then
        match v with
        | VText str =>
            if MaxUint16 <? len str then Fail (Errorf "record: column text too long")
            else validate cols row hasNull (dataLen + (2 + len str))
        | _ => Fail (Errorf "record: column expects string")
        end
      else Fail (Errorf "record: column has unknown type")
  end.

Definition bitmap_size (hasNull : bool) (n : Z) : Z := if hasNull then (n + 7) / 8 else 0.

(** The header: [h] is a view of the first 12 bytes of [buf]. *)
Definition write_header (ncols hoff : Z) (hasNull : bool) (buf : list byte) : res (list byte) :=
  let! h := Tuple_TupleHeader buf in
  let! h := res_wrap "record" (SetColumnCount h (u16 ncols)) in
  let h := SetHoff h (u8 hoff) in
  let! h := if hasNull
            then match SetFlags h FlagHasNull with Fail _ => Ret h | r => r end
            else Ret h in
  Ret (splice 0 h buf).

(** The second loop: [bitmap[i/8] |= 1 << (i % 8)] for every NULL, where
    [bitmap] is [buf[12:hoff]]. *)
Fixpoint mark_nulls (hoff i : Z) (row : Row) (buf : list byte) : res (list byte) :=
  match row with
  | [] => Ret buf
  | VNil :: row =>
      if TupleHeaderSize + i / 8 <? hoff then
        let at_ := TupleHeaderSize + i / 8 in
        mark_nulls hoff (i + 1) row
          (be_set at_ 1 (Z.lor (be_at at_ 1 buf) (u8 (Z.shiftl 1 (i mod 8)))) buf)
      else Panic
  | _ :: row => mark_nulls hoff (i + 1) row buf
  end.

(** The third loop: the data of the non-NULL columns. *)
Fixpoint put_columns (cols : list Column) (row : Row) (pos : Z) (buf : list byte) : res (list byte) :=
  match cols, row with
  | [], _ => Ret buf
  | _ :: _, [] => Panic
  | _ :: cols, VNil :: row => put_columns cols row pos buf
  | col :: cols, v :: row =>
      if Type_ col =? TypeInt then
        match v with
        | VInt n =>
            let! buf := PutUintAt 8 pos (u64 n) buf in
            put_columns cols row (pos + 8) buf
        | _ => Panic
        end
      else if Type_ col =? TypeText then
        match v with
        | VText str =>
            let! buf := PutUintAt 2 pos (u16 (len str)) buf in
            let pos := pos + 2 in
            let! dst := slice pos (len buf) buf in
            let n := Z.min (len dst) (len str) in
            put_columns cols row (pos + n) (splice pos (sub 0 n str) buf)
        | _ => Panic
        end
      else put_columns cols row pos buf
  end.

Definition Encode (s : Schema) (row : Row) : res (list byte) :=
  if negb (len row =? len (Columns s)) then Fail (Errorf "record: row length differs from schema")
  else
    let! (hasNull, dataLen) := validate (Columns s) row false 0 in
    let bitmapSize := bitmap_size hasNull (len (Columns s)) in
    let hoff := TupleHeaderSize + bitmapSize in
    let buf := zeroes (hoff + dataLen) in
    let! buf := write_header (len (Columns s)) hoff hasNull buf in
    let! buf := mark_nulls hoff 0 row buf in
    put_columns (Columns s) row hoff buf.

(** The loop of [Decode], from column [i] and byte [pos]. *)
Fixpoint read_columns (data bitmap : list byte) (hasNull : bool) (cols : list Column) (i pos : Z)
    : res Row :=
  match cols with
  | [] => Ret []
  | col :: cols =>
      let! isNull := if hasNull
                     then let! b := UintAt 1 (i / 8) bitmap in
                          Ret (negb (Z.land b (u8 (Z.shiftl 1 (i mod 8))) =? 0))
                     else Ret false in
      if isNull : bool then
        let! row := read_columns data bitmap hasNull cols (i + 1) pos in Ret (VNil :: row)
      else if Type_ col =? TypeInt then
        if len data <? pos + 8 then Fail (Errorf "record: truncated int at column")
        else
          let! x := UintAt 8 pos data in
          let! row := read_columns data bitmap hasNull cols (i + 1) (pos + 8) in
          Ret (VInt (i64 x) :: row)
      else if Type_ col =? TypeText then
        if len data <? pos + 2 then Fail (Errorf "record: truncated text length at column")
        else
          let! n := UintAt 2 pos data in
          let pos := pos + 2 in
          if len data <? pos + n then Fail (Errorf "record: truncated text at column")
          else
            let! str := slice pos (pos + n) data in
            let! row := read_columns data bitmap hasNull cols (i + 1) (pos + n) in
            Ret (VText str :: row)
      else Fail (Errorf "record: column has unknown type")
  end.

Definition Decode (s : Schema) (data : list byte) : res Row :=
  let th := TupleHeaderSize in
  if len data <? th then Fail (Errorf "record: shorter than the header")
  else
    let! h := Tuple_TupleHeader data in
    if negb (ColumnCount h =? len (Columns s)) then Fail (Errorf "record: column count differs from schema")
    else
      let bitmapSize := bitmap_size (HasNull h) (len (Columns s)) in
      let hoff := th + bitmapSize in
      if negb (Hoff h =? hoff) then Fail (Errorf "record: header offset inconsistent")
      else if len data <? hoff then Fail (Errorf "record: truncated before column data")
      else
        let! bitmap := slice th hoff data in
        read_columns data bitmap (HasNull h) (Columns s) 0 hoff.

(** ** Reference layout *)

(** A value its column admits. *)
Definition valid_value (col : Column) (v : value) : bool :=
  match v with
  | VNil => Nullable col
  | VInt _ => Type_ col =? TypeInt
  | VText str => (Type_ col =? TypeText) && (len str <=? MaxUint16)
  | VOther => false
  end.

Fixpoint valid_row (cols : list Column) (row : Row) : bool :=
  match cols, row with
  | [], [] => true
  | col :: cols, v :: row => valid_value col v && valid_row cols row
  | _, _ => false
  end.

Definition is_nil (v : value) : bool := match v with VNil => true | _ => false end.
Definition has_null (row : Row) : bool := existsb is_nil row.

(** A value of the Go type it claims to be. *)
Definition go_value (v : value) : Prop :=
  match v with VInt n => - 2 ^ 63 ≤ n < 2 ^ 63 | _ => True end.

Definition col_bytes (v : value) : list byte :=
  match v with
  | VInt n => be_put 8 (u64 n)
  | VText str => be_put 2 (len str) ++ str
  | _ => []
  end.
Definition row_bytes (row : Row) : list byte := concat (col_bytes <$> row).

(** Bit [i] of the null bitmap of a tuple. *)
Definition null_bit (buf : list byte) (i : Z) : bool :=
  Z.testbit (be_at (TupleHeaderSize + i / 8) 1 buf) (i mod 8).

Lemma row_bytes_cons v row : row_bytes (v :: row) = col_bytes v ++ row_bytes row.
Proof. done. Qed.

Lemma validate_spec cols row hn dl :
  length row = length cols →
  if valid_row cols row
  then validate cols row hn dl = Ret (hn || has_null row, dl + len (row_bytes row))
  else ∃ msg, validate cols row hn dl = Fail (Errorf msg).
Proof.
  revert row hn dl. induction cols as [|col cols IH]; intros [|v row] hn dl Hl; try done.
  { simpl. rewrite orb_false_r. by rewrite Z.add_0_r. }
  injection Hl as Hl. rewrite row_bytes_cons, length_app. simpl valid_row.
  destruct v as [|n|str|]; simpl validate; simpl valid_value; simpl has_null; simpl col_bytes.
  - destruct (Nullable col); simpl; [|eauto]. specialize (IH row true dl Hl).
    destruct (valid_row cols row); [|done]. rewrite IH. by rewrite orb_true_r.
  - destruct (Z.eqb_spec (Type_ col) TypeInt); simpl; [|by case_match; eauto].
    specialize (IH row hn (dl + 8) Hl). destruct (valid_row cols row); [|done]. rewrite IH.
    do 2 f_equal. lia.
  - destruct (Z.eqb_spec (Type_ col) TypeText) as [E|]; simpl.
    + rewrite E. simpl. destruct (Z.ltb_spec MaxUint16 (len str)).
      * rewrite (proj2 (Z.leb_gt _ _)) by done. simpl. eauto.
      * rewrite (proj2 (Z.leb_le _ _)) by done. simpl.
        specialize (IH row hn (dl + (2 + len str)) Hl). destruct (valid_row cols row); [|done].
        rewrite IH. do 2 f_equal. simpl. lia.
    + case_match; eauto.
  - simpl. repeat case_match; eauto.
Qed.

(** ** The null bitmap *)

(** Setting one bit of a byte. *)
Lemma set_bit_byte b k j :
  0 ≤ b < 256 → 0 ≤ k < 8 → 0 ≤ j →
  0 ≤ Z.lor b (u8 (Z.shiftl 1 k)) < 256 ∧
  Z.testbit (Z.lor b (u8 (Z.shiftl 1 k))) j = Z.testbit b j || bool_decide (j = k).
Proof.
  intros Hb Hk Hj. rewrite Z.shiftl_1_l.
  assert (0 < 2 ^ k < 256) as Hp.
  { split; [lia|]. change 256 with (2 ^ 8). apply Z.pow_lt_mono_r; lia. }
  unfold u8. rewrite Z.mod_small by (change (2 ^ 8) with 256; lia). split.
  - split; [apply Z.lor_nonneg; lia|].
    destruct (decide (Z.lor b (2 ^ k) = 0)) as [->|]; [done|].
    change 256 with (2 ^ 8). apply Z.log2_lt_pow2; [pose proof (Z.lor_nonneg b (2 ^ k)); lia|].
    rewrite Z.log2_lor by lia. rewrite Z.log2_pow2 by lia. apply Z.max_lub_lt; [|lia].
    destruct (decide (b = 0)) as [->|]; [done|]. apply Z.log2_lt_pow2; lia.
  - rewrite Z.lor_spec, Z.pow2_bits_eqb by lia. f_equal.
    destruct (Z.eqb_spec k j); symmetry; [apply bool_decide_eq_true_2|apply bool_decide_eq_false_2]; lia.
Qed.

Lemma null_bit_mark hoff buf i j :
  0 ≤ i → 0 ≤ j → TupleHeaderSize + i / 8 < hoff → hoff ≤ len buf →
  let at_ := TupleHeaderSize + i / 8 in
  let buf' := be_set at_ 1 (Z.lor (be_at at_ 1 buf) (u8 (Z.shiftl 1 (i mod 8)))) buf in
  length buf' = length buf ∧ sub 0 12 buf' = sub 0 12 buf ∧
  null_bit buf' j = null_bit buf j || bool_decide (j = i).
Proof.
  intros Hi Hj Hlt Hlen at_ buf'. pose proof (Z.div_pos i 8 ltac:(lia) ltac:(lia)) as Hid.
  pose proof (Z.div_pos j 8 ltac:(lia) ltac:(lia)) as Hjd. unfold TupleHeaderSize in *.
  pose proof (Z.mod_pos_bound i 8 ltac:(lia)). pose proof (Z.mod_pos_bound j 8 ltac:(lia)).
  assert (0 ≤ be_at at_ 1 buf < 256) as Hb by (apply (be_at_range at_ 1); unfold at_; lia).
  destruct (set_bit_byte (be_at at_ 1 buf) (i mod 8) (j mod 8)) as [Hr Ht]; [lia..|].
  unfold buf', null_bit, TupleHeaderSize. split_and!.
  - apply length_be_set; unfold at_; lia.
  - apply sub_be_set_ne; unfold at_; lia.
  - destruct (decide (12 + j / 8 = at_)) as [E|E].
    + rewrite E, be_at_set by (done || unfold at_; lia). rewrite Ht. f_equal.
      apply bool_decide_ext. unfold at_ in E. split; [|by intros ->].
      intros Em. rewrite (Z.div_mod i 8), (Z.div_mod j 8) by lia. lia.
    + rewrite be_at_set_ne by (unfold at_ in *; lia).
      rewrite bool_decide_eq_false_2, orb_false_r; [done|]. intros ->. done.
Qed.

Lemma mark_nulls_spec hoff row i buf :
  0 ≤ i → hoff ≤ len buf → (∀ k, 0 ≤ k < i + len row → TupleHeaderSize + k / 8 < hoff) ∨ has_null row = false →
  ∃ buf', mark_nulls hoff i row buf = Ret buf' ∧ length buf' = length buf ∧
    sub 0 12 buf' = sub 0 12 buf ∧
    ∀ j, 0 ≤ j → null_bit buf' j =
      null_bit buf j || bool_decide (i ≤ j ∧ row !! Z.to_nat (j - i) = Some VNil).
Proof.
  revert i buf. induction row as [|v row IH]; intros i buf Hi Hlen Hbm.
  { exists buf. split_and!; try done. intros j Hj. rewrite lookup_nil.
    rewrite bool_decide_eq_false_2, orb_false_r; [done|]. by intros [_ ?]. }
  assert (∀ j, (i ≤ j ∧ (v :: row) !! Z.to_nat (j - i) = Some VNil) ↔
    (j = i ∧ v = VNil) ∨ (i + 1 ≤ j ∧ row !! Z.to_nat (j - (i + 1)) = Some VNil)) as Hsplit.
  { intros j. destruct (decide (j = i)) as [->|].
    - rewrite Z.sub_diag. simpl. split; [intros [_ [= ->]]; by left|].
      intros [[_ ->]|[? _]]; [done|lia].
    - destruct (decide (i ≤ j)); [|split; [lia|intros [[? ?]|[? ?]]; [done|lia]]].
      replace (Z.to_nat (j - i)) with (S (Z.to_nat (j - (i + 1)))) by lia. simpl.
      split; [intros [_ ?]; right; split; [lia|done]|]. intros [[? ?]|[_ ?]]; [done|split; [lia|done]]. }
  destruct (decide (v = VNil)) as [->|Hv].
  - destruct Hbm as [Hbm|Hbm]; [|by simpl in Hbm]. simpl mark_nulls. simpl length in Hbm.
    assert (TupleHeaderSize + i / 8 < hoff) as Hlt by (apply Hbm; lia).
    rewrite (proj2 (Z.ltb_lt _ _)) by done.
    set (buf1 := be_set _ _ _ buf).
    destruct (IH (i + 1) buf1) as (buf'&HE&HL&HS&HB);
      [lia|unfold buf1; destruct (null_bit_mark hoff buf i 0) as (->&_); done || lia|
       left; intros k Hk; apply Hbm; lia|].
    destruct (null_bit_mark hoff buf i 0) as (HL1&HS1&_); [done|lia|done|done|].
    exists buf'. split_and!; [done|by rewrite HL|by rewrite HS|].
    intros j Hj. rewrite HB by done. unfold buf1.
    destruct (null_bit_mark hoff buf i j) as (_&_&->); [done..|].
    rewrite <-orb_assoc. f_equal. rewrite <-bool_decide_or. apply bool_decide_ext.
    rewrite Hsplit. naive_solver.
  - destruct (IH (i + 1) buf) as (buf'&HE&HL&HS&HB); [lia|done| |].
    { destruct Hbm as [Hbm|Hbm]; [left; intros; apply Hbm; simpl; lia|right].
      simpl in Hbm. by apply orb_false_elim in Hbm as [_ ?]. }
    exists buf'. split_and!; [by destruct v|done..|]. intros j Hj. rewrite HB by done. f_equal.
    apply bool_decide_ext. rewrite Hsplit. naive_solver.
Qed.

(** ** Writing the columns *)

Lemma splice_app pos a b (buf : list byte) :
  0 ≤ pos → pos + len (a ++ b) ≤ len buf →
  splice (pos + len a) b (splice pos a buf) = splice pos (a ++ b) buf.
Proof.
  rewrite length_app. intros Hp Hl. apply list_eq. intros i.
  assert (length (splice pos a buf) = length buf) as HL by (rewrite length_splice; lia).
  rewrite !lookup_splice by (rewrite ?length_app, ?HL; lia). rewrite length_app.
  repeat case_decide; try lia.
  - rewrite lookup_app_r by lia. f_equal. lia.
  - rewrite lookup_app_l by lia. done.
  - done.
Qed.

Lemma splice_nil pos (buf : list byte) : 0 ≤ pos ≤ len buf → splice pos [] buf = buf.
Proof.
  intros. apply list_eq. intros i. rewrite lookup_splice by (simpl; lia).
  case_decide; [simpl in *; lia|done].
Qed.

Lemma put_columns_spec cols row pos buf :
  valid_row cols row = true → 0 ≤ pos → pos + len (row_bytes row) ≤ len buf →
  put_columns cols row pos buf = Ret (splice pos (row_bytes row) buf).
Proof.
  revert row pos buf. induction cols as [|col cols IH]; intros [|v row] pos buf Hv Hp Hl; try done.
  { simpl in *. by rewrite splice_nil by lia. }
  simpl in Hv. apply andb_prop in Hv as [Hv Hrow]. rewrite row_bytes_cons, length_app in Hl.
  rewrite row_bytes_cons. destruct v as [|n|str|]; simpl valid_value in Hv; simpl put_columns.
  - by apply IH.
  - apply Z.eqb_eq in Hv. rewrite Hv, Z.eqb_refl.
    assert (len (be_put 8 (u64 n)) = 8) as Hb by (by rewrite length_be_put).
    change (col_bytes (VInt n)) with (be_put 8 (u64 n)) in *.
    rewrite PutUintAt_ok by lia. cbn [res_bind].
    rewrite IH by (done || rewrite ?length_be_set; lia).
    unfold be_set. change (Z.to_nat 8) with 8%nat. rewrite <-splice_app by (rewrite ?length_app; lia). by rewrite Hb.
  - apply andb_prop in Hv as [Hv Hlen]. apply Z.eqb_eq in Hv. apply Z.leb_le in Hlen. unfold MaxUint16 in *.
    rewrite Hv. change (TypeText =? TypeInt) with false. rewrite Z.eqb_refl.
    assert (len (be_put 2 (len str)) = 2) as Hb by (by rewrite length_be_put).
    change (col_bytes (VText str)) with (be_put 2 (len str) ++ str) in *. rewrite length_app in Hl.
    rewrite u16_small by lia. rewrite PutUintAt_ok by lia. cbn [res_bind].
    assert (len (be_set pos 2 (len str) buf) = len buf) as HL by (rewrite length_be_set; lia).
    rewrite slice_ok by lia. cbn [res_bind]. rewrite len_sub by lia.
    rewrite Z.min_r by lia. rewrite sub_full by done.
    rewrite IH by (done || lia || rewrite length_splice; lia). f_equal.
    unfold be_set. change (Z.to_nat 2) with 2%nat. rewrite <-Hb at 1 2.
    rewrite (splice_app pos (be_put 2 (len str)) str) by (rewrite ?length_app; lia).
    replace (pos + len (be_put 2 (len str)) + len str) with (pos + len (be_put 2 (len str) ++ str))
      by (rewrite length_app; lia).
    apply splice_app; rewrite ?length_app; lia.
  - done.
Qed.

(** ** The header *)

Definition flags_of (hasNull : bool) : Z := if hasNull then 1 else 0.

Lemma write_header_spec n hoff hasNull m :
  12 ≤ m →
  if u16 n <? 1024
  then ∃ h, write_header n hoff hasNull (zeroes m) = Ret (splice 0 h (zeroes m)) ∧ len h = 12 ∧
         view h = Fields 0 0 (flags_of hasNull) (u16 n) (u8 hoff)
  else write_header n hoff hasNull (zeroes m) = Fail (Wrapf "record" (Errorf "value does not fit")).
Proof.
  intros Hm. unfold write_header, Tuple_TupleHeader, TupleHeaderSize.
  rewrite slice_ok by (rewrite ?length_zeroes; lia). simpl res_bind. rewrite Z.sub_0_r.
  rewrite sub_zeroes by lia. pose proof (u16_range n) as Hr.
  assert (len (zeroes 12) = 12) as Hz by (by rewrite length_zeroes).
  assert (view (zeroes 12) = Fields 0 0 0 0 0) as Hv by (by vm_compute).
  revert Hz Hv. generalize (zeroes 12) as z. intros z Hz Hv. injection Hv as E1 E2 E3 E4 E5.
  destruct (Z.ltb_spec (u16 n) 1024) as [Hlt|Hge].
  - destruct (TupleHeaderFacts.SetColumnCount_ok z (u16 n)) as (h1&->&L1&V1); [lia..|]. simpl.
    assert (0 ≤ u8 hoff < 256) as H8 by (unfold u8; apply Z.mod_pos_bound; lia).
    destruct (TupleHeaderFacts.SetHoff_ok h1 (u8 hoff)) as [L2 V2]; [lia..|].
    injection V1 as F1 F2 F3 F4 F5. set (h2 := SetHoff h1 (u8 hoff)) in *.
    injection V2 as G1 G2 G3 G4 G5. destruct hasNull.
    + destruct (TupleHeaderFacts.SetFlags_ok h2 FlagHasNull) as (h3&->&L3&V3); [lia|by vm_compute|].
      simpl. exists h3. split_and!; try done. rewrite V3. unfold flags_of. change FlagHasNull with 1.
      f_equal; congruence.
    + simpl. exists h2. split_and!; try done. unfold view, flags_of. f_equal; congruence.
  - assert (SetColumnCount z (u16 n) = Fail (Errorf "value does not fit")) as ->; [|done].
    apply WriteBits_big; change colCountBitPos with 70; change colCountBitLen with 10; lia.
Qed.

(** ** Encode *)

(** What the bytes of an encoded row are. *)
Record encoded (cols : list Column) (row : Row) (buf : list byte) : Prop := Encoded {
  e_len : len buf = TupleHeaderSize + bitmap_size (has_null row) (len cols) + len (row_bytes row);
  e_header : view (sub 0 12 buf) =
    Fields 0 0 (flags_of (has_null row)) (u16 (len cols))
      (u8 (TupleHeaderSize + bitmap_size (has_null row) (len cols)));
  e_nulls : has_null row = true → ∀ j, 0 ≤ j < len cols →
    null_bit buf j = bool_decide (row !! Z.to_nat j = Some VNil);
  e_data : sub (TupleHeaderSize + bitmap_size (has_null row) (len cols)) (len (row_bytes row)) buf =
    row_bytes row }.

Lemma valid_length cols row : valid_row cols row = true → length row = length cols.
Proof.
  revert row. induction cols as [|c cols IH]; intros [|v row] H; try done.
  simpl in *. apply andb_prop in H as [_ H]. f_equal. by apply IH.
Qed.

Lemma bitmap_room n j : 0 ≤ j < n → j / 8 < (n + 7) / 8.
Proof. intros. apply Z.div_lt_upper_bound; [lia|]. pose proof (Z.div_mod (n + 7) 8 ltac:(lia)).
  pose proof (Z.mod_pos_bound (n + 7) 8 ltac:(lia)). lia. Qed.

Lemma null_bit_zeroes m j : 0 ≤ j → 12 + j / 8 < m → null_bit (zeroes m) j = false.
Proof.
  intros Hj Hm. unfold null_bit, be_at, TupleHeaderSize.
  pose proof (Z.div_pos j 8 ltac:(lia) ltac:(lia)).
  rewrite sub_zeroes by lia. change (be_get (zeroes 1)) with 0. apply Z.bits_0.
Qed.

Lemma null_bit_splice off d buf j :
  0 ≤ j → 0 ≤ off → off + len d ≤ len buf → 12 + j / 8 < off ∨ off + len d ≤ 12 →
  null_bit (splice off d buf) j = null_bit buf j.
Proof.
  intros Hj Ho Hl Hd. unfold null_bit, be_at, TupleHeaderSize.
  pose proof (Z.div_pos j 8 ltac:(lia) ltac:(lia)). by rewrite sub_splice_ne by lia.
Qed.

Lemma Encode_ok s row :
  valid_row (Columns s) row = true → u16 (len (Columns s)) < 1024 →
  ∃ buf, Encode s row = Ret buf ∧ encoded (Columns s) row buf.
Proof.
  intros Hv Hn. pose proof (valid_length _ _ Hv) as Hlen. set (cols := Columns s) in *.
  unfold Encode. fold cols. rewrite (proj2 (Z.eqb_eq _ _)) by lia. simpl negb. cbv iota.
  pose proof (validate_spec cols row false 0 Hlen) as HV. rewrite Hv, orb_false_l, Z.add_0_l in HV.
  rewrite HV. cbn [res_bind].
  set (hn := has_null row) in *. set (D := row_bytes row) in *.
  set (bs := bitmap_size hn (len cols)).
  assert (0 ≤ bs) as Hbs by (unfold bs, bitmap_size; destruct hn; [apply Z.div_pos; lia|lia]).
  set (hoff := TupleHeaderSize + bs). unfold TupleHeaderSize in *.
  pose proof (write_header_spec (len cols) hoff hn (hoff + len D) ltac:(unfold hoff; lia)) as HW.
  rewrite (proj2 (Z.ltb_lt _ _)) in HW by done. destruct HW as (h&->&Lh&Vh). simpl res_bind.
  assert (len (zeroes (hoff + len D)) = hoff + len D) as HZ by (rewrite length_zeroes; unfold hoff; lia).
  assert (len (splice 0 h (zeroes (hoff + len D))) = hoff + len D) as HL1
    by (rewrite length_splice; unfold hoff in *; lia).
  assert (∀ j, 0 ≤ j < len cols → hn = true → 12 + j / 8 < hoff) as Hroom.
  { intros j Hj E. unfold hoff, bs, bitmap_size. rewrite E. pose proof (bitmap_room _ _ Hj). lia. }
  destruct (mark_nulls_spec hoff row 0 (splice 0 h (zeroes (hoff + len D)))) as (b1&->&L1&S1&N1);
    [done|lia| |].
  { destruct hn eqn:E; [left|by right]. intros k Hk. apply Hroom; [lia|done]. }
  simpl res_bind. assert (0 ≤ hoff) as Hh0 by (unfold hoff; lia).
  rewrite (put_columns_spec cols row hoff b1 Hv Hh0) by (fold D; lia).
  eexists. split; [done|]. fold D. split; fold hn; fold bs; fold hoff; fold D.
  - rewrite length_splice by (unfold hoff in *; lia). unfold TupleHeaderSize. unfold hoff in *. lia.
  - rewrite sub_splice_ne by (unfold hoff in *; lia). rewrite S1, sub_splice_eq by (lia || len_lia).
    rewrite Vh. done.
  - intros E j Hj. specialize (Hroom j Hj E).
    rewrite null_bit_splice by (unfold hoff in *; lia). rewrite N1 by lia.
    rewrite null_bit_splice by (unfold hoff in *; lia). rewrite null_bit_zeroes by lia. simpl.
    rewrite Z.sub_0_r. apply bool_decide_ext. split; [by intros [_ ?]|split; [lia|done]].
  - unfold TupleHeaderSize. fold hoff. rewrite sub_splice_eq by (unfold hoff in *; lia). done.
Qed.

Lemma Encode_bad s row :
  valid_row (Columns s) row = false ∨ 1024 ≤ u16 (len (Columns s)) → ∃ e, Encode s row = Fail e.
Proof.
  intros H. unfold Encode. destruct (Z.eqb_spec (len row) (len (Columns s))) as [Hl|]; [|simpl; eauto].
  cbn [negb]. pose proof (validate_spec (Columns s) row false 0 ltac:(lia)) as HV.
  destruct (valid_row (Columns s) row) eqn:Hv; [|destruct HV as [msg ->]; simpl; eauto].
  rewrite HV. cbn [res_bind]. destruct H as [?|H]; [done|].
  set (hoff := TupleHeaderSize + _). set (m := hoff + _).
  assert (12 ≤ m) as Hm.
  { unfold m, hoff, TupleHeaderSize, bitmap_size. pose proof (Z.div_pos (len (Columns s) + 7) 8).
    case_match; lia. }
  pose proof (write_header_spec (len (Columns s)) hoff (false || has_null row) m Hm) as HW.
  rewrite (proj2 (Z.ltb_ge _ _)) in HW by done. rewrite HW. simpl. eauto.
Qed.

(** ** Decode *)

(** The bit test of [Decode]. *)
Lemma land_bit b k :
  0 ≤ b → 0 ≤ k < 8 → negb (Z.land b (u8 (Z.shiftl 1 k)) =? 0) = Z.testbit b k.
Proof.
  intros Hb Hk. rewrite Z.shiftl_1_l.
  assert (0 < 2 ^ k < 256) as Hp.
  { split; [lia|]. change 256 with (2 ^ 8). apply Z.pow_lt_mono_r; lia. }
  unfold u8. rewrite Z.mod_small by (change (2 ^ 8) with 256; lia).
  destruct (Z.eqb_spec (Z.land b (2 ^ k)) 0) as [E|E]; simpl.
  - assert (Z.testbit (Z.land b (2 ^ k)) k = false) as H by (rewrite E; apply Z.bits_0).
    rewrite Z.land_spec, Z.pow2_bits_true, andb_true_r in H by lia. by rewrite H.
  - destruct (Z.testbit b k) eqn:T; [done|]. exfalso. apply E. apply Z.bits_inj'. intros i Hi.
    rewrite Z.land_spec, Z.pow2_bits_eqb, Z.bits_0 by lia.
    destruct (Z.eqb_spec k i) as [<-|]; [by rewrite T|by rewrite andb_false_r].
Qed.

Lemma sub_app_split pos a b (data : list byte) :
  0 ≤ pos → sub pos (len (a ++ b)) data = a ++ b → pos + len (a ++ b) ≤ len data →
  sub pos (len a) data = a ∧ sub (pos + len a) (len b) data = b.
Proof.
  rewrite length_app. intros Hp Hs Hl. split.
  - transitivity (sub 0 (len a) (a ++ b)); [|rewrite sub_app_l by lia; by apply sub_full].
    rewrite <-Hs. rewrite sub_sub by lia. f_equal. lia.
  - transitivity (sub (len a) (len b) (a ++ b)); [|rewrite sub_app_r by lia; rewrite Z.sub_diag; by apply sub_full].
    rewrite <-Hs. rewrite sub_sub by lia. done.
Qed.

(** Whether column [i] is NULL according to the bitmap. *)
Definition null_at (bitmap : list byte) (hasNull : bool) (i : Z) : bool :=
  hasNull && Z.testbit (be_at (i / 8) 1 bitmap) (i mod 8).

Lemma null_test bitmap hasNull i :
  0 ≤ i → (hasNull = true → i / 8 < len bitmap) →
  (if hasNull
   then let! b := UintAt 1 (i / 8) bitmap in Ret (negb (Z.land b (u8 (Z.shiftl 1 (i mod 8))) =? 0))
   else Ret false) = Ret (null_at bitmap hasNull i).
Proof.
  intros Hi Hb. unfold null_at. destruct hasNull; [|done]. specialize (Hb eq_refl).
  pose proof (Z.div_pos i 8 ltac:(lia) ltac:(lia)). rewrite UintAt_ok by lia. cbn [res_bind andb].
  rewrite land_bit; [done| |apply Z.mod_pos_bound; lia]. apply be_at_range; lia.
Qed.

Lemma read_columns_spec data bitmap hasNull cols row : ∀ i pos,
  valid_row cols row = true → Forall go_value row → 0 ≤ i → 0 ≤ pos →
  (hasNull = true → (i + len row + 7) / 8 ≤ len bitmap) →
  (∀ j v, row !! j = Some v → null_at bitmap hasNull (i + Z.of_nat j) = is_nil v) →
  sub pos (len (row_bytes row)) data = row_bytes row → pos + len (row_bytes row) ≤ len data →
  read_columns data bitmap hasNull cols i pos = Ret row.
Proof.
  revert row. induction cols as [|col cols IH]; intros [|v row] i pos Hv Hg Hi Hp Hbm Hnull Hs Hl; try done.
  simpl in Hv. apply andb_prop in Hv as [Hv Hrow]. apply Forall_cons in Hg as [Hgv Hg].
  rewrite row_bytes_cons in Hs, Hl. destruct (sub_app_split _ _ _ _ Hp Hs Hl) as [Hs1 Hs2].
  rewrite length_app in Hl. cbn [read_columns]. rewrite null_test; [|done|].
  2:{ intros E. specialize (Hbm E). simpl in Hbm.
      eapply Z.lt_le_trans; [apply (bitmap_room (i + Z.of_nat (S (length row))))|done]. lia. }
  pose proof (Hnull 0%nat v eq_refl) as H0. rewrite Z.add_0_r in H0. rewrite H0. cbn [res_bind].
  assert (read_columns data bitmap hasNull cols (i + 1) (pos + len (col_bytes v)) = Ret row) as HR.
  { apply IH; try done; [lia|lia| | |lia].
    - intros E. specialize (Hbm E). simpl in Hbm. by replace (i + 1 + len row) with (i + Z.of_nat (S (length row))) by lia.
    - intros j w Hj. specialize (Hnull (S j) w Hj). by replace (i + 1 + Z.of_nat j) with (i + Z.of_nat (S j)) by lia. }
  destruct v as [|n|str|]; cbn [is_nil valid_value col_bytes] in *; [| | |done].
  - rewrite Z.add_0_r in HR. by rewrite HR.
  - apply Z.eqb_eq in Hv. rewrite Hv, Z.eqb_refl. rewrite length_be_put in *.
    rewrite (proj2 (Z.ltb_ge _ _)) by lia. rewrite UintAt_ok by lia. cbn [res_bind].
    change (pos + 8) with (pos + Z.of_nat 8). rewrite HR. cbn [res_bind].
    unfold be_at. change 8 with (Z.of_nat 8). rewrite Hs1, be_get_put.
    rewrite (Z.mod_small (u64 n)) by (unfold u64; change (256 ^ Z.of_nat 8) with (2 ^ 64); apply Z.mod_pos_bound; lia).
    by rewrite i64_u64.
  - apply andb_prop in Hv as [Hv Hlen]. apply Z.eqb_eq in Hv. apply Z.leb_le in Hlen. unfold MaxUint16 in *.
    rewrite Hv. change (TypeText =? TypeInt) with false. rewrite Z.eqb_refl.
    destruct (sub_app_split pos (be_put 2 (len str)) str data Hp Hs1 ltac:(lia)) as [Ht1 Ht2].
    rewrite length_app in *. rewrite length_be_put in *.
    rewrite (proj2 (Z.ltb_ge _ _)) by lia. rewrite UintAt_ok by lia. cbn [res_bind].
    unfold be_at. change 2 with (Z.of_nat 2). rewrite Ht1, be_get_put, Z.mod_small
      by (change (256 ^ Z.of_nat 2) with 65536; lia).
    rewrite (proj2 (Z.ltb_ge _ _)) by lia. rewrite slice_ok by lia. cbn [res_bind].
    replace (pos + Z.of_nat 2 + len str - (pos + Z.of_nat 2)) with (len str) by lia. rewrite Ht2.
    replace (pos + Z.of_nat 2 + len str) with (pos + Z.of_nat (2 + length str)) by lia. by rewrite HR.
Qed.

Lemma HasNull_flags h hn : Flags h = flags_of hn → HasNull h = hn.
Proof. unfold HasNull. intros ->. by destruct hn. Qed.

(** [Decode] once the header fields are known. *)
Lemma Decode_header s data hn :
  let n := len (Columns s) in
  let hoff := TupleHeaderSize + bitmap_size hn n in
  HasNull (sub 0 12 data) = hn → ColumnCount (sub 0 12 data) = n → Hoff (sub 0 12 data) = hoff →
  12 ≤ hoff ≤ len data →
  Decode s data = read_columns data (sub 12 (hoff - 12) data) hn (Columns s) 0 hoff.
Proof.
  intros n hoff H1 H2 H3 Hl. unfold Decode, Tuple_TupleHeader, TupleHeaderSize.
  rewrite (proj2 (Z.ltb_ge _ _)) by lia. rewrite slice_ok by lia. cbn [res_bind].
  rewrite Z.sub_0_r, H1, H2, H3, Z.eqb_refl. cbn [negb]. fold n. fold TupleHeaderSize. fold hoff.
  rewrite Z.eqb_refl. cbn [negb]. rewrite (proj2 (Z.ltb_ge _ _)) by lia.
  rewrite slice_ok by (unfold TupleHeaderSize; lia). done.
Qed.

Lemma has_null_elem row j : row !! j = Some VNil → has_null row = true.
Proof.
  intros H. unfold has_null. apply existsb_exists. exists VNil. split; [|done].
  apply list_elem_of_In. by eapply list_elem_of_lookup_2.
Qed.

(** An encoded row decodes to itself. *)
Lemma Decode_encoded s row data :
  valid_row (Columns s) row = true → Forall go_value row → len (Columns s) < 1024 →
  encoded (Columns s) row data → Decode s data = Ret row.
Proof.
  intros Hv Hg Hn [El Eh En Ed]. pose proof (valid_length _ _ Hv) as Hlen.
  set (hn := has_null row) in *. set (n := len (Columns s)) in *.
  set (hoff := TupleHeaderSize + bitmap_size hn n) in *.
  assert (12 ≤ hoff < 256) as Hh.
  { unfold hoff, TupleHeaderSize, bitmap_size. destruct hn; [|lia].
    pose proof (Z.div_pos (n + 7) 8 ltac:(lia) ltac:(lia)).
    pose proof (Z.div_lt_upper_bound (n + 7) 8 200 ltac:(lia) ltac:(lia)). lia. }
  unfold view in Eh. injection Eh as _ _ E3 E4 E5. rewrite u16_small in E4 by (unfold n in *; lia).
  rewrite u8_small in E5 by lia. apply HasNull_flags in E3.
  rewrite (Decode_header s data hn) by (done || unfold TupleHeaderSize in *; fold n; fold hoff; lia).
  fold n. fold hoff. assert (len (sub 12 (hoff - 12) data) = hoff - 12) as Hb by (apply len_sub; lia).
  apply read_columns_spec; try done; [lia| | |lia].
  - intros E. rewrite Hb. unfold hoff, TupleHeaderSize, bitmap_size. rewrite E.
    replace (0 + len row) with n by (unfold n; lia). lia.
  - intros j v Hj. rewrite Z.add_0_l. pose proof (lookup_lt_Some _ _ _ Hj) as Hjl.
    unfold null_at. destruct hn eqn:E.
    + cbn [andb]. assert (0 ≤ Z.of_nat j < n) as Hjn by (unfold n; lia).
      specialize (En eq_refl (Z.of_nat j) Hjn).
      assert (Z.of_nat j / 8 < hoff - 12) as Hd.
      { unfold hoff, TupleHeaderSize, bitmap_size. pose proof (bitmap_room _ _ Hjn). lia. }
      pose proof (Z.div_pos (Z.of_nat j) 8 ltac:(lia) ltac:(lia)).
      unfold null_bit, be_at in *. rewrite sub_sub by lia.
      unfold TupleHeaderSize in En. rewrite En, Nat2Z.id, Hj.
      by destruct v.
    + cbn [andb]. destruct v; try done. apply has_null_elem in Hj. unfold hn in E. congruence.
Qed.

(** What a successful [Encode] means. *)
Lemma Encode_inv s row data :
  Encode s row = Ret data →
  valid_row (Columns s) row = true ∧ u16 (len (Columns s)) < 1024 ∧ encoded (Columns s) row data.
Proof.
  intros HE.
  destruct (valid_row (Columns s) row) eqn:Hv; [|destruct (Encode_bad s row) as [e ?]; [by left|congruence]].
  destruct (decide (1024 ≤ u16 (len (Columns s)))) as [?|Hlt];
    [destruct (Encode_bad s row) as [e ?]; [by right|congruence]|].
  destruct (Encode_ok s row Hv) as (buf&HE'&Henc); [lia|]. assert (buf = data) as -> by congruence.
  split_and!; [done|lia|done].
Qed.

(** C8: rows round-trip.  Whatever [Encode] accepts for a schema of fewer than
    2^16 columns, [Decode] with the same schema gives back: every int64, every
    text and every NULL of every column. *)
Theorem record_roundtrip s row data :
  len (Columns s) < 65536 → Forall go_value row →
  Encode s row = Ret data → Decode s data = Ret row.
Proof.
  intros Hn Hg HE. destruct (Encode_inv _ _ _ HE) as (Hv&Hlt&Henc). rewrite u16_small in Hlt by lia.
  by apply Decode_encoded.
Qed.

Lemma record_roundtrip_witness :
  let s := MkSchema [Col "id" TypeInt false; Col "name" TypeText true; Col "note" TypeText true] in
  let row := [VInt (-5); VNil; VText [x68; x69]] in
  ∃ data, Encode s row = Ret data ∧ Decode s data = Ret row.
Proof.
  exists [x00; x00; x00; x00; x00; x00; x00; x00; x04; x03; x0d; x00; x02;
          xff; xff; xff; xff; xff; xff; xff; xfb; x00; x02; x68; x69].
  split; [vm_compute; reflexivity|].
  apply record_roundtrip; [simpl; lia| |vm_compute; reflexivity].
  repeat constructor; vm_compute; congruence.
Defined.

(** C10: which rows [Encode] accepts: exactly the rows whose length is the
    schema's, whose NULLs are in nullable columns and whose other values have
    the column's type and a text of at most 65535 bytes, provided the column
    count taken modulo 2^16 is at most 1023; every other row gives an error and
    no row panics.  So a schema of 65536 columns or more can pass the 10-bit
    check the comment relies on, and what it encodes can never be decoded. *)
Theorem Encode_accepts s row :
  is_ret (Encode s row) = valid_row (Columns s) row && (u16 (len (Columns s)) <? 1024) ∧
  Encode s row ≠ Panic ∧
  (1024 ≤ len (Columns s) → ∀ data, is_ret (Decode s data) = false).
Proof.
  split_and!.
  - destruct (valid_row (Columns s) row) eqn:Hv; [|destruct (Encode_bad s row) as [e ->]; [by left|done]].
    destruct (Z.ltb_spec (u16 (len (Columns s))) 1024); [|destruct (Encode_bad s row) as [e ->]; [by right|done]].
    destruct (Encode_ok s row Hv) as (buf&->&_); done.
  - destruct (valid_row (Columns s) row) eqn:Hv; [|destruct (Encode_bad s row) as [e ->]; [by left|done]].
    destruct (decide (u16 (len (Columns s)) < 1024)); [|destruct (Encode_bad s row) as [e ->]; [right; lia|done]].
    destruct (Encode_ok s row Hv) as (buf&->&_); done.
  - intros Hn data. unfold Decode, Tuple_TupleHeader, TupleHeaderSize.
    destruct (Z.ltb_spec (len data) 12); [done|]. rewrite slice_ok by lia. cbn [res_bind].
    rewrite Z.sub_0_r. assert (len (sub 0 12 data) = 12) as Hl by (apply len_sub; lia).
    rewrite (TupleHeaderFacts.ColumnCount_val _ Hl).
    pose proof (stream_val_range (sub 0 12 data) 70 10) as Hr. change (2 ^ Z.of_nat 10) with 1024 in Hr.
    by rewrite (proj2 (Z.eqb_neq _ _)) by lia.
Qed.

(** ** Decode on arbitrary bytes *)

(** A decoded value has its column's type (or is NULL) and fits it. *)
Definition typed (col : Column) (v : value) : Prop :=
  match v with
  | VNil => True
  | VInt n => Type_ col = TypeInt ∧ - 2 ^ 63 ≤ n < 2 ^ 63
  | VText str => Type_ col = TypeText ∧ len str ≤ MaxUint16
  | VOther => False
  end.

Lemma read_columns_safe data bitmap hasNull cols : ∀ i pos,
  0 ≤ i → 0 ≤ pos → (hasNull = true → (i + len cols + 7) / 8 ≤ len bitmap) →
  match read_columns data bitmap hasNull cols i pos with
  | Ret row => Forall2 typed cols row
  | Fail _ => True
  | Panic => False
  end.
Proof.
  induction cols as [|col cols IH]; intros i pos Hi Hp Hbm; [by constructor|].
  cbn [read_columns]. rewrite null_test; [|done|].
  2:{ intros E. specialize (Hbm E). simpl in Hbm.
      eapply Z.lt_le_trans; [apply (bitmap_room (i + Z.of_nat (S (length cols))))|done]. lia. }
  assert (∀ pos', 0 ≤ pos' →
    match read_columns data bitmap hasNull cols (i + 1) pos' with
    | Ret row => Forall2 typed cols row | Fail _ => True | Panic => False end) as HR.
  { intros pos' ?. apply IH; [lia|done|]. intros E. specialize (Hbm E). simpl in Hbm.
    by replace (i + 1 + len cols) with (i + Z.of_nat (S (length cols))) by lia. }
  cbn [res_bind]. destruct (null_at bitmap hasNull i).
  { specialize (HR pos Hp). destruct (read_columns _ _ _ _ _ _); try done. by constructor. }
  destruct (Z.eqb_spec (Type_ col) TypeInt).
  { destruct (Z.ltb_spec (len data) (pos + 8)); [done|]. rewrite UintAt_ok by lia. cbn [res_bind].
    specialize (HR (pos + 8) ltac:(lia)). destruct (read_columns _ _ _ _ _ _); try done.
    constructor; [|done]. split; [done|apply i64_range]. }
  destruct (Z.eqb_spec (Type_ col) TypeText); [|done].
  destruct (Z.ltb_spec (len data) (pos + 2)); [done|]. rewrite UintAt_ok by lia. cbn [res_bind].
  pose proof (be_at_range pos 2 data Hp ltac:(lia) ltac:(lia)) as Hr. change (256 ^ 2) with 65536 in Hr.
  destruct (Z.ltb_spec (len data) (pos + 2 + be_at pos 2 data)); [done|].
  rewrite slice_ok by lia. cbn [res_bind]. specialize (HR (pos + 2 + be_at pos 2 data) ltac:(lia)).
  destruct (read_columns _ _ _ _ _ _); try done. constructor; [|done]. split; [done|].
  rewrite len_sub by lia. unfold MaxUint16. lia.
Qed.

(** C9: [Decode] on arbitrary bytes never panics: it returns an error, or one
    value per column, each NULL or of the column's type and within its range. *)
Theorem Decode_safe s data :
  match Decode s data with
  | Ret row => Forall2 typed (Columns s) row
  | Fail _ => True
  | Panic => False
  end.
Proof.
  unfold Decode, Tuple_TupleHeader, TupleHeaderSize.
  destruct (Z.ltb_spec (len data) 12); [done|]. rewrite slice_ok by lia. cbn [res_bind].
  destruct (Z.eqb_spec (ColumnCount (sub 0 (12 - 0) data)) (len (Columns s))); [|done]. cbn [negb].
  set (hn := HasNull _). set (n := len (Columns s)) in *.
  assert (0 ≤ bitmap_size hn n) as Hbs by (unfold bitmap_size, n; destruct hn; [apply Z.div_pos; lia|lia]).
  destruct (negb _); [done|]. destruct (Z.ltb_spec (len data) (12 + bitmap_size hn n)); [done|].
  rewrite slice_ok by lia. cbn [res_bind]. apply read_columns_safe; [lia|lia|].
  intros ->. rewrite len_sub by lia. unfold bitmap_size. rewrite Z.add_0_l. fold n. lia.
Qed.

End Record.
