(* ===== verification/Utf8.v ===== *)
(** * Strings as sequences of runes (what the source uses of unicode/utf8)

    A Go string is any sequence of bytes.  [symbols] splits one the way
    [utf8.DecodeRune] walks it: bytes below 0x80, longer runes kept as their
    bytes, and bytes that start no valid rune, which count one by one.  A
    string is valid UTF-8 when it has none of the last kind ([utf8]);
    [sanitize] puts U+FFFD in their place.  [encodeRune] is the encoding of a
    code point. *)

From Stdlib Require Import Ascii.
From S2P Require Import Prelude.

Module Utf8.

Definition in_range (lo hi : Z) (c : Z) : bool := (lo <=? c) && (c <=? hi).
Definition code (a : ascii) : Z := Z.of_N (Ascii.N_of_ascii a).
Definition chr (c : Z) : ascii := Ascii.ascii_of_N (Z.to_N c).

Inductive sym :=
| Chr (a : ascii)
| Multi (bytes : string)
| Bad.

(** The first byte of a longer rune: how many bytes follow, and the range of
    the next one; the others are in [0x80, 0xBF]. *)
Definition lead (a : ascii) : option (nat * Z * Z) :=
  let c := code a in
  if in_range 194 223 c then Some (1%nat, 128, 191)
  else if c =? 224 then Some (2%nat, 160, 191)
  else if c =? 237 then Some (2%nat, 128, 159)
  else if in_range 225 239 c then Some (2%nat, 128, 191)
  else if c =? 240 then Some (3%nat, 144, 191)
  else if in_range 241 243 c then Some (3%nat, 128, 191)
  else if c =? 244 then Some (3%nat, 128, 143)
  else None.

Definition follows (lo hi : Z) (a : ascii) : bool := in_range lo hi (code a).

Fixpoint symbols (s : string) : list sym :=
  match s with
  | EmptyString => []
  | String a s1 =>
      if code a <? 128 then Chr a :: symbols s1
      else match lead a, s1 with
      | Some (1%nat, lo, hi), String b s2 =>
          if follows lo hi b then Multi (String a (String b "")) :: symbols s2
          else Bad :: symbols s1
      | Some (2%nat, lo, hi), String b (String c s3) =>
          if follows lo hi b && follows 128 191 c
          then Multi (String a (String b (String c ""))) :: symbols s3
          else Bad :: symbols s1
      | Some (3%nat, lo, hi), String b (String c (String d s4)) =>
          if follows lo hi b && follows 128 191 c && follows 128 191 d
          then Multi (String a (String b (String c (String d "")))) :: symbols s4
          else Bad :: symbols s1
      | _, _ => Bad :: symbols s1
      end
  end.

(** [utf8.RuneError], U+FFFD, as its three bytes. *)
Definition fffd : string := String (chr 239) (String (chr 191) (String (chr 189) "")).

Definition is_bad (x : sym) : bool := match x with Bad => true | _ => false end.
Definition utf8 (s : string) : bool := forallb (λ x, negb (is_bad x)) (symbols s).

Definition sym_text (x : sym) : string :=
  match x with Chr a => String a "" | Multi m => m | Bad => fffd end.
Definition texts (l : list sym) : string := foldr (λ x t, sym_text x +:+ t) "" l.
Definition sanitize (s : string) : string := texts (symbols s).

(** [utf8.AppendRune] of a code point below 0x110000 that is no surrogate. *)
Definition encodeRune (r : Z) : string :=
  let tail k := chr (128 + Z.shiftr r k mod 64) in
  if r <? 128 then String (chr r) ""
  else if r <? 2048 then String (chr (192 + Z.shiftr r 6)) (String (tail 0) "")
  else if r <? 65536 then String (chr (224 + Z.shiftr r 12)) (String (tail 6) (String (tail 0) ""))
  else String (chr (240 + Z.shiftr r 18)) (String (tail 12) (String (tail 6) (String (tail 0) ""))).

(** ** Splitting is compositional at rune boundaries *)

Lemma in_range_true lo hi c : in_range lo hi c = true ↔ lo ≤ c ≤ hi.
Proof. unfold in_range. rewrite andb_true_iff, !Z.leb_le. done. Qed.

Lemma string_app_assoc (s t u : string) : (s +:+ t) +:+ u = s +:+ t +:+ u.
Proof. induction s as [|a s IH]; [done|]. exact (f_equal (String a) IH). Qed.
Lemma string_app_nil (s : string) : s +:+ "" = s.
Proof. induction s as [|a s IH]; [done|]. exact (f_equal (String a) IH). Qed.

(** What follows does not change how [s] splits. *)
Definition closed (s : string) : Prop := ∀ t, symbols (s +:+ t) = symbols s ++ symbols t.

(** The bytes of one longer rune. *)
Definition rune (m : string) : Prop := ∀ t, symbols (m +:+ t) = Multi m :: symbols t.

Lemma closed_nil : closed "".
Proof. by intros t. Qed.
Lemma closed_app s t : closed s → closed t → closed (s +:+ t).
Proof. intros Hs Ht u. by rewrite string_app_assoc, !Hs, Ht, app_assoc. Qed.
Lemma closed_rune m : rune m → closed m ∧ symbols m = [Multi m].
Proof.
  intros Hm. assert (symbols m = [Multi m]) as E by (rewrite <-(string_app_nil m) at 1; apply Hm).
  split; [|done]. intros t. by rewrite E, Hm.
Qed.
Lemma closed_chr a : code a < 128 → closed (String a "").
Proof. intros Ha t. simpl. by rewrite (proj2 (Z.ltb_lt _ _) Ha). Qed.
Lemma closed_cons a s : code a < 128 → closed s → closed (String a s).
Proof. intros Ha Hs. apply (closed_app (String a "") s); [by apply closed_chr|done]. Qed.

(** Every string is a sequence of these three kinds of pieces. *)
Lemma symbols_ind (P : string → Prop) :
  P "" →
  (∀ a s, code a < 128 → symbols (String a s) = Chr a :: symbols s → P s → P (String a s)) →
  (∀ m s, rune m → symbols (m +:+ s) = Multi m :: symbols s → P s → P (m +:+ s)) →
  (∀ a s, symbols (String a s) = Bad :: symbols s → P s → P (String a s)) →
  ∀ s, P s.
Proof.
  intros H0 H1 HM HB s. remember (String.length s) as n eqn:Hn. revert s Hn.
  induction n as [n IH] using lt_wf_ind. intros s ->. destruct s as [|a s]; [done|].
  assert (∀ t, (String.length t ≤ String.length s)%nat → P t) as IH'
    by (intros t Ht; apply (IH (String.length t)); simpl; [lia|done]).
  destruct (Z.ltb_spec (code a) 128) as [Ha|Ha].
  { apply H1; [done| |by apply IH']. simpl. by rewrite (proj2 (Z.ltb_lt _ _) Ha). }
  apply Z.ltb_ge in Ha.
  assert (symbols (String a s) = Bad :: symbols s → P (String a s)) as HB' by (intros E; apply HB; auto).
  assert (∀ m t, String a s = m +:+ t → rune m → (String.length t ≤ String.length s)%nat → P (String a s)) as HM'
    by (intros m t -> Hm Ht; apply HM; auto).
  destruct (lead a) as [[[[|[|[|[|k]]]] lo] hi]|] eqn:El;
    try (apply HB'; simpl; by rewrite Ha, El).
  - destruct s as [|b s]; [apply HB'; simpl; by rewrite Ha, El|].
    destruct (follows lo hi b) eqn:Eb; [|apply HB'; cbn [symbols]; by rewrite Ha, El, Eb].
    apply (HM' (String a (String b "")) s); [done| |simpl; lia]. intros t.
    change (_ +:+ t) with (String a (String b t)). cbn [symbols]. by rewrite Ha, El, Eb.
  - destruct s as [|b [|c s]]; try (apply HB'; cbn [symbols]; by rewrite Ha, El).
    destruct (follows lo hi b && follows 128 191 c) eqn:Eb;
      [|apply HB'; cbn [symbols]; by rewrite Ha, El, Eb].
    apply (HM' (String a (String b (String c ""))) s); [done| |simpl; lia].
    intros t. change (_ +:+ t) with (String a (String b (String c t))). cbn [symbols]. by rewrite Ha, El, Eb.
  - destruct s as [|b [|c [|d s]]]; try (apply HB'; cbn [symbols]; by rewrite Ha, El).
    destruct (follows lo hi b && follows 128 191 c && follows 128 191 d) eqn:Eb;
      [|apply HB'; cbn [symbols]; by rewrite Ha, El, Eb].
    apply (HM' (String a (String b (String c (String d "")))) s); [done| |simpl; lia].
    intros t. change (_ +:+ t) with (String a (String b (String c (String d t)))). cbn [symbols]. by rewrite Ha, El, Eb.
Qed.

(** What the symbols of a string are. *)
Definition sym_ok (x : sym) : Prop :=
  match x with Chr a => code a < 128 | Multi m => rune m | Bad => True end.

Lemma symbols_ok s : Forall sym_ok (symbols s).
Proof.
  induction s as [|a s Ha E IH|m s Hm E IH|a s E IH] using symbols_ind;
    [constructor|rewrite E; by constructor..].
Qed.

(** ** Valid strings *)

Lemma utf8_closed s : utf8 s = true → closed s.
Proof.
  unfold utf8. induction s as [|a s Ha E IH|m s Hm E IH|a s E IH] using symbols_ind;
    [intros _; apply closed_nil|rewrite E; simpl; intros Hs..]; [by apply closed_cons, IH| |done].
  apply closed_app; [by apply closed_rune|by apply IH].
Qed.

Lemma utf8_app s t : utf8 s = true → utf8 t = true → utf8 (s +:+ t) = true.
Proof.
  intros Hs Ht. unfold utf8. rewrite (utf8_closed s Hs), forallb_app. by apply andb_true_intro.
Qed.

Lemma utf8_cons a s : code a < 128 → utf8 s = true → utf8 (String a s) = true.
Proof. intros Ha Hs. unfold utf8. simpl. by rewrite (proj2 (Z.ltb_lt _ _) Ha). Qed.

Lemma rune_utf8 m : rune m → utf8 m = true.
Proof. intros [_ E]%closed_rune. unfold utf8. by rewrite E. Qed.

Lemma rune_fffd : rune fffd.
Proof. by intros t. Qed.

Lemma texts_app l1 l2 : texts (l1 ++ l2) = texts l1 +:+ texts l2.
Proof. induction l1 as [|x l1 IH]; [done|]. simpl. by rewrite IH, string_app_assoc. Qed.

Lemma texts_utf8 l : Forall sym_ok l → utf8 (texts l) = true.
Proof.
  induction 1 as [|x l Hx Hl IH]; [done|]. apply utf8_app; [|done].
  destruct x; [by apply utf8_cons|by apply rune_utf8|apply rune_utf8, rune_fffd].
Qed.

Lemma sanitize_utf8 s : utf8 (sanitize s) = true.
Proof. apply texts_utf8, symbols_ok. Qed.

(** A valid string is kept, and no other. *)
Lemma sanitize_id s : utf8 s = true → sanitize s = s.
Proof.
  unfold utf8, sanitize. induction s as [|a s Ha E IH|m s Hm E IH|a s E IH] using symbols_ind;
    [done|rewrite E; simpl; intros Hs..]; [by apply (f_equal (String a)), IH|by rewrite IH|done].
Qed.

Lemma utf8_fixed s : utf8 s = true ↔ sanitize s = s.
Proof. split; [apply sanitize_id|]. intros <-. apply sanitize_utf8. Qed.

(** ** Encoding a code point *)

Lemma code_range a : 0 ≤ code a < 256.
Proof. unfold code. pose proof (Ascii.N_ascii_bounded a). lia. Qed.

Lemma code_chr c : 0 ≤ c < 256 → code (chr c) = c.
Proof. intros H. unfold code, chr. rewrite Ascii.N_ascii_embedding by lia. lia. Qed.

Lemma follows_tail x lo hi : lo ≤ 128 + x mod 64 ≤ hi → follows lo hi (chr (128 + x mod 64)) = true.
Proof.
  intros H. pose proof (Z.mod_pos_bound x 64). unfold follows. rewrite code_chr by lia. by apply in_range_true.
Qed.

Lemma lead_cases c :
  0 ≤ c < 256 →
  lead (chr c) =
    if in_range 194 223 c then Some (1%nat, 128, 191)
    else if c =? 224 then Some (2%nat, 160, 191)
    else if c =? 237 then Some (2%nat, 128, 159)
    else if in_range 225 239 c then Some (2%nat, 128, 191)
    else if c =? 240 then Some (3%nat, 144, 191)
    else if in_range 241 243 c then Some (3%nat, 128, 191)
    else if c =? 244 then Some (3%nat, 128, 143)
    else None.
Proof. intros H. unfold lead. by rewrite code_chr. Qed.

Definition surrogate (r : Z) : bool := in_range 55296 57343 r.

(** A lead byte with the bytes it announces is a rune. *)
Lemma rune2 a b lo hi : 128 ≤ code a → lead a = Some (1%nat, lo, hi) → follows lo hi b = true →
  utf8 (String a (String b "")) = true.
Proof. intros Ha El Eb. unfold utf8. cbn [symbols]. by rewrite (proj2 (Z.ltb_ge _ _) Ha), El, Eb. Qed.
Lemma rune3 a b c lo hi : 128 ≤ code a → lead a = Some (2%nat, lo, hi) → follows lo hi b = true →
  follows 128 191 c = true → utf8 (String a (String b (String c ""))) = true.
Proof. intros Ha El Eb Ec. unfold utf8. cbn [symbols]. by rewrite (proj2 (Z.ltb_ge _ _) Ha), El, Eb, Ec. Qed.
Lemma rune4 a b c d lo hi : 128 ≤ code a → lead a = Some (3%nat, lo, hi) → follows lo hi b = true →
  follows 128 191 c = true → follows 128 191 d = true →
  utf8 (String a (String b (String c (String d "")))) = true.
Proof.
  intros Ha El Eb Ec Ed. unfold utf8. cbn [symbols]. by rewrite (proj2 (Z.ltb_ge _ _) Ha), El, Eb, Ec, Ed.
Qed.

Lemma shiftr_divs r :
  Z.shiftr r 0 = r ∧ Z.shiftr r 6 = r / 64 ∧ Z.shiftr r 12 = r / 4096 ∧ Z.shiftr r 18 = r / 262144.
Proof. split; [apply Z.shiftr_0_r|]. rewrite !Z.shiftr_div_pow2 by lia. done. Qed.

#[local] Ltac divs := Z.to_euclidean_division_equations; lia.
#[local] Ltac tail_ok := apply follows_tail; divs.

Lemma lead3 c : 224 ≤ c ≤ 239 → ∃ lo hi, lead (chr c) = Some (2%nat, lo, hi) ∧
  lo = (if c =? 224 then 160 else 128) ∧ hi = (if c =? 237 then 159 else 191).
Proof.
  intros Hc. rewrite lead_cases by lia. unfold in_range.
  destruct (Z.leb_spec 194 c), (Z.leb_spec c 223), (Z.eqb_spec c 224), (Z.eqb_spec c 237),
    (Z.leb_spec 225 c), (Z.leb_spec c 239); try lia; simpl; eauto.
Qed.
Lemma lead4 c : 240 ≤ c ≤ 244 → ∃ lo hi, lead (chr c) = Some (3%nat, lo, hi) ∧
  lo = (if c =? 240 then 144 else 128) ∧ hi = (if c =? 244 then 143 else 191).
Proof.
  intros Hc. assert (c = 240 ∨ c = 241 ∨ c = 242 ∨ c = 243 ∨ c = 244) as H by lia.
  destruct H as [->|[->|[->|[->| ->]]]]; eauto.
Qed.

Lemma encodeRune_utf8 r : 0 ≤ r < 1114112 → surrogate r = false → utf8 (encodeRune r) = true.
Proof.
  intros Hr Hs. unfold surrogate in Hs. apply not_true_iff_false in Hs. rewrite in_range_true in Hs.
  unfold encodeRune. destruct (shiftr_divs r) as (->&->&->&->).
  destruct (Z.ltb_spec r 128); [apply utf8_cons; [rewrite code_chr; lia|done]|].
  destruct (Z.ltb_spec r 2048); [|destruct (Z.ltb_spec r 65536)].
  - assert (194 ≤ 192 + r / 64 ≤ 223) as Hc by divs.
    apply (rune2 _ _ 128 191); [rewrite code_chr; lia| |tail_ok].
    rewrite lead_cases by lia. by rewrite (proj2 (in_range_true _ _ _) Hc).
  - assert (224 ≤ 224 + r / 4096 ≤ 239) as Hc by divs. destruct (lead3 _ Hc) as (lo&hi&El&->&->).
    eapply rune3; [rewrite code_chr; lia|exact El| |tail_ok].
    destruct (Z.eqb_spec (224 + r / 4096) 224), (Z.eqb_spec (224 + r / 4096) 237); tail_ok.
  - assert (240 ≤ 240 + r / 262144 ≤ 244) as Hc by divs. destruct (lead4 _ Hc) as (lo&hi&El&->&->).
    eapply rune4; [rewrite code_chr; lia|exact El| |tail_ok|tail_ok].
    destruct (Z.eqb_spec (240 + r / 262144) 240), (Z.eqb_spec (240 + r / 262144) 244); tail_ok.
Qed.
End Utf8.
