(* ===== verification/JSON.v ===== *)
(** * JSON documents (what the source uses of encoding/json)

    [print] is the text [json.MarshalIndent(v, "", "  ")] gives a value: HTML
    characters, control characters, U+2028 and U+2029 are escaped and a byte
    that is no UTF-8 becomes the escape of U+FFFD.  [parse] is the check and
    the reading that [json.Unmarshal] makes of a text: white space, string
    escapes with surrogate pairs, the number grammar, nesting of at most 10000;
    a number keeps its text, as the decoder does.  The text is split into
    runes first ([Utf8.symbols]): outside strings only ASCII has a meaning.
    [parse_print] is the round trip, for any strings: what comes back has its
    strings sanitized. *)

From Stdlib Require Import Ascii.
From stdpp Require Import pretty.
From S2P Require Import Prelude Utf8.

Module JSON.
Import Utf8.

Inductive json :=
| JNull
| JBool (b : bool)
| JNum (lit : string)
| JStr (s : string)
| JArr (l : list json)
| JObj (l : list (string * json)).

Local Notation "a ≟ b" := (Ascii.eqb a b) (at level 70).
Definition DQ : ascii := "034".
Definition BSL : ascii := "092".
Definition NL : ascii := "010".

(** ** Printing *)

Definition hexdigit (n : Z) : ascii := if n <? 10 then chr (48 + n) else chr (87 + n).
Definition escape_u (c : Z) : string :=
  String BSL (String "u" (String "0" (String "0"
    (String (hexdigit (Z.shiftr c 4)) (String (hexdigit (Z.land c 15)) ""))))).

(** The symbol as it stands in a string literal. *)
Definition esc (x : sym) : string :=
  match x with
  | Chr a =>
      if (a ≟ DQ) || (a ≟ BSL) then String BSL (String a "")
      else if a ≟ "008" then String BSL "b"
      else if a ≟ "012" then String BSL "f"
      else if a ≟ NL then String BSL "n"
      else if a ≟ "013" then String BSL "r"
      else if a ≟ "009" then String BSL "t"
      else if (code a <? 32) || (a ≟ "<") || (a ≟ ">") || (a ≟ "&") then escape_u (code a)
      else String a ""
  | Multi m =>
      if String.eqb m (encodeRune 8232) then String BSL "u2028"
      else if String.eqb m (encodeRune 8233) then String BSL "u2029"
      else m
  | Bad => String BSL "ufffd"
  end.
Definition escs (l : list sym) : string := foldr (λ x t, esc x +:+ t) "" l.
Definition quote (s : string) : string := String DQ (escs (symbols s) +:+ String DQ "").

Fixpoint spaces (n : nat) : string := match n with O => "" | S n => String " " (String " " (spaces n)) end.
Definition newline (k : nat) : string := String NL (spaces k).

Fixpoint join (sep : string) (l : list string) : string :=
  match l with
  | [] => ""
  | [t] => t
  | t :: l => t +:+ sep +:+ join sep l
  end.

(** [k] is the depth of indentation. *)
Fixpoint print (k : nat) (v : json) : string :=
  match v with
  | JNull => "null"
  | JBool b => if b then "true" else "false"
  | JNum lit => lit
  | JStr s => quote s
  | JArr [] => "[]"
  | JArr l =>
      "[" +:+ newline (S k) +:+ join (String "," (newline (S k))) (map (print (S k)) l) +:+
      newline k +:+ "]"
  | JObj [] => "{}"
  | JObj l =>
      "{" +:+ newline (S k) +:+
      join (String "," (newline (S k)))
           (map (λ '(key, v), quote key +:+ ": " +:+ print (S k) v) l) +:+
      newline k +:+ "}"
  end.

(** ** Parsing *)

Definition is_ws (a : ascii) : bool := (a ≟ " ") || (a ≟ "009") || (a ≟ NL) || (a ≟ "013").
Fixpoint skip_ws (l : list sym) : list sym :=
  match l with Chr a :: l' => if is_ws a then skip_ws l' else l | _ => l end.

Definition hexval (a : ascii) : option Z :=
  let c := code a in
  if in_range 48 57 c then Some (c - 48)
  else if in_range 97 102 c then Some (c - 87)
  else if in_range 65 70 c then Some (c - 55)
  else None.
Definition hex4 (a b c d : ascii) : option Z :=
  match hexval a, hexval b, hexval c, hexval d with
  | Some a, Some b, Some c, Some d => Some (((a * 16 + b) * 16 + c) * 16 + d)
  | _, _, _, _ => None
  end.

(** [utf16.DecodeRune]. *)
Definition decodePair (r1 r2 : Z) : option Z :=
  if in_range 55296 56319 r1 && in_range 56320 57343 r2
  then Some ((r1 - 55296) * 1024 + (r2 - 56320) + 65536) else None.

Definition simple_escape (a : ascii) : option ascii :=
  if (a ≟ DQ) || (a ≟ BSL) || (a ≟ "/") then Some a
  else if a ≟ "b" then Some "008"%char
  else if a ≟ "f" then Some "012"%char
  else if a ≟ "n" then Some NL
  else if a ≟ "r" then Some "013"%char
  else if a ≟ "t" then Some "009"%char
  else None.

Definition before (t : string) (o : option (string * list sym)) : option (string * list sym) :=
  match o with Some (s, r) => Some (t +:+ s, r) | None => None end.

(** The rest of a string literal: its value and what follows it. *)
Fixpoint unquote (l : list sym) : option (string * list sym) :=
  match l with
  | [] => None
  | Multi m :: l => before m (unquote l)
  | Bad :: l => before fffd (unquote l)
  | Chr a :: l =>
      if a ≟ DQ then Some ("", l)
      else if negb (a ≟ BSL) then
        if code a <? 32 then None else before (String a "") (unquote l)
      else match l with
      | Chr e :: l1 =>
          if e ≟ "u" then
            match l1 with
            | Chr h1 :: Chr h2 :: Chr h3 :: Chr h4 :: l2 =>
                match hex4 h1 h2 h3 h4 with
                | None => None
                | Some r =>
                    if negb (surrogate r) then before (encodeRune r) (unquote l2)
                    else match l2 with
                    | Chr b :: Chr u :: Chr k1 :: Chr k2 :: Chr k3 :: Chr k4 :: l3 =>
                        if (b ≟ BSL) && (u ≟ "u") then
                          match hex4 k1 k2 k3 k4 with
                          | Some r2 =>
                              match decodePair r r2 with
                              | Some rr => before (encodeRune rr) (unquote l3)
                              | None => before fffd (unquote l2)
                              end
                          | None => None
                          end
                        else before fffd (unquote l2)
                    | _ => before fffd (unquote l2)
                    end
                end
            | _ => None
            end
          else match simple_escape e with
          | Some c => before (String c "") (unquote l1)
          | None => None
          end
      | _ => None
      end
  end.

Definition is_digit (a : ascii) : bool := in_range 48 57 (code a).
Fixpoint digits (l : list sym) : string * list sym :=
  match l with
  | Chr a :: l' => if is_digit a then let '(s, r) := digits l' in (String a s, r) else ("", l)
  | _ => ("", l)
  end.

Definition int_part (l : list sym) : option (string * list sym) :=
  match l with
  | Chr a :: l' =>
      if a ≟ "0" then Some ("0", l')
      else if is_digit a then let '(s, r) := digits l' in Some (String a s, r)
      else None
  | _ => None
  end.

Definition some_digits (t : string) (l : list sym) : option (string * list sym) :=
  match digits l with (EmptyString, _) => None | (s, r) => Some (t +:+ s, r) end.

Definition frac_part (l : list sym) : option (string * list sym) :=
  match l with
  | Chr a :: l' => if a ≟ "." then some_digits "." l' else Some ("", l)
  | _ => Some ("", l)
  end.

Definition exp_part (l : list sym) : option (string * list sym) :=
  match l with
  | Chr e :: l' =>
      if (e ≟ "e") || (e ≟ "E") then
        match l' with
        | Chr a :: l2 =>
            if (a ≟ "+") || (a ≟ "-") then some_digits (String e (String a "")) l2
            else some_digits (String e "") l'
        | _ => None
        end
      else Some ("", l)
  | _ => Some ("", l)
  end.

Definition unsigned (l : list sym) : option (string * list sym) :=
  match int_part l with
  | None => None
  | Some (i, l) =>
      match frac_part l with
      | None => None
      | Some (f, l) =>
          match exp_part l with None => None | Some (e, l) => Some (i +:+ f +:+ e, l) end
      end
  end.

Definition number (l : list sym) : option (string * list sym) :=
  match l with
  | Chr a :: l' => if a ≟ "-" then before "-" (unsigned l') else unsigned l
  | _ => None
  end.

Fixpoint literal (w : string) (l : list sym) : option (list sym) :=
  match w, l with
  | EmptyString, _ => Some l
  | String a w, Chr b :: l => if a ≟ b then literal w l else None
  | _, _ => None
  end.

Section lists.
Context (p : list sym → option (json * list sym)).

(** The elements of an array up to its bracket; [m] bounds their number. *)
Fixpoint elements (m : nat) (l : list sym) : option (list json * list sym) :=
  match m with
  | O => None
  | S m =>
      match p l with
      | None => None
      | Some (v, l) =>
          match skip_ws l with
          | Chr a :: l =>
              if a ≟ "," then
                match elements m l with Some (vs, r) => Some (v :: vs, r) | None => None end
              else if a ≟ "]" then Some ([v], l) else None
          | _ => None
          end
      end
  end.

Fixpoint members (m : nat) (l : list sym) : option (list (string * json) * list sym) :=
  match m with
  | O => None
  | S m =>
      match skip_ws l with
      | Chr q :: l =>
          if negb (q ≟ DQ) then None
          else match unquote l with
          | None => None
          | Some (key, l) =>
              match skip_ws l with
              | Chr c :: l =>
                  if negb (c ≟ ":") then None
                  else match p l with
                  | None => None
                  | Some (v, l) =>
                      match skip_ws l with
                      | Chr a :: l =>
                          if a ≟ "," then
                            match members m l with Some (vs, r) => Some ((key, v) :: vs, r) | None => None end
                          else if a ≟ "}" then Some ([(key, v)], l) else None
                      | _ => None
                      end
                  end
              | _ => None
              end
          end
      | _ => None
      end
  end.
End lists.

(** [d] is how many more brackets may be opened.  Every element takes a
    symbol, so the length of the text bounds their number. *)
Fixpoint parse_value (d : nat) (l : list sym) : option (json * list sym) :=
  match skip_ws l with
  | Chr a :: l =>
      if a ≟ DQ then match unquote l with Some (s, r) => Some (JStr s, r) | None => None end
      else if a ≟ "[" then
        match d with
        | O => None
        | S d =>
            match skip_ws l with
            | Chr b :: r =>
                if b ≟ "]" then Some (JArr [], r)
                else match elements (parse_value d) (length l) l with
                     | Some (vs, r) => Some (JArr vs, r) | None => None end
            | _ => None
            end
        end
      else if a ≟ "{" then
        match d with
        | O => None
        | S d =>
            match skip_ws l with
            | Chr b :: r =>
                if b ≟ "}" then Some (JObj [], r)
                else match members (parse_value d) (length l) l with
                     | Some (vs, r) => Some (JObj vs, r) | None => None end
            | _ => None
            end
        end
      else if a ≟ "t" then match literal "rue" l with Some r => Some (JBool true, r) | None => None end
      else if a ≟ "f" then match literal "alse" l with Some r => Some (JBool false, r) | None => None end
      else if a ≟ "n" then match literal "ull" l with Some r => Some (JNull, r) | None => None end
      else match number (Chr a :: l) with Some (lit, r) => Some (JNum lit, r) | None => None end
  | _ => None
  end.

Definition maxNestingDepth : nat := N.to_nat 10000.

Definition parse (s : string) : option json :=
  match parse_value maxNestingDepth (symbols s) with
  | Some (v, l) => match skip_ws l with [] => Some v | _ => None end
  | None => None
  end.

Definition all_digits (s : string) : bool := forallb is_digit (String.list_ascii_of_string s).
(** The value of an integer literal: strconv.ParseUint and strconv.ParseInt,
    before their range checks. *)
Fixpoint digits_val (acc : Z) (s : string) : Z :=
  match s with EmptyString => acc | String a s => digits_val (acc * 10 + (code a - 48)) s end.
Definition uint_val (lit : string) : option Z :=
  match lit with EmptyString => None | _ => if all_digits lit then Some (digits_val 0 lit) else None end.
Definition int_val (lit : string) : option Z :=
  match lit with
  | String a s => if a ≟ "-" then option_map Z.opp (uint_val s) else uint_val lit
  | EmptyString => None
  end.

(** ** What comes back *)

Fixpoint san (v : json) : json :=
  match v with
  | JStr s => JStr (sanitize s)
  | JArr l => JArr (map san l)
  | JObj l => JObj (map (λ '(key, v), (sanitize key, san v)) l)
  | _ => v
  end.

(** At most [d] brackets deep, and every number is an integer as printed. *)
Fixpoint fits (d : nat) (v : json) : Prop :=
  match v with
  | JNum lit => ∃ z : Z, lit = pretty z
  | JArr l => match d with O => False | S d => Forall (fits d) l end
  | JObj l => match d with O => False | S d => Forall (λ kv, fits d kv.2) l end
  | _ => True
  end.

(** ** String literals *)

Lemma chr_cases (P : ascii → Prop) :
  (∀ n, (n < 128)%nat → P (Ascii.ascii_of_nat n)) → ∀ a, code a < 128 → P a.
Proof.
  intros H a Ha. rewrite <-(Ascii.ascii_nat_embedding a). apply H.
  unfold code in Ha. unfold Ascii.nat_of_ascii. lia.
Qed.

Lemma closed_esc x : sym_ok x → closed (esc x).
Proof.
  destruct x as [a|m|]; simpl.
  - revert a. apply chr_cases. intros n Hn.
    do 128 (destruct n as [|n]; [intros t; reflexivity|]). lia.
  - intros Hm. repeat case_match; [intros t; reflexivity..|by apply closed_rune].
  - by intros _ t.
Qed.

(** A symbol printed and read again. *)
Lemma unquote_esc x l : sym_ok x → unquote (symbols (esc x) ++ l) = before (sym_text x) (unquote l).
Proof.
  destruct x as [a|m|]; simpl.
  - revert a. apply chr_cases. intros n Hn.
    do 128 (destruct n as [|n]; [reflexivity|]). lia.
  - intros Hm. destruct (String.eqb_spec m (encodeRune 8232)) as [->|]; [done|].
    destruct (String.eqb_spec m (encodeRune 8233)) as [->|]; [done|].
    by rewrite (proj2 (closed_rune m Hm)).
  - done.
Qed.

Lemma closed_escs l : Forall sym_ok l → closed (escs l).
Proof.
  induction 1 as [|x l Hx Hl IH]; [apply closed_nil|]. apply closed_app; [by apply closed_esc|done].
Qed.

Lemma unquote_escs l r :
  Forall sym_ok l → unquote (symbols (escs l) ++ Chr DQ :: r) = Some (texts l, r).
Proof.
  induction 1 as [|x l Hx Hl IH]; [done|]. simpl. rewrite (closed_esc x Hx), <-app_assoc.
  by rewrite unquote_esc, IH.
Qed.

Lemma symbols_cons a s : code a < 128 → symbols (String a s) = Chr a :: symbols s.
Proof. intros Ha. simpl. by rewrite (proj2 (Z.ltb_lt _ _) Ha). Qed.

Lemma closed_quote s : closed (quote s).
Proof.
  apply closed_cons; [done|]. apply closed_app; [apply closed_escs, symbols_ok|by apply closed_chr].
Qed.

Lemma symbols_quote s : symbols (quote s) = Chr DQ :: symbols (escs (symbols s)) ++ [Chr DQ].
Proof.
  unfold quote. rewrite symbols_cons by done. by rewrite (closed_escs _ (symbols_ok s)).
Qed.

Lemma unquote_quote s r : unquote (symbols (escs (symbols s)) ++ Chr DQ :: r) = Some (sanitize s, r).
Proof. apply unquote_escs, symbols_ok. Qed.

(** ** White space *)

Lemma closed_spaces n : closed (spaces n).
Proof. induction n as [|n IH]; [apply closed_nil|]. simpl. by repeat apply closed_cons. Qed.

Lemma closed_newline k : closed (newline k).
Proof. apply closed_cons; [done|apply closed_spaces]. Qed.

Lemma skip_newline k l : skip_ws (symbols (newline k) ++ l) = skip_ws l.
Proof. unfold newline. simpl. induction k as [|k IH]; [done|]. simpl. exact IH. Qed.

Lemma parse_value_ws d l l' : skip_ws l = skip_ws l' → parse_value d l = parse_value d l'.
Proof. intros E. destruct d; simpl; by rewrite E. Qed.

(** ** Numbers *)

(** What follows does not continue a number. *)
Definition ends_number (l : list sym) : bool :=
  match l with
  | Chr a :: _ => negb (is_digit a || (a ≟ ".") || (a ≟ "e") || (a ≟ "E"))
  | _ => true
  end.

Lemma is_digit_code a : is_digit a = true → code a < 128.
Proof. unfold is_digit. rewrite in_range_true. lia. Qed.

Lemma digits_closed s : all_digits s = true → closed s.
Proof.
  induction s as [|a s IH]; [intros; apply closed_nil|]. unfold all_digits. simpl.
  intros [Ha Hs]%andb_prop. apply closed_cons; [by apply is_digit_code|by apply IH].
Qed.

Lemma digits_read s r : all_digits s = true → ends_number r = true → digits (symbols s ++ r) = (s, r).
Proof.
  induction s as [|a s IH]; intros Hs Hr.
  - destruct r as [|[a|m|] r]; try done. simpl in *. destruct (is_digit a); done.
  - unfold all_digits in Hs. simpl in Hs. apply andb_prop in Hs as [Ha Hs].
    rewrite symbols_cons by (by apply is_digit_code). simpl. rewrite Ha. by rewrite IH.
Qed.

(** The decimal digits of a positive number. *)
Lemma pretty_go_digits x : ∃ p, (∀ s, pretty_N_go x s = p +:+ s) ∧ all_digits p = true ∧
  ((0 < x)%N → ∃ c q, p = String c q ∧ (c ≟ "0") = false).
Proof.
  induction (N.lt_wf_0 x) as [x _ IH].
  assert (x = 0 ∨ 0 < x)%N as [->|Hx] by lia; [exists ""; by split_and!|].
  destruct (IH (x / 10)%N) as (p&Hp&Hd&Hz); [by apply N.div_lt|].
  set (c := pretty_N_char (x mod 10)).
  assert (is_digit c = true) as Hc by (unfold c, pretty_N_char; by repeat case_match).
  exists (p +:+ String c ""). split_and!.
  - intros s. rewrite pretty_N_go_step by done. rewrite Hp. by rewrite string_app_assoc.
  - clear Hp Hz. revert Hd. unfold all_digits. induction p as [|a p IHp]; simpl; [by rewrite Hc|].
    intros [-> Hd]%andb_prop. by apply IHp.
  - intros _. destruct (decide (x / 10 = 0)%N) as [E|E].
    + specialize (Hp ""). rewrite E, pretty_N_go_0, string_app_nil in Hp. subst p.
      exists c, "". split; [done|].
      assert (x < 10)%N by (by apply N.div_small_iff).
      unfold c. rewrite N.mod_small by done. destruct x as [|x]; [done|].
      repeat (destruct x as [x|x|]; try done; try lia).
    + destruct Hz as (c0&q&->&?); [by apply N.neq_0_lt_0|]. exists c0, (q +:+ String c ""). done.
Qed.

Lemma pretty_N_digits (n : N) : all_digits (pretty n) = true ∧
  (pretty n = "0" ∨ ∃ c q, pretty n = String c q ∧ (c ≟ "0") = false).
Proof.
  unfold pretty, pretty_N. case_decide as E; [split; [done|by left]|].
  destruct (pretty_go_digits n) as (p&Hp&Hd&Hz). rewrite Hp, string_app_nil.
  split; [done|right]. apply Hz. lia.
Qed.

Lemma unsigned_read (n : N) r : ends_number r = true → unsigned (symbols (pretty n) ++ r) = Some (pretty n, r).
Proof.
  intros Hr. destruct (pretty_N_digits n) as [Hd Hz].
  assert (frac_part r = Some ("", r) ∧ exp_part r = Some ("", r)) as [Hf He].
  { destruct r as [|[a|m|] r]; try done. simpl in *.
    by destruct (is_digit a), (a ≟ "."), (a ≟ "e"), (a ≟ "E"). }
  assert (int_part (symbols (pretty n) ++ r) = Some (pretty n, r)) as Hi.
  { destruct Hz as [->|(c&q&E&Hc)]; [done|]. rewrite E in *. unfold all_digits in Hd. simpl in Hd.
    apply andb_prop in Hd as [Hd1 Hd2]. rewrite symbols_cons by (by apply is_digit_code).
    simpl. rewrite Hc, Hd1. by rewrite (digits_read q r Hd2 Hr). }
  unfold unsigned. rewrite Hi, Hf, He. by rewrite string_app_nil.
Qed.

(** The first character of a printed integer. *)
Definition num_char (a : ascii) : bool := is_digit a || (a ≟ "-").

Lemma pretty_Z_cases (z : Z) :
  (∃ n : N, pretty z = pretty n ∧ z = Z.of_N n) ∨
  (∃ n : N, pretty z = String "-" (pretty n) ∧ z = - Z.of_N n).
Proof.
  destruct z as [|p|p]; [left; by exists 0%N|left; by exists (Npos p)|right; by exists (Npos p)].
Qed.

Lemma closed_pretty (z : Z) : closed (pretty z).
Proof.
  destruct (pretty_Z_cases z) as [(n&->&_)|(n&->&_)]; [|apply closed_cons; [done|]];
    apply digits_closed, pretty_N_digits.
Qed.

Lemma pretty_first (z : Z) : ∃ a t, symbols (pretty z) = Chr a :: t ∧ num_char a = true.
Proof.
  destruct (pretty_Z_cases z) as [(n&->&_)|(n&->&_)]; [|rewrite symbols_cons by done; by eexists _, _].
  destruct (pretty_N_digits n) as [Hd [E|(c&q&E&_)]]; rewrite E in *; [by eexists _, _|].
  unfold all_digits in Hd. simpl in Hd. apply andb_prop in Hd as [Hc _].
  rewrite symbols_cons by (by apply is_digit_code). eexists _, _. split; [done|].
  unfold num_char. by rewrite Hc.
Qed.

Lemma number_read (z : Z) r : ends_number r = true → number (symbols (pretty z) ++ r) = Some (pretty z, r).
Proof.
  intros Hr. destruct (pretty_Z_cases z) as [(n&E&_)|(n&E&_)].
  - destruct (pretty_first z) as (a&t&Es&Ha). rewrite E in *. pose proof (unsigned_read n r Hr) as Hu.
    rewrite Es in *. simpl in *. unfold num_char in Ha. destruct (a ≟ "-") eqn:Em; [|done].
    apply Ascii.eqb_eq in Em as ->. done.
  - rewrite E, symbols_cons by done. simpl. by rewrite unsigned_read.
Qed.

(** ** The value of an integer literal *)

Lemma digits_val_go x s : digits_val 0 (pretty_N_go x s) = digits_val (Z.of_N x) s.
Proof.
  revert s. induction (N.lt_wf_0 x) as [x _ IH]. intros s.
  assert (x = 0 ∨ 0 < x)%N as [->|Hx] by lia; [by rewrite pretty_N_go_0|].
  rewrite pretty_N_go_step, IH by (done || by apply N.div_lt). simpl. f_equal.
  pose proof (N.mod_lt x 10 ltac:(done)) as Hm. pose proof (N.div_mod x 10 ltac:(done)) as Hdm.
  assert (code (pretty_N_char (x mod 10)) - 48 = Z.of_N (x mod 10)) as ->; [|lia].
  revert Hm. generalize (x mod 10)%N as y. intros y Hy.
  assert (y = 0 ∨ y = 1 ∨ y = 2 ∨ y = 3 ∨ y = 4 ∨ y = 5 ∨ y = 6 ∨ y = 7 ∨ y = 8 ∨ y = 9)%N as Hc by lia.
  by repeat destruct Hc as [->|Hc]; [..|rewrite Hc].
Qed.

Lemma uint_val_pretty (n : N) : uint_val (pretty n) = Some (Z.of_N n).
Proof.
  destruct (pretty_N_digits n) as [Hd Hz]. unfold uint_val.
  assert (digits_val 0 (pretty n) = Z.of_N n) as E.
  { unfold pretty, pretty_N. case_decide as E; [by subst|]. apply digits_val_go. }
  rewrite Hd, E. destruct Hz as [->|(c&q&->&_)]; done.
Qed.

Lemma int_val_pretty (z : Z) : int_val (pretty z) = Some z.
Proof.
  destruct (pretty_Z_cases z) as [(n&E&->)|(n&E&->)].
  - rewrite E. destruct (pretty_N_digits n) as [Hd Hz]. pose proof (uint_val_pretty n) as Hu.
    destruct Hz as [E1|(c&q&E1&Hc)]; rewrite E1 in *; [done|]. simpl.
    destruct (c ≟ "-") eqn:Em; [|done]. apply Ascii.eqb_eq in Em as ->. done.
  - rewrite E. simpl. by rewrite uint_val_pretty.
Qed.

Lemma uint_val_pretty_Z (z : Z) : 0 ≤ z → uint_val (pretty z) = Some z.
Proof.
  intros Hz. destruct (pretty_Z_cases z) as [(n&->&->)|(n&E&Hn)]; [apply uint_val_pretty|].
  assert (z = 0) as -> by lia. done.
Qed.

(** ** The round trip *)

Lemma closed_join sep l : closed sep → Forall closed l → closed (join sep l).
Proof.
  intros Hs. induction 1 as [|t l Ht Hl IH]; [apply closed_nil|]. destruct l as [|t' l]; [done|].
  by repeat apply closed_app.
Qed.

Lemma closed_sep k : closed (String "," (newline k)).
Proof. apply closed_cons; [done|apply closed_newline]. Qed.

Lemma closed_print d k v : fits d v → closed (print k v).
Proof.
  revert k v. induction d as [|d IH]; (intros k [|b|lit|s|l|l] H;
    [by intros t|by destruct b; intros t|destruct H as [z ->]; apply closed_pretty|apply closed_quote|..]);
    try done; cbn [fits] in H.
  - destruct l as [|v l]; [by intros t|]. cbn [print].
    repeat apply closed_app; try apply closed_newline; try (by apply closed_chr).
    apply closed_join; [apply closed_sep|]. apply Forall_fmap. eapply Forall_impl; [exact H|].
    intros x Hx. by apply IH.
  - destruct l as [|kv l]; [by intros t|]. cbn [print].
    repeat apply closed_app; try apply closed_newline; try (by apply closed_chr).
    apply closed_join; [apply closed_sep|]. apply Forall_fmap. eapply Forall_impl; [exact H|].
    intros [key x] Hx. simpl. apply closed_app; [apply closed_quote|].
    apply closed_cons; [done|]. apply closed_cons; [done|]. by apply IH.
Qed.

(** A printed value starts with a character that is no white space and no
    closing bracket. *)
Definition opens (l : list sym) : Prop :=
  ∃ a t, l = Chr a :: t ∧ is_ws a = false ∧ (a ≟ "]") = false ∧ (a ≟ "}") = false.

Lemma opens_skip l r : opens l → skip_ws (l ++ r) = l ++ r.
Proof. intros (a&t&->&Ha&_). simpl. by rewrite Ha. Qed.

Lemma num_char_cases a : num_char a = true →
  is_ws a = false ∧ (a ≟ "]") = false ∧ (a ≟ "}") = false ∧
  (a ≟ DQ) = false ∧ (a ≟ "[") = false ∧ (a ≟ "{") = false ∧ (a ≟ "t") = false ∧ (a ≟ "f") = false ∧
  (a ≟ "n") = false.
Proof.
  unfold num_char. intros [Ha|Ha%Ascii.eqb_eq]%orb_prop; [|by subst].
  pose proof (is_digit_code a Ha) as Hc. revert a Hc Ha. apply (chr_cases (λ a, is_digit a = true → _)).
  intros n Hn. do 128 (destruct n as [|n]; [vm_compute; first [discriminate|intros _; by split_and!]|]). lia.
Qed.

Lemma print_opens d k v : fits d v → opens (symbols (print k v)).
Proof.
  destruct v as [|b|lit|s|l|l]; intros H.
  - by eexists _, _.
  - destruct b; by eexists _, _.
  - assert (∃ z : Z, lit = pretty z) as [z ->] by (by destruct d).
    destruct (pretty_first z) as (a&t&E&Ha). apply num_char_cases in Ha as (?&?&?&_).
    exists a, t. by cbn [print].
  - exists DQ. cbn [print]. rewrite symbols_quote. by eexists.
  - destruct l; by eexists _, _.
  - destruct l; by eexists _, _.
Qed.

Lemma join_length sep l :
  closed sep → Forall (λ t, closed t ∧ (1 ≤ length (symbols t))%nat) l →
  (length l ≤ length (symbols (join sep l)))%nat.
Proof.
  intros Hs. induction 1 as [|t l [Hc Ht] Hl IH]; [done|]. destruct l as [|t' l]; [done|].
  change (join sep (t :: t' :: l)) with (t +:+ sep +:+ join sep (t' :: l)).
  rewrite Hc, Hs, !length_app. cbn [length] in *. lia.
Qed.

Section list_reading.
Context (p : list sym → option (json * list sym)) (pr : json → string) (ok : json → Prop).
Context (Hp : ∀ v r, ok v → ends_number r = true → p (symbols (pr v) ++ r) = Some (san v, r)).
Context (Hws : ∀ l l', skip_ws l = skip_ws l' → p l = p l').
Context (Hcl : ∀ v, ok v → closed (pr v)).

Lemma elements_ws m l l' : skip_ws l = skip_ws l' → elements p m l = elements p m l'.
Proof. intros E. destruct m; simpl; [done|]. by rewrite (Hws _ _ E). Qed.
Lemma members_ws m l l' : skip_ws l = skip_ws l' → members p m l = members p m l'.
Proof. intros E. destruct m; simpl; [done|]. by rewrite E. Qed.

Lemma elements_print m k k' v l r :
  Forall ok (v :: l) → (length l < m)%nat →
  elements p m (symbols (join (String "," (newline k)) (map pr (v :: l))) ++
                symbols (newline k') ++ Chr "]" :: r) = Some (map san (v :: l), r).
Proof.
  revert m v. induction l as [|w l IH]; intros m v [Hv Hl]%Forall_cons Hm;
    (destruct m as [|m]; [simpl in Hm; lia|]).
  - cbn [map join elements]. rewrite Hp by done. rewrite skip_newline. done.
  - change (join _ (map pr (v :: w :: l))) with
      (pr v +:+ String "," (newline k) +:+ join (String "," (newline k)) (map pr (w :: l))).
    rewrite (Hcl v Hv), (closed_sep k), <-!app_assoc. cbn [elements]. rewrite Hp by done.
    rewrite symbols_cons by done. cbn [app skip_ws]. change (is_ws ",") with false. cbn iota.
    change ("," ≟ ",") with true. cbn iota.
    rewrite (elements_ws m _ _ (skip_newline k _)), IH by (done || simpl in *; lia). done.
Qed.

Definition pr_member (kv : string * json) : string := quote kv.1 +:+ ": " +:+ pr kv.2.

Lemma symbols_member key v r :
  ok v → symbols (pr_member (key, v)) ++ r =
    Chr DQ :: symbols (escs (symbols key)) ++ Chr DQ :: Chr ":" :: Chr " " :: symbols (pr v) ++ r.
Proof.
  intros Hv. unfold pr_member. cbn [fst snd]. rewrite (closed_quote key), symbols_quote.
  change (": " +:+ pr v) with (String ":" (String " " (pr v))). rewrite !symbols_cons by done.
  cbn [app]. by rewrite <-!app_assoc.
Qed.

Lemma closed_member kv : ok kv.2 → closed (pr_member kv).
Proof.
  intros Hv. apply closed_app; [apply closed_quote|].
  by apply closed_cons; [|apply closed_cons; [|apply Hcl]].
Qed.

Lemma members_step m key v r :
  ok v → ends_number r = true →
  members p (S m) (symbols (pr_member (key, v)) ++ r) =
  match skip_ws r with
  | Chr a :: l =>
      if a ≟ "," then
        match members p m l with
        | Some (vs, r) => Some ((sanitize key, san v) :: vs, r) | None => None end
      else if a ≟ "}" then Some ([(sanitize key, san v)], l) else None
  | _ => None
  end.
Proof.
  intros Hv Hr. rewrite symbols_member by done. cbn [members skip_ws].
  change (is_ws DQ) with false. cbn iota. change (negb (DQ ≟ DQ)) with false. cbn iota.
  rewrite unquote_quote. cbn [skip_ws]. change (is_ws ":") with false. cbn iota.
  change (negb (":" ≟ ":")) with false. cbn iota.
  rewrite (Hws _ (symbols (pr v) ++ r)) by done. by rewrite Hp.
Qed.

Lemma members_print m k k' kv l r :
  Forall (λ kv, ok kv.2) (kv :: l) → (length l < m)%nat →
  members p m (symbols (join (String "," (newline k)) (map pr_member (kv :: l))) ++
               symbols (newline k') ++ Chr "}" :: r) =
    Some (map (λ '(key, v), (sanitize key, san v)) (kv :: l), r).
Proof.
  revert m kv. induction l as [|w l IH]; intros m [key v] [Hv Hl]%Forall_cons Hm;
    (destruct m as [|m]; [simpl in Hm; lia|]).
  - cbn [map join]. rewrite members_step by done. by rewrite skip_newline.
  - change (join _ (map pr_member ((key, v) :: w :: l))) with
      (pr_member (key, v) +:+ String "," (newline k) +:+ join (String "," (newline k)) (map pr_member (w :: l))).
    rewrite (closed_member (key, v) Hv), (closed_sep k), <-!app_assoc, members_step by done.
    rewrite symbols_cons by done. cbn [app skip_ws].
    change (is_ws ",") with false. cbn iota. change ("," ≟ ",") with true. cbn iota.
    rewrite (members_ws m _ _ (skip_newline k _)), IH by (done || simpl in *; lia). done.
Qed.
End list_reading.

Lemma scalar_read d k v r :
  match v with JArr _ | JObj _ => False | _ => True end → fits d v → ends_number r = true →
  parse_value d (symbols (print k v) ++ r) = Some (san v, r).
Proof.
  intros Hsc H Hr. destruct v as [|b|lit|s|l|l]; try done.
  - by destruct d.
  - by destruct d, b.
  - assert (∃ z : Z, lit = pretty z) as [z ->] by (by destruct d). cbn [print san].
    destruct (pretty_first z) as (a&t&E&Ha). pose proof (number_read z r Hr) as Hn. rewrite E in *.
    apply num_char_cases in Ha as (H1&_&_&H2&H3&H4&H5&H6&H7).
    destruct d; cbn [parse_value app skip_ws] in *; rewrite H1, H2, H3, H4, H5, H6, H7, Hn; done.
  - cbn [print san]. rewrite symbols_quote. cbn [app].
    rewrite <-app_assoc. cbn [app].
    destruct d; cbn [parse_value skip_ws]; change (is_ws DQ) with false; cbn iota;
      change (DQ ≟ DQ) with true; cbn iota; by rewrite unquote_quote.
Qed.

(** The text of a container: bracket, indented entries, bracket. *)
Lemma symbols_box (o c : ascii) k k' J r :
  code o < 128 → code c < 128 → closed J →
  symbols (String o "" +:+ newline k' +:+ J +:+ newline k +:+ String c "") ++ r =
  Chr o :: symbols (newline k') ++ symbols J ++ symbols (newline k) ++ Chr c :: r.
Proof.
  intros Ho Hc HJ. rewrite (closed_chr o Ho), (closed_newline k'), HJ, (closed_newline k).
  rewrite !symbols_cons by done. cbn [app symbols]. by rewrite <-!app_assoc.
Qed.

Lemma join_opens sep t l : closed t → opens (symbols t) → opens (symbols (join sep (t :: l))).
Proof.
  intros Hc Ho. destruct l as [|t' l]; [done|].
  change (join sep (t :: t' :: l)) with (t +:+ sep +:+ join sep (t' :: l)). rewrite Hc.
  destruct Ho as (a&u&->&?). cbn [app]. by eexists _, _.
Qed.

Lemma opens_length l : opens l → (1 ≤ length l)%nat.
Proof. intros (a&t&->&_). cbn [length]. lia. Qed.

Lemma entries_text k t l :
  Forall (λ t, closed t ∧ opens (symbols t)) (t :: l) →
  let J := join (String "," (newline k)) (t :: l) in
  closed J ∧ opens (symbols J) ∧ (length l < length (symbols J))%nat.
Proof.
  intros H J. split_and!.
  - apply closed_join; [apply closed_sep|]. eapply Forall_impl; [exact H|]. by intros ? [].
  - apply Forall_inv in H as []. by apply join_opens.
  - apply (join_length (String "," (newline k)) (t :: l)); [apply closed_sep|].
    eapply Forall_impl; [exact H|]. intros x []. split; [done|by apply opens_length].
Qed.

(** Reading a bracket and its entries. *)
Lemma parse_array d k k' J vs r :
  closed J → opens (symbols J) →
  (∀ m, (length (symbols J) ≤ m)%nat →
     elements (parse_value d) m (symbols J ++ symbols (newline k) ++ Chr "]" :: r) = Some (vs, r)) →
  parse_value (S d) (symbols ("[" +:+ newline k' +:+ J +:+ newline k +:+ "]") ++ r) = Some (JArr vs, r).
Proof.
  intros Hc Ho He. rewrite symbols_box by done. cbn [parse_value skip_ws].
  change (is_ws "[") with false. cbn iota. change ("[" ≟ DQ) with false. change ("[" ≟ "[") with true. cbn iota.
  rewrite skip_newline, opens_skip by done.
  rewrite (elements_ws _ (parse_value_ws d) _ _ _ (skip_newline k' _)), He
    by (rewrite !length_app; lia).
  destruct Ho as (a&t&->&_&Ha&_). cbn [app]. by rewrite Ha.
Qed.

Lemma parse_object d k k' J vs r :
  closed J → opens (symbols J) →
  (∀ m, (length (symbols J) ≤ m)%nat →
     members (parse_value d) m (symbols J ++ symbols (newline k) ++ Chr "}" :: r) = Some (vs, r)) →
  parse_value (S d) (symbols ("{" +:+ newline k' +:+ J +:+ newline k +:+ "}") ++ r) = Some (JObj vs, r).
Proof.
  intros Hc Ho He. rewrite symbols_box by done. cbn [parse_value skip_ws].
  change (is_ws "{") with false. cbn iota. change ("{" ≟ DQ) with false. change ("{" ≟ "[") with false.
  change ("{" ≟ "{") with true. cbn iota.
  rewrite skip_newline, opens_skip by done.
  rewrite (members_ws _ _ _ _ (skip_newline k' _)), He by (rewrite !length_app; lia).
  destruct Ho as (a&t&->&_&_&Ha). cbn [app]. by rewrite Ha.
Qed.

Lemma parse_value_print d k v r :
  fits d v → ends_number r = true → parse_value d (symbols (print k v) ++ r) = Some (san v, r).
Proof.
  revert k v r. induction d as [|d IH]; intros k v r H Hr.
  { destruct v; try done; by apply scalar_read. }
  destruct v as [|b|lit|s|l|l]; try by apply scalar_read.
  - destruct l as [|v l]; [done|]. cbn [fits] in H.
    destruct (entries_text (S k) (print (S k) v) (map (print (S k)) l)) as (Hc&Ho&Hl).
    { change (_ :: map _ l) with (map (print (S k)) (v :: l)). apply Forall_fmap. eapply Forall_impl; [exact H|]. intros x Hx.
      split; [by eapply closed_print|by eapply print_opens]. }
    apply parse_array; [done..|]. intros m Hm.
    apply (elements_print (parse_value d) (print (S k)) (fits d)); try done.
    + intros. by apply IH.
    + apply parse_value_ws.
    + intros. by eapply closed_print.
    + rewrite length_map in Hl. by eapply Nat.lt_le_trans.
  - destruct l as [|kv l]; [done|]. cbn [fits] in H.
    assert (∀ kv : string * json, (let '(key, v) := kv in quote key +:+ ": " +:+ print (S k) v) =
      pr_member (print (S k)) kv) as Epr by (by intros []).
    destruct (entries_text (S k) (pr_member (print (S k)) kv) (map (pr_member (print (S k))) l)) as (Hc&Ho&Hl).
    { change (_ :: map _ l) with (map (pr_member (print (S k))) (kv :: l)). apply Forall_fmap. eapply Forall_impl; [exact H|].
      intros [key x] Hx. split.
      - apply (closed_member _ (fits d)); [intros; by eapply closed_print|done].
      - exists DQ. unfold pr_member. cbn [fst snd]. rewrite (closed_quote key), symbols_quote. by eexists. }
    cbn [print]. rewrite (map_ext _ _ Epr).
    apply parse_object; [done..|]. intros m Hm.
    apply (members_print (parse_value d) (print (S k)) (fits d)); try done.
    + intros. by apply IH.
    + apply parse_value_ws.
    + intros. by eapply closed_print.
    + rewrite length_map in Hl. by eapply Nat.lt_le_trans.
Qed.

(** What [MarshalIndent] writes, [Unmarshal] reads, with every string sanitized. *)
Lemma parse_print v : fits maxNestingDepth v → parse (print 0 v) = Some (san v).
Proof.
  intros H. unfold parse. rewrite <-(app_nil_r (symbols _)). by rewrite parse_value_print.
Qed.

(** ** Whatever is read is valid UTF-8 *)

Lemma hexval_range a x : hexval a = Some x → 0 ≤ x < 16.
Proof. unfold hexval. repeat case_match; intros [= <-]; rewrite in_range_true in *; lia. Qed.

Lemma hex4_range a b c d x : hex4 a b c d = Some x → 0 ≤ x < 65536.
Proof.
  unfold hex4. destruct (hexval a) as [xa|] eqn:Ea, (hexval b) as [xb|] eqn:Eb, (hexval c) as [xc|] eqn:Ec,
    (hexval d) as [xd|] eqn:Ed; try done. intros [= <-].
  apply hexval_range in Ea, Eb, Ec, Ed. lia.
Qed.

Lemma decodePair_utf8 r1 r2 r : decodePair r1 r2 = Some r → utf8 (encodeRune r) = true.
Proof.
  unfold decodePair. case_match eqn:E; [|done]. intros [= <-]. apply andb_prop in E as [E1 E2].
  rewrite in_range_true in E1, E2. apply encodeRune_utf8; [lia|]. unfold surrogate.
  apply not_true_iff_false. rewrite in_range_true. lia.
Qed.

Lemma hex4_utf8 a b c d r : hex4 a b c d = Some r → negb (surrogate r) = true → utf8 (encodeRune r) = true.
Proof. intros Hr%hex4_range Hs%negb_true_iff. apply encodeRune_utf8; [lia|done]. Qed.

(** A simple escape stands for an ASCII character. *)
Lemma simple_escape_utf8 e c : simple_escape e = Some c → utf8 (String c "") = true.
Proof.
  unfold simple_escape. intros H. apply utf8_cons; [|done].
  destruct ((e ≟ DQ) || (e ≟ BSL) || (e ≟ "/")) eqn:E; [|by repeat case_match; simplify_eq].
  injection H as <-. by apply orb_prop in E as [[E|E]%orb_prop|E]; apply Ascii.eqb_eq in E as ->.
Qed.

(** What a prefix of the symbols [l] yields: valid text, and a rest of [l]. *)
Definition reads (l : list sym) (o : option (string * list sym)) : Prop :=
  match o with
  | Some (s, r) => utf8 s = true ∧ Forall sym_ok r ∧ (length r < length l)%nat
  | None => True
  end.

Lemma reads_before t l l' o :
  utf8 t = true → (length l' ≤ length l)%nat → reads l' o → reads l (before t o).
Proof.
  intros Ht Hl. destruct o as [[s r]|]; [|done]. simpl. intros (Hs&Hr&Hlen).
  split_and!; [by apply utf8_app|done|lia].
Qed.

Lemma unquote_reads l : Forall sym_ok l → reads l (unquote l).
Proof.
  remember (length l) as n eqn:Hn. revert l Hn. induction n as [n IH] using lt_wf_ind. intros l -> H.
  assert (∀ t l', Forall sym_ok l' → (length l' < length l)%nat → utf8 t = true →
            reads l (before t (unquote l'))) as Hstep.
  { intros t l' Hl' Hlen Ht. eapply reads_before; [done| |by eapply IH]. lia. }
  destruct l as [|[a|m|] l]; [done|..]; apply Forall_cons in H as [Hx H]; cbn [unquote].
  - destruct (a ≟ DQ); [by split_and!; [| |simpl; lia]|].
    destruct (negb (a ≟ BSL)).
    { case_match; [done|]. apply Hstep; [done|simpl; lia|by apply utf8_cons]. }
    destruct l as [|[e|m|] l1]; try done. apply Forall_cons in H as [_ H].
    destruct (e ≟ "u").
    2:{ destruct (simple_escape e) as [c|] eqn:Es; [|done].
        apply Hstep; [done|simpl; lia|by eapply simple_escape_utf8]. }
    do 4 (destruct l1 as [|[?|?|] l1]; try done; apply Forall_cons in H as [_ H]).
    destruct (hex4 _ _ _ _) as [r|] eqn:E4; [|done].
    destruct (negb (surrogate r)) eqn:Es; [apply Hstep; [done|simpl; lia|by eapply hex4_utf8]|].
    assert (reads (Chr a :: Chr e :: Chr a0 :: Chr a1 :: Chr a2 :: Chr a3 :: l1) (before fffd (unquote l1)))
      as Hf by (apply Hstep; [done|simpl; lia|done]).
    destruct l1 as [|[b|?|] [|[u|?|] [|[k1|?|] [|[k2|?|] [|[k3|?|] [|[k4|?|] l3]]]]]]; try exact Hf.
    destruct ((b ≟ BSL) && (u ≟ "u")); [|exact Hf].
    destruct (hex4 k1 k2 k3 k4) as [r2|]; [|done]. destruct (decodePair r r2) as [rr|] eqn:Ed; [|exact Hf].
    apply Hstep; [by do 6 apply Forall_inv_tail in H|simpl; lia|by eapply decodePair_utf8].
  - apply Hstep; [done|simpl; lia|by apply rune_utf8].
  - apply Hstep; [done|simpl; lia|done].
Qed.

(** The rest after a token is a rest of the text. *)
Lemma skip_ws_suffix l : skip_ws l `suffix_of` l.
Proof.
  induction l as [|[a|m|] l IH]; simpl; try done. case_match; [|done]. by apply suffix_cons_r.
Qed.
Lemma digits_suffix l : (digits l).2 `suffix_of` l.
Proof.
  induction l as [|[a|m|] l IH]; simpl; try done. case_match; [|done].
  destruct (digits l) as [t r]. by apply suffix_cons_r.
Qed.
Lemma some_digits_suffix t l u r : some_digits t l = Some (u, r) → r `suffix_of` l.
Proof.
  unfold some_digits. pose proof (digits_suffix l) as H. destruct (digits l) as [[|a w] r'];
    intros [= <- <-]. done.
Qed.
Lemma int_part_suffix l t r : int_part l = Some (t, r) → r `suffix_of` l.
Proof.
  unfold int_part. destruct l as [|[a|m|] l]; try done. case_match; [intros [= _ <-]; by apply suffix_cons_r|].
  case_match; [|done]. pose proof (digits_suffix l) as Hd. destruct (digits l) as [u r'].
  intros [= _ <-]. by apply suffix_cons_r.
Qed.
Lemma frac_part_suffix l t r : frac_part l = Some (t, r) → r `suffix_of` l.
Proof.
  unfold frac_part. destruct l as [|[a|m|] l]; try (by intros [= _ <-]).
  case_match; [|by intros [= _ <-]]. intros ?%some_digits_suffix. by apply suffix_cons_r.
Qed.
Lemma exp_part_suffix l t r : exp_part l = Some (t, r) → r `suffix_of` l.
Proof.
  unfold exp_part. destruct l as [|[e|m|] l]; try (by intros [= _ <-]).
  case_match; [|by intros [= _ <-]]. destruct l as [|[a|m|] l]; try done.
  case_match; intros ?%some_digits_suffix; [by apply suffix_cons_r, suffix_cons_r|by apply suffix_cons_r].
Qed.
Lemma number_suffix l t r : number l = Some (t, r) → r `suffix_of` l.
Proof.
  assert (∀ l t, unsigned l = Some (t, r) → r `suffix_of` l) as Hu.
  { intros l' t'. unfold unsigned. destruct (int_part l') as [[i l1]|] eqn:E1; [|done].
    destruct (frac_part l1) as [[f l2]|] eqn:E2; [|done]. destruct (exp_part l2) as [[e l3]|] eqn:E3; [|done].
    intros [= _ <-]. apply int_part_suffix in E1. apply frac_part_suffix in E2. apply exp_part_suffix in E3.
    by etrans; [exact E3|]; etrans. }
  unfold number. destruct l as [|[a|m|] l]; try done. case_match; [|by apply Hu].
  unfold before. destruct (unsigned l) as [[u r']|] eqn:E; [|done]. intros [= _ <-].
  apply suffix_cons_r. by eapply Hu.
Qed.
Lemma literal_suffix w l r : literal w l = Some r → r `suffix_of` l.
Proof.
  revert l. induction w as [|a w IH]; intros l; [by intros [= <-]|].
  destruct l as [|[b|m|] l]; try done. simpl. case_match; [|done]. intros ?%IH. by apply suffix_cons_r.
Qed.

Lemma suffix_ok r l : r `suffix_of` l → Forall sym_ok l → Forall sym_ok r.
Proof. intros [k ->] [_ ?]%Forall_app. done. Qed.

Fixpoint text_ok (v : json) : bool :=
  match v with
  | JStr s => utf8 s
  | JArr l => forallb text_ok l
  | JObj l => forallb (λ kv, utf8 kv.1 && text_ok kv.2) l
  | _ => true
  end.

Definition good_rest {A} (P : A → bool) (o : option (A * list sym)) : Prop :=
  match o with Some (x, r) => P x = true ∧ Forall sym_ok r | None => True end.

Lemma next_ok l a r : Forall sym_ok l → skip_ws l = Chr a :: r → Forall sym_ok r.
Proof.
  intros Hl E. pose proof (suffix_ok _ _ (skip_ws_suffix l) Hl) as H. rewrite E in H.
  by apply Forall_inv_tail in H.
Qed.

Section list_text.
Context (p : list sym → option (json * list sym)).
Context (Hp : ∀ l, Forall sym_ok l → good_rest text_ok (p l)).

Lemma elements_text m l : Forall sym_ok l → good_rest (forallb text_ok) (elements p m l).
Proof.
  revert l. induction m as [|m IH]; intros l Hl; [done|]. cbn [elements].
  specialize (Hp l Hl). destruct (p l) as [[v l1]|]; [|done]. destruct Hp as [Hv Hl1].
  destruct (skip_ws l1) as [|[a|mm|] l2] eqn:E; try done. pose proof (next_ok _ _ _ Hl1 E) as Hl2.
  destruct (a ≟ ","); [|destruct (a ≟ "]"); [|done]; simpl; by rewrite Hv].
  specialize (IH l2 Hl2). destruct (elements p m l2) as [[vs r]|]; [|done]. destruct IH. simpl. by rewrite Hv.
Qed.

Lemma members_text m l :
  Forall sym_ok l → good_rest (forallb (λ kv, utf8 kv.1 && text_ok kv.2)) (members p m l).
Proof.
  revert l. induction m as [|m IH]; intros l Hl; [done|]. cbn [members].
  destruct (skip_ws l) as [|[q|mm|] l0] eqn:E0; try done. pose proof (next_ok _ _ _ Hl E0) as Hl0.
  destruct (negb _); [done|]. pose proof (unquote_reads l0 Hl0) as Hu.
  destruct (unquote l0) as [[key l1]|]; [|done]. destruct Hu as (Hkey&Hl1&_).
  destruct (skip_ws l1) as [|[c|mm|] l2] eqn:E1; try done. pose proof (next_ok _ _ _ Hl1 E1) as Hl2.
  destruct (negb _); [done|]. specialize (Hp l2 Hl2). destruct (p l2) as [[v l3]|]; [|done].
  destruct Hp as [Hv Hl3]. destruct (skip_ws l3) as [|[a|mm|] l4] eqn:E3; try done.
  pose proof (next_ok _ _ _ Hl3 E3) as Hl4.
  destruct (a ≟ ","); [|destruct (a ≟ "}"); [|done]; simpl; by rewrite Hkey, Hv].
  specialize (IH l4 Hl4). destruct (members p m l4) as [[vs r]|]; [|done].
  destruct IH. simpl. by rewrite Hkey, Hv.
Qed.
End list_text.

Lemma string_text l :
  Forall sym_ok l →
  good_rest text_ok (match unquote l with Some (s, r) => Some (JStr s, r) | None => None end).
Proof.
  intros Hl. pose proof (unquote_reads l Hl) as Hu. destruct (unquote l) as [[s r]|]; [|done].
  by destruct Hu as (?&?&_).
Qed.

Lemma word_text w v l :
  Forall sym_ok l → text_ok v = true →
  good_rest text_ok (match literal w l with Some r => Some (v, r) | None => None end).
Proof.
  intros Hl Hv. destruct (literal w l) as [r|] eqn:E; [|done]. split; [done|].
  by eapply suffix_ok; [eapply literal_suffix|].
Qed.

Lemma number_text l :
  Forall sym_ok l →
  good_rest text_ok (match number l with Some (lit, r) => Some (JNum lit, r) | None => None end).
Proof.
  intros Hl. destruct (number l) as [[t r]|] eqn:E; [|done]. split; [done|].
  by eapply suffix_ok; [eapply number_suffix|].
Qed.

Lemma parse_value_text d l : Forall sym_ok l → good_rest text_ok (parse_value d l).
Proof.
  revert l. induction d as [|d IH]; intros l Hl; cbn [parse_value];
    pose proof (suffix_ok _ _ (skip_ws_suffix l) Hl) as Hs;
    (destruct (skip_ws l) as [|[a|m|] l1]; [done| |done..]); pose proof (Forall_inv_tail Hs) as Hl1;
    (destruct (a ≟ DQ); [by apply string_text|]);
    (destruct (a ≟ "["); [|destruct (a ≟ "{"); [|
       destruct (a ≟ "t"); [by apply word_text|]; destruct (a ≟ "f"); [by apply word_text|];
       destruct (a ≟ "n"); [by apply word_text|by apply number_text]]]); try done.
  - pose proof (suffix_ok _ _ (skip_ws_suffix l1) Hl1) as Hs2.
    destruct (skip_ws l1) as [|[b|m|] l2]; try done. apply Forall_inv_tail in Hs2.
    destruct (b ≟ "]"); [done|]. pose proof (elements_text _ IH (length l1) l1 Hl1) as He.
    by destruct (elements _ _ l1) as [[vs r]|].
  - pose proof (suffix_ok _ _ (skip_ws_suffix l1) Hl1) as Hs2.
    destruct (skip_ws l1) as [|[b|m|] l2]; try done. apply Forall_inv_tail in Hs2.
    destruct (b ≟ "}"); [done|]. pose proof (members_text _ IH (length l1) l1 Hl1) as He.
    by destruct (members _ _ l1) as [[vs r]|].
Qed.

Lemma parse_text s v : parse s = Some v → text_ok v = true.
Proof.
  unfold parse. pose proof (parse_value_text maxNestingDepth _ (symbols_ok s)) as H.
  destruct (parse_value _ _) as [[v' l]|]; [|done]. destruct (skip_ws l); [|done]. intros [= <-]. apply H.
Qed.
End JSON.
