(* ===== verification/Catalog.v ===== *)
(** * Package catalog: tables, indexes and their files
    (src/internal/catalog/store.go, src/internal/catalog/catalog.go)

    The catalog keeps its metadata in memory and rewrites the whole document
    through a store on every change.  [BlobStore] is the source's [blobStore]
    interface with what it promises, [fileStore] its implementation over a file
    system whose calls can fail.  The JSON codec is a parameter ([JSON]); the
    law used of it, [JSONSpec], is the round trip of documents whose strings are
    valid UTF-8 and whose integers are in the range of their Go types
    ([CatalogJSON.v] writes the codec out and proves the law of it).  Metadata
    are values here: the source copies every slice that crosses the interface
    ([clone]); [CatalogSlices.v] models the slices and proves that they behave
    as these values. *)

From stdpp Require Import pretty.
From S2P Require Import Prelude Bytes PageLayout Disk Record Utf8.

Module Catalog.
Import Record Utf8.

(** ** The file system calls of the store *)

(** Files by path, and the outcomes of the next calls ([IOok] when empty). *)
Record filesystem := Fs { content : gmap string (list byte); fails : list io_outcome }.

Definition next_call (fs : filesystem) : io_outcome * filesystem :=
  match fails fs with
  | [] => (IOok, fs)
  | o :: l => (o, Fs (content fs) l)
  end.

Definition os_ReadFile (path : string) : st filesystem (list byte) := λ fs,
  let '(o, fs) := next_call fs in
  match o with
  | IOfail _ => (fs, Fail ErrIO)
  | IOok => match content fs !! path with
            | Some data => (fs, Ret data)
            | None => (fs, Fail (Wrapf "open" ErrNotExist))
            end
  end.

(** [os.WriteFile]: open with truncation, then write; each can fail, the write
    after [n] bytes. *)
Definition os_WriteFile (path : string) (data : list byte) : st filesystem unit := λ fs,
  let '(o1, fs) := next_call fs in
  match o1 with
  | IOfail _ => (fs, Fail ErrIO)
  | IOok =>
      let '(o2, fs) := next_call fs in
      match o2 with
      | IOfail n => (Fs (<[path := take n data]> (content fs)) (fails fs), Fail ErrIO)
      | IOok => (Fs (<[path := data]> (content fs)) (fails fs), Ret tt)
      end
  end.

(** [os.Rename] is atomic: it replaces the target or does nothing. *)
Definition os_Rename (from to : string) : st filesystem unit := λ fs,
  let '(o, fs) := next_call fs in
  match o, content fs !! from with
  | IOok, Some data => (Fs (<[to := data]> (delete from (content fs))) (fails fs), Ret tt)
  | IOok, None => (fs, Fail (Wrapf "rename" ErrNotExist))
  | IOfail _, _ => (fs, Fail ErrIO)
  end.

(** ** The store *)

Class BlobStore (W : Type) := {
  bs_load : st W (option (list byte));
  bs_save : list byte → st W unit }.

Record fileStore := FileStore { path : string; fs : filesystem }.

Definition on_fs {A} (m : st filesystem A) : st fileStore A := λ s,
  let '(fs', r) := m (fs s) in (FileStore (path s) fs', r).

Definition fileStore_load : st fileStore (option (list byte)) := λ s,
  match on_fs (os_ReadFile (path s)) s with
  | (s, Fail err) => if errors_Is err ErrNotExist then (s, Ret None) else (s, Fail err)
  | (s, Ret data) => (s, Ret (Some data))
  | (s, Panic) => (s, Panic)
  end.

Definition fileStore_save (data : list byte) : st fileStore unit := λ s,
  let tmp := (path s +:+ ".tmp")%string in
  (do! _ := on_fs (os_WriteFile tmp data) in on_fs (os_Rename tmp (path s))) s.

#[global] Instance fileStore_blob : BlobStore fileStore := {
  bs_load := fileStore_load;
  bs_save := fileStore_save }.

(** ** Metadata *)

Record IndexMeta := Index { ix_Name : string; ix_Column : Z; ix_File : string }.
Record TableMeta := Table {
  tm_Name : string;
  tm_Schema : Schema;
  tm_File : string;
  tm_Indexes : list IndexMeta }.

(** The persisted document. *)
Record state := State { NextID : Z; Tables : gmap string TableMeta }.

(** What [json.Unmarshal] leaves in a zero document: the map can be nil. *)
Record document := Document { d_NextID : Z; d_Tables : option (gmap string TableMeta) }.

Class JSON := {
  MarshalIndent : state → list byte;
  Unmarshal : list byte → option document }.

Record Catalog (W : Type) := Cat { dir : string; store_ : W; state_ : state }.
Arguments Cat {W}.
Arguments dir {W}.
Arguments store_ {W}.
Arguments state_ {W}.

(** [fileName]: [fmt.Sprintf] of the id in decimal. *)
Definition fileName (id : Z) : string := ("rel_" +:+ pretty (Z.to_N id) +:+ ".db")%string.

Section ops.
Context {W : Type} {BS : BlobStore W} {J : JSON}.

Definition openWith (d : string) : st W (Catalog W) := λ w,
  let st0 := State 0 ∅ in
  match bs_load w with
  | (w, Fail err) => (w, Fail (Wrapf "catalog: load" err))
  | (w, Panic) => (w, Panic)
  | (w, Ret (Some data)) =>
      match Unmarshal data with
      | None => (w, Fail (Wrapf "catalog: parse" (Errorf "json")))
      | Some doc => (w, Ret (Cat d w (State (d_NextID doc) (default ∅ (d_Tables doc)))))
      end
  | (w, Ret None) => (w, Ret (Cat d w st0))
  end.

Definition Dir (c : Catalog W) : string := dir c.

Definition set_state (s : state) (c : Catalog W) : Catalog W := Cat (dir c) (store_ c) s.

Definition persist : st (Catalog W) unit := λ c,
  let '(w, r) := bs_save (MarshalIndent (state_ c)) (store_ c) in
  (Cat (dir c) w (state_ c), res_wrap "catalog: save" r).

Definition CreateTable (name : string) (schema : Schema) : st (Catalog W) TableMeta := λ c,
  if String.eqb name "" then (c, Fail ErrEmptyName)
  else if len (Columns schema) =? 0 then (c, Fail ErrNoColumns)
  else match Tables (state_ c) !! name with
  | Some _ => (c, Fail (Wrapf "catalog" ErrTableExists))
  | None =>
      let id := NextID (state_ c) in
      let tm := Table name (MkSchema (Columns schema)) (fileName id) [] in
      let c := set_state (State id (<[name := tm]> (Tables (state_ c)))) c in
      let c := set_state (State (u32 (id + 1)) (Tables (state_ c))) c in
      match persist c with
      | (c, Fail err) =>
          let c := set_state (State (NextID (state_ c)) (delete name (Tables (state_ c)))) c in
          let c := set_state (State id (Tables (state_ c))) c in
          (c, Fail err)
      | (c, Panic) => (c, Panic)
      | (c, Ret _) => (c, Ret tm)
      end
  end.

Definition CreateIndex (table name : string) (column : Z) : st (Catalog W) IndexMeta := λ c,
  if String.eqb name "" then (c, Fail ErrEmptyName)
  else match Tables (state_ c) !! table with
  | None => (c, Fail (Wrapf "catalog" ErrTableNotFound))
  | Some tm =>
      if (column <? 0) || (len (Columns (tm_Schema tm)) <=? column)
      then (c, Fail (Wrapf "catalog: column" ErrBadColumn))
      else if existsb (λ ix, String.eqb (ix_Name ix) name) (tm_Indexes tm)
      then (c, Fail (Wrapf "catalog: index" ErrIndexExists))
      else
        let id := NextID (state_ c) in
        let im := Index name column (fileName id) in
        let updated := Table (tm_Name tm) (tm_Schema tm) (tm_File tm) (tm_Indexes tm ++ [im]) in
        let c := set_state (State id (<[table := updated]> (Tables (state_ c)))) c in
        let c := set_state (State (u32 (id + 1)) (Tables (state_ c))) c in
        match persist c with
        | (c, Fail err) =>
            let c := set_state (State (NextID (state_ c)) (<[table := tm]> (Tables (state_ c)))) c in
            let c := set_state (State id (Tables (state_ c))) c in
            (c, Fail err)
        | (c, Panic) => (c, Panic)
        | (c, Ret _) => (c, Ret im)
        end
  end.

Definition GetTable (name : string) (c : Catalog W) : option TableMeta := Tables (state_ c) !! name.

(** [ListTables]: [order] is the order in which the map is walked; then
    [sort.Slice] by name. *)
Definition name_le (a b : TableMeta) : Prop := String.leb (tm_Name a) (tm_Name b) = true.
#[global] Instance name_le_dec a b : Decision (name_le a b).
Proof. unfold name_le. apply _. Defined.
Definition ListTables (order : list TableMeta) : list TableMeta := merge_sort name_le order.
Definition table_order (order : list TableMeta) (c : Catalog W) : Prop :=
  order ≡ₚ (map_to_list (Tables (state_ c))).*2.
End ops.

(** [Open]: create the directory, then open the catalog file in it.  [join] is
    [filepath.Join], [o] the outcome of [os.MkdirAll]. *)
Definition Open `{JSON} (join : string → string → string) (o : io_outcome) (d : string)
    : st filesystem (Catalog fileStore) := λ f,
  match o with
  | IOfail _ => (f, Fail (Wrapf "catalog: mkdir" ErrIO))
  | IOok =>
      let '(s, r) := openWith d (FileStore (join d "catalog.json") f) in (fs s, r)
  end.

(** ** What a store promises *)

Class BlobStoreSpec (W : Type) `{BlobStore W} := {
  stored : W → option (list byte);
  store_healthy : W → Prop;
  load_ok w w' r : bs_load w = (w', r) →
    stored w' = stored w ∧
    match r with Ret o => o = stored w | Fail _ => True | Panic => False end ∧
    (store_healthy w → store_healthy w' ∧ is_ret r = true);
  save_ok w data w' r : bs_save data w = (w', r) →
    match r with
    | Ret _ => stored w' = Some data
    | Fail _ => stored w' = stored w
    | Panic => False
    end ∧ (store_healthy w → store_healthy w' ∧ is_ret r = true) }.

(** The temporary file is another file. *)
Lemma tmp_ne (p : string) : (p +:+ ".tmp")%string ≠ p.
Proof.
  intros E. apply (f_equal String.length) in E. revert E.
  induction p as [|c p IH]; simpl; [done|]. intros [= E]. by apply IH.
Qed.

Lemma WriteFile_other p q data f f' r :
  p ≠ q → os_WriteFile p data f = (f', r) →
  content f' !! q = content f !! q ∧ r ≠ Panic ∧ (r = Ret tt → content f' !! p = Some data) ∧
  (fails f = [] → fails f' = [] ∧ r = Ret tt).
Proof.
  intros Hne H. unfold os_WriteFile, next_call in H. destruct f as [ct fl]. simpl in *.
  destruct fl as [|o1 [|o2 l]]; [|destruct o1|destruct o1; [destruct o2|]]; simplify_eq/=;
    rewrite ?lookup_insert_ne, ?lookup_insert_eq by done; by split_and!.
Qed.

Lemma Rename_spec p q f f' r :
  os_Rename p q f = (f', r) →
  match r with
  | Ret _ => ∃ data, content f !! p = Some data ∧ content f' !! q = Some data
  | Fail _ => content f' = content f
  | Panic => False
  end ∧ (fails f = [] → fails f' = [] ∧ (is_Some (content f !! p) → r = Ret tt)).
Proof.
  intros H. unfold os_Rename, next_call in H. destruct f as [ct fl]. simpl in *.
  destruct fl as [|[|n] l]; simpl in H; try destruct (ct !! p) as [data|] eqn:Ec;
    simplify_eq/=; rewrite ?lookup_insert_eq, ?Ec; split; try done; eauto.
Qed.

#[global] Instance fileStore_spec : BlobStoreSpec fileStore.
Proof.
  refine {| stored s := content (fs s) !! path s; store_healthy s := fails (fs s) = [] |}.
  - intros w w' r H. simpl in H. unfold fileStore_load, on_fs, os_ReadFile, next_call in H.
    destruct w as [p [ct fl]]. simpl in *.
    destruct fl as [|[|n] l]; simpl in H; try destruct (ct !! p) eqn:Ec; simplify_eq/=; by rewrite ?Ec.
  - intros w data w' r H. simpl in H. unfold fileStore_save, st_bind, on_fs in H.
    destruct (os_WriteFile _ data (fs w)) as [f1 r1] eqn:E1.
    apply (WriteFile_other _ (path w)) in E1 as (Hc&Hp&Hd&Hh); [|apply tmp_ne].
    destruct r1 as [[]|e|]; [|simplify_eq/=; by split; [|intros []%Hh]|done].
    simpl in H. destruct (os_Rename _ _ f1) as [f2 r2] eqn:E2. simplify_eq/=.
    apply Rename_spec in E2 as [Hr Hh2]. split.
    + destruct r as [[]|e|]; [|by rewrite Hr|done]. destruct Hr as (d&Hd1&Hd2).
      rewrite (Hd eq_refl) in Hd1. congruence.
    + intros Hf. destruct (Hh Hf) as [Hf1 _]. destruct (Hh2 Hf1) as [? Hret]. split; [done|].
      rewrite Hret; [done|]. rewrite (Hd eq_refl). eauto.
Defined.

(** ** Documents JSON carries *)

(** A document JSON carries faithfully: its strings are UTF-8 and its integers
    are in the range of their Go types. *)
Definition json_column (c : Column) : bool := utf8 (Name c) && in_range 0 255 (Type_ c).
Definition json_index (ix : IndexMeta) : bool :=
  utf8 (ix_Name ix) && utf8 (ix_File ix) && in_range (- 2 ^ 63) (2 ^ 63 - 1) (ix_Column ix).
Definition json_table (tm : TableMeta) : bool :=
  utf8 (tm_Name tm) && forallb json_column (Columns (tm_Schema tm)) && utf8 (tm_File tm) &&
  forallb json_index (tm_Indexes tm).
Definition json_ok (st : state) : Prop :=
  in_range 0 (2 ^ 32 - 1) (NextID st) = true ∧
  map_Forall (λ k tm, utf8 k = true ∧ json_table tm = true) (Tables st).

Class JSONSpec `{JSON} : Prop :=
  json_roundtrip st : json_ok st → Unmarshal (MarshalIndent st) = Some (Document (NextID st) (Some (Tables st))).

(** ** File names *)

Definition ascii_str (s : string) : bool :=
  forallb (λ a, N.ltb (Ascii.N_of_ascii a) 128) (String.list_ascii_of_string s).

Lemma utf8_ascii_str s : ascii_str s = true → utf8 s = true.
Proof.
  unfold ascii_str. induction s as [|a s IH]; [done|]. simpl. intros [Ha Hs]%andb_prop.
  apply N.ltb_lt in Ha. apply utf8_cons; [unfold code; lia|by apply IH].
Qed.

Lemma ascii_str_app s t : ascii_str (s +:+ t) = ascii_str s && ascii_str t.
Proof.
  unfold ascii_str. induction s as [|a s IH]; [done|]. simpl. rewrite IH. by rewrite andb_assoc.
Qed.

Lemma pretty_ascii (n : N) : ascii_str (pretty n) = true.
Proof.
  assert (∀ x s, ascii_str s = true → ascii_str (pretty_N_go x s) = true) as H.
  { intros x. induction (N.lt_wf_0 x) as [x _ IH]. intros s Hs.
    assert (x = 0 ∨ 0 < x)%N as [->|?] by lia; [by rewrite pretty_N_go_0|].
    rewrite pretty_N_go_step by done. apply IH; [by apply N.div_lt|].
    unfold ascii_str. simpl. fold (ascii_str s). rewrite Hs, andb_true_r.
    unfold pretty_N_char. by repeat case_match. }
  unfold pretty, pretty_N. case_decide; [done|]. by apply H.
Qed.

Lemma fileName_utf8 id : utf8 (fileName id) = true.
Proof.
  apply utf8_ascii_str. unfold fileName. by rewrite !ascii_str_app, pretty_ascii.
Qed.

Lemma string_length_app (s t : string) :
  String.length (s +:+ t) = (String.length s + String.length t)%nat.
Proof. induction s as [|a s IH]; [done|]. simpl. f_equal. exact IH. Qed.

Lemma string_app_inj_r (s t u : string) : (s +:+ u = t +:+ u)%string → s = t.
Proof.
  revert t. induction s as [|a s IH]; intros [|b t] E; try done.
  - apply (f_equal String.length) in E. rewrite !string_length_app in E. simpl in E. lia.
  - apply (f_equal String.length) in E. rewrite !string_length_app in E. simpl in E. lia.
  - injection E as -> E. f_equal. by apply IH.
Qed.

(** Distinct ids have distinct file names. *)
Lemma fileName_inj i j : 0 ≤ i → 0 ≤ j → fileName i = fileName j → i = j.
Proof.
  intros Hi Hj E. unfold fileName in E. apply (inj (String.append "rel_")) in E.
  apply string_app_inj_r in E. apply (inj pretty) in E. lia.
Qed.

(** ** Well-formed catalogs *)

Definition table_files (tm : TableMeta) : list string := tm_File tm :: (ix_File <$> tm_Indexes tm).
Definition all_files (T : gmap string TableMeta) : list string := (map_to_list T).*2 ≫= table_files.

Record table_wf (k : string) (tm : TableMeta) : Prop := TableWf {
  t_name : tm_Name tm = k;
  t_nonempty : k ≠ EmptyString;
  t_columns : Columns (tm_Schema tm) ≠ [];
  t_indexes : Forall (λ ix, ix_Name ix ≠ EmptyString ∧ 0 ≤ ix_Column ix < len (Columns (tm_Schema tm)))
                     (tm_Indexes tm);
  t_names : NoDup (ix_Name <$> tm_Indexes tm) }.

(** Every relation has a file of its own, named after an id already used. *)
Record cat_wf (st : state) : Prop := CatWf {
  w_id : 0 ≤ NextID st < 2 ^ 32;
  w_tables : map_Forall table_wf (Tables st);
  w_files : Forall (λ f, ∃ i, 0 ≤ i < NextID st ∧ f = fileName i) (all_files (Tables st));
  w_unique : NoDup (all_files (Tables st)) }.

Lemma all_files_fresh k tm T :
  T !! k = None → all_files (<[k := tm]> T) ≡ₚ table_files tm ++ all_files T.
Proof. intros H. unfold all_files. by rewrite map_to_list_insert. Qed.

Lemma all_files_update k tm tm' T :
  T !! k = Some tm →
  all_files T ≡ₚ table_files tm ++ all_files (delete k T) ∧
  all_files (<[k := tm']> T) ≡ₚ table_files tm' ++ all_files (delete k T).
Proof.
  intros H. split.
  - rewrite <-all_files_fresh by apply lookup_delete_eq. by rewrite insert_delete_id.
  - rewrite <-insert_delete_eq. apply all_files_fresh, lookup_delete_eq.
Qed.

(** A fresh file name. *)
Lemma fresh_file st : cat_wf st → fileName (NextID st) ∉ all_files (Tables st).
Proof.
  intros [Hid _ Hf _] Hin. rewrite Forall_forall in Hf. destruct (Hf _ Hin) as (i&Hi&E).
  apply fileName_inj in E; lia.
Qed.

Lemma files_weaken n T :
  Forall (λ f, ∃ i, 0 ≤ i < n ∧ f = fileName i) (all_files T) →
  Forall (λ f, ∃ i, 0 ≤ i < n + 1 ∧ f = fileName i) (all_files T).
Proof. intros H. eapply Forall_impl; [exact H|]. intros f (i&?&?). exists i. split; [lia|done]. Qed.

(** ** The specification of the two updates *)

Definition spec_table (st : state) (name : string) (schema : Schema) : error + state * TableMeta :=
  if String.eqb name "" then inl ErrEmptyName
  else if len (Columns schema) =? 0 then inl ErrNoColumns
  else match Tables st !! name with
  | Some _ => inl (Wrapf "catalog" ErrTableExists)
  | None =>
      let tm := Table name schema (fileName (NextID st)) [] in
      inr (State (u32 (NextID st + 1)) (<[name := tm]> (Tables st)), tm)
  end.

Definition spec_index (st : state) (table name : string) (column : Z) : error + state * IndexMeta :=
  if String.eqb name "" then inl ErrEmptyName
  else match Tables st !! table with
  | None => inl (Wrapf "catalog" ErrTableNotFound)
  | Some tm =>
      if negb (in_range 0 (len (Columns (tm_Schema tm)) - 1) column)
      then inl (Wrapf "catalog: column" ErrBadColumn)
      else if bool_decide (name ∈ ix_Name <$> tm_Indexes tm)
      then inl (Wrapf "catalog: index" ErrIndexExists)
      else
        let im := Index name column (fileName (NextID st)) in
        inr (State (u32 (NextID st + 1))
               (<[table := Table (tm_Name tm) (tm_Schema tm) (tm_File tm) (tm_Indexes tm ++ [im])]>
                  (Tables st)), im)
  end.

Lemma spec_table_wf st name schema st' tm :
  cat_wf st → NextID st < 2 ^ 32 - 1 → spec_table st name schema = inr (st', tm) →
  cat_wf st' ∧ NextID st' = NextID st + 1.
Proof.
  intros Hw Hid H. pose proof (fresh_file st Hw) as Hfresh. destruct Hw as [Hi Ht Hf Hu]. unfold spec_table in H.
  destruct (String.eqb_spec name ""); [done|].
  destruct (Z.eqb_spec (len (Columns schema)) 0); [done|].
  destruct (Tables st !! name) eqn:E; [done|]. injection H as <- <-. simpl.
  rewrite u32_small by lia. split; [|done]. split; simpl; [lia| | |].
  - apply map_Forall_insert; [done|]. split; [|done]. split; simpl; try done; [|constructor].
    intros Hn. rewrite Hn in *. done.
  - rewrite all_files_fresh by done. simpl. constructor; [exists (NextID st); split; [lia|done]|].
    by apply files_weaken.
  - rewrite all_files_fresh by done. simpl. by constructor.
Qed.

Lemma spec_index_wf st table name column st' im :
  cat_wf st → NextID st < 2 ^ 32 - 1 → spec_index st table name column = inr (st', im) →
  cat_wf st' ∧ NextID st' = NextID st + 1.
Proof.
  intros Hw Hid H. pose proof (fresh_file st Hw) as Hfresh. destruct Hw as [Hi Ht Hf Hu]. unfold spec_index in H.
  destruct (String.eqb_spec name ""); [done|]. destruct (Tables st !! table) as [tm|] eqn:E; [|done].
  destruct (negb _) eqn:Ec; [done|]. case_bool_decide as En; [done|]. injection H as <- <-. simpl.
  rewrite u32_small by lia. split; [|done].
  apply negb_false_iff in Ec. unfold in_range in Ec. bools.
  destruct (Ht _ _ E) as [T1 T2 T3 T4 T5]. set (im := Index _ _ _).
  destruct (all_files_update table tm (Table (tm_Name tm) (tm_Schema tm) (tm_File tm) (tm_Indexes tm ++ [im]))
              (Tables st) E) as [P1 P2].
  assert (all_files (<[table := Table (tm_Name tm) (tm_Schema tm) (tm_File tm) (tm_Indexes tm ++ [im])]> (Tables st))
          ≡ₚ fileName (NextID st) :: all_files (Tables st)) as P3.
  { rewrite P2, P1. unfold table_files. simpl. rewrite fmap_app. simpl.
    rewrite <-!app_assoc. simpl. rewrite perm_swap. apply perm_skip.
    by rewrite <-Permutation_middle. }
  split; simpl; [lia| | |].
  - apply map_Forall_insert_2; [|done]. split; simpl; try done.
    + apply Forall_app. split; [done|]. apply Forall_singleton. simpl. split; [done|lia].
    + rewrite fmap_app. simpl. apply NoDup_app. split_and!; [done| |apply NoDup_singleton].
      intros x Hx ->%list_elem_of_singleton. done.
  - rewrite P3. constructor; [exists (NextID st); split; [lia|done]|]. by apply files_weaken.
  - rewrite P3. by constructor.
Qed.

(** ** JSON-faithfulness is kept *)

(** A call whose strings and column types JSON can carry. *)
Definition json_schema (schema : Schema) : bool := forallb json_column (Columns schema).

Lemma next_id_range n : in_range 0 (2 ^ 32 - 1) (u32 n) = true.
Proof. apply in_range_true. pose proof (Z.mod_pos_bound n (2 ^ 32) ltac:(lia)). unfold u32. lia. Qed.

Lemma spec_table_json st name schema st' tm :
  json_ok st → utf8 name = true → json_schema schema = true →
  spec_table st name schema = inr (st', tm) → json_ok st'.
Proof.
  intros [Hi Ht] Hn Hs H. unfold spec_table in H. repeat case_match; simplify_eq/=.
  split; simpl; [apply next_id_range|]. apply map_Forall_insert_2; [|done].
  split; [done|]. unfold json_table. simpl. unfold json_schema in Hs. by rewrite Hn, Hs, fileName_utf8.
Qed.

Lemma spec_index_json st table name column st' im :
  json_ok st → utf8 name = true → (∀ tm, Tables st !! table = Some tm → len (Columns (tm_Schema tm)) < 2 ^ 63) →
  spec_index st table name column = inr (st', im) → json_ok st'.
Proof.
  intros [Hi Ht] Hn Hlen H. unfold spec_index in H.
  destruct (String.eqb_spec name ""); [done|]. destruct (Tables st !! table) as [tm|] eqn:E; [|done].
  destruct (negb _) eqn:Ec; [done|]. case_bool_decide as En; [done|]. injection H as <- <-.
  apply negb_false_iff, in_range_true in Ec. specialize (Hlen _ eq_refl).
  split; simpl; [apply next_id_range|]. apply map_Forall_insert_2; [|done].
  destruct (Ht _ _ E) as [Hk Hj]. split; [done|]. unfold json_table in *. simpl.
  apply andb_prop in Hj as [Hj Hx]. apply andb_prop in Hj as [Hj Hf]. apply andb_prop in Hj as [Hm Hc].
  rewrite Hm, Hc, Hf, forallb_app, Hx. simpl. rewrite andb_true_r. unfold json_index. simpl.
  rewrite Hn, fileName_utf8. simpl. apply in_range_true. lia.
Qed.

(** ** The order of names *)

Lemma leb_cons a s b t :
  String.leb (String a s) (String b t) =
  match N.compare (Ascii.N_of_ascii a) (Ascii.N_of_ascii b) with
  | Lt => true | Eq => String.leb s t | Gt => false
  end.
Proof. unfold String.leb. simpl. unfold Ascii.compare. by destruct (N.compare _ _). Qed.

Lemma leb_trans s t u : String.leb s t = true → String.leb t u = true → String.leb s u = true.
Proof.
  revert t u. induction s as [|a s IH]; intros t u; [by destruct u|].
  destruct t as [|b t]; [done|]. destruct u as [|c u]; [done|]. rewrite !leb_cons.
  destruct (N.compare_spec (Ascii.N_of_ascii a) (Ascii.N_of_ascii b)) as [E1|E1|E1]; [| |done];
    destruct (N.compare_spec (Ascii.N_of_ascii b) (Ascii.N_of_ascii c)) as [E2|E2|E2]; try done; intros H1 H2;
    destruct (N.compare_spec (Ascii.N_of_ascii a) (Ascii.N_of_ascii c)) as [E3|E3|E3]; try lia; try done.
  by eapply IH.
Qed.

#[global] Instance name_le_trans : Transitive name_le.
Proof. intros a b c. apply leb_trans. Qed.
#[global] Instance name_le_total : Total name_le.
Proof. intros a b. apply String.leb_total. Qed.

(** Two sorted listings of the same tables, with distinct names, are equal. *)
Lemma sorted_tables_unique (T : gmap string TableMeta) l1 l2 :
  (∀ tm, tm ∈ l1 → T !! tm_Name tm = Some tm) → l1 ≡ₚ l2 →
  StronglySorted name_le l1 → StronglySorted name_le l2 → l1 = l2.
Proof.
  intros HT Hp H1 H2.
  assert (∀ l, StronglySorted name_le l → StronglySorted (λ a b, String.leb a b = true) (tm_Name <$> l)) as Hmap.
  { induction 1 as [|x l Hl IH Hx]; simpl; constructor; [done|].
    apply Forall_fmap. eapply Forall_impl; [exact Hx|]. done. }
  assert (tm_Name <$> l1 = tm_Name <$> l2) as Hnames.
  { eapply StronglySorted_unique; [|by apply Hmap|by apply Hmap|by rewrite Hp].
    intros a b. apply String.leb_antisym. }
  apply (inj (fmap Some)). transitivity ((T !!.) <$> (tm_Name <$> l1)).
  - rewrite <-list_fmap_compose. apply list_fmap_ext. intros i tm Hi. simpl. symmetry.
    apply HT. by eapply list_elem_of_lookup_2.
  - rewrite Hnames, <-list_fmap_compose. apply list_fmap_ext. intros i tm Hi. simpl.
    apply HT. rewrite Hp. by eapply list_elem_of_lookup_2.
Qed.

(** ** The operations implement their specifications *)

Section proofs.
Context {W : Type} {BS : BlobStore W} {SS : BlobStoreSpec W} {J : JSON} {JS : JSONSpec}.

(** The outcome of an update whose specification is [spec]: refused, committed
    to memory and store, or rolled back. *)
Definition updated {A} (spec : error + state * A) (c c' : Catalog W) (r : res A) : Prop :=
  match spec with
  | inl e => c' = c ∧ r = Fail e
  | inr (st', a) =>
      dir c' = dir c ∧
      ((r = Ret a ∧ state_ c' = st' ∧ stored (store_ c') = Some (MarshalIndent st')) ∨
       (∃ e, r = Fail (Wrapf "catalog: save" e) ∧ state_ c' = state_ c ∧
             stored (store_ c') = stored (store_ c))) ∧
      (store_healthy (store_ c) → store_healthy (store_ c') ∧ r = Ret a)
  end.

Lemma CreateTable_updated name schema c c' r :
  CreateTable name schema c = (c', r) → updated (spec_table (state_ c) name schema) c c' r.
Proof.
  intros H. unfold CreateTable in H. unfold spec_table.
  destruct (String.eqb name ""); [by simplify_eq|].
  destruct (len (Columns schema) =? 0); [by simplify_eq|].
  destruct (Tables (state_ c) !! name) eqn:E; [by simplify_eq|].
  unfold persist, set_state in H. simpl in H.
  assert (MkSchema (Columns schema) = schema) as Hs by (by destruct schema). rewrite Hs in H.
  destruct (bs_save _ (store_ c)) as [w r'] eqn:Es. apply save_ok in Es as [Hw Hh].
  destruct r' as [u|e|]; simpl in H; [|injection H as <- <-|done].
  - injection H as <- <-. split_and!; [done|by left|intros ?%Hh]. split; [by destruct H|done].
  - split_and!; [done|right|intros ?%Hh; by destruct H].
    exists e. split_and!; [done| |done]. simpl. rewrite delete_insert_id by done. by destruct (state_ c).
Qed.

Lemma existsb_names name ixs :
  existsb (λ ix, String.eqb (ix_Name ix) name) ixs = bool_decide (name ∈ ix_Name <$> ixs).
Proof.
  apply Bool.eq_iff_eq_true. rewrite bool_decide_eq_true, existsb_exists, list_elem_of_fmap. split.
  - intros (ix&Hin&He%String.eqb_eq). exists ix. split; [done|]. by apply list_elem_of_In.
  - intros (ix&->&Hin). exists ix. split; [by apply list_elem_of_In|apply String.eqb_refl].
Qed.

Lemma CreateIndex_updated table name column c c' r :
  CreateIndex table name column c = (c', r) →
  updated (spec_index (state_ c) table name column) c c' r.
Proof.
  intros H. unfold CreateIndex in H. unfold spec_index.
  destruct (String.eqb name ""); [by simplify_eq|].
  destruct (Tables (state_ c) !! table) as [tm|] eqn:E; [|by simplify_eq].
  set (n := len (Columns (tm_Schema tm))) in *.
  assert (negb (in_range 0 (n - 1) column) = ((column <? 0) || (n <=? column))) as ->.
  { unfold in_range. destruct (Z.ltb_spec column 0), (Z.leb_spec 0 column), (Z.leb_spec n column),
      (Z.leb_spec column (n - 1)); simpl; done || lia. }
  destruct ((column <? 0) || (n <=? column)); [by simplify_eq|].
  rewrite existsb_names in H. case_bool_decide; [by simplify_eq|].
  unfold persist, set_state in H. simpl in H.
  destruct (bs_save _ (store_ c)) as [w r'] eqn:Es. apply save_ok in Es as [Hw Hh].
  destruct r' as [u|e|]; simpl in H; [|injection H as <- <-|done].
  - injection H as <- <-. split_and!; [done|by left|intros ?%Hh]. split; [by destruct H|done].
  - split_and!; [done|right|intros ?%Hh; by destruct H].
    exists e. split_and!; [done| |done]. simpl. rewrite insert_insert_eq, insert_id by done.
    by destruct (state_ c).
Qed.

(** ** Memory and store agree *)

(** A reopened catalog would have this state. *)
Definition synced (w : W) (st : state) : Prop :=
  (stored w = Some (MarshalIndent st) ∧ json_ok st) ∨ (stored w = None ∧ st = State 0 ∅).

Lemma openWith_synced d w st w' r :
  synced w st → openWith d w = (w', r) →
  match r with
  | Ret c => dir c = d ∧ state_ c = st ∧ store_ c = w' ∧ stored w' = stored w
  | Fail _ => stored w' = stored w
  | Panic => False
  end ∧ (store_healthy w → store_healthy w' ∧ is_ret r = true).
Proof.
  intros HS H. unfold openWith in H. destruct (bs_load w) as [w1 rl] eqn:El.
  apply load_ok in El as (Hst&Hr&Hh).
  destruct rl as [o|e|]; [|simplify_eq/=; split; [done|intros ?%Hh; by destruct H]|done].
  subst o. destruct HS as [[E Hj]|[E ->]]; rewrite E in H.
  - rewrite (json_roundtrip _ Hj) in H. simplify_eq/=. split; [|done]. split_and!; try done. by destruct st.
  - by simplify_eq/=.
Qed.

Inductive call := CTable (name : string) (schema : Schema) | CIndex (table name : string) (column : Z).
Definition run_call (o : call) (c : Catalog W) : Catalog W :=
  match o with
  | CTable name schema => (CreateTable name schema c).1
  | CIndex table name column => (CreateIndex table name column c).1
  end.
Definition json_call (o : call) : bool :=
  match o with
  | CTable name schema => utf8 name && json_schema schema && (len (Columns schema) <? 2 ^ 63)
  | CIndex _ name _ => utf8 name
  end.

(** The catalogs a program can hold that calls [CreateTable] and [CreateIndex]
    with UTF-8 names only and stops before the id counter wraps: a fresh one, one
    after a call (whether or not it failed), and one reopened from the store. *)
Inductive reachable (d : string) : Catalog W → Prop :=
| reach_new w w' c : stored w = None → openWith d w = (w', Ret c) → reachable d c
| reach_call c o :
    reachable d c → json_call o = true → NextID (state_ c) < 2 ^ 32 - 1 → reachable d (run_call o c)
| reach_open c w c' : reachable d c → openWith d (store_ c) = (w, Ret c') → reachable d c'.

(** What holds of each of them. *)
Record cat_inv (d : string) (c : Catalog W) : Prop := CatInv {
  ci_dir : dir c = d;
  ci_wf : cat_wf (state_ c);
  ci_synced : synced (store_ c) (state_ c);
  ci_size : map_Forall (λ _ tm, len (Columns (tm_Schema tm)) < 2 ^ 63) (Tables (state_ c)) }.

Lemma synced_json w st : synced w st → json_ok st.
Proof. intros [[_ ?]|[_ ->]]; [done|]. split; [done|apply map_Forall_empty]. Qed.

Lemma updated_inv {A} d spec c c' (r : res A) :
  cat_inv d c → updated spec c c' r →
  (∀ st' a, spec = inr (st', a) →
     cat_wf st' ∧ json_ok st' ∧ map_Forall (λ _ tm, len (Columns (tm_Schema tm)) < 2 ^ 63) (Tables st')) →
  cat_inv d c'.
Proof.
  intros [Hd Hw Hs Hz] H Hspec. destruct spec as [e|[st' a]]; [by destruct H as [-> _]|].
  destruct (Hspec _ _ eq_refl) as (Hw'&Hj'&Hz').
  destruct H as (Hd'&[(->&<-&Hst)|(e&->&Hst&Hsto)]&_).
  - split; [congruence|done| |done]. left. done.
  - split; [congruence|by rewrite Hst| |by rewrite Hst]. unfold synced. by rewrite Hst, Hsto.
Qed.

Lemma reachable_inv d c : reachable d c → cat_inv d c.
Proof.
  induction 1 as [w w' c Hn Ho|c o Hr IH Hj Hid|c w c' Hr IH Ho].
  - destruct (openWith_synced d w (State 0 ∅) w' (Ret c)) as [(Hd&Hst&Hsto&Hsd) _]; [by right|done|].
    split; rewrite ?Hst; [done| | |apply map_Forall_empty].
    + split; simpl; [lia|apply map_Forall_empty|constructor|constructor].
    + right. rewrite Hsto. split; [congruence|done].
  - pose proof IH as [Hd Hw Hs Hz]. pose proof (synced_json _ _ Hs) as HJ.
    destruct o as [name schema|table name column]; simpl in *.
    + bools.
      destruct (CreateTable name schema c) as [c' r] eqn:E. simpl. apply CreateTable_updated in E.
      eapply updated_inv; [done..|]. intros st' tm Hsp. split_and!.
      * by eapply spec_table_wf.
      * by eapply spec_table_json.
      * unfold spec_table in Hsp. repeat case_match; simplify_eq/=. by apply map_Forall_insert_2.
    + destruct (CreateIndex table name column c) as [c' r] eqn:E. simpl. apply CreateIndex_updated in E.
      eapply updated_inv; [done..|]. intros st' im Hsp. split_and!.
      * by eapply spec_index_wf.
      * eapply spec_index_json; [done..| |done]. intros tm Htm. exact (Hz _ _ Htm).
      * unfold spec_index in Hsp. repeat case_match; simplify_eq/=. apply map_Forall_insert_2; [|done].
        simpl. by eapply (Hz table).
  - destruct IH as [Hd Hw Hs Hz].
    destruct (openWith_synced d _ _ w (Ret c') Hs Ho) as [(Hd'&Hst&Hsto&Hsd) _].
    split; rewrite ?Hst; [done..| |done]. unfold synced in *. rewrite Hsto. by rewrite Hsd.
Qed.

(** ** Listing *)

Lemma tables_named (T : gmap string TableMeta) order tm :
  map_Forall table_wf T → order ≡ₚ (map_to_list T).*2 →
  tm ∈ order ↔ T !! tm_Name tm = Some tm.
Proof.
  intros Hw ->. rewrite list_elem_of_fmap. split.
  - intros ([k tm']&->&Hk%elem_of_map_to_list). simpl. by rewrite (t_name _ _ (Hw _ _ Hk)).
  - intros H. exists (tm_Name tm, tm). split; [done|]. by apply elem_of_map_to_list.
Qed.

Lemma tables_names (T : gmap string TableMeta) order :
  map_Forall table_wf T → order ≡ₚ (map_to_list T).*2 → NoDup (tm_Name <$> order).
Proof.
  intros Hw ->. pose proof (NoDup_fst_map_to_list T) as Hnd.
  replace (tm_Name <$> (map_to_list T).*2) with (map_to_list T).*1; [done|].
  rewrite <-list_fmap_compose. apply list_fmap_ext. intros i [k tm] Hi. simpl.
  apply list_elem_of_lookup_2, elem_of_map_to_list in Hi. symmetry. by apply (t_name _ _ (Hw _ _ Hi)).
Qed.

(** C23: in every catalog that calls with valid UTF-8 names have made, failed
    calls and reopenings included, and whose 32-bit id counter has not wrapped,
    tables are stored under their own non-empty names, have columns, and have
    indexes with distinct names on columns that exist; and no two relations share
    a file, across all tables and indexes.  (With other names a reopened catalog
    can have two indexes of one name, see [invalid_names_merge] for tables.) *)
Theorem catalog_invariant d c :
  reachable d c →
  map_Forall table_wf (Tables (state_ c)) ∧ NoDup (all_files (Tables (state_ c))) ∧
  (∀ f, f ∈ all_files (Tables (state_ c)) → ∃ i, 0 ≤ i < NextID (state_ c) ∧ f = fileName i) ∧
  NextID (state_ c) < 2 ^ 32.
Proof.
  intros H. destruct (reachable_inv d c H) as [_ [Hi Ht Hf Hu] _ _].
  split_and!; [done|done|by apply Forall_forall|lia].
Qed.

(** For any codec that gives back valid documents: what is in memory is what is
    stored, also after failed calls.  ([CatalogReopen] has the theorem for all
    calls and the codec of the catalog.) *)
Theorem catalog_reopen d c w r :
  reachable d c → openWith d (store_ c) = (w, r) →
  match r with
  | Ret c' => state_ c' = state_ c ∧ dir c' = dir c ∧ ∀ name, GetTable name c' = GetTable name c
  | Fail _ => stored w = stored (store_ c)
  | Panic => False
  end ∧ (store_healthy (store_ c) → is_ret r = true).
Proof.
  intros H Ho. destruct (reachable_inv d c H) as [Hd _ Hs _].
  destruct (openWith_synced d _ _ w r Hs Ho) as [Hr Hh]. split; [|intros ?%Hh; by destruct H0].
  destruct r as [c'| |]; [|done|done]. destruct Hr as (Hd'&Hst&_&_). split_and!; [done|congruence|].
  intros name. unfold GetTable. by rewrite Hst.
Qed.

(** [CreateTable] on every branch: an empty name, a schema without columns
    and a taken name are refused and change nothing; otherwise the table is
    there with its file and the store has the new document, or, when the store
    fails, the error is returned and both memory and store are as before; on a
    healthy store it succeeds. *)
Theorem CreateTable_branches name schema c c' r :
  CreateTable name schema c = (c', r) →
  (name = EmptyString → c' = c ∧ r = Fail ErrEmptyName) ∧
  (name ≠ EmptyString → Columns schema = [] → c' = c ∧ r = Fail ErrNoColumns) ∧
  (name ≠ EmptyString → Columns schema ≠ [] → GetTable name c ≠ None →
     c' = c ∧ ∃ e, r = Fail e ∧ errors_Is e ErrTableExists = true) ∧
  (name ≠ EmptyString → Columns schema ≠ [] → GetTable name c = None →
     let tm := Table name schema (fileName (NextID (state_ c))) [] in
     (r = Ret tm ∧ GetTable name c' = Some tm ∧ NextID (state_ c') = u32 (NextID (state_ c) + 1) ∧
        (∀ other, other ≠ name → GetTable other c' = GetTable other c) ∧
        stored (store_ c') = Some (MarshalIndent (state_ c'))) ∨
     (∃ e, r = Fail e ∧ state_ c' = state_ c ∧ stored (store_ c') = stored (store_ c) ∧
        ¬ store_healthy (store_ c))).
Proof.
  intros H%CreateTable_updated. unfold updated, spec_table in H. unfold GetTable.
  destruct (String.eqb_spec name "") as [->|Hne]; [by split_and!|].
  destruct (Z.eqb_spec (len (Columns schema)) 0) as [Hz|Hz].
  { assert (Columns schema = []) as E by (destruct (Columns schema); done). by split_and!. }
  assert (Columns schema ≠ []) as Hc by (by intros E; rewrite E in Hz).
  destruct (Tables (state_ c) !! name) eqn:E.
  { destruct H as [-> ->]. split_and!; try done. intros _ _ _. split; [done|]. by eexists. }
  split_and!; try done. intros _ _ _. destruct H as (_&[(->&Hst&Hs)|(e&->&Hst&Hs)]&Hh); [left|right].
  - rewrite Hst. simpl. split_and!; [done|by rewrite lookup_insert_eq|done| |done].
    intros other Ho. by rewrite lookup_insert_ne.
  - exists (Wrapf "catalog: save" e). split_and!; [done..|]. intros Hy. by destruct (Hh Hy).
Qed.

(** C37: [CreateIndex] on every branch: an empty name, an unknown table, a column
    out of range and a taken index name are refused with their errors and change
    nothing; otherwise the index is appended to its table, with a new file, in
    memory and in the store, or, when the store fails, both are as before. *)
Theorem CreateIndex_branches table name column c c' r :
  CreateIndex table name column c = (c', r) →
  (name = EmptyString → c' = c ∧ r = Fail ErrEmptyName) ∧
  (name ≠ EmptyString → GetTable table c = None →
     c' = c ∧ ∃ e, r = Fail e ∧ errors_Is e ErrTableNotFound = true) ∧
  ∀ tm, GetTable table c = Some tm →
  (name ≠ EmptyString → ¬ 0 ≤ column < len (Columns (tm_Schema tm)) →
     c' = c ∧ ∃ e, r = Fail e ∧ errors_Is e ErrBadColumn = true) ∧
  (name ≠ EmptyString → 0 ≤ column < len (Columns (tm_Schema tm)) → name ∈ ix_Name <$> tm_Indexes tm →
     c' = c ∧ ∃ e, r = Fail e ∧ errors_Is e ErrIndexExists = true) ∧
  (name ≠ EmptyString → 0 ≤ column < len (Columns (tm_Schema tm)) → name ∉ ix_Name <$> tm_Indexes tm →
     let im := Index name column (fileName (NextID (state_ c))) in
     (r = Ret im ∧
        GetTable table c' = Some (Table (tm_Name tm) (tm_Schema tm) (tm_File tm) (tm_Indexes tm ++ [im])) ∧
        NextID (state_ c') = u32 (NextID (state_ c) + 1) ∧
        (∀ other, other ≠ table → GetTable other c' = GetTable other c) ∧
        stored (store_ c') = Some (MarshalIndent (state_ c'))) ∨
     (∃ e, r = Fail e ∧ state_ c' = state_ c ∧ stored (store_ c') = stored (store_ c) ∧
        ¬ store_healthy (store_ c))).
Proof.
  unfold GetTable. intros H%CreateIndex_updated. unfold updated, spec_index in H.
  destruct (String.eqb_spec name "") as [->|Hne].
  { split; [done|]. split; [done|]. intros tm _. by split_and!. }
  destruct (Tables (state_ c) !! table) as [tm0|] eqn:Ht;
    [|destruct H as [-> ->]; split_and!; try done; split; [done|by eexists]].
  split; [done|]. split; [done|]. intros tm [= ->].
  destruct (negb _) eqn:Ec.
  { apply negb_true_iff, not_true_iff_false in Ec. rewrite in_range_true in Ec. destruct H as [-> ->].
    split_and!; try done; intros; [split; [done|by eexists]|lia|lia]. }
  apply negb_false_iff, in_range_true in Ec. split_and!; try done; [intros; lia| |].
  - intros _ _ Hin. rewrite bool_decide_eq_true_2 in H by done. destruct H as [-> ->].
    split; [done|by eexists].
  - intros _ _ Hin. rewrite bool_decide_eq_false_2 in H by done.
    destruct H as (_&[(->&Hst&Hs)|(e&->&Hst&Hs)]&Hh); [left|right].
    + rewrite Hst. simpl. split_and!; [done|by rewrite lookup_insert_eq|done| |done].
      intros other Ho. by rewrite lookup_insert_ne.
    + exists (Wrapf "catalog: save" e). split_and!; [done..|]. intros Hy. by destruct (Hh Hy).
Qed.

(** [ListTables] returns every table once, in increasing order of name, and
    the result does not depend on the order in which the map is walked. *)
Theorem ListTables_sorted d c order order' :
  reachable d c → table_order order c → table_order order' c →
  Sorted name_le (ListTables order) ∧ NoDup (tm_Name <$> ListTables order) ∧
  (∀ tm, tm ∈ ListTables order ↔ GetTable (tm_Name tm) c = Some tm) ∧
  ListTables order' = ListTables order.
Proof.
  intros H Ho Ho'. destruct (reachable_inv d c H) as [_ [_ Ht _ _] _ _].
  unfold table_order, ListTables, GetTable in *.
  pose proof (merge_sort_Permutation name_le order) as P. pose proof (merge_sort_Permutation name_le order') as P'.
  split_and!.
  - apply Sorted_merge_sort. apply _.
  - rewrite P. by eapply tables_names.
  - intros tm. rewrite P. by apply tables_named.
  - apply (sorted_tables_unique (Tables (state_ c)));
      [|by rewrite P, P', Ho, Ho'|by apply StronglySorted_merge_sort; apply _..].
    intros tm. rewrite P'. by apply tables_named.
Qed.
End proofs.

(** C25: saving is atomic: writing the temporary file leaves the catalog file as
    it was whatever happens, the rename replaces it by the complete new bytes or
    does nothing, and [save] returns nil exactly when the new bytes are there;
    so after a crash between any two file system calls the file holds the
    previous document or the new one, never a part of one. *)
Theorem fileStore_atomic s data s1 r1 s2 r2 s' r :
  let tmp := (path s +:+ ".tmp")%string in
  on_fs (os_WriteFile tmp data) s = (s1, r1) →
  on_fs (os_Rename tmp (path s)) s1 = (s2, r2) →
  fileStore_save data s = (s', r) →
  content (fs s1) !! path s = content (fs s) !! path s ∧
  (r1 = Ret tt → (r2 = Ret tt ∧ content (fs s2) !! path s = Some data) ∨
                 (∃ e, r2 = Fail e) ∧ content (fs s2) !! path s = content (fs s) !! path s) ∧
  (r = Ret tt ↔ r1 = Ret tt ∧ r2 = Ret tt) ∧
  (r = Ret tt → content (fs s') !! path s = Some data) ∧
  (r ≠ Ret tt → content (fs s') !! path s = content (fs s) !! path s).
Proof.
  intros tmp H1 H2 H. unfold fileStore_save, st_bind in H. fold tmp in H. rewrite H1 in H.
  unfold on_fs in H1. destruct (os_WriteFile tmp data (fs s)) as [f1 q1] eqn:E1.
  injection H1 as <- <-. apply (WriteFile_other _ (path s)) in E1 as (Hc&Hp&Hd&_); [|apply tmp_ne].
  unfold on_fs in H2. simpl in H2. destruct (os_Rename tmp (path s) f1) as [f2 q2] eqn:E2.
  injection H2 as <- <-. pose proof E2 as [Hr _]%Rename_spec.
  assert (q1 = Ret tt → (q2 = Ret tt ∧ content f2 !! path s = Some data) ∨
          (∃ e, q2 = Fail e) ∧ content f2 !! path s = content (fs s) !! path s) as Hstep.
  { intros ->. destruct q2 as [[]|e|]; [left|right|done].
    - destruct Hr as (x&Hx&Hy). rewrite (Hd eq_refl) in Hx. split; [done|congruence].
    - split; [by eexists|]. by rewrite Hr. }
  split; [done|]. split; [done|].
  destruct q1 as [[]|e|]; [|injection H as <- <-; split_and!; naive_solver|done].
  simpl in H. unfold on_fs in H. simpl in H. rewrite E2 in H. injection H as <- <-. simpl.
  destruct (Hstep eq_refl) as [[-> ?]|[[e ->] ?]]; split_and!; naive_solver.
Qed.
End Catalog.
