(* ===== verification/CatalogJSON.v ===== *)
(** * The catalog's document as JSON (src/internal/catalog/catalog.go)

    The codec the catalog uses: [json.MarshalIndent] and [json.Unmarshal] on
    its [state], driven by the struct fields and their [json] tags.  Encoding
    sorts the map by key and writes an empty (nil) slice as [null]; decoding
    matches member names without regard to case, ignores unknown members,
    makes a slice or map nil on [null] and leaves any other field alone, decodes
    an array over the elements an earlier one left in the slice, and reports
    any value of a wrong type or out of range as an error.
    [codec_spec] discharges what [Catalog.v] asks of its codec. *)

From Stdlib Require Import Ascii.
From stdpp Require Import pretty.
From S2P Require Import Prelude Bytes PageLayout Disk Record Utf8 JSON Catalog.

Module CatalogJSON.
Import Record Utf8 JSON Catalog.

(** ** Encoding *)

Definition enc_slice {A} (f : A → json) (l : list A) : json :=
  match l with [] => JNull | _ => JArr (map f l) end.
Definition enc_int (z : Z) : json := JNum (pretty z).

Definition enc_column (c : Column) : json :=
  JObj [("Name", JStr (Name c)); ("Type", enc_int (Type_ c)); ("Nullable", JBool (Nullable c))].
Definition enc_schema (s : Schema) : json := JObj [("Columns", enc_slice enc_column (Columns s))].
Definition enc_index (ix : IndexMeta) : json :=
  JObj [("name", JStr (ix_Name ix)); ("column", enc_int (ix_Column ix)); ("file", JStr (ix_File ix))].
Definition enc_table (tm : TableMeta) : json :=
  JObj [("name", JStr (tm_Name tm)); ("schema", enc_schema (tm_Schema tm)); ("file", JStr (tm_File tm));
        ("indexes", enc_slice enc_index (tm_Indexes tm))].

Definition key_le {A} (a b : string * A) : Prop := String.leb a.1 b.1 = true.
#[global] Instance key_le_dec {A} (a b : string * A) : Decision (key_le a b).
Proof. unfold key_le. apply _. Defined.
Definition sorted_members (T : gmap string TableMeta) : list (string * TableMeta) :=
  merge_sort key_le (map_to_list T).
Definition enc_state (st : state) : json :=
  JObj [("next_id", enc_int (NextID st));
        ("tables", JObj (map (λ '(k, tm), (k, enc_table tm)) (sorted_members (Tables st))))].

(** ** Decoding *)

(** Names match up to case: ASCII letters, the long s and the Kelvin sign. *)
Fixpoint fold_name (s : string) : string :=
  match s with
  | EmptyString => ""
  | String a s =>
      if in_range 65 90 (code a) then String (chr (code a + 32)) (fold_name s)
      else match s with
      | String b s2 =>
          if (code a =? 197) && (code b =? 191) then String "s" (fold_name s2)
          else match s2 with
          | String c s3 =>
              if (code a =? 226) && (code b =? 132) && (code c =? 170) then String "k" (fold_name s3)
              else String a (fold_name s)
          | EmptyString => String a (fold_name s)
          end
      | EmptyString => String a ""
      end
  end.
Definition field (name key : string) : bool := String.eqb (fold_name name) (fold_name key).

(** The members of an object, one after the other, into a struct. *)
Fixpoint dec_members {A} (step : A → string → json → option A) (a : A) (l : list (string * json)) : option A :=
  match l with
  | [] => Some a
  | (key, v) :: l => match step a key v with Some a => dec_members step a l | None => None end
  end.
Definition dec_struct {A} (step : A → string → json → option A) (a : A) (v : json) : option A :=
  match v with JNull => Some a | JObj l => dec_members step a l | _ => None end.

Definition dec_string (old : string) (v : json) : option string :=
  match v with JNull => Some old | JStr s => Some s | _ => None end.
Definition dec_bool (old : bool) (v : json) : option bool :=
  match v with JNull => Some old | JBool b => Some b | _ => None end.
Definition dec_number (value : string → option Z) (lo hi : Z) (old : Z) (v : json) : option Z :=
  match v with
  | JNull => Some old
  | JNum lit =>
      match value lit with Some z => if in_range lo hi z then Some z else None | None => None end
  | _ => None
  end.
Definition dec_uint8 : Z → json → option Z := dec_number uint_val 0 255.
Definition dec_uint32 : Z → json → option Z := dec_number uint_val 0 (2 ^ 32 - 1).
Definition dec_int : Z → json → option Z := dec_number int_val (- 2 ^ 63) (2 ^ 63 - 1).

(** A slice being decoded: its elements and those that follow them in its array,
    left by an earlier array of the same field.  Growing the array keeps both and
    adds zero values. *)
Record dslice A := DSlice { vis : list A; stale : list A }.
Arguments DSlice {A}. Arguments vis {A}. Arguments stale {A}.
Abbreviation nil_slice := (DSlice [] []).
Definition memory {A} (s : dslice A) : list A := vis s ++ stale s.

(** The elements of an array are decoded over what the memory holds; the result
    are they and the rest of the memory.  An empty array makes a new slice, [null]
    the nil slice. *)
Fixpoint dec_over {A} (f : A → json → option A) (zero : A) (mem : list A) (l : list json) : option (dslice A) :=
  match l with
  | [] => Some (DSlice [] mem)
  | v :: l =>
      match f (hd zero mem) v, dec_over f zero (tl mem) l with
      | Some x, Some s => Some (DSlice (x :: vis s) (stale s))
      | _, _ => None
      end
  end.
Definition dec_slice {A} (f : A → json → option A) (zero : A) (old : dslice A) (v : json) : option (dslice A) :=
  match v with
  | JNull | JArr [] => Some nil_slice
  | JArr l => dec_over f zero (memory old) l
  | _ => None
  end.

Definition column_step (c : Column) (key : string) (v : json) : option Column :=
  if field "Name" key then option_map (λ s, Col s (Type_ c) (Nullable c)) (dec_string (Name c) v)
  else if field "Type" key then option_map (λ t, Col (Name c) t (Nullable c)) (dec_uint8 (Type_ c) v)
  else if field "Nullable" key then option_map (λ b, Col (Name c) (Type_ c) b) (dec_bool (Nullable c) v)
  else Some c.
Definition dec_column : Column → json → option Column := dec_struct column_step.

Definition schema_step (s : dslice Column) (key : string) (v : json) : option (dslice Column) :=
  if field "Columns" key then dec_slice dec_column (Col "" 0 false) s v else Some s.

Definition index_step (ix : IndexMeta) (key : string) (v : json) : option IndexMeta :=
  if field "name" key then option_map (λ s, Index s (ix_Column ix) (ix_File ix)) (dec_string (ix_Name ix) v)
  else if field "column" key then option_map (λ z, Index (ix_Name ix) z (ix_File ix)) (dec_int (ix_Column ix) v)
  else if field "file" key then option_map (λ s, Index (ix_Name ix) (ix_Column ix) s) (dec_string (ix_File ix) v)
  else Some ix.
Definition dec_index : IndexMeta → json → option IndexMeta := dec_struct index_step.

(** A table being decoded. *)
Record dtable := DTable {
  dt_Name : string; dt_Columns : dslice Column; dt_File : string; dt_Indexes : dslice IndexMeta }.
Definition decoded (d : dtable) : TableMeta :=
  Table (dt_Name d) (MkSchema (vis (dt_Columns d))) (dt_File d) (vis (dt_Indexes d)).
Definition table_step (d : dtable) (key : string) (v : json) : option dtable :=
  if field "name" key then
    option_map (λ s, DTable s (dt_Columns d) (dt_File d) (dt_Indexes d)) (dec_string (dt_Name d) v)
  else if field "schema" key then
    option_map (λ s, DTable (dt_Name d) s (dt_File d) (dt_Indexes d)) (dec_struct schema_step (dt_Columns d) v)
  else if field "file" key then
    option_map (λ s, DTable (dt_Name d) (dt_Columns d) s (dt_Indexes d)) (dec_string (dt_File d) v)
  else if field "indexes" key then
    option_map (DTable (dt_Name d) (dt_Columns d) (dt_File d)) (dec_slice dec_index (Index "" 0 "") (dt_Indexes d) v)
  else Some d.
Definition dec_table (v : json) : option TableMeta :=
  option_map decoded (dec_struct table_step (DTable "" nil_slice "" nil_slice) v).

(** A map is filled, made first if it is nil; [null] makes it nil. *)
Definition map_step (T : gmap string TableMeta) (key : string) (v : json) : option (gmap string TableMeta) :=
  option_map (λ tm, <[key := tm]> T) (dec_table v).
Definition dec_tables (old : option (gmap string TableMeta)) (v : json)
    : option (option (gmap string TableMeta)) :=
  match v with
  | JNull => Some None
  | JObj l => option_map Some (dec_members map_step (default ∅ old) l)
  | _ => None
  end.

Definition state_step (doc : document) (key : string) (v : json) : option document :=
  if field "next_id" key then option_map (λ z, Document z (d_Tables doc)) (dec_uint32 (d_NextID doc) v)
  else if field "tables" key then option_map (Document (d_NextID doc)) (dec_tables (d_Tables doc) v)
  else Some doc.
Definition dec_state : json → option document := dec_struct state_step (Document 0 (Some ∅)).

(** ** The codec *)

Definition MarshalIndent (st : state) : list byte := String.list_byte_of_string (print 0 (enc_state st)).
Definition Unmarshal (data : list byte) : option document :=
  match parse (String.string_of_list_byte data) with Some v => dec_state v | None => None end.

#[global] Instance codec : Catalog.JSON :=
  {| Catalog.MarshalIndent := MarshalIndent; Catalog.Unmarshal := Unmarshal |}.

(** ** What a document becomes when it is written and read *)

Definition san_column (c : Column) : Column := Col (sanitize (Name c)) (Type_ c) (Nullable c).
Definition san_index (ix : IndexMeta) : IndexMeta :=
  Index (sanitize (ix_Name ix)) (ix_Column ix) (sanitize (ix_File ix)).
Definition san_table (tm : TableMeta) : TableMeta :=
  Table (sanitize (tm_Name tm)) (MkSchema (map san_column (Columns (tm_Schema tm))))
        (sanitize (tm_File tm)) (map san_index (tm_Indexes tm)).
(** The members are read in the order of their keys; where sanitizing makes two
    keys equal the last one stays. *)
Definition reread (T : gmap string TableMeta) : gmap string TableMeta :=
  foldl (λ T '(k, tm), <[sanitize k := san_table tm]> T) ∅ (sorted_members T).

(** The integers are in the range of their Go types. *)
Definition ints_table (tm : TableMeta) : Prop :=
  Forall (λ c, 0 ≤ Type_ c ≤ 255) (Columns (tm_Schema tm)) ∧
  Forall (λ ix, - 2 ^ 63 ≤ ix_Column ix ≤ 2 ^ 63 - 1) (tm_Indexes tm).
Definition ints_ok (st : state) : Prop :=
  0 ≤ NextID st ≤ 2 ^ 32 - 1 ∧ map_Forall (λ _ tm, ints_table tm) (Tables st).

(** ** The text is within the limits of the parser *)

Lemma fits_slice {A} (f : A → json) d l : (∀ x, fits d (f x)) → fits (S d) (enc_slice f l).
Proof. intros H. destruct l as [|x l]; [done|]. apply Forall_fmap, Forall_true. exact H. Qed.

Lemma fits_int d z : fits d (enc_int z).
Proof. destruct d; by exists z. Qed.

Lemma fits_column d c : fits (S d) (enc_column c).
Proof. repeat constructor; try apply fits_int; by destruct d. Qed.

Lemma fits_table d tm : fits (4 + d) (enc_table tm).
Proof.
  repeat constructor.
  - apply (fits_slice enc_column (S d)). intros c. apply fits_column.
  - apply (fits_slice enc_index (2 + d)). intros ix. repeat constructor. apply fits_int.
Qed.

Lemma fits_state st : fits maxNestingDepth (enc_state st).
Proof.
  replace maxNestingDepth with (6 + N.to_nat 9994)%nat by (vm_compute; reflexivity).
  generalize (N.to_nat 9994) as d. intros d. constructor; [apply fits_int|]. constructor; [|constructor].
  apply Forall_fmap, Forall_true. intros [k tm]. apply fits_table.
Qed.

(** ** Decoding what was encoded *)

Lemma dec_slice_enc {A B} (f : A → json) (g : B → json → option B) (zero : B) (h : A → B) l :
  Forall (λ x, g zero (san (f x)) = Some (h x)) l →
  dec_slice g zero nil_slice (san (enc_slice f l)) = Some (DSlice (map h l) []).
Proof.
  intros H. assert (dec_over g zero [] (map san (map f l)) = Some (DSlice (map h l) [])) as E.
  { induction H as [|x l Hx Hl IH]; [done|]. cbn [map dec_over hd tl]. by rewrite Hx, IH. }
  by destruct l.
Qed.

Lemma dec_number_int value lo hi old z :
  value (pretty z) = Some z → lo ≤ z ≤ hi → dec_number value lo hi old (san (enc_int z)) = Some z.
Proof. intros Hv Hr. simpl. rewrite Hv. by rewrite (proj2 (in_range_true _ _ _) Hr). Qed.

(** Member names are literals: sanitizing and matching them computes. *)
#[local] Ltac names :=
  repeat match goal with
  | |- context [sanitize (String ?a ?s)] =>
      let r := eval vm_compute in (sanitize (String a s)) in change (sanitize (String a s)) with r
  | |- context [field ?x ?y] =>
      let r := eval vm_compute in (field x y) in change (field x y) with r; cbn iota
  end.

Lemma dec_column_enc c : 0 ≤ Type_ c ≤ 255 → dec_column (Col "" 0 false) (san (enc_column c)) = Some (san_column c).
Proof.
  intros Hc. unfold dec_column, enc_column. cbn [san map dec_struct dec_members]. names.
  unfold column_step; names. cbn [dec_string option_map Name Type_ Nullable dec_bool].
  unfold dec_uint8. rewrite (dec_number_int uint_val) by (lia || apply uint_val_pretty_Z; lia). done.
Qed.

Lemma dec_index_enc ix :
  - 2 ^ 63 ≤ ix_Column ix ≤ 2 ^ 63 - 1 → dec_index (Index "" 0 "") (san (enc_index ix)) = Some (san_index ix).
Proof.
  intros Hc. unfold dec_index, enc_index. cbn [san map dec_struct dec_members]. names.
  unfold index_step; names. cbn [dec_string option_map ix_Name ix_Column ix_File].
  unfold dec_int. rewrite (dec_number_int int_val) by (lia || apply int_val_pretty). done.
Qed.

Lemma dec_table_enc tm : ints_table tm → dec_table (san (enc_table tm)) = Some (san_table tm).
Proof.
  intros [Hc Hi]. unfold dec_table, enc_table, enc_schema. cbn [san map dec_struct dec_members]. names.
  unfold table_step; names. cbn [dec_string option_map dt_Name dt_Columns dt_File dt_Indexes].
  cbn [dec_struct dec_members]. unfold schema_step; names.
  rewrite (dec_slice_enc enc_column dec_column _ san_column)
    by (eapply Forall_impl; [exact Hc|]; intros c; apply dec_column_enc).
  cbn [option_map dec_string dt_Name dt_Columns dt_File dt_Indexes].
  rewrite (dec_slice_enc enc_index dec_index _ san_index)
    by (eapply Forall_impl; [exact Hi|]; intros ix; apply dec_index_enc).
  done.
Qed.

Lemma dec_tables_enc T l :
  Forall (λ kv, ints_table kv.2) l →
  dec_members map_step T (map (λ '(key, v), (sanitize key, san v)) (map (λ '(k, tm), (k, enc_table tm)) l)) =
  Some (foldl (λ T '(k, tm), <[sanitize k := san_table tm]> T) T l).
Proof.
  intros H. revert T. induction H as [|[k tm] l Ht Hl IH]; intros T; [done|].
  cbn [map dec_members foldl]. unfold map_step at 1. rewrite dec_table_enc by done. apply IH.
Qed.

Lemma dec_state_enc st :
  ints_ok st → dec_state (san (enc_state st)) = Some (Document (NextID st) (Some (reread (Tables st)))).
Proof.
  intros [Hid HT]. unfold dec_state, enc_state. cbn [san map dec_struct dec_members]. names.
  unfold state_step; names. unfold dec_uint32.
  rewrite (dec_number_int uint_val) by (lia || apply uint_val_pretty_Z; lia).
  cbn [option_map dec_tables d_NextID d_Tables default]. rewrite dec_tables_enc; [done|].
  unfold sorted_members. rewrite merge_sort_Permutation. apply Forall_forall.
  intros [k tm] Hin%elem_of_map_to_list. exact (HT _ _ Hin).
Qed.

(** ** Valid documents come back as they were *)

Lemma foldl_insert_nodup {A} (l : list (string * A)) (T : gmap string A) :
  NoDup l.*1 → foldl (λ T '(k, x), <[k := x]> T) T l = list_to_map l ∪ T.
Proof.
  revert T. induction l as [|[k x] l IH]; intros T Hn; [exact (eq_sym (map_empty_union T))|].
  apply NoDup_cons in Hn as [Hk Hn]. cbn [foldl list_to_map foldr fst snd].
  rewrite IH by done. change (foldr _ ∅ l) with (list_to_map (M := gmap string A) l).
  rewrite <-insert_union_l. symmetry. apply insert_union_r, not_elem_of_list_to_map_1. done.
Qed.

Lemma sorted_members_nodup T : NoDup (sorted_members T).*1.
Proof. unfold sorted_members. rewrite merge_sort_Permutation. apply NoDup_fst_map_to_list. Qed.

Lemma sorted_members_map T : list_to_map (sorted_members T) = T.
Proof.
  rewrite (list_to_map_proper (sorted_members T) (map_to_list T)); [apply list_to_map_to_list| |].
  - apply sorted_members_nodup.
  - apply merge_sort_Permutation.
Qed.

Lemma san_map_id {A} (f : A → A) (P : A → bool) l :
  (∀ x, P x = true → f x = x) → forallb P l = true → map f l = l.
Proof.
  intros H. induction l as [|x l IH]; [done|]. simpl. intros [Hx Hl]%andb_prop. by rewrite H, IH.
Qed.

Lemma san_table_id tm : json_table tm = true → san_table tm = tm.
Proof.
  destruct tm as [n [cs] f ixs]. unfold json_table. simpl. intros H. bools.
  unfold san_table. simpl. rewrite !sanitize_id by done. f_equal.
  - f_equal. eapply san_map_id; [|done]. intros [cn ct cnl]. unfold json_column. simpl. intros Hc. bools.
    unfold san_column. simpl. by rewrite sanitize_id.
  - eapply san_map_id; [|done]. intros [xn xc xf]. unfold json_index. simpl. intros Hc. bools.
    unfold san_index. simpl. by rewrite !sanitize_id.
Qed.

Lemma reread_id T :
  map_Forall (λ k tm, utf8 k = true ∧ json_table tm = true) T → reread T = T.
Proof.
  intros H. unfold reread.
  assert (∀ l (T0 : gmap string TableMeta), Forall (λ kv : string * TableMeta, utf8 kv.1 = true ∧ json_table kv.2 = true) l →
    foldl (λ T '(k, tm), <[sanitize k := san_table tm]> T) T0 l = foldl (λ T '(k, tm), <[k := tm]> T) T0 l) as E.
  { induction l as [|[k tm] l IH]; intros T0 Hl; [done|]. apply Forall_cons in Hl as [[Hk Ht] Hl]. simpl in *.
    rewrite sanitize_id, san_table_id by done. by apply IH. }
  rewrite E; [rewrite foldl_insert_nodup, sorted_members_map by apply sorted_members_nodup; apply map_union_empty|].
  unfold sorted_members. rewrite merge_sort_Permutation. apply Forall_forall.
  intros [k tm] Hin%elem_of_map_to_list. exact (H _ _ Hin).
Qed.

Lemma json_ints st : json_ok st → ints_ok st.
Proof.
  intros [Hid HT]. split; [by apply in_range_true|]. eapply map_Forall_impl; [exact HT|].
  intros k tm [_ Hj]. unfold json_table in Hj. bools. split; apply Forall_forall.
  - intros c Hc. match goal with H : forallb json_column _ = true |- _ => rewrite forallb_forall in H;
      specialize (H c (proj1 (list_elem_of_In _ _) Hc)) end.
    unfold json_column in *. bools. by apply in_range_true.
  - intros ix Hc. match goal with H : forallb json_index _ = true |- _ => rewrite forallb_forall in H;
      specialize (H ix (proj1 (list_elem_of_In _ _) Hc)) end.
    unfold json_index in *. bools. by apply in_range_true.
Qed.

Lemma Unmarshal_Marshal st :
  ints_ok st → Unmarshal (MarshalIndent st) = Some (Document (NextID st) (Some (reread (Tables st)))).
Proof.
  intros H. unfold Unmarshal, MarshalIndent. rewrite String.string_of_list_byte_of_string.
  rewrite parse_print by apply fits_state. by apply dec_state_enc.
Qed.

#[global] Instance codec_spec : JSONSpec.
Proof. intros st H. simpl. rewrite Unmarshal_Marshal by (by apply json_ints). by rewrite reread_id by apply H. Qed.

(** ** Whatever is decoded is typed *)

Lemma dec_members_inv {A} (step : A → string → json → option A) (P : A → Prop) l :
  (∀ a key v a', P a → utf8 key = true → text_ok v = true → step a key v = Some a' → P a') →
  forallb (λ kv, utf8 kv.1 && text_ok kv.2) l = true →
  ∀ a a', P a → dec_members step a l = Some a' → P a'.
Proof.
  intros Hstep. induction l as [|[key v] l IH]; intros Hl a a' Ha E; simpl in *; [by injection E as <-|].
  bools. destruct (step a key v) as [a1|] eqn:E1; [|done]. eapply IH; [done| |exact E]. by eapply Hstep.
Qed.

Lemma dec_struct_inv {A} (step : A → string → json → option A) (P : A → Prop) a v a' :
  (∀ a key v a', P a → utf8 key = true → text_ok v = true → step a key v = Some a' → P a') →
  P a → text_ok v = true → dec_struct step a v = Some a' → P a'.
Proof.
  intros Hstep Ha Hv E. destruct v as [| | | | |l]; try done; [by injection E as <-|].
  by eapply dec_members_inv.
Qed.

Lemma dec_string_ok old v s : utf8 old = true → text_ok v = true → dec_string old v = Some s → utf8 s = true.
Proof. intros Ho Hv E. destruct v; simplify_eq/=; done. Qed.

Lemma dec_number_ok value lo hi old v z :
  in_range lo hi old = true → dec_number value lo hi old v = Some z → in_range lo hi z = true.
Proof. intros Ho E. unfold dec_number in E. by repeat case_match; simplify_eq. Qed.

Lemma dec_slice_ok {A} (f : A → json → option A) (zero : A) (P : A → bool) old v s :
  (∀ x v x', P x = true → text_ok v = true → f x v = Some x' → P x' = true) → P zero = true →
  forallb P (memory old) = true → text_ok v = true → dec_slice f zero old v = Some s → forallb P (memory s) = true.
Proof.
  intros Hf H0 Ho Hv E.
  assert (∀ vs mem s, forallb text_ok vs = true → forallb P mem = true → dec_over f zero mem vs = Some s →
    forallb P (memory s) = true) as Hover.
  { clear -Hf H0. induction vs as [|v vs IH]; intros mem s Hv Hm E; simpl in *; [by injection E as <-|]. bools.
    destruct (f (hd zero mem) v) as [x|] eqn:Ex; [|done]. destruct (dec_over f zero (tl mem) vs) as [s'|] eqn:Es; [|done].
    injection E as <-. unfold memory. simpl.
    assert (P (hd zero mem) = true ∧ forallb P (tl mem) = true) as [Hh Ht] by (destruct mem; simpl in *; bools; done).
    rewrite (Hf _ v x Hh) by done. exact (IH _ _ ltac:(done) Ht Es). }
  destruct v as [| | | |[|v vs]|]; try done; [by injection E as <-|by injection E as <-|]. by eapply Hover.
Qed.

#[local] Ltac optmap E x Ex := apply fmap_Some_1 in E as (x&Ex&->).

Lemma dec_column_ok c v c' : json_column c = true → text_ok v = true → dec_column c v = Some c' → json_column c' = true.
Proof.
  apply (dec_struct_inv column_step (λ c, json_column c = true)).
  clear. intros c key v c' Hc _ Hv E. unfold column_step in E. unfold json_column in *. bools.
  repeat case_match; [| | |by simplify_eq; apply andb_true_intro]; optmap E x Ex; apply andb_true_intro; simpl.
  - split; [by eapply dec_string_ok|done].
  - split; [done|by eapply dec_number_ok].
  - done.
Qed.

Lemma dec_index_ok ix v ix' : json_index ix = true → text_ok v = true → dec_index ix v = Some ix' → json_index ix' = true.
Proof.
  apply (dec_struct_inv index_step (λ ix, json_index ix = true)).
  clear. intros ix key v ix' Hc _ Hv E. unfold index_step in E.
  assert (utf8 (ix_Name ix) = true ∧ utf8 (ix_File ix) = true ∧
          in_range (- 2 ^ 63) (2 ^ 63 - 1) (ix_Column ix) = true) as (H1&H2&H3) by (unfold json_index in Hc; bools; done).
  repeat case_match; [| | |by simplify_eq]; optmap E x Ex; unfold json_index; simpl; rewrite ?H1, ?H2, ?H3.
  - by rewrite (dec_string_ok _ _ _ H1 Hv Ex).
  - by rewrite (dec_number_ok _ _ _ _ _ _ H3 Ex).
  - by rewrite (dec_string_ok _ _ _ H2 Hv Ex).
Qed.

Lemma dec_schema_ok s v s' :
  forallb json_column (memory s) = true → text_ok v = true → dec_struct schema_step s v = Some s' →
  forallb json_column (memory s') = true.
Proof.
  apply (dec_struct_inv schema_step (λ s, forallb json_column (memory s) = true)).
  clear. intros s key v s' Hs _ Hv E. unfold schema_step in E. case_match; [|by simplify_eq].
  eapply (dec_slice_ok dec_column (Col "" 0 false)); [exact dec_column_ok|done|exact Hs|exact Hv|exact E].
Qed.

(** Also the elements a slice no longer shows are typed. *)
Definition dtable_ok (d : dtable) : Prop :=
  utf8 (dt_Name d) = true ∧ forallb json_column (memory (dt_Columns d)) = true ∧ utf8 (dt_File d) = true ∧
  forallb json_index (memory (dt_Indexes d)) = true.

Lemma vis_ok {A} (P : A → bool) (s : dslice A) : forallb P (memory s) = true → forallb P (vis s) = true.
Proof. unfold memory. rewrite forallb_app. by intros [? _]%andb_prop. Qed.

Lemma dec_table_ok v tm : text_ok v = true → dec_table v = Some tm → json_table tm = true.
Proof.
  intros Hv E. unfold dec_table in E. optmap E d Ed.
  assert (dtable_ok d) as (H1&H2%vis_ok&H3&H4%vis_ok).
  { revert Hv Ed. apply (dec_struct_inv table_step dtable_ok); [|done].
    clear. intros d key v d' (H1&H2&H3&H4) _ Hv E. unfold table_step in E.
    repeat case_match; [| | | |by simplify_eq]; optmap E x Ex; split_and!; try done; simpl.
    - exact (dec_string_ok _ _ _ H1 Hv Ex).
    - exact (dec_schema_ok _ _ _ H2 Hv Ex).
    - exact (dec_string_ok _ _ _ H3 Hv Ex).
    - eapply (dec_slice_ok dec_index (Index "" 0 "")); [exact dec_index_ok|done|exact H4|exact Hv|exact Ex]. }
  unfold json_table, decoded. simpl. unfold json_schema. simpl. by rewrite H1, H2, H3, H4.
Qed.

Definition typed_doc (doc : document) : Prop := json_ok (State (d_NextID doc) (default ∅ (d_Tables doc))).

Lemma dec_tables_ok old v T :
  map_Forall (λ k tm, utf8 k = true ∧ json_table tm = true) (default ∅ old) →
  text_ok v = true → dec_tables old v = Some T →
  map_Forall (λ k tm, utf8 k = true ∧ json_table tm = true) (default ∅ T).
Proof.
  intros Ho Hv E. destruct v as [| | | | |l]; try done; [injection E as <-; apply map_Forall_empty|].
  optmap E T' ET. simpl.
  eapply (dec_members_inv map_step (map_Forall (λ k tm, utf8 k = true ∧ json_table tm = true)));
    [|exact Hv|exact Ho|exact ET].
  clear. intros T key v T' HT Hk Hv E. optmap E tm Et. apply map_Forall_insert_2; [|done].
  split; [done|by eapply dec_table_ok].
Qed.

Lemma Unmarshal_ok data doc : Unmarshal data = Some doc → typed_doc doc.
Proof.
  unfold Unmarshal. destruct (parse _) as [v|] eqn:Ep; [|done]. apply parse_text in Ep. intros E.
  apply (dec_struct_inv state_step typed_doc (Document 0 (Some ∅)) v);
    [|split; [done|exact (map_Forall_empty _)]|done|done].
  clear. intros doc key v doc' [Hid HT] _ Hv E. unfold state_step in E.
  repeat case_match; [| |by simplify_eq]; optmap E x Ex; split; simpl; try done.
  - by eapply dec_number_ok.
  - by eapply dec_tables_ok.
Qed.

(** C20: the codec on any document whose integers are in the range of their Go
    types, whatever bytes its strings have: [json.Unmarshal] accepts what
    [json.MarshalIndent] wrote and gives back the counter and the tables with
    every byte that is no UTF-8 replaced by U+FFFD, the last of two tables
    whose names become equal; a document of valid strings comes back as it
    was. *)
Theorem codec_roundtrip st :
  ints_ok st →
  Unmarshal (MarshalIndent st) = Some (Document (NextID st) (Some (reread (Tables st)))) ∧
  (json_ok st → reread (Tables st) = Tables st).
Proof. intros H. split; [by apply Unmarshal_Marshal|]. intros [_ HT]. by apply reread_id. Qed.

Lemma codec_Unmarshal data : Catalog.Unmarshal data = Unmarshal data.
Proof. reflexivity. Qed.

(** Types at the border: whatever bytes the store holds, opening a catalog
    never panics and leaves the store alone, and the catalog it returns is
    typed: its counter is a uint32, the column types are uint8, the column
    numbers of its indexes are int64 and every string in it is valid UTF-8. *)
Theorem opened_catalog_typed {W} `{BlobStoreSpec W} d (w w' : W) r :
  openWith d w = (w', r) →
  stored w' = stored w ∧
  match r with Ret c => dir c = d ∧ json_ok (state_ c) | Fail _ => True | Panic => False end.
Proof.
  intros E. unfold openWith in E. destruct (bs_load w) as [w1 rl] eqn:El.
  apply load_ok in El as (Hst&Hr&_). destruct rl as [[data|]|e|]; [| |by injection E as <- <-|done].
  - rewrite codec_Unmarshal in E. pose proof (Unmarshal_ok data) as Hu. destruct (Unmarshal data) as [doc|]; injection E as <- <-; [|done].
    specialize (Hu doc eq_refl). done.
  - injection E as <- <-. split; [done|]. split; [done|]. split; [done|exact (map_Forall_empty _)].
Qed.

(** ** Witnesses: runs over a file store with this codec *)

Definition ex_store : fileStore := FileStore "db/catalog.json" (Fs ∅ []).
Definition ex_schema : Schema := MkSchema [Col "id" TypeInt false].
Definition ex_cat0 : Catalog fileStore := Cat "db" ex_store (State 0 ∅).
Definition ex_cat1 : Catalog fileStore := run_call (CTable "users" ex_schema) ex_cat0.
Definition ex_cat2 : Catalog fileStore := run_call (CIndex "users" "by_id" 0) ex_cat1.

Lemma ex_reach0 : reachable "db" ex_cat0.
Proof. by apply (reach_new "db" ex_store ex_store). Qed.
Lemma ex_reach1 : reachable "db" ex_cat1.
Proof. apply (reach_call "db" ex_cat0 (CTable "users" ex_schema) ex_reach0); vm_compute; reflexivity. Qed.
Lemma ex_reach2 : reachable "db" ex_cat2.
Proof.
  apply (reach_call "db" ex_cat1 (CIndex "users" "by_id" 0) ex_reach1); vm_compute; reflexivity.
Qed.

Lemma catalog_invariant_witness :
  all_files (Tables (state_ ex_cat2)) = ["rel_0.db"; "rel_1.db"] ∧
  NoDup (all_files (Tables (state_ ex_cat2))).
Proof.
  split; [vm_compute; reflexivity|].
  exact (proj1 (proj2 (catalog_invariant "db" ex_cat2 ex_reach2))).
Defined.

Lemma catalog_reopen_witness :
  store_healthy (store_ ex_cat2) ∧ is_ret (openWith "db" (store_ ex_cat2)).2 = true.
Proof.
  assert (store_healthy (store_ ex_cat2)) as Hh by (vm_compute; reflexivity).
  split; [exact Hh|].
  exact (proj2 (catalog_reopen "db" ex_cat2 _ _ ex_reach2 (surjective_pairing _)) Hh).
Defined.

Lemma CreateTable_branches_witness :
  (CreateTable "" ex_schema ex_cat1).2 = Fail ErrEmptyName.
Proof.
  apply (CreateTable_branches "" ex_schema ex_cat1 (CreateTable "" ex_schema ex_cat1).1 _ (surjective_pairing _)).
  reflexivity.
Defined.

Lemma CreateIndex_branches_witness :
  (CreateIndex "users" "" 0 ex_cat1).2 = Fail ErrEmptyName.
Proof.
  apply (CreateIndex_branches "users" "" 0 ex_cat1 (CreateIndex "users" "" 0 ex_cat1).1 _ (surjective_pairing _)).
  reflexivity.
Defined.

Lemma fileStore_atomic_witness :
  let s1 := (on_fs (os_WriteFile "db/catalog.json.tmp" [x2a]) ex_store).1 in
  content (fs s1) !! "db/catalog.json" = None.
Proof.
  exact (proj1 (fileStore_atomic ex_store [x2a] _ _ _ _ _ _
    (surjective_pairing (on_fs (os_WriteFile "db/catalog.json.tmp" [x2a]) ex_store))
    (surjective_pairing (on_fs (os_Rename "db/catalog.json.tmp" "db/catalog.json") _))
    (surjective_pairing (fileStore_save [x2a] ex_store)))).
Defined.

Lemma ListTables_sorted_witness :
  let order := (map_to_list (Tables (state_ ex_cat2))).*2 in
  length order = 1%nat ∧ Sorted name_le (ListTables order).
Proof.
  split; [vm_compute; reflexivity|].
  exact (proj1 (ListTables_sorted "db" ex_cat2 _ _ ex_reach2 (reflexivity _) (reflexivity _))).
Defined.

Lemma codec_roundtrip_witness :
  Tables (state_ ex_cat2) ≠ ∅ ∧ Unmarshal (MarshalIndent (state_ ex_cat2)) =
    Some (Document 2 (Some (Tables (state_ ex_cat2)))).
Proof.
  split; [by vm_compute|].
  assert (json_ok (state_ ex_cat2)) as Hj by (apply (synced_json (store_ ex_cat2)), (reachable_inv _ _ ex_reach2)).
  destruct (codec_roundtrip (state_ ex_cat2) (json_ints _ Hj)) as [E Hid]. rewrite E, (Hid Hj). reflexivity.
Defined.

Lemma opened_catalog_typed_witness :
  json_ok (state_ ex_cat0).
Proof.
  exact (proj2 (proj2 (opened_catalog_typed "db" ex_store ex_store (Ret ex_cat0) (eq_refl _)))).
Defined.

(** A field that occurs again: its array is decoded over the elements of the
    earlier ones, also over those a shorter array had hidden. *)
Example repeated_field :
  let data := String.list_byte_of_string
    "{'tables': {'t': {'indexes': [{'name': 'a', 'file': 'f'}, {'name': 'b'}],
                       'indexes': [{'column': 1}],
                       'indexes': [{}, {'file': 'g'}]}}}" in
  let unquote b := if decide (b = x27) then x22 else b in
  Unmarshal (map unquote data) =
    Some (Document 0 (Some {["t" := Table "" (MkSchema []) "" [Index "a" 1 "f"; Index "b" 0 "g"]]})).
Proof. vm_compute. reflexivity. Qed.

(** ** Names that are no UTF-8 *)

(** Every table that is read back was written, under a name that reads as its key. *)
Lemma reread_from T k tm :
  reread T !! k = Some tm → ∃ k0 tm0, T !! k0 = Some tm0 ∧ k = sanitize k0 ∧ tm = san_table tm0.
Proof.
  unfold reread.
  assert (∀ l (T0 : gmap string TableMeta), foldl (λ T '(k, tm), <[sanitize k := san_table tm]> T) T0 l !! k = Some tm →
    T0 !! k = Some tm ∨ ∃ k0 tm0, (k0, tm0) ∈ l ∧ k = sanitize k0 ∧ tm = san_table tm0) as H.
  { clear. induction l as [|[k0 tm0] l IH]; intros T0 H; [by left|]. simpl in H. destruct (IH _ H) as [H'|(k1&tm1&?&?)].
    - apply lookup_insert_Some in H' as [[<- <-]|[_ ?]]; [right|by left]. exists k0, tm0. split; [by left|done].
    - right. exists k1, tm1. split; [by right|done]. }
  intros [H'|(k0&tm0&Hin&?&?)]%H; [done|]. exists k0, tm0. split; [|done].
  unfold sorted_members in Hin. rewrite merge_sort_Permutation in Hin. by apply elem_of_map_to_list.
Qed.

(** Two names that read the same leave one table less. *)
Lemma reread_smaller (T : gmap string TableMeta) n1 n2 :
  n1 ∈ dom T → n2 ∈ dom T → n1 ≠ n2 → sanitize n1 = sanitize n2 → (size (reread T) < size T)%nat.
Proof.
  intros [t1 H1]%elem_of_dom [t2 H2]%elem_of_dom Hne Hs.
  assert (size T = S (size (delete n2 T))) as ->.
  { rewrite <-(insert_delete_id T n2 t2 H2) at 1. by rewrite map_size_insert_None by apply lookup_delete_eq. }
  apply Nat.lt_succ_r. rewrite <-!length_map_to_list, <-(length_fmap fst (map_to_list (reread T))).
  rewrite <-(length_fmap (λ kv : string * TableMeta, sanitize kv.1) (map_to_list (delete n2 T))).
  apply submseteq_length, NoDup_submseteq; [apply NoDup_fst_map_to_list|].
  intros k ([k' tm]&->&(k0&tm0&Hk&->&->)%elem_of_map_to_list%reread_from)%list_elem_of_fmap. simpl.
  apply list_elem_of_fmap. destruct (decide (k0 = n2)) as [->|Hk0].
  - exists (n1, t1). split; [by simpl|]. apply elem_of_map_to_list. by rewrite lookup_delete_ne.
  - exists (k0, tm0). split; [done|]. apply elem_of_map_to_list. by rewrite lookup_delete_ne.
Qed.

Lemma spec_table_ints st name schema st' tm :
  ints_ok st → Forall (λ c, 0 ≤ Type_ c ≤ 255) (Columns schema) →
  spec_table st name schema = inr (st', tm) → ints_ok st' ∧ Tables st !! name = None ∧ Tables st' = <[name := tm]> (Tables st).
Proof.
  intros [Hi Ht] Hs H. unfold spec_table in H. repeat case_match; simplify_eq/=. split_and!; [|done|done]. split; simpl.
  - pose proof (Z.mod_pos_bound (NextID st + 1) (2 ^ 32) ltac:(lia)). unfold u32. lia.
  - apply map_Forall_insert_2; [|done]. split; [done|constructor].
Qed.

(** Opening a store that holds a document with integers in range. *)
Lemma openWith_saved {W} `{BlobStoreSpec W} d (w : W) st w' r :
  stored w = Some (MarshalIndent st) → ints_ok st → openWith d w = (w', r) →
  (store_healthy w → is_ret r = true) ∧
  match r with Ret c => state_ c = State (NextID st) (reread (Tables st)) | Fail _ => True | Panic => False end.
Proof.
  intros Hs Hi Ho. unfold openWith in Ho. destruct (bs_load w) as [w1 rl] eqn:El. apply load_ok in El as (_&Hr&Hh).
  rewrite Hs in Hr. destruct rl as [o|e|]; [subst o|injection Ho as <- <-|done].
  - rewrite codec_Unmarshal, Unmarshal_Marshal in Ho by exact Hi. injection Ho as <- <-. split; [intros _; reflexivity|reflexivity].
  - split; [|exact I]. intros [_ ?]%Hh. done.
Qed.

(** C22: names are not checked to be UTF-8.  Let two tables be created, in any
    catalog, whose names are different but read the same once every byte that is
    no UTF-8 is replaced by U+FFFD.  Both calls succeed, save, and both tables are
    there; but when the catalog is opened again it has fewer tables than before,
    every one of them one of the old tables under its name as it reads; so at
    least one table, with its file, is lost.  Opening reports no error on a
    healthy store. *)
Theorem invalid_names_merge {W} `{BlobStoreSpec W} d (c c1 c2 : Catalog W) n1 n2 sch1 sch2 t1 t2 w r :
  ints_ok (state_ c) → Forall (λ c, 0 ≤ Type_ c ≤ 255) (Columns sch1) → Forall (λ c, 0 ≤ Type_ c ≤ 255) (Columns sch2) →
  CreateTable n1 sch1 c = (c1, Ret t1) → CreateTable n2 sch2 c1 = (c2, Ret t2) → sanitize n1 = sanitize n2 →
  openWith d (store_ c2) = (w, r) →
  GetTable n1 c2 = Some t1 ∧ GetTable n2 c2 = Some t2 ∧ stored (store_ c2) = Some (MarshalIndent (state_ c2)) ∧
  (store_healthy (store_ c2) → is_ret r = true) ∧
  match r with
  | Ret c' =>
      (size (Tables (state_ c')) < size (Tables (state_ c2)))%nat ∧
      (∀ name tm, GetTable name c' = Some tm →
         ∃ name0 tm0, GetTable name0 c2 = Some tm0 ∧ name = sanitize name0 ∧ tm = san_table tm0)
  | Fail _ => True
  | Panic => False
  end.
Proof.
  intros Hi Hs1 Hs2 E1 E2 Hsan Ho. apply CreateTable_updated in E1, E2. unfold updated in *.
  destruct (spec_table (state_ c) n1 sch1) as [e|[st1 tm1]] eqn:S1; [by destruct E1|].
  destruct E1 as (_&[(E&Hst1&_)|(?&?&_)]&_); [injection E as <-|done].
  destruct (spec_table (state_ c1) n2 sch2) as [e|[st2 tm2]] eqn:S2; [by destruct E2|].
  destruct E2 as (_&[(E&Hst2&Hsto)|(?&?&_)]&_); [injection E as <-|done].
  destruct (spec_table_ints _ _ _ _ _ Hi Hs1 S1) as (Hi1&_&HT1). rewrite <-Hst1 in Hi1, HT1.
  destruct (spec_table_ints _ _ _ _ _ Hi1 Hs2 S2) as (Hi2&Hnew&HT2). rewrite <-Hst2 in Hi2, HT2, Hsto.
  assert (n1 ≠ n2) as Hne by (intros ->; rewrite HT1, lookup_insert_eq in Hnew; done).
  unfold GetTable at 1 2. rewrite HT2, lookup_insert_eq, lookup_insert_ne, HT1, lookup_insert_eq by done.
  destruct (openWith_saved d _ _ _ _ Hsto Hi2 Ho) as [Hret Hr]. split_and!; [done|done|done|done|].
  destruct r as [c'|e|]; [|done|done]. rewrite <-HT1, <-HT2. unfold GetTable. rewrite Hr. cbn [Tables]. split.
  - apply (reread_smaller _ n1 n2); [..|done|done]; apply elem_of_dom; rewrite HT2;
      [rewrite lookup_insert_ne, HT1, lookup_insert_eq by done|rewrite lookup_insert_eq]; eauto.
  - intros name tm. apply reread_from.
Qed.

(** The bytes 0xFF and 0xFE as names: the table of the first is left. *)
Example invalid_names_run :
  let c := run_call (CTable (String (chr 254) "") ex_schema) (run_call (CTable (String (chr 255) "") ex_schema) ex_cat0) in
  GetTable (String (chr 255) "") c = Some (Table (String (chr 255) "") ex_schema "rel_0.db" []) ∧
  GetTable (String (chr 254) "") c = Some (Table (String (chr 254) "") ex_schema "rel_1.db" []) ∧
  stored (store_ c) = Some (MarshalIndent (state_ c)) ∧
  ∃ w c', openWith "db" (store_ c) = (w, Ret c') ∧ NextID (state_ c') = 2 ∧
    Tables (state_ c') = {[fffd := Table fffd ex_schema "rel_0.db" []]}.
Proof.
  intros c. split_and!; [vm_compute; reflexivity..|].
  eexists _, _. split; [vm_compute; reflexivity|]. split; vm_compute; reflexivity.
Qed.

Lemma invalid_names_merge_witness :
  let c1 := run_call (CTable (String (chr 255) "") ex_schema) ex_cat0 in
  let c2 := run_call (CTable (String (chr 254) "") ex_schema) c1 in
  match (openWith "db" (store_ c2)).2 with
  | Ret c' => (size (Tables (state_ c')) < size (Tables (state_ c2)))%nat
  | _ => False
  end.
Proof.
  intros c1 c2.
  destruct (invalid_names_merge "db" ex_cat0 c1 c2 (String (chr 255) "") (String (chr 254) "") ex_schema ex_schema
    (Table (String (chr 255) "") ex_schema "rel_0.db" []) (Table (String (chr 254) "") ex_schema "rel_1.db" [])
    (openWith "db" (store_ c2)).1 (openWith "db" (store_ c2)).2) as (_&_&_&Hh&Hr).
  - split; [vm_compute; split; discriminate|exact (map_Forall_empty _)].
  - repeat constructor; vm_compute; discriminate.
  - repeat constructor; vm_compute; discriminate.
  - vm_compute. reflexivity.
  - vm_compute. reflexivity.
  - vm_compute. reflexivity.
  - apply surjective_pairing.
  - specialize (Hh ltac:(vm_compute; reflexivity)). destruct (openWith "db" (store_ c2)).2; [exact (proj1 Hr)|discriminate Hh..].
Defined.
End CatalogJSON.
