(* ===== verification/CatalogReopen.v ===== *)
(** * Reopening a catalog (src/internal/catalog/catalog.go)

    Memory and store of a catalog after any calls a Go program can make, whatever
    bytes are in its names and however often its id counter has wrapped: what a
    reopened catalog has is what is in memory, as [encoding/json] writes it. *)

From S2P Require Import Prelude Bytes PageLayout Disk Record Utf8 JSON Catalog CatalogJSON.

Module CatalogReopen.
Import Record Utf8 JSON Catalog CatalogJSON.

(** ** Reading twice is reading once *)

Lemma san_table_json tm : ints_table tm → json_table (san_table tm) = true.
Proof.
  destruct tm as [n [cs] f ixs]. intros [Hc Hi]. simpl in Hc, Hi. unfold json_table. simpl.
  rewrite !sanitize_utf8, !andb_true_r. simpl. apply andb_true_intro. split.
  - unfold json_schema. simpl. apply forallb_forall. intros c' (c&<-&Hin)%in_map_iff.
    unfold json_column. simpl. rewrite sanitize_utf8. rewrite Forall_forall in Hc. apply list_elem_of_In, Hc in Hin.
    by apply in_range_true.
  - apply forallb_forall. intros ix' (ix&<-&Hin)%in_map_iff. unfold json_index. simpl.
    rewrite !sanitize_utf8. rewrite Forall_forall in Hi. apply list_elem_of_In, Hi in Hin. simpl. by apply in_range_true.
Qed.

Lemma reread_json T :
  map_Forall (λ _ tm, ints_table tm) T →
  map_Forall (λ k tm, utf8 k = true ∧ json_table tm = true) (reread T).
Proof.
  intros HT k tm (k0&tm0&Hk&->&->)%reread_from. split; [apply sanitize_utf8|]. apply san_table_json. exact (HT _ _ Hk).
Qed.

Lemma reread_twice T : map_Forall (λ _ tm, ints_table tm) T → reread (reread T) = reread T.
Proof. intros HT. apply reread_id. by apply reread_json. Qed.

Lemma reread_empty : reread ∅ = ∅.
Proof. apply reread_id, map_Forall_empty. Qed.

Lemma spec_index_ints st table name column st' im :
  ints_ok st → - 2 ^ 63 ≤ column ≤ 2 ^ 63 - 1 → spec_index st table name column = inr (st', im) → ints_ok st'.
Proof.
  intros [Hi Ht] Hcol H. unfold spec_index in H.
  destruct (String.eqb name ""); [done|]. destruct (Tables st !! table) as [tm|] eqn:E; [|done].
  destruct (negb _); [done|]. case_bool_decide; [done|]. injection H as <- <-. destruct (Ht _ _ E) as [Hc Hx].
  split; simpl.
  - pose proof (Z.mod_pos_bound (NextID st + 1) (2 ^ 32) ltac:(lia)). unfold u32. lia.
  - apply map_Forall_insert_2; [|done]. split; simpl; [done|]. apply Forall_app. split; [done|]. by constructor.
Qed.

Section reopen.
Context {W : Type} {BS : BlobStore W} {SS : BlobStoreSpec W}.

(** ** The catalogs a Go program can hold *)

(** The arguments are of their Go types: a column type is a uint8, a column
    number an int.  Strings are any bytes. *)
Definition typed_call (o : call) : Prop :=
  match o with
  | CTable _ schema => Forall (λ c, 0 ≤ Type_ c ≤ 255) (Columns schema)
  | CIndex _ _ column => - 2 ^ 63 ≤ column ≤ 2 ^ 63 - 1
  end.

(** A catalog opened on an empty store, after any call, failed ones included,
    and reopened from its store. *)
Inductive made (d : string) : Catalog W → Prop :=
| made_new w w' c : stored w = None → openWith d w = (w', Ret c) → made d c
| made_call c o : made d c → typed_call o → made d (run_call o c)
| made_open c w c' : made d c → openWith d (store_ c) = (w, Ret c') → made d c'.

(** What memory holds reads as what the store holds. *)
Record in_step (d : string) (c : Catalog W) : Prop := InStep {
  is_dir : dir c = d;
  is_ints : ints_ok (state_ c);
  is_stored :
    (∃ st0, stored (store_ c) = Some (MarshalIndent st0) ∧ ints_ok st0 ∧
       NextID st0 = NextID (state_ c) ∧ reread (Tables st0) = reread (Tables (state_ c))) ∨
    (stored (store_ c) = None ∧ state_ c = State 0 ∅) }.

Lemma ints_reread st : ints_ok st → ints_ok (State (NextID st) (reread (Tables st))).
Proof. intros [Hi HT]. apply json_ints. split; [by apply in_range_true|by apply reread_json]. Qed.

(** Opening the store of a catalog that is in step. *)
Lemma openWith_in_step d c w r :
  in_step d c → openWith d (store_ c) = (w, r) →
  match r with
  | Ret c' => dir c' = d ∧ store_ c' = w ∧ stored w = stored (store_ c) ∧
              state_ c' = State (NextID (state_ c)) (reread (Tables (state_ c)))
  | Fail _ => stored w = stored (store_ c)
  | Panic => False
  end ∧ (store_healthy (store_ c) → is_ret r = true).
Proof.
  intros [Hd _ Hs] H. unfold openWith in H. destruct (bs_load (store_ c)) as [w1 rl] eqn:El.
  apply load_ok in El as (Hst&Hr&Hh).
  destruct rl as [o|e|]; [|injection H as <- <-; split; [done|intros ?%Hh; by destruct H]|done].
  subst o. destruct Hs as [(st0&E&Hi0&Hn&HT)|[E Hz]]; rewrite E in H.
  - rewrite codec_Unmarshal, Unmarshal_Marshal in H by exact Hi0. injection H as <- <-. split; [|done].
    split_and!; [done..|]. simpl. by rewrite Hn, HT.
  - injection H as <- <-. split; [|done]. split_and!; [done..|]. rewrite Hz. simpl. by rewrite reread_empty.
Qed.

Lemma updated_in_step {A} d spec c c' (r : res A) :
  in_step d c → updated spec c c' r → (∀ st' a, spec = inr (st', a) → ints_ok st') → in_step d c'.
Proof.
  intros [Hd Hi Hs] H Hspec. destruct spec as [e|[st' a]]; [by destruct H as [-> _]|].
  specialize (Hspec _ _ eq_refl). destruct H as (Hd'&[(->&<-&Hst)|(e&->&Hst&Hsto)]&_).
  - split; [congruence|done|]. left. by exists (state_ c').
  - split; [congruence|by rewrite Hst|]. by rewrite Hst, Hsto.
Qed.

Lemma made_in_step d c : made d c → in_step d c.
Proof.
  induction 1 as [w w' c Hn Ho|c o _ IH Ht|c w c' _ IH Ho].
  - unfold openWith in Ho. destruct (bs_load w) as [w1 rl] eqn:El. apply load_ok in El as (Hst&Hr&_).
    destruct rl as [o|e|]; [subst o; rewrite Hn in Ho|done|done]. injection Ho as <- <-.
    split; simpl; [done| |right; split; [congruence|done]]. split; [done|apply map_Forall_empty].
  - destruct o as [name schema|table name column]; simpl in *.
    + destruct (CreateTable name schema c) as [c' r] eqn:E. apply CreateTable_updated in E.
      eapply updated_in_step; [done..|]. intros st' tm Hsp.
      by destruct (spec_table_ints _ _ _ _ _ (is_ints _ _ IH) Ht Hsp).
    + destruct (CreateIndex table name column c) as [c' r] eqn:E. apply CreateIndex_updated in E.
      eapply updated_in_step; [done..|]. intros st' im. apply spec_index_ints; [exact (is_ints _ _ IH)|done].
  - destruct (openWith_in_step d c w (Ret c') IH Ho) as [(Hd&Hsto&Hsd&Hst) _]. destruct IH as [_ Hi Hs].
    split; [done|rewrite Hst; by apply ints_reread|]. rewrite Hsto, Hsd, Hst. simpl.
    destruct Hs as [(st0&E&Hi0&Hn&HT)|[E Hz]].
    + left. exists st0. split_and!; [done..|]. by rewrite reread_twice by apply Hi.
    + right. split; [done|]. rewrite Hz. simpl. by rewrite reread_empty.
Qed.

(** C19: what is in memory is what is stored.  Take any catalog a program can
    hold: opened on an empty store, after any calls, failed ones included, and
    after reopenings, with any bytes in the names and any value of the id
    counter.  Opening its store again gives the same counter and the same tables
    with every byte that is no UTF-8 replaced by U+FFFD (and of tables whose
    names become equal only the last); when all its strings are valid UTF-8 it
    gives exactly the same catalog; and it is such a catalog from then on, so a
    further reopening changes nothing.  It fails only when the store fails to
    load, and then the store is unchanged. *)
Theorem reopen_same d c w r :
  made d c → openWith d (store_ c) = (w, r) →
  match r with
  | Ret c' =>
      dir c' = dir c ∧ NextID (state_ c') = NextID (state_ c) ∧
      Tables (state_ c') = reread (Tables (state_ c)) ∧ json_ok (state_ c') ∧
      (json_ok (state_ c) → state_ c' = state_ c ∧ ∀ name, GetTable name c' = GetTable name c)
  | Fail _ => stored w = stored (store_ c)
  | Panic => False
  end ∧ (store_healthy (store_ c) → is_ret r = true).
Proof.
  intros Hm%made_in_step Ho. destruct (openWith_in_step d c w r Hm Ho) as [Hr Hh]. split; [|done].
  destruct Hm as [Hd Hi _]. destruct r as [c'|e|]; [|done|done]. destruct Hr as (Hd'&_&_&Hst).
  split_and!; [congruence|by rewrite Hst|by rewrite Hst| |].
  - rewrite Hst. split; [by apply in_range_true, Hi|]. apply reread_json, Hi.
  - intros [_ Hj]. assert (state_ c' = state_ c) as E by (rewrite Hst, reread_id by exact Hj; by destruct (state_ c)).
    split; [done|]. intros name. unfold GetTable. by rewrite E.
Qed.
End reopen.

(** A table named by the byte 0xFF, an index on it, and a refused call. *)
Definition ex_made : Catalog fileStore :=
  run_call (CIndex "none" "i" 7)
    (run_call (CIndex (String (chr 255) "") "by_id" 0) (run_call (CTable (String (chr 255) "") ex_schema) ex_cat0)).

Lemma ex_made_made : made "db" ex_made.
Proof.
  repeat apply made_call; [by apply (made_new "db" ex_store ex_store)|..].
  - repeat constructor; vm_compute; discriminate.
  - vm_compute. split; discriminate.
  - vm_compute. split; discriminate.
Qed.

Lemma reopen_same_witness :
  match (openWith "db" (store_ ex_made)).2 with
  | Ret c' => Tables (state_ c') = reread (Tables (state_ ex_made)) ∧
              GetTable fffd c' = Some (Table fffd ex_schema "rel_0.db" [Index "by_id" 0 "rel_1.db"])
  | _ => False
  end.
Proof.
  destruct (reopen_same "db" ex_made (openWith "db" (store_ ex_made)).1 (openWith "db" (store_ ex_made)).2
    ex_made_made (surjective_pairing _)) as [Hr Hh].
  specialize (Hh ltac:(vm_compute; reflexivity)). destruct (openWith "db" (store_ ex_made)).2 as [c'|e|]; [|done|done].
  destruct Hr as (_&_&Hr&_). split; [exact Hr|]. unfold GetTable. rewrite Hr. vm_compute. reflexivity.
Defined.
End CatalogReopen.
