(* ===== verification/Truncation.v ===== *)
(** * A document cut short is refused (encoding/json as the catalog uses it)

    The catalog's file holds one JSON object.  If only its first bytes are there,
    as after a write that did not finish, [json.Unmarshal] must not take them for
    a catalog with fewer tables.  The reader never looks behind the closing
    bracket, so what follows a value does not change how it is read
    ([parse_value_app]); hence no proper prefix of an object is an object. *)

From Stdlib Require Import Ascii.
From S2P Require Import Prelude Bytes PageLayout Disk Record Utf8 JSON Catalog CatalogJSON.

Module Truncation.
Import Utf8 JSON Record Catalog CatalogJSON.
Local Notation "a ≟ b" := (Ascii.eqb a b) (at level 70).

(** ** Bytes and symbols *)

Lemma lead_follows b k lo hi a : lead b = Some (k, lo, hi) → code a < 128 → follows lo hi a = false.
Proof.
  intros El Ha. apply not_true_iff_false. unfold follows. rewrite in_range_true.
  unfold lead in El. repeat case_match; simplify_eq; lia.
Qed.

(** An ASCII character is a symbol of its own wherever it stands. *)
Lemma symbols_cut q a t : code a < 128 → symbols (q +:+ String a t) = symbols q ++ Chr a :: symbols t.
Proof.
  intros Ha. assert (follows 128 191 a = false) as Hf.
  { apply not_true_iff_false. unfold follows. rewrite in_range_true. lia. }
  induction q as [|b q Hb E IH|m q Hm E IH|b q E IH] using symbols_ind.
  - by apply symbols_cons.
  - rewrite E. change (String b q +:+ String a t) with (String b (q +:+ String a t)). by rewrite symbols_cons, IH.
  - rewrite E, string_app_assoc, Hm, IH. done.
  - rewrite E. cbn [app]. rewrite <-IH. change (String b q +:+ String a t) with (String b (q +:+ String a t)).
    cbn [symbols] in *. destruct (code b <? 128) eqn:Eb; [discriminate E|].
    destruct (lead b) as [[[k lo] hi]|] eqn:El; [|reflexivity]. pose proof (lead_follows _ _ _ _ a El Ha) as Hl.
    destruct k as [|[|[|[|k]]]]; try reflexivity.
    + destruct q as [|c q]; simpl; [by rewrite Hl|]. by destruct (follows lo hi c).
    + destruct q as [|c [|d q]]; simpl.
      * destruct t; [done|]. by rewrite Hl.
      * by rewrite Hf, andb_false_r.
      * by destruct (follows lo hi c && follows 128 191 d).
    + destruct q as [|c [|d [|e q]]]; simpl.
      * destruct t as [|? [|? ?]]; [done|done|]. by rewrite Hl.
      * destruct t as [|? ?]; [done|]. by rewrite Hf, andb_false_r.
      * by rewrite Hf, andb_false_r.
      * by destruct (follows lo hi c && follows 128 191 d && follows 128 191 e).
Qed.

Lemma symbols_nil s : symbols s = [] → s = "".
Proof. induction s as [|a s Ha E IH|m s Hm E IH|a s E IH] using symbols_ind; [done|by rewrite E..]. Qed.

(** A text whose last symbol is ASCII ends with that byte. *)
Lemma symbols_last p l a : symbols p = l ++ [Chr a] → code a < 128 ∧ ∃ q, p = q +:+ String a "".
Proof.
  revert l. induction p as [|b p Hb E IH|m p Hm E IH|b p E IH] using symbols_ind; intros l H.
  - by destruct l.
  - rewrite E in H. destruct l as [|y l]; simplify_eq/=; [|destruct (IH l) as (?&q&->); [done|]; split; [done|by exists (String b q)]].
    split; [done|]. exists "". by rewrite (symbols_nil p).
  - rewrite E in H. destruct l as [|y l]; simplify_eq/=. destruct (IH l) as (?&q&->); [done|]. split; [done|].
    exists (m +:+ q). by rewrite string_app_assoc.
  - rewrite E in H. destruct l as [|y l]; simplify_eq/=. destruct (IH l) as (?&q&->); [done|]. split; [done|by exists (String b q)].
Qed.

(** ** What follows a token does not change it *)

Lemma skip_ws_app l y r x : skip_ws l = y :: r → skip_ws (l ++ x) = y :: r ++ x.
Proof.
  induction l as [|[a|m|] l IH]; simpl; try (intros [= <- <-]; done).
  destruct (is_ws a); [done|]. by intros [= <- <-].
Qed.

(** After the escape of a surrogate. *)
Definition surrogate_rest (r : Z) (l2 : list sym) : option (string * list sym) :=
  match l2 with
  | Chr b :: Chr u :: Chr k1 :: Chr k2 :: Chr k3 :: Chr k4 :: l3 =>
      if (b ≟ BSL) && (u ≟ "u") then
        match hex4 k1 k2 k3 k4 with
        | Some r2 =>
            match decodePair r r2 with
            | Some rr => before (encodeRune rr) (unquote l3)
            | None => before fffd (unquote l2)
            end
        | None => None
        end
      else before fffd (unquote l2)
  | _ => before fffd (unquote l2)
  end.

Lemma surrogate_rest_other r l2 :
  (∀ b u l, l2 = Chr b :: Chr u :: l → (b ≟ BSL) && (u ≟ "u") = false) →
  surrogate_rest r l2 = before fffd (unquote l2).
Proof.
  intros H. destruct l2 as [|[b|?|] [|[u|?|] [|[k1|?|] [|[k2|?|] [|[k3|?|] [|[k4|?|] l3]]]]]]; try reflexivity.
  unfold surrogate_rest. by rewrite (H b u _ eq_refl).
Qed.

(** A string literal ends with its quote, and nothing behind that matters. *)
Definition ends_at_quote (l : list sym) : Prop :=
  ∀ s r, unquote l = Some (s, r) → (∃ pre, l = pre ++ Chr DQ :: r) ∧ ∀ x, unquote (l ++ x) = Some (s, r ++ x).

Lemma before_some t o s r : before t o = Some (s, r) → ∃ s', o = Some (s', r) ∧ s = t +:+ s'.
Proof. destruct o as [[s' r']|]; [|done]. intros [= <- <-]. eauto. Qed.

Lemma before_ends pre t l s r :
  ends_at_quote l → before t (unquote l) = Some (s, r) →
  (∃ pre', pre ++ l = pre' ++ Chr DQ :: r) ∧ ∀ x, before t (unquote (l ++ x)) = Some (s, r ++ x).
Proof.
  intros H (s'&E&->)%before_some. destruct (H _ _ E) as [[q ->] Hx]. split.
  - exists (pre ++ q). by rewrite app_assoc.
  - intros x. by rewrite Hx.
Qed.

Lemma surrogate_ends pre r l2 s rest :
  (∀ l', (length l' ≤ length l2)%nat → ends_at_quote l') → surrogate_rest r l2 = Some (s, rest) →
  (∃ pre', pre ++ l2 = pre' ++ Chr DQ :: rest) ∧ ∀ x, surrogate_rest r (l2 ++ x) = Some (s, rest ++ x).
Proof.
  intros IH H.
  assert (before fffd (unquote l2) = Some (s, rest) →
    (∀ b u l x, l2 ++ x = Chr b :: Chr u :: l → (b ≟ BSL) && (u ≟ "u") = false) →
    (∃ pre', pre ++ l2 = pre' ++ Chr DQ :: rest) ∧ ∀ x, surrogate_rest r (l2 ++ x) = Some (s, rest ++ x)) as Hother.
  { intros E Hn. destruct (before_ends pre _ _ _ _ (IH l2 ltac:(lia)) E) as [Hp Hx]. split; [done|].
    intros x. rewrite surrogate_rest_other; [apply Hx|]. intros b u l. apply Hn. }
  destruct l2 as [|[b|?|] l2]; [done| |apply Hother; [exact H|done]..].
  destruct (b ≟ BSL) eqn:Eb.
  2:{ apply Hother; [|intros b' u l x [= <- _]; by rewrite Eb]. rewrite <-H. symmetry. apply surrogate_rest_other.
      intros b' u l [= <- _]. by rewrite Eb. }
  destruct l2 as [|[u|?|] l2].
  { apply Ascii.eqb_eq in Eb as ->. done. }
  2-3: by apply Hother; [exact H|intros b' u' l x [= _ ?]].
  destruct (u ≟ "u") eqn:Eu.
  2:{ apply Hother; [|intros b' u' l x [= <- <- _]; by rewrite Eb, Eu]. rewrite <-H. symmetry. apply surrogate_rest_other.
      intros b' u' l [= <- <- _]. by rewrite Eb, Eu. }
  apply Ascii.eqb_eq in Eb as ->. apply Ascii.eqb_eq in Eu as ->.
  destruct l2 as [|[k1|?|] [|[k2|?|] [|[k3|?|] [|[k4|?|] l3]]]]; try discriminate H.
  unfold surrogate_rest in *. cbn [app]. change (BSL ≟ BSL) with true in *. change ("u" ≟ "u") with true in *. cbn [andb] in *.
  destruct (hex4 k1 k2 k3 k4) as [r2|]; [|done]. destruct (decodePair r r2) as [rr|].
  - destruct (before_ends (pre ++ [Chr BSL; Chr "u"; Chr k1; Chr k2; Chr k3; Chr k4]) _ _ _ _ (IH l3 ltac:(simpl; lia)) H) as [Hp Hx].
    split; [|done]. by rewrite <-app_assoc in Hp.
  - exact (before_ends pre _ (Chr BSL :: Chr "u" :: Chr k1 :: Chr k2 :: Chr k3 :: Chr k4 :: l3) _ _ (IH _ (le_n _)) H).
Qed.

Lemma unquote_ends l : ends_at_quote l.
Proof.
  remember (length l) as n eqn:Hn. revert l Hn. induction n as [n IH] using lt_wf_ind. intros l ->.
  assert (∀ l', (length l' < length l)%nat → ends_at_quote l') as IH' by (intros l' Hl; by eapply IH). clear IH.
  intros s r H. destruct l as [|[a|m|] l]; [done|..].
  2:{ exact (before_ends [Multi m] _ _ _ _ (IH' l ltac:(simpl; lia)) H). }
  2:{ exact (before_ends [Bad] _ _ _ _ (IH' l ltac:(simpl; lia)) H). }
  cbn [unquote app] in *. destruct (a ≟ DQ) eqn:Ea.
  { apply Ascii.eqb_eq in Ea as ->. injection H as <- <-. split; [by exists []|done]. }
  destruct (negb (a ≟ BSL)).
  { destruct (code a <? 32); [done|]. exact (before_ends [Chr a] _ _ _ _ (IH' l ltac:(simpl; lia)) H). }
  destruct l as [|[e|?|] l1]; try done. cbn [app] in *. destruct (e ≟ "u").
  2:{ destruct (simple_escape e); [|done]. exact (before_ends [Chr a; Chr e] _ _ _ _ (IH' l1 ltac:(simpl; lia)) H). }
  destruct l1 as [|[h1|?|] [|[h2|?|] [|[h3|?|] [|[h4|?|] l2]]]]; try done. cbn [app] in *.
  destruct (hex4 h1 h2 h3 h4) as [x4|]; [|done]. destruct (negb (surrogate x4)).
  { exact (before_ends [Chr a; Chr e; Chr h1; Chr h2; Chr h3; Chr h4] _ _ _ _ (IH' l2 ltac:(simpl; lia)) H). }
  apply (surrogate_ends [Chr a; Chr e; Chr h1; Chr h2; Chr h3; Chr h4] x4 l2 s r); [|exact H].
  intros l' Hl. apply IH'. simpl. lia.
Qed.
(** A number goes on as long as it can; with something left behind it, it ends there. *)
Lemma digits_app l x : (digits l).2 ≠ [] → digits (l ++ x) = ((digits l).1, (digits l).2 ++ x).
Proof.
  induction l as [|[a|m|] l IH]; simpl; try done. destruct (is_digit a); [|done].
  destruct (digits l) as [t r]. simpl in *. intros Hr. by rewrite IH.
Qed.

Lemma some_digits_app w l t r x :
  some_digits w l = Some (t, r) → r ≠ [] → some_digits w (l ++ x) = Some (t, r ++ x).
Proof.
  unfold some_digits. intros H Hr. pose proof (digits_app l x) as Hd. destruct (digits l) as [[|a u] r0]; [done|].
  injection H as <- <-. simpl in Hd. by rewrite Hd.
Qed.

Lemma int_part_app l t r x : int_part l = Some (t, r) → r ≠ [] → int_part (l ++ x) = Some (t, r ++ x).
Proof.
  destruct l as [|[a|m|] l]; try done. simpl. destruct (a ≟ "0"); [by intros [= <- <-]|].
  destruct (is_digit a); [|done]. pose proof (digits_app l x) as Hd. destruct (digits l) as [u r0]. simpl in Hd.
  intros [= <- <-] Hr. by rewrite Hd.
Qed.

Lemma frac_part_app l t r x : frac_part l = Some (t, r) → r ≠ [] → frac_part (l ++ x) = Some (t, r ++ x).
Proof.
  destruct l as [|[a|m|] l]; simpl; try (by intros [= <- <-]). destruct (a ≟ "."); [|by intros [= <- <-]].
  apply some_digits_app.
Qed.

Lemma exp_part_app l t r x : exp_part l = Some (t, r) → r ≠ [] → exp_part (l ++ x) = Some (t, r ++ x).
Proof.
  destruct l as [|[e|m|] l]; simpl; try (by intros [= <- <-]).
  destruct ((e ≟ "e") || (e ≟ "E")); [|by intros [= <- <-]]. destruct l as [|[a|m|] l]; try done. simpl.
  destruct ((a ≟ "+") || (a ≟ "-")); [apply some_digits_app|apply (some_digits_app _ (Chr a :: l))].
Qed.

Lemma suffix_left (r l : list sym) : r `suffix_of` l → r ≠ [] → l ≠ [].
Proof. intros [k ->] H. by destruct k. Qed.

Lemma number_app l t r x : number l = Some (t, r) → r ≠ [] → number (l ++ x) = Some (t, r ++ x).
Proof.
  assert (∀ l t, unsigned l = Some (t, r) → r ≠ [] → unsigned (l ++ x) = Some (t, r ++ x)) as Hu.
  { intros l' t'. unfold unsigned. destruct (int_part l') as [[i l1]|] eqn:E1; [|done].
    destruct (frac_part l1) as [[f l2]|] eqn:E2; [|done]. destruct (exp_part l2) as [[e l3]|] eqn:E3; [|done].
    intros [= <- <-] Hr. pose proof (suffix_left _ _ (exp_part_suffix _ _ _ E3) Hr) as H2.
    pose proof (suffix_left _ _ (frac_part_suffix _ _ _ E2) H2) as H1.
    by rewrite (int_part_app _ _ _ _ E1 H1), (frac_part_app _ _ _ _ E2 H2), (exp_part_app _ _ _ _ E3 Hr). }
  unfold number. destruct l as [|[a|m|] l]; try done. cbn [app]. destruct (a ≟ "-"); [|apply (Hu (Chr a :: l))].
  intros (u&E&->)%before_some Hr. by rewrite (Hu _ _ E Hr).
Qed.

Lemma literal_app w l r x : literal w l = Some r → literal w (l ++ x) = Some (r ++ x).
Proof.
  revert l. induction w as [|a w IH]; intros l; [by intros [= <-]|].
  destruct l as [|[b|m|] l]; try done. simpl. destruct (a ≟ b); [apply IH|done].
Qed.

(** ** What follows a value does not change it *)

(** The value ends where it ends: a number has to be told where. *)
Definition told (v : json) (r : list sym) : Prop := match v with JNum _ => r ≠ [] | _ => True end.
Definition stays (p : list sym → option (json * list sym)) : Prop :=
  ∀ l v r, p l = Some (v, r) → r `suffix_of` l ∧ ∀ x, told v r → p (l ++ x) = Some (v, r ++ x).

Lemma told_more v y r : told v (y :: r).
Proof. by destruct v. Qed.
Lemma skip_ws_more l y r : skip_ws l = y :: r → l ≠ [].
Proof. by destruct l. Qed.
Lemma told_ws v l y r : skip_ws l = y :: r → told v l.
Proof. intros H%skip_ws_more. by destruct l, v. Qed.

Lemma suffix_ws (l r l' : list sym) y : skip_ws l = y :: r → l `suffix_of` l' → r `suffix_of` l'.
Proof.
  intros E H. etrans; [|exact H]. etrans; [|apply skip_ws_suffix]. rewrite E. by apply suffix_cons_r.
Qed.

Section brackets.
Context (p : list sym → option (json * list sym)) (Hp : stays p).

Lemma elements_stays m : ∀ l vs r, elements p m l = Some (vs, r) →
  r `suffix_of` l ∧ ∀ x m', (m ≤ m')%nat → elements p m' (l ++ x) = Some (vs, r ++ x).
Proof.
  induction m as [|m IH]; intros l vs r H; [done|]. cbn [elements] in H.
  destruct (p l) as [[v l1]|] eqn:Ep; [|done]. destruct (Hp _ _ _ Ep) as [S1 Hx].
  destruct (skip_ws l1) as [|[a|?|] l2] eqn:E1; try done. pose proof (suffix_ws _ _ _ _ E1 S1) as S2.
  assert (∀ x m', elements p (S m') (l ++ x) =
    if a ≟ "," then match elements p m' (l2 ++ x) with Some (vs, r) => Some (v :: vs, r) | None => None end
    else if a ≟ "]" then Some ([v], l2 ++ x) else None) as Hstep.
  { intros x m'. cbn [elements]. by rewrite (Hx x (told_ws _ _ _ _ E1)), (skip_ws_app _ _ _ _ E1). }
  destruct (a ≟ ",").
  - destruct (elements p m l2) as [[vs' r']|] eqn:E2; [|done]. injection H as <- <-. destruct (IH _ _ _ E2) as [S3 IHx].
    split; [by etrans|]. intros x [|m'] Hm; [lia|]. by rewrite Hstep, IHx by lia.
  - destruct (a ≟ "]"); [|done]. injection H as <- <-. split; [done|]. intros x [|m'] Hm; [lia|]. apply Hstep.
Qed.

Lemma members_stays m : ∀ l vs r, members p m l = Some (vs, r) →
  (∃ pre, l = pre ++ Chr "}" :: r) ∧ ∀ x m', (m ≤ m')%nat → members p m' (l ++ x) = Some (vs, r ++ x).
Proof.
  induction m as [|m IH]; intros l vs r H; [done|]. cbn [members] in H.
  destruct (skip_ws l) as [|[q|?|] l0] eqn:E0; try done. pose proof (suffix_ws _ _ l _ E0 ltac:(done)) as S0.
  destruct (negb (q ≟ DQ)) eqn:Eq; [done|]. destruct (unquote l0) as [[key l1]|] eqn:Eu; [|done].
  destruct (unquote_ends _ _ _ Eu) as [[pre ->] Hu]. assert (l1 `suffix_of` l) as S1.
  { etrans; [|exact S0]. exists (pre ++ [Chr DQ]). by rewrite <-app_assoc. }
  destruct (skip_ws l1) as [|[c|?|] l2] eqn:E1; try done. pose proof (suffix_ws _ _ _ _ E1 S1) as S2.
  destruct (negb (c ≟ ":")) eqn:Ec; [done|]. destruct (p l2) as [[v l3]|] eqn:Ep; [|done].
  destruct (Hp _ _ _ Ep) as [S3 Hx]. destruct (skip_ws l3) as [|[a|?|] l4] eqn:E3; try done.
  pose proof (suffix_ws _ _ _ _ E3 ltac:(by etrans)) as S4.
  assert (∀ x m', members p (S m') (l ++ x) =
    if a ≟ "," then match members p m' (l4 ++ x) with Some (vs, r) => Some ((key, v) :: vs, r) | None => None end
    else if a ≟ "}" then Some ([(key, v)], l4 ++ x) else None) as Hstep.
  { intros x m'. cbn [members]. rewrite (skip_ws_app _ _ _ _ E0), Eq, Hu, (skip_ws_app _ _ _ _ E1), Ec.
    by rewrite (Hx x (told_ws _ _ _ _ E3)), (skip_ws_app _ _ _ _ E3). }
  destruct (a ≟ ",").
  - destruct (members p m l4) as [[vs' r']|] eqn:E4; [|done]. injection H as <- <-.
    destruct (IH _ _ _ E4) as [[k ->] IHx]. destruct S4 as [k' ->].
    split; [exists (k' ++ k); by rewrite <-app_assoc|]. intros x [|m'] Hm; [lia|]. by rewrite Hstep, IHx by lia.
  - destruct (a ≟ "}") eqn:Ea; [|done]. injection H as <- <-. apply Ascii.eqb_eq in Ea as ->. split.
    + assert (Chr "}" :: l4 `suffix_of` l) as [k Hk]; [|by exists k].
      etrans; [|exact S2]. etrans; [|exact S3]. rewrite <-E3. apply skip_ws_suffix.
    + intros x [|m'] Hm; [lia|]. apply Hstep.
Qed.
End brackets.

(** The values that are no brackets. *)
Lemma string_stays l s r : unquote l = Some (s, r) → r `suffix_of` l ∧ ∀ x, unquote (l ++ x) = Some (s, r ++ x).
Proof.
  intros H. destruct (unquote_ends _ _ _ H) as [[pre ->] Hx]. split; [|done].
  exists (pre ++ [Chr DQ]). by rewrite <-app_assoc.
Qed.

Lemma scalar_stays a l v r :
  (if a ≟ "t" then match literal "rue" l with Some r => Some (JBool true, r) | None => None end
   else if a ≟ "f" then match literal "alse" l with Some r => Some (JBool false, r) | None => None end
   else if a ≟ "n" then match literal "ull" l with Some r => Some (JNull, r) | None => None end
   else match number (Chr a :: l) with Some (lit, r) => Some (JNum lit, r) | None => None end) = Some (v, r) →
  r `suffix_of` Chr a :: l ∧ ∀ x, told v r →
  (if a ≟ "t" then match literal "rue" (l ++ x) with Some r => Some (JBool true, r) | None => None end
   else if a ≟ "f" then match literal "alse" (l ++ x) with Some r => Some (JBool false, r) | None => None end
   else if a ≟ "n" then match literal "ull" (l ++ x) with Some r => Some (JNull, r) | None => None end
   else match number (Chr a :: l ++ x) with Some (lit, r) => Some (JNum lit, r) | None => None end) = Some (v, r ++ x).
Proof.
  assert (∀ w v', match literal w l with Some r => Some (v', r) | None => None end = Some (v, r) →
    r `suffix_of` Chr a :: l ∧
    ∀ x, match literal w (l ++ x) with Some r => Some (v', r) | None => None end = Some (v, r ++ x)) as Hw.
  { intros w v' H. destruct (literal w l) as [r'|] eqn:E; [|done]. injection H as <- <-.
    split; [by apply suffix_cons_r, (literal_suffix w)|]. intros x. by rewrite (literal_app _ _ _ _ E). }
  destruct (a ≟ "t"); [intros [? H]%Hw; split; [done|by intros x _]|].
  destruct (a ≟ "f"); [intros [? H]%Hw; split; [done|by intros x _]|].
  destruct (a ≟ "n"); [intros [? H]%Hw; split; [done|by intros x _]|].
  destruct (number (Chr a :: l)) as [[lit r']|] eqn:E; [|done]. intros [= <- <-].
  split; [by eapply number_suffix|]. intros x Hr. pose proof (number_app _ _ _ x E Hr) as En. cbn [app] in En. by rewrite En.
Qed.

Lemma parse_value_stays d : stays (parse_value d).
Proof.
  induction d as [|d IH]; intros l v r H; cbn [parse_value] in *;
    (destruct (skip_ws l) as [|[a|?|] l1] eqn:E0; try done);
    (assert (Chr a :: l1 `suffix_of` l) as S0 by (rewrite <-E0; apply skip_ws_suffix));
    (assert (l1 `suffix_of` l) as S1 by (etrans; [|exact S0]; by apply suffix_cons_r)).
  all: assert (∀ x, skip_ws (l ++ x) = Chr a :: l1 ++ x) as Ex by (intros x; by apply skip_ws_app).
  all: destruct (a ≟ DQ) eqn:Edq;
    [destruct (unquote l1) as [[s r']|] eqn:Eu; [|done]; injection H as <- <-;
     destruct (string_stays _ _ _ Eu) as [Hs Hu]; split; [by etrans|]; intros x _; by rewrite Ex, Edq, Hu|].
  all: destruct (a ≟ "[") eqn:Ea; [try done|destruct (a ≟ "{") eqn:Eo; [try done|]].
  all: try (destruct (scalar_stays _ _ _ _ H) as [Hs Hx]; split; [by etrans|]; intros x Ht; rewrite Ex, Edq, Ea, Eo; by apply Hx).
  all: destruct (skip_ws l1) as [|[b|?|] l2] eqn:E1; try done.
  all: pose proof (suffix_ws _ _ _ _ E1 S1) as S2.
  - destruct (b ≟ "]") eqn:Eb.
    + injection H as <- <-. split; [done|]. intros x _. by rewrite Ex, Edq, Ea, (skip_ws_app _ _ _ _ E1), Eb.
    + destruct (elements (parse_value d) (length l1) l1) as [[vs r']|] eqn:Ee; [|done]. injection H as <- <-.
      destruct (elements_stays _ IH _ _ _ _ Ee) as [Hs Hx]. split; [by etrans|]. intros x _.
      by rewrite Ex, Edq, Ea, (skip_ws_app _ _ _ _ E1), Eb, Hx by (rewrite !length_app; lia).
  - destruct (b ≟ "}") eqn:Eb.
    + injection H as <- <-. split; [done|]. intros x _. by rewrite Ex, Edq, Ea, Eo, (skip_ws_app _ _ _ _ E1), Eb.
    + destruct (members (parse_value d) (length l1) l1) as [[vs r']|] eqn:Ee; [|done]. injection H as <- <-.
      destruct (members_stays _ IH _ _ _ _ Ee) as [[pre ->] Hx]. split.
      * etrans; [|exact S1]. exists (pre ++ [Chr "}"]). by rewrite <-app_assoc.
      * intros x _. by rewrite Ex, Edq, Ea, Eo, (skip_ws_app _ _ _ _ E1), Eb, Hx by (rewrite !length_app; lia).
Qed.

(** An object ends with its bracket. *)
Lemma object_ends d l v r :
  parse_value d (Chr "{" :: l) = Some (v, r) → (∃ pre, Chr "{" :: l = pre ++ Chr "}" :: r) ∧ told v r.
Proof.
  intros H. destruct d as [|d]; [done|]. cbn in H.
  destruct (skip_ws l) as [|[b|?|] l1] eqn:E; try done. destruct (b ≟ "}") eqn:Eb.
  - injection H as <- <-. apply Ascii.eqb_eq in Eb as ->. split; [|done].
    destruct (skip_ws_suffix l) as [k Hk]. rewrite E in Hk. exists (Chr "{" :: k). by rewrite Hk.
  - destruct (members (parse_value d) (length l) l) as [[vs r']|] eqn:Em; [|done]. injection H as <- <-.
    destruct (members_stays _ (parse_value_stays d) _ _ _ _ Em) as [[pre ->] _].
    split; [|done]. by exists (Chr "{" :: pre).
Qed.

(** White space to the end. *)
Lemma skip_ws_all l : skip_ws l = [] → l = [] ∨ ∃ k a, l = k ++ [Chr a].
Proof.
  induction l as [|[a|m|] l IH]; simpl; try done; [by left|]. destruct (is_ws a); [|done].
  intros [->|(k&b&->)]%IH; right; [by exists [], a|by exists (Chr a :: k), b].
Qed.

(** Nothing can follow an object that is read to the end of a text. *)
Lemma object_alone p t v v' :
  parse (String "{" p) = Some v → parse_value maxNestingDepth (symbols (String "{" p +:+ t)) = Some (v', []) → t = "".
Proof.
  unfold parse. generalize maxNestingDepth as d. intros d Hv Hv'.
  destruct (parse_value d (symbols (String "{" p))) as [[u l]|] eqn:E; [|done].
  destruct (skip_ws l) eqn:El; [|done].
  assert (symbols (String "{" p) = Chr "{" :: symbols p) as Es by (by apply symbols_cons).
  rewrite Es in E. destruct (object_ends _ _ _ _ E) as [[pre Hpre] Ht]. rewrite <-Es in Hpre, E.
  assert (∃ k a, symbols (String "{" p) = k ++ [Chr a]) as (k&a&Hk).
  { rewrite Hpre. destruct (skip_ws_all _ El) as [->|(k&a&->)]; [by exists pre, "}"%char|].
    exists (pre ++ Chr "}" :: k), a. by rewrite <-app_assoc. }
  destruct (symbols_last _ _ _ Hk) as (Ha&q&Hq).
  assert (symbols (String "{" p +:+ t) = symbols (String "{" p) ++ symbols t) as Happ.
  { rewrite Hq, string_app_assoc. change (String a "" +:+ t) with (String a t). rewrite !symbols_cut by done.
    by rewrite <-app_assoc. }
  destruct (parse_value_stays _ _ _ _ E) as [_ Hx]. rewrite Happ, Hx in Hv' by done. injection Hv' as _ Hn.
  apply app_eq_nil in Hn as [_ Hn]. by apply symbols_nil.
Qed.

(** ** The catalog's document *)

Lemma MarshalIndent_open st : ∃ s, print 0 (enc_state st) = String "{" s.
Proof. by eexists. Qed.

(** No proper prefix of a document is one. *)
Lemma prefix_refused st data rest :
  data ++ rest = MarshalIndent st → rest ≠ [] → Unmarshal data = None.
Proof.
  intros H Hne. unfold Unmarshal. destruct (parse (String.string_of_list_byte data)) as [v|] eqn:E; [exfalso|done].
  set (p := String.string_of_list_byte data) in *. set (t := String.string_of_list_byte rest).
  assert (p +:+ t = print 0 (enc_state st)) as Hpt.
  { unfold MarshalIndent in H. rewrite <-(String.string_of_list_byte_of_string (print 0 (enc_state st))), <-H.
    subst p t. clear. induction data as [|b data IH]; [done|]. exact (f_equal (String _) IH). }
  destruct p as [|a p]; [done|]. destruct (MarshalIndent_open st) as [s Hs].
  assert (a = "{"%char) as -> by (rewrite Hs in Hpt; by injection Hpt).
  pose proof (parse_value_print maxNestingDepth 0 (enc_state st) [] (fits_state st) eq_refl) as Hfull.
  rewrite app_nil_r, <-Hpt in Hfull. pose proof (object_alone _ _ _ _ E Hfull) as Ht.
  apply Hne. subst t. by destruct rest.
Qed.

(** C21: a catalog file that was cut short is refused.  Whatever metadata was
    written, if the store holds only some first bytes of the document, none of
    them included, then opening the catalog returns an error and leaves the store
    alone; it never opens as a catalog that lacks tables. *)
Theorem truncated_refused {W} `{BlobStoreSpec W} d (w w' : W) r st data rest :
  data ++ rest = MarshalIndent st → rest ≠ [] → stored w = Some data → openWith d w = (w', r) →
  stored w' = Some data ∧ ∃ e, r = Fail e.
Proof.
  intros Hd Hne Hs Ho. unfold openWith in Ho. destruct (bs_load w) as [w1 rl] eqn:El.
  apply load_ok in El as (Hst&Hr&_). rewrite Hs in Hst, Hr.
  destruct rl as [o|e|]; [subst o|injection Ho as <- <-; eauto|done].
  rewrite codec_Unmarshal, (prefix_refused _ _ _ Hd Hne) in Ho. injection Ho as <- <-. eauto.
Qed.

(** The document of a table with an index, without its last byte. *)
Definition ex_cut : list byte := removelast (MarshalIndent (state_ ex_cat2)).
Definition ex_torn : fileStore := FileStore "db/catalog.json" (Fs {["db/catalog.json" := ex_cut]} []).

Lemma truncated_refused_witness : ∃ e, (openWith "db" ex_torn).2 = Fail e.
Proof.
  refine (proj2 (truncated_refused "db" ex_torn (openWith "db" ex_torn).1 (openWith "db" ex_torn).2
    (state_ ex_cat2) ex_cut [x7d] _ _ _ (surjective_pairing _))); [vm_compute; reflexivity|discriminate|vm_compute; reflexivity].
Defined.
End Truncation.
