(* ===== verification/Slices.v ===== *)
(** * Go slices of one element type

    A slice is a window on an array that other slices may share.  [read] is
    what a slice shows, [append] the builtin: it writes in place while the
    capacity lasts, so every slice on the same array sees the new cells, and
    moves to a fresh array otherwise.  How much capacity a fresh array has is
    left open by the language: [Growth] is that choice and [GrowthOk] what the
    language promises of it.  [copied] is the idiom [append([]T(nil), s...)]. *)

From S2P Require Import Prelude.

Module Slices.
Local Open Scope nat_scope.

Record slice := Slice { base : nat; off : nat; slen : nat; scap : nat }.
Definition nil_slice : slice := Slice 0 0 0 0.

(** The arrays of the program by number; a fresh one gets the next number. *)
Notation arrays A := (list (list A)).

(** The capacity of the array that [append] allocates, from the old capacity
    and the length needed. *)
Class Growth := growth : nat → nat → nat.
Class GrowthOk `{Growth} : Prop := growth_ok old needed : needed ≤ growth old needed.

(** The element types have a zero value, the content of unused capacity. *)
Class Zero (A : Type) := zero : A.

Section ops.
Context {A : Type} `{Zero A} `{Growth}.

Definition read (m : arrays A) (s : slice) : list A :=
  take (slen s) (drop (off s) (default [] (m !! base s))).

Definition append (m : arrays A) (s : slice) (xs : list A) : arrays A * slice :=
  if slen s + length xs <=? scap s then
    (alter (list_inserts (off s + slen s) xs) (base s) m,
     Slice (base s) (off s) (slen s + length xs) (scap s))
  else
    let l := read m s ++ xs in
    let c := growth (scap s) (length l) in
    (m ++ [l ++ replicate (c - length l) zero], Slice (length m) 0 (length l) c).

Definition copied (m : arrays A) (s : slice) : arrays A * slice := append m nil_slice (read m s).

(** [s[i] = x] through some slice on array [a]. *)
Definition poke (m : arrays A) (a i : nat) (x : A) : arrays A := alter <[i := x]> a m.
End ops.

(** The window lies in its array. *)
Definition valid {A} (m : arrays A) (s : slice) : Prop :=
  slen s ≤ scap s ∧ (scap s = 0 ∨ ∃ a, m !! base s = Some a ∧ off s + scap s ≤ length a).

(** The array a slice can read or write. *)
Definition footprint (s : slice) : gset nat := if scap s =? 0 then ∅ else {[base s]}.

(** [m'] has the arrays of [m], changed at most where [k] says. *)
Definition extends {A} (k : gset nat) (m m' : arrays A) : Prop :=
  length m ≤ length m' ∧ ∀ i, i < length m → i ∉ k → m' !! i = m !! i.

(** The arrays of [s] were allocated between [m] and [m']. *)
Definition fresh_in {A} (m m' : arrays A) (s : slice) : Prop :=
  ∀ i, i ∈ footprint s → length m ≤ i < length m'.

Section facts.
Context {A : Type}.
Implicit Types (m : arrays A) (s : slice) (k : gset nat).

#[global] Instance extends_refl k : Reflexive (@extends A k).
Proof. intros m. by split. Qed.
#[global] Instance extends_trans k : Transitive (@extends A k).
Proof.
  intros m1 m2 m3 [L1 E1] [L2 E2]. split; [lia|]. intros i Hi Hk.
  rewrite E2 by (lia || done). by apply E1.
Qed.

Lemma extends_weaken k k' m m' : k ⊆ k' → extends k m m' → extends k' m m'.
Proof. intros Hs [L E]. split; [done|]. intros i Hi Hk. apply E; set_solver. Qed.

Lemma extends_any k m m' : extends ∅ m m' → extends k m m'.
Proof. apply extends_weaken. set_solver. Qed.

Lemma footprint_elem s i : i ∈ footprint s ↔ scap s ≠ 0 ∧ i = base s.
Proof. unfold footprint. destruct (Nat.eqb_spec (scap s) 0); set_solver. Qed.

Lemma valid_base m s i : valid m s → i ∈ footprint s → i < length m.
Proof.
  intros [_ Hv] [Hc ->]%footprint_elem. destruct Hv as [?|(a&Ha&_)]; [done|].
  by eapply lookup_lt_Some.
Qed.

(** A slice whose array did not change shows the same elements. *)
Lemma read_same m m' s :
  slen s ≤ scap s → (∀ i, i ∈ footprint s → m' !! i = m !! i) → read m' s = read m s.
Proof.
  intros Hl E. unfold read. destruct (decide (scap s = 0)) as [Hz|Hz].
  - replace (slen s) with 0 by lia. by rewrite !take_0.
  - by rewrite E by (by apply footprint_elem).
Qed.

Lemma extends_slice k m m' s :
  extends k m m' → valid m s → footprint s ## k → valid m' s ∧ read m' s = read m s.
Proof.
  intros [L E] Hv Hd.
  assert (∀ i, i ∈ footprint s → m' !! i = m !! i) as Hs.
  { intros i Hi. apply E; [by eapply valid_base|set_solver]. }
  split; [|apply read_same; [apply Hv|done]]. destruct Hv as [Hl Hv]. split; [done|].
  destruct Hv as [?|(a&Ha&?)]; [by left|]. destruct (decide (scap s = 0)); [by left|].
  right. exists a. split; [|done]. rewrite Hs; [done|]. by apply footprint_elem.
Qed.

Lemma extends_kept k m m' s :
  extends k m m' → valid m s → footprint s ## k → valid m' s.
Proof. intros H1 H2 H3. apply (extends_slice k m m' s H1 H2 H3). Qed.

Lemma fresh_weaken m0 m m' m1 s :
  length m0 ≤ length m → length m' ≤ length m1 → fresh_in m m' s → fresh_in m0 m1 s.
Proof. intros ?? Hf i Hi%Hf. lia. Qed.

Lemma read_length m s : valid m s → length (read m s) = slen s.
Proof.
  intros [Hl Hv]. unfold read. rewrite length_take, length_drop.
  destruct Hv as [?|(a&->&?)]; simpl; lia.
Qed.

(** Cells written right behind a window extend it. *)
Lemma window_inserts o n (xs a : list A) :
  o + n + length xs ≤ length a →
  take (n + length xs) (drop o (list_inserts (o + n) xs a)) = take n (drop o a) ++ xs.
Proof.
  intros Hl. apply list_eq. intros i. rewrite lookup_take, lookup_drop.
  assert (length (take n (drop o a)) = n) as Hn by (rewrite length_take, length_drop; lia).
  case_decide as Hi; [|symmetry; apply lookup_ge_None_2; rewrite length_app; lia].
  destruct (decide (i < n)) as [Hin|Hin].
  - rewrite list_lookup_inserts_lt by lia. rewrite lookup_app_l by lia.
    by rewrite lookup_take_lt, lookup_drop by done.
  - rewrite list_lookup_inserts by lia. rewrite lookup_app_r, Hn by lia. f_equal. lia.
Qed.

Context `{Zero A} `{GrowthOk}.

(** [append] on a valid slice, in place or not: the result shows the old
    elements and the new ones; of the old arrays only the slice's own can
    change. *)
Lemma append_spec m s xs m' s' :
  valid m s → append m s xs = (m', s') →
  extends (footprint s) m m' ∧ valid m' s' ∧ read m' s' = read m s ++ xs ∧
  (∀ i, i ∈ footprint s' → i ∈ footprint s ∨ length m ≤ i < length m').
Proof.
  intros Hv H2. unfold append in H2. destruct (Nat.leb_spec (slen s + length xs) (scap s)) as [Hf|Hf].
  - injection H2 as <- <-. split_and!.
    + split; [by rewrite length_alter|]. intros i Hi Hk. rewrite list_lookup_alter.
      case_decide as Eb; [|done]. subst i.
      assert (scap s = 0) as Hz by (destruct (decide (scap s = 0)); [done|by destruct Hk; apply footprint_elem]).
      destruct xs as [|x xs]; [|simpl in Hf; lia].
      change (list_inserts (off s + slen s) []) with (@id (list A)). by destruct (m !! base s).
    + destruct Hv as [_ Hv]. split; simpl; [lia|]. destruct Hv as [?|(a&Ha&?)]; [by left|].
      right. exists (list_inserts (off s + slen s) xs a).
      rewrite list_lookup_alter_eq, Ha, length_inserts. done.
    + unfold read. simpl. destruct Hv as [Hl [Hz|(a&Ha&Hc)]].
      { assert (slen s = 0 ∧ xs = []) as [-> ->] by (destruct xs; simpl in *; split; [lia|done|lia|lia]).
        done. }
      rewrite list_lookup_alter_eq, Ha. simpl. apply window_inserts. lia.
    + intros i [Hz ->]%footprint_elem. simpl in *. left. by apply footprint_elem.
  - injection H2 as <- <-. set (l := read m s ++ xs). pose proof (growth_ok (scap s) (length l)) as Hg.
    split_and!.
    + split; [rewrite length_app; lia|]. intros i Hi _. by rewrite lookup_app_l.
    + split; simpl; [done|]. right. eexists. rewrite lookup_app_r, Nat.sub_diag by done. split; [done|].
      rewrite length_app, length_replicate. lia.
    + unfold read at 1. simpl. rewrite lookup_app_r, Nat.sub_diag by done. simpl.
      rewrite drop_0, take_app_le, take_ge by done. done.
    + intros i [_ ->]%footprint_elem. right. simpl. rewrite length_app. simpl. lia.
Qed.

(** A copy of a slice lives in a fresh array; every old array is as it was. *)
Lemma copied_spec m s m' s' :
  copied m s = (m', s') →
  extends ∅ m m' ∧ valid m' s' ∧ read m' s' = read m s ∧ fresh_in m m' s'.
Proof.
  intros Hc. apply append_spec in Hc as (He&Hv&Hr&Hf); [|split; [done|by left]].
  split_and!; [done..|]. intros i [Hi|Hi]%Hf; [|done]. by apply footprint_elem in Hi as [[] _].
Qed.

(** Growing a slice that was fresh leaves the arrays from before alone. *)
Lemma extends_own m m1 m2 s :
  extends ∅ m m1 → fresh_in m m1 s → extends (footprint s) m1 m2 → extends ∅ m m2.
Proof.
  intros [L1 E1] Hf [L2 E2]. split; [lia|]. intros i Hi Hn. rewrite E2; [by apply E1|lia|].
  intros Hin%Hf. lia.
Qed.

(** Assignments through the slices of [k] are a change within [k]. *)
Lemma extends_poke k m a i x : a ∈ k → extends k m (poke m a i x).
Proof.
  intros Ha. unfold poke. split; [by rewrite length_alter|]. intros j Hj Hk.
  apply list_lookup_alter_ne. by intros ->.
Qed.

Lemma extends_make k m l : extends k m (m ++ [l]).
Proof. split; [rewrite length_app; lia|]. intros i Hi _. by rewrite lookup_app_l. Qed.
End facts.
End Slices.
