(* ===== verification/CatalogSlices.v ===== *)
(** * The catalog with its slices (src/internal/catalog/catalog.go)

    [Catalog.v] treats metadata as values.  Here the column and index lists are
    what they are in the source, slices on arrays of a memory that the catalog
    and its callers share: a caller can keep the schema it passed and the
    metadata it got, and assign to their elements at any time.  The operations
    are those of the source with their copies ([clone], and the copy of the
    schema in [CreateTable]).  The theorem is that the sharing is invisible:
    every call does what the value model says, whatever callers do with the
    arrays they know, and no call changes an array a caller knows.  Each call
    holds the catalog's lock from beginning to end, so calls are atomic. *)

From S2P Require Import Prelude PageLayout Record Catalog CatalogJSON Slices.

Module CatalogSlices.
Import Record Catalog Slices.
Import CatalogJSON(ex_store).

#[global] Instance column_zero : Zero Column := Col "" 0 false.
#[global] Instance index_zero : Zero IndexMeta := Index "" 0 "".

(** The arrays of columns and of index metadata of the whole program. *)
Record memory := Mem { cols : arrays Column; ixs : arrays IndexMeta }.

(** [TableMeta]; [m_Columns] is its [Schema.Columns]. *)
Record meta := Meta { m_Name : string; m_Columns : slice; m_File : string; m_Indexes : slice }.

Definition deref (m : memory) (t : meta) : TableMeta :=
  Table (m_Name t) (MkSchema (read (cols m) (m_Columns t))) (m_File t) (read (ixs m) (m_Indexes t)).

(** The catalog in a memory: the fields of [Catalog] and of its [state]. *)
Record world (W : Type) := World {
  mem : memory; w_dir : string; w_store : W; w_NextID : Z; w_Tables : gmap string meta }.
Arguments World {W}.
Arguments mem {W}.
Arguments w_dir {W}.
Arguments w_store {W}.
Arguments w_NextID {W}.
Arguments w_Tables {W}.

(** What the catalog says, as a value. *)
Definition view {W} (w : world W) : Catalog W :=
  Cat (w_dir w) (w_store w) (State (w_NextID w) (deref (mem w) <$> w_Tables w)).

Section ops.
Context `{Growth} {W : Type} {BS : BlobStore W} {J : JSON}.

Definition clone (t : meta) (m : memory) : memory * meta :=
  let '(cs, c) := copied (cols m) (m_Columns t) in
  let '(xs, i) := copied (ixs m) (m_Indexes t) in
  (Mem cs xs, Meta (m_Name t) c (m_File t) i).

Definition set_mem (m : memory) (w : world W) : world W :=
  World m (w_dir w) (w_store w) (w_NextID w) (w_Tables w).
Definition set_tables (T : gmap string meta) (w : world W) : world W :=
  World (mem w) (w_dir w) (w_store w) (w_NextID w) T.
Definition set_id (id : Z) (w : world W) : world W :=
  World (mem w) (w_dir w) (w_store w) id (w_Tables w).

Definition persist : st (world W) unit := λ w,
  let '(s, r) := bs_save (MarshalIndent (state_ (view w))) (w_store w) in
  (World (mem w) (w_dir w) s (w_NextID w) (w_Tables w), res_wrap "catalog: save" r).

Definition CreateTable (name : string) (schema : slice) : st (world W) meta := λ w,
  if String.eqb name "" then (w, Fail ErrEmptyName)
  else if (slen schema =? 0)%nat then (w, Fail ErrNoColumns)
  else match w_Tables w !! name with
  | Some _ => (w, Fail (Wrapf "catalog" ErrTableExists))
  | None =>
      let id := w_NextID w in
      let '(cs, c) := copied (cols (mem w)) schema in
      let w := set_mem (Mem cs (ixs (mem w))) w in
      let tm := Meta name c (fileName id) nil_slice in
      let w := set_tables (<[name := tm]> (w_Tables w)) w in
      let w := set_id (u32 (id + 1)) w in
      match persist w with
      | (w, Fail err) =>
          let w := set_tables (delete name (w_Tables w)) w in
          let w := set_id id w in
          (w, Fail err)
      | (w, Panic) => (w, Panic)
      | (w, Ret _) => let '(m, t) := clone tm (mem w) in (set_mem m w, Ret t)
      end
  end.

Definition CreateIndex (table name : string) (column : Z) : st (world W) IndexMeta := λ w,
  if String.eqb name "" then (w, Fail ErrEmptyName)
  else match w_Tables w !! table with
  | None => (w, Fail (Wrapf "catalog" ErrTableNotFound))
  | Some tm =>
      if (column <? 0) || (Z.of_nat (slen (m_Columns tm)) <=? column)
      then (w, Fail (Wrapf "catalog: column" ErrBadColumn))
      else if existsb (λ ix, String.eqb (ix_Name ix) name) (read (ixs (mem w)) (m_Indexes tm))
      then (w, Fail (Wrapf "catalog: index" ErrIndexExists))
      else
        let id := w_NextID w in
        let im := Index name column (fileName id) in
        let '(m, updated) := clone tm (mem w) in
        let '(xs, i) := append (ixs m) (m_Indexes updated) [im] in
        let updated := Meta (m_Name updated) (m_Columns updated) (m_File updated) i in
        let w := set_mem (Mem (cols m) xs) w in
        let w := set_tables (<[table := updated]> (w_Tables w)) w in
        let w := set_id (u32 (id + 1)) w in
        match persist w with
        | (w, Fail err) =>
            let w := set_tables (<[table := tm]> (w_Tables w)) w in
            let w := set_id id w in
            (w, Fail err)
        | (w, Panic) => (w, Panic)
        | (w, Ret _) => (w, Ret im)
        end
  end.

Definition GetTable (name : string) (w : world W) : world W * option meta :=
  match w_Tables w !! name with
  | None => (w, None)
  | Some tm => let '(m, t) := clone tm (mem w) in (set_mem m w, Some t)
  end.

(** The loop of [ListTables] over the tables, in the order the map is walked. *)
Fixpoint clones (l : list meta) (m : memory) : memory * list meta :=
  match l with
  | [] => (m, [])
  | tm :: l => let '(m, t) := clone tm m in let '(m, out) := clones l m in (m, t :: out)
  end.

Definition meta_le (a b : meta) : Prop := String.leb (m_Name a) (m_Name b) = true.
#[global] Instance meta_le_dec a b : Decision (meta_le a b).
Proof. unfold meta_le. apply _. Defined.

Definition ListTables (order : list meta) (w : world W) : world W * list meta :=
  let '(m, out) := clones order (mem w) in (set_mem m w, merge_sort meta_le out).

(** [json.Unmarshal] appends the elements it decodes to nil slices. *)
Definition decode_table (tm : TableMeta) (m : memory) : memory * meta :=
  let '(cs, c) := append (cols m) nil_slice (Columns (tm_Schema tm)) in
  let '(xs, i) := append (ixs m) nil_slice (tm_Indexes tm) in
  (Mem cs xs, Meta (tm_Name tm) c (tm_File tm) i).
Fixpoint decode_tables (l : list (string * TableMeta)) (m : memory) : memory * gmap string meta :=
  match l with
  | [] => (m, ∅)
  | (k, tm) :: l =>
      let '(m, t) := decode_table tm m in
      let '(m, T) := decode_tables l m in (m, <[k := t]> T)
  end.

Definition openWith (d : string) (m : memory) : st W (world W) := λ w,
  match bs_load w with
  | (w, Fail err) => (w, Fail (Wrapf "catalog: load" err))
  | (w, Panic) => (w, Panic)
  | (w, Ret (Some data)) =>
      match Unmarshal data with
      | None => (w, Fail (Wrapf "catalog: parse" (Errorf "json")))
      | Some doc =>
          let '(m, T) := decode_tables (map_to_list (default ∅ (d_Tables doc))) m in
          (w, Ret (World m d w (d_NextID doc) T))
      end
  | (w, Ret None) => (w, Ret (World m d w 0 ∅))
  end.
End ops.

(** ** Fresh metadata and kept metadata *)

Definition meta_valid (m : memory) (t : meta) : Prop :=
  valid (cols m) (m_Columns t) ∧ valid (ixs m) (m_Indexes t).

(** The arrays callers can reach: of columns and of index metadata. *)
Record known := Known { kc : gset nat; ki : gset nat }.
Definition nobody : known := Known ∅ ∅.
Definition learn_slices (c i : slice) (k : known) : known :=
  Known (footprint c ∪ kc k) (footprint i ∪ ki k).
Definition learn (t : meta) : known → known := learn_slices (m_Columns t) (m_Indexes t).
Definition hidden (k : known) (t : meta) : Prop :=
  footprint (m_Columns t) ## kc k ∧ footprint (m_Indexes t) ## ki k.

Definition mem_extends (k : known) (m m' : memory) : Prop :=
  extends (kc k) (cols m) (cols m') ∧ extends (ki k) (ixs m) (ixs m').
Definition meta_fresh (m m' : memory) (t : meta) : Prop :=
  fresh_in (cols m) (cols m') (m_Columns t) ∧ fresh_in (ixs m) (ixs m') (m_Indexes t).

#[global] Instance mem_extends_refl k : Reflexive (mem_extends k).
Proof. by split. Qed.
#[global] Instance mem_extends_trans k : Transitive (mem_extends k).
Proof. intros m1 m2 m3 [] []. split; etrans; done. Qed.

Lemma mem_extends_any k m m' : mem_extends nobody m m' → mem_extends k m m'.
Proof. intros []. split; by apply extends_any. Qed.

(** Metadata whose arrays were left alone says the same. *)
Lemma deref_kept k m m' t :
  mem_extends k m m' → meta_valid m t → hidden k t → meta_valid m' t ∧ deref m' t = deref m t.
Proof.
  intros [Ec Ei] [Vc Vi] [Hc Hi].
  destruct (extends_slice _ _ _ _ Ec Vc Hc) as [? R1]. destruct (extends_slice _ _ _ _ Ei Vi Hi) as [? R2].
  split; [done|]. unfold deref. by rewrite R1, R2.
Qed.

Lemma hidden_nobody t : hidden nobody t.
Proof. split; simpl; set_solver. Qed.

Lemma fresh_later m0 m m' m1 t :
  mem_extends nobody m0 m → mem_extends nobody m' m1 → meta_fresh m m' t → meta_fresh m0 m1 t.
Proof.
  intros [[L1 _] [L2 _]] [[L3 _] [L4 _]] [F1 F2]. split; by eapply fresh_weaken.
Qed.

Section facts.
Context `{GrowthOk}.

Lemma nil_valid {A} (m : arrays A) : valid m nil_slice.
Proof. split; [done|by left]. Qed.

Lemma clone_spec t m m' t' :
  clone t m = (m', t') →
  mem_extends nobody m m' ∧ meta_valid m' t' ∧ deref m' t' = deref m t ∧ meta_fresh m m' t'.
Proof.
  unfold clone. destruct (copied (cols m) _) as [cs c] eqn:E1. destruct (copied (ixs m) _) as [xs i] eqn:E2.
  intros [= <- <-]. apply copied_spec in E1 as (?&?&R1&?), E2 as (?&?&R2&?).
  split_and!; try done. unfold deref. simpl. by rewrite R1, R2.
Qed.

Lemma decode_table_spec tm m m' t :
  decode_table tm m = (m', t) →
  mem_extends nobody m m' ∧ meta_valid m' t ∧ deref m' t = tm ∧ meta_fresh m m' t.
Proof.
  unfold decode_table. destruct (append (cols m) _ _) as [cs c] eqn:E1.
  destruct (append (ixs m) _ _) as [xs i] eqn:E2. intros [= <- <-].
  apply append_spec in E1 as (?&?&R1&F1); [|apply nil_valid].
  apply append_spec in E2 as (?&?&R2&F2); [|apply nil_valid].
  split_and!; try done.
  - unfold deref. simpl. rewrite R1, R2. by destruct tm as [? [] ? ?].
  - split; intros j Hj; [destruct (F1 j Hj) as [Hn|]|destruct (F2 j Hj) as [Hn|]]; try done; set_solver.
Qed.

Lemma clones_spec l m m' l' :
  Forall (meta_valid m) l → clones l m = (m', l') →
  mem_extends nobody m m' ∧ Forall (meta_valid m') l' ∧ deref m' <$> l' = deref m <$> l ∧
  Forall (meta_fresh m m') l'.
Proof.
  revert m m' l'. induction l as [|tm l IH]; intros m m' l' Hv E; simpl in E; [by simplify_eq|].
  destruct (clone tm m) as [m1 t] eqn:E1. destruct (clones l m1) as [m2 out] eqn:E2.
  injection E as <- <-. apply Forall_cons in Hv as [Ht Hl].
  apply clone_spec in E1 as (X1&V1&R1&F1).
  assert (Forall (λ t, meta_valid m1 t ∧ deref m1 t = deref m t) l) as Hl'.
  { eapply Forall_impl; [exact Hl|]. intros x Hx. by eapply deref_kept; [..|apply hidden_nobody]. }
  apply Forall_and in Hl' as [Hl1 Hl2].
  apply IH in E2 as (X2&V2&R2&F2); [|done].
  destruct (deref_kept _ _ _ _ X2 V1 (hidden_nobody _)) as [V3 R3].
  split_and!; [by etrans|by constructor| |].
  - rewrite !fmap_cons, R3, R1, R2. f_equal. by apply Forall_fmap_ext_1.
  - constructor; [by apply (fresh_later m m m1)|]. eapply Forall_impl; [exact F2|].
    intros x Hx. by apply (fresh_later m m1 m2).
Qed.

Lemma decode_tables_spec l m m' T :
  NoDup l.*1 → decode_tables l m = (m', T) →
  mem_extends nobody m m' ∧ map_Forall (λ _ t, meta_valid m' t ∧ meta_fresh m m' t) T ∧
  deref m' <$> T = list_to_map l.
Proof.
  revert m m' T. induction l as [|[k tm] l IH]; intros m m' T Hn E; simpl in *.
  { injection E as <- <-. by rewrite fmap_empty. }
  destruct (decode_table tm m) as [m1 t] eqn:E1. destruct (decode_tables l m1) as [m2 T1] eqn:E2.
  injection E as <- <-. apply NoDup_cons in Hn as [Hk Hn].
  apply decode_table_spec in E1 as (X1&V1&R1&F1). apply IH in E2 as (X2&V2&R2); [|done].
  destruct (deref_kept _ _ _ _ X2 V1 (hidden_nobody _)) as [V3 R3].
  split_and!; [by etrans| |by rewrite fmap_insert, R3, R1, R2].
  apply map_Forall_insert_2; [split; [done|by apply (fresh_later m m m1)]|].
  eapply map_Forall_impl; [exact V2|]. intros j x [Hv Hf]. split; [done|by apply (fresh_later m m1 m2)].
Qed.
End facts.

(** ** The catalog's arrays are its own *)

Section proofs.
Context `{GrowthOk} {W : Type} {BS : BlobStore W} {J : JSON}.
Implicit Types (w : world W) (k : known) (t : meta).

Record apart (w : world W) (k : known) : Prop := Apart {
  ap_tables : map_Forall (λ _ t, meta_valid (mem w) t ∧ hidden k t) (w_Tables w);
  ap_cols i : i ∈ kc k → (i < length (cols (mem w)))%nat;
  ap_ixs i : i ∈ ki k → (i < length (ixs (mem w)))%nat }.

(** Changes to arrays callers know, and fresh arrays, do not reach the catalog. *)
Lemma apart_extends w k m' :
  apart w k → mem_extends k (mem w) m' → apart (set_mem m' w) k ∧ view (set_mem m' w) = view w.
Proof.
  intros [Ht Hc Hi] X. pose proof X as [[Lc _] [Li _]]. split.
  - split; simpl; [|intros i ?%Hc; lia|intros i ?%Hi; lia].
    eapply map_Forall_impl; [exact Ht|]. intros n t [Hv Hh]. split; [by eapply deref_kept|done].
  - unfold view. simpl. f_equal. f_equal. apply map_fmap_ext. intros n t Hn.
    destruct (Ht n t Hn) as [Hv Hh]. by eapply deref_kept.
Qed.

Lemma fresh_hidden w k m' t : apart w k → meta_fresh (mem w) m' t → hidden k t.
Proof.
  intros [_ Hc Hi] [Fc Fi]. split; intros i H1 H2.
  - apply Fc in H1. apply Hc in H2. lia.
  - apply Fi in H1. apply Hi in H2. lia.
Qed.

(** Handing out fresh metadata. *)
Lemma apart_learn w k0 k m' t :
  apart w k0 → apart (set_mem m' w) k → meta_fresh (mem w) m' t → apart (set_mem m' w) (learn t k).
Proof.
  intros [Ht0 _ _] [Ht Hc Hi] [Fc Fi]. split; simpl in *.
  - intros n x Hn. destruct (Ht n x Hn) as [Hv [H1 H2]]. split; [done|].
    destruct (Ht0 n x Hn) as [[V1 V2] _]. split; simpl; intros i Hi1 [Hi2|Hi2]%elem_of_union.
    + apply Fc in Hi2. pose proof (valid_base _ _ _ V1 Hi1). lia.
    + by apply (H1 i).
    + apply Fi in Hi2. pose proof (valid_base _ _ _ V2 Hi1). lia.
    + by apply (H2 i).
  - intros i [Hi1%Fc|Hi1]%elem_of_union; [lia|by apply Hc].
  - intros i [Hi1%Fi|Hi1]%elem_of_union; [lia|by apply Hi].
Qed.

Lemma apart_learn_all w k m' l :
  apart w k → mem_extends nobody (mem w) m' → Forall (meta_fresh (mem w) m') l →
  apart (set_mem m' w) (foldr learn k l).
Proof.
  intros Ha X. induction 1 as [|t l Ft Fl IH]; simpl.
  - by apply (apart_extends w k m' Ha (mem_extends_any _ _ _ X)).
  - by apply (apart_learn w k).
Qed.

(** Arrays a caller makes. *)
Lemma apart_make w k m' c i :
  apart w k → mem_extends nobody (mem w) m' →
  fresh_in (cols (mem w)) (cols m') c → fresh_in (ixs (mem w)) (ixs m') i →
  apart (set_mem m' w) (learn_slices c i k) ∧ view (set_mem m' w) = view w.
Proof.
  intros Ha X Fc Fi. split; [|by apply (apart_extends w k m' Ha (mem_extends_any _ _ _ X))].
  by apply (apart_learn_all w k m' [Meta "" c "" i]); [..|constructor].
Qed.

(** A copy handed out. *)
Lemma apart_clone w k t m' t' :
  apart w k → clone t (mem w) = (m', t') →
  apart (set_mem m' w) (learn t' k) ∧ view (set_mem m' w) = view w ∧ deref m' t' = deref (mem w) t ∧
  mem_extends nobody (mem w) m'.
Proof.
  intros Ha (X&V&R&F)%clone_spec. split_and!; [by apply (apart_learn_all w k m' [t']); [..|constructor]| |done|done].
  by apply (apart_extends w k m' Ha (mem_extends_any _ _ _ X)).
Qed.

(** Fresh metadata put in the table map. *)
Lemma apart_insert w k m' name t :
  apart w k → mem_extends nobody (mem w) m' → meta_fresh (mem w) m' t → meta_valid m' t →
  let w' := set_tables (<[name := t]> (w_Tables w)) (set_mem m' w) in
  apart w' k ∧
  view w' = Catalog.set_state (State (w_NextID w) (<[name := deref m' t]> (Tables (state_ (view w))))) (view w).
Proof.
  intros Ha X F V w'. destruct (apart_extends w k m' Ha (mem_extends_any _ _ _ X)) as [[Ht Hc Hi] Hview].
  split.
  - split; [|done|done]. simpl. apply map_Forall_insert_2; [|done]. split; [done|by eapply fresh_hidden].
  - rewrite <-Hview at 1. unfold view, Catalog.set_state, w'. simpl. rewrite fmap_insert.
    by injection Hview as ->.
Qed.

Lemma persist_view w w' r :
  persist w = (w', r) →
  Catalog.persist (view w) = (view w', r) ∧ mem w' = mem w ∧ w_dir w' = w_dir w ∧
  w_NextID w' = w_NextID w ∧ w_Tables w' = w_Tables w.
Proof.
  unfold persist, Catalog.persist. intros E. simpl in *. destruct (bs_save _ _) as [s r'].
  by injection E as <- <-.
Qed.

Lemma apart_same w w' k : mem w' = mem w → w_Tables w' = w_Tables w → apart w k → apart w' k.
Proof. intros Hm Ht []. split; by rewrite ?Hm, ?Ht. Qed.

(** Saving a catalog with fresh metadata under [name], and going back to the
    tables of before. *)
Lemma persist_insert w k m' name t id w2 r :
  apart w k → mem_extends nobody (mem w) m' → meta_fresh (mem w) m' t → meta_valid m' t →
  persist (set_id id (set_tables (<[name := t]> (w_Tables w)) (set_mem m' w))) = (w2, r) →
  Catalog.persist (set_state (State id (<[name := deref m' t]> (Tables (state_ (view w))))) (view w)) =
    (view w2, r) ∧
  Tables (state_ (view w2)) = <[name := deref m' t]> (Tables (state_ (view w))) ∧
  apart w2 k ∧ mem w2 = m' ∧ w_Tables w2 = <[name := t]> (w_Tables w) ∧
  let back := set_id (w_NextID w) (set_tables (w_Tables w) w2) in
  apart back k ∧ view back = set_state (state_ (view w)) (view w2).
Proof.
  intros Ha X F V E. destruct (apart_insert w k m' name t) as [Hai Hvi]; [done..|].
  destruct (apart_extends w k m' Ha (mem_extends_any _ _ _ X)) as [Hb Hbv].
  apply persist_view in E as (Ep&Em&Ed&_&Et). simpl in *.
  assert (view (set_id id (set_tables (<[name:=t]> (w_Tables w)) (set_mem m' w))) =
          set_state (State id (<[name := deref m' t]> (Tables (state_ (view w))))) (view w)) as Hv2.
  { injection Hvi as Hvi. unfold view, set_state. simpl. by rewrite <-Hvi. }
  rewrite Hv2 in Ep. split; [done|]. split.
  { unfold Catalog.persist in Ep. destruct (bs_save _ _) as [s r'].
    symmetry. exact (f_equal (λ x, Tables (state_ x.1)) Ep). }
  split; [by eapply apart_same; [..|exact Hai]|]. split_and!; [done..| |].
  - by eapply apart_same; [..|exact Hb].
  - injection Hbv as Hbv. unfold view, set_state. simpl. by rewrite Em, Hbv.
Qed.

(** ** Each call does what the value model says *)

(** What a call returns to a caller who knew [k]. *)
Definition handed (r : res meta) (k : known) : known :=
  match r with Ret t => learn t k | _ => k end.
Definition deref_res (m : memory) (r : res meta) : res TableMeta := res_bind r (λ t, Ret (deref m t)).

Lemma CreateTable_view w k name schema w' r :
  apart w k → valid (cols (mem w)) schema → CreateTable name schema w = (w', r) →
  Catalog.CreateTable name (MkSchema (read (cols (mem w)) schema)) (view w) =
    (view w', deref_res (mem w') r) ∧
  apart w' (handed r k) ∧ mem_extends nobody (mem w) (mem w').
Proof.
  intros Ha Hv E. unfold CreateTable in E. unfold Catalog.CreateTable. simpl.
  destruct (String.eqb name ""); [by injection E as <- <-|].
  replace (len (read (cols (mem w)) schema) =? 0) with (slen schema =? 0)%nat
    by (rewrite read_length by done; by destruct (slen schema)).
  destruct (slen schema =? 0)%nat; [by injection E as <- <-|].
  rewrite lookup_fmap. destruct (w_Tables w !! name) as [t0|] eqn:En; simpl; [by injection E as <- <-|].
  destruct (copied (cols (mem w)) schema) as [cs c] eqn:Ec. apply copied_spec in Ec as (X&V&R&F).
  set (m' := Mem cs (ixs (mem w))) in *. set (tm := Meta name c (fileName (w_NextID w)) nil_slice) in *.
  assert (mem_extends nobody (mem w) m') as Xm by (by split).
  destruct (persist _) as [w2 rp] eqn:Ep in E.
  eapply (persist_insert w k m' name tm) in Ep as (Hp&Hs2&Ha2&Hm2&Ht2&Hab&Hvb);
    [|done|done|by split; [|intros i []%footprint_elem]|by split; [|apply nil_valid]].
  assert (deref m' tm = Table name (MkSchema (read (cols (mem w)) schema)) (fileName (w_NextID w)) []) as Hd
    by (unfold deref; simpl; by rewrite R).
  rewrite Hd in Hp, Hs2. unfold set_state in *. simpl in *. rewrite Hp. destruct rp as [u|e|].
  - destruct (clone tm (mem w2)) as [m3 t] eqn:E3. injection E as <- <-.
    destruct (apart_clone w2 k tm m3 t Ha2 E3) as (Ha3&Hv3&R3&X3). rewrite Hv3. simpl.
    rewrite R3, Hm2. split_and!; [|done|by rewrite Hm2 in X3; etrans].
    by rewrite Hd.
  - injection E as <- <-. rewrite Ht2, delete_insert_id by done. rewrite Hvb. simpl.
    split_and!; [|done|by rewrite Hm2].
    by rewrite Hs2, delete_insert_id by (by rewrite lookup_fmap, En).
  - injection E as <- <-. split_and!; [done|done|by rewrite Hm2].
Qed.

Lemma CreateIndex_view w k table name column w' r :
  apart w k → CreateIndex table name column w = (w', r) →
  Catalog.CreateIndex table name column (view w) = (view w', r) ∧
  apart w' k ∧ mem_extends nobody (mem w) (mem w').
Proof.
  intros Ha E. unfold CreateIndex in E. unfold Catalog.CreateIndex. simpl.
  destruct (String.eqb name ""); [by injection E as <- <-|].
  rewrite lookup_fmap. destruct (w_Tables w !! table) as [tm|] eqn:En; simpl; [|by injection E as <- <-].
  pose proof (ap_tables _ _ Ha _ _ En) as [[Vc Vi] _]. rewrite read_length by done.
  destruct ((column <? 0) || _); [by injection E as <- <-|].
  destruct (existsb _ _); [by injection E as <- <-|].
  destruct (clone tm (mem w)) as [m1 u] eqn:E1. apply clone_spec in E1 as (X1&[V1 V2]&R1&[F1 F2]).
  set (im := Index name column (fileName (w_NextID w))) in *.
  destruct (append (ixs m1) (m_Indexes u) [im]) as [xs i] eqn:E2.
  apply append_spec in E2 as (X2&V3&R2&F3); [|done].
  set (m' := Mem (cols m1) xs) in *. set (t := Meta (m_Name u) (m_Columns u) (m_File u) i) in *.
  assert (mem_extends nobody (mem w) m') as Xm.
  { split; [apply X1|]. eapply extends_own; [apply X1|exact F2|exact X2]. }
  assert (meta_fresh (mem w) m' t) as Fm.
  { split; [done|]. intros j [Hj%F2|Hj]%F3; simpl; [destruct X2|destruct X1 as [_ []]]; lia. }
  destruct (persist _) as [w2 rp] eqn:Ep in E.
  eapply (persist_insert w k m' table t) in Ep as (Hp&Hs2&Ha2&Hm2&Ht2&Hab&Hvb); [|done..].
  assert (deref m' t = Table (m_Name tm) (MkSchema (read (cols (mem w)) (m_Columns tm))) (m_File tm)
            (read (ixs (mem w)) (m_Indexes tm) ++ [im])) as Hd.
  { unfold deref in *. simpl. injection R1 as -> -> -> R1. by rewrite R2, R1. }
  rewrite Hd in Hp, Hs2. unfold set_state in *. simpl in *. rewrite Hp. destruct rp as [q|e|].
  - injection E as <- <-. split_and!; [done|done|by rewrite Hm2].
  - injection E as <- <-. simpl. rewrite Hs2, Ht2, !insert_insert_eq, (insert_id (w_Tables w)) by done.
    rewrite Hvb, insert_id by (by rewrite lookup_fmap, En). by rewrite Hm2.
  - injection E as <- <-. split_and!; [done|done|by rewrite Hm2].
Qed.

Lemma GetTable_view w k name w' r :
  apart w k → GetTable name w = (w', r) →
  view w' = view w ∧ deref (mem w') <$> r = Catalog.GetTable name (view w) ∧
  apart w' (handed (from_option Ret (Fail ErrTableNotFound) r) k) ∧ mem_extends nobody (mem w) (mem w').
Proof.
  intros Ha E. unfold GetTable in E. unfold Catalog.GetTable. simpl. rewrite lookup_fmap.
  destruct (w_Tables w !! name) as [tm|]; [|by injection E as <- <-].
  destruct (clone tm (mem w)) as [m' t] eqn:Ec. injection E as <- <-.
  destruct (apart_clone w k tm m' t Ha Ec) as (?&?&R&?). simpl. by rewrite R.
Qed.

Lemma ListTables_view w k order w' r :
  apart w k → order ≡ₚ (map_to_list (w_Tables w)).*2 → ListTables order w = (w', r) →
  view w' = view w ∧ deref (mem w') <$> r = Catalog.ListTables (deref (mem w) <$> order) ∧
  table_order (deref (mem w) <$> order) (view w) ∧
  apart w' (foldr learn k r) ∧ mem_extends nobody (mem w) (mem w').
Proof.
  intros Ha Ho E. unfold ListTables in E. destruct (clones order (mem w)) as [m' out] eqn:Ec.
  injection E as <- <-. apply clones_spec in Ec as (X&V&R&F); 
    [|by rewrite Ho, Forall_fmap; apply Forall_forall; intros [n t] Hn%elem_of_map_to_list;
      apply (ap_tables _ _ Ha _ _ Hn)].
  simpl. split_and!.
  - by apply (apart_extends w k m' Ha (mem_extends_any _ _ _ X)).
  - unfold Catalog.ListTables. rewrite <-R. symmetry. by apply merge_sort_fmap.
  - unfold table_order. simpl. rewrite Ho, map_to_list_fmap, <-!list_fmap_compose.
    apply reflexive_eq, list_fmap_ext. by intros ? [].
  - apply apart_learn_all; [done..|]. by rewrite merge_sort_Permutation.
  - done.
Qed.

Definition in_memory (k : known) (m : memory) : Prop :=
  (∀ i, i ∈ kc k → i < length (cols m))%nat ∧ (∀ i, i ∈ ki k → i < length (ixs m))%nat.

Lemma openWith_view d m k s s' r :
  in_memory k m → openWith d m s = (s', r) →
  Catalog.openWith d s = (s', res_bind r (λ w, Ret (view w))) ∧ ∀ w, r = Ret w → apart w k.
Proof.
  intros [Kc Ki] E. unfold openWith in E. unfold Catalog.openWith.
  destruct (bs_load s) as [s1 [[data|]|e|]]; [| |by injection E as <- <-..].
  - destruct (Unmarshal data) as [doc|]; [|by injection E as <- <-].
    destruct (decode_tables _ m) as [m' T] eqn:Et. injection E as <- <-.
    apply decode_tables_spec in Et as (X&V&R); [|apply NoDup_fst_map_to_list].
    rewrite list_to_map_to_list in R. split; [by unfold view; simpl; rewrite R|].
    intros w [= <-]. pose proof X as [[Lc _] [Li _]].
    split; simpl; [|intros i ?%Kc; lia|intros i ?%Ki; lia].
    eapply map_Forall_impl; [exact V|]. intros n t [Hv [Fc Fi]]. split; [done|].
    split; intros i H1 H2; [apply Fc in H1; apply Kc in H2|apply Fi in H1; apply Ki in H2]; lia.
  - injection E as <- <-. split; [done|]. intros w [= <-]. by split.
Qed.
End proofs.

(** ** Histories of calls and of what callers do in between *)

(** A call of the catalog, or a caller that assigns to an element of an array
    it knows or makes a fresh array. *)
Inductive event :=
| ECreateTable (name : string) (schema : slice)
| ECreateIndex (table name : string) (column : Z)
| EGetTable (name : string)
| EListTables (order : list meta)
| EAssignColumn (a i : nat) (x : Column)
| EAssignIndex (a i : nat) (x : IndexMeta)
| EMakeColumns (l : list Column)
| EMakeIndexes (l : list IndexMeta).

Inductive answer :=
| ATable (r : res meta)
| AIndex (r : res IndexMeta)
| AFound (o : option meta)
| AList (l : list meta)
| ANone.

Definition is_call (e : event) : bool :=
  match e with ECreateTable _ _ | ECreateIndex _ _ _ | EGetTable _ | EListTables _ => true | _ => false end.

Section histories.
Context `{GrowthOk} {W : Type} {BS : BlobStore W} {SS : BlobStoreSpec W} {J : JSON}.

Definition run (e : event) (w : world W) (k : known) : world W * known * answer :=
  match e with
  | ECreateTable name schema => let '(w, r) := CreateTable name schema w in (w, handed r k, ATable r)
  | ECreateIndex table name column => let '(w, r) := CreateIndex table name column w in (w, k, AIndex r)
  | EGetTable name =>
      let '(w, o) := GetTable name w in
      (w, handed (from_option Ret (Fail ErrTableNotFound) o) k, AFound o)
  | EListTables order => let '(w, l) := ListTables order w in (w, foldr learn k l, AList l)
  | EAssignColumn a i x => (set_mem (Mem (poke (cols (mem w)) a i x) (ixs (mem w))) w, k, ANone)
  | EAssignIndex a i x => (set_mem (Mem (cols (mem w)) (poke (ixs (mem w)) a i x)) w, k, ANone)
  | EMakeColumns l =>
      (set_mem (Mem (cols (mem w) ++ [l]) (ixs (mem w))) w,
       learn_slices (Slice (length (cols (mem w))) 0 (length l) (length l)) nil_slice k, ANone)
  | EMakeIndexes l =>
      (set_mem (Mem (cols (mem w)) (ixs (mem w) ++ [l])) w,
       learn_slices nil_slice (Slice (length (ixs (mem w))) 0 (length l) (length l)) k, ANone)
  end.

(** Schemas are windows on existing arrays, assignments go to known arrays, and
    the walk of the table map visits every table once. *)
Definition allowed (e : event) (w : world W) (k : known) : Prop :=
  match e with
  | ECreateTable _ schema => valid (cols (mem w)) schema
  | EListTables order => order ≡ₚ (map_to_list (w_Tables w)).*2
  | EAssignColumn a _ _ => a ∈ kc k
  | EAssignIndex a _ _ => a ∈ ki k
  | _ => True
  end.

(** What the value model says of an event and its answer: [m] and [m'] are the
    memories before and after. *)
Definition says (e : event) (m m' : memory) (a : answer) (c c' : Catalog W) : Prop :=
  match e, a with
  | ECreateTable name schema, ATable r =>
      Catalog.CreateTable name (MkSchema (read (cols m) schema)) c = (c', deref_res m' r)
  | ECreateIndex table name column, AIndex r => Catalog.CreateIndex table name column c = (c', r)
  | EGetTable name, AFound o => c' = c ∧ deref m' <$> o = Catalog.GetTable name c
  | EListTables order, AList l =>
      c' = c ∧ table_order (deref m <$> order) c ∧ deref m' <$> l = Catalog.ListTables (deref m <$> order)
  | _, ANone => c' = c
  | _, _ => False
  end.

(** The strings of the call can be carried by the JSON document. *)
Definition json_event (e : event) (w : world W) : bool :=
  match e with
  | ECreateTable name schema => json_call (CTable name (MkSchema (read (cols (mem w)) schema)))
  | ECreateIndex table name column => json_call (CIndex table name column)
  | _ => true
  end.

(** A catalog in a program: opened in some memory of which callers know any
    part, used by any events, reopened. *)
Inductive shared (d : string) : world W → known → Prop :=
| shared_new m k s s' w :
    stored s = None → in_memory k m → openWith d m s = (s', Ret w) → shared d w k
| shared_event w k e w' k' a :
    shared d w k → allowed e w k → json_event e w = true → w_NextID w < 2 ^ 32 - 1 →
    run e w k = (w', k', a) → shared d w' k'
| shared_reopen w k s w' :
    shared d w k → openWith d (mem w) (w_store w) = (s, Ret w') → shared d w' k.

Lemma run_says e w k w' k' a :
  apart w k → allowed e w k → run e w k = (w', k', a) →
  says e (mem w) (mem w') a (view w) (view w') ∧ apart w' k' ∧
  (is_call e = true → mem_extends nobody (mem w) (mem w')).
Proof.
  intros Ha Hal E. destruct e as [name schema|table name column|name|order|b i x|b i x|l|l]; simpl in *.
  - destruct (CreateTable name schema w) as [w1 r] eqn:Ec. injection E as <- <- <-.
    by eapply CreateTable_view in Ec as (?&?&?).
  - destruct (CreateIndex table name column w) as [w1 r] eqn:Ec. injection E as <- <- <-.
    by eapply CreateIndex_view in Ec as (?&?&?).
  - destruct (GetTable name w) as [w1 o] eqn:Ec. injection E as <- <- <-.
    by eapply GetTable_view in Ec as (?&?&?&?).
  - destruct (ListTables order w) as [w1 l] eqn:Ec. injection E as <- <- <-.
    by eapply ListTables_view in Ec as (?&?&?&?&?).
  - injection E as <- <- <-.
    destruct (apart_extends w k (Mem (poke (cols (mem w)) b i x) (ixs (mem w)))) as [? ->]; [done| |done].
    split; [by apply extends_poke|done].
  - injection E as <- <- <-.
    destruct (apart_extends w k (Mem (cols (mem w)) (poke (ixs (mem w)) b i x))) as [? ->]; [done| |done].
    split; [done|by apply extends_poke].
  - injection E as <- <- <-.
    destruct (apart_make w k (Mem (cols (mem w) ++ [l]) (ixs (mem w)))
      (Slice (length (cols (mem w))) 0 (length l) (length l)) nil_slice) as [? ->]; [done| | | |done].
    + split; [apply extends_make|done].
    + intros i [_ ->]%footprint_elem. simpl. rewrite length_app. simpl. lia.
    + by intros i []%footprint_elem.
  - injection E as <- <- <-.
    destruct (apart_make w k (Mem (cols (mem w)) (ixs (mem w) ++ [l]))
      nil_slice (Slice (length (ixs (mem w))) 0 (length l) (length l))) as [? ->]; [done| | | |done].
    + split; [done|apply extends_make].
    + by intros i []%footprint_elem.
    + intros i [_ ->]%footprint_elem. simpl. rewrite length_app. simpl. lia.
Qed.

(** An event takes a reachable catalog of the value model to a reachable one. *)
Lemma says_reachable d e w w' a :
  reachable d (view w) → json_event e w = true → w_NextID w < 2 ^ 32 - 1 →
  says e (mem w) (mem w') a (view w) (view w') → reachable d (view w').
Proof.
  intros IH Hj Hid Hs. destruct e as [name schema|table name column| | | | | |], a; cbn [says] in Hs; try contradiction; try exact (eq_rect_r _ IH Hs);
    try exact (eq_rect_r _ IH (proj1 Hs)).
  - pose proof (reach_call d _ (CTable _ _) IH Hj Hid) as Hr. cbn [run_call] in Hr. by rewrite Hs in Hr.
  - pose proof (reach_call d _ (CIndex table name column) IH Hj Hid) as Hr. cbn [run_call] in Hr. by rewrite Hs in Hr.
Qed.

Lemma shared_inv d w k : shared d w k → apart w k ∧ reachable d (view w).
Proof.
  induction 1 as [m k s s' w Hn Hk Ho|w k e w' k' a Hs [Ha IH] Hal Hj Hid Hr|w k s w' Hs [Ha IH] Ho].
  - eapply openWith_view in Ho as [Hv Hap]; [|done]. split; [by apply Hap|]. by eapply reach_new.
  - destruct (run_says e w k w' k' a Ha Hal Hr) as (Hsay&Ha'&_). split; [done|].
    by eapply says_reachable.
  - eapply openWith_view in Ho as [Hv Hap]; [|destruct Ha; by split].
    split; [by apply Hap|]. by eapply reach_open.
Qed.

(** C24: the catalog shares no array with its callers: in any program that uses
    it, whatever callers assign through the schemas they passed and the metadata
    they received, what the catalog says is a catalog of the value model, every
    call does and returns exactly what the value model says, assignments of
    callers change nothing it says, and no call changes an array a caller
    knows, so metadata handed out stay as they were. *)
Theorem sharing_invisible d w k e w' k' a :
  shared d w k → allowed e w k → run e w k = (w', k', a) →
  reachable d (view w) ∧ says e (mem w) (mem w') a (view w) (view w') ∧
  (is_call e = true →
     (∀ i, i ∈ kc k → cols (mem w') !! i = cols (mem w) !! i) ∧
     (∀ i, i ∈ ki k → ixs (mem w') !! i = ixs (mem w) !! i)).
Proof.
  intros [Ha Hr]%shared_inv Hal E. destruct (run_says e w k w' k' a Ha Hal E) as (Hs&_&Hx).
  split_and!; [done..|]. intros [[_ Xc] [_ Xi]]%Hx. destruct Ha as [_ Kc Ki].
  split; intros i Hi; [apply Xc|apply Xi]; auto; set_solver.
Qed.

Lemma shared_run d e w k :
  shared d w k → allowed e w k → json_event e w = true → w_NextID w < 2 ^ 32 - 1 →
  shared d (run e w k).1.1 (run e w k).1.2.
Proof. intros. eapply shared_event; [done..|]. by rewrite <-!surjective_pairing. Qed.
End histories.

(** ** Witness: a caller that overwrites what it passed and what it received *)

Section witness.
#[local] Instance double : Growth := λ _ needed, (2 * needed)%nat.
#[local] Instance double_ok : GrowthOk.
Proof. intros old needed. unfold growth, double. lia. Qed.

Definition ex_world : world fileStore := World (Mem [] []) "db" ex_store 0 ∅.
Definition ex_do (e : event) (p : world fileStore * known) : world fileStore * known := (run e p.1 p.2).1.

(** A schema of two columns in array 0; a table; an index; then both columns
    of the schema and the received metadata are overwritten. *)
Definition ex1 := ex_do (EMakeColumns [Col "id" TypeInt false; Col "name" TypeText true]) (ex_world, nobody).
Definition ex2 := ex_do (ECreateTable "users" (Slice 0 0 2 2)) ex1.
Definition ex3 := ex_do (ECreateIndex "users" "by_id" 0) ex2.
Definition ex4 := ex_do (EGetTable "users") ex3.
Definition ex5 := ex_do (EAssignColumn 0 0 (Col "gone" TypeText true)) ex4.
Definition ex6 := ex_do (EAssignIndex 1 0 (Index "gone" 7 "")) ex5.

Lemma ex_shared : shared "db" ex6.1 ex6.2.
Proof.
  assert (shared "db" ex_world nobody) as H0.
  { apply (shared_new "db" (Mem [] []) nobody ex_store ex_store); [reflexivity|by split|reflexivity]. }
  assert (shared "db" ex1.1 ex1.2) as H1 by (by apply (shared_run "db" _ _ _ H0)).
  assert (shared "db" ex2.1 ex2.2) as H2.
  { apply (shared_run "db" _ _ _ H1); [|vm_compute; reflexivity..].
    vm_compute. split; [lia|right]. eexists. split; [reflexivity|simpl; lia]. }
  assert (shared "db" ex3.1 ex3.2) as H3 by (apply (shared_run "db" _ _ _ H2); [exact I|vm_compute; reflexivity..]).
  assert (shared "db" ex4.1 ex4.2) as H4 by (apply (shared_run "db" _ _ _ H3); [exact I|vm_compute; reflexivity..]).
  assert (shared "db" ex5.1 ex5.2) as H5.
  { apply (shared_run "db" _ _ _ H4); [|vm_compute; reflexivity..].
    apply (bool_decide_unpack (0%nat ∈ kc ex4.2)). vm_compute. exact I. }
  apply (shared_run "db" _ _ _ H5); [|vm_compute; reflexivity..].
  apply (bool_decide_unpack (1%nat ∈ ki ex5.2)). vm_compute. exact I.
Qed.

(** The schema array and the received index are overwritten; a further
    [GetTable] still gives the table as it was created. *)
Lemma sharing_invisible_witness :
  read (cols (mem ex6.1)) (Slice 0 0 2 2) = [Col "gone" TypeText true; Col "name" TypeText true] ∧
  (deref (mem (GetTable "users" ex6.1).1) <$> (GetTable "users" ex6.1).2) =
    Some (Table "users" (MkSchema [Col "id" TypeInt false; Col "name" TypeText true]) "rel_0.db"
            [Index "by_id" 0 "rel_1.db"]).
Proof.
  split; [vm_compute; reflexivity|].
  assert (run (EGetTable "users") ex6.1 ex6.2 =
    ((GetTable "users" ex6.1).1,
     handed (from_option Ret (Fail ErrTableNotFound) (GetTable "users" ex6.1).2) ex6.2,
     AFound (GetTable "users" ex6.1).2)) as E by (unfold run; by destruct (GetTable "users" ex6.1)).
  destruct (sharing_invisible "db" ex6.1 ex6.2 (EGetTable "users") _ _ _ ex_shared I E) as (_&[_ Hd]&_).
  rewrite Hd. vm_compute. reflexivity.
Defined.
End witness.
End CatalogSlices.
