(* ===== verification/BTreeNode.v ===== *)
(** * Package nbtree: one node of the B+Tree (src/internal/access/nbtree/node.go)

    A node is the bytes of a page; [n.data[off:]] accesses keep their bounds
    checks.  The two capacities are variables of the source (tests shrink them),
    so they are a class here, with the page budget as its law and the production
    values as its instance.  A leaf is abstracted to its list of entries and its
    successor ([leaf]), an internal node to its keys and children ([internal]). *)

From S2P Require Import Prelude Bytes PageLayout SlottedPage Disk LRU BufferPool BufferInv PoolSpec Pager Heap.

Module Node.
Abbreviation TID := Heap.TID.
Abbreviation Tid := Heap.Tid.

Definition nodeInternal : Z := 0.
Definition nodeLeaf : Z := 1.
Definition offNodeType : Z := 0.
Definition offKeyCount : Z := 2.
Definition offNextLeaf : Z := 4.
Definition nodeHeader : Z := 8.
Definition keySize : Z := 8.
Definition childSize : Z := 4.
Definition tidSize : Z := 6.

Class Caps := { internalCap : Z; leafCap : Z }.
#[global] Instance production : Caps := {| internalCap := 681; leafCap := 584 |}.

Definition invalidPID : Z := 0.

Section ops.
Context {CP : Caps}.

Definition childAreaOff : Z := nodeHeader + internalCap * keySize.
Definition tidAreaOff : Z := nodeHeader + leafCap * keySize.

(** Header: constant offsets inside the page. *)
Definition nodeType (n : page) : Z := be_at offNodeType 1 n.
Definition isLeaf (n : page) : bool := nodeType n =? nodeLeaf.
Definition keyCount (n : page) : Z := be_at offKeyCount 2 n.
Definition setKeyCount (n : page) (k : Z) : page := be_set offKeyCount 2 k n.
Definition nextLeaf (n : page) : Z := be_at offNextLeaf 4 n.
Definition setNextLeaf (n : page) (pid : Z) : page := be_set offNextLeaf 4 pid n.

Definition initType (n : page) (kind : Z) : page := be_set offNodeType 1 kind (zeroes (len n)).
Definition initLeaf (n : page) : page := initType n nodeLeaf.
Definition initInternal (n : page) : page := initType n nodeInternal.

Definition keyAt (n : page) (i : Z) : res Z :=
  let off := nodeHeader + i * keySize in
  let! x := UintAt 8 off n in Ret (i64 x).
Definition setKeyAt (n : page) (i key : Z) : res page :=
  let off := nodeHeader + i * keySize in
  PutUintAt 8 off (u64 key) n.

Definition childAt (n : page) (i : Z) : res Z :=
  let off := childAreaOff + i * childSize in UintAt 4 off n.
Definition setChildAt (n : page) (i pid : Z) : res page :=
  let off := childAreaOff + i * childSize in PutUintAt 4 off pid n.

Definition tidAt (n : page) (i : Z) : res TID :=
  let off := tidAreaOff + i * tidSize in
  let! p := UintAt 4 off n in
  let! s := UintAt 2 (off + childSize) n in
  Ret (Tid p s).
Definition setTIDAt (n : page) (i : Z) (tid : TID) : res page :=
  let off := tidAreaOff + i * tidSize in
  let! n := PutUintAt 4 off (Heap.Page tid) n in
  PutUintAt 2 (off + childSize) (Heap.Slot tid) n.

(** The binary search; a run that needs more fuel is an error no page gives. *)
Fixpoint search_loop (fuel : nat) (n : page) (key lo hi : Z) : res Z :=
  match fuel with
  | O => Fail (Errorf "search: out of fuel")
  | S fuel =>
      if lo <? hi then
        let mid := u16 (lo + hi) / 2 in
        let! k := keyAt n mid in
        if k <? key then search_loop fuel n key (u16 (mid + 1)) hi
        else search_loop fuel n key lo mid
      else Ret lo
  end.
Definition search (n : page) (key : Z) : res (Z * bool) :=
  let hi := keyCount n in
  let! lo := search_loop (S (Z.to_nat hi)) n key 0 hi in
  let! found := if lo <? keyCount n then let! k := keyAt n lo in Ret (k =? key) else Ret false in
  Ret (lo, found).

Definition childIndex (n : page) (key : Z) : res Z :=
  let! (idx, found) := search n key in
  Ret (if found : bool then u16 (idx + 1) else idx).

Definition full (n : page) : bool :=
  if isLeaf n then leafCap <=? keyCount n else internalCap <=? keyCount n.

(** [for j := cnt; j > i; j--]: [todo] iterations left. *)
Fixpoint shift_entries (todo : nat) (j : Z) (n : page) : res page :=
  match todo with
  | O => Ret n
  | S todo =>
      let! k := keyAt n (j - 1) in
      let! n := setKeyAt n j k in
      let! t := tidAt n (j - 1) in
      let! n := setTIDAt n j t in
      shift_entries todo (j - 1) n
  end.
Definition insertLeafAt (n : page) (i key : Z) (tid : TID) : res page :=
  let cnt := keyCount n in
  let! n := shift_entries (Z.to_nat (cnt - i)) cnt n in
  let! n := setKeyAt n i key in
  let! n := setTIDAt n i tid in
  Ret (setKeyCount n (u16 (cnt + 1))).

Fixpoint shift_keys (todo : nat) (j : Z) (n : page) : res page :=
  match todo with
  | O => Ret n
  | S todo =>
      let! k := keyAt n (j - 1) in
      let! n := setKeyAt n j k in
      shift_keys todo (j - 1) n
  end.
Fixpoint shift_children (todo : nat) (j : Z) (n : page) : res page :=
  match todo with
  | O => Ret n
  | S todo =>
      let! c := childAt n (j - 1) in
      let! n := setChildAt n j c in
      shift_children todo (j - 1) n
  end.
Definition insertInternalAt (n : page) (i key rightChild : Z) : res page :=
  let cnt := keyCount n in
  let! n := shift_keys (Z.to_nat (cnt - i)) cnt n in
  let! n := setKeyAt n i key in
  let! n := shift_children (Z.to_nat (u16 (cnt + 1) - u16 (i + 1))) (u16 (cnt + 1)) n in
  let! n := setChildAt n (u16 (i + 1)) rightChild in
  Ret (setKeyCount n (u16 (cnt + 1))).

(** [splitLeaf]: the entries [mid, cnt) of [n] go to [right]. *)
Fixpoint move_entries (todo : nat) (j mid : Z) (n right : page) : res page :=
  match todo with
  | O => Ret right
  | S todo =>
      let! k := keyAt n j in
      let! right := setKeyAt right (j - mid) k in
      let! t := tidAt n j in
      let! right := setTIDAt right (j - mid) t in
      move_entries todo (j + 1) mid n right
  end.
Definition splitLeaf (n right : page) : res (page * page) :=
  let cnt := keyCount n in
  let mid := cnt / 2 in
  let! right := move_entries (Z.to_nat (cnt - mid)) mid mid n right in
  let right := setKeyCount right (cnt - mid) in
  Ret (setKeyCount n mid, right).

Fixpoint move_keys (todo : nat) (j mid : Z) (n right : page) : res page :=
  match todo with
  | O => Ret right
  | S todo =>
      let! k := keyAt n j in
      let! right := setKeyAt right (j - mid - 1) k in
      move_keys todo (j + 1) mid n right
  end.
Fixpoint move_children (todo : nat) (j mid : Z) (n right : page) : res page :=
  match todo with
  | O => Ret right
  | S todo =>
      let! c := childAt n j in
      let! right := setChildAt right (j - mid - 1) c in
      move_children todo (j + 1) mid n right
  end.
Definition splitInternal (n right : page) : res (page * page * Z) :=
  let cnt := keyCount n in
  let mid := cnt / 2 in
  let! upKey := keyAt n mid in
  let! right := move_keys (Z.to_nat (cnt - (mid + 1))) (mid + 1) mid n right in
  let! right := move_children (Z.to_nat (cnt + 1 - (mid + 1))) (mid + 1) mid n right in
  let right := setKeyCount right (u16 (cnt - mid - 1)) in
  Ret (setKeyCount n mid, right, upKey).
End ops.

(** ** Entries as arrays *)

Class CapsOk `{Caps} : Prop := {
  leaf_budget : nodeHeader + leafCap * (keySize + tidSize) ≤ PageSize;
  internal_budget : nodeHeader + internalCap * keySize + (internalCap + 1) * childSize ≤ PageSize;
  leaf_min : 2 ≤ leafCap;
  internal_min : 3 ≤ internalCap }.
#[global] Instance production_ok : CapsOk.
Proof. split; vm_compute; congruence. Qed.

(** A TID and a page id of their Go types. *)
Definition go_tid (t : TID) : Prop := 0 ≤ Heap.Page t < 2 ^ 32 ∧ 0 ≤ Heap.Slot t < 2 ^ 16.
Definition go_pid (c : Z) : Prop := 0 ≤ c < 2 ^ 32.
Definition go_key (k : Z) : Prop := - 2 ^ 63 ≤ k < 2 ^ 63.

Section arrays.
Context {CP : Caps} {OK : CapsOk}.

(** Reads and writes without the bounds checks. *)
Definition kget (n : page) (i : Z) : Z := i64 (be_at (nodeHeader + i * keySize) 8 n).
Definition kset (n : page) (i k : Z) : page := be_set (nodeHeader + i * keySize) 8 (u64 k) n.
Definition cget (n : page) (i : Z) : Z := be_at (childAreaOff + i * childSize) 4 n.
Definition cset (n : page) (i c : Z) : page := be_set (childAreaOff + i * childSize) 4 c n.
Definition tget (n : page) (i : Z) : TID :=
  Tid (be_at (tidAreaOff + i * tidSize) 4 n) (be_at (tidAreaOff + i * tidSize + childSize) 2 n).
Definition tset (n : page) (i : Z) (t : TID) : page :=
  be_set (tidAreaOff + i * tidSize + childSize) 2 (Heap.Slot t)
    (be_set (tidAreaOff + i * tidSize) 4 (Heap.Page t) n).

(** The header of [n'] is that of [n]. *)
Record same_header (n n' : page) : Prop := SameHeader {
  sh_length : length n' = length n;
  sh_bytes : ∀ off m, 0 ≤ off → 0 ≤ m → off + m ≤ nodeHeader → be_at off m n' = be_at off m n }.

Lemma same_header_refl n : same_header n n.
Proof. by split. Qed.
Lemma same_header_trans a b c : same_header a b → same_header b c → same_header a c.
Proof. intros [L1 H1] [L2 H2]. split; [congruence|]. intros. by rewrite H2, H1. Qed.

(** Positions stay inside the page. *)
Ltac area :=
  pose proof leaf_budget; pose proof internal_budget; pose proof leaf_min; pose proof internal_min;
  unfold wf_page, childAreaOff, tidAreaOff, nodeHeader, keySize, childSize, tidSize, PageSize in *;
  rewrite ?length_be_set by lia; lia.

Lemma keyAt_ok n i : wf_page n → 0 ≤ i < 1023 → keyAt n i = Ret (kget n i).
Proof. intros. unfold keyAt. rewrite UintAt_ok by area. done. Qed.
Lemma setKeyAt_ok n i k : wf_page n → 0 ≤ i < 1023 → setKeyAt n i k = Ret (kset n i k).
Proof. intros. unfold setKeyAt. by rewrite PutUintAt_ok by area. Qed.
Lemma childAt_ok n i : wf_page n → 0 ≤ i ≤ internalCap → childAt n i = Ret (cget n i).
Proof. intros. unfold childAt. by rewrite UintAt_ok by area. Qed.
Lemma setChildAt_ok n i c : wf_page n → 0 ≤ i ≤ internalCap → setChildAt n i c = Ret (cset n i c).
Proof. intros. unfold setChildAt. by rewrite PutUintAt_ok by area. Qed.
Lemma tidAt_ok n i : wf_page n → 0 ≤ i < leafCap → tidAt n i = Ret (tget n i).
Proof. intros. unfold tidAt. by rewrite !UintAt_ok by area. Qed.
Lemma setTIDAt_ok n i t : wf_page n → 0 ≤ i < leafCap → setTIDAt n i t = Ret (tset n i t).
Proof. intros. unfold setTIDAt. rewrite PutUintAt_ok by area. simpl. by rewrite PutUintAt_ok by area. Qed.

Lemma caps_lt : leafCap < 1023 ∧ internalCap < 1023.
Proof. split; area. Qed.

Lemma kget_range n i : go_key (kget n i).
Proof. apply i64_range. Qed.
Lemma cget_range n i : wf_page n → 0 ≤ i ≤ internalCap → go_pid (cget n i).
Proof. intros. unfold cget, go_pid. apply (be_at_range _ 4); area. Qed.
Lemma tget_range n i : wf_page n → 0 ≤ i < leafCap → go_tid (tget n i).
Proof. intros. split; [apply (be_at_range _ 4)|apply (be_at_range _ 2)]; area. Qed.

(** Writing a key. *)
Lemma kset_header n i k : wf_page n → 0 ≤ i < 1023 → wf_page (kset n i k) ∧ same_header n (kset n i k).
Proof.
  intros Hn Hi. unfold kset. assert (length (be_set (nodeHeader + i * keySize) 8 (u64 k) n) = length n) as HL
    by (apply length_be_set; area). split; [unfold wf_page in *; lia|].
  split; [done|]. intros off m ???. apply be_at_set_ne; area.
Qed.
Lemma kset_kget n i k j :
  wf_page n → 0 ≤ i < 1023 → 0 ≤ j < 1023 → go_key k →
  kget (kset n i k) j = if decide (j = i) then k else kget n j.
Proof.
  intros Hn Hi Hj Hk. unfold kget, kset. case_decide as E; [subst j|].
  - rewrite be_at_set; [by apply i64_u64|area..|].
    change (256 ^ 8) with (2 ^ 64). unfold u64. apply Z.mod_pos_bound. lia.
  - f_equal. apply be_at_set_ne; area.
Qed.
Lemma kset_tget n i k j :
  wf_page n → 0 ≤ i < leafCap → 0 ≤ j < leafCap → tget (kset n i k) j = tget n j.
Proof. intros. unfold tget, kset. f_equal; apply be_at_set_ne; area. Qed.
Lemma kset_cget n i k j :
  wf_page n → 0 ≤ i < internalCap → 0 ≤ j ≤ internalCap → cget (kset n i k) j = cget n j.
Proof. intros. unfold cget, kset. apply be_at_set_ne; area. Qed.

(** Writing a child. *)
Lemma cset_header n i c : wf_page n → 0 ≤ i ≤ internalCap → wf_page (cset n i c) ∧ same_header n (cset n i c).
Proof.
  intros Hn Hi. unfold cset. assert (length (be_set (childAreaOff + i * childSize) 4 c n) = length n) as HL
    by (apply length_be_set; area). split; [unfold wf_page in *; lia|].
  split; [done|]. intros off m ???. apply be_at_set_ne; area.
Qed.
Lemma cset_cget n i c j :
  wf_page n → 0 ≤ i ≤ internalCap → 0 ≤ j ≤ internalCap → go_pid c →
  cget (cset n i c) j = if decide (j = i) then c else cget n j.
Proof.
  intros Hn Hi Hj Hc. unfold cget, cset. case_decide as E; [subst j|apply be_at_set_ne; area].
  apply be_at_set; [area..|]. exact Hc.
Qed.
Lemma cset_kget n i c j :
  wf_page n → 0 ≤ i ≤ internalCap → 0 ≤ j < internalCap → kget (cset n i c) j = kget n j.
Proof. intros. unfold kget, cset. f_equal. apply be_at_set_ne; area. Qed.

(** Writing a TID. *)
Lemma tset_length n i t : wf_page n → 0 ≤ i < leafCap →
  length (be_set (tidAreaOff + i * tidSize) 4 (Heap.Page t) n) = length n ∧ length (tset n i t) = length n.
Proof. intros. unfold tset. split; rewrite !length_be_set by area; done. Qed.
Lemma tset_header n i t : wf_page n → 0 ≤ i < leafCap → wf_page (tset n i t) ∧ same_header n (tset n i t).
Proof.
  intros Hn Hi. destruct (tset_length n i t Hn Hi) as [H1 H2].
  split; [unfold wf_page in *; lia|]. split; [done|]. intros off m ???.
  unfold tset. rewrite !be_at_set_ne by area. done.
Qed.
Lemma tset_tget n i t j :
  wf_page n → 0 ≤ i < leafCap → 0 ≤ j < leafCap → go_tid t →
  tget (tset n i t) j = if decide (j = i) then t else tget n j.
Proof.
  intros Hn Hi Hj [Hp Hs]. destruct (tset_length n i t Hn Hi) as [H1 H2]. unfold tget.
  case_decide as E; [subst j; destruct t as [tp ts]; simpl in *; f_equal|f_equal].
  - unfold tset. rewrite be_at_set_ne by area. apply be_at_set; [area..|exact Hp].
  - unfold tset. apply be_at_set; [area..|exact Hs].
  - unfold tset. by rewrite !be_at_set_ne by area.
  - unfold tset. by rewrite !be_at_set_ne by area.
Qed.
Lemma tset_kget n i t j :
  wf_page n → 0 ≤ i < leafCap → 0 ≤ j < leafCap → kget (tset n i t) j = kget n j.
Proof.
  intros Hn Hi Hj. destruct (tset_length n i t Hn Hi) as [H1 H2]. unfold kget, tset.
  f_equal. by rewrite !be_at_set_ne by area.
Qed.

(** ** What a node holds *)

(** The first [len l] elements of an array are [l]. *)
Definition holds {A} (get : Z → A) (l : list A) : Prop := ∀ i x, l !! i = Some x → get (Z.of_nat i) = x.

Record leaf (n : page) (es : list (Z * TID)) (nxt : Z) : Prop := Leaf {
  lf_wf : wf_page n;
  lf_type : nodeType n = nodeLeaf;
  lf_count : keyCount n = len es;
  lf_cap : len es ≤ leafCap;
  lf_next : nextLeaf n = nxt;
  lf_keys : holds (kget n) es.*1;
  lf_tids : holds (tget n) es.*2 }.

Record internal (n : page) (ks cs : list Z) : Prop := Internal {
  in_wf : wf_page n;
  in_type : nodeType n = nodeInternal;
  in_count : keyCount n = len ks;
  in_cap : len ks ≤ internalCap;
  in_arity : length cs = S (length ks);
  in_keys : holds (kget n) ks;
  in_children : holds (cget n) cs }.

Lemma holds_ext {A} (get get' : Z → A) l :
  (∀ i, 0 ≤ i < len l → get' i = get i) → holds get l → holds get' l.
Proof. intros He H i x Hi. rewrite He; [by apply H|]. apply lookup_lt_Some in Hi. lia. Qed.

Lemma holds_app {A} (get : Z → A) l1 l2 :
  holds get l1 → holds (λ i, get (len l1 + i)) l2 → holds get (l1 ++ l2).
Proof.
  intros H1 H2 i x [Hi|[Hge Hi]]%lookup_app_Some; [by apply H1|].
  apply H2 in Hi. by replace (len l1 + Z.of_nat (i - length l1)) with (Z.of_nat i) in Hi by lia.
Qed.

(** ** Search *)

(** [r] keys are below [key], and they come first. *)
Record lower_bound (ks : list Z) (key r : Z) : Prop := LowerBound {
  lb_range : 0 ≤ r ≤ len ks;
  lb_below : ∀ i k, ks !! i = Some k → Z.of_nat i < r → k < key;
  lb_above : ∀ i k, ks !! i = Some k → r ≤ Z.of_nat i → key ≤ k }.

Lemma sorted_lookup ks i j a b :
  StronglySorted Z.lt ks → ks !! i = Some a → ks !! j = Some b → (i < j)%nat → a < b.
Proof.
  intros H. revert i j. induction H as [|x ks Hs IH Hx]; intros i j Ha Hb Hij; [by rewrite lookup_nil in Ha|].
  destruct j as [|j]; [lia|]. destruct i as [|i]; simpl in *.
  - simplify_eq. rewrite Forall_lookup in Hx. by eapply Hx.
  - eapply IH; [done|done|lia].
Qed.

Lemma search_loop_ok n ks key fuel : ∀ lo hi,
  wf_page n → holds (kget n) ks → StronglySorted Z.lt ks → len ks < 1023 →
  0 ≤ lo ≤ hi → hi ≤ len ks → hi - lo < Z.of_nat fuel →
  (∀ i k, ks !! i = Some k → Z.of_nat i < lo → k < key) →
  (∀ i k, ks !! i = Some k → hi ≤ Z.of_nat i → key ≤ k) →
  ∃ r, search_loop fuel n key lo hi = Ret r ∧ lower_bound ks key r.
Proof.
  induction fuel as [|fuel IH]; intros lo hi Hn Hk Hs Hc Hlo Hhi Hf Hbelow Habove; [lia|]. simpl.
  destruct (Z.ltb_spec lo hi).
  2:{ exists lo. split; [done|]. assert (lo = hi) as -> by lia. by split; [lia|..]. }
  rewrite u16_small by lia. set (mid := (lo + hi) / 2).
  assert (lo ≤ mid < hi) as Hm.
  { unfold mid. split; [apply Z.div_le_lower_bound|apply Z.div_lt_upper_bound]; lia. }
  rewrite keyAt_ok by (done || lia). cbn [res_bind].
  destruct (lookup_lt_is_Some_2 ks (Z.to_nat mid)) as [km Hkm]; [lia|].
  assert (kget n mid = km) as -> by (rewrite <-(Hk _ _ Hkm); f_equal; lia).
  destruct (Z.ltb_spec km key).
  - rewrite u16_small by lia. apply IH; try done; [lia..|].
    intros i k Hi Hlt. destruct (decide (Z.of_nat i = mid)) as [E|].
    + assert (Z.to_nat mid = i) as E' by lia. rewrite E' in Hkm. congruence.
    + assert (k < km); [|lia]. by eapply (sorted_lookup ks i (Z.to_nat mid)); [..|lia].
  - apply IH; try done; [lia..|].
    intros i k Hi Hge. destruct (decide (Z.of_nat i = mid)) as [E|].
    + assert (Z.to_nat mid = i) as E' by lia. rewrite E' in Hkm. assert (k = km) by congruence. lia.
    + assert (km < k); [|lia]. by eapply (sorted_lookup ks (Z.to_nat mid) i); [..|lia].
Qed.

Lemma search_ok n ks key :
  wf_page n → keyCount n = len ks → holds (kget n) ks → StronglySorted Z.lt ks → len ks < 1023 →
  ∃ r, search n key = Ret (r, bool_decide (key ∈ ks)) ∧ lower_bound ks key r ∧
    (key ∈ ks → ks !! Z.to_nat r = Some key).
Proof.
  intros Hn Hc Hk Hs Hl. unfold search. rewrite Hc.
  destruct (search_loop_ok n ks key (S (Z.to_nat (len ks))) 0 (len ks)) as (r&->&Hlb); try done; [lia..| |].
  { intros i k Hi%lookup_lt_Some. lia. }
  cbn [res_bind]. exists r. destruct Hlb as [Hr Hb Ha].
  assert (key ∈ ks → ks !! Z.to_nat r = Some key) as Hin.
  { intros [i Hi]%list_elem_of_lookup. destruct (decide (Z.of_nat i < r)) as [Hlt|Hge].
    - specialize (Hb _ _ Hi Hlt). lia.
    - destruct (decide (Z.of_nat i = r)) as [<-|]; [by rewrite Nat2Z.id|].
      destruct (lookup_lt_is_Some_2 ks (Z.to_nat r)) as [kr Hkr]; [apply lookup_lt_Some in Hi; lia|].
      pose proof (sorted_lookup ks (Z.to_nat r) i kr key Hs Hkr Hi ltac:(lia)).
      specialize (Ha _ _ Hkr ltac:(lia)). lia. }
  assert ((if r <? len ks then let! k := keyAt n r in Ret (k =? key) else Ret false) =
          Ret (bool_decide (key ∈ ks))) as ->; [|done].
  destruct (Z.ltb_spec r (len ks)).
  - rewrite keyAt_ok by (done || lia). cbn [res_bind]. f_equal.
    destruct (lookup_lt_is_Some_2 ks (Z.to_nat r)) as [kr Hkr]; [lia|].
    assert (kget n r = kr) as -> by (rewrite <-(Hk _ _ Hkr); f_equal; lia).
    destruct (Z.eqb_spec kr key) as [->|Hne]; symmetry; [apply bool_decide_eq_true_2|apply bool_decide_eq_false_2].
    + by eapply list_elem_of_lookup_2.
    + intros Hk'%Hin. congruence.
  - f_equal. symmetry. apply bool_decide_eq_false_2. intros Hk'%Hin%lookup_lt_Some. lia.
Qed.

(** [childIndex] counts the keys [<= key]. *)
Lemma childIndex_ok n ks key :
  wf_page n → keyCount n = len ks → holds (kget n) ks → StronglySorted Z.lt ks → len ks < 1023 →
  ∃ c, childIndex n key = Ret c ∧ 0 ≤ c ≤ len ks ∧
    (∀ i k, ks !! i = Some k → Z.of_nat i < c → k ≤ key) ∧
    (∀ i k, ks !! i = Some k → c ≤ Z.of_nat i → key < k).
Proof.
  intros Hn Hc Hk Hs Hl. unfold childIndex.
  destruct (search_ok n ks key) as (r&->&[Hr Hb Ha]&Hin); try done. cbn [res_bind].
  destruct (decide (key ∈ ks)) as [Hkey|Hkey].
  - rewrite bool_decide_eq_true_2 by done. specialize (Hin Hkey).
    pose proof (lookup_lt_Some _ _ _ Hin). rewrite u16_small by lia.
    exists (r + 1). split_and!; [done|lia|lia|..]; intros i k Hi Hlt.
    + destruct (decide (Z.of_nat i < r)) as [H'|H']; [specialize (Hb _ _ Hi H'); lia|].
      assert (i = Z.to_nat r) as -> by lia. simplify_eq. lia.
    + eapply (sorted_lookup ks (Z.to_nat r) i); [done..|lia].
  - rewrite bool_decide_eq_false_2 by done. exists r. split_and!; [done|lia|lia|..]; intros i k Hi Hlt.
    + specialize (Hb _ _ Hi Hlt). lia.
    + specialize (Ha _ _ Hi Hlt). assert (k ≠ key); [|lia].
      intros ->. apply Hkey. by eapply list_elem_of_lookup_2.
Qed.

(** ** The loops over the arrays *)

(** Run one bounds-checked access. *)
Ltac access L := rewrite L by (done || lia); cbn [res_bind].

(** [get'] is [get] with the elements of the [todo] positions below [j] moved up by one. *)
Definition shifted {A} (get get' : Z → A) (todo : nat) (j cap : Z) : Prop :=
  ∀ x, 0 ≤ x < cap → get' x = if decide (j - Z.of_nat todo < x ≤ j) then get (x - 1) else get x.
(** [get'] is [get] with [todo] elements of [src] from [j] on copied to [j - mid] on. *)
Definition moved {A} (src get get' : Z → A) (todo : nat) (j mid cap : Z) : Prop :=
  ∀ x, 0 ≤ x < cap → get' x = if decide (j - mid ≤ x < j - mid + Z.of_nat todo) then src (x + mid) else get x.

Lemma shifted_O {A} (get : Z → A) j cap : shifted get get 0 j cap.
Proof. intros x ?. case_decide; [lia|done]. Qed.
Lemma shifted_S {A} (get get1 get' : Z → A) todo j cap :
  0 ≤ j - Z.of_nat (S todo) →
  (∀ x, 0 ≤ x < cap → get1 x = if decide (x = j) then get (j - 1) else get x) →
  shifted get1 get' todo (j - 1) cap → shifted get get' (S todo) j cap.
Proof.
  intros Hj H1 H x Hx. rewrite (H x Hx). repeat case_decide; try lia;
    rewrite ?H1 by lia; repeat case_decide; try lia; try done. by subst.
Qed.
Lemma moved_O {A} (src get : Z → A) j mid cap : moved src get get 0 j mid cap.
Proof. intros x ?. case_decide; [lia|done]. Qed.
Lemma moved_S {A} (src get get1 get' : Z → A) todo j mid cap :
  0 ≤ j - mid →
  (∀ x, 0 ≤ x < cap → get1 x = if decide (x = j - mid) then src j else get x) →
  moved src get1 get' todo (j + 1) mid cap → moved src get get' (S todo) j mid cap.
Proof.
  intros Hj H1 H x Hx. rewrite (H x Hx). repeat case_decide; try lia;
    rewrite ?H1 by lia; repeat case_decide; try lia; try done. f_equal. lia.
Qed.

Lemma shift_entries_ok todo : ∀ j n,
  wf_page n → Z.of_nat todo ≤ j < leafCap →
  ∃ n', shift_entries todo j n = Ret n' ∧ wf_page n' ∧ same_header n n' ∧
    shifted (kget n) (kget n') todo j leafCap ∧ shifted (tget n) (tget n') todo j leafCap.
Proof.
  pose proof caps_lt. induction todo as [|todo IH]; intros j n Hn Hj; simpl.
  { exists n. split_and!; [done|done|done|apply shifted_O..]. }
  access keyAt_ok. access setKeyAt_ok.
  destruct (kset_header n j (kget n (j - 1)) Hn) as [W1 H1]; [lia|]. cbn [res_bind].
  access tidAt_ok. access setTIDAt_ok.
  set (n1 := kset n j (kget n (j - 1))) in *.
  destruct (tset_header n1 j (tget n1 (j - 1)) W1) as [W2 H2]; [lia|]. cbn [res_bind].
  destruct (IH (j - 1) _ W2) as (n'&->&W'&H'&K'&T'); [lia|].
  exists n'. split_and!; [done|done|by repeat (eapply same_header_trans; [eassumption|])|..].
  - eapply shifted_S; [lia| |exact K']. intros x Hx. rewrite tset_kget by (done || lia).
    apply kset_kget; [done|lia|lia|apply kget_range].
  - eapply shifted_S; [lia| |exact T']. intros x Hx.
    rewrite tset_tget by (done || lia || (apply tget_range; [done|lia])).
    unfold n1. by rewrite !kset_tget by (done || lia).
Qed.

Lemma shift_keys_ok todo : ∀ j n,
  wf_page n → Z.of_nat todo ≤ j < internalCap →
  ∃ n', shift_keys todo j n = Ret n' ∧ wf_page n' ∧ same_header n n' ∧
    shifted (kget n) (kget n') todo j internalCap ∧ ∀ x, 0 ≤ x ≤ internalCap → cget n' x = cget n x.
Proof.
  pose proof caps_lt. induction todo as [|todo IH]; intros j n Hn Hj; simpl.
  { exists n. split_and!; [done|done|done|apply shifted_O|done]. }
  access keyAt_ok. access setKeyAt_ok.
  destruct (kset_header n j (kget n (j - 1)) Hn) as [W1 H1]; [lia|]. cbn [res_bind].
  destruct (IH (j - 1) _ W1) as (n'&->&W'&H'&K'&C'); [lia|].
  exists n'. split_and!; [done|done|by eapply same_header_trans|..].
  - eapply shifted_S; [lia| |exact K']. intros x Hx. apply kset_kget; [done|lia|lia|apply kget_range].
  - intros x Hx. rewrite C', kset_cget by (done || lia). done.
Qed.

Lemma shift_children_ok todo : ∀ j n,
  wf_page n → Z.of_nat todo ≤ j ≤ internalCap →
  ∃ n', shift_children todo j n = Ret n' ∧ wf_page n' ∧ same_header n n' ∧
    shifted (cget n) (cget n') todo j (internalCap + 1) ∧ ∀ x, 0 ≤ x < internalCap → kget n' x = kget n x.
Proof.
  induction todo as [|todo IH]; intros j n Hn Hj; simpl.
  { exists n. split_and!; [done|done|done|apply shifted_O|done]. }
  access childAt_ok. access setChildAt_ok.
  destruct (cset_header n j (cget n (j - 1)) Hn) as [W1 H1]; [lia|]. cbn [res_bind].
  destruct (IH (j - 1) _ W1) as (n'&->&W'&H'&C'&K'); [lia|].
  exists n'. split_and!; [done|done|by eapply same_header_trans|..].
  - eapply shifted_S; [lia| |exact C']. intros x Hx. apply cset_cget; [done|lia|lia|].
    apply cget_range; [done|lia].
  - intros x Hx. rewrite K', cset_kget by (done || lia). done.
Qed.

Lemma move_entries_ok todo mid n : ∀ j r,
  wf_page n → wf_page r → 0 ≤ mid ≤ j → j + Z.of_nat todo ≤ leafCap →
  ∃ r', move_entries todo j mid n r = Ret r' ∧ wf_page r' ∧ same_header r r' ∧
    moved (kget n) (kget r) (kget r') todo j mid leafCap ∧ moved (tget n) (tget r) (tget r') todo j mid leafCap.
Proof.
  pose proof caps_lt. induction todo as [|todo IH]; intros j r Hn Hr Hm Hj; simpl.
  { exists r. split_and!; [done|done|done|apply moved_O..]. }
  access keyAt_ok. access setKeyAt_ok.
  destruct (kset_header r (j - mid) (kget n j) Hr) as [W1 H1]; [lia|].
  access tidAt_ok. access setTIDAt_ok. set (r1 := kset r (j - mid) (kget n j)) in *.
  destruct (tset_header r1 (j - mid) (tget n j) W1) as [W2 H2]; [lia|].
  destruct (IH (j + 1) _ Hn W2) as (r'&->&W'&H'&K'&T'); [lia..|].
  exists r'. split_and!; [done|done|by repeat (eapply same_header_trans; [eassumption|])|..].
  - eapply moved_S; [lia| |exact K']. intros x Hx. rewrite tset_kget by (done || lia).
    apply kset_kget; [done|lia|lia|apply kget_range].
  - eapply moved_S; [lia| |exact T']. intros x Hx.
    rewrite tset_tget by (done || lia || (apply tget_range; [done|lia])).
    unfold r1. by rewrite !kset_tget by (done || lia).
Qed.

Lemma move_keys_ok todo mid n : ∀ j r,
  wf_page n → wf_page r → 0 ≤ mid → mid + 1 ≤ j → j + Z.of_nat todo ≤ internalCap →
  ∃ r', move_keys todo j mid n r = Ret r' ∧ wf_page r' ∧ same_header r r' ∧
    moved (kget n) (kget r) (kget r') todo j (mid + 1) internalCap ∧
    ∀ x, 0 ≤ x ≤ internalCap → cget r' x = cget r x.
Proof.
  pose proof caps_lt. induction todo as [|todo IH]; intros j r Hn Hr Hm0 Hm Hj; simpl.
  { exists r. split_and!; [done|done|done|apply moved_O|done]. }
  access keyAt_ok. access setKeyAt_ok.
  destruct (kset_header r (j - mid - 1) (kget n j) Hr) as [W1 H1]; [lia|].
  destruct (IH (j + 1) _ Hn W1) as (r'&->&W'&H'&K'&C'); [lia..|].
  exists r'. split_and!; [done|done|by eapply same_header_trans|..].
  - eapply moved_S; [lia| |exact K']. intros x Hx. rewrite <-Z.sub_add_distr.
    apply kset_kget; [done|lia|lia|apply kget_range].
  - intros x Hx. rewrite C', kset_cget by (done || lia). done.
Qed.

Lemma move_children_ok todo mid n : ∀ j r,
  wf_page n → wf_page r → 0 ≤ mid → mid + 1 ≤ j → j + Z.of_nat todo ≤ internalCap + 1 →
  ∃ r', move_children todo j mid n r = Ret r' ∧ wf_page r' ∧ same_header r r' ∧
    moved (cget n) (cget r) (cget r') todo j (mid + 1) (internalCap + 1) ∧
    ∀ x, 0 ≤ x < internalCap → kget r' x = kget r x.
Proof.
  induction todo as [|todo IH]; intros j r Hn Hr Hm0 Hm Hj; simpl.
  { exists r. split_and!; [done|done|done|apply moved_O|done]. }
  access childAt_ok. access setChildAt_ok.
  destruct (cset_header r (j - mid - 1) (cget n j) Hr) as [W1 H1]; [lia|].
  destruct (IH (j + 1) _ Hn W1) as (r'&->&W'&H'&C'&K'); [lia..|].
  exists r'. split_and!; [done|done|by eapply same_header_trans|..].
  - eapply moved_S; [lia| |exact C']. intros x Hx. rewrite <-Z.sub_add_distr.
    apply cset_cget; [done|lia|lia|apply cget_range; [done|lia]].
  - intros x Hx. rewrite K', cset_kget by (done || lia). done.
Qed.

(** Header writes leave the arrays alone. *)
Record same_arrays (n n' : page) : Prop := SameArrays {
  sa_length : length n' = length n;
  sa_keys : ∀ i, 0 ≤ i < 1023 → kget n' i = kget n i;
  sa_tids : ∀ i, 0 ≤ i < leafCap → tget n' i = tget n i;
  sa_children : ∀ i, 0 ≤ i ≤ internalCap → cget n' i = cget n i }.

Lemma set_header_arrays n off m v :
  wf_page n → 0 ≤ off → 0 < m → off + m ≤ nodeHeader → same_arrays n (be_set off m v n).
Proof.
  intros. split; [apply length_be_set; area|intros i Hi..].
  - unfold kget. f_equal. apply be_at_set_ne; area.
  - unfold tget. f_equal; apply be_at_set_ne; area.
  - unfold cget. apply be_at_set_ne; area.
Qed.
Lemma setKeyCount_ok n k :
  wf_page n → 0 ≤ k < 2 ^ 16 →
  keyCount (setKeyCount n k) = k ∧ nodeType (setKeyCount n k) = nodeType n ∧
  nextLeaf (setKeyCount n k) = nextLeaf n ∧ same_arrays n (setKeyCount n k).
Proof.
  intros Hn Hk. split_and!; [|apply be_at_set_ne; unfold offKeyCount, offNodeType; area
    |apply be_at_set_ne; unfold offKeyCount, offNextLeaf; area|apply set_header_arrays; [done|..]; easy].
  apply be_at_set; [unfold offKeyCount; area..|exact Hk].
Qed.
Lemma setNextLeaf_ok n p :
  wf_page n → go_pid p →
  nextLeaf (setNextLeaf n p) = p ∧ nodeType (setNextLeaf n p) = nodeType n ∧
  keyCount (setNextLeaf n p) = keyCount n ∧ same_arrays n (setNextLeaf n p).
Proof.
  intros Hn Hk. split_and!; [|apply be_at_set_ne; unfold offNextLeaf, offNodeType; area
    |apply be_at_set_ne; unfold offKeyCount, offNextLeaf; area|apply set_header_arrays; [done|..]; easy].
  apply be_at_set; [unfold offNextLeaf; area..|exact Hk].
Qed.

(** ** What the operations do to the lists *)

Definition insert_at {A} (i : Z) (x : A) (l : list A) : list A :=
  take (Z.to_nat i) l ++ x :: drop (Z.to_nat i) l.

Lemma length_insert_at {A} i (x : A) l : length (insert_at i x l) = S (length l).
Proof. unfold insert_at. rewrite length_app, length_take. simpl. rewrite length_drop. lia. Qed.
Lemma fmap_insert_at {A B} (f : A → B) i x l : f <$> insert_at i x l = insert_at i (f x) (f <$> l).
Proof. unfold insert_at. by rewrite fmap_app, fmap_cons, fmap_take, fmap_drop. Qed.

(** A shift followed by a write is an insertion. *)
Lemma holds_insert {A} (get get1 get' : Z → A) l i x todo cap :
  holds get l → 0 ≤ i ≤ len l → len l < cap → todo = Z.to_nat (len l - i) →
  shifted get get1 todo (len l) cap →
  (∀ j, 0 ≤ j < cap → get' j = if decide (j = i) then x else get1 j) →
  holds get' (insert_at i x l).
Proof.
  intros H Hi Hc -> Hs Hg k y Hk. unfold insert_at in Hk.
  pose proof (lookup_lt_Some _ _ _ Hk) as Hlt. fold (insert_at i x l) in Hlt. rewrite length_insert_at in Hlt.
  rewrite Hg by lia. apply lookup_app_Some in Hk as [Hk|[Hge Hk]].
  - pose proof (lookup_lt_Some _ _ _ Hk) as Hk'. rewrite length_take in Hk'. rewrite lookup_take_lt in Hk by lia.
    rewrite decide_False by lia. rewrite Hs by lia. rewrite decide_False by lia. by apply H.
  - rewrite length_take in Hge, Hk. rewrite Nat.min_l in Hge, Hk by lia.
    destruct (k - Z.to_nat i)%nat as [|d] eqn:Ed; simpl in Hk.
    + rewrite decide_True by lia. congruence.
    + rewrite decide_False by lia. rewrite Hs, decide_True by lia. rewrite lookup_drop in Hk.
      rewrite <-(H _ _ Hk). f_equal. lia.
Qed.

(** A move is a suffix. *)
Lemma holds_moved {A} (src get get' : Z → A) l (m : nat) mid todo cap :
  holds src l → mid = Z.of_nat m → mid ≤ len l → len l - mid ≤ cap → todo = Z.to_nat (len l - mid) →
  moved src get get' todo mid mid cap → holds get' (drop m l).
Proof.
  intros H -> Hm Hc -> Hs k y Hk. rewrite lookup_drop in Hk.
  pose proof (lookup_lt_Some _ _ _ Hk). rewrite Hs, decide_True by lia.
  rewrite <-(H _ _ Hk). f_equal. lia.
Qed.
Lemma holds_nil {A} (get : Z → A) : holds get [].
Proof. intros i x Hi. by rewrite lookup_nil in Hi. Qed.
Lemma holds_take {A} (get : Z → A) l m : holds get l → holds get (take m l).
Proof. intros H i x Hi. apply H. by apply lookup_take_Some in Hi as [? _]. Qed.

Lemma wf_same n n' : wf_page n → length n' = length n → wf_page n'.
Proof. unfold wf_page. lia. Qed.

Lemma header_fields n n' :
  same_header n n' → nodeType n' = nodeType n ∧ keyCount n' = keyCount n ∧ nextLeaf n' = nextLeaf n.
Proof. intros [_ H]. split_and!; apply H; by vm_compute. Qed.

Lemma leaf_header n es nxt (c : nat) n' p :
  leaf n es nxt → same_arrays n n' → nodeType n' = nodeType n → keyCount n' = Z.of_nat c → nextLeaf n' = p →
  (c ≤ length es)%nat → leaf n' (take c es) p.
Proof.
  intros [W T C Q X K V] [SL SK ST SC] HT HC HN HL. pose proof caps_lt. split; try done.
  - by eapply wf_same.
  - congruence.
  - rewrite length_take. lia.
  - rewrite length_take. lia.
  - rewrite fmap_take. apply holds_take. eapply holds_ext; [|done].
    rewrite length_fmap. intros i Hi. apply SK. lia.
  - rewrite fmap_take. apply holds_take. eapply holds_ext; [|done].
    rewrite length_fmap. intros i Hi. apply ST. lia.
Qed.

(** [initType] clears the node. *)
Lemma initType_ok n kind :
  wf_page n → 0 ≤ kind < 256 →
  wf_page (initType n kind) ∧ nodeType (initType n kind) = kind ∧
  (∀ off m, 1 ≤ off → 0 ≤ m → off + m ≤ PageSize → be_at off m (initType n kind) = be_get (zeroes m)).
Proof.
  intros Hn Hk. assert (len (zeroes (len n)) = PageSize) as HZ
    by (rewrite length_zeroes; unfold wf_page in Hn; lia).
  unfold initType. split_and!.
  - unfold wf_page. rewrite length_be_set; unfold offNodeType; area.
  - apply be_at_set; [unfold offNodeType; area..|exact Hk].
  - intros off m ???. rewrite be_at_set_ne by (unfold offNodeType; area).
    unfold be_at. rewrite sub_zeroes; [done|lia..|]. rewrite length_zeroes in HZ. lia.
Qed.

Lemma leaf_initLeaf n : wf_page n → leaf (initLeaf n) [] invalidPID.
Proof.
  intros Hn. destruct (initType_ok n nodeLeaf Hn) as (W&T&Z); [easy|].
  pose proof leaf_min.
  split; [done|done|by apply Z|simpl; lia|by apply Z|apply holds_nil..].
Qed.
Lemma internal_initInternal n : wf_page n → internal (initInternal n) [] [invalidPID].
Proof.
  intros Hn. destruct (initType_ok n nodeInternal Hn) as (W&T&Z); [easy|].
  pose proof internal_min.
  split; [done|done|by apply Z|simpl; lia|done|apply holds_nil|].
  intros i x Hi. apply list_lookup_singleton_Some in Hi as [-> <-]. simpl.
  unfold cget. rewrite Z by area. done.
Qed.

Lemma insertLeafAt_ok n es nxt i key tid :
  leaf n es nxt → len es < leafCap → 0 ≤ i ≤ len es → go_key key → go_tid tid →
  ∃ n', insertLeafAt n i key tid = Ret n' ∧ leaf n' (insert_at i (key, tid) es) nxt.
Proof.
  intros [W T C Q X K V] Hcap Hi Hk Ht. pose proof caps_lt. unfold insertLeafAt. rewrite C.
  destruct (shift_entries_ok (Z.to_nat (len es - i)) (len es) n W) as (n1&->&W1&H1&K1&V1); [lia|].
  cbn [res_bind]. access setKeyAt_ok.
  destruct (kset_header n1 i key W1) as [W2 H2]; [lia|]. access setTIDAt_ok.
  destruct (tset_header (kset n1 i key) i tid W2) as [W3 H3]; [lia|].
  set (n3 := tset (kset n1 i key) i tid) in *. rewrite u16_small by lia.
  destruct (header_fields n n3) as (T3&C3&X3); [by repeat (eapply same_header_trans; [eassumption|])|].
  destruct (setKeyCount_ok n3 (len es + 1) W3) as (C4&T4&X4&[L4 SK ST _]); [lia|].
  eexists. split; [done|]. split.
  - by eapply wf_same.
  - congruence.
  - rewrite C4, length_insert_at. lia.
  - rewrite length_insert_at. lia.
  - congruence.
  - rewrite fmap_insert_at. eapply (holds_insert (kget n) (kget n1) _ _ _ _ _ leafCap);
      rewrite ?length_fmap; try done. intros j Hj. rewrite SK by lia. unfold n3.
    rewrite tset_kget by (done || lia). apply kset_kget; done || lia.
  - rewrite fmap_insert_at. eapply (holds_insert (tget n) (tget n1) _ _ _ _ _ leafCap);
      rewrite ?length_fmap; try done. intros j Hj. rewrite ST by lia. unfold n3.
    rewrite tset_tget by (done || lia). by rewrite kset_tget by (done || lia).
Qed.

Lemma insertInternalAt_ok n ks cs i key c :
  internal n ks cs → len ks < internalCap → 0 ≤ i ≤ len ks → go_key key → go_pid c →
  ∃ n', insertInternalAt n i key c = Ret n' ∧ internal n' (insert_at i key ks) (insert_at (i + 1) c cs).
Proof.
  intros [W T C Q A K V] Hcap Hi Hk Hc. pose proof caps_lt. unfold insertInternalAt. rewrite C.
  destruct (shift_keys_ok (Z.to_nat (len ks - i)) (len ks) n W) as (n1&->&W1&H1&K1&V1); [lia|].
  cbn [res_bind]. access setKeyAt_ok.
  destruct (kset_header n1 i key W1) as [W2 H2]; [lia|]. set (n2 := kset n1 i key) in *.
  rewrite !(u16_small (i + 1)), !(u16_small (len ks + 1)) by lia.
  destruct (shift_children_ok (Z.to_nat (len ks + 1 - (i + 1))) (len ks + 1) n2 W2)
    as (n3&->&W3&H3&V3&K3); [lia|]. cbn [res_bind]. access setChildAt_ok.
  destruct (cset_header n3 (i + 1) c W3) as [W4 H4]; [lia|]. set (n4 := cset n3 (i + 1) c) in *.
  destruct (header_fields n n4) as (T4&C4&X4); [by repeat (eapply same_header_trans; [eassumption|])|].
  destruct (setKeyCount_ok n4 (len ks + 1) W4) as (C5&T5&X5&[L5 SK _ SC]); [lia|].
  eexists. split; [done|]. split.
  - by eapply wf_same.
  - congruence.
  - rewrite C5, length_insert_at. lia.
  - rewrite length_insert_at. lia.
  - by rewrite !length_insert_at, A.
  - eapply (holds_insert (kget n) (kget n1) _ _ _ _ _ internalCap); try done.
    intros j Hj. rewrite SK by lia. unfold n4. rewrite cset_kget, K3 by (done || lia).
    apply kset_kget; done || lia.
  - assert (len cs = len ks + 1) as Hcs by lia.
    eapply (holds_insert (cget n2) (cget n3) _ _ _ _ (Z.to_nat (len ks + 1 - (i + 1))) (internalCap + 1));
      [|lia..|by rewrite Hcs|].
    + eapply holds_ext; [|exact V]. intros j Hj. unfold n2. rewrite kset_cget, V1 by (done || lia). done.
    + intros j Hj. rewrite SC by lia. apply cset_cget; done || lia.
Qed.

Lemma splitLeaf_ok n es nxt r rn :
  leaf n es nxt → leaf r [] rn →
  ∃ n' r', splitLeaf n r = Ret (n', r') ∧
    leaf n' (take (length es / 2) es) nxt ∧ leaf r' (drop (length es / 2) es) rn.
Proof.
  intros L R. pose proof L as [W T C Q X K V]. pose proof R as [WR TR CR _ XR _ _]. pose proof caps_lt.
  assert (len es / 2 = Z.of_nat (length es / 2)) as Hd by (by rewrite Nat2Z.inj_div).
  pose proof (Nat.Div0.div_le_upper_bound (length es) 2 (length es) ltac:(lia)).
  unfold splitLeaf. rewrite C, Hd. set (m := (length es / 2)%nat) in *.
  destruct (move_entries_ok (Z.to_nat (len es - Z.of_nat m)) (Z.of_nat m) n (Z.of_nat m) r)
    as (r1&->&W1&H1&K1&V1); [done|done|lia|lia|]. cbn [res_bind].
  destruct (header_fields _ _ H1) as (T1&C1&X1).
  destruct (setKeyCount_ok r1 (len es - Z.of_nat m) W1) as (C2&T2&X2&[L2 SK ST _]); [lia|].
  destruct (setKeyCount_ok n (Z.of_nat m) W) as (C3&T3&X3&S3); [lia|].
  eexists _, _. split; [done|]. split.
  - eapply leaf_header; [done..|congruence|lia].
  - split; [by eapply wf_same|congruence|rewrite C2, length_drop; lia|rewrite length_drop; lia|congruence|..];
      rewrite fmap_drop;
      [eapply (holds_moved (kget n) (kget r) _ _ m (Z.of_nat m) _ leafCap)
      |eapply (holds_moved (tget n) (tget r) _ _ m (Z.of_nat m) _ leafCap)];
      rewrite ?length_fmap; try done; try lia.
    + intros x Hx. rewrite SK by lia. by apply K1.
    + intros x Hx. rewrite ST by lia. by apply V1.
Qed.

Lemma splitInternal_ok n ks cs r c0 :
  internal n ks cs → internal r [] [c0] → (0 < length ks)%nat →
  ∃ n' r' up, splitInternal n r = Ret (n', r', up) ∧
    ks = take (length ks / 2) ks ++ up :: drop (S (length ks / 2)) ks ∧
    internal n' (take (length ks / 2) ks) (take (S (length ks / 2)) cs) ∧
    internal r' (drop (S (length ks / 2)) ks) (drop (S (length ks / 2)) cs).
Proof.
  intros [W T C Q A K V] [WR TR CR _ _ _ _] Hpos. pose proof caps_lt.
  assert (len ks / 2 = Z.of_nat (length ks / 2)) as Hd by (by rewrite Nat2Z.inj_div).
  pose proof (Nat.Div0.div_lt_upper_bound (length ks) 2 (length ks) ltac:(lia)).
  unfold splitInternal. rewrite C, Hd. set (m := (length ks / 2)%nat) in *.
  destruct (lookup_lt_is_Some_2 ks m) as [up Hup]; [lia|]. access keyAt_ok.
  destruct (move_keys_ok (Z.to_nat (len ks - (Z.of_nat m + 1))) (Z.of_nat m) n (Z.of_nat m + 1) r)
    as (r1&->&W1&H1&K1&V1); [done|done|lia..|]. cbn [res_bind].
  destruct (move_children_ok (Z.to_nat (len ks + 1 - (Z.of_nat m + 1))) (Z.of_nat m) n (Z.of_nat m + 1) r1)
    as (r2&->&W2&H2&V2&K2); [done|done|lia..|]. cbn [res_bind]. rewrite u16_small by lia.
  destruct (header_fields r r2) as (T3&C3&X3); [by eapply same_header_trans|].
  destruct (setKeyCount_ok r2 (len ks - Z.of_nat m - 1) W2) as (C4&T4&X4&[L4 SK _ SC]); [lia|].
  destruct (setKeyCount_ok n (Z.of_nat m) W) as (C5&T5&X5&[L5 SK5 _ SC5]); [lia|].
  eexists _, _, _. split; [done|]. rewrite (K m up Hup). split_and!.
  - symmetry. by apply take_drop_middle.
  - split; [by apply (wf_same n)|congruence|rewrite C5, length_take; lia|rewrite length_take; lia
      |rewrite !length_take; lia|..]; apply holds_take.
    + eapply holds_ext; [|exact K]. intros i Hi. apply SK5. lia.
    + eapply holds_ext; [|exact V]. intros i Hi. apply SC5. lia.
  - split; [by apply (wf_same r2)|congruence|rewrite C4, length_drop; lia|rewrite length_drop; lia
      |rewrite !length_drop; lia|..].
    + eapply (holds_moved (kget n) (kget r) _ _ (S m) (Z.of_nat m + 1) _ internalCap);
        [done|lia|lia|lia|done|intros x Hx; rewrite SK, K2 by lia; by apply K1].
    + eapply (holds_moved (cget n) (cget r1) _ _ (S m) (Z.of_nat m + 1) (Z.to_nat (len ks + 1 - (Z.of_nat m + 1))) (internalCap + 1));
        [done|lia..|]. intros x Hx. rewrite SC by lia. by apply V2.
Qed.

(** A node is full when it holds its capacity. *)
Lemma full_leaf n es nxt : leaf n es nxt → full n = (leafCap <=? len es).
Proof. intros []. unfold full, isLeaf. by rewrite lf_type0, lf_count0. Qed.
Lemma full_internal n ks cs : internal n ks cs → full n = (internalCap <=? len ks).
Proof. intros []. unfold full, isLeaf. by rewrite in_type0, in_count0. Qed.
Lemma leaf_isLeaf n es nxt : leaf n es nxt → isLeaf n = true.
Proof. intros []. unfold isLeaf. by rewrite lf_type0. Qed.
Lemma internal_isLeaf n ks cs : internal n ks cs → isLeaf n = false.
Proof. intros []. unfold isLeaf. by rewrite in_type0. Qed.

Lemma count_le ks key c :
  0 ≤ c ≤ len ks → (∀ i k, ks !! i = Some k → Z.of_nat i < c → k ≤ key) →
  (∀ i k, ks !! i = Some k → c ≤ Z.of_nat i → key < k) → c = len (filter (λ k, k ≤ key) ks).
Proof.
  intros Hc Hle Hgt. rewrite <-(take_drop (Z.to_nat c) ks), filter_app, length_app.
  assert (filter (λ k, k ≤ key) (drop (Z.to_nat c) ks) = []) as ->.
  { apply filter_none, Forall_lookup. intros i k Hi. rewrite lookup_drop in Hi.
    specialize (Hgt _ _ Hi ltac:(lia)). lia. }
  rewrite filter_all; [rewrite length_take; simpl; lia|].
  intros k [i Hi]%list_elem_of_lookup. apply lookup_take_Some in Hi as [Hi ?]. apply (Hle _ _ Hi). lia.
Qed.

(** C33: the binary search of a node with sorted keys, for every key and any fill
    the page allows: it ends, its uint16 arithmetic does not wrap, the index is
    the number of keys below the key and [found] says whether the key is there;
    [childIndex] is the number of keys not above the key. *)
Theorem node_search n ks key :
  wf_page n → keyCount n = len ks → holds (kget n) ks → StronglySorted Z.lt ks → len ks < 1023 →
  search n key = Ret (len (filter (λ k, k < key) ks), bool_decide (key ∈ ks)) ∧
  childIndex n key = Ret (len (filter (λ k, k ≤ key) ks)).
Proof.
  intros Hn Hc Hk Hs Hl. destruct (search_ok n ks key) as (r&->&[Hr Hb Ha]&_); try done.
  destruct (childIndex_ok n ks key) as (c&->&Hr'&Hle&Hgt); try done. split; f_equal; [f_equal|by apply count_le].
  assert (r = len (filter (λ k, k ≤ key - 1) ks)) as ->.
  { apply count_le; [done|intros i k Hi H; specialize (Hb _ _ Hi H); lia|intros i k Hi H; specialize (Ha _ _ Hi H); lia]. }
  do 2 f_equal. apply list_filter_iff. lia.
Qed.

(** C32: the four mutations of a node implement their list operations: inserting
    into a leaf or an internal node with room puts the entry (the separator and
    its right child) at the position and moves the rest; splitting gives the
    lower half to the node and the upper half to the new one, an internal split
    taking the middle key out.  Successor and node kind are kept, and no index
    leaves the page. *)
Theorem node_mutations n :
  (∀ es nxt i key tid, leaf n es nxt → len es < leafCap → 0 ≤ i ≤ len es → go_key key → go_tid tid →
     ∃ n', insertLeafAt n i key tid = Ret n' ∧
       leaf n' (take (Z.to_nat i) es ++ (key, tid) :: drop (Z.to_nat i) es) nxt) ∧
  (∀ es nxt p, leaf n es nxt → wf_page p →
     ∃ n' r', splitLeaf n (initLeaf p) = Ret (n', r') ∧
       leaf n' (take (length es / 2) es) nxt ∧ leaf r' (drop (length es / 2) es) invalidPID) ∧
  (∀ ks cs i key c, internal n ks cs → len ks < internalCap → 0 ≤ i ≤ len ks → go_key key → go_pid c →
     ∃ n', insertInternalAt n i key c = Ret n' ∧
       internal n' (take (Z.to_nat i) ks ++ key :: drop (Z.to_nat i) ks)
                   (take (Z.to_nat (i + 1)) cs ++ c :: drop (Z.to_nat (i + 1)) cs)) ∧
  (∀ ks cs p, internal n ks cs → wf_page p → (0 < length ks)%nat →
     ∃ n' r' up, splitInternal n (initInternal p) = Ret (n', r', up) ∧
       ks = take (length ks / 2) ks ++ up :: drop (S (length ks / 2)) ks ∧
       internal n' (take (length ks / 2) ks) (take (S (length ks / 2)) cs) ∧
       internal r' (drop (S (length ks / 2)) ks) (drop (S (length ks / 2)) cs)).
Proof.
  split_and!; intros.
  - by apply insertLeafAt_ok.
  - apply splitLeaf_ok; [done|by apply leaf_initLeaf].
  - by apply insertInternalAt_ok.
  - eapply splitInternal_ok; [done|by apply internal_initInternal|done].
Qed.
End arrays.

(** ** Witnesses *)

Definition ex_leaf : page := setKeyCount (kset (kset (initLeaf NewPage) 0 3) 1 8) 2.

Lemma ex_leaf_keys : holds (kget ex_leaf) [3; 8].
Proof. intros [|[|i]] x Hi; [vm_compute in Hi |- *; congruence..|]. apply lookup_lt_Some in Hi. simpl in Hi. lia. Qed.

Lemma node_search_witness :
  search ex_leaf 8 = Ret (1, true) ∧ childIndex ex_leaf 8 = Ret 2.
Proof.
  apply (node_search ex_leaf [3; 8] 8).
  - vm_compute. reflexivity.
  - vm_compute. reflexivity.
  - exact ex_leaf_keys.
  - repeat constructor; lia.
  - vm_compute. reflexivity.
Defined.

Lemma node_mutations_witness :
  ∃ n', insertLeafAt (initLeaf NewPage) 0 5 (Tid 1 2) = Ret n' ∧ leaf n' [(5, Tid 1 2)] 0.
Proof.
  apply (proj1 (node_mutations (initLeaf NewPage)) [] 0 0 5 (Tid 1 2)).
  - apply leaf_initLeaf. vm_compute. reflexivity.
  - vm_compute. reflexivity.
  - vm_compute. split; discriminate.
  - vm_compute. split; [discriminate|reflexivity].
  - vm_compute. repeat split; discriminate.
Defined.
End Node.
