(* ===== verification/BTree.v ===== *)
(** * Package nbtree: the B+Tree index (src/internal/access/nbtree/nbtree.go)

    The operations, over any pager.  A loop that follows page ids takes fuel and
    answers [None] when it needs more; how much is enough is part of the
    theorems of [BTreeSpec]. *)

From S2P Require Import Prelude Bytes PageLayout SlottedPage Disk LRU BufferPool BufferInv PoolSpec Pager Callback Heap BTreeNode.

(** ** The meta page *)
Module MetaPage.
Definition metaPID : Z := 0.
Definition metaMagic : Z := 0x6E627472.
Definition offMagic : Z := 0.
Definition offRoot : Z := 4.

Definition magic (m : page) : Z := be_at offMagic 4 m.
Definition setMagic (m : page) (v : Z) : page := be_set offMagic 4 v m.
Definition root (m : page) : Z := be_at offRoot 4 m.
Definition setRoot (m : page) (pid : Z) : page := be_set offRoot 4 pid m.
End MetaPage.

(** ** The tree *)
Module BTree.
Import Node Callback.
Import MetaPage(metaPID, metaMagic).

(** [split]: the separator and the new right node, for the parent. *)
Record split := Split { sepKey : Z; right : Z }.

Section ops.
Context {W : Type} {PW : Pager W} {CP : Caps}.

(** [_ = t.pool.UnpinPage(pid, dirty)] followed by a return. *)
Definition unpin_then {A} (pid : Z) (dirty : bool) (r : res A) : st W A := λ s,
  match ignore (UnpinPage pid dirty) s with
  | (s, Panic) => (s, Panic)
  | (s, _) => (s, r)
  end.

Definition bootstrap : st W unit := λ s,
  match NewPageIn s with
  | (s, Fail err) => (s, Fail (Wrapf "nbtree: bootstrap meta" err))
  | (s, Panic) => (s, Panic)
  | (s, Ret (mp, mpid)) =>
      match NewPageIn s with
      | (s, Fail err) => unpin_then mpid false (Fail (Wrapf "nbtree: bootstrap root" err)) s
      | (s, Panic) => (s, Panic)
      | (s, Ret (rp, rpid)) =>
          let s := store rp (initLeaf (load rp s)) s in
          let s := store mp (MetaPage.setMagic (load mp s) metaMagic) s in
          let s := store mp (MetaPage.setRoot (load mp s) rpid) s in
          (do! _ := ignore (UnpinPage rpid true) in
           do! _ := ignore (UnpinPage mpid true) in st_ret tt) s
      end
  end.

Definition NewBTree : st W unit := λ s,
  match NumPages s with
  | Fail e => (s, Fail e)
  | Panic => (s, Panic)
  | Ret n =>
      if n =? 0 then bootstrap s
      else
        match FetchPage metaPID s with
        | (s, Fail err) => (s, Fail (Wrapf "nbtree: open" err))
        | (s, Panic) => (s, Panic)
        | (s, Ret mp) =>
            let ok := MetaPage.magic (load mp s) =? metaMagic in
            unpin_then metaPID false
              (if ok then Ret tt else Fail (Errorf "nbtree: not an index file (bad magic)")) s
        end
  end.

Definition root : st W Z := λ s,
  match FetchPage metaPID s with
  | (s, Fail err) => (s, Fail (Wrapf "nbtree: read meta" err))
  | (s, Panic) => (s, Panic)
  | (s, Ret mp) => unpin_then metaPID false (Ret (MetaPage.root (load mp s))) s
  end.

Definition setRoot (pid : Z) : st W unit := λ s,
  match FetchPage metaPID s with
  | (s, Fail err) => (s, Fail (Wrapf "nbtree: update meta" err))
  | (s, Panic) => (s, Panic)
  | (s, Ret mp) =>
      let s := store mp (MetaPage.setRoot (load mp s) pid) s in
      unpin_then metaPID true (Ret tt) s
  end.

(** [n.childAt(n.childIndex(key))] *)
Definition child_for (n : page) (key : Z) : res (Z * Z) :=
  let! ci := childIndex n key in
  let! c := childAt n ci in
  Ret (ci, c).

(** The leaf case of [Search]. *)
Definition search_leaf (n : page) (key : Z) : res (TID * bool) :=
  let! (idx, found) := search n key in
  if found : bool then let! tid := tidAt n idx in Ret (tid, true)
  else Ret (Tid 0 0, false).

Fixpoint Search_loop (fuel : nat) (pid key : Z) (s : W) : option (W * res (TID * bool)) :=
  match fuel with
  | O => None
  | S fuel =>
      match FetchPage pid s with
      | (s, Fail err) => Some (s, Fail (Wrapf "nbtree: search page" err))
      | (s, Panic) => Some (s, Panic)
      | (s, Ret p) =>
          let n := load p s in
          if isLeaf n then
            match search_leaf n key with
            | Ret x => Some (unpin_then pid false (Ret x) s)
            | _ => Some (s, Panic)
            end
          else
            match child_for n key with
            | Ret (_, child) =>
                match unpin_then pid false (Ret tt) s with
                | (s, Ret _) => Search_loop fuel child key s
                | (s, _) => Some (s, Panic)
                end
            | _ => Some (s, Panic)
            end
      end
  end.
Definition Search (fuel : nat) (key : Z) (s : W) : option (W * res (TID * bool)) :=
  match root s with
  | (s, Fail err) => Some (s, Fail err)
  | (s, Panic) => Some (s, Panic)
  | (s, Ret pid) => Search_loop fuel pid key s
  end.

Fixpoint findLeaf_loop (fuel : nat) (pid key : Z) (s : W) : option (W * res Z) :=
  match fuel with
  | O => None
  | S fuel =>
      match FetchPage pid s with
      | (s, Fail err) => Some (s, Fail (Wrapf "nbtree: descend page" err))
      | (s, Panic) => Some (s, Panic)
      | (s, Ret p) =>
          let n := load p s in
          if isLeaf n then Some (unpin_then pid false (Ret pid) s)
          else
            match child_for n key with
            | Ret (_, child) =>
                match unpin_then pid false (Ret tt) s with
                | (s, Ret _) => findLeaf_loop fuel child key s
                | (s, _) => Some (s, Panic)
                end
            | _ => Some (s, Panic)
            end
      end
  end.
Definition findLeaf (fuel : nat) (key : Z) (s : W) : option (W * res Z) :=
  match root s with
  | (s, Fail err) => Some (s, Fail err)
  | (s, Panic) => Some (s, Panic)
  | (s, Ret pid) => findLeaf_loop fuel pid key s
  end.

(** [scanLeaf] on the leaf in frame [p], read as it is between the calls of [fn];
    the index is 16 bits wide, so [todo] entries are left at most.  The result is
    [done], or the callback's error. *)
Fixpoint scanLeaf_loop {A} (todo : nat) (p : nat) (i hi : Z) (fn : callback W (Z * TID) A)
    : st (W * A) bool := λ sa,
  match todo with
  | O => (sa, Ret false)
  | S todo =>
      let n := load p sa.1 in
      if i <? keyCount n then
        match keyAt n i with
        | Ret k =>
            if hi <? k then (sa, Ret true)
            else
              match tidAt n i with
              | Ret t => (do! _ := fn (k, t) in scanLeaf_loop todo p (u16 (i + 1)) hi fn) sa
              | _ => (sa, Panic)
              end
        | _ => (sa, Panic)
        end
      else (sa, Ret false)
  end.
Definition scanLeaf {A} (p : nat) (i hi : Z) (fn : callback W (Z * TID) A) : st (W * A) bool :=
  scanLeaf_loop (Z.to_nat (65536 - i)) p i hi fn.

Fixpoint Scan_loop {A} (fuel : nat) (pid : Z) (first : bool) (lo hi : Z) (fn : callback W (Z * TID) A)
    (sa : W * A) : option (W * A * res unit) :=
  let '(s, a) := sa in
  match fuel with
  | O => None
  | S fuel =>
      if pid =? invalidPID then Some ((s, a), Ret tt)
      else
        match FetchPage pid s with
        | (s, Fail err) => Some ((s, a), Fail (Wrapf "nbtree: scan page" err))
        | (s, Panic) => Some ((s, a), Panic)
        | (s, Ret p) =>
            let n := load p s in
            match (if first then let! (i, _) := search n lo in Ret i else Ret 0) with
            | Ret i =>
                let next := nextLeaf n in
                match scanLeaf p i hi fn (s, a) with
                | (sa, Panic) => Some (sa, Panic)
                | ((s, a), r) =>
                    match unpin_then pid false r s with
                    | (s, Ret done) => if done : bool then Some ((s, a), Ret tt)
                                       else Scan_loop fuel next false lo hi fn (s, a)
                    | (s, Fail cbErr) => Some ((s, a), Fail cbErr)
                    | (s, Panic) => Some ((s, a), Panic)
                    end
                end
            | _ => Some ((s, a), Panic)
            end
        end
  end.
(** [Scan]: [fuel] bounds the descent, [fuel'] the walk over the leaves. *)
Definition Scan {A} (fuel fuel' : nat) (lo hi : Z) (fn : callback W (Z * TID) A) (s : W) (a : A)
    : option (W * A * res unit) :=
  match findLeaf fuel lo s with
  | None => None
  | Some (s, Fail err) => Some ((s, a), Fail err)
  | Some (s, Panic) => Some ((s, a), Panic)
  | Some (s, Ret pid) => Scan_loop fuel' pid true lo hi fn (s, a)
  end.

(** [splitLeafNode]: [n] is the frame of the full leaf. *)
Definition splitLeafNode (n : nat) : st W split := λ s,
  match NewPageIn s with
  | (s, Fail err) => (s, Fail (Wrapf "nbtree: split leaf" err))
  | (s, Panic) => (s, Panic)
  | (s, Ret (rp, rpid)) =>
      let s := store rp (initLeaf (load rp s)) s in
      match splitLeaf (load n s) (load rp s) with
      | Ret (l, r) =>
          let s := store n l (store rp r s) in
          let s := store rp (setNextLeaf (load rp s) (nextLeaf (load n s))) s in
          let s := store n (setNextLeaf (load n s) rpid) s in
          match keyAt (load rp s) 0 with
          | Ret sep => unpin_then rpid true (Ret (Split sep rpid)) s
          | _ => (s, Panic)
          end
      | _ => (s, Panic)
      end
  end.

Definition splitInternalNode (n : nat) : st W split := λ s,
  match NewPageIn s with
  | (s, Fail err) => (s, Fail (Wrapf "nbtree: split internal" err))
  | (s, Panic) => (s, Panic)
  | (s, Ret (rp, rpid)) =>
      let s := store rp (initInternal (load rp s)) s in
      match splitInternal (load n s) (load rp s) with
      | Ret (l, r, upKey) =>
          let s := store n l (store rp r s) in
          unpin_then rpid true (Ret (Split upKey rpid)) s
      | _ => (s, Panic)
      end
  end.

(** [sp, err := split(n); _ = UnpinPage(pid, true); return sp, err] *)
Definition split_then_unpin (pid : Z) (m : st W split) : st W (option split) := λ s,
  match m s with
  | (s, Ret sp) => unpin_then pid true (Ret (Some sp)) s
  | (s, Fail err) => unpin_then pid true (Fail err) s
  | (s, Panic) => (s, Panic)
  end.

(** The leaf case of [insertInto]: [p] is the frame of the leaf. *)
Definition insert_leaf (p : nat) (pid key : Z) (tid : TID) : st W (option split) := λ s,
  match search (load p s) key with
  | Ret (idx, found) =>
      if found : bool then unpin_then pid false (Fail ErrDuplicateKey) s
      else
        match insertLeafAt (load p s) idx key tid with
        | Ret n =>
            let s := store p n s in
            if negb (full (load p s)) then unpin_then pid true (Ret None) s
            else split_then_unpin pid (splitLeafNode p) s
        | _ => (s, Panic)
        end
  | _ => (s, Panic)
  end.

(** The end of [insertInto]: absorb a child's split. *)
Definition absorb (p : nat) (pid ci : Z) (childSplit : split) : st W (option split) := λ s,
  match insertInternalAt (load p s) ci (sepKey childSplit) (right childSplit) with
  | Ret n =>
      let s := store p n s in
      if negb (full (load p s)) then unpin_then pid true (Ret None) s
      else split_then_unpin pid (splitInternalNode p) s
  | _ => (s, Panic)
  end.

Fixpoint insertInto (fuel : nat) (pid key : Z) (tid : TID) (s : W) : option (W * res (option split)) :=
  match fuel with
  | O => None
  | S fuel =>
      match FetchPage pid s with
      | (s, Fail err) => Some (s, Fail (Wrapf "nbtree: fetch page" err))
      | (s, Panic) => Some (s, Panic)
      | (s, Ret p) =>
          let n := load p s in
          if isLeaf n then Some (insert_leaf p pid key tid s)
          else
            match child_for n key with
            | Ret (ci, c) =>
                match insertInto fuel c key tid s with
                | None => None
                | Some (s, Panic) => Some (s, Panic)
                | Some (s, Fail err) => Some (unpin_then pid false (Fail err) s)
                | Some (s, Ret None) => Some (unpin_then pid false (Ret None) s)
                | Some (s, Ret (Some childSplit)) => Some (absorb p pid ci childSplit s)
                end
            | _ => Some (s, Panic)
            end
      end
  end.

(** The new root over the old one and its new sibling. *)
Definition grow_root (rootPID : Z) (sp : split) : st W unit := λ s,
  match NewPageIn s with
  | (s, Fail err) => (s, Fail (Wrapf "nbtree: new root" err))
  | (s, Panic) => (s, Panic)
  | (s, Ret (p, pid)) =>
      let nr := initInternal (load p s) in
      match (let! nr := setKeyAt nr 0 (sepKey sp) in
             let! nr := setChildAt nr 0 rootPID in
             let! nr := setChildAt nr 1 (right sp) in
             Ret (setKeyCount nr 1)) with
      | Ret nr =>
          let s := store p nr s in
          (do! _ := ignore (UnpinPage pid true) in setRoot pid) s
      | _ => (s, Panic)
      end
  end.

Definition Insert (fuel : nat) (key : Z) (tid : TID) (s : W) : option (W * res unit) :=
  match root s with
  | (s, Fail err) => Some (s, Fail err)
  | (s, Panic) => Some (s, Panic)
  | (s, Ret rootPID) =>
      match insertInto fuel rootPID key tid s with
      | None => None
      | Some (s, Fail err) => Some (s, Fail err)
      | Some (s, Panic) => Some (s, Panic)
      | Some (s, Ret None) => Some (s, Ret tt)
      | Some (s, Ret (Some sp)) => Some (grow_root rootPID sp s)
      end
  end.
End ops.
End BTree.
