(* ===== verification/BTreeInv.v ===== *)
(** * The B+Tree as a set of pages

    [sub] says that the pages from [pid] down form a subtree of height [h] whose
    leaves, left to right, are [lvs] and whose pages are [ns]: uniform height,
    keys within the separators, nodes at least half full and below capacity.
    All of it is about a map from page ids to pages; [BTreeSpec] relates it to
    the operations. *)

From S2P Require Import Prelude Bytes PageLayout SlottedPage Disk LRU BufferPool BufferInv PoolSpec Pager Heap BTreeNode BTree.

Module BTreeInv.
Import Node.

(** ** Bounds *)

Definition above (lo : option Z) (k : Z) : Prop := match lo with Some l => l ≤ k | None => True end.
Definition below (hi : option Z) (k : Z) : Prop := match hi with Some h => k < h | None => True end.
Definition over (lo : option Z) (k : Z) : Prop := match lo with Some l => l < k | None => True end.
Definition within (lo hi : option Z) (k : Z) : Prop := above lo k ∧ below hi k.

Lemma over_above lo k : over lo k → above lo k.
Proof. destruct lo; simpl; lia. Qed.
Lemma within_l lo k hi x : within lo (Some k) x → below hi k → within lo hi x.
Proof. intros [? ?] ?. split; [done|]. destruct hi; simpl in *; lia. Qed.
Lemma within_r lo k hi x : within (Some k) hi x → above lo k → within lo hi x.
Proof. intros [? ?] ?. split; [|done]. destruct lo; simpl in *; lia. Qed.

(** ** Leaves *)

(** A leaf in the chain: its page, its entries, its successor. *)
Record lf := Lf { lpid : Z; lents : list (Z * TID); lnext : Z }.

Definition flat (lvs : list lf) : list (Z * TID) := concat (lents <$> lvs).

(** The chain of successors goes through [lvs] and ends in [tail]. *)
Fixpoint linked (lvs : list lf) (tail : Z) : Prop :=
  match lvs with
  | [] => True
  | l :: rest => lnext l = match rest with l' :: _ => lpid l' | [] => tail end ∧ linked rest tail
  end.

Lemma flat_app l1 l2 : flat (l1 ++ l2) = flat l1 ++ flat l2.
Proof. unfold flat. by rewrite fmap_app, concat_app. Qed.
Lemma flat_cons l ls : flat (l :: ls) = lents l ++ flat ls.
Proof. done. Qed.
Lemma keys_app (es1 es2 : list (Z * TID)) : (es1 ++ es2).*1 = es1.*1 ++ es2.*1.
Proof. apply fmap_app. Qed.

(** Replacing a leaf by one, or by two that are linked to each other. *)
Lemma linked_replace l1 p es es' nx l2 tail :
  linked (l1 ++ Lf p es nx :: l2) tail → linked (l1 ++ Lf p es' nx :: l2) tail.
Proof.
  induction l1 as [|l l1 IH]; simpl; [done|]. intros [H1 H2]. split; [|by apply IH].
  rewrite H1. by destruct l1.
Qed.
Lemma linked_split l1 p es ea eb r nx l2 tail :
  linked (l1 ++ Lf p es nx :: l2) tail → linked (l1 ++ Lf p ea r :: Lf r eb nx :: l2) tail.
Proof.
  induction l1 as [|l l1 IH]; simpl; [by intros [? ?]|]. intros [H1 H2]. split; [|by apply IH].
  rewrite H1. by destruct l1.
Qed.

(** ** Children of an internal node *)

Abbreviation subtree := (option Z → option Z → Z → list lf → list Z → Prop).

Inductive kids (P : subtree) : option Z → option Z → list Z → list Z → list lf → list Z → Prop :=
| kids_one lo hi c l ns : P lo hi c l ns → kids P lo hi [] [c] l ns
| kids_cons lo hi k ks c cs l l' ns ns' :
    over lo k → below hi k → P lo (Some k) c l ns → kids P (Some k) hi ks cs l' ns' →
    kids P lo hi (k :: ks) (c :: cs) (l ++ l') (ns ++ ns').

Section kids.
Context (P : subtree).

Lemma kids_arity lo hi ks cs l ns : kids P lo hi ks cs l ns → length cs = S (length ks).
Proof. induction 1; simpl; lia. Qed.

(** The separators are sorted and inside the bounds. *)
Lemma kids_keys lo hi ks cs l ns :
  kids P lo hi ks cs l ns → StronglySorted Z.lt ks ∧ Forall (λ k, over lo k ∧ below hi k) ks.
Proof.
  induction 1 as [|lo hi k ks c cs l l' ns ns' Ho Hb HP HK [IHs IHf]]; [split; constructor|]. split.
  - constructor; [done|]. eapply Forall_impl; [exact IHf|]. by intros x [? _].
  - constructor; [done|]. eapply Forall_impl; [exact IHf|]. intros x [Hx ?]. split; [|done].
    destruct lo; simpl in *; lia.
Qed.

Lemma kids_impl (P' : subtree) lo hi ks cs l ns :
  kids P lo hi ks cs l ns →
  (∀ lo hi c l' ns', P lo hi c l' ns' → ns' ⊆ ns → P' lo hi c l' ns') → kids P' lo hi ks cs l ns.
Proof.
  induction 1 as [|lo hi k ks c cs l l' ns ns' Ho Hb HP HK IH]; intros Himp.
  - constructor. by apply Himp.
  - constructor; [done|done|apply Himp; [done|set_solver]|].
    apply IH. intros lo1 hi1 c1 l1 ns1 H1 Hs. apply Himp; [done|set_solver].
Qed.

(** A property of all subtrees holds of what they hold together. *)
Lemma kids_sorted lo hi ks cs l ns :
  (∀ lo hi c l ns, P lo hi c l ns → StronglySorted Z.lt (flat l).*1 ∧ Forall (within lo hi) (flat l).*1) →
  kids P lo hi ks cs l ns →
  StronglySorted Z.lt (flat l).*1 ∧ Forall (within lo hi) (flat l).*1.
Proof.
  intros HP. induction 1 as [|lo hi k ks c cs l l' ns ns' Ho Hb H1 HK [IHs IHf]]; [by eapply HP|].
  apply HP in H1 as [Hs Hf]. rewrite flat_app, keys_app. split.
  - apply StronglySorted_app_2; [|done|done].
    intros x y Hx Hy. rewrite Forall_forall in Hf, IHf.
    destruct (Hf x Hx) as [_ ?], (IHf y Hy) as [? _]. simpl in *. lia.
  - apply Forall_app. split; eapply Forall_impl; [exact Hf| |exact IHf|]; simpl; intros x Hx.
    + by eapply within_l.
    + eapply within_r; [done|by apply over_above].
Qed.

Lemma kids_pages lo hi ks cs l ns Q :
  kids P lo hi ks cs l ns → (∀ lo hi c l' ns', P lo hi c l' ns' → Forall Q ns') → Forall Q ns.
Proof.
  induction 1 as [|lo hi k ks c cs l l' ns ns' Ho Hb H1 HK IH]; intros HQ; [by eapply HQ|].
  apply Forall_app. split; [by eapply HQ|by apply IH].
Qed.

(** Cutting the children at a separator. *)
Lemma kids_cut lo hi ks1 up ks2 cs l ns :
  kids P lo hi (ks1 ++ up :: ks2) cs l ns →
  ∃ l1 l2 n1 n2, l = l1 ++ l2 ∧ ns = n1 ++ n2 ∧ over lo up ∧ below hi up ∧
    kids P lo (Some up) ks1 (take (S (length ks1)) cs) l1 n1 ∧
    kids P (Some up) hi ks2 (drop (S (length ks1)) cs) l2 n2.
Proof.
  revert lo cs l ns. induction ks1 as [|k ks1 IH]; intros lo cs l ns H; inversion H as [|? ? ? ? ? ? ? ? ? ? Ho Hb HP HK]; subst.
  - eexists _, _, _, _. split_and!; [done|done|done|done|by constructor|done].
  - destruct (IH _ _ _ _ HK) as (l1&l2&n1&n2&->&->&Ho'&Hb'&K1&K2).
    eexists _, l2, _, n2. split_and!; [apply app_assoc|apply app_assoc| |done| |done].
    + destruct lo; simpl in *; lia.
    + simpl. constructor; done.
Qed.
(** Joining children at a separator. *)
Lemma kids_join lo k hi ks1 cs1 l1 n1 ks2 cs2 l2 n2 :
  kids P lo (Some k) ks1 cs1 l1 n1 → kids P (Some k) hi ks2 cs2 l2 n2 → over lo k → below hi k →
  kids P lo hi (ks1 ++ k :: ks2) (cs1 ++ cs2) (l1 ++ l2) (n1 ++ n2).
Proof.
  intros H. remember (Some k) as hk eqn:E. revert E.
  induction H as [lo ? c l ns HP|lo ? k1 ks c cs l l' ns ns' Ho Hb HP HK IH]; intros -> K2 Hk Hh; simpl.
  - by constructor.
  - rewrite <-!app_assoc. simpl in Hb.
    constructor; [done|destruct hi; simpl in *; lia|done|by apply IH].
Qed.
End kids.

(** The child [c] that covers [key]: what is left and right of it, and that any
    list of children with its bounds can take its place. *)
Record focused (P : subtree) lo hi key ks1 ks2 cs1 c cs2 lo' hi' l1 lc l2 n1 nc n2 : Prop := Focused {
  fo_at : P lo' hi' c lc nc;
  fo_in : within lo' hi' key;
  fo_len : length cs1 = length ks1;
  fo_left : Forall (λ k, k ≤ key) ks1;
  fo_right : Forall (λ k, key < k) ks2;
  fo_smaller : Forall (λ k, k < key) (flat l1).*1;
  fo_larger : Forall (λ k, key < k) (flat l2).*1;
  fo_plug (P' : subtree) ks' cs' l' n' :
    (∀ lo hi c l ns, P lo hi c l ns → ns ⊆ n1 ++ n2 → P' lo hi c l ns) →
    kids P' lo' hi' ks' cs' l' n' →
    kids P' lo hi (ks1 ++ ks' ++ ks2) (cs1 ++ cs' ++ cs2) (l1 ++ l' ++ l2) (n1 ++ n' ++ n2) }.

Lemma kids_focus (P : subtree) lo hi ks cs l ns key :
  (∀ lo hi c l ns, P lo hi c l ns → StronglySorted Z.lt (flat l).*1 ∧ Forall (within lo hi) (flat l).*1) →
  kids P lo hi ks cs l ns → within lo hi key →
  ∃ ks1 ks2 cs1 c cs2 lo' hi' l1 lc l2 n1 nc n2,
    ks = ks1 ++ ks2 ∧ cs = cs1 ++ c :: cs2 ∧ l = l1 ++ lc ++ l2 ∧ ns = n1 ++ nc ++ n2 ∧
    focused P lo hi key ks1 ks2 cs1 c cs2 lo' hi' l1 lc l2 n1 nc n2.
Proof.
  intros HP. induction 1 as [lo hi c l ns H1|lo hi k ks c cs l l' ns ns' Ho Hb H1 HK IH]; intros Hin.
  { exists [], [], [], c, [], lo, hi, [], l, [], [], ns, []. rewrite !app_nil_r. split_and!; try done.
    split; try done; try constructor. intros P' ks' cs' l' n' _ HK. by rewrite !app_nil_r. }
  destruct (decide (key < k)) as [Hlt|Hge].
  - exists [], (k :: ks), [], c, cs, lo, (Some k), [], l, l', [], ns, ns'. split_and!; try done.
    destruct (kids_keys _ _ _ _ _ _ _ HK) as [_ Hks].
    destruct (kids_sorted _ _ _ _ _ _ _ HP HK) as [_ Hf]. split; try done.
    + split; [apply Hin|done].
    + constructor; [done|]. eapply Forall_impl; [exact Hks|]. intros x [Hx _]. simpl in Hx. lia.
    + eapply Forall_impl; [exact Hf|]. intros x [Hx _]. simpl in Hx. lia.
    + intros P' ks' cs' l1' n' Hs HK'. simpl. apply kids_join; [done| |done|done].
      eapply kids_impl; [exact HK|]. intros. by apply Hs.
  - destruct IH as (ks1&ks2&cs1&c'&cs2&lo'&hi'&l1&lc&l2&n1&nc&n2&->&->&->&->&[F1 F2 F3 F4 F5 F6 F7 F8]).
    { split; [simpl; lia|apply Hin]. }
    exists (k :: ks1), ks2, (c :: cs1), c', cs2, lo', hi', (l ++ l1), lc, l2, (ns ++ n1), nc, n2.
    rewrite <-!app_assoc. split_and!; try done. split; try done.
    + simpl. by rewrite F3.
    + constructor; [lia|done].
    + rewrite flat_app, keys_app. apply Forall_app. split; [|done].
      destruct (HP _ _ _ _ _ H1) as [_ Hf]. eapply Forall_impl; [exact Hf|]. intros x [_ Hx]. simpl in Hx. lia.
    + intros P' ks' cs' l' n' Hs HK'. simpl. rewrite <-!app_assoc. constructor; [done|done| |].
      * apply Hs; [done|set_solver].
      * apply F8; [|done]. intros. apply Hs; [done|set_solver].
Qed.
(** ** Subtrees *)

Section subtrees.
Context {CP : Caps} {OK : CapsOk}.

(** Occupancy: [rest] for nodes below capacity, [r] for the root, which may be
    less than half full. *)
Definition leaf_fill (rest r : bool) (n : Z) : Prop :=
  (if r then 0 else leafCap / 2) ≤ n ∧ (if rest then n < leafCap else n ≤ leafCap).
Definition internal_fill (rest r : bool) (n : Z) : Prop :=
  (if r then 1 else (internalCap - 1) / 2) ≤ n ∧ (if rest then n < internalCap else n ≤ internalCap).

Fixpoint sub (rest : bool) (pg : Z → option page) (h : nat) (r : bool)
    (lo hi : option Z) (pid : Z) (lvs : list lf) (ns : list Z) : Prop :=
  match h with
  | O => ∃ n es nxt, pg pid = Some n ∧ leaf n es nxt ∧ leaf_fill rest r (len es) ∧
           StronglySorted Z.lt es.*1 ∧ Forall (within lo hi) es.*1 ∧
           lvs = [Lf pid es nxt] ∧ ns = [pid]
  | S h => ∃ n ks cs ns', pg pid = Some n ∧ internal n ks cs ∧ internal_fill rest r (len ks) ∧
             kids (sub rest pg h false) lo hi ks cs lvs ns' ∧ ns = pid :: ns'
  end.

Lemma sub_sorted rest pg h : ∀ r lo hi pid lvs ns,
  sub rest pg h r lo hi pid lvs ns →
  StronglySorted Z.lt (flat lvs).*1 ∧ Forall (within lo hi) (flat lvs).*1.
Proof.
  induction h as [|h IH]; intros r lo hi pid lvs ns.
  - intros (n&es&nxt&_&_&_&Hs&Hf&->&_). unfold flat. simpl. by rewrite app_nil_r.
  - intros (n&ks&cs&ns'&_&_&_&HK&_). eapply kids_sorted; [|exact HK]. intros. by eapply IH.
Qed.

Lemma sub_in rest pg h r lo hi pid lvs ns : sub rest pg h r lo hi pid lvs ns → pid ∈ ns.
Proof. destruct h; [intros (?&?&?&_&_&_&_&_&_&->)|intros (?&?&?&?&_&_&_&_&->)]; set_solver. Qed.

Lemma sub_pages rest pg h : ∀ r lo hi pid lvs ns,
  sub rest pg h r lo hi pid lvs ns → Forall (λ q, is_Some (pg q)) ns.
Proof.
  induction h as [|h IH]; intros r lo hi pid lvs ns.
  - intros (n&es&nxt&Hp&_&_&_&_&_&->). constructor; [eauto|constructor].
  - intros (n&ks&cs&ns'&Hp&_&_&HK&->). constructor; [eauto|].
    eapply kids_pages; [exact HK|]. intros. by eapply IH.
Qed.

(** A subtree depends on its own pages only, and tolerates laxer occupancy. *)
Lemma sub_frame rest rest' pg pg' h : ∀ r lo hi pid lvs ns,
  sub rest pg h r lo hi pid lvs ns → (∀ q, q ∈ ns → pg' q = pg q) → (rest' = true → rest = true) →
  sub rest' pg' h r lo hi pid lvs ns.
Proof.
  induction h as [|h IH]; intros r lo hi pid lvs ns.
  - intros (n&es&nxt&Hp&HL&[F1 F2]&Hs&Hf&->&->) Hq Hr. exists n, es, nxt.
    split_and!; try done; [by rewrite Hq by set_solver|]. split; [done|]. destruct rest, rest'; lia.
  - intros (n&ks&cs&ns'&Hp&HI&[F1 F2]&HK&->) Hq Hr. exists n, ks, cs, ns'.
    split_and!; try done; [by rewrite Hq by set_solver| |].
    + split; [done|]. destruct rest, rest'; lia.
    + eapply kids_impl; [exact HK|]. intros lo1 hi1 c l1 n1 H1 Hn. eapply IH; [done| |done].
      intros q Hq'. apply Hq. set_solver.
Qed.

Lemma sub_leaf_pid rest pg h : ∀ r lo hi pid lvs ns,
  sub rest pg h r lo hi pid lvs ns → Forall (λ l, lpid l ∈ ns ∧ ∃ n, pg (lpid l) = Some n ∧ leaf n (lents l) (lnext l)) lvs.
Proof.
  induction h as [|h IH]; intros r lo hi pid lvs ns.
  - intros (n&es&nxt&Hp&HL&_&_&_&->&->). constructor; [|constructor]. simpl. split; [set_solver|eauto].
  - intros (n&ks&cs&ns'&Hp&_&_&HK&->). clear Hp.
    assert (Forall (λ l, lpid l ∈ ns' ∧ ∃ n, pg (lpid l) = Some n ∧ leaf n (lents l) (lnext l)) lvs) as H.
    { induction HK as [lo hi c l ns1 H1|lo hi k ks c cs l l' ns1 ns2 _ _ H1 HK IHK]; [by eapply IH|].
      apply Forall_app. split; eapply Forall_impl; [by eapply IH| |exact IHK|]; intros x [? ?]; (split; [set_solver|done]). }
    eapply Forall_impl; [exact H|]. intros x [? ?]. split; [set_solver|done].
Qed.

(** Where a descent goes. *)
Lemma child_for_ok rest pg h r lo hi pid lvs ns key :
  sub rest pg (S h) r lo hi pid lvs ns → within lo hi key →
  ∃ n ks1 ks2 cs1 c cs2 lo' hi' l1 lc l2 n1 nc n2,
    pg pid = Some n ∧ internal n (ks1 ++ ks2) (cs1 ++ c :: cs2) ∧
    internal_fill rest r (len (ks1 ++ ks2)) ∧
    lvs = l1 ++ lc ++ l2 ∧ ns = pid :: n1 ++ nc ++ n2 ∧
    BTree.child_for n key = Ret (len ks1, c) ∧
    focused (sub rest pg h false) lo hi key ks1 ks2 cs1 c cs2 lo' hi' l1 lc l2 n1 nc n2.
Proof.
  intros (n&ks&cs&ns'&Hp&HI&Hfill&HK&->) Hin. pose proof HI as [W T C Q A K V]. pose proof caps_lt.
  destruct (kids_keys _ _ _ _ _ _ _ HK) as [Hsort _].
  destruct (kids_focus _ _ _ _ _ _ _ key (λ lo hi c l ns, sub_sorted _ _ _ _ lo hi c l ns) HK Hin)
    as (ks1&ks2&cs1&c&cs2&lo'&hi'&l1&lc&l2&n1&nc&n2&->&->&->&->&F).
  exists n, ks1, ks2, cs1, c, cs2, lo', hi', l1, lc, l2, n1, nc, n2. split_and!; try done.
  destruct (childIndex_ok n (ks1 ++ ks2) key) as (ci&E&Hr&Hle&Hgt); [done|done|done|done|lia|].
  destruct F as [_ _ F3 F4 F5 _ _ _]. rewrite length_app in Hr.
  assert (ci = len ks1) as ->.
  { destruct (decide (ci = len ks1)) as [|Hne]; [done|]. exfalso.
    destruct (decide (ci < len ks1)) as [Hlt|Hge].
    - destruct (lookup_lt_is_Some_2 ks1 (Z.to_nat ci)) as [k Hk]; [lia|].
      specialize (Hgt (Z.to_nat ci) k). rewrite lookup_app_l in Hgt by lia. specialize (Hgt Hk ltac:(lia)).
      rewrite Forall_lookup in F4. specialize (F4 _ _ Hk). simpl in F4. lia.
    - destruct (lookup_lt_is_Some_2 ks2 0) as [k Hk]; [lia|].
      specialize (Hle (length ks1) k). rewrite lookup_app_r in Hle by lia.
      rewrite Nat.sub_diag in Hle. specialize (Hle Hk ltac:(lia)).
      rewrite Forall_lookup in F5. specialize (F5 _ _ Hk). simpl in F5. lia. }
  unfold BTree.child_for. rewrite E. cbn [res_bind]. rewrite childAt_ok; [|done|rewrite length_app in Q; lia].
  cbn [res_bind]. do 2 f_equal. rewrite <-F3. apply V. by apply list_lookup_middle.
Qed.

(** What a leaf answers. *)
Lemma leaf_search n es nxt key :
  leaf n es nxt → StronglySorted Z.lt es.*1 →
  ∃ i, search n key = Ret (i, bool_decide (key ∈ es.*1)) ∧ lower_bound es.*1 key i ∧
    (key ∈ es.*1 → es.*1 !! Z.to_nat i = Some key).
Proof.
  intros [W T C Q X K V] Hs. pose proof caps_lt.
  apply search_ok; rewrite ?length_fmap; done || lia.
Qed.
(** ** Sizes *)

Lemma kids_leaves (P : subtree) lo hi ks cs l ns (a : nat) :
  (∀ lo hi c l ns, P lo hi c l ns → (a ≤ length l ≤ length ns)%nat) → kids P lo hi ks cs l ns →
  (length cs * a ≤ length l ≤ length ns)%nat.
Proof.
  intros HP. induction 1 as [lo hi c l ns H1|lo hi k ks c cs l l' ns ns' _ _ H1 HK IH];
    apply HP in H1; simpl; rewrite ?length_app; lia.
Qed.

(** The fewest children of an inner node that is not the root. *)
Definition min_children : nat := Z.to_nat ((internalCap - 1) / 2 + 1).

Lemma sub_leaves rest pg h : ∀ lo hi pid lvs ns,
  sub rest pg h false lo hi pid lvs ns → (min_children ^ h ≤ length lvs ≤ length ns)%nat.
Proof.
  induction h as [|h IH]; intros lo hi pid lvs ns.
  - intros (n&es&nxt&_&_&_&_&_&->&->). simpl. lia.
  - intros (n&ks&cs&ns'&_&HI&[Hf _]&HK&->). pose proof (in_arity _ _ _ HI) as HA.
    pose proof internal_min. assert (0 ≤ (internalCap - 1) / 2) by (apply Z.div_pos; lia).
    destruct (kids_leaves _ _ _ _ _ _ _ (min_children ^ h) IH HK) as [H1 H2].
    assert (min_children ≤ length cs)%nat as Hm by (unfold min_children; lia).
    simpl length. split; [|lia]. etrans; [|exact H1]. simpl. by apply Nat.mul_le_mono_r.
Qed.

(** Every inner node has two children at least, so there are fewer of them than
    leaves. *)
Lemma kids_nodes (P : subtree) lo hi ks cs l ns :
  (∀ lo hi c l ns, P lo hi c l ns → (S (length ns) ≤ 2 * length l)%nat) → kids P lo hi ks cs l ns →
  (length cs + length ns ≤ 2 * length l)%nat.
Proof.
  intros HP. induction 1 as [lo hi c l ns H1|lo hi k ks c cs l l' ns ns' _ _ H1 HK IH];
    apply HP in H1; simpl; rewrite ?length_app; lia.
Qed.

Lemma sub_nodes rest pg h : ∀ r lo hi pid lvs ns,
  sub rest pg h r lo hi pid lvs ns → (S (length ns) ≤ 2 * length lvs)%nat.
Proof.
  induction h as [|h IH]; intros r lo hi pid lvs ns.
  - intros (n&es&nxt&_&_&_&_&_&->&->). simpl. lia.
  - intros (n&ks&cs&ns'&_&HI&[Hf _]&HK&->). pose proof (in_arity _ _ _ HI) as HA.
    pose proof internal_min. assert (1 ≤ (internalCap - 1) / 2) by (apply Z.div_le_lower_bound; lia).
    pose proof (kids_nodes _ _ _ _ _ _ _ (IH false) HK). simpl length. destruct r; lia.
Qed.

Lemma root_leaves rest pg h lo hi pid lvs ns :
  sub rest pg h true lo hi pid lvs ns →
  (length lvs ≤ length ns)%nat ∧ (0 < h → 2 * min_children ^ (h - 1) ≤ length lvs)%nat.
Proof.
  destruct h as [|h].
  - intros (n&es&nxt&_&_&_&_&_&->&->). simpl. split; [lia|]. lia.
  - intros (n&ks&cs&ns'&_&HI&[Hf _]&HK&->). pose proof (in_arity _ _ _ HI) as HA.
    destruct (kids_leaves _ _ _ _ _ _ _ (min_children ^ h) (sub_leaves _ _ _) HK) as [H1 H2].
    simpl length. split; [lia|]. intros _. rewrite Nat.sub_succ, Nat.sub_0_r. etrans; [|exact H1].
    apply Nat.mul_le_mono_r. lia.
Qed.

Lemma kids_Forall (P : subtree) (Q : lf → Prop) lo hi ks cs l ns :
  (∀ lo hi c l ns, P lo hi c l ns → Forall Q l) → kids P lo hi ks cs l ns → Forall Q l.
Proof.
  intros HP. induction 1 as [lo hi c l ns H1|lo hi k ks c cs l l' ns ns' _ _ H1 HK IH]; [by eapply HP|].
  apply Forall_app. split; [by eapply HP|done].
Qed.

(** Leaves below the root are at least half full. *)
Definition half_full (l : lf) : Prop := leafCap / 2 ≤ len (lents l).

Lemma sub_half rest pg h : ∀ lo hi pid lvs ns,
  sub rest pg h false lo hi pid lvs ns → Forall half_full lvs.
Proof.
  induction h as [|h IH]; intros lo hi pid lvs ns.
  - intros (n&es&nxt&_&_&[Hf _]&_&_&->&->). by repeat constructor.
  - intros (n&ks&cs&ns'&_&_&_&HK&->). eapply kids_Forall; [exact IH|exact HK].
Qed.
Lemma root_half rest pg h lo hi pid lvs ns :
  sub rest pg (S h) true lo hi pid lvs ns → Forall half_full lvs.
Proof. intros (n&ks&cs&ns'&_&_&_&HK&->). eapply kids_Forall; [apply sub_half|exact HK]. Qed.

Lemma half_entries lvs : Forall half_full lvs → leafCap / 2 * len lvs ≤ len (flat lvs).
Proof.
  induction 1 as [|l lvs Hl Hls IH]; [simpl; lia|]. rewrite flat_cons, length_app. unfold half_full in Hl.
  simpl length. lia.
Qed.
End subtrees.
End BTreeInv.
