(* ===== verification/BTreeSpec.v ===== *)
(** * The B+Tree implements an ordered map

    Over any pager: [tree] is the invariant of an index file and its abstraction
    to a sorted list of entries; lookups, range scans, insertions (with splits
    at every level) and the creation of a file are proved against it, failures
    included. *)

From S2P Require Import Prelude Bytes PageLayout SlottedPage Disk LRU BufferPool BufferInv PoolSpec Pager Callback Heap BTreeNode BTree BTreeInv.

Module BTreeSpec.
Import Node BTree BTreeInv Callback.
Import MetaPage(metaPID, metaMagic).

(** ** The abstract map *)

Abbreviation entries := (list (Z * TID)).
Definition as_map (es : entries) : gmap Z TID := list_to_map es.

(** The answer of a lookup: the zero TID when the key is absent. *)
Definition answer (m : gmap Z TID) (key : Z) : TID * bool :=
  match m !! key with Some t => (t, true) | None => (Tid 0 0, false) end.

Lemma as_map_None es key : as_map es !! key = None ↔ key ∉ es.*1.
Proof. symmetry. apply not_elem_of_list_to_map. Qed.

Lemma as_map_app a b key : as_map (a ++ b) !! key = as_map a !! key ∪ as_map b !! key.
Proof. unfold as_map. by rewrite list_to_map_app, lookup_union. Qed.

(** Only the leaf that covers the key matters. *)
Lemma as_map_focus a m b key :
  Forall (λ k, k < key) a.*1 → Forall (λ k, key < k) b.*1 → as_map (a ++ m ++ b) !! key = as_map m !! key.
Proof.
  intros Ha Hb. rewrite !as_map_app.
  assert (as_map a !! key = None) as ->.
  { apply as_map_None. intros Hk. rewrite Forall_forall in Ha. specialize (Ha _ Hk). simpl in Ha. lia. }
  assert (as_map b !! key = None) as ->.
  { apply as_map_None. intros Hk. rewrite Forall_forall in Hb. specialize (Hb _ Hk). simpl in Hb. lia. }
  by destruct (as_map m !! key).
Qed.

Lemma sorted_NoDup ks : StronglySorted Z.lt ks → NoDup ks.
Proof.
  induction 1 as [|x ks Hs IH Hx]; constructor; [|done]. intros Hin.
  rewrite Forall_forall in Hx. specialize (Hx _ Hin). lia.
Qed.

Lemma as_map_lookup es i key t :
  StronglySorted Z.lt es.*1 → es.*1 !! i = Some key → es.*2 !! i = Some t → as_map es !! key = Some t.
Proof.
  intros Hs Hk Ht. apply elem_of_list_to_map; [by apply sorted_NoDup|].
  rewrite list_lookup_fmap in Hk. rewrite list_lookup_fmap in Ht. destruct (es !! i) as [[k' t']|] eqn:E; [|done].
  simpl in *. simplify_eq. by eapply list_elem_of_lookup_2.
Qed.

Lemma as_map_insert a b key t :
  key ∉ (a ++ b).*1 → as_map (a ++ (key, t) :: b) = <[key := t]> (as_map (a ++ b)).
Proof.
  intros Hn. unfold as_map. rewrite !list_to_map_app. simpl.
  rewrite insert_union_r; [done|]. apply not_elem_of_list_to_map. rewrite keys_app in Hn. set_solver.
Qed.

(** ** Ranges *)

Definition from (lo : Z) (es : entries) : entries := filter (λ e, lo ≤ e.1) es.
Definition upto (hi : Z) (es : entries) : entries := filter (λ e, e.1 ≤ hi) es.
(** The entries with [lo <= key <= hi], in key order. *)
Definition range (lo hi : Z) (es : entries) : entries := upto hi (from lo es).

Lemma from_app lo a b : from lo (a ++ b) = from lo a ++ from lo b.
Proof. apply filter_app. Qed.
Lemma upto_app hi a b : upto hi (a ++ b) = upto hi a ++ upto hi b.
Proof. apply filter_app. Qed.
Lemma from_all lo es : Forall (λ k, lo ≤ k) es.*1 → from lo es = es.
Proof. intros H. apply filter_all. rewrite Forall_fmap, Forall_forall in H. exact H. Qed.
Lemma from_none lo es : Forall (λ k, k < lo) es.*1 → from lo es = [].
Proof.
  intros H. apply filter_none. rewrite Forall_fmap in H. eapply Forall_impl; [exact H|]. simpl. lia.
Qed.
Lemma upto_none hi es : Forall (λ k, hi < k) es.*1 → upto hi es = [].
Proof.
  intros H. apply filter_none. rewrite Forall_fmap in H. eapply Forall_impl; [exact H|]. simpl. lia.
Qed.

(** Where the search for [lo] starts is where the range starts. *)
Lemma from_drop lo es i : lower_bound es.*1 lo i → from lo es = drop (Z.to_nat i) es.
Proof.
  intros [Hr Hb Ha]. rewrite <-(take_drop (Z.to_nat i) es) at 1. rewrite length_fmap in Hr.
  rewrite from_app, from_none, from_all; [done| |]; apply Forall_lookup; intros j k Hj; rewrite list_lookup_fmap in Hj.
  - destruct (drop (Z.to_nat i) es !! j) as [e|] eqn:E; [|done]. rewrite lookup_drop in E.
    apply (Ha (Z.to_nat i + j)%nat); [by rewrite list_lookup_fmap, E|lia].
  - destruct (take (Z.to_nat i) es !! j) as [e|] eqn:E; [|done]. apply lookup_take_Some in E as [E Hlt].
    apply (Hb j); [by rewrite list_lookup_fmap, E|lia].
Qed.

Section proofs.
Context {W : Type} {PW : Pager W} {VW : PagerView W} {SW : PagerSpec W}.
Context {CP : Caps} {OK : CapsOk}.

(** A step that changed nothing a caller can see. *)
Record quiet (s s' : W) : Prop := Quiet {
  q_inv : p_inv ∅ s';
  q_same : p_same s s';
  q_healthy : p_healthy s → p_healthy s' }.

Lemma quiet_trans a b c : quiet a b → quiet b c → quiet a c.
Proof. intros [_ S1 H1] [I2 S2 H2]. split; [done|by etrans|auto]. Qed.

(** The pager can serve a page. *)
Definition able (s : W) : Prop := p_healthy s ∧ (0 < p_room s)%nat.
Lemma quiet_able s s' : quiet s s' → able s → able s'.
Proof. intros [I S H] [? ?]. split; [auto|]. rewrite (ps_room _ _ S). lia. Qed.

Lemma unpin_then_ok {A} pid d (r : res A) s s' x :
  UnpinPage pid d s = (s', Ret x) → unpin_then pid d r s = (s', r).
Proof. intros E. unfold unpin_then. by rewrite (Heap.ignore_ret _ _ _ _ E). Qed.

Lemma page_id M s pid n : p_inv M s → p_page s pid = Some n → 0 ≤ pid < p_count s.
Proof. intros I Hp. apply (page_ok M s pid I). eauto. Qed.

(** Fetching a page to read it. *)
Lemma visit s pid n :
  p_inv ∅ s → p_page s pid = Some n →
  (∃ s1 f s2, FetchPage pid s = (s1, Ret f) ∧ load f s1 = n ∧ quiet s s2 ∧
     ∀ A (r : res A), unpin_then pid false r s1 = (s2, r)) ∨
  (∃ s1 e, FetchPage pid s = (s1, Fail e) ∧ quiet s s1 ∧ ¬ able s).
Proof.
  intros I Hp. pose proof (page_id _ _ _ _ I Hp) as Hr. destruct (FetchPage pid s) as [s1 rf] eqn:EF.
  destruct (fetch_ok ∅ s pid s1 rf I ltac:(lia) EF) as (I1&Hrf&Hheal).
  destruct rf as [f|e|]; [left|right|done].
  - destruct Hrf as (V1&At1&L1&R1). destruct (UnpinPage pid false s1) as [s2 ru] eqn:EU.
    destruct (fetch_unpin ∅ s pid s1 f s2 ru I) as (->&I2&S2&H2); [lia|set_solver|done|done|].
    exists s1, f, s2. split_and!; [done|congruence|by split|]. intros A r. by eapply unpin_then_ok.
  - destruct Hrf as [V R]. exists s1, e. split_and!; [done| |].
    + split; [done|by eapply moved_same|]. intros ?. by apply Hheal.
    + intros [Hh Hroom]. destruct (Hheal Hh) as [_ Hret]. by specialize (Hret Hr Hroom).
Qed.

Lemma sub_same rest s s' h r lo hi pid lvs ns :
  quiet s s' → sub rest (p_page s) h r lo hi pid lvs ns → sub rest (p_page s') h r lo hi pid lvs ns.
Proof. intros [_ S _] H. eapply sub_frame; [done| |done]. intros q _. apply (ps_page _ _ S). Qed.

(** ** Search *)

(** A read gives [x] or a fetch error, never an error when the pager is able. *)
Definition reads {A} (s s' : W) (r : res A) (x : A) : Prop :=
  quiet s s' ∧ (r = Ret x ∨ (∃ e, r = Fail e) ∧ ¬ able s).

Lemma reads_after {A} s s1 s' (r : res A) x : quiet s s1 → reads s1 s' r x → reads s s' r x.
Proof.
  intros Q [Q' Hr]. split; [by eapply quiet_trans|].
  destruct Hr as [|[He Hn]]; [by left|right]. split; [done|]. intros Ha. apply Hn. by eapply quiet_able.
Qed.

Lemma search_leaf_ok n es nxt key :
  leaf n es nxt → StronglySorted Z.lt es.*1 → search_leaf n key = Ret (answer (as_map es) key).
Proof.
  intros L Hs. unfold search_leaf. destruct (leaf_search _ _ _ key L Hs) as (i&->&[Hr _ _]&Hin).
  destruct L as [W0 T C Q X K V]. cbn [res_bind]. unfold answer. rewrite length_fmap in Hr.
  destruct (decide (key ∈ es.*1)) as [Hk|Hk].
  - rewrite bool_decide_eq_true_2 by done. specialize (Hin Hk). pose proof (lookup_lt_Some _ _ _ Hin) as Hlt.
    rewrite length_fmap in Hlt. rewrite tidAt_ok by (done || lia). cbn [res_bind].
    destruct (lookup_lt_is_Some_2 es.*2 (Z.to_nat i)) as [t Ht]; [by rewrite length_fmap|].
    rewrite (as_map_lookup _ _ _ _ Hs Hin Ht). rewrite <-(V _ _ Ht). do 3 f_equal. lia.
  - rewrite bool_decide_eq_false_2 by done. apply as_map_None in Hk. by rewrite Hk.
Qed.

Lemma Search_loop_ok rest h : ∀ fuel s r lo hi pid lvs ns key,
  p_inv ∅ s → sub rest (p_page s) h r lo hi pid lvs ns → within lo hi key → (h < fuel)%nat →
  ∃ s' x, Search_loop fuel pid key s = Some (s', x) ∧ reads s s' x (answer (as_map (flat lvs)) key).
Proof.
  induction h as [|h IH]; intros fuel s r lo hi pid lvs ns key I HS Hin Hf;
    (destruct fuel as [|fuel]; [lia|]); simpl Search_loop.
  - destruct HS as (n&es&nxt&Hp&HL&_&Hs&_&->&_).
    destruct (visit _ _ _ I Hp) as [(s1&f&s2&->&->&Q&HU)|(s1&e&->&Q&Hn)].
    2:{ eexists _, _. split; [done|]. split; [done|]. right. eauto. }
    rewrite (leaf_isLeaf _ _ _ HL), (search_leaf_ok _ _ _ key HL Hs), HU.
    eexists _, _. split; [done|]. split; [done|]. left. unfold flat. simpl. by rewrite app_nil_r.
  - destruct (child_for_ok _ _ _ _ _ _ _ _ _ _ HS Hin)
      as (n&ks1&ks2&cs1&c&cs2&lo'&hi'&l1&lc&l2&n1&nc&n2&Hp&HI&_&->&->&HC&F).
    destruct (visit _ _ _ I Hp) as [(s1&f&s2&->&->&Q&HU)|(s1&e&->&Q&Hn)].
    2:{ eexists _, _. split; [done|]. split; [done|]. right. eauto. }
    rewrite (internal_isLeaf _ _ _ HI), HC, HU. destruct F as [F1 F2 _ _ _ F6 F7 _].
    destruct (IH fuel s2 false lo' hi' c lc nc key) as (s'&x&->&Hr); [apply Q|by eapply sub_same|done|lia|].
    exists s', x. split; [done|]. eapply reads_after; [done|].
    unfold answer. rewrite !flat_app, as_map_focus by done. done.
Qed.

(** ** An index file *)

(** The file holds a tree of height [h] rooted at [rt] with leaves [lvs]; its
    pages are the meta page and the nodes [ns], no others. *)
Record tree (rest : bool) (s : W) (rt : Z) (h : nat) (lvs : list lf) (ns : list Z) : Prop := Tree {
  tr_meta : ∃ mp, p_page s metaPID = Some mp ∧ MetaPage.magic mp = metaMagic ∧ MetaPage.root mp = rt;
  tr_sub : sub rest (p_page s) h true None None rt lvs ns;
  tr_pages : ns ≡ₚ seqZ 1 (p_count s - 1);
  tr_chain : linked lvs invalidPID }.

(** The abstraction: a tree of height [h] that holds the entries [es]; [rest]
    when every node is below its capacity. *)
Definition btree (rest : bool) (s : W) (h : nat) (es : entries) : Prop :=
  ∃ rt lvs ns, tree rest s rt h lvs ns ∧ es = flat lvs.

Lemma tree_same rest s s' rt h lvs ns : quiet s s' → tree rest s rt h lvs ns → tree rest s' rt h lvs ns.
Proof.
  intros Q [(mp&Hm&Hg&Hr) HS HP HL]. pose proof (q_same _ _ Q) as S. split.
  - exists mp. by rewrite (ps_page _ _ S).
  - by eapply sub_same.
  - by rewrite (ps_count _ _ S).
  - done.
Qed.

Lemma root_read s mp :
  p_inv ∅ s → p_page s metaPID = Some mp → ∃ s' x, root s = (s', x) ∧ reads s s' x (MetaPage.root mp).
Proof.
  intros I Hm. unfold root.
  destruct (visit _ _ _ I Hm) as [(s1&f&s2&->&->&Q&HU)|(s1&e&->&Q&Hn)].
  - rewrite HU. eexists _, _. split; [done|]. split; [done|by left].
  - eexists _, _. split; [done|]. split; [done|]. right. eauto.
Qed.

Lemma root_ok rest s rt h lvs ns :
  p_inv ∅ s → tree rest s rt h lvs ns → ∃ s' x, root s = (s', x) ∧ reads s s' x rt.
Proof. intros I [(mp&Hm&_&<-) _ _ _]. by apply root_read. Qed.

(** The root read, then something that reads. *)
Lemma Search_ok rest s rt h lvs ns fuel key :
  p_inv ∅ s → tree rest s rt h lvs ns → (h < fuel)%nat →
  ∃ s' x, Search fuel key s = Some (s', x) ∧ reads s s' x (answer (as_map (flat lvs)) key).
Proof.
  intros I T Hf. unfold Search. destruct (root_ok _ _ _ _ _ _ I T) as (s1&x1&->&[Q Hx]).
  destruct Hx as [->|[(e&->) Hn]].
  - destruct (Search_loop_ok rest h fuel s1 true None None rt lvs ns key) as (s'&x&->&Hr);
      [apply Q|eapply sub_same; [done|apply T]|done|done|].
    exists s', x. split; [done|by eapply reads_after].
  - eexists _, _. split; [done|]. split; [done|]. right. eauto.
Qed.
(** ** Range scans *)

(** [l] is the leaf of [lvs] that covers [key]. *)
Definition covers (lvs l1 : list lf) (l : lf) (l2 : list lf) (key : Z) : Prop :=
  lvs = l1 ++ l :: l2 ∧ Forall (λ k, k < key) (flat l1).*1 ∧ Forall (λ k, key < k) (flat l2).*1.

Lemma findLeaf_loop_ok rest h : ∀ fuel s r lo hi pid lvs ns key,
  p_inv ∅ s → sub rest (p_page s) h r lo hi pid lvs ns → within lo hi key → (h < fuel)%nat →
  ∃ s' x l1 l l2, findLeaf_loop fuel pid key s = Some (s', x) ∧ reads s s' x (lpid l) ∧ covers lvs l1 l l2 key.
Proof.
  induction h as [|h IH]; intros fuel s r lo hi pid lvs ns key I HS Hin Hf;
    (destruct fuel as [|fuel]; [lia|]); simpl findLeaf_loop.
  - destruct HS as (n&es&nxt&Hp&HL&_&Hs&_&->&_).
    assert (covers [Lf pid es nxt] [] (Lf pid es nxt) [] key) as HCov by (split_and!; [done|constructor..]).
    destruct (visit _ _ _ I Hp) as [(s1&f&s2&->&->&Q&HU)|(s1&e&->&Q&Hn)].
    + rewrite (leaf_isLeaf _ _ _ HL), HU.
      eexists _, _, _, _, _. split_and!; [done| |exact HCov]. split; [done|by left].
    + eexists _, _, _, _, _. split_and!; [done| |exact HCov]. split; [done|right; eauto].
  - destruct (child_for_ok _ _ _ _ _ _ _ _ _ _ HS Hin)
      as (n&ks1&ks2&cs1&c&cs2&lo'&hi'&l1&lc&l2&n1&nc&n2&Hp&HI&_&->&->&HC&[F1 F2 _ _ _ F6 F7 _]).
    assert (∀ a l b, covers lc a l b key → covers (l1 ++ lc ++ l2) (l1 ++ a) l (b ++ l2) key) as HCov.
    { intros a l b (->&?&?). split_and!; [by rewrite <-!app_assoc|..];
        rewrite flat_app, keys_app; by apply Forall_app. }
    destruct (visit _ _ _ I Hp) as [(s1&f&s2&->&->&Q&HU)|(s1&e&->&Q&Hn)].
    + rewrite (internal_isLeaf _ _ _ HI), HC, HU.
      destruct (IH fuel s2 false lo' hi' c lc nc key) as (s'&x&a&l&b&->&Hr&Hcov);
        [apply Q|by eapply sub_same|done|lia|].
      eexists _, _, _, _, _. split_and!; [done|by eapply reads_after|by apply HCov].
    + destruct (IH (S h) s false lo' hi' c lc nc key) as (s'&x&a&l&b&_&_&Hcov); [done..|lia|].
      eexists _, _, _, _, _. split_and!; [done| |by apply HCov]. split; [done|right; eauto].
Qed.

(** The page id a chain starts with. *)
Definition start (lvs : list lf) : Z := match lvs with l :: _ => lpid l | [] => invalidPID end.

(** The leaves of a chain are on their pages. *)
Definition on_pages (s : W) (l : lf) : Prop :=
  lpid l ≠ invalidPID ∧ ∃ n, p_page s (lpid l) = Some n ∧ leaf n (lents l) (lnext l).

Lemma quiet_kept s s' : quiet s s' → p_kept s s'.
Proof. intros [I S H]. by apply same_kept. Qed.

Section scan.
Context {A : Type} {s0 : W} {L : entries} {fn : callback W (Z * TID) A}.
Context {J : entries → W → A → Prop} {E : entries → error → W → A → Prop} (LI : loop_inv s0 L fn J E).

(** [scanLeaf] on a sorted leaf; it says done when the rest is beyond [hi]. *)
Lemma scanLeaf_loop_ok pid f n es nxt hi es2 : ∀ todo es1 pre s a,
  leaf n es nxt → es = es1 ++ es2 → StronglySorted Z.lt es2.*1 → held s0 pid f n s →
  pre ++ upto hi es2 `prefix_of` L → J pre s a → (length es2 < todo)%nat →
  ∃ fin, scanLeaf_loop todo f (len es1) hi fn (s, a) =
    (let '(sa, r) := feed fn (upto hi es2) (s, a) in (sa, let! _ := r in Ret fin)) ∧
    (fin = true → ∃ k, k ∈ es2.*1 ∧ hi < k).
Proof.
  induction es2 as [|[k t] es2 IH]; intros todo es1 pre s a Lf He Hs Hh Hl HJ Hto;
    (destruct todo as [|todo]; [simpl in Hto; lia|]); simpl scanLeaf_loop;
    pose proof Hh as (D&_&_&->); pose proof Lf as [Wn T C Q X K V]; pose proof caps_lt; rewrite C, He, length_app.
  { rewrite Nat.add_0_r, Z.ltb_irrefl. by exists false. }
  assert (len es = len es1 + 1 + len es2) as Hlen by (rewrite He, length_app; simpl; lia). simpl length.
  rewrite (proj2 (Z.ltb_lt _ _)) by lia. rewrite keyAt_ok by (done || lia).
  assert (kget n (len es1) = k) as ->.
  { apply K. rewrite He, keys_app. rewrite <-(length_fmap fst es1). by apply list_lookup_middle. }
  destruct (Z.ltb_spec hi k) as [Hlt|Hle].
  - exists true. apply StronglySorted_inv in Hs as [_ Hs].
    rewrite upto_none; [split; [done|]; intros _; exists k; split; [set_solver|done]|].
    constructor; [done|]. eapply Forall_impl; [exact Hs|]. simpl. intros x Hx. lia.
  - rewrite tidAt_ok by (done || lia).
    assert (tget n (len es1) = t) as ->.
    { apply V. rewrite He, fmap_app. rewrite <-(length_fmap snd es1). by apply list_lookup_middle. }
    unfold upto in Hl |- *. rewrite filter_cons, decide_True in Hl |- * by done. fold (upto hi es2) in Hl |- *.
    apply prefix_snoc in Hl as [Hx Hl]. simpl feed. unfold st_bind.
    destruct (fn (k, t) (s, a)) as [[s1 a1] r] eqn:EF.
    destruct (li_call _ _ _ _ _ LI _ _ _ _ _ _ _ D Hx HJ EF) as [HK Hr].
    destruct r as [u|e|]; [|by exists false|done]. rewrite u16_small by lia.
    apply StronglySorted_inv in Hs as [Hs _]. simpl in Hto.
    destruct (IH todo (es1 ++ [(k, t)]) (pre ++ [(k, t)]) s1 a1) as (fin&Eq&Hfin);
      [done|by rewrite <-app_assoc|done|by eapply held_kept|done|done|lia|].
    rewrite length_app in Eq. simpl in Eq. rewrite Nat2Z.inj_add in Eq.
    exists fin. split; [exact Eq|]. intros Hf. destruct (Hfin Hf) as (k'&?&?). exists k'. split; [set_solver|done].
Qed.

Lemma scanLeaf_ok pid f n es nxt i hi pre s a :
  leaf n es nxt → StronglySorted Z.lt es.*1 → 0 ≤ i ≤ len es → held s0 pid f n s →
  pre ++ upto hi (drop (Z.to_nat i) es) `prefix_of` L → J pre s a →
  ∃ fin, scanLeaf f i hi fn (s, a) =
    (let '(sa, r) := feed fn (upto hi (drop (Z.to_nat i) es)) (s, a) in (sa, let! _ := r in Ret fin)) ∧
    (fin = true → ∃ k, k ∈ es.*1 ∧ hi < k).
Proof.
  intros Lf Hs Hi Hh Hl HJ. pose proof (lf_cap _ _ _ Lf). pose proof caps_lt.
  destruct (scanLeaf_loop_ok pid f n es nxt hi (drop (Z.to_nat i) es) (Z.to_nat (65536 - i))
    (take (Z.to_nat i) es) pre s a Lf) as (fin&Eq&Hf); [by rewrite take_drop| |done|done|done| |].
  - rewrite <-(take_drop (Z.to_nat i) es), keys_app in Hs. by eapply StronglySorted_app_1_r.
  - rewrite length_drop. lia.
  - unfold scanLeaf. rewrite length_take in Eq.
    replace (Z.of_nat (Z.to_nat i `min` length es)) with i in Eq by lia.
    exists fin. split; [done|]. intros Ht. destruct (Hf Ht) as (k&Hk&?). exists k. split; [|done].
    rewrite fmap_drop in Hk. apply list_elem_of_lookup in Hk as [j Hj]. rewrite lookup_drop in Hj.
    by eapply list_elem_of_lookup_2.
Qed.

(** A scan cut short by a page it could not fetch. *)
Definition scan_cut (pre l : entries) (s : W) (a : A) (r : res unit) : Prop :=
  ∃ l1 l2 e, l = l1 ++ l2 ∧ J (pre ++ l1) s a ∧ r = Fail e.

(** What a scan did: it handed out [l] after [pre], or was cut short. *)
Definition scans (pre l : entries) (s s' : W) (a' : A) (r : res unit) : Prop :=
  p_inv ∅ s' ∧ p_kept s s' ∧ (ran J E pre l s' a' r ∨ scan_cut pre l s' a' r ∧ ¬ able s0).

Lemma kept_able s : p_kept s0 s → able s0 → able s.
Proof. intros [I P N At C R H] [? ?]. split; [auto|lia]. Qed.

Lemma scans_stop s1 s e pre l a :
  p_kept s0 s1 → quiet s1 s → ¬ able s1 → J pre s1 a → scans pre l s1 s a (Fail e).
Proof.
  intros K Q Hn HJ. split_and!; [apply Q|by apply quiet_kept|]. right. split; [|intros ?; apply Hn; by apply kept_able].
  exists [], l, e. split_and!; [done| |done]. rewrite app_nil_r. eapply (li_step _ _ _ _ _ LI); [apply Q| |done].
  by apply (q_same _ _ Q).
Qed.

Lemma scans_after pre l1 l2 s s1 s' a' r :
  p_kept s s1 → scans (pre ++ l1) l2 s1 s' a' r → scans pre (l1 ++ l2) s s' a' r.
Proof.
  intros K (I'&K'&Hr). split_and!; [done|by etrans|].
  destruct Hr as [Hr|[(p&q&e&->&HJ&->) Hn]]; [left; by apply ran_app|right; split; [|done]].
  exists (l1 ++ p), q, e. split_and!; [by rewrite app_assoc|by rewrite app_assoc|done].
Qed.

(** One leaf: fetch it, hand out its entries from [lo] on, release it. *)
Lemma scan_leaf s l n first lo hi pre a s1 rf :
  p_inv ∅ s → p_kept s0 s → p_page s (lpid l) = Some n → leaf n (lents l) (lnext l) →
  StronglySorted Z.lt (lents l).*1 → (first = false → Forall (λ k, lo ≤ k) (lents l).*1) →
  pre ++ range lo hi (lents l) `prefix_of` L → J pre s a → FetchPage (lpid l) s = (s1, rf) →
  (∃ f i s2 a2 s3 r fin, rf = Ret f ∧ nextLeaf (load f s1) = lnext l ∧
     (if first then let! (i, _) := search (load f s1) lo in Ret i else Ret 0) = Ret i ∧
     scanLeaf f i hi fn (s1, a) = ((s2, a2), let! _ := r in Ret fin) ∧
     (∀ X (x : res X), unpin_then (lpid l) false x s2 = (s3, x)) ∧
     p_inv ∅ s3 ∧ p_kept s s3 ∧ ran J E pre (range lo hi (lents l)) s3 a2 r ∧
     (fin = true → ∃ k, k ∈ (lents l).*1 ∧ hi < k)) ∨
  (∃ e, rf = Fail e ∧ quiet s s1 ∧ ¬ able s).
Proof.
  intros I K0 Hp Lf Hs Hfst Hl HJ EF.
  destruct (visit _ _ _ I Hp) as [(s1'&f&s3'&E1&EL&_&_)|(s1'&e&E1&Q&Hn)]; rewrite EF in E1; injection E1 as <- ->;
    [left|right; by exists e].
  destruct (fetch_held _ _ _ _ _ I Hp EF) as [(f'&[= <-]&Hh&O1&V1&R1)|(e&?&_)]; [|done].
  assert (held s0 (lpid l) f n s1) as Hh0 by (destruct Hh as [D ?]; split; [by eapply kept_during|done]).
  apply (li_step _ _ _ _ _ LI _ _ s1) in HJ; [|apply Hh0|done].
  assert (∃ i, (if first then let! (i, _) := search n lo in Ret i else Ret 0) = Ret i ∧ 0 ≤ i ≤ len (lents l) ∧
            from lo (lents l) = drop (Z.to_nat i) (lents l)) as (i&Ei&Hi&Hfrom).
  { destruct first.
    - destruct (leaf_search _ _ _ lo Lf Hs) as (i&->&Hlb&_). exists i.
      pose proof (lb_range _ _ _ Hlb) as Hb. rewrite length_fmap in Hb.
      split_and!; [done|lia|lia|by apply from_drop].
    - exists 0. split_and!; [done|lia|lia|]. rewrite from_all; [done|]. by apply Hfst. }
  unfold range in *. rewrite Hfrom in *.
  destruct (scanLeaf_ok _ _ _ _ _ _ _ _ _ _ Lf Hs Hi Hh0 Hl HJ) as (fin&Es&Hfin).
  destruct (feed_ok LI _ _ _ _ (proj1 Hh0) Hl HJ) as (s2&a2&r&Ef&K2&Hr). rewrite Ef in Es.
  destruct (UnpinPage (lpid l) false s2) as [s3 ru] eqn:EU.
  destruct (release_kept _ _ _ _ _ _ _ _ Hh I V1 R1 K2 EU) as (->&K3&I3&O3).
  exists f, i, s2, a2, s3, r, fin. rewrite EL.
  split_and!; [done|apply Lf|done|done|intros; by eapply unpin_then_ok|done|done| |done].
  by apply (ran_step LI _ _ s2).
Qed.

Lemma Scan_loop_ok lo hi lvs : ∀ fuel s first pre a,
  p_inv ∅ s → p_kept s0 s → Forall (on_pages s) lvs → linked lvs invalidPID → StronglySorted Z.lt (flat lvs).*1 →
  Forall (λ k, lo ≤ k) (flat (tail lvs)).*1 → (first = false → Forall (λ k, lo ≤ k) (flat lvs).*1) →
  pre ++ range lo hi (flat lvs) `prefix_of` L → J pre s a → (length lvs < fuel)%nat →
  ∃ s' a' r, Scan_loop fuel (start lvs) first lo hi fn (s, a) = Some ((s', a'), r) ∧
    scans pre (range lo hi (flat lvs)) s s' a' r.
Proof.
  induction lvs as [|l lvs IH]; intros fuel s first pre a I K0 HP HL Hs Htl Hfst Hpre HJ Hf;
    (destruct fuel as [|fuel]; [simpl in Hf; lia|]); simpl Scan_loop.
  { exists s, a, (Ret tt). split; [done|]. split_and!; [done|reflexivity|left]. simpl. by rewrite app_nil_r. }
  inversion HP as [|? ? [Hnz (n&Hp&Lf)] HP']; subst. destruct HL as [Hnext HL].
  rewrite (proj2 (Z.eqb_neq _ _)) by done. rewrite flat_cons in *. rewrite keys_app in Hs, Hfst.
  pose proof (StronglySorted_app_1_l _ _ _ Hs) as Hs1. pose proof (StronglySorted_app_1_r _ _ _ Hs) as Hs2.
  assert (range lo hi (lents l ++ flat lvs) = range lo hi (lents l) ++ range lo hi (flat lvs)) as Er
    by (unfold range; by rewrite from_app, upto_app).
  rewrite Er in *. destruct (FetchPage (lpid l) s) as [s1 rf] eqn:EF.
  destruct (scan_leaf s l n first lo hi pre a s1 rf I K0 Hp Lf Hs1)
    as [(f&i&s2&a2&s3&r&fin&->&Hn&->&->&HU&I3&K3&Hr&Hfin)|(e&->&Q&Hn)]; [| |done|done| |].
  - intros E0. specialize (Hfst E0). by apply Forall_app in Hfst as [? _].
  - etrans; [|exact Hpre]. rewrite app_assoc. by eexists.
  - rewrite Hn. destruct r as [u|e|]; [|eexists _, _, _; cbn [res_bind]; rewrite HU; split; [done|]|done].
    2:{ split_and!; [done|done|left]. by apply ran_stop. }
    cbn [res_bind]. rewrite HU. destruct fin.
    + destruct (Hfin eq_refl) as (k&Hk&Hgt). exists s3, a2, (Ret tt). split; [done|].
      assert (range lo hi (flat lvs) = []) as ->; [|rewrite app_nil_r; split_and!; [done|done|by left]].
      unfold range. rewrite (from_all lo (flat lvs)) by done. apply upto_none.
      apply Forall_forall. intros k' Hk'. pose proof (StronglySorted_app_1_elem_of _ _ _ _ _ Hs Hk Hk'). lia.
    + destruct (IH fuel s3 false (pre ++ range lo hi (lents l)) a2) as (s'&a'&r&Eq&Hsc).
      * done.
      * by etrans.
      * eapply Forall_impl; [exact HP'|]. intros l' [? (n'&?&?)]. split; [done|]. exists n'.
        by rewrite (kp_page _ _ K3).
      * done.
      * done.
      * simpl in Htl. destruct lvs as [|l' lvs]; [done|]. rewrite flat_cons, keys_app in Htl.
        by apply Forall_app in Htl as [_ ?].
      * done.
      * by rewrite <-app_assoc.
      * done.
      * simpl in Hf. lia.
      * exists s', a', r. split; [|by eapply scans_after]. rewrite <-Eq. f_equal. rewrite Hnext. by destruct lvs.
  - exists s1, a, (Fail (Wrapf "nbtree: scan page" e)). split; [done|by apply scans_stop].
Qed.
End scan.

Lemma Scan_ok {A} rest s rt h lvs ns fuel fuel' lo hi (fn : callback W (Z * TID) A) J E a :
  p_inv ∅ s → tree rest s rt h lvs ns → (h < fuel)%nat → (length lvs < fuel')%nat →
  loop_inv s (range lo hi (flat lvs)) fn J E → J [] s a →
  ∃ s' a' r, Scan fuel fuel' lo hi fn s a = Some ((s', a'), r) ∧
    scans (s0:=s) (J:=J) (E:=E) [] (range lo hi (flat lvs)) s s' a' r.
Proof.
  intros I T Hf Hf' LI HJ. unfold Scan, findLeaf. destruct (root_ok _ _ _ _ _ _ I T) as (s1&x1&->&[Q1 Hx1]).
  destruct Hx1 as [->|[(e&->) Hn]]; [|eexists _, _, _; split; [done|by apply (scans_stop LI)]].
  pose proof (tree_same _ _ _ _ _ _ _ Q1 T) as T1.
  destruct (findLeaf_loop_ok rest h fuel s1 true None None rt lvs ns lo (q_inv _ _ Q1) (tr_sub _ _ _ _ _ _ T1))
    as (s2&x&l1&l&l2&->&[Q2 Hx2]&(Hlvs&Hlt&Hgt)); [done|done|].
  pose proof (quiet_trans _ _ _ Q1 Q2) as Q.
  destruct Hx2 as [->|[(e&->) Hn]].
  2:{ eexists _, _, _; split; [done|]. apply (scans_stop LI); [done|done| |done]. intros Ha. apply Hn. by eapply quiet_able. }
  pose proof (tree_same _ _ _ _ _ _ _ Q T) as [_ HS HP HL].
  destruct (sub_sorted _ _ _ _ _ _ _ _ _ HS) as [Hsort _]. pose proof (sub_leaf_pid _ _ _ _ _ _ _ _ _ HS) as Hpids.
  assert (range lo hi (flat lvs) = range lo hi (flat (l :: l2))) as Er.
  { rewrite Hlvs, flat_app. unfold range. by rewrite from_app, from_none. }
  rewrite Hlvs, flat_app, keys_app in Hsort. rewrite Hlvs, Forall_app in Hpids.
  rewrite Er in LI |- *. destruct (Scan_loop_ok LI lo hi (l :: l2) fuel' s2 true [] a) as (s'&a'&r&Eq&Hsc).
  - apply Q.
  - by apply quiet_kept.
  - eapply Forall_impl; [apply Hpids|]. intros l' [Hin Hpg]. split; [|done].
    rewrite HP in Hin. apply elem_of_seqZ in Hin. unfold invalidPID. lia.
  - clear -HL Hlvs. subst. induction l1 as [|l' l1 IH]; [done|]. apply IH. apply HL.
  - by eapply StronglySorted_app_1_r.
  - simpl. eapply Forall_impl; [exact Hgt|]. simpl. lia.
  - done.
  - done.
  - eapply (li_step _ _ _ _ _ LI); [apply Q|by apply (q_same _ _ Q)|done].
  - rewrite Hlvs, length_app in Hf'. lia.
  - exists s', a', r. split; [done|]. by eapply (scans_after [] []), Hsc; apply quiet_kept.
Qed.

End proofs.
End BTreeSpec.
