(* ===== verification/BTreeInsert.v ===== *)
(** * Insertion into the B+Tree

    [keeps] is what every part of an insertion guarantees about the pager; the
    outcome of [insertInto] on a subtree is [outcome]; the theorems are about
    [Insert] and [NewBTree] on a whole file. *)

From S2P Require Import Prelude Bytes PageLayout SlottedPage Disk LRU BufferPool BufferInv PoolSpec Pager Heap BTreeNode BTree BTreeInv BTreeSpec.

Module BTreeInsert.
Import Node BTree BTreeInv BTreeSpec.
Import MetaPage(metaPID, metaMagic).

(** ** Sorted insertion *)

Lemma insert_at_app {A} i (x : A) l :
  l = take (Z.to_nat i) l ++ drop (Z.to_nat i) l ∧ insert_at i x l = take (Z.to_nat i) l ++ x :: drop (Z.to_nat i) l.
Proof. by rewrite take_drop. Qed.

Lemma sorted_insert ks key i :
  StronglySorted Z.lt ks → lower_bound ks key i → key ∉ ks → StronglySorted Z.lt (insert_at i key ks).
Proof.
  intros Hs [Hr Hb Ha] Hn. unfold insert_at.
  assert (∀ j k, ks !! j = Some k → k ≠ key) as Hne.
  { intros j k Hj ->. apply Hn. by eapply list_elem_of_lookup_2. }
  rewrite <-(take_drop (Z.to_nat i) ks) in Hs.
  apply StronglySorted_app_2; [|by eapply StronglySorted_app_1_l|constructor; [by eapply StronglySorted_app_1_r|]].
  - intros x y Hx Hy. apply list_elem_of_lookup in Hx as [j Hj]. apply lookup_take_Some in Hj as [Hj Hlt].
    pose proof (Hb _ _ Hj ltac:(lia)). apply elem_of_cons in Hy as [->|Hy]; [done|].
    apply list_elem_of_lookup in Hy as [j' Hj']. rewrite lookup_drop in Hj'.
    pose proof (Ha _ _ Hj' ltac:(lia)). lia.
  - apply Forall_lookup. intros j k Hj. rewrite lookup_drop in Hj.
    pose proof (Ha _ _ Hj ltac:(lia)). pose proof (Hne _ _ Hj). lia.
Qed.

Lemma elem_insert_at {A} i (x y : A) l : y ∈ insert_at i x l ↔ y = x ∨ y ∈ l.
Proof.
  unfold insert_at. rewrite <-(take_drop (Z.to_nat i) l) at 3.
  rewrite !elem_of_app, elem_of_cons. tauto.
Qed.

(** ** Adding one entry to the leaves *)

Section added.
Context (key : Z) (tid : TID).

(** [es'] is [es] with the entry somewhere. *)
Definition with_entry (es es' : entries) : Prop := ∃ a b, es = a ++ b ∧ es' = a ++ (key, tid) :: b.

(** One leaf got the entry, and may have been split. *)
Inductive added : list lf → list lf → Prop :=
| added_one l1 p es es' nx l2 :
    with_entry es es' → added (l1 ++ Lf p es nx :: l2) (l1 ++ Lf p es' nx :: l2)
| added_two l1 p es ea eb r nx l2 :
    with_entry es (ea ++ eb) → added (l1 ++ Lf p es nx :: l2) (l1 ++ Lf p ea r :: Lf r eb nx :: l2).

Lemma with_entry_ctx x y es es' : with_entry es es' → with_entry (x ++ es ++ y) (x ++ es' ++ y).
Proof. intros (a&b&->&->). exists (x ++ a), (b ++ y). by rewrite <-!app_assoc. Qed.

Lemma added_ctx x y l l' : added l l' → added (x ++ l ++ y) (x ++ l' ++ y).
Proof.
  destruct 1 as [l1 p es es' nx l2 H|l1 p es ea eb r nx l2 H]; rewrite <-!app_assoc, !(app_assoc x l1); simpl.
  - by apply added_one.
  - by apply added_two.
Qed.

Lemma added_flat l l' : added l l' → with_entry (flat l) (flat l').
Proof.
  destruct 1 as [l1 p es es' nx l2 H|l1 p es ea eb r nx l2 H]; rewrite !flat_app, !flat_cons; simpl.
  - by apply with_entry_ctx.
  - rewrite (app_assoc ea). by apply with_entry_ctx.
Qed.

Lemma added_linked l l' tl : added l l' → linked l tl → linked l' tl.
Proof. destruct 1; [apply linked_replace|apply linked_split]. Qed.
End added.

Section pager.
Context {W : Type} {PW : Pager W} {VW : PagerView W} {SW : PagerSpec W}.

(** ** What an insertion does to the pager *)

(** Existing pages outside [D] are as they were, and every pin is given back. *)
Record keeps (D : list Z) (s s' : W) : Prop := Keeps {
  k_page : ∀ q, q < p_count s → q ∉ D → p_page s' q = p_page s q;
  k_pins : ∀ q, p_pins s' q = p_pins s q;
  k_at : ∀ q, 0 < p_pins s q → p_at s' q = p_at s q;
  k_room : p_room s' = p_room s;
  k_count : p_count s ≤ p_count s';
  k_others : p_others s s';
  k_healthy : p_healthy s → p_healthy s' }.

Lemma keeps_refl D s : keeps D s s.
Proof. split; done || reflexivity. Qed.
Lemma keeps_trans D s1 s2 s3 : keeps D s1 s2 → keeps D s2 s3 → keeps D s1 s3.
Proof.
  intros [P1 N1 A1 R1 C1 O1 H1] [P2 N2 A2 R2 C2 O2 H2]. split; [|..|lia|lia|by etrans|auto].
  - intros q Hq Hd. rewrite P2, P1 by (done || lia). done.
  - intros q. by rewrite N2.
  - intros q Hq. rewrite A2, A1 by (by rewrite ?N1). done.
Qed.
Lemma keeps_weaken D D' s s' : keeps D s s' → D ⊆ D' → keeps D' s s'.
Proof. intros [P N A R C O H] HD. split; try done. intros q Hq Hd. apply P; [done|set_solver]. Qed.

(** A page the code holds: pinned, in frame [f], with contents [n]. *)
Record held (s : W) (pid : Z) (f : nat) (n : page) : Prop := Held {
  h_at : p_at s pid = Some f;
  h_pin : 0 < p_pins s pid;
  h_page : p_page s pid = Some n }.

Lemma held_load M s pid f n : p_inv M s → held s pid f n → load f s = n.
Proof. intros I [A _ P]. apply (at_page _ _ _ _ I) in A. congruence. Qed.

Lemma held_keeps D M s s' pid f n :
  p_inv M s → keeps D s s' → held s pid f n → pid ∉ D → held s' pid f n.
Proof.
  intros I [P N A _ _ _ _] [HA HN HP] Hd. split; [by rewrite A|by rewrite N|].
  rewrite P; [done| |done]. by eapply page_id.
Qed.

(** Writing a held page. *)
Lemma store_held M s pid f n p :
  p_inv M s → held s pid f n → wf_page p →
  p_inv (M ∪ {[f]}) (store f p s) ∧ held (store f p s) pid f p ∧ keeps [pid] s (store f p s) ∧
  p_count (store f p s) = p_count s.
Proof.
  intros I [A N P] Hw. destruct (store_ok _ _ _ _ _ I A N Hw) as (I'&[P' N' A' C' R' H' O']&_).
  split_and!; [done| | |done].
  - split; [by rewrite A'|by rewrite N'|by rewrite P', decide_True].
  - split; try done; try lia. intros q _ Hq. rewrite P', decide_False; [done|]. set_solver.
Qed.

(** Fetching a page to keep it while the rest runs, then releasing it. *)
Lemma bracket D M s pid s1 f s2 d :
  p_inv ∅ s → 0 ≤ pid → FetchPage pid s = (s1, Ret f) →
  keeps D s1 s2 → p_inv M s2 → M ⊆ {[f]} → (d = true ∨ M = ∅) →
  ∃ s3, (∀ A (r : res A), unpin_then pid d r s2 = (s3, r)) ∧ p_inv ∅ s3 ∧ keeps D s s3 ∧
    (∀ q, p_page s3 q = p_page s2 q) ∧ p_count s3 = p_count s2.
Proof.
  intros I Hp EF [P2 N2 A2 R2 C2 O2 H2] I2 HM Hd.
  destruct (fetch_ok _ _ _ _ _ I Hp EF) as (I1&([P1 N1 A1 C1 O1]&At1&L1&R1)&Hh1).
  pose proof (pins_ok _ _ pid I) as Hn.
  assert (p_pins s1 pid = p_pins s pid + 1) as Hpin by (rewrite N1, decide_True; done).
  destruct (UnpinPage pid d s2) as [s3 ru] eqn:EU.
  destruct (unpin_ok M s2 pid f d s3 ru I2) as (->&I3&[P3 N3 A3 C3 O3]&R3&H3);
    [rewrite A2; [done|lia]|rewrite N2; lia|destruct Hd as [->| ->]; [by left|right; left; set_solver]|done|].
  exists s3. split_and!; [intros A r; by eapply unpin_then_ok| | |done|done].
  - replace (if d then M ∖ {[f]} else M) with (∅ : gset nat) in I3; [done|].
    destruct Hd as [->| ->]; [|by destruct d; set_solver]. set_solver.
  - assert (∀ q, p_pins s3 q = p_pins s q) as Hpins by (intros q; rewrite N3, N2, N1; repeat case_decide; lia).
    split; [|done|..|lia|by repeat (etrans; [eassumption|])|intros Hh; by apply H3, H2, Hh1].
    + intros q Hq Hd'. rewrite P3, P2, P1 by (done || lia). done.
    + intros q Hq. assert (0 < p_pins s1 q) by (rewrite N1; repeat case_decide; lia).
      rewrite A3, A2, A1; [done|done|done|done|by rewrite N2|by rewrite Hpins].
    + rewrite R3, R2, N2, Hpin. repeat case_decide; lia.
Qed.
(** Allocating a page, writing it and releasing it. *)
Lemma alloc_ok M s s1 r :
  p_inv M s → NewPageIn s = (s1, r) →
  match r with
  | Ret (rp, rpid) => p_inv M s1 ∧ rpid = p_count s ∧ held s1 rpid rp (zeroes PageSize) ∧ p_count s1 = p_count s + 1 ∧
      (∀ pid f n, held s pid f n → pid ≠ rpid ∧ held s1 pid f n)
  | Fail e => p_inv M s1 ∧ (∀ D, keeps D s s1) ∧ (∀ q, p_page s1 q = p_page s q) ∧ p_count s1 = p_count s ∧
      ¬ (able s ∧ p_count s < Disk.MaxUint32)
  | Panic => False
  end.
Proof.
  intros I EN. destruct (new_ok _ _ _ _ I EN) as (I1&Hr&Hh). destruct r as [[rp rpid]|e|]; [| |done].
  - destruct Hr as ([Hid P N F A C O]&At&L&R). split_and!; [done|done| |done|].
    + split; [done| |by rewrite P, decide_True]. rewrite N, F, decide_True by done. lia.
    + intros pid f n [HA HN HP]. assert (pid ≠ rpid) as Hne.
      { intros ->. pose proof (page_id _ _ _ _ I HP). lia. }
      split; [done|]. split; [by rewrite A|rewrite N, decide_False by done; lia|by rewrite P, decide_False].
  - destruct Hr as [[P N A C O] R]. split_and!; [done| |done|done|].
    + intros D. assert (∀ q, p_pins s1 q = p_pins s q) as N' by (intros q; rewrite N; case_decide; lia).
      split; try done; try lia.
      * intros q Hq. apply A; [done|by rewrite N'].
      * intros ?. by apply Hh.
    + intros [[H1 H2] H3]. destruct (Hh H1) as [_ Hret]. by specialize (Hret H2 H3).
Qed.

Lemma fetch_fail D s pid n s1 e :
  p_inv ∅ s → p_page s pid = Some n → FetchPage pid s = (s1, Fail e) →
  p_inv ∅ s1 ∧ keeps D s s1 ∧ (∀ q, p_page s1 q = p_page s q) ∧ p_count s1 = p_count s ∧ ¬ able s.
Proof.
  intros I Hp EF. pose proof (page_id _ _ _ _ I Hp) as Hr.
  destruct (fetch_ok _ _ _ _ _ I (proj1 Hr) EF) as (I1&([P N A C O]&R)&Hh).
  assert (∀ q, p_pins s1 q = p_pins s q) as N' by (intros q; rewrite N; case_decide; lia).
  split_and!; [done| |done|done|].
  - split; try done; try lia; [|intros ?; by apply Hh]. intros q Hq. apply A; [done|by rewrite N'].
  - intros [H1 H2]. destruct (Hh H1) as [_ Hret]. by specialize (Hret Hr H2).
Qed.

Lemma alloc_bracket d D M M' s s1 rp rpid s2 :
  p_inv M s → NewPageIn s = (s1, Ret (rp, rpid)) →
  keeps (rpid :: D) s1 s2 → p_inv M' s2 → d = true ∨ rp ∉ M' →
  ∃ s3, (∀ A (r : res A), unpin_then rpid d r s2 = (s3, r)) ∧
    p_inv (if d then M' ∖ {[rp]} else M') s3 ∧ keeps D s s3 ∧
    (∀ q, p_page s3 q = p_page s2 q) ∧ p_count s3 = p_count s2.
Proof.
  intros I EN [P2 N2 A2 R2 C2 O2 H2] I2 Hd.
  destruct (new_ok _ _ _ _ I EN) as (I1&([Hid P1 N1 F1 A1 C1 O1]&At1&L1&R1)&Hh1).
  assert (p_pins s1 rpid = 1) as Hpin by (rewrite N1, F1, decide_True; done).
  destruct (UnpinPage rpid d s2) as [s3 ru] eqn:EU.
  destruct (unpin_ok M' s2 rpid rp d s3 ru I2) as (->&I3&[P3 N3 A3 C3 O3]&R3&H3);
    [rewrite A2; [done|lia]|rewrite N2; lia|tauto|done|].
  exists s3. split_and!; [intros A r; by eapply unpin_then_ok|done| |done|lia].
  assert (∀ q, p_pins s3 q = p_pins s q) as Hpins by (intros q; rewrite N3, N2, N1; repeat case_decide; lia).
  split; [|done|..|lia|by repeat (etrans; [eassumption|])|intros Hh; by apply H3, H2, Hh1].
  - intros q Hq Hq'. rewrite P3, P2, P1 by (lia || set_unfold; intros [?|?]; done || lia).
    rewrite decide_False by lia. done.
  - intros q Hq. assert (0 < p_pins s1 q) by (rewrite N1; repeat case_decide; lia).
    rewrite A3, A2, A1; [done|done|done|by rewrite N2|by rewrite Hpins].
  - rewrite R3, R2, N2, Hpin, decide_True by done. lia.
Qed.
Lemma unpinned pid d s s' :
  (∀ A (r : res A), unpin_then pid d r s = (s', r)) → ignore (UnpinPage pid d) s = (s', Ret tt).
Proof.
  intros H. specialize (H unit (Ret tt)). unfold unpin_then, ignore in *.
  destruct (UnpinPage pid d s) as [s0 [| |]]; by simplify_eq.
Qed.

(** Writing one of two held pages, both known to be modified. *)
Lemma store_two D M s pid f n rpid rp r p :
  p_inv M s → held s pid f n → held s rpid rp r → pid ≠ rpid → f ∈ M → pid ∈ D → wf_page p →
  p_inv M (store f p s) ∧ held (store f p s) pid f p ∧ held (store f p s) rpid rp r ∧
  keeps D s (store f p s) ∧ p_count (store f p s) = p_count s.
Proof.
  intros I H1 H2 Hne Hf HD Hw. destruct (store_held _ _ _ _ _ _ I H1 Hw) as (I'&H1'&K&C).
  split_and!; [|done|eapply held_keeps; [exact I|exact K|done|set_solver]
    |eapply keeps_weaken; [exact K|set_solver]|done].
  by replace (M ∪ {[f]}) with M in I' by set_solver.
Qed.
End pager.

Lemma wf_zeroes : wf_page (zeroes PageSize).
Proof. unfold wf_page. by rewrite length_zeroes. Qed.

Section nodes.
Context {W : Type} {PW : Pager W} {VW : PagerView W} {SW : PagerSpec W}.
Context {CP : Caps} {OK : CapsOk}.

(** A leaf with another successor. *)
Lemma leaf_setNext n es nxt p : leaf n es nxt → go_pid p → leaf (setNextLeaf n p) es p.
Proof.
  intros L Hp. destruct (setNextLeaf_ok n p (lf_wf _ _ _ L) Hp) as (X&T&C&A).
  rewrite <-(firstn_all es). eapply leaf_header; [done|done|done|by rewrite C, (lf_count _ _ _ L)|done|done].
Qed.

(** How a split of the page [pid] in frame [f] came out. *)
Definition split_node (s s' : W) (pid : Z) (f : nat) (r : res split) (post : split → page → page → Prop) : Prop :=
  keeps [pid] s s' ∧ (∃ M, p_inv M s' ∧ M ⊆ {[f]}) ∧
  match r with
  | Ret sp => right sp = p_count s ∧ p_count s' = p_count s + 1 ∧
      ∃ n' r', p_page s' pid = Some n' ∧ p_page s' (right sp) = Some r' ∧ post sp n' r'
  | Fail e => (∀ q, p_page s' q = p_page s q) ∧ p_count s' = p_count s ∧ e ≠ ErrDuplicateKey ∧
      ¬ (able s ∧ p_count s < Disk.MaxUint32)
  | Panic => False
  end.

Lemma splitLeafNode_ok s pid f n es nxt s' r :
  p_inv {[f]} s → held s pid f n → leaf n es nxt → len es = leafCap → splitLeafNode f s = (s', r) →
  split_node s s' pid f r (λ sp n' r',
    leaf n' (take (length es / 2) es) (right sp) ∧ leaf r' (drop (length es / 2) es) nxt ∧
    (drop (length es / 2) es).*1 !! 0%nat = Some (sepKey sp)).
Proof.
  intros I H0 L Hcap H. unfold splitLeafNode in H. destruct (NewPageIn s) as [s1 rn] eqn:EN.
  pose proof (alloc_ok _ _ _ _ I EN) as Hrn. pose proof leaf_min as Hlm. pose proof caps_lt as Hcl.
  destruct rn as [[rp rpid]|e|]; [|injection H as <- <-|done].
  2:{ destruct Hrn as (I1&K&P&C&Hn). split_and!; [apply K|eexists; split; [done|done]|done|done|done|done]. }
  destruct Hrn as (I1&Hid&R1&C1&Hold). destruct (Hold _ _ _ H0) as [Hne H1].
  destruct (count_ok _ _ I1) as [Hmax _]. destruct (count_ok _ _ I) as [Hmin _]. unfold Disk.MaxUint32 in Hmax.
  pose proof (leaf_initLeaf _ wf_zeroes) as LZ.
  rewrite (held_load _ _ _ _ _ I1 R1) in H.
  destruct (store_held _ _ _ _ _ _ I1 R1 (lf_wf _ _ _ LZ)) as (I2&R2&K2&C2). set (s2 := store rp _ s1) in *.
  pose proof (held_keeps _ _ _ _ _ _ _ I1 K2 H1 ltac:(set_solver)) as H2.
  rewrite (held_load _ _ _ _ _ I2 R2), (held_load _ _ _ _ _ I2 H2) in H.
  destruct (splitLeaf_ok _ _ _ _ _ L LZ) as (l&rr&E&LL&LR). rewrite E in H.
  destruct (store_two [rpid; pid] _ s2 rpid rp _ pid f _ rr I2 R2 H2) as (I3&R3&H3&K3&C3);
    [done|set_solver|set_solver|apply LR|]. set (s3 := store rp rr s2) in *.
  destruct (store_two [rpid; pid] _ s3 pid f _ rpid rp _ l I3 H3 R3) as (I4&H4&R4&K4&C4);
    [done|set_solver|set_solver|apply LL|]. set (s4 := store f l s3) in *.
  rewrite (held_load _ _ _ _ _ I4 R4), (held_load _ _ _ _ _ I4 H4), (lf_next _ _ _ LL) in H.
  assert (go_pid nxt) as Hnxt.
  { rewrite <-(lf_next _ _ _ L). apply (be_at_range _ 4); [easy|easy|]. rewrite (lf_wf _ _ _ L). easy. }
  pose proof (leaf_setNext _ _ _ nxt LR Hnxt) as LR'.
  assert (go_pid rpid) as Hrp by (unfold go_pid; lia). pose proof (leaf_setNext _ _ _ rpid LL Hrp) as LL'.
  destruct (store_two [rpid; pid] _ s4 rpid rp _ pid f _ (setNextLeaf rr nxt) I4 R4 H4) as (I5&R5&H5&K5&C5);
    [done|set_solver|set_solver|apply LR'|]. set (s5 := store rp (setNextLeaf rr nxt) s4) in *.
  rewrite (held_load _ _ _ _ _ I5 H5) in H.
  destruct (store_two [rpid; pid] _ s5 pid f _ rpid rp _ (setNextLeaf l rpid) I5 H5 R5) as (I6&H6&R6&K6&C6);
    [done|set_solver|set_solver|apply LL'|]. set (s6 := store f (setNextLeaf l rpid) s5) in *.
  rewrite (held_load _ _ _ _ _ I6 R6), keyAt_ok in H; [|apply LR'|lia].
  assert (keeps [rpid; pid] s1 s6) as K.
  { eapply keeps_trans; [eapply keeps_weaken; [exact K2|set_solver]|].
    do 3 (eapply keeps_trans; [eassumption|]). done. }
  destruct (alloc_bracket true [pid] _ _ _ _ _ _ s6 I EN K I6) as (s7&HU&I7&K7&P7&C7); [by left|].
  rewrite HU in H. injection H as <- <-. split_and!; [done|eexists; split; [exact I7|set_solver]|done|lia|].
  exists (setNextLeaf l rpid), (setNextLeaf rr nxt). cbn [right sepKey]. rewrite !P7.
  split_and!; [apply H6|apply R6|done|done|].
  pose proof (Nat.Div0.div_lt_upper_bound (length es) 2 (length es) ltac:(lia)).
  destruct (lookup_lt_is_Some_2 (drop (length es / 2) es).*1 0) as [k Hk]; [rewrite length_fmap, length_drop; lia|].
  rewrite Hk. f_equal. symmetry. apply (lf_keys _ _ _ LR' 0%nat k Hk).
Qed.
Lemma splitInternalNode_ok s pid f n ks cs s' r :
  p_inv {[f]} s → held s pid f n → internal n ks cs → len ks = internalCap → splitInternalNode f s = (s', r) →
  split_node s s' pid f r (λ sp n' r',
    ks = take (length ks / 2) ks ++ sepKey sp :: drop (S (length ks / 2)) ks ∧
    internal n' (take (length ks / 2) ks) (take (S (length ks / 2)) cs) ∧
    internal r' (drop (S (length ks / 2)) ks) (drop (S (length ks / 2)) cs)).
Proof.
  intros I H0 L Hcap H. unfold splitInternalNode in H. destruct (NewPageIn s) as [s1 rn] eqn:EN.
  pose proof (alloc_ok _ _ _ _ I EN) as Hrn. pose proof internal_min as Him.
  destruct rn as [[rp rpid]|e|]; [|injection H as <- <-|done].
  2:{ destruct Hrn as (I1&K&P&C&Hn). split_and!; [apply K|eexists; split; [done|done]|done|done|done|done]. }
  destruct Hrn as (I1&Hid&R1&C1&Hold). destruct (Hold _ _ _ H0) as [Hne H1].
  pose proof (internal_initInternal _ wf_zeroes) as LZ.
  rewrite (held_load _ _ _ _ _ I1 R1) in H.
  destruct (store_held _ _ _ _ _ _ I1 R1 (in_wf _ _ _ LZ)) as (I2&R2&K2&C2). set (s2 := store rp _ s1) in *.
  pose proof (held_keeps _ _ _ _ _ _ _ I1 K2 H1 ltac:(set_solver)) as H2.
  rewrite (held_load _ _ _ _ _ I2 R2), (held_load _ _ _ _ _ I2 H2) in H.
  destruct (splitInternal_ok _ _ _ _ _ L LZ) as (l&rr&up&E&Hup&LL&LR); [lia|]. rewrite E in H.
  destruct (store_two [rpid; pid] _ s2 rpid rp _ pid f _ rr I2 R2 H2) as (I3&R3&H3&K3&C3);
    [done|set_solver|set_solver|apply LR|]. set (s3 := store rp rr s2) in *.
  destruct (store_two [rpid; pid] _ s3 pid f _ rpid rp _ l I3 H3 R3) as (I4&H4&R4&K4&C4);
    [done|set_solver|set_solver|apply LL|]. set (s4 := store f l s3) in *.
  assert (keeps [rpid; pid] s1 s4) as K.
  { eapply keeps_trans; [eapply keeps_weaken; [exact K2|set_solver]|]. by eapply keeps_trans. }
  destruct (alloc_bracket true [pid] _ _ _ _ _ _ s4 I EN K I4) as (s7&HU&I7&K7&P7&C7); [by left|].
  rewrite HU in H. injection H as <- <-. split_and!; [done|eexists; split; [exact I7|set_solver]|done|lia|].
  exists l, rr. cbn [right sepKey]. rewrite !P7. split_and!; [apply H4|apply R4|done|done|done].
Qed.

(** ** Inserting into a subtree *)

(** Frames and page ids enough for an insertion below a node of height [h]. *)
Definition able_for (h : nat) (s : W) : Prop :=
  p_healthy s ∧ (h + 2 ≤ p_room s)%nat ∧ p_count s + Z.of_nat h + 2 ≤ Disk.MaxUint32.

(** The pages allocated between [s] and [s']. *)
Definition fresh (s s' : W) : list Z := seqZ (p_count s) (p_count s' - p_count s).

Lemma fetched s pid n s1 f :
  p_inv ∅ s → p_page s pid = Some n → FetchPage pid s = (s1, Ret f) →
  p_inv ∅ s1 ∧ held s1 pid f n ∧ (∀ q, p_page s1 q = p_page s q) ∧ p_count s1 = p_count s ∧
  (p_healthy s → p_healthy s1) ∧ (p_room s ≤ S (p_room s1))%nat.
Proof.
  intros I Hp EF. pose proof (page_id _ _ _ _ I Hp) as Hr.
  destruct (fetch_ok _ _ _ _ _ I (proj1 Hr) EF) as (I1&([P1 N1 A1 C1 O1]&At1&L1&R1)&Hh1).
  pose proof (pins_ok _ _ pid I). split_and!; try done.
  - split; [done|rewrite N1, decide_True by done; lia|by rewrite P1].
  - intros Hh. by apply Hh1.
  - case_decide; lia.
Qed.

Lemma fresh_none s s' : p_count s' = p_count s → fresh s s' = [].
Proof. intros E. unfold fresh. rewrite E. by rewrite Z.sub_diag. Qed.
Lemma fresh_one s s' : p_count s' = p_count s + 1 → fresh s s' = [p_count s].
Proof.
  intros E. unfold fresh. rewrite E. replace (p_count s + 1 - p_count s) with 1 by lia.
  unfold seqZ. simpl. by rewrite Z.add_0_l.
Qed.

(** The result of running a split and releasing the page. *)
Lemma split_unpinned s pid s1 f s2 m post s' x :
  p_inv ∅ s → 0 ≤ pid → FetchPage pid s = (s1, Ret f) → ∀ D, pid ∈ D → keeps D s1 s2 →
  (∀ s3 r, m s2 = (s3, r) → split_node s2 s3 pid f r post) →
  split_then_unpin pid m s2 = (s', x) →
  p_inv ∅ s' ∧ keeps D s s' ∧
  match x with
  | Ret (Some sp) => right sp = p_count s2 ∧ p_count s' = p_count s2 + 1 ∧
      (∀ q, q < p_count s2 → q ≠ pid → p_page s' q = p_page s2 q) ∧
      ∃ n' r', p_page s' pid = Some n' ∧ p_page s' (right sp) = Some r' ∧ post sp n' r'
  | Fail e => (∀ q, p_page s' q = p_page s2 q) ∧ p_count s' = p_count s2 ∧ e ≠ ErrDuplicateKey ∧
      ¬ (able s2 ∧ p_count s2 < Disk.MaxUint32)
  | _ => False
  end.
Proof.
  intros I Hp EF D HD K2 Hm H. unfold split_then_unpin in H. destruct (m s2) as [s3 r] eqn:Em.
  destruct (Hm _ _ eq_refl) as (K3&(M&I3&HM)&Hr).
  assert (keeps D s1 s3) as K by (eapply keeps_trans; [done|]; eapply keeps_weaken; [done|set_solver]).
  destruct (bracket D M s pid s1 f s3 true I Hp EF K I3 HM) as (s4&HU&I4&K4&P4&C4); [by left|].
  destruct r as [sp|e|]; [| |done]; rewrite HU in H; injection H as <- <-.
  - destruct Hr as (Hid&Hc&n'&r'&Hn&Hr&Hpost). split_and!; [done|done|done|lia| |].
    + intros q Hq Hne. rewrite P4. apply K3; [done|set_solver].
    + exists n', r'. by rewrite !P4.
  - destruct Hr as (HP&Hc&He&Hn). split_and!; [done|done|intros q; by rewrite P4|lia|done|done].
Qed.
Lemma fresh_snoc s s2 s' :
  p_count s ≤ p_count s2 → p_count s' = p_count s2 + 1 → fresh s s' = fresh s s2 ++ [p_count s2].
Proof.
  intros H E. unfold fresh. rewrite E.
  replace (p_count s2 + 1 - p_count s) with ((p_count s2 - p_count s) + 1) by lia.
  rewrite seqZ_app by lia. f_equal. replace (p_count s + (p_count s2 - p_count s)) with (p_count s2) by lia.
  unfold seqZ. simpl. by rewrite Z.add_0_l.
Qed.

(** A fetched leaf that has been written. *)
Lemma leaf_written s pid s1 f n n1 es1 nxt :
  p_inv ∅ s → p_page s pid = Some n → FetchPage pid s = (s1, Ret f) → leaf n1 es1 nxt →
  let s2 := store f n1 s1 in
  p_inv {[f]} s2 ∧ held s2 pid f n1 ∧ keeps [pid] s1 s2 ∧ p_count s2 = p_count s ∧
  (able_for 0 s → able s2 ∧ p_count s2 < Disk.MaxUint32).
Proof.
  intros I Hp EF L1. destruct (fetched _ _ _ _ _ I Hp EF) as (I1&H1&P1&C1&Hh1&R1).
  destruct (store_held _ _ _ _ _ _ I1 H1 (lf_wf _ _ _ L1)) as (I2&H2&K2&C2).
  replace (∅ ∪ {[f]}) with ({[f]} : gset nat) in I2 by set_solver.
  split_and!; [done|done|done|lia|]. intros (Hh&Hrm&Hcm). split; [|lia].
  split; [by apply K2, Hh1|rewrite (k_room _ _ _ K2); lia].
Qed.

Section insert.
Context (key : Z) (tid : TID).
Hypothesis key_ok : go_key key.
Hypothesis tid_ok : go_tid tid.

Inductive outcome (s s' : W) (h : nat) (r : bool) (lo hi : option Z) (pid : Z) (lvs : list lf) (ns : list Z)
    : res (option split) → Prop :=
| out_done lvs' ns' :
    sub true (p_page s') h r lo hi pid lvs' ns' → added key tid lvs lvs' → ns' ≡ₚ ns ++ fresh s s' →
    outcome s s' h r lo hi pid lvs ns (Ret None)
| out_split sp la na lb nb :
    over lo (sepKey sp) → below hi (sepKey sp) → go_key (sepKey sp) → go_pid (right sp) →
    sub true (p_page s') h false lo (Some (sepKey sp)) pid la na →
    sub true (p_page s') h false (Some (sepKey sp)) hi (right sp) lb nb →
    added key tid lvs (la ++ lb) → na ++ nb ≡ₚ ns ++ fresh s s' →
    outcome s s' h r lo hi pid lvs ns (Ret (Some sp))
| out_duplicate :
    key ∈ (flat lvs).*1 → (∀ q, p_page s' q = p_page s q) → p_count s' = p_count s →
    outcome s s' h r lo hi pid lvs ns (Fail ErrDuplicateKey)
| out_unchanged e :
    e ≠ ErrDuplicateKey → ¬ able_for h s → (∀ q, p_page s' q = p_page s q) → p_count s' = p_count s →
    outcome s s' h r lo hi pid lvs ns (Fail e)
| out_overfull e lvs' ns' :
    e ≠ ErrDuplicateKey → ¬ able_for h s →
    sub false (p_page s') h r lo hi pid lvs' ns' → added key tid lvs lvs' → ns' ≡ₚ ns ++ fresh s s' →
    outcome s s' h r lo hi pid lvs ns (Fail e).

Lemma leaf_sorted_insert (es : entries) i :
  StronglySorted Z.lt es.*1 → lower_bound es.*1 key i → key ∉ es.*1 →
  StronglySorted Z.lt (insert_at i (key, tid) es).*1 ∧ with_entry key tid es (insert_at i (key, tid) es).
Proof.
  intros Hs Hlb Hn. split.
  - rewrite fmap_insert_at. by apply sorted_insert.
  - eexists _, _. apply insert_at_app.
Qed.

(** The two halves of a split leaf, and the separator between them. *)
Lemma leaf_halves lo hi (es : entries) sep :
  StronglySorted Z.lt es.*1 → Forall (within lo hi) es.*1 → len es = leafCap →
  (drop (length es / 2) es).*1 !! 0%nat = Some sep →
  over lo sep ∧ below hi sep ∧
  Forall (within lo (Some sep)) (take (length es / 2) es).*1 ∧
  Forall (within (Some sep) hi) (drop (length es / 2) es).*1 ∧
  leaf_fill true false (len (take (length es / 2) es)) ∧ leaf_fill true false (len (drop (length es / 2) es)).
Proof.
  intros Hs Hw Hc Hsep. pose proof leaf_min as Hm. set (m := (length es / 2)%nat) in *.
  assert (1 ≤ m < length es)%nat as Hm'.
  { unfold m. split; [apply Nat.div_le_lower_bound; lia|apply Nat.Div0.div_lt_upper_bound; lia]. }
  assert (Z.of_nat m = leafCap / 2) as Hz by (unfold m; by rewrite Nat2Z.inj_div, Hc).
  assert (2 * (leafCap / 2) ≤ leafCap) as Hdiv by (apply Z.mul_div_le; lia).
  rewrite <-(take_drop m es), keys_app in Hs, Hw. apply Forall_app in Hw as [Hw1 Hw2].
  assert (sep ∈ (drop m es).*1) as Hin by (by eapply list_elem_of_lookup_2).
  assert (∀ x, x ∈ (take m es).*1 → x < sep) as Hl by (intros x Hx; by eapply StronglySorted_app_1_elem_of).
  rewrite Forall_forall in Hw1, Hw2. destruct (Hw2 _ Hin) as [_ Hsb]. split_and!.
  - destruct (lookup_lt_is_Some_2 (take m es).*1 0) as [k Hk]; [rewrite length_fmap, length_take; lia|].
    apply list_elem_of_lookup_2 in Hk. pose proof (Hl _ Hk). destruct (Hw1 _ Hk) as [Ha _].
    destruct lo; simpl in *; lia.
  - done.
  - apply Forall_forall. intros x Hx. split; [by apply Hw1|by apply Hl].
  - apply Forall_forall. intros x Hx. split; [simpl|by apply Hw2].
    apply StronglySorted_app_1_r in Hs. destruct ((drop m es).*1) as [|y ys]; [done|].
    simpl in Hsep. simplify_eq. apply StronglySorted_inv in Hs as [_ Hs]. rewrite Forall_forall in Hs.
    apply elem_of_cons in Hx as [->|Hx]; [done|]. specialize (Hs _ Hx). lia.
  - split; rewrite length_take; lia.
  - split; rewrite length_drop; lia.
Qed.
(** What an insertion below [pid] established, from [s] to [s']. *)
Definition inserted (s s' : W) (h : nat) (r : bool) (lo hi : option Z) (pid : Z) (lvs : list lf) (ns : list Z)
    (x : res (option split)) : Prop :=
  p_inv ∅ s' ∧ keeps ns s s' ∧ p_count s' ≤ p_count s + Z.of_nat (S h) ∧ outcome s s' h r lo hi pid lvs ns x.

(** A leaf page [pid] that was fetched, in frame [f], and given one more entry:
    its entries are now [es1], its bytes [n1]. *)
Section leaf_node.
Context (s s1 : W) (r : bool) (lo hi : option Z) (pid : Z) (f : nat) (n n1 : page) (es es1 : entries) (nxt : Z).
Hypothesis I : p_inv ∅ s.
Hypothesis Hp : p_page s pid = Some n.
Hypothesis EF : FetchPage pid s = (s1, Ret f).
Hypothesis L1 : leaf n1 es1 nxt.
Hypothesis Hs1 : StronglySorted Z.lt es1.*1.
Hypothesis Hw1 : Forall (within lo hi) es1.*1.
Hypothesis Hadd : with_entry key tid es es1.
Hypothesis Hfill : leaf_fill true r (len es1 - 1).

Lemma leaf_as_sub rest pg : pg pid = Some n1 → leaf_fill rest r (len es1) → sub rest pg 0 r lo hi pid [Lf pid es1 nxt] [pid].
Proof. intros Hpg Hf. exists n1, es1, nxt. by split_and!. Qed.

Lemma leaf_fits s' x :
  len es1 < leafCap → unpin_then pid true (Ret None) (store f n1 s1) = (s', x) →
  inserted s s' 0 r lo hi pid [Lf pid es nxt] [pid] x.
Proof.
  intros Hroom H. destruct (leaf_written _ _ _ _ _ _ _ _ I Hp EF L1) as (I2&H2&K2&C2&_). pose proof (page_id _ _ _ _ I Hp) as Hpid.
  destruct (bracket [pid] {[f]} s pid s1 f _ true I (proj1 Hpid) EF K2 I2) as (s3&HU&I3&K3&P3&C3);
    [done|by left|]. rewrite HU in H. injection H as <- <-. split_and!; [done|done|lia|].
  eapply (out_done _ _ _ _ _ _ _ _ _ [Lf pid es1 nxt] [pid]).
  - apply leaf_as_sub; [rewrite P3; apply H2|]. destruct Hfill. split; [destruct r; lia|lia].
  - by apply (added_one key tid [] pid es es1 nxt []).
  - by rewrite fresh_none, app_nil_r by lia.
Qed.

Lemma leaf_splits s' x :
  len es1 = leafCap → split_then_unpin pid (splitLeafNode f) (store f n1 s1) = (s', x) →
  inserted s s' 0 r lo hi pid [Lf pid es nxt] [pid] x.
Proof.
  intros Hfull H. destruct (leaf_written _ _ _ _ _ _ _ _ I Hp EF L1) as (I2&H2&K2&C2&Hab). pose proof (page_id _ _ _ _ I Hp) as Hpid.
  destruct (split_unpinned _ _ _ _ _ _ _ s' x I (proj1 Hpid) EF [pid] ltac:(set_solver) K2
    (λ s3 r3, splitLeafNode_ok _ pid f n1 es1 nxt s3 r3 I2 H2 L1 Hfull) H) as (I3&K3&Hx).
  destruct x as [[sp|]|e|]; [|done| |done].
  - destruct Hx as (Hid&Hc&_&n'&r'&Hn'&Hr'&Ll&Lr&Hsep). cbn [sepKey right] in *.
    destruct (leaf_halves lo hi es1 _ Hs1 Hw1 Hfull Hsep) as (B1&B2&B3&B4&B5&B6).
    pose proof Hs1 as Hsort. rewrite <-(take_drop (length es1 / 2) es1), keys_app in Hsort.
    destruct (count_ok _ _ I3) as [Hmax _]. unfold Disk.MaxUint32 in Hmax. split_and!; [done|done|lia|].
    eapply (out_split _ _ _ _ _ _ _ _ _ _ [_] [pid] [_] [right sp]); try done.
    + rewrite <-(lf_keys _ _ _ Lr 0%nat _ Hsep). apply kget_range.
    + unfold go_pid. lia.
    + exists n', (take (length es1 / 2) es1), (right sp). split_and!; try done. by eapply StronglySorted_app_1_l.
    + exists r', (drop (length es1 / 2) es1), nxt. split_and!; try done. by eapply StronglySorted_app_1_r.
    + apply (added_two key tid [] pid es _ _ (right sp) nxt []). by rewrite take_drop.
    + rewrite fresh_one by lia. by rewrite Hid, C2.
  - destruct Hx as (HP&Hc&He&Hn). split_and!; [done|done|lia|].
    eapply (out_overfull _ _ _ _ _ _ _ _ _ _ [Lf pid es1 nxt] [pid]); [done|by intros ?%Hab|..].
    + apply leaf_as_sub; [rewrite HP; apply H2|]. destruct Hfill. split; [destruct r; lia|lia].
    + by apply (added_one key tid [] pid es es1 nxt []).
    + by rewrite fresh_none, app_nil_r by lia.
Qed.
End leaf_node.

Lemma insert_leaf_ok s pid s1 f r lo hi lvs ns s' x :
  p_inv ∅ s → sub true (p_page s) 0 r lo hi pid lvs ns → within lo hi key →
  FetchPage pid s = (s1, Ret f) → insert_leaf f pid key tid s1 = (s', x) →
  inserted s s' 0 r lo hi pid lvs ns x.
Proof.
  intros I (n&es&nxt&Hp&L&[Hf1 Hf2]&Hs&Hw&->&->) Hin EF H. pose proof (page_id _ _ _ _ I Hp) as Hpid.
  destruct (fetched _ _ _ _ _ I Hp EF) as (I1&H1&P1&C1&_).
  unfold insert_leaf in H. rewrite (held_load _ _ _ _ _ I1 H1) in H.
  destruct (leaf_search _ _ _ key L Hs) as (i&E&Hlb&_). rewrite E in H.
  pose proof (lb_range _ _ _ Hlb) as Hi. rewrite length_fmap in Hi.
  destruct (decide (key ∈ es.*1)) as [Hk|Hk].
  { rewrite bool_decide_eq_true_2 in H by done.
    destruct (bracket [pid] ∅ s pid s1 f s1 false I (proj1 Hpid) EF (keeps_refl _ _) I1) as (s2&HU&I2&K2&P2&C2);
      [done|by right|]. rewrite HU in H. injection H as <- <-.
    split_and!; [done|done|lia|]. apply out_duplicate; [unfold flat; simpl; by rewrite app_nil_r| |lia].
    intros q. by rewrite P2. }
  rewrite bool_decide_eq_false_2 in H by done.
  destruct (insertLeafAt_ok _ _ _ i key tid L Hf2 Hi key_ok tid_ok) as (n1&E1&L1). rewrite E1 in H.
  destruct (leaf_sorted_insert es i Hs Hlb Hk) as [Hs1 Hadd].
  assert (Forall (within lo hi) (insert_at i (key, tid) es).*1) as Hw1.
  { apply Forall_forall. intros y Hy. rewrite fmap_insert_at, elem_insert_at in Hy. simpl in Hy.
    destruct Hy as [->|Hy]; [done|]. rewrite Forall_forall in Hw. by apply Hw. }
  pose proof (length_insert_at i (key, tid) es) as Hlen. set (es1 := insert_at i (key, tid) es) in *.
  assert (leaf_fill true r (len es1 - 1)) as Hfill by (split; [destruct r; lia|lia]).
  destruct (leaf_written _ _ _ _ _ _ _ _ I Hp EF L1) as (I2&H2&_).
  rewrite (held_load _ _ _ _ _ I2 H2), (full_leaf _ _ _ L1) in H.
  destruct (Z.leb_spec leafCap (len es1)); simpl negb in H;
    [eapply leaf_splits|eapply leaf_fits]; done || lia.
Qed.

Lemma nodes_ctx (p : Z) n1 nc n' n2 fr :
  n' ≡ₚ nc ++ fr → p :: n1 ++ n' ++ n2 ≡ₚ (p :: n1 ++ nc ++ n2) ++ fr.
Proof. intros ->. simpl. f_equiv. rewrite <-!app_assoc. do 2 f_equiv. apply Permutation_app_comm. Qed.

(** An internal node whose child [c] was worked on. *)
Section internal_node.
Context (s s1 s2 : W) (h : nat) (r : bool) (lo hi : option Z) (pid : Z) (f : nat) (n : page).
Context (ks1 ks2 cs1 : list Z) (c : Z) (cs2 : list Z) (lo' hi' : option Z).
Context (l1 lc l2 : list lf) (n1 nc n2 : list Z).
Let ns := pid :: n1 ++ nc ++ n2.
Hypothesis I : p_inv ∅ s.
Hypothesis Hp : p_page s pid = Some n.
Hypothesis HI : internal n (ks1 ++ ks2) (cs1 ++ c :: cs2).
Hypothesis Hfill : internal_fill true r (len (ks1 ++ ks2)).
Hypothesis HF : focused (sub true (p_page s) h false) lo hi key ks1 ks2 cs1 c cs2 lo' hi' l1 lc l2 n1 nc n2.
Hypothesis HND : NoDup ns.
Hypothesis Hex : Forall (λ q, is_Some (p_page s q)) ns.
Hypothesis EF : FetchPage pid s = (s1, Ret f).
Hypothesis I2 : p_inv ∅ s2.
Hypothesis K2 : keeps nc s1 s2.
Hypothesis C2 : p_count s2 ≤ p_count s1 + Z.of_nat (S h).

Lemma node_pid : 0 ≤ pid < p_count s.
Proof. by eapply page_id. Qed.

Lemma node_held : held s2 pid f n.
Proof.
  destruct (fetched _ _ _ _ _ I Hp EF) as (I1&H1&_). eapply held_keeps; [exact I1|exact K2|done|].
  apply NoDup_cons in HND as [Hn _]. set_solver.
Qed.

(** The pages of the other children are untouched by changes at [pid]. *)
Lemma siblings_kept s' q :
  (∀ q, q < p_count s2 → q ≠ pid → p_page s' q = p_page s2 q) → q ∈ n1 ++ n2 → p_page s' q = p_page s q.
Proof.
  intros H Hq. destruct (fetched _ _ _ _ _ I Hp EF) as (I1&_&P1&C1&_).
  rewrite Forall_forall in Hex. destruct (Hex q) as [p Hpq]; [unfold ns; set_solver|].
  pose proof (page_id _ _ _ _ I Hpq). pose proof (k_count _ _ _ K2).
  apply NoDup_cons in HND as [Hn HND2]. rewrite H; [|lia|set_solver].
  rewrite (k_page _ _ _ K2), P1; [done|lia|].
  apply NoDup_app in HND2 as (_&Hd1&HND2). apply NoDup_app in HND2 as (_&Hd2&_). set_solver.
Qed.

(** So are the new pages below [pid]. *)
Lemma child_kept rest s' lo0 hi0 c0 l n' :
  (∀ q, q < p_count s2 → q ≠ pid → p_page s' q = p_page s2 q) → pid ∉ n' →
  sub true (p_page s2) h false lo0 hi0 c0 l n' → sub rest (p_page s') h false lo0 hi0 c0 l n'.
Proof.
  intros H Hn HS. eapply sub_frame; [exact HS| |done]. intros q Hq.
  pose proof (sub_pages _ _ _ _ _ _ _ _ _ HS) as HP. rewrite Forall_forall in HP.
  destruct (HP _ Hq) as [p Hpq]. pose proof (page_id _ _ _ _ I2 Hpq). apply H; [lia|]. by intros ->.
Qed.

Lemma pid_not_below n' : n' ≡ₚ nc ++ fresh s1 s2 → pid ∉ n'.
Proof.
  intros ->. destruct (fetched _ _ _ _ _ I Hp EF) as (_&_&_&C1&_). pose proof node_pid.
  apply NoDup_cons in HND as [Hn _]. unfold fresh. rewrite elem_of_app, elem_of_seqZ. intros [?|?]; [set_solver|lia].
Qed.

Lemma replug rest s' ks' cs' l' n' :
  (∀ q, q ∈ n1 ++ n2 → p_page s' q = p_page s q) →
  kids (sub rest (p_page s') h false) lo' hi' ks' cs' l' n' →
  kids (sub rest (p_page s') h false) lo hi (ks1 ++ ks' ++ ks2) (cs1 ++ cs' ++ cs2) (l1 ++ l' ++ l2) (n1 ++ n' ++ n2).
Proof.
  intros H HK. apply (fo_plug _ _ _ _ _ _ _ _ _ _ _ _ _ _ _ _ _ HF); [|done].
  intros lo0 hi0 c0 l0 ns0 HS Hsub. eapply sub_frame; [exact HS| |done]. intros q Hq. apply H. set_solver.
Qed.

Lemma fresh_s1 s' : fresh s1 s' = fresh s s'.
Proof. destruct (fetched _ _ _ _ _ I Hp EF) as (_&_&_&C1&_). unfold fresh. by rewrite C1. Qed.

Lemma able_below : able_for (S h) s → able_for h s1.
Proof.
  intros (Hh&Hr&Hc). destruct (fetched _ _ _ _ _ I Hp EF) as (_&_&_&C1&Hh1&R1).
  split_and!; [by apply Hh1|lia|lia].
Qed.

(** Releasing the node without having changed it. *)
Lemma release_clean :
  ∃ s3, (∀ A (x : res A), unpin_then pid false x s2 = (s3, x)) ∧ p_inv ∅ s3 ∧ keeps ns s s3 ∧
    (∀ q, p_page s3 q = p_page s2 q) ∧ p_count s3 = p_count s2.
Proof.
  eapply (bracket ns ∅ s pid s1 f s2 false I (proj1 node_pid) EF); [|done|done|by right].
  eapply keeps_weaken; [exact K2|unfold ns; set_solver].
Qed.
(** The node with one child replaced: unchanged itself. *)
Lemma same_node rest s3 lc' nc' :
  (∀ q, p_page s3 q = p_page s2 q) →
  sub rest (p_page s2) h false lo' hi' c lc' nc' → pid ∉ nc' →
  sub rest (p_page s3) (S h) r lo hi pid (l1 ++ lc' ++ l2) (pid :: n1 ++ nc' ++ n2).
Proof.
  intros P3 HS Hn. destruct Hfill as [Hf1 Hf2].
  exists n, (ks1 ++ ks2), (cs1 ++ c :: cs2), (n1 ++ nc' ++ n2). split_and!; try done.
  - rewrite P3. apply node_held.
  - split; [done|]. destruct rest; lia.
  - apply (replug rest s3 [] [c]).
    + intros q Hq. apply siblings_kept; [|done]. intros q' _ _. apply P3.
    + constructor. eapply sub_frame; [exact HS| |done]. intros q _. apply P3.
Qed.

Lemma child_failed e :
  outcome s1 s2 h false lo' hi' c lc nc (Fail e) →
  ∃ s3, unpin_then (A:=option split) pid false (Fail e) s2 = (s3, Fail e) ∧
    inserted s s3 (S h) r lo hi pid (l1 ++ lc ++ l2) ns (Fail e).
Proof.
  intros HO. destruct release_clean as (s3&HU&I3&K3&P3&C3). exists s3. split; [apply HU|].
  destruct (fetched _ _ _ _ _ I Hp EF) as (_&_&P1&C1&_).
  split_and!; [done|done|lia|]. inversion HO as [| |Hk HP HC|e' He Ha HP HC|e' lvs' ns' He Ha HS Hadd Hns]; subst.
  - apply out_duplicate; [|intros q; by rewrite P3, HP|lia]. rewrite !flat_app, !keys_app. set_solver.
  - apply out_unchanged; [done|by intros ?%able_below|intros q; by rewrite P3, HP|lia].
  - eapply out_overfull; [done|by intros ?%able_below| |by apply added_ctx|].
    + eapply same_node; [done|exact HS|by apply pid_not_below].
    + apply nodes_ctx. rewrite Hns, fresh_s1. unfold fresh. by rewrite C3.
Qed.

Lemma child_done :
  outcome s1 s2 h false lo' hi' c lc nc (Ret None) →
  ∃ s3, unpin_then (A:=option split) pid false (Ret None) s2 = (s3, Ret None) ∧
    inserted s s3 (S h) r lo hi pid (l1 ++ lc ++ l2) ns (Ret None).
Proof.
  intros HO. destruct release_clean as (s3&HU&I3&K3&P3&C3). exists s3. split; [apply HU|].
  destruct (fetched _ _ _ _ _ I Hp EF) as (_&_&P1&C1&_).
  split_and!; [done|done|lia|]. inversion HO as [lvs' ns' HS Hadd Hns| | | |]; subst.
  eapply out_done; [|by apply added_ctx|].
  - eapply same_node; [done|exact HS|by apply pid_not_below].
  - apply nodes_ctx. rewrite Hns, fresh_s1. unfold fresh. by rewrite C3.
Qed.

(** The two halves of a split internal node. *)
Lemma internal_halves P ks cs lvs n' sep :
  kids P lo hi ks cs lvs n' → len ks = internalCap →
  ks = take (length ks / 2) ks ++ sep :: drop (S (length ks / 2)) ks →
  ∃ la lb na nb, lvs = la ++ lb ∧ n' = na ++ nb ∧ over lo sep ∧ below hi sep ∧
    kids P lo (Some sep) (take (length ks / 2) ks) (take (S (length ks / 2)) cs) la na ∧
    kids P (Some sep) hi (drop (S (length ks / 2)) ks) (drop (S (length ks / 2)) cs) lb nb ∧
    internal_fill true false (len (take (length ks / 2) ks)) ∧
    internal_fill true false (len (drop (S (length ks / 2)) ks)).
Proof.
  intros HK Hc E. pose proof internal_min as Hm. set (m := (length ks / 2)%nat) in *.
  assert (m < length ks)%nat as Hm' by (unfold m; apply Nat.Div0.div_lt_upper_bound; lia).
  assert (Z.of_nat m = internalCap / 2) as Hz by (unfold m; by rewrite Nat2Z.inj_div, Hc).
  assert (2 * (internalCap / 2) ≤ internalCap < 2 * (internalCap / 2) + 2) as Hd.
  { pose proof (Z.mod_pos_bound internalCap 2). pose proof (Z.div_mod internalCap 2). lia. }
  assert (2 * ((internalCap - 1) / 2) ≤ internalCap - 1) as Hd' by (apply Z.mul_div_le; lia).
  rewrite E in HK. destruct (kids_cut _ _ _ _ _ _ _ _ _ HK) as (la&lb&na&nb&->&->&Ho&Hb&K1&K2').
  rewrite length_take in K1, K2'. rewrite Nat.min_l in K1, K2' by lia.
  exists la, lb, na, nb. split_and!; try done; split; rewrite ?length_take, ?length_drop; lia.
Qed.

Lemma lookup_mid {A} (l : list A) m x : l = take m l ++ x :: drop (S m) l → l !! m = Some x.
Proof.
  intros E. assert (m < length l)%nat as Hm.
  { apply (f_equal length) in E. rewrite length_app, length_take in E. simpl in E. rewrite length_drop in E. lia. }
  rewrite E. apply list_lookup_middle. rewrite length_take. lia.
Qed.
Lemma insert_at_mid {A} (a b : list A) x : insert_at (len a) x (a ++ b) = a ++ x :: b.
Proof. unfold insert_at. by rewrite Nat2Z.id, take_app_length, drop_app_length. Qed.
Lemma insert_at_mid1 {A} (a b : list A) y x i :
  i = len a + 1 → insert_at i x (a ++ y :: b) = a ++ y :: x :: b.
Proof.
  intros ->. change (a ++ y :: b) with (a ++ [y] ++ b). rewrite app_assoc.
  replace (len a + 1) with (len (a ++ [y])) by (rewrite length_app; simpl; lia).
  rewrite insert_at_mid. by rewrite <-app_assoc.
Qed.
(** The children with the child's split absorbed. *)
Lemma split_kids sp la na lb nb rest s' :
  over lo' (sepKey sp) → below hi' (sepKey sp) →
  sub true (p_page s2) h false lo' (Some (sepKey sp)) c la na →
  sub true (p_page s2) h false (Some (sepKey sp)) hi' (right sp) lb nb →
  pid ∉ na ++ nb → (∀ q, q < p_count s2 → q ≠ pid → p_page s' q = p_page s2 q) →
  kids (sub rest (p_page s') h false) lo hi (ks1 ++ sepKey sp :: ks2) (cs1 ++ c :: right sp :: cs2)
    (l1 ++ (la ++ lb) ++ l2) (n1 ++ (na ++ nb) ++ n2).
Proof.
  intros Ho Hb Ha Hb' Hn HP. rewrite not_elem_of_app in Hn. destruct Hn as [Hna Hnb].
  apply (replug rest s' [sepKey sp] [c; right sp]).
  - intros q Hq. by apply siblings_kept.
  - constructor; [done|done|by eapply child_kept|]. constructor. by eapply child_kept.
Qed.

(** The node after its child split into [c] and [right sp] and it took the
    separator: it has the keys [KS], the children [CS] and the bytes [n']. *)
Section absorbing.
Context (sp : split) (la lb : list lf) (na nb : list Z) (n' : page).
Let KS := ks1 ++ sepKey sp :: ks2.
Let CS := cs1 ++ c :: right sp :: cs2.
Hypothesis Ho : over lo' (sepKey sp).
Hypothesis Hb : below hi' (sepKey sp).
Hypothesis Ha : sub true (p_page s2) h false lo' (Some (sepKey sp)) c la na.
Hypothesis Hb' : sub true (p_page s2) h false (Some (sepKey sp)) hi' (right sp) lb nb.
Hypothesis Hadd : added key tid lc (la ++ lb).
Hypothesis Hns : na ++ nb ≡ₚ nc ++ fresh s1 s2.
Hypothesis HI' : internal n' KS CS.

Lemma KS_length : len KS = len (ks1 ++ ks2) + 1.
Proof. unfold KS. rewrite !length_app. simpl. lia. Qed.

Lemma absorbed_nodes : pid :: n1 ++ (na ++ nb) ++ n2 ≡ₚ ns ++ fresh s s2.
Proof. rewrite <-fresh_s1. by apply nodes_ctx. Qed.

(** The node has been written. *)
Lemma node_written :
  let s3 := store f n' s2 in
  p_inv {[f]} s3 ∧ held s3 pid f n' ∧ keeps ns s1 s3 ∧ p_count s3 = p_count s2 ∧
  (∀ q, q < p_count s2 → q ≠ pid → p_page s3 q = p_page s2 q) ∧
  (able_for (S h) s → able s3 ∧ p_count s3 < Disk.MaxUint32).
Proof.
  destruct (fetched _ _ _ _ _ I Hp EF) as (_&_&_&C1&Hh1&R1).
  destruct (store_held _ _ _ _ _ _ I2 node_held (in_wf _ _ _ HI')) as (I3&H3&K3&C3).
  replace (∅ ∪ {[f]}) with ({[f]} : gset nat) in I3 by set_solver. split_and!; [done|done| |done|..].
  - eapply keeps_trans; (eapply keeps_weaken; [eassumption|unfold ns; set_solver]).
  - intros q Hq Hne. apply K3; [done|set_solver].
  - intros (Hh&Hrm&Hcm). split; [|lia]. split; [by apply K3, K2, Hh1|].
    rewrite (k_room _ _ _ K3), (k_room _ _ _ K2). lia.
Qed.

(** As a subtree, in any state that has its bytes and the pages below it. *)
Lemma absorbed_sub rest s' :
  p_page s' pid = Some n' → (∀ q, q < p_count s2 → q ≠ pid → p_page s' q = p_page s2 q) →
  internal_fill rest r (len KS) →
  sub rest (p_page s') (S h) r lo hi pid (l1 ++ (la ++ lb) ++ l2) (pid :: n1 ++ (na ++ nb) ++ n2).
Proof.
  intros Hpg HP Hf. exists n', KS, CS, (n1 ++ (na ++ nb) ++ n2). split_and!; try done.
  by apply split_kids; [..|apply pid_not_below|].
Qed.

Lemma absorb_fits s' x :
  len KS < internalCap → unpin_then pid true (Ret None) (store f n' s2) = (s', x) →
  inserted s s' (S h) r lo hi pid (l1 ++ lc ++ l2) ns x.
Proof.
  intros Hroom H. destruct node_written as (I3&H3&K13&C3&P3&_). destruct Hfill as [Hf1 Hf2]. pose proof KS_length.
  destruct (fetched _ _ _ _ _ I Hp EF) as (_&_&_&C1&_).
  destruct (bracket ns {[f]} s pid s1 f _ true I (proj1 node_pid) EF K13 I3) as (s4&HU&I4&K4&P4&C4);
    [done|by left|]. rewrite HU in H. injection H as <- <-. split_and!; [done|done|lia|].
  eapply out_done; [|by apply added_ctx|].
  - apply absorbed_sub; [rewrite P4; apply H3|intros q Hq Hne; rewrite P4; by apply P3|].
    split; [destruct r; lia|lia].
  - rewrite absorbed_nodes. unfold fresh. by rewrite C4, C3.
Qed.

Lemma absorb_splits s' x :
  len KS = internalCap → split_then_unpin pid (splitInternalNode f) (store f n' s2) = (s', x) →
  inserted s s' (S h) r lo hi pid (l1 ++ lc ++ l2) ns x.
Proof.
  intros Hcap H. destruct node_written as (I3&H3&K13&C3&P3&Hab). destruct Hfill as [Hf1 Hf2].
  destruct (fetched _ _ _ _ _ I Hp EF) as (_&_&_&C1&_). pose proof (k_count _ _ _ K2) as Hc12.
  destruct (split_unpinned _ _ _ _ _ _ _ s' x I (proj1 node_pid) EF ns ltac:(unfold ns; set_solver) K13
    (λ s4 r4, splitInternalNode_ok _ pid f n' KS CS s4 r4 I3 H3 HI' Hcap) H) as (I4&K4&Hx).
  destruct x as [[sp'|]|e|]; [|done| |done].
  - destruct Hx as (Hid&Hc&P4&nl&nr&Hnl&Hnr&Hsep&HL&HR).
    assert (∀ q, q < p_count s2 → q ≠ pid → p_page s' q = p_page s2 q) as P4'.
    { intros q Hq Hne. rewrite P4 by lia. by apply P3. }
    pose proof (split_kids sp la na lb nb true s' Ho Hb Ha Hb' (pid_not_below _ Hns) P4') as HK.
    destruct (internal_halves _ _ _ _ _ _ HK Hcap Hsep) as (ll&lr&nl'&nr'&El&En&Ho'&Hb2&Kl&Kr&Fl&Fr).
    destruct (count_ok _ _ I4) as [Hmax _]. unfold Disk.MaxUint32 in Hmax. split_and!; [done|done|lia|].
    eapply (out_split _ _ _ _ _ _ _ _ _ _ ll (pid :: nl') lr (right sp' :: nr')); try done.
    + rewrite <-(in_keys _ _ _ HI' _ _ (lookup_mid _ _ _ Hsep)). apply kget_range.
    + pose proof node_pid. unfold go_pid. lia.
    + eexists nl, _, _, nl'. split_and!; [done|exact HL|done|exact Kl|done].
    + eexists nr, _, _, nr'. split_and!; [done|exact HR|done|exact Kr|done].
    + rewrite <-El. by apply added_ctx.
    + rewrite (fresh_snoc s s2 s') by lia. rewrite Hid, C3, app_assoc, <-absorbed_nodes, En.
      simpl. rewrite <-app_assoc. simpl. do 2 f_equiv. apply Permutation_cons_append.
  - destruct Hx as (HP&Hc&He&Hn). split_and!; [done|done|lia|]. pose proof KS_length.
    eapply out_overfull; [done|by intros ?%Hab| |by apply added_ctx|].
    + apply absorbed_sub; [rewrite HP; apply H3|intros q Hq Hne; rewrite HP; by apply P3|].
      split; [destruct r; lia|lia].
    + rewrite absorbed_nodes. unfold fresh. by rewrite Hc, C3.
Qed.
End absorbing.

Lemma absorb_ok sp s' x :
  outcome s1 s2 h false lo' hi' c lc nc (Ret (Some sp)) → absorb f pid (len ks1) sp s2 = (s', x) →
  inserted s s' (S h) r lo hi pid (l1 ++ lc ++ l2) ns x.
Proof.
  intros HO H. inversion HO as [|? la na lb nb Ho Hb Hk Hpd Ha Hb' Hadd Hns| | |]; subst.
  pose proof node_held as H2. destruct Hfill as [Hf1 Hf2].
  pose proof (fo_len _ _ _ _ _ _ _ _ _ _ _ _ _ _ _ _ _ HF) as Hlen.
  unfold absorb in H. rewrite (held_load _ _ _ _ _ I2 H2) in H.
  destruct (insertInternalAt_ok n _ _ (len ks1) (sepKey sp) (right sp) HI Hf2) as (n'&E&HI');
    [rewrite length_app; lia|done|done|]. rewrite E in H.
  rewrite insert_at_mid, insert_at_mid1 in HI' by lia.
  edestruct node_written as (I3&H3&_); [eassumption..|].
  rewrite (held_load _ _ _ _ _ I3 H3), (full_internal _ _ _ HI') in H.
  assert (len (ks1 ++ sepKey sp :: ks2) = len (ks1 ++ ks2) + 1) by (rewrite !length_app; simpl; lia).
  destruct (Z.leb_spec internalCap (len (ks1 ++ sepKey sp :: ks2))); simpl negb in H;
    [eapply absorb_splits|eapply absorb_fits]; done || lia.
Qed.
End internal_node.
(** Enough fuel is one unit per level. *)
Lemma insertInto_ok h : ∀ fuel s r lo hi pid lvs ns,
  p_inv ∅ s → sub true (p_page s) h r lo hi pid lvs ns → NoDup ns → within lo hi key → (h < fuel)%nat →
  ∃ s' x, insertInto fuel pid key tid s = Some (s', x) ∧ inserted s s' h r lo hi pid lvs ns x.
Proof.
  induction h as [|h IH]; intros fuel s r lo hi pid lvs ns I HS HN Hin Hf;
    (destruct fuel as [|fuel]; [lia|]); simpl insertInto; destruct (FetchPage pid s) as [s1 rf] eqn:EF.
  - pose proof HS as (n&es&nxt&Hp&L&_). pose proof (page_id _ _ _ _ I Hp) as Hpid. destruct rf as [f|e|].
    + destruct (fetched _ _ _ _ _ I Hp EF) as (I1&H1&_).
      rewrite (held_load _ _ _ _ _ I1 H1), (leaf_isLeaf _ _ _ L).
      destruct (insert_leaf f pid key tid s1) as [s' x] eqn:E. exists s', x. split; [done|].
      by eapply insert_leaf_ok.
    + destruct (fetch_fail ns _ _ _ _ _ I Hp EF) as (I1&K1&P1&C1&Hn). eexists _, _. split; [done|].
      split_and!; [done|done|lia|]. apply out_unchanged; try done. intros (?&?&?). apply Hn. split; [done|lia].
    + by destruct (fetch_ok _ _ _ _ _ I (proj1 Hpid) EF) as (_&?&_).
  - pose proof (sub_pages _ _ _ _ _ _ _ _ _ HS) as Hex.
    destruct (child_for_ok _ _ _ _ _ _ _ _ _ _ HS Hin)
      as (n&ks1&ks2&cs1&c&cs2&lo'&hi'&l1&lc&l2&n1&nc&n2&Hp&HI&Hfill&->&->&HC&F).
    pose proof (page_id _ _ _ _ I Hp) as Hpid. destruct rf as [f|e|].
    + destruct (fetched _ _ _ _ _ I Hp EF) as (I1&H1&P1&C1&_).
      rewrite (held_load _ _ _ _ _ I1 H1), (internal_isLeaf _ _ _ HI), HC.
      assert (NoDup nc) as HNc.
      { apply NoDup_cons in HN as [_ HN]. apply NoDup_app in HN as (_&_&HN). by apply NoDup_app in HN as (?&_&_). }
      destruct (IH fuel s1 false lo' hi' c lc nc) as (s2&x&->&(I2&K2&C2&HO)); [done| |done|by apply F|lia|].
      { eapply sub_frame; [by apply F| |done]. intros q _. apply P1. }
      destruct x as [[sp|]|e|]; [| | |by inversion HO].
      * destruct (absorb f pid (len ks1) sp s2) as [s' x] eqn:E. exists s', x. split; [done|].
        eapply absorb_ok; eassumption.
      * destruct (child_done s s1 s2 h r lo hi pid f n ks1 ks2 cs1 c cs2 lo' hi' l1 lc l2 n1 nc n2)
          as (s3&->&Hi); [done..|]. by eexists _, _.
      * destruct (child_failed s s1 s2 h r lo hi pid f n ks1 ks2 cs1 c cs2 lo' hi' l1 lc l2 n1 nc n2) with e
          as (s3&->&Hi); [done..|]. by eexists _, _.
    + destruct (fetch_fail (pid :: n1 ++ nc ++ n2) _ _ _ _ _ I Hp EF) as (I1&K1&P1&C1&Hn).
      eexists _, _. split; [done|].
      split_and!; [done|done|lia|]. apply out_unchanged; try done. intros (?&?&?). apply Hn. split; [done|lia].
    + by destruct (fetch_ok _ _ _ _ _ I (proj1 Hpid) EF) as (_&?&_).
Qed.
End insert.

(** ** The root *)

Lemma new_root_ok n0 c0 sep a b :
  internal n0 [] [c0] → go_key sep → go_pid a → go_pid b →
  ∃ nr, (let! nr := setKeyAt n0 0 sep in
         let! nr := setChildAt nr 0 a in
         let! nr := setChildAt nr 1 b in
         Ret (setKeyCount nr 1)) = Ret nr ∧ internal nr [sep] [a; b].
Proof.
  intros [W0 T0 C0 _ _ _ _] Hk Ha Hb. pose proof internal_min as Hm. pose proof caps_lt as Hcl.
  rewrite setKeyAt_ok by (done || lia). cbn [res_bind].
  destruct (kset_header n0 0 sep W0) as [W1 H1]; [lia|]. set (n1 := kset n0 0 sep) in *.
  rewrite setChildAt_ok by (done || lia). cbn [res_bind].
  destruct (cset_header n1 0 a W1) as [W2 H2]; [lia|]. set (n2 := cset n1 0 a) in *.
  rewrite setChildAt_ok by (done || lia). cbn [res_bind].
  destruct (cset_header n2 1 b W2) as [W3 H3]; [lia|]. set (n3 := cset n2 1 b) in *.
  destruct (header_fields n0 n3) as (T3&C3&X3); [by repeat (eapply same_header_trans; [eassumption|])|].
  destruct (setKeyCount_ok n3 1 W3) as (C4&T4&X4&[L4 SK _ SC]); [lia|].
  eexists. split; [done|]. split; [by apply (wf_same n3)|congruence|done|simpl; lia|done|..].
  - intros [|i] x Hi; [|apply lookup_lt_Some in Hi; simpl in Hi; lia]. injection Hi as <-. simpl. rewrite SK by lia.
    unfold n3. rewrite cset_kget by (exact W2 || lia). unfold n2. rewrite cset_kget by (exact W1 || lia).
    unfold n1. rewrite kset_kget by (exact W0 || exact Hk || lia). by rewrite decide_True.
  - intros [|[|i]] x Hi; [| |apply lookup_lt_Some in Hi; simpl in Hi; lia]; injection Hi as <-; simpl; rewrite SC by lia; unfold n3.
    + rewrite cset_cget by (exact W2 || exact Hb || lia). rewrite decide_False by lia.
      unfold n2. rewrite cset_cget by (exact W1 || exact Ha || lia). by rewrite decide_True.
    + rewrite cset_cget by (exact W2 || exact Hb || lia). by rewrite decide_True.
Qed.

Lemma meta_setRoot mp pid :
  wf_page mp → go_pid pid →
  wf_page (MetaPage.setRoot mp pid) ∧ MetaPage.magic (MetaPage.setRoot mp pid) = MetaPage.magic mp ∧
  MetaPage.root (MetaPage.setRoot mp pid) = pid.
Proof.
  intros Hw Hp. unfold wf_page, PageSize in *. unfold MetaPage.setRoot, MetaPage.magic, MetaPage.root, MetaPage.offMagic, MetaPage.offRoot.
  split_and!; [rewrite length_be_set; lia|apply be_at_set_ne; lia|apply be_at_set; [lia..|exact Hp]].
Qed.

Lemma setRoot_ok s pid mp s' x :
  p_inv ∅ s → p_page s metaPID = Some mp → go_pid pid → setRoot pid s = (s', x) →
  p_inv ∅ s' ∧ keeps [metaPID] s s' ∧ p_count s' = p_count s ∧
  match x with
  | Ret _ => p_page s' metaPID = Some (MetaPage.setRoot mp pid)
  | Fail e => (∀ q, p_page s' q = p_page s q) ∧ e ≠ ErrDuplicateKey ∧ ¬ able s
  | Panic => False
  end.
Proof.
  intros I Hp Hg H. pose proof (page_id _ _ _ _ I Hp) as Hpid. unfold setRoot in H.
  destruct (FetchPage metaPID s) as [s1 rf] eqn:EF. destruct rf as [f|e|].
  - destruct (fetched _ _ _ _ _ I Hp EF) as (I1&H1&P1&C1&_). rewrite (held_load _ _ _ _ _ I1 H1) in H.
    destruct (meta_setRoot mp pid) as [Hw _]; [exact (page_wf _ _ _ _ I Hp)|done|].
    destruct (store_held _ _ _ _ _ _ I1 H1 Hw) as (I2&H2&K2&C2).
    replace (∅ ∪ {[f]}) with ({[f]} : gset nat) in I2 by set_solver.
    destruct (bracket [metaPID] {[f]} s metaPID s1 f _ true I (proj1 Hpid) EF K2 I2) as (s3&HU&I3&K3&P3&C3);
      [done|by left|]. rewrite HU in H. injection H as <- <-.
    split_and!; [done|done|lia|]. rewrite P3. apply H2.
  - destruct (fetch_fail [metaPID] _ _ _ _ _ I Hp EF) as (I1&K1&P1&C1&Hn). injection H as <- <-. by split_and!.
  - by destruct (fetch_ok _ _ _ _ _ I (proj1 Hpid) EF) as (_&?&_).
Qed.

(** The old root and its new sibling, before the new root is recorded. *)
Record two_roots (s : W) (h : nat) (rt : Z) (sp : split) (la lb : list lf) (na nb : list Z) : Prop := TwoRoots {
  tw_key : go_key (sepKey sp);
  tw_pid : go_pid rt ∧ go_pid (right sp);
  tw_left : sub true (p_page s) h false None (Some (sepKey sp)) rt la na;
  tw_right : sub true (p_page s) h false (Some (sepKey sp)) None (right sp) lb nb }.

Lemma two_roots_kept s s' h rt sp la lb na nb :
  (∀ q, q ∈ na ++ nb → p_page s' q = p_page s q) →
  two_roots s h rt sp la lb na nb → two_roots s' h rt sp la lb na nb.
Proof.
  intros HP [K P L R]. split; [done|done|..]; (eapply sub_frame; [eassumption| |done]); intros q Hq; apply HP; set_solver.
Qed.

Lemma grow_root_ok s h rt sp la lb na nb mp s' x :
  p_inv ∅ s → p_page s metaPID = Some mp → metaPID ∉ na ++ nb →
  two_roots s h rt sp la lb na nb → grow_root rt sp s = (s', x) →
  p_inv ∅ s' ∧ keeps [metaPID] s s' ∧
  match x with
  | Ret _ => p_count s' = p_count s + 1 ∧ p_page s' metaPID = Some (MetaPage.setRoot mp (p_count s)) ∧
      sub true (p_page s') (S h) true None None (p_count s) (la ++ lb) (p_count s :: na ++ nb)
  | Fail e => p_page s' metaPID = Some mp ∧ two_roots s' h rt sp la lb na nb ∧ e ≠ ErrDuplicateKey ∧
      ¬ (able s ∧ p_count s < Disk.MaxUint32)
  | Panic => False
  end.
Proof.
  intros I Hm Hn0 HT H. unfold grow_root in H. destruct (NewPageIn s) as [s1 rn] eqn:EN.
  pose proof (alloc_ok _ _ _ _ I EN) as Hrn. destruct rn as [[rp rpid]|e|]; [|injection H as <- <-|done].
  2:{ destruct Hrn as (I1&K&P&C&Hn). split_and!; [done|apply K|by rewrite P| |done|done].
      eapply two_roots_kept; [|done]. intros q _. apply P. }
  destruct Hrn as (I1&Hid&R1&C1&_). destruct (count_ok _ _ I1) as [Hmax _]. unfold Disk.MaxUint32 in Hmax.
  pose proof (page_id _ _ _ _ I Hm) as Hmid. rewrite (held_load _ _ _ _ _ I1 R1) in H.
  destruct (new_root_ok _ _ (sepKey sp) rt (right sp) (internal_initInternal _ wf_zeroes))
    as (nr&E&HI); [apply HT..|]. rewrite E in H. clear E.
  destruct (store_held _ _ _ _ _ _ I1 R1 (in_wf _ _ _ HI)) as (I2&R2&K2&C2). set (s2 := store rp nr s1) in *.
  destruct (alloc_bracket true [] ∅ _ s s1 rp rpid s2 I EN K2 I2) as (s3&HU&I3&K3&P3&C3); [by left|].
  replace ((∅ ∪ {[rp]}) ∖ {[rp]}) with (∅ : gset nat) in I3 by set_solver. unfold st_bind in H. rewrite (unpinned _ _ _ _ HU) in H.
  assert (∀ q, q ∈ na ++ nb → 0 ≤ q < p_count s) as Hlt.
  { intros q Hq. destruct HT as [_ _ HL HR]. apply sub_pages in HL, HR. rewrite Forall_forall in HL, HR.
    apply elem_of_app in Hq as [Hq|Hq]; [destruct (HL _ Hq)|destruct (HR _ Hq)]; by eapply page_id. }
  assert (p_page s3 metaPID = Some mp) as Hm3 by (rewrite (k_page _ _ _ K3); [done|lia|set_solver]).
  assert (go_pid rpid) as Hg by (unfold go_pid; lia).
  destruct (setRoot_ok _ _ _ _ _ I3 Hm3 Hg H) as (I4&K4&C4&Hx).
  assert (keeps [metaPID] s s') as K by (eapply keeps_trans; [eapply keeps_weaken; [exact K3|set_solver]|done]).
  assert (two_roots s' h rt sp la lb na nb) as HT'.
  { eapply two_roots_kept; [|done]. intros q Hq. apply K; [by apply Hlt|set_solver]. }
  destruct x as [[]|e|]; [| |done].
  - split_and!; [done|done|lia|by rewrite <-Hid|]. rewrite <-Hid. destruct HT' as [_ _ HL HR].
    exists nr, [sepKey sp], [rt; right sp], (na ++ nb). split_and!; [|done|pose proof internal_min; split; simpl; lia| |done].
    + rewrite (k_page _ _ _ K4), P3; [apply R2|lia|]. rewrite list_elem_of_singleton. unfold metaPID in *. lia.
    + constructor; [done|done|done|]. by constructor.
  - destruct Hx as (HP&He&Hn). split_and!; [done|done|by rewrite HP|done|done|].
    intros [[Hh Hr] _]. apply Hn. split; [by apply K3|]. rewrite (k_room _ _ _ K3). lia.
Qed.
End nodes.
End BTreeInsert.
