(* ===== verification/BTreeIndex.v ===== *)
(** * The index as a whole

    Theorems about a complete index file over any pager: opening and creating
    it, lookups, range scans, insertions and how they can fail, and the height
    of the tree. *)

From S2P Require Import Prelude Bytes PageLayout SlottedPage Disk LRU BufferPool BufferInv PoolSpec Pager Callback Heap BTreeNode BTree BTreeInv BTreeSpec BTreeInsert.

Module BTreeIndex.
Import Node BTree BTreeInv BTreeSpec BTreeInsert Callback.
Import MetaPage(metaPID, metaMagic).

Section index.
Context {W : Type} {PW : Pager W} {VW : PagerView W} {SW : PagerSpec W}.
Context {CP : Caps} {OK : CapsOk}.

Abbreviation frame_rule := Heap.frame_rule.

Lemma quiet_rule s s' : quiet s s' → frame_rule s s'.
Proof. intros [I S H]. by apply Heap.same_rule. Qed.
Lemma keeps_rule D s s' : p_inv ∅ s' → keeps D s s' → frame_rule s s'.
Proof. by intros I [P N A R C O H]. Qed.

(** ** Insertion *)

(** The pages of the tree and the new ones are the pages of the larger file. *)
Lemma pages_extend (s s' : W) ns ns' :
  ns ≡ₚ seqZ 1 (p_count s - 1) → ns' ≡ₚ ns ++ fresh s s' → 1 ≤ p_count s ≤ p_count s' →
  ns' ≡ₚ seqZ 1 (p_count s' - 1).
Proof.
  intros Hn -> Hc. rewrite Hn. unfold fresh.
  replace (p_count s' - 1) with ((p_count s - 1) + (p_count s' - p_count s)) by lia.
  rewrite seqZ_app by lia. by replace (1 + (p_count s - 1)) with (p_count s) by lia.
Qed.

Lemma tree_nodes rest (s : W) rt h lvs ns : tree rest s rt h lvs ns → NoDup ns ∧ metaPID ∉ ns.
Proof.
  intros [_ _ HP _]. split; [rewrite HP; apply NoDup_seqZ|]. rewrite HP, elem_of_seqZ. unfold metaPID. lia.
Qed.

(** The file after the old root was split and no new root recorded: the root
    page holds the lower part [la] of the leaves only. *)
Definition root_cut (s : W) (h : nat) (rt : Z) (la lb : list lf) : Prop :=
  (∃ mp, p_page s metaPID = Some mp ∧ MetaPage.root mp = rt) ∧
  ∃ sp na nb, two_roots s h rt sp la lb na nb.

(** How an insertion that was not given a duplicate can fail. *)
Inductive failed (key : Z) (tid : TID) (s' : W) (rt : Z) (h : nat) (lvs : list lf) (ns : list Z) : Prop :=
| failed_unchanged : tree true s' rt h lvs ns → failed key tid s' rt h lvs ns
| failed_overfull lvs' ns' :
    tree false s' rt h lvs' ns' → with_entry key tid (flat lvs) (flat lvs') → failed key tid s' rt h lvs ns
| failed_root la lb :
    root_cut s' h rt la lb → with_entry key tid (flat lvs) (flat (la ++ lb)) → failed key tid s' rt h lvs ns.

Lemma root_err s s' e : root s = (s', Fail e) → e ≠ ErrDuplicateKey.
Proof.
  unfold root, unpin_then, ignore. destruct (FetchPage metaPID s) as [s1 [f|e1|]]; [|by intros [= <- <-]|done].
  by destruct (UnpinPage metaPID false s1) as [s2 [?|?|]].
Qed.

Lemma quiet_able_for h s s' : quiet s s' → able_for h s → able_for h s'.
Proof.
  intros [I S H] (?&?&?). split_and!; [auto|rewrite (ps_room _ _ S); lia|rewrite (ps_count _ _ S); lia].
Qed.

(** An insertion that did not reach the root page's parent, the meta page. *)
Lemma tree_kept rest s s' rt h lvs ns lvs' ns' :
  p_inv ∅ s → tree true s rt h lvs ns → keeps ns s s' → sub rest (p_page s') h true None None rt lvs' ns' →
  ns' ≡ₚ ns ++ fresh s s' → linked lvs' invalidPID → tree rest s' rt h lvs' ns'.
Proof.
  intros I T K HS Hn HL. destruct (tree_nodes _ _ _ _ _ _ T) as [_ Hm]. destruct T as [(mp&Hp&Hg&Hr) _ HP _].
  pose proof (page_id _ _ _ _ I Hp). pose proof (k_count _ _ _ K). split; [|done| |done].
  - exists mp. by rewrite (k_page _ _ _ K) by (done || lia).
  - eapply pages_extend; [done|done|lia].
Qed.

(** The root was split: the rest of [Insert]. *)
Lemma grow_root_tree s s2 rt h lvs ns key tid sp la na lb nb s' x :
  p_inv ∅ s → tree true s rt h lvs ns → p_inv ∅ s2 → keeps ns s s2 →
  two_roots s2 h rt sp la lb na nb → added key tid lvs (la ++ lb) → na ++ nb ≡ₚ ns ++ fresh s s2 →
  grow_root rt sp s2 = (s', x) →
  frame_rule s2 s' ∧
  match x with
  | Ret _ => ∃ rt' lvs' ns', tree true s' rt' (S h) lvs' ns' ∧ with_entry key tid (flat lvs) (flat lvs')
  | Fail e => e ≠ ErrDuplicateKey ∧ ¬ (able s2 ∧ p_count s2 < Disk.MaxUint32) ∧ root_cut s' h rt la lb
  | Panic => False
  end.
Proof.
  intros I T I2 K HT Hadd Hn H. destruct (tree_nodes _ _ _ _ _ _ T) as [_ Hm].
  destruct T as [(mp&Hp&Hg&Hr) _ HP HL]. pose proof (page_id _ _ _ _ I Hp) as Hmid. pose proof (k_count _ _ _ K) as Hc.
  assert (p_page s2 metaPID = Some mp) as Hp2 by (by rewrite (k_page _ _ _ K) by (done || lia)).
  assert (metaPID ∉ na ++ nb) as Hm2.
  { rewrite Hn, elem_of_app. unfold fresh. rewrite elem_of_seqZ. intros [?|?]; [done|lia]. }
  destruct (grow_root_ok _ _ _ _ _ _ _ _ _ _ _ I2 Hp2 Hm2 HT H) as (I3&K3&Hx).
  split; [by eapply keeps_rule|]. destruct x as [[]|e|]; [| |done].
  - destruct Hx as (C3&Hmp&HS). exists (p_count s2), (la ++ lb), (p_count s2 :: na ++ nb).
    split; [|by apply added_flat]. destruct (count_ok _ _ I3) as [Hmax _]. unfold Disk.MaxUint32 in Hmax.
    destruct (meta_setRoot mp (p_count s2)) as (_&Hmg&Hrt); [exact (page_wf _ _ _ _ I Hp)|unfold go_pid; lia|].
    split; [|done| |by eapply added_linked].
    + eexists. split_and!; [done|by rewrite Hmg|done].
    + eapply (pages_extend s s' ns); [done| |lia]. rewrite (fresh_snoc s s2 s') by lia.
      rewrite Hn, app_assoc. apply Permutation_cons_append.
  - destruct Hx as (Hmp&HT'&He&Hn'). split_and!; [done|done|].
    split; [by exists mp|by exists sp, na, nb].
Qed.

(** The halves of a split root. *)
Lemma split_two_roots s h rt sp la na lb nb :
  p_inv ∅ s → go_key (sepKey sp) → go_pid (right sp) →
  sub true (p_page s) h false None (Some (sepKey sp)) rt la na →
  sub true (p_page s) h false (Some (sepKey sp)) None (right sp) lb nb → two_roots s h rt sp la lb na nb.
Proof.
  intros I Hk Hp Ha Hb. split; [done| |done|done]. split; [|done].
  pose proof (sub_in _ _ _ _ _ _ _ _ _ Ha) as Hr. pose proof (sub_pages _ _ _ _ _ _ _ _ _ Ha) as Hpg.
  rewrite Forall_forall in Hpg. destruct (Hpg _ Hr) as [p Hpp]. pose proof (page_id _ _ _ _ I Hpp).
  destruct (count_ok _ _ I) as [Hmax _]. unfold Disk.MaxUint32 in Hmax. unfold go_pid. lia.
Qed.

Lemma Insert_ok s rt h lvs ns key tid fuel :
  p_inv ∅ s → tree true s rt h lvs ns → go_key key → go_tid tid → (h < fuel)%nat →
  ∃ s' x, Insert fuel key tid s = Some (s', x) ∧ frame_rule s s' ∧
  match x with
  | Ret _ => ∃ rt' h' lvs' ns', tree true s' rt' h' lvs' ns' ∧ (h ≤ h' ≤ S h)%nat ∧
               with_entry key tid (flat lvs) (flat lvs')
  | Fail e => (e = ErrDuplicateKey ∧ key ∈ (flat lvs).*1 ∧ tree true s' rt h lvs ns) ∨
              (e ≠ ErrDuplicateKey ∧ ¬ able_for h s ∧ failed key tid s' rt h lvs ns)
  | Panic => False
  end.
Proof.
  intros I T Hk Ht Hf. unfold Insert. destruct (root_ok _ _ _ _ _ _ I T) as (s1&x1&E1&[Q Hx]). rewrite E1.
  pose proof (tree_same _ _ _ _ _ _ _ Q T) as T1. pose proof (q_inv _ _ Q) as I1.
  destruct Hx as [->|[(e&->) Hn]].
  2:{ eexists _, _. split; [done|]. split; [by apply quiet_rule|]. right. split_and!; [by eapply root_err| |by constructor].
      intros (?&?&?). apply Hn. split; [done|lia]. }
  destruct (tree_nodes _ _ _ _ _ _ T) as [HN _].
  destruct (insertInto_ok key tid Hk Ht h fuel s1 true None None rt lvs ns I1 (tr_sub _ _ _ _ _ _ T1) HN)
    as (s2&x&->&(I2&K2&C2&HO)); [done|done|].
  assert (frame_rule s s2) as FR by (eapply Heap.rule_trans; [by apply quiet_rule|by eapply keeps_rule]).
  pose proof (tr_chain _ _ _ _ _ _ T1) as HL. pose proof (sub_same true s1 s2) as HSame.
  destruct HO as [lvs' ns' HS Hadd Hns|sp la na lb nb Ho Hb Hks Hps Ha Hb' Hadd Hns|Hin HP HC|e He Hab HP HC|e lvs' ns' He Hab HS Hadd Hns].
  - eexists _, _. split; [done|]. split; [done|]. exists rt, h, lvs', ns'.
    split_and!; [|lia|lia|by apply added_flat]. eapply tree_kept; [exact I1|done..|by eapply added_linked].
  - destruct (grow_root rt sp s2) as [s3 x] eqn:EG. eexists _, _. split; [done|].
    pose proof (split_two_roots _ _ _ _ _ _ _ _ I2 Hks Hps Ha Hb') as HT.
    destruct (grow_root_tree s1 s2 rt h lvs ns key tid sp la na lb nb s3 x) as [FR3 Hx]; [done..|].
    split; [by eapply Heap.rule_trans|]. destruct x as [[]|e|]; [| |done].
    + destruct Hx as (rt'&lvs'&ns'&?&?). exists rt', (S h), lvs', ns'. split_and!; [done|lia|lia|done].
    + destruct Hx as (?&Hab&?). right. split_and!; [done| |eapply failed_root; [done|by apply added_flat]].
      intros Hable. apply Hab.
      apply (quiet_able_for _ _ _ Q) in Hable as (Hh&Hr&Hc). split; [|lia].
      split; [by apply K2|rewrite (k_room _ _ _ K2); lia].
  - eexists _, _. split; [done|]. split; [done|]. left. split_and!; [done|done|].
    eapply tree_kept; [exact I1|done|done|..|done].
    + eapply sub_frame; [apply T1|intros q _; apply HP|done].
    + by rewrite fresh_none, app_nil_r by lia.
  - eexists _, _. split; [done|]. split; [done|]. right.
    split_and!; [done|by intros ?%(quiet_able_for _ _ _ Q)|]. apply failed_unchanged.
    eapply tree_kept; [exact I1|done|done|..|done].
    + eapply sub_frame; [apply T1|intros q _; apply HP|done].
    + by rewrite fresh_none, app_nil_r by lia.
  - eexists _, _. split; [done|]. split; [done|]. right.
    split_and!; [done|by intros ?%(quiet_able_for _ _ _ Q)|]. eapply failed_overfull; [|by apply added_flat].
    eapply tree_kept; [exact I1|done..|by eapply added_linked].
Qed.
(** ** Creating and opening a file *)

Lemma meta_format mp root :
  wf_page mp → go_pid root →
  let m := MetaPage.setRoot (MetaPage.setMagic mp metaMagic) root in
  wf_page (MetaPage.setMagic mp metaMagic) ∧ wf_page m ∧ MetaPage.magic m = metaMagic ∧ MetaPage.root m = root.
Proof.
  intros Hw Hr. assert (wf_page (MetaPage.setMagic mp metaMagic)) as Hw'.
  { unfold wf_page, MetaPage.setMagic, MetaPage.offMagic in *. rewrite length_be_set; unfold PageSize in *; lia. }
  destruct (meta_setRoot _ root Hw' Hr) as (H1&H2&H3). split_and!; [done|done| |done]. rewrite H2.
  unfold MetaPage.magic, MetaPage.setMagic, MetaPage.offMagic, wf_page, PageSize, metaMagic in *.
  apply be_at_set; [lia..|]. split; [lia|]. change (256 ^ 4) with 4294967296. lia.
Qed.

Lemma bootstrap_ok s s' x :
  p_inv ∅ s → p_count s = 0 → bootstrap s = (s', x) →
  frame_rule s s' ∧
  match x with
  | Ret _ => tree true s' 1 0 [Lf 1 [] invalidPID] [1]
  | Fail e => (p_count s' = 0 ∨ p_count s' = 1 ∧ p_page s' metaPID = Some (zeroes PageSize)) ∧
              ¬ (p_healthy s ∧ (2 ≤ p_room s)%nat)
  | Panic => False
  end.
Proof.
  intros I Hc H. unfold bootstrap in H. destruct (NewPageIn s) as [s1 r1] eqn:E1.
  pose proof (alloc_ok _ _ _ _ I E1) as A1. destruct r1 as [[mp mpid]|e|]; [|injection H as <- <-|done].
  2:{ destruct A1 as (I1&K&P&C&Hn). split; [by eapply (keeps_rule [])|]. split; [left; lia|].
      intros [? ?]. apply Hn. unfold able, Disk.MaxUint32. split; [split; [done|lia]|lia]. }
  destruct A1 as (I1&Hid1&H1&C1&_). rewrite Hc in *. subst mpid.
  destruct (NewPageIn s1) as [s2 r2] eqn:E2. pose proof (alloc_ok _ _ _ _ I1 E2) as A2.
  destruct r2 as [[rp rpid]|e|]; [| |done].
  2:{ destruct A2 as (I2&K&P&C&Hn).
      destruct (alloc_bracket false [] ∅ ∅ s s1 mp 0 s2 I E1 (K _) I2) as (s3&HU&I3&K3&P3&C3); [right; set_solver|].
      rewrite HU in H. injection H as <- <-.
      split; [by eapply keeps_rule|]. split; [right; split; [lia|rewrite P3, P; apply H1]|].
      intros [Hh Hr]. apply Hn. destruct (new_ok _ _ _ _ I E1) as (_&(_&_&_&R1)&Hh1).
      unfold able, Disk.MaxUint32. split; [split; [by apply Hh1|lia]|lia]. }
  destruct A2 as (I2&Hid2&R2&C2&Hold). destruct (Hold _ _ _ H1) as [Hne H2]. rewrite C1 in *. change (0 + 1) with 1 in *. subst rpid.
  rewrite (held_load _ _ _ _ _ I2 R2) in H. pose proof (leaf_initLeaf _ wf_zeroes) as L.
  destruct (meta_format (zeroes PageSize) 1 wf_zeroes) as (W1&W2&Hmg&Hrt); [unfold go_pid; lia|].
  revert H Hmg Hrt W1 W2 L H2 H1. generalize (initLeaf (zeroes PageSize)) as rl. generalize (zeroes PageSize) as z0.
  intros z0 rl H Hmg Hrt W1 W2 L H2 H1.
  destruct (store_held _ _ _ _ _ _ I2 R2 (lf_wf _ _ _ L)) as (I3&R3&K3&C3). set (s3 := store rp rl s2) in *.
  pose proof (held_keeps _ _ _ _ _ _ _ I2 K3 H2 ltac:(set_solver)) as H3. rewrite (held_load _ _ _ _ _ I3 H3) in H.
  destruct (store_held _ _ _ _ _ _ I3 H3 W1) as (I4&H4&K4&C4). set (s4 := store mp _ s3) in *.
  pose proof (held_keeps _ _ _ _ _ _ _ I3 K4 R3 ltac:(set_solver)) as R4. rewrite (held_load _ _ _ _ _ I4 H4) in H.
  destruct (store_held _ _ _ _ _ _ I4 H4 W2) as (I5&H5&K5&C5). set (s5 := store mp _ s4) in *.
  pose proof (held_keeps _ _ _ _ _ _ _ I4 K5 R4 ltac:(set_solver)) as R5.
  assert (keeps [1; 0] s2 s5) as K25.
  { do 2 (eapply keeps_trans; [eapply keeps_weaken; [eassumption|set_solver]|]).
    eapply keeps_weaken; [exact K5|set_solver]. }
  destruct (alloc_bracket true [0] ∅ _ s1 s2 rp 1 s5 I1 E2 K25 I5) as (s6&HU6&I6&K6&P6&C6); [by left|].
  destruct (alloc_bracket true [] ∅ _ s s1 mp 0 s6 I E1 K6 I6) as (s7&HU7&I7&K7&P7&C7); [by left|].
  replace ((((∅ ∪ {[rp]}) ∪ {[mp]} ∪ {[mp]}) ∖ {[rp]}) ∖ {[mp]}) with (∅ : gset nat) in I7 by set_solver.
  unfold st_bind in H. rewrite (unpinned _ _ _ _ HU6), (unpinned _ _ _ _ HU7) in H. injection H as <- <-.
  split; [by eapply keeps_rule|]. split.
  - eexists. rewrite P7, P6. split_and!; [apply H5|done|done].
  - exists rl, [], invalidPID. rewrite P7, P6. pose proof leaf_min.
    split_and!; [apply R5|done|split; simpl; lia|constructor|constructor|done|done].
  - replace (p_count s7 - 1) with 1 by lia. done.
  - done.
Qed.
(** ** The theorems *)

Lemma with_entry_map key tid (es es' : entries) :
  StronglySorted Z.lt es'.*1 → with_entry key tid es es' →
  (key ∉ es.*1) ∧ as_map es' = <[key := tid]> (as_map es).
Proof.
  intros Hs (a&b&->&->). assert (key ∉ (a ++ b).*1) as Hn; [|by split; [|apply as_map_insert]].
  apply sorted_NoDup in Hs. rewrite keys_app in *. simpl in Hs.
  rewrite <-Permutation_middle in Hs. by apply NoDup_cons in Hs as [? _].
Qed.

(** C4: insertion implements the ordered map, with splits at any level and a
    new root.  On a well-formed index whose nodes are all below their capacity,
    as every successful insertion leaves them, it terminates and never panics;
    success
    adds exactly the entry, to an index that is again balanced, sorted, chained
    and at least half full, and the key was new; a present key gives
    ErrDuplicateKey and no change.  Any other error needs a pager that is
    unhealthy or short of frames or page ids, and leaves one of three states:
    the index as it was, a searchable index with the entry and a node at its
    capacity, or a root that was split with its upper half cut off.  Every pin
    is given back and no other file is touched. *)
Theorem Insert_implements_map s h es key tid fuel :
  p_inv ∅ s → btree true s h es → go_key key → go_tid tid → (h < fuel)%nat →
  ∃ s' x, Insert fuel key tid s = Some (s', x) ∧
  p_inv ∅ s' ∧ (∀ q, p_pins s' q = p_pins s q) ∧ p_room s' = p_room s ∧ p_others s s' ∧
  match x with
  | Ret _ => (key ∉ es.*1) ∧ ∃ h' es', btree true s' h' es' ∧ (h ≤ h' ≤ S h)%nat ∧
               as_map es' = <[key := tid]> (as_map es)
  | Fail e =>
      (e = ErrDuplicateKey ∧ key ∈ es.*1 ∧ btree true s' h es) ∨
      (e ≠ ErrDuplicateKey ∧ ¬ able_for h s ∧
        (btree true s' h es ∨
         (∃ es', btree false s' h es' ∧ as_map es' = <[key := tid]> (as_map es)) ∨
         (∃ rt la lb, root_cut s' h rt la lb ∧ with_entry key tid es (flat (la ++ lb)))))
  | Panic => False
  end.
Proof.
  intros I (rt&lvs&ns&T&->) Hk Ht Hf.
  destruct (Insert_ok _ _ _ _ _ _ _ _ I T Hk Ht Hf) as (s'&x&E&[I' N R O _]&Hx).
  exists s', x. split_and!; try done. destruct x as [[]|e|]; [| |done].
  - destruct Hx as (rt'&h'&lvs'&ns'&T'&Hh&He). destruct (sub_sorted _ _ _ _ _ _ _ _ _ (tr_sub _ _ _ _ _ _ T')) as [Hs _].
    destruct (with_entry_map _ _ _ _ Hs He). split; [done|]. exists h', (flat lvs'). split_and!; try lia; [|done].
    by exists rt', lvs', ns'.
  - destruct Hx as [(->&?&?)|(He&Ha&HF)]; [left; split_and!; [done|done|by exists rt, lvs, ns]|right].
    split_and!; [done|done|]. destruct HF as [T'|lvs' ns' T' Hw|la lb Hcut Hw].
    + left. by exists rt, lvs, ns.
    + right; left. destruct (sub_sorted _ _ _ _ _ _ _ _ _ (tr_sub _ _ _ _ _ _ T')) as [Hs _].
      exists (flat lvs'). split; [by exists rt, lvs', ns'|]. by apply with_entry_map.
    + right; right. by exists rt, la, lb.
Qed.

(** C5: a lookup returns the TID stored under the key, or the zero TID and false
    when there is none, also in an index with a node at its capacity; it fails
    only when a page cannot be fetched, never panics, and changes nothing. *)
Theorem Search_is_lookup rest s h es key fuel :
  p_inv ∅ s → btree rest s h es → (h < fuel)%nat →
  ∃ s' x, Search fuel key s = Some (s', x) ∧ p_inv ∅ s' ∧ p_same s s' ∧
    (x = Ret (answer (as_map es) key) ∨ (∃ e, x = Fail e) ∧ ¬ able s).
Proof.
  intros I (rt&lvs&ns&T&->) Hf. destruct (Search_ok _ _ _ _ _ _ _ key I T Hf) as (s'&x&E&[[I' S _] Hx]).
  exists s', x. by split_and!.
Qed.

(** A file has fewer leaves than pages. *)
Lemma leaves_count rest s rt h lvs ns :
  p_inv ∅ s → tree rest s rt h lvs ns → (length lvs < Z.to_nat (p_count s))%nat.
Proof.
  intros I T. destruct (root_leaves _ _ _ _ _ _ _ _ (tr_sub _ _ _ _ _ _ T)) as [Hl _].
  pose proof (tr_pages _ _ _ _ _ _ T) as HP. apply Permutation_length in HP. rewrite length_seqZ in HP.
  destruct (tr_meta _ _ _ _ _ _ T) as (mp&Hp&_). pose proof (page_id _ _ _ _ I Hp). unfold metaPID in *. lia.
Qed.

Lemma btree_kept rest s s' h es : p_kept s s' → btree rest s h es → btree rest s' h es.
Proof.
  intros [_ P _ _ C _ _] (rt&lvs&ns&[(mp&Hm&Hg&Hr) HS HP HL]&->). exists rt, lvs, ns. split; [|done]. split.
  - exists mp. by rewrite P.
  - eapply sub_frame; [exact HS|intros q _; apply P|done].
  - by rewrite C.
  - done.
Qed.

(** C6: a range scan hands the callback the entries with [lo <= key <= hi] in
    key order and stops at its first error, which it returns.  The callback may
    use the pool as long as it gives back its pins, leaves the pages of the index
    as they are and does not panic; [J] is any invariant of its own over its
    variables and the other files.  A
    page that cannot be fetched ends the scan with that error after a prefix of
    the entries, and cannot occur on a healthy pager with a free frame.  As many
    rounds as the file has pages are enough, the loop over the leaf chain always
    ends, and the index is unchanged. *)
Theorem Scan_is_range {A} rest s h es lo hi (fn : callback W (Z * TID) A) J E a fuel fuel' :
  p_inv ∅ s → btree rest s h es → (h < fuel)%nat → (Z.to_nat (p_count s) ≤ fuel')%nat →
  loop_inv s (range lo hi es) fn J E → J [] s a →
  ∃ s' a' x, Scan fuel fuel' lo hi fn s a = Some ((s', a'), x) ∧ p_inv ∅ s' ∧ p_kept s s' ∧
    btree rest s' h es ∧
    (ran J E [] (range lo hi es) s' a' x ∨ scan_cut (J:=J) [] (range lo hi es) s' a' x ∧ ¬ able s).
Proof.
  intros I HB Hf Hf' LI HJ. pose proof HB as (rt&lvs&ns&T&->).
  destruct (Scan_ok _ _ _ _ _ _ fuel fuel' lo hi fn J E a I T Hf) as (s'&a'&x&Eq&I'&K&Hx); [|done|done|].
  { pose proof (leaves_count _ _ _ _ _ _ I T). lia. }
  exists s', a', x. split_and!; [done..|by eapply btree_kept|done].
Qed.

(** C30: opening.  On an empty file [NewBTree] lays out the meta page and an empty
    root leaf; it accepts every well-formed index and refuses a file whose first
    page does not carry the magic number, both without changing anything.
    Creation fails only without two free frames or on an unhealthy pager, and
    then leaves an empty file or one with a single zeroed page, which later
    openings refuse. *)
Theorem NewBTree_opens s s' x :
  p_inv ∅ s → NewBTree s = (s', x) →
  p_inv ∅ s' ∧ (∀ q, p_pins s' q = p_pins s q) ∧ p_room s' = p_room s ∧ p_others s s' ∧
  (p_count s = 0 → match x with
    | Ret _ => btree true s' 0 []
    | Fail e => (p_count s' = 0 ∨ p_count s' = 1 ∧ p_page s' metaPID = Some (zeroes PageSize)) ∧
                ¬ (p_healthy s ∧ (2 ≤ p_room s)%nat)
    | Panic => False
    end) ∧
  (p_count s ≠ 0 → p_same s s' ∧ ∃ mp, p_page s metaPID = Some mp ∧
    (x = (if MetaPage.magic mp =? metaMagic then Ret tt
          else Fail (Errorf "nbtree: not an index file (bad magic)")) ∨
     (∃ e, x = Fail (Wrapf "nbtree: open" e)) ∧ ¬ able s)).
Proof.
  intros I H. unfold NewBTree in H. destruct (count_ok _ _ I) as [Hc Hn]. rewrite Hn in H.
  destruct (Z.eqb_spec (p_count s) 0) as [E|E].
  - destruct (bootstrap_ok _ _ _ I E H) as [[I' N R O _] Hx]. split_and!; try done. intros _.
    destruct x; [|done|done]. by exists 1, [Lf 1 [] invalidPID], [1].
  - destruct (proj2 (page_ok _ _ metaPID I)) as [mp Hp]; [unfold metaPID; lia|].
    assert (quiet s s' ∧ (x = (if MetaPage.magic mp =? metaMagic then Ret tt
      else Fail (Errorf "nbtree: not an index file (bad magic)")) ∨
      (∃ e, x = Fail (Wrapf "nbtree: open" e)) ∧ ¬ able s)) as [[I' S _] Hx].
    { destruct (visit _ _ _ I Hp) as [(s1&f&s2&E1&L&Q&HU)|(s1&e&E1&Q&Hn')]; rewrite E1 in H.
      - rewrite L, HU in H. injection H as <- <-. split; [done|by left].
      - injection H as <- <-. split; [done|right]. eauto. }
    split_and!; [done|apply S|apply S|apply S|done|]. intros _. split; [done|by exists mp].
Qed.
End index.

(** Leaves are half full, so an index of [n] entries has at most [n / 146 + 2]
    pages. *)
Lemma pages_bound {W} `{PagerSpec W} rest (s : W) h es :
  p_inv ∅ s → btree (CP:=production) rest s h es → 146 * p_count s ≤ len es + 292.
Proof.
  intros I (rt&lvs&ns&T&->). pose proof (tr_sub _ _ _ _ _ _ T) as HS. pose proof (sub_nodes _ _ _ _ _ _ _ _ _ HS) as Hn.
  pose proof (tr_pages _ _ _ _ _ _ T) as HP. apply Permutation_length in HP. rewrite length_seqZ in HP.
  destruct h as [|h].
  - destruct HS as (n&es&nxt&_&_&_&_&_&->&->). simpl in HP. lia.
  - pose proof (half_entries _ (root_half _ _ _ _ _ _ _ _ HS)) as He. change (leafCap / 2) with 292 in He. lia.
Qed.

(** The entries under a root, and the height a 32-bit page count allows. *)
Lemma height_facts {W} `{PagerSpec W} rest (s : W) h es :
  p_inv ∅ s → btree (CP:=production) rest s h es →
  (0 < Z.of_nat h → 2 * 341 ^ (Z.of_nat h - 1) * 292 ≤ len es) ∧ (h ≤ 4)%nat.
Proof.
  intros I (rt&lvs&ns&T&->). pose proof (tr_sub _ _ _ _ _ _ T) as HS. destruct h as [|h]; [split; lia|].
  destruct (root_leaves _ _ _ _ _ _ _ _ HS) as [Hl Hm]. pose proof (half_entries _ (root_half _ _ _ _ _ _ _ _ HS)) as He.
  pose proof (tr_pages _ _ _ _ _ _ T) as HP. apply Permutation_length in HP. rewrite length_seqZ in HP.
  destruct (count_ok _ _ I) as [Hmax _]. unfold Disk.MaxUint32 in Hmax.
  specialize (Hm ltac:(lia)). change min_children with 341%nat in Hm. change (leafCap / 2) with 292 in He.
  rewrite Nat.sub_succ, Nat.sub_0_r in Hm. apply Nat2Z.inj_le in Hm. rewrite Nat2Z.inj_mul, Nat2Z.inj_pow in Hm.
  change (Z.of_nat 2) with 2 in Hm. change (Z.of_nat 341) with 341 in Hm.
  replace (Z.of_nat (S h) - 1) with (Z.of_nat h) by lia. split; [lia|].
  destruct (decide (h ≤ 3)%nat) as [|Hh]; [lia|]. exfalso.
  pose proof (Z.pow_le_mono_r 341 4 (Z.of_nat h) ltac:(lia) ltac:(lia)) as Hp.
  change (341 ^ 4) with 13521270961 in Hp. lia.
Qed.

(** C29: the operations of a production index are bounded, whatever it holds.
    Page ids are 32 bits wide, so no index is higher than 4: [Search], [Insert]
    and the descent of [Scan] end within five rounds, and the walk of [Scan] within
    one round per page.  A successful insertion keeps it so: nodes stay at least
    half full, so an index of [n] entries has at most [n / 146 + 2] pages.  Six
    frames and six page ids on a healthy pager are enough for any insertion: the
    only error is then ErrDuplicateKey. *)
Theorem operations_bounded {W} `{PagerSpec W} (s : W) h es :
  p_inv ∅ s → btree (CP:=production) true s h es →
  (h ≤ 4)%nat ∧ 146 * p_count s ≤ len es + 292 ∧
  (∀ key, ∃ s' x, Search 5 key s = Some (s', x) ∧
     (x = Ret (answer (as_map es) key) ∨ (∃ e, x = Fail e) ∧ ¬ able s)) ∧
  (∀ A lo hi (fn : callback W (Z * TID) A) J E a, loop_inv s (range lo hi es) fn J E → J [] s a →
     ∃ s' a' x, Scan 5 (Z.to_nat (p_count s)) lo hi fn s a = Some ((s', a'), x)) ∧
  (∀ key tid, go_key key → go_tid tid →
     ∃ s' x, Insert 5 key tid s = Some (s', x) ∧
     match x with
     | Ret _ => ∃ h' es', btree true s' h' es' ∧ (h' ≤ 4)%nat ∧ len es' = len es + 1 ∧
                  146 * p_count s' ≤ len es' + 292
     | Fail e => e = ErrDuplicateKey ∧ key ∈ es.*1 ∨
                 ¬ (p_healthy s ∧ (6 ≤ p_room s)%nat ∧ p_count s + 6 ≤ Disk.MaxUint32)
     | Panic => False
     end).
Proof.
  intros I T. destruct (height_facts _ _ _ _ I T) as [_ Hh]. pose proof (pages_bound _ _ _ _ I T) as Hp.
  destruct T as (rt&lvs&ns&T&->). split_and!; [done|done|..].
  - intros key. destruct (Search_ok _ _ _ _ _ _ 5 key I T ltac:(lia)) as (s'&x&E&[_ Hx]). by exists s', x.
  - intros A lo hi fn J E a LI HJ. pose proof (leaves_count _ _ _ _ _ _ I T).
    destruct (Scan_ok _ _ _ _ _ _ 5 (Z.to_nat (p_count s)) lo hi fn J E a I T) as (s'&a'&x&Eq&_); [lia|lia|done|done|]. eauto.
  - intros key tid Hk Ht. destruct (Insert_ok _ _ _ _ _ _ _ 5 I T Hk Ht ltac:(lia)) as (s'&x&E&[I' _ _ _ _]&Hx).
    exists s', x. split; [done|]. destruct x as [[]|e|]; [| |done].
    + destruct Hx as (rt'&h'&lvs'&ns'&T'&_&(a&b&Ha&Hb)).
      assert (btree (CP:=production) true s' h' (flat lvs')) as B' by (by exists rt', lvs', ns').
      destruct (height_facts _ _ _ _ I' B') as [_ Hh']. exists h', (flat lvs').
      split_and!; [done|done|rewrite Ha, Hb, !length_app; simpl; lia|by eapply pages_bound].
    + destruct Hx as [(->&?&_)|(_&Ha&_)]; [by left|right]. intros (?&?&?). apply Ha. split_and!; [done|lia|lia].
Qed.
End BTreeIndex.
