(* ===== verification/BTreeExamples.v ===== *)
(** * The index over a real buffer pool

    Concrete runs, with the capacities shrunk as the repository's tests do: the
    hypotheses of the index theorems hold for them, and two runs with a failing
    disk show what an error in the middle of a split costs. *)

From S2P Require Import Prelude Bytes PageLayout SlottedPage Disk LRU BufferPool BufferInv PoolSpec Pager Callback Heap BTreeNode BTree BTreeInv BTreeSpec BTreeInsert BTreeIndex.

Module BTreeExamples.
Import Node BTree BTreeInv BTreeSpec BTreeInsert BTreeIndex Callback.
Import Pool PoolSpec.

#[local] Instance tiny : Caps := {| internalCap := 3; leafCap := 2 |}.
#[local] Instance tiny_ok : CapsOk.
Proof. split; vm_compute; congruence. Qed.

Definition ex_h : FileHandle := Handle 0.
#[local] Instance ex_pager : Pager BufferPool := pool_pager ex_h.
#[local] Instance ex_view : PagerView BufferPool := pool_view ex_h.
#[local] Instance ex_spec : PagerSpec BufferPool := pool_pager_spec ex_h.

(** An empty file whose next system calls have the outcomes [sched]. *)
Definition ex_disk (sched : list io_outcome) : Disk.DiskManager :=
  Disk.DM (OsFile [] [] true sched) 0.
(** A pool of eight frames with that file. *)
Definition ex_pool (sched : list io_outcome) : BufferPool := ex_bp 8 [ORegister (ex_disk sched)].

(** A run: create the index, then insert keys; each with its result. *)
Definition tid_of (k : Z) : TID := Tid (k + 1000) 7.
Fixpoint inserts (ks : list Z) (s : BufferPool) : BufferPool * list (res unit) :=
  match ks with
  | [] => (s, [])
  | k :: ks =>
      match Insert 6 k (tid_of k) s with
      | Some (s, r) => let '(s, rs) := inserts ks s in (s, r :: rs)
      | None => (s, [])
      end
  end.
Definition built (sched : list io_outcome) (ks : list Z) : BufferPool * list (res unit) :=
  inserts ks (NewBTree (ex_pool sched)).1.
Definition find (s : BufferPool) (k : Z) : option (res (TID * bool)) := snd <$> Search 6 k s.

(** ** Errors in the middle of a split *)

(** A run: what a failed allocation during a split costs.  If the new leaf cannot be
    allocated, [Insert] returns the error although the key is in the leaf, which
    stays at its capacity; the next insertion into it succeeds and overwrites the
    TIDs of entries inserted before (a lookup of key 10 then answers page 0,
    slot 0).  If the new root cannot be allocated, an entry inserted successfully
    before is no longer found. *)
Example failed_split_loses_entries :
  let overfull := built [IOok; IOok; IOfail 0] [10; 20] in
  let after := built [IOok; IOok; IOfail 0] [10; 20; 30] in
  let cut := built [IOok; IOok; IOok; IOfail 0] [20; 10] in
  (map is_ret overfull.2 = [true; false] ∧
   find overfull.1 10 = Some (Ret (tid_of 10, true)) ∧ find overfull.1 20 = Some (Ret (tid_of 20, true))) ∧
  (map is_ret after.2 = [true; false; true] ∧
   find after.1 10 = Some (Ret (Tid 0 0, true)) ∧ find after.1 20 ≠ Some (Ret (tid_of 20, true))) ∧
  (map is_ret cut.2 = [true; false] ∧ find cut.1 20 = Some (Ret (Tid 0 0, false))).
Proof. vm_compute. split_and!; done. Qed.

(** Collect the keys. *)
Definition ex_keys : callback BufferPool (Z * TID) (list Z) := collect (λ x a, (a ++ [x.1], None)).

(** A longer run: splits at two levels, lookups and a range. *)
Example run_splits :
  let r := built [] [50; 40; 30; 20; 10; 60; 70; 80] in
  map is_ret r.2 = repeat true 8 ∧
  map (find r.1) [10; 45; 80] = [Some (Ret (tid_of 10, true)); Some (Ret (Tid 0 0, false)); Some (Ret (tid_of 80, true))] ∧
  ((λ '(_, a, x), (a, x)) <$> Scan 6 12 15 65 ex_keys r.1 []) =
    Some ([20; 30; 40; 50; 60], Ret tt).
Proof. vm_compute. split_and!; reflexivity. Qed.

(** ** The hypotheses of the theorems hold *)

Definition ex_file : BufferPool := ex_pool [].
Definition ex_new : BufferPool := (NewBTree ex_file).1.

Lemma ex_file_inv : p_inv ∅ ex_file.
Proof.
  split; [|vm_compute; eauto].
  assert (hist (ex_fresh 8) (ex_hist 8 [ORegister (ex_disk [])]) ∅ ex_file) as H.
  { apply (ex_reach 8 [ORegister (ex_disk [])]). vm_compute. reflexivity. }
  exact (proj1 (hist_inv (poolSize:=8) (bp0:=ex_fresh 8) eq_refl _ _ _ H)).
Qed.

Lemma ex_new_tree `{!Caps, !CapsOk} : p_inv ∅ ex_new ∧ btree true ex_new 0 [].
Proof.
  assert (bootstrap ex_file = (ex_new, Ret tt)) as E by (vm_compute; reflexivity).
  destruct (bootstrap_ok _ _ _ ex_file_inv eq_refl E) as [[I _ _ _ _] T].
  split; [exact I|]. exists 1, [Lf 1 [] invalidPID], [1]. split; [exact T|reflexivity].
Qed.

Definition ex_one : BufferPool := default ex_new (fst <$> Insert 6 10 (tid_of 10) ex_new).

Lemma tid_10_ok : go_key 10 ∧ go_tid (tid_of 10).
Proof. vm_compute. repeat split; congruence. Qed.

Lemma ex_one_tree : ∃ h es, p_inv ∅ ex_one ∧ btree true ex_one h es ∧ (h < 6)%nat ∧ as_map es = {[10 := tid_of 10]}.
Proof.
  destruct ex_new_tree as [I (rt&lvs&ns&T&E0)]. destruct tid_10_ok as [Hk Ht].
  destruct (Insert_ok _ _ _ _ _ 10 (tid_of 10) 6 I T Hk Ht ltac:(lia)) as (s'&x&E&[I' _ _ _ _]&Hx).
  assert (snd <$> Insert 6 10 (tid_of 10) ex_new = Some (Ret tt)) as Er by (vm_compute; reflexivity).
  rewrite E in Er. simpl in Er. injection Er as ->. destruct Hx as (rt'&h'&lvs'&ns'&T'&Hh&Hw).
  assert (ex_one = s') as -> by (unfold ex_one; by rewrite E).
  destruct (sub_sorted _ _ _ _ _ _ _ _ _ (tr_sub _ _ _ _ _ _ T')) as [Hs _].
  exists h', (flat lvs'). split_and!; [exact I'|exists rt', lvs', ns'; split; [exact T'|reflexivity]|lia|].
  rewrite (proj2 (with_entry_map _ _ _ _ Hs Hw)), <-E0. done.
Qed.

Lemma Insert_implements_map_witness :
  ∃ s' h' es', Insert 6 10 (tid_of 10) ex_new = Some (s', Ret tt) ∧ btree true s' h' es' ∧
    as_map es' = <[10 := tid_of 10]> ∅.
Proof.
  destruct (Insert_implements_map ex_new 0 [] 10 (tid_of 10) 6 (proj1 ex_new_tree) (proj2 ex_new_tree)
    (proj1 tid_10_ok) (proj2 tid_10_ok) ltac:(lia)) as (s'&x&E&_&_&_&_&Hx).
  assert (snd <$> Insert 6 10 (tid_of 10) ex_new = Some (Ret tt)) as Er by (vm_compute; reflexivity).
  rewrite E in Er. simpl in Er. injection Er as ->. destruct Hx as (_&h'&es'&H1&_&H2).
  exists s', h', es'. split; [exact E|]. split; [exact H1|exact H2].
Defined.

Lemma Search_is_lookup_witness : find ex_one 10 = Some (Ret (tid_of 10, true)).
Proof.
  destruct ex_one_tree as (h&es&I&T&Hh&E).
  destruct (Search_is_lookup true ex_one h es 10 6 I T Hh) as (s'&x&Es&_&_&Hx).
  unfold find. rewrite Es. simpl. destruct Hx as [->|[_ Hn]].
  - unfold answer. rewrite E. rewrite lookup_singleton_eq. reflexivity.
  - exfalso. apply Hn. split; [apply healthy_forall; vm_compute; repeat constructor|vm_compute; lia].
Defined.

Lemma Scan_is_range_witness :
  ∃ s' a' x, Scan 6 3 0 50 ex_keys ex_one [] = Some ((s', a'), x) ∧ p_kept ex_one s' ∧ p_others ex_one s'.
Proof.
  destruct ex_one_tree as (h&es&I&T&Hh&E).
  destruct (Scan_is_range true ex_one h es 0 50 ex_keys _ _ [] 6 3 I T Hh ltac:(vm_compute; lia)
    (collect_inv ex_one _ _ []) ltac:(by split)) as (s'&a'&x&Es&_&HS&_&[Hr|[_ Hn]]).
  - exists s', a', x. split; [exact Es|]. split; [exact HS|].
    destruct x as [u|e|]; [apply Hr|destruct Hr as (l&y&_&Hr&_); exact Hr|destruct Hr].
  - exfalso. apply Hn. split; [apply healthy_forall; vm_compute; repeat constructor|vm_compute; lia].
Defined.

Lemma NewBTree_opens_witness : btree true ex_new 0 [].
Proof.
  destruct (NewBTree_opens ex_file ex_new (Ret tt) ex_file_inv) as (_&_&_&_&H&_).
  - vm_compute. reflexivity.
  - apply H. vm_compute. reflexivity.
Defined.

Lemma operations_bounded_witness :
  146 * p_count ex_new ≤ 292 ∧
  ∃ s' x, Insert (CP:=production) 5 10 (tid_of 10) ex_new = Some (s', x) ∧ (x = Ret tt ∨ ∃ e, x = Fail e).
Proof.
  destruct (operations_bounded ex_new 0 [] (proj1 ex_new_tree) (proj2 (@ex_new_tree production production_ok)))
    as (_&Hp&_&_&HI).
  split; [exact Hp|]. destruct (HI 10 (tid_of 10) (proj1 tid_10_ok) (proj2 tid_10_ok)) as (s'&x&E&Hx).
  exists s', x. split; [exact E|]. destruct x as [[]|e|]; [by left|right; by exists e|destruct Hx].
Defined.
End BTreeExamples.
