(* ===== verification/BTreeErrors.v ===== *)
(** * What a failed split costs (src/internal/access/nbtree/nbtree.go)

    [Insert] modifies pages before it knows that it can finish.  If the new root
    cannot be recorded after the old one was split, the upper half of the index
    is reachable through the leaf chain only; if the sibling of a full leaf cannot
    be allocated, the leaf stays at its capacity, where [insertLeafAt] has no room
    for one more key. *)

From S2P Require Import Prelude Bytes PageLayout SlottedPage Disk LRU BufferPool BufferInv PoolSpec Pager Callback Heap BTreeNode BTree BTreeInv BTreeSpec BTreeInsert BTreeIndex BTreeExamples.

Module BTreeErrors.
Import Node BTree BTreeInv BTreeSpec BTreeInsert BTreeIndex.
Import MetaPage(metaPID, metaMagic).

(** ** A leaf without room *)

Section leaf.
Context {CP : Caps} {OK : CapsOk}.

Local Ltac area :=
  pose proof leaf_budget; pose proof internal_budget; pose proof leaf_min; pose proof internal_min;
  unfold wf_page, childAreaOff, tidAreaOff, nodeHeader, keySize, childSize, tidSize, PageSize in *;
  rewrite ?length_be_set by lia; lia.

(** A TID slot behind the last one is still in the page. *)
Definition slack : Prop := tidAreaOff + (leafCap + 1) * tidSize ≤ PageSize.

(** The bytes of a key where a TID is expected. *)
Definition key_as_tid (k : Z) : TID := Tid (u64 k / 2 ^ 32) (u64 k / 2 ^ 16 mod 2 ^ 16).

Lemma be_put_app n m v : be_put (n + m) v = be_put n (Z.shiftr v (8 * Z.of_nat m)) ++ be_put m v.
Proof.
  revert v. induction m as [|m IH]; intros v.
  - rewrite Nat.add_0_r, Z.shiftr_0_r. simpl. by rewrite app_nil_r.
  - rewrite Nat.add_succ_r. simpl. rewrite IH, Z.shiftr_shiftr, <-app_assoc by lia. do 3 f_equal. lia.
Qed.

(** The key after the last one starts where the TIDs start. *)
Lemma kset_over n k : wf_page n → tget (kset n leafCap k) 0 = key_as_tid k.
Proof.
  intros Hn. unfold tget, kset, key_as_tid. pose proof (Z.mod_pos_bound k (2 ^ 64) ltac:(lia)) as Hk. fold (u64 k) in Hk.
  set (v := u64 k) in *. rewrite Z.mul_0_l, Z.add_0_r. fold tidAreaOff.
  assert (∀ a m, 0 ≤ a → a + m ≤ 8 →
    be_at (tidAreaOff + a) m (be_set tidAreaOff 8 v n) = be_get (Prelude.sub a m (be_put 8 v))) as H.
  { intros a m Ha Hm. unfold be_at. rewrite <-(sub_sub a m tidAreaOff 8) by area. f_equal. f_equal.
    unfold be_set. apply sub_splice_eq; [area| |by rewrite length_be_put]. rewrite length_be_put. area. }
  assert (be_put 8 v = be_put 4 (Z.shiftr v 32) ++ be_put 2 (Z.shiftr v 16) ++ be_put 2 v) as E.
  { rewrite (be_put_app 4 4), (be_put_app 2 2). done. }
  rewrite <-(Z.add_0_r tidAreaOff) at 1. unfold childSize. rewrite !H by lia. rewrite E.
  rewrite sub_app_l by (rewrite ?length_be_put; lia). rewrite sub_full by (rewrite length_be_put; lia).
  rewrite sub_app_r by (rewrite length_be_put; lia). rewrite length_be_put. change (4 - Z.of_nat 4) with 0.
  rewrite sub_app_l by (rewrite ?length_be_put; lia). rewrite sub_full by (rewrite length_be_put; lia).
  rewrite !be_get_put, !Z.shiftr_div_pow2 by lia. f_equal.
  apply Z.mod_small. split; [by apply Z.div_pos; lia|]. apply Z.div_lt_upper_bound; [lia|]. lia.
Qed.

Lemma setTIDAt_over n t :
  wf_page n → slack → ∃ n', setTIDAt n leafCap t = Ret n' ∧ wf_page n' ∧ tget n' 0 = tget n 0.
Proof.
  intros Hn Hs. unfold slack in Hs. unfold setTIDAt. rewrite PutUintAt_ok by area. simpl. rewrite PutUintAt_ok by area.
  eexists. split; [done|]. assert (length (be_set (tidAreaOff + leafCap * tidSize) 4 (Heap.Page t) n) = length n) as H1
    by (rewrite length_be_set by area; done).
  split; [unfold wf_page in *; rewrite !length_be_set by area; done|]. unfold tget. by rewrite !be_at_set_ne by area.
Qed.

(** The rest of the shift stays away from the first TID. *)
Lemma shift_rest : ∀ todo j n, wf_page n → 1 ≤ j - Z.of_nat todo → j < leafCap →
  ∃ n', shift_entries todo j n = Ret n' ∧ wf_page n' ∧ tget n' 0 = tget n 0.
Proof.
  induction todo as [|todo IH]; intros j n Hn Hj Hc; [by exists n|]. pose proof caps_lt. cbn [shift_entries].
  rewrite keyAt_ok by (done || lia). cbn [res_bind]. rewrite setKeyAt_ok by (done || lia). cbn [res_bind].
  destruct (kset_header n j (kget n (j - 1))) as [W1 _]; [done|lia|]. rewrite tidAt_ok by (done || lia). cbn [res_bind].
  rewrite setTIDAt_ok by (done || lia). cbn [res_bind].
  set (n1 := kset n j (kget n (j - 1))) in *. destruct (tset_header n1 j (tget n1 (j - 1))) as [W2 _]; [done|lia|].
  destruct (IH (j - 1) (tset n1 j (tget n1 (j - 1)))) as (n'&E&W'&T'); [done|lia|lia|].
  exists n'. split_and!; [done|done|]. rewrite T', tset_tget by (done || lia || (apply tget_range; [done|lia])).
  rewrite decide_False by lia. unfold n1. by rewrite kset_tget by (done || lia).
Qed.

(** One more key in a leaf at its capacity: it is accepted, and the largest key
    is written over the TID of the smallest. *)
Lemma insert_over n es nxt i key tid :
  leaf n es nxt → len es = leafCap → 0 < i ≤ leafCap → slack →
  ∃ n', insertLeafAt n i key tid = Ret n' ∧
        tget n' 0 = key_as_tid (if decide (i = leafCap) then key else kget n (leafCap - 1)).
Proof.
  intros [Hn _ Hc _ _ _ _] Hl Hi Hs. pose proof caps_lt. pose proof leaf_min. unfold insertLeafAt. rewrite Hc, Hl.
  assert (∃ n1, shift_entries (Z.to_nat (leafCap - i)) leafCap n = Ret n1 ∧ wf_page n1 ∧
    (i < leafCap → tget n1 0 = key_as_tid (kget n (leafCap - 1)))) as (n1&->&W1&T1).
  { destruct (decide (i = leafCap)) as [->|Hne].
    { rewrite Z.sub_diag. exists n. split_and!; [done|done|lia]. }
    replace (Z.to_nat (leafCap - i)) with (S (Z.to_nat (leafCap - i - 1))) by lia. cbn [shift_entries].
    rewrite keyAt_ok by (done || lia). cbn [res_bind]. rewrite setKeyAt_ok by (done || lia). cbn [res_bind].
    destruct (kset_header n leafCap (kget n (leafCap - 1))) as [W1 _]; [done|lia|].
    rewrite tidAt_ok by (done || lia). cbn [res_bind].
    destruct (setTIDAt_over (kset n leafCap (kget n (leafCap - 1))) (tget (kset n leafCap (kget n (leafCap - 1))) (leafCap - 1)) W1 Hs)
      as (n2&->&W2&T2). cbn [res_bind].
    destruct (shift_rest (Z.to_nat (leafCap - i - 1)) (leafCap - 1) n2 W2) as (n3&->&W3&T3); [lia|lia|].
    exists n3. split_and!; [done|done|]. intros _. by rewrite T3, T2, kset_over. }
  cbn [res_bind]. rewrite setKeyAt_ok by (done || lia). cbn [res_bind].
  destruct (kset_header n1 i key) as [W2 _]; [done|lia|].
  assert (∃ n2, setTIDAt (kset n1 i key) i tid = Ret n2 ∧ wf_page n2 ∧ tget n2 0 = tget (kset n1 i key) 0) as (n2&->&W3&T3).
  { destruct (decide (i = leafCap)) as [->|Hne]; [by apply setTIDAt_over|].
    rewrite setTIDAt_ok by (done || lia). eexists. split; [done|].
    split; [by apply tset_header; [|lia]|]. unfold tget, tset. rewrite !be_at_set_ne by area. done. }
  cbn [res_bind]. eexists. split; [done|].
  assert (tget (setKeyCount n2 (u16 (leafCap + 1))) 0 = tget n2 0) as ->.
  { unfold tget, setKeyCount, offKeyCount. by rewrite !be_at_set_ne by area. }
  rewrite T3. case_decide as E; [subst i; by apply kset_over|]. rewrite kset_tget by (done || lia). apply T1. lia.
Qed.
End leaf.

(** ** A root without its upper half *)

(** A subtree within bounds is one without an upper bound. *)
Lemma sub_unbounded `{CP : Caps} rest pg h : ∀ r lo hi pid lvs ns,
  sub rest pg h r lo hi pid lvs ns → sub rest pg h r lo None pid lvs ns.
Proof.
  induction h as [|h IH]; intros r lo hi pid lvs ns.
  - intros (n&es&nxt&Hp&HL&Hf&Hs&Hw&->&->). exists n, es, nxt. split_and!; try done.
    eapply Forall_impl; [exact Hw|]. by intros k [? _].
  - intros (n&ks&cs&ns'&Hp&HI&Hf&HK&->). exists n, ks, cs, ns'. split_and!; try done. clear -HK IH.
    induction HK as [lo hi c l ns H|lo hi k ks c cs l l' ns ns' Ho Hb H HK IHK]; [constructor; by eapply IH|].
    by constructor.
Qed.

Section root.
Context {W : Type} {PW : Pager W} {VW : PagerView W} {SW : PagerSpec W}.
Context {CP : Caps} {OK : CapsOk}.

(** The errors [Insert] returns once the old root has been split. *)
Definition late (e : error) : Prop :=
  match e with Wrapf m _ => m = "nbtree: new root" ∨ m = "nbtree: update meta" | _ => False end.

Lemma unpin_then_fail {A} pid d (r : res A) (s s' : W) e : unpin_then pid d r s = (s', Fail e) → r = Fail e.
Proof. unfold unpin_then. destruct (ignore _ s) as [s1 [?|?|]]; [|..|done]; by intros [= _ ->]. Qed.

Lemma root_early s s' e : root s = (s', Fail e) → ¬ late e.
Proof.
  unfold root. destruct (FetchPage metaPID s) as [s1 [f|e1|]]; [by intros ?%unpin_then_fail| |done].
  by intros [= _ <-] [|].
Qed.

Lemma split_early pid m (s s' : W) e :
  (∀ s s' e, m s = (s', Fail e) → ¬ late e) → split_then_unpin pid m s = (s', Fail e) → ¬ late e.
Proof.
  intros Hm. unfold split_then_unpin. destruct (m s) as [s1 [sp|e1|]] eqn:E; [by intros ?%unpin_then_fail| |done].
  intros [= ->]%unpin_then_fail. by eapply Hm.
Qed.

Lemma splitLeafNode_early n s s' e : splitLeafNode n s = (s', Fail e) → ¬ late e.
Proof.
  unfold splitLeafNode. destruct (NewPageIn s) as [s1 [[rp rpid]|e1|]]; [|by intros [= _ <-] [|]|done].
  destruct (splitLeaf _ _) as [[l r]| |]; [|done|done]. destruct (keyAt _ 0); [|done|done]. by intros ?%unpin_then_fail.
Qed.
Lemma splitInternalNode_early n s s' e : splitInternalNode n s = (s', Fail e) → ¬ late e.
Proof.
  unfold splitInternalNode. destruct (NewPageIn s) as [s1 [[rp rpid]|e1|]]; [|by intros [= _ <-] [|]|done].
  destruct (splitInternal _ _) as [[[l r] up]| |]; [|done|done]. by intros ?%unpin_then_fail.
Qed.

Lemma insertInto_early key tid : ∀ fuel pid s s' e, insertInto fuel pid key tid s = Some (s', Fail e) → ¬ late e.
Proof.
  induction fuel as [|fuel IH]; intros pid s s' e H; [done|]. cbn [insertInto] in H.
  destruct (FetchPage pid s) as [s1 [p|e1|]]; [|injection H as _ <-; by intros [|]|done].
  destruct (isLeaf (load p s1)).
  - injection H as H. unfold insert_leaf in H. destruct (search _ key) as [[idx [|]]| |]; [| |done|done].
    + apply unpin_then_fail in H. injection H as <-. intros [].
    + destruct (insertLeafAt _ _ _ _) as [n| |]; [|done|done]. destruct (negb (full _)); [by apply unpin_then_fail in H|].
      eapply split_early; [|exact H]. apply splitLeafNode_early.
  - destruct (child_for _ key) as [[ci c]| |]; [|done|done].
    destruct (insertInto fuel c key tid s1) as [[s2 [[sp|]|e2|]]|] eqn:E; [| | |done|done].
    + injection H as H. unfold absorb in H. destruct (insertInternalAt _ _ _ _) as [n| |]; [|done|done].
      destruct (negb (full _)); [by apply unpin_then_fail in H|]. eapply split_early; [|exact H]. apply splitInternalNode_early.
    + injection H as H. by apply unpin_then_fail in H.
    + injection H as H. apply unpin_then_fail in H. injection H as ->. by eapply IH.
Qed.

(** Such an error leaves the root page with the lower part of the leaves. *)
Lemma late_root_cut s rt h lvs ns key tid fuel s' e :
  p_inv ∅ s → tree true s rt h lvs ns → go_key key → go_tid tid → (h < fuel)%nat →
  Insert fuel key tid s = Some (s', Fail e) → late e →
  p_inv ∅ s' ∧ ∃ la lb, root_cut s' h rt la lb ∧ with_entry key tid (flat lvs) (flat (la ++ lb)).
Proof.
  intros I T Hk Ht Hf H Hl. unfold Insert in H. destruct (root_ok _ _ _ _ _ _ I T) as (s1&x1&E1&[Q Hx]). rewrite E1 in H.
  pose proof (tree_same _ _ _ _ _ _ _ Q T) as T1. pose proof (q_inv _ _ Q) as I1.
  destruct Hx as [->|[(e1&->) _]]; [|injection H as <- <-; by apply root_early in E1].
  destruct (tree_nodes _ _ _ _ _ _ T) as [HN _].
  destruct (insertInto_ok key tid Hk Ht h fuel s1 true None None rt lvs ns I1 (tr_sub _ _ _ _ _ _ T1) HN)
    as (s2&x&E2&(I2&K2&C2&HO)); [done|done|]. rewrite E2 in H.
  destruct x as [[sp|]|e2|]; [|done|injection H as <- <-; by apply insertInto_early in E2|done].
  inversion HO as [|? la na lb nb Ho Hb Hks Hps Ha Hb' Hadd Hns| | |]; subst. injection H as H.
  pose proof (split_two_roots _ _ _ _ _ _ _ _ I2 Hks Hps Ha Hb') as HT.
  destruct (grow_root_tree s1 s2 rt h lvs ns key tid sp la na lb nb s' (Fail e)) as [[I3 _ _ _ _] (_&_&HC)]; [done..|].
  split; [done|]. exists la, lb. split; [done|by apply added_flat].
Qed.

(** Then nothing in the upper part is found. *)
Lemma root_cut_lookup s h rt la lb k fuel :
  p_inv ∅ s → root_cut s h rt la lb → k ∈ (flat lb).*1 → (h < fuel)%nat →
  ∃ s' x, Search fuel k s = Some (s', x) ∧ (x = Ret (Tid 0 0, false) ∨ (∃ e, x = Fail e) ∧ ¬ able s).
Proof.
  intros I [(mp&Hm&<-) (sp&na&nb&[_ _ HL HR])] Hk Hf. unfold Search.
  destruct (root_read _ _ I Hm) as (s1&x1&->&[Q Hx]). destruct Hx as [->|[(e&->) Hn]].
  2:{ eexists _, _. split; [done|]. right. eauto. }
  destruct (sub_sorted _ _ _ _ _ _ _ _ _ HL) as [_ Hla]. destruct (sub_sorted _ _ _ _ _ _ _ _ _ HR) as [_ Hlb].
  rewrite Forall_forall in Hla, Hlb. destruct (Hlb _ Hk) as [Hge _]. simpl in Hge.
  destruct (Search_loop_ok true h fuel s1 false None None (MetaPage.root mp) la na k) as (s'&x&->&Hr);
    [apply Q|eapply sub_same; [done|by eapply sub_unbounded]|done|done|].
  exists s', x. split; [done|]. destruct (reads_after _ _ _ _ _ Q Hr) as [_ Hx].
  destruct Hx as [->|?]; [left|by right]. unfold answer. destruct (as_map (flat la) !! k) as [t|] eqn:E; [|done].
  exfalso. assert (k ∈ (flat la).*1) as Hin by (destruct (decide (k ∈ (flat la).*1)) as [|Hni]; [done|]; apply as_map_None in Hni; congruence).
  destruct (Hla _ Hin) as [_ Hlt]. simpl in Hlt. lia.
Qed.

(** The upper part is at least half a leaf. *)
Lemma root_cut_size s h rt la lb : root_cut s h rt la lb → leafCap / 2 ≤ len (flat lb) ∧ NoDup (flat lb).*1.
Proof.
  intros [_ (sp&na&nb&[_ _ _ HR])]. destruct (sub_sorted _ _ _ _ _ _ _ _ _ HR) as [Hs _].
  split; [|by apply sorted_NoDup]. pose proof (half_entries _ (sub_half _ _ _ _ _ _ _ _ HR)) as He.
  destruct (sub_leaves _ _ _ _ _ _ _ _ HR) as [Hl _]. pose proof leaf_min.
  pose proof internal_min. assert (0 ≤ (internalCap - 1) / 2) by (apply Z.div_pos; lia).
  assert (min_children ^ h ≠ 0)%nat by (apply Nat.pow_nonzero; unfold min_children; lia).
  assert (0 ≤ leafCap / 2) by (apply Z.div_pos; lia). nia.
Qed.

(** C31: what a failed split costs.  If [Insert] fails after it split the root,
    because the page of the new root cannot be allocated or the meta page cannot
    be fetched, then at least [leafCap / 2 - 1] keys that were in the index, 291
    with the production capacity, are no longer found by [Search], which reports
    no error unless it cannot fetch a page.  And in a leaf left at its capacity by a failed split, inserting one
    more key (not the smallest) succeeds and overwrites the TID of the
    smallest key with the bytes of the largest, provided the page has room for
    one TID more than the capacity, as with the production capacity. *)
Theorem failed_split_damage :
  (∀ (s : W) h es key tid fuel s' e,
     p_inv ∅ s → btree true s h es → go_key key → go_tid tid → (h < fuel)%nat →
     Insert fuel key tid s = Some (s', Fail e) → late e →
     ∃ lost, NoDup lost ∧ leafCap / 2 - 1 ≤ len lost ∧
       ∀ k, k ∈ lost → k ∈ es.*1 ∧ ∃ s'' x, Search fuel k s' = Some (s'', x) ∧
         (x = Ret (Tid 0 0, false) ∨ (∃ e, x = Fail e) ∧ ¬ able s')) ∧
  (∀ n es nxt i key tid, leaf n es nxt → len es = leafCap → 0 < i ≤ leafCap → slack →
     ∃ n', insertLeafAt n i key tid = Ret n' ∧
           tget n' 0 = key_as_tid (if decide (i = leafCap) then key else kget n (leafCap - 1))).
Proof.
  split; [|intros n es nxt i key tid; apply insert_over].
  intros s h es key tid fuel s' e I (rt&lvs&ns&T&->) Hk Ht Hf H Hl.
  destruct (late_root_cut _ _ _ _ _ _ _ _ _ _ I T Hk Ht Hf H Hl) as (I'&la&lb&HC&(a&b&Ha&Hb)).
  destruct (root_cut_size _ _ _ _ _ HC) as [Hn HD].
  exists (filter (λ k, k ≠ key) (flat lb).*1). split_and!; [by apply NoDup_filter| |].
  - assert (length (flat lb).*1 ≤ S (length (filter (λ k, k ≠ key) (flat lb).*1)))%nat as Hlen.
    { clear -HD. induction (flat lb).*1 as [|k l IH]; [simpl; lia|]. apply NoDup_cons in HD as [Hk HD].
      rewrite filter_cons. case_decide as E; [simpl; specialize (IH HD); lia|]. subst k.
      assert (filter (λ k, k ≠ key) l = l) as ->; [|simpl; lia]. apply filter_all. by intros x Hx ->. }
    rewrite length_fmap in Hlen. lia.
  - intros k [Hne Hin]%list_elem_of_filter. split; [|by eapply root_cut_lookup].
    assert (k ∈ (flat (la ++ lb)).*1) as Hall by (rewrite flat_app, keys_app; set_solver).
    rewrite Hb, keys_app in Hall. rewrite Ha, keys_app. set_solver.
Qed.
End root.

(** ** A run in which the new root cannot be allocated *)

Section witness.
Import Pool PoolSpec BTreeExamples.
#[local] Existing Instance tiny.
#[local] Existing Instance tiny_ok.
#[local] Existing Instance ex_pager.
#[local] Existing Instance ex_view.
#[local] Existing Instance ex_spec.

(** The fourth write of the file fails: the pages of the index, its root and the
    sibling of the split leaf are there, the new root is not. *)
Definition cut_file : BufferPool := ex_pool [IOok; IOok; IOok; IOfail 0].
Definition cut_new : BufferPool := (NewBTree cut_file).1.
Definition cut_one : BufferPool := default cut_new (fst <$> Insert 6 20 (tid_of 20) cut_new).

Lemma cut_one_tree : ∃ h es, p_inv ∅ cut_one ∧ btree true cut_one h es ∧ (h < 6)%nat.
Proof.
  assert (p_inv ∅ cut_file) as I0.
  { split; [|vm_compute; eauto].
    assert (hist (ex_fresh 8) (ex_hist 8 [ORegister (ex_disk [IOok; IOok; IOok; IOfail 0])]) ∅ cut_file) as H.
    { apply (ex_reach 8 [ORegister (ex_disk [IOok; IOok; IOok; IOfail 0])]). vm_compute. reflexivity. }
    exact (proj1 (hist_inv (poolSize:=8) (bp0:=ex_fresh 8) eq_refl _ _ _ H)). }
  assert (bootstrap cut_file = (cut_new, Ret tt)) as E0 by (vm_compute; reflexivity).
  destruct (bootstrap_ok _ _ _ I0 eq_refl E0) as [[I _ _ _ _] T].
  assert (go_key 20 ∧ go_tid (tid_of 20)) as [Hk Ht] by (vm_compute; repeat split; congruence).
  destruct (Insert_ok _ _ _ _ _ 20 (tid_of 20) 6 I T Hk Ht ltac:(lia)) as (s'&x&E&[I' _ _ _ _]&Hx).
  assert (snd <$> Insert 6 20 (tid_of 20) cut_new = Some (Ret tt)) as Er by (vm_compute; reflexivity).
  rewrite E in Er. simpl in Er. injection Er as ->. destruct Hx as (rt'&h'&lvs'&ns'&T'&Hh&_).
  assert (cut_one = s') as -> by (unfold cut_one; by rewrite E).
  exists h', (flat lvs'). split_and!; [exact I'|exists rt', lvs', ns'; split; [exact T'|reflexivity]|lia].
Qed.

Lemma failed_split_damage_witness :
  slack (CP:=production) ∧
  ∃ s' e, Insert 6 10 (tid_of 10) cut_one = Some (s', Fail e) ∧ late e ∧
  ∃ lost, NoDup lost ∧ ∀ k, k ∈ lost → ∃ s'' x, Search 6 k s' = Some (s'', x) ∧ (x = Ret (Tid 0 0, false) ∨ ∃ e, x = Fail e).
Proof.
  split; [vm_compute; discriminate|].
  destruct cut_one_tree as (h&es&I&T&Hh).
  assert (match Insert 6 10 (tid_of 10) cut_one with
          | Some (_, Fail (Wrapf m _)) => m = "nbtree: new root" | _ => False end) as Hm by (vm_compute; reflexivity).
  destruct (Insert 6 10 (tid_of 10) cut_one) as [[s' [u|e|]]|] eqn:E; [destruct Hm| |destruct Hm..].
  assert (late e) as Hl by (destruct e; [..|left; exact Hm]; destruct Hm).
  exists s', e. split; [reflexivity|]. split; [exact Hl|].
  destruct (proj1 failed_split_damage cut_one h es 10 (tid_of 10) 6%nat s' e I T (proj1 tid_10_ok) (proj2 tid_10_ok) Hh E Hl)
    as (lost&HD&_&Hlost).
  exists lost. split; [exact HD|]. intros k Hk. destruct (Hlost k Hk) as (_&s''&x&Es&Hx).
  exists s'', x. split; [exact Es|]. destruct Hx as [Hx|[Hx _]]; [by left|by right].
Defined.
End witness.
End BTreeErrors.
