(* ===== verification/Stack.v ===== *)
(** * The full stack

    A table and its index are two files of one buffer pool.  A row is encoded,
    stored in the heap, its TID entered in the index; a lookup finds the TID, the
    heap the bytes and the codec the row (the composition exercised by
    src/internal/record/integration_test.go, with an index added). *)

From S2P Require Import Prelude Bytes PageLayout SlottedPage Disk LRU BufferPool BufferInv PoolSpec Pager Heap Record BTreeNode BTree BTreeInv BTreeSpec BTreeInsert BTreeIndex.

Module Stack.
Import Pool PoolInv.

Section stack.
Context {CP : Node.Caps} {OK : Node.CapsOk}.
Context (table index : FileHandle) (distinct : hfile index ≠ hfile table).

(** The operations of the table go through one handle, those of the index
    through the other. *)
Definition heap_insert := Heap.Insert (PW:=pool_pager table).
Definition heap_get := Heap.Get (PW:=pool_pager table).
Definition index_insert := BTree.Insert (PW:=pool_pager index).
Definition index_search := BTree.Search (PW:=pool_pager index).

(** The pool holds the table [tss] and the index [es]. *)
Record database (s : BufferPool) (tss : list Heap.tuples) (h : nat) (es : BTreeSpec.entries) : Prop := Database {
  db_table_inv : p_inv (PagerView:=pool_view table) ∅ s;
  db_index_inv : p_inv (PagerView:=pool_view index) ∅ s;
  db_table : Heap.heap_rep (H:=pool_view table) s tss;
  db_index : BTreeSpec.btree (VW:=pool_view index) true s h es }.

Lemma heap_other s s' tss :
  p_inv (PagerView:=pool_view index) ∅ s' → p_others (PagerView:=pool_view index) s s' →
  p_inv (PagerView:=pool_view table) ∅ s → Heap.heap_rep (H:=pool_view table) s tss →
  p_inv (PagerView:=pool_view table) ∅ s' ∧ Heap.heap_rep (H:=pool_view table) s' tss.
Proof.
  intros I HO It [Hc Hp]. destruct (other_handle index table ∅ s s') as (I'&P&C); [congruence|done..|].
  split; [done|]. split; [congruence|]. intros i ts Hi. rewrite P. by apply Hp.
Qed.

Lemma index_other s s' rest h es :
  p_inv (PagerView:=pool_view table) ∅ s' → p_others (PagerView:=pool_view table) s s' →
  p_inv (PagerView:=pool_view index) ∅ s → BTreeSpec.btree (VW:=pool_view index) rest s h es →
  p_inv (PagerView:=pool_view index) ∅ s' ∧ BTreeSpec.btree (VW:=pool_view index) rest s' h es.
Proof.
  intros I HO Ii (rt&lvs&ns&[(mp&Hm&Hg&Hr) HS HP HL]&->).
  destruct (other_handle table index ∅ s s') as (I'&P&C); [done..|].
  split; [done|]. exists rt, lvs, ns. split; [|done]. split; [|..|done].
  - exists mp. by rewrite P.
  - eapply BTreeInv.sub_frame; [exact HS|intros q _; apply P|done].
  - by rewrite C.
Qed.

(** A TID the heap hands out fits its Go type. *)
Lemma heap_tid_ok (h : FileHandle) s tss tid t :
  p_inv (PagerView:=pool_view h) ∅ s → Heap.heap_rep (H:=pool_view h) s tss →
  0 ≤ Heap.Page tid → 0 ≤ Heap.Slot tid → Heap.tuple_at tss tid = Some t → Node.go_tid tid.
Proof.
  intros I [Hc Hp] H1 H2 Ht. unfold Heap.tuple_at in Ht.
  destruct (tss !! Z.to_nat (Heap.Page tid)) as [ts|] eqn:E; [|done]. simpl in Ht.
  destruct (Hp _ _ E) as (p&_&Hrep). apply SlottedPage.rep_bounds in Hrep. apply lookup_lt_Some in E, Ht.
  destruct (count_ok (PagerSpec:=pool_pager_spec h) _ _ I) as [Hmax _]. unfold Disk.MaxUint32 in Hmax.
  split; lia.
Qed.

(** A row in the table, not yet in the index. *)
Lemma table_insert s tss h es tup s1 tid :
  database s tss h es → heap_insert tup s = (s1, Ret tid) →
  (Heap.spec_insert tss tup).2 = Some tid ∧ database s1 (Heap.spec_insert tss tup).1 h es ∧
  room s1 = room s ∧ (healthy s → healthy s1).
Proof.
  intros [It Ii Ht Hi] HI1.
  destruct (Heap.Insert_spec (SW:=pool_pager_spec table) _ _ _ _ _ It Ht HI1) as ([It1 _ R1 O1 H1]&[Hspec Ht1]&_).
  destruct (index_other _ _ _ _ _ It1 O1 Ii Hi) as [Ii1 Hi1]. by split_and!.
Qed.

(** One row in: the database after a heap insertion and an index insertion. *)
Lemma insert_row s tss h es tup key s1 tid s2 fuel :
  database s tss h es → Node.go_key key → (h < fuel)%nat →
  heap_insert tup s = (s1, Ret tid) → index_insert fuel key tid s1 = Some (s2, Ret tt) →
  ∃ tss' h' es', database s2 tss' h' es' ∧ (h' ≤ S h)%nat ∧
    BTreeSpec.as_map es' = <[key := tid]> (BTreeSpec.as_map es) ∧ Node.go_tid tid ∧
    Heap.tuple_at tss' tid = Some tup ∧
    (∀ tid' t, Heap.tuple_at tss tid' = Some t → Heap.tuple_at tss' tid' = Some t) ∧
    room s2 = room s ∧ (healthy s → healthy s2).
Proof.
  intros HD Hk Hf HI1 HI2. destruct (table_insert _ _ _ _ _ _ _ HD HI1) as (Hspec&HD1&R1&H1).
  destruct (Heap.spec_insert tss tup) as [tss' o] eqn:E. simpl in Hspec, HD1. subst o.
  destruct (Heap.spec_insert_at _ _ _ _ E) as (Hat&Hp&Hs&_&Hold). destruct HD1 as [It1 Ii1 Ht1 (rt&lvs&ns&T&->)].
  assert (Node.go_tid tid) as Htid by (by eapply (heap_tid_ok table)).
  destruct (BTreeIndex.Insert_ok (SW:=pool_pager_spec index) s1 rt h lvs ns key tid fuel Ii1 T Hk Htid Hf)
    as (s2'&x&E2&[Ii2 _ R2 O2 H2]&Hx).
  unfold index_insert in HI2. rewrite E2 in HI2. injection HI2 as <- ->.
  destruct Hx as (rt'&h'&lvs'&ns'&T'&Hh&Hw).
  destruct (heap_other _ _ _ Ii2 O2 It1 Ht1) as [It2 Ht2].
  destruct (BTreeInv.sub_sorted _ _ _ _ _ _ _ _ _ (BTreeSpec.tr_sub _ _ _ _ _ _ T')) as [Hsort _].
  exists tss', h', (BTreeInv.flat lvs').
  split_and!; [split; [done..|by exists rt', lvs', ns']|lia|by apply BTreeIndex.with_entry_map|done|done|done|simpl in *; lia|intros Hh'; by apply H2, H1].
Qed.

(** A lookup through the index and the heap, on a healthy pool with a frame. *)
Lemma lookup_row s tss h es key tid t fuel :
  database s tss h es → (h < fuel)%nat → healthy s → (0 < room s)%nat →
  BTreeSpec.as_map es !! key = Some tid → Heap.tuple_at tss tid = Some t → 0 ≤ Heap.Page tid → 0 ≤ Heap.Slot tid →
  ∃ s1 s2, index_search fuel key s = Some (s1, Ret (tid, true)) ∧ heap_get tid s1 = (s2, Ret t) ∧
    database s2 tss h es.
Proof.
  intros [It Ii Ht (rt&lvs&ns&T&->)] Hf Hh Hr Hk Hat Hp Hs.
  destruct (BTreeSpec.Search_ok (SW:=pool_pager_spec index) _ _ _ _ _ _ fuel key Ii T Hf) as (s1&x&E&[Q Hx]).
  pose proof Q as [Ii1 S1 H1]. destruct Hx as [->|[_ Hn]]; [|by destruct Hn].
  assert (BTreeSpec.btree (VW:=pool_view index) true s1 h (BTreeInv.flat lvs)) as Hi1.
  { exists rt, lvs, ns. split; [by eapply BTreeSpec.tree_same|done]. }
  unfold BTreeSpec.answer in E. rewrite Hk in E.
  destruct (heap_other _ _ _ Ii1 (ps_others _ _ S1) It Ht) as [It1 Ht1].
  destruct (heap_get tid s1) as [s2 r] eqn:EG.
  destruct (Heap.Get_spec (SW:=pool_pager_spec table) _ _ _ _ _ It1 Ht1 Hp Hs EG) as ([It2 _ _ O2 _]&S2&Hres&Hret).
  assert (is_ret r = true) as Hr2.
  { apply Hret; [by apply H1| |by rewrite Hat]. pose proof (ps_room _ _ S1) as HR. simpl in *. lia. }
  destruct r as [t'| |]; [|done|done]. assert (t' = t) as -> by congruence.
  destruct (index_other _ _ _ _ _ It2 O2 Ii1 Hi1) as [Ii2 Hi2].
  exists s1, s2. split_and!; [done|done|]. split; [done|done| |done]. by eapply (Heap.heap_same (VW:=pool_view table)).
Qed.

(** C11: the full stack, on a healthy pool with a free frame and for a schema of
    fewer than 65536 columns.  Encode a row, insert it into the heap, enter its
    TID in the index of another file of the same pool.  When these succeed, a
    lookup of the key through the index and the heap succeeds with bytes that
    decode to the row, and every other key still leads to the tuple it led to
    before. *)
Theorem indexed_row_roundtrip sch row tup s tss h es key s1 tid s2 fuel :
  len (Record.Columns sch) < 65536 → Forall Record.go_value row → Record.Encode sch row = Ret tup →
  database s tss h es → Node.go_key key → (S h < fuel)%nat → healthy s → (0 < room s)%nat →
  heap_insert tup s = (s1, Ret tid) → index_insert fuel key tid s1 = Some (s2, Ret tt) →
  (∃ s3 s4, index_search fuel key s2 = Some (s3, Ret (tid, true)) ∧ heap_get tid s3 = (s4, Ret tup) ∧
     Record.Decode sch tup = Ret row) ∧
  (∀ key' tid' t, key' ≠ key → Node.go_tid tid' →
     BTreeSpec.as_map es !! key' = Some tid' → Heap.tuple_at tss tid' = Some t →
     ∃ s3 s4, index_search fuel key' s2 = Some (s3, Ret (tid', true)) ∧ heap_get tid' s3 = (s4, Ret t)).
Proof.
  intros Hc Hg HE HD Hk Hf Hh Hr HI1 HI2.
  destruct (insert_row _ _ _ _ _ _ _ _ _ fuel HD Hk ltac:(lia) HI1 HI2)
    as (tss'&h'&es'&HD'&Hh'&Hm&[Hp Hs]&Hat&Hold&R&He). split.
  - destruct (lookup_row s2 tss' h' es' key tid tup fuel HD') as (s3&s4&E3&E4&_);
      [lia|auto|lia|by rewrite Hm, lookup_insert_eq|done|lia|lia|].
    destruct (Record.Encode_inv _ _ _ HE) as (Hv&Hlt&Henc). rewrite u16_small in Hlt by lia.
    exists s3, s4. split_and!; [done|done|by apply Record.Decode_encoded].
  - intros key' tid' t Hne [Hp' Hs'] Hl Ht.
    destruct (lookup_row s2 tss' h' es' key' tid' t fuel HD') as (s3&s4&E3&E4&_);
      [lia|auto|lia|by rewrite Hm, lookup_insert_ne|by apply Hold|lia|lia|]. by exists s3, s4.
Qed.
End stack.
(** ** Witness: two empty files, one row *)

Section witness.
Import PoolSpec.

Definition ex_table : FileHandle := Handle 0.
Definition ex_index : FileHandle := Handle 1.
Lemma ex_distinct : hfile ex_index ≠ hfile ex_table.
Proof. discriminate. Qed.
Definition ex_files : list op := [ORegister Disk.empty_disk; ORegister Disk.empty_disk].
Definition ex_pool2 : BufferPool := ex_bp 8 ex_files.
Definition ex_db : BufferPool := (BTree.NewBTree (PW:=pool_pager ex_index) ex_pool2).1.

Lemma ex_pool2_inv (h : FileHandle) :
  is_Some (idx (files ex_pool2) (hfile h)) → p_inv (PagerView:=pool_view h) ∅ ex_pool2.
Proof.
  intros Hf. split; [|exact Hf].
  assert (hist (ex_fresh 8) (ex_hist 8 ex_files) ∅ ex_pool2) as H.
  { apply (ex_reach 8 ex_files). vm_compute. reflexivity. }
  exact (proj1 (hist_inv (poolSize:=8) (bp0:=ex_fresh 8) eq_refl _ _ _ H)).
Qed.

Lemma ex_database : database ex_table ex_index ex_db [] 0 [].
Proof.
  assert (BTree.bootstrap (PW:=pool_pager ex_index) ex_pool2 = (ex_db, Ret tt)) as E by (vm_compute; reflexivity).
  assert (p_inv (PagerView:=pool_view ex_index) ∅ ex_pool2) as Ii by (apply ex_pool2_inv; vm_compute; eauto).
  assert (p_inv (PagerView:=pool_view ex_table) ∅ ex_pool2) as It by (apply ex_pool2_inv; vm_compute; eauto).
  destruct (BTreeIndex.bootstrap_ok (SW:=pool_pager_spec ex_index) _ _ _ Ii eq_refl E) as [[Ii' _ _ O _] T].
  assert (Heap.heap_rep (H:=pool_view ex_table) ex_pool2 []) as Ht.
  { split; [vm_compute; reflexivity|]. intros i ts Hi. by rewrite lookup_nil in Hi. }
  destruct (heap_other ex_table ex_index ex_distinct _ _ _ Ii' O It Ht) as [It' Ht'].
  split; [exact It'|exact Ii'|exact Ht'|].
  exists 1, [BTreeInv.Lf 1 [] 0], [1]. split; [exact T|reflexivity].
Qed.

Definition ex_schema : Record.Schema := Record.MkSchema [Record.Col "id" Record.TypeInt false].
Definition ex_row : list Record.value := [Record.VInt 42].
Definition ex_tuple : list byte := match Record.Encode ex_schema ex_row with Ret b => b | _ => [] end.
Definition ex_stored : BufferPool := (heap_insert ex_table ex_tuple ex_db).1.

Lemma ex_stored_is : heap_insert ex_table ex_tuple ex_db = (ex_stored, Ret (Heap.Tid 0 0)).
Proof. vm_compute. reflexivity. Qed.

Lemma ex_stored_db : database ex_table ex_index ex_stored [[ex_tuple]] 0 [].
Proof.
  destruct (table_insert ex_table ex_index ex_distinct _ _ _ _ _ _ _ ex_database ex_stored_is) as (_&HD&_).
  assert ((Heap.spec_insert [] ex_tuple).1 = [[ex_tuple]]) as Es by (vm_compute; reflexivity).
  rewrite Es in HD. exact HD.
Qed.

Lemma indexed_row_roundtrip_witness :
  ∃ s2 s3 s4, index_insert ex_index 6 42 (Heap.Tid 0 0) ex_stored = Some (s2, Ret tt) ∧
    index_search ex_index 6 42 s2 = Some (s3, Ret (Heap.Tid 0 0, true)) ∧
    heap_get ex_table (Heap.Tid 0 0) s3 = (s4, Ret ex_tuple) ∧ Record.Decode ex_schema ex_tuple = Ret ex_row.
Proof.
  assert (snd <$> index_insert ex_index 6 42 (Heap.Tid 0 0) ex_stored = Some (Ret tt)) as E by (vm_compute; reflexivity).
  destruct (index_insert ex_index 6 42 (Heap.Tid 0 0) ex_stored) as [[s2 r]|] eqn:EI; [|discriminate E].
  injection E as ->. exists s2.
  destruct (indexed_row_roundtrip ex_table ex_index ex_distinct ex_schema ex_row ex_tuple ex_db [] 0 [] 42
    ex_stored (Heap.Tid 0 0) s2 6) as [(s3&s4&H1&H2&H3) _].
  - vm_compute. reflexivity.
  - repeat constructor; vm_compute; congruence.
  - vm_compute. reflexivity.
  - exact ex_database.
  - vm_compute. split; [discriminate|reflexivity].
  - lia.
  - apply healthy_forall. vm_compute. repeat constructor.
  - vm_compute. lia.
  - vm_compute. reflexivity.
  - exact EI.
  - exists s3, s4. split; [reflexivity|]. split; [exact H1|]. split; [exact H2|exact H3].
Defined.
End witness.
End Stack.
