(* ===== verification/Recovery.v ===== *)
(** * Restarting after a crash

    A checkpoint ([FlushAll] and [Sync]), a crash that leaves the durable bytes of
    every file, and a new process that opens the files again and registers them
    with a new pool in the same order: the database is the one of the
    checkpoint.  The pieces are [Disk.Open] (src/internal/storage/disk/disk.go)
    and NewBufferPool, Register, FlushAll and Sync
    (src/internal/storage/buffer/buffer_pool.go). *)

From S2P Require Import Prelude Bytes PageLayout SlottedPage Disk LRU BufferPool BufferInv PoolSpec Pager Heap Record BTreeNode BTree BTreeInv BTreeSpec BTreeInsert BTreeIndex Stack.

Module Recovery.
Import Pool PoolInv PoolSpec Stack.

(** ** Opening the files again *)

(** Open the files and register each with the pool. *)
Fixpoint open_files (paths : list string) (bp : BufferPool) : st (gmap string (list byte)) BufferPool :=
  match paths with
  | [] => st_ret bp
  | path :: paths => do! d := Disk.Open path IOok IOok [] in open_files paths (Register d bp).1
  end.
Definition restart (poolSize : Z) (paths : list string) (fs : gmap string (list byte)) : res BufferPool :=
  let! bp := NewBufferPool poolSize in (open_files paths bp fs).2.

(** The bytes on the device are the pages and nothing more: no extension of the
    file was torn. *)
Definition durable_whole (d : Disk.DiskManager) : Prop :=
  len (durable (Disk.file d)) = Disk.numPages d * PageSize.

(** What a crash leaves: the durable bytes of each file. *)
Definition survives (fs : gmap string (list byte)) (paths : list string) (ds : list Disk.DiskManager) : Prop :=
  Forall2 (λ path d, fs !! path = Some (durable (Disk.file d))) paths ds.

(** The manager [Open] makes of those bytes. *)
Definition reopened (d : Disk.DiskManager) : Disk.DiskManager :=
  Disk.DM (OsFile (durable (Disk.file d)) (durable (Disk.file d)) true []) (Disk.numPages d).

Lemma Open_reopened path fs d :
  fs !! path = Some (durable (Disk.file d)) → durable_whole d → 0 ≤ Disk.numPages d ≤ Disk.MaxUint32 →
  Disk.Open path IOok IOok [] fs = (fs, Ret (reopened d)).
Proof.
  intros Hp HW Hn. unfold Disk.Open. rewrite Hp. cbn [default id]. rewrite insert_id by done.
  unfold durable_whole, Disk.MaxUint32 in *. rewrite HW, Z.mod_mul, Z.div_mul by done. simpl.
  unfold reopened. by rewrite u32_small by lia.
Qed.

Lemma reopened_wf d : durable_whole d → 0 ≤ Disk.numPages d ≤ Disk.MaxUint32 → Disk.wf (reopened d).
Proof. unfold durable_whole, Disk.wf. simpl. lia. Qed.

(** The new pool: the files, and every frame free. *)
Lemma open_files_ok ds : ∀ paths fs bp,
  survives fs paths ds → Forall durable_whole ds → Forall (λ d, 0 ≤ Disk.numPages d ≤ Disk.MaxUint32) ds →
  inv ∅ None bp → len (files bp) + len ds < 2 ^ 32 →
  ∃ bp', open_files paths bp fs = (fs, Ret bp') ∧ inv ∅ None bp' ∧
    files bp' = files bp ++ (reopened <$> ds) ∧ pageTable bp' = pageTable bp ∧ room bp' = room bp.
Proof.
  induction ds as [|d ds IH]; intros paths fs bp HS HW HN I Hlen.
  { apply Forall2_nil_inv_r in HS as ->. exists bp. by rewrite app_nil_r. }
  apply Forall2_cons_inv_r in HS as (path&paths'&Hp&HS&->).
  apply Forall_cons in HW as [Hw HW], HN as [Hn HN]. cbn [open_files]. unfold st_bind.
  rewrite (Open_reopened _ _ _ Hp Hw Hn). destruct (Register (reopened d) bp) as [b r] eqn:E. cbn [fst length] in *.
  destruct (Register_spec ∅ _ _ _ _ I (reopened_wf _ Hw Hn) ltac:(lia) E) as (_&I1&R1&_&T1&_).
  assert (files b = files bp ++ [reopened d]) as F1 by (unfold Register in E; by injection E as <- _).
  destruct (IH paths' fs b HS HW HN I1) as (bp'&Eo&I'&F'&T'&R'); [rewrite F1, length_app; simpl; lia|].
  exists bp'. split_and!; [done|done| |congruence|congruence]. by rewrite F', F1, <-app_assoc.
Qed.

Lemma reopened_view ds k : disk_view (reopened <$> ds) k = durable_view ds k.
Proof.
  unfold disk_view, durable_view, idx. destruct (0 <=? k.1); [|done]. rewrite list_lookup_fmap.
  by destruct (ds !! Z.to_nat k.1).
Qed.

Lemma restart_ok poolSize paths fs bp :
  inv ∅ None bp → 0 < poolSize → survives fs paths (files bp) → Forall durable_whole (files bp) →
  len (files bp) < 2 ^ 32 →
  ∃ bp', restart poolSize paths fs = Ret bp' ∧ inv ∅ None bp' ∧ healthy bp' ∧ Z.of_nat (room bp') = poolSize ∧
    (∀ k, view bp' k = durable_view (files bp) k) ∧ (∀ i, numPages i bp' = numPages i bp) ∧
    (∀ k, pins bp' k = 0).
Proof.
  intros I Hp HS HW Hlen. unfold restart. destruct (NewBufferPool poolSize) as [b0|e|] eqn:E0.
  2-3: unfold NewBufferPool in E0; rewrite (proj2 (Z.leb_gt _ _)) in E0 by lia; done.
  destruct (NewBufferPool_spec _ _ E0) as (I0&R0&_&F0&T0).
  assert (Forall (λ d, 0 ≤ Disk.numPages d ≤ Disk.MaxUint32) (files bp)) as HN.
  { apply Forall_lookup. intros i d Hd. apply (i_files _ _ _ I (Z.of_nat i)). unfold idx.
    by rewrite (proj2 (Z.leb_le _ _)), Nat2Z.id by lia. }
  destruct (open_files_ok (files bp) paths fs b0 HS HW HN I0) as (bp'&Eo&I'&F'&T'&R'); [rewrite F0; simpl; lia|].
  exists bp'. simpl. rewrite Eo. rewrite F0 in F'. simpl in F'. rewrite T0 in T'. split_and!; [done|done| |lia|..].
  - intros i d. rewrite F'. unfold idx. case_match; [|done]. rewrite list_lookup_fmap.
    destruct (files bp !! _); [|done]. intros [= <-]. done.
  - intros k. unfold view. rewrite T', lookup_empty, F'. apply reopened_view.
  - intros i. unfold numPages, idx. rewrite F'. destruct (0 <=? i); [|done]. rewrite list_lookup_fmap.
    by destruct (files bp !! _).
  - intros k. unfold pins. by rewrite T', lookup_empty.
Qed.

(** ** The database comes back *)

Section recovery.
Context {CP : Node.Caps} {OK : Node.CapsOk}.
Context (table index : FileHandle).

(** A database is its pages. *)
Lemma database_view s s' tss h es :
  database table index s tss h es → inv ∅ None s' → (∀ k, view s' k = view s k) →
  (∀ i, numPages i s' = numPages i s) → database table index s' tss h es.
Proof.
  intros [It Ii [Hc Hp] (rt&lvs&ns&[(mp&Hm&Hg&Hr) HS HP HL]&->)] I HV HN.
  assert (∀ hd : FileHandle, p_inv (PagerView:=pool_view hd) ∅ s → p_inv (PagerView:=pool_view hd) ∅ s' ∧
    p_count (PagerView:=pool_view hd) s' = p_count (PagerView:=pool_view hd) s) as Hfile.
  { intros hd [_ [d Hd]]. specialize (HN (hfile hd)). unfold numPages, Disk.NumPages in HN. simpl. rewrite Hd in *.
    destruct (idx (files s') (hfile hd)) as [d'|]; [|done]. split_and!; [done|by eexists|congruence]. }
  destruct (Hfile _ It) as [It' Ct], (Hfile _ Ii) as [Ii' Ci]. split; [done|done|split|].
  - by rewrite Ct.
  - intros i ts Hi. simpl. rewrite HV. by apply Hp.
  - exists rt, lvs, ns. split; [|done]. split; [exists mp; simpl; by rewrite HV| |by rewrite Ci|done].
    eapply BTreeInv.sub_frame; [exact HS|intros q _; apply HV|done].
Qed.

(** C14: recovery.  After a checkpoint (FlushAll in any order and Sync, both
    successful, with no modification that was not reported) a crash leaves the
    durable bytes; opening the files again, unless an extension had been torn, and
    registering them with a new pool of any size in the same order gives a database
    with exactly the table and the index of the checkpoint, on a healthy pool with
    every frame free. *)
Theorem crash_recovery s tss h es order s1 s2 paths fs poolSize :
  database table index s tss h es → map_order order s →
  FlushAll order s = (s1, Ret tt) → Sync s1 = (s2, Ret tt) →
  survives fs paths (files s2) → Forall durable_whole (files s2) → len (files s2) < 2 ^ 32 → 0 < poolSize →
  ∃ s3, restart poolSize paths fs = Ret s3 ∧ database table index s3 tss h es ∧
    healthy s3 ∧ Z.of_nat (room s3) = poolSize.
Proof.
  intros HD Ho HF HSy HS HW Hlen Hp. pose proof (db_table_inv _ _ _ _ _ _ HD) as [I _].
  destruct (checkpoint_spec _ _ _ _ _ _ I Ho HF HSy) as (I2&S&D&_). specialize (D eq_refl eq_refl).
  destruct (restart_ok poolSize paths fs s2 I2 Hp HS HW Hlen) as (s3&E&I3&H3&R3&V3&N3&_).
  exists s3. split_and!; [done| |done|done]. eapply database_view; [exact HD|done|..].
  - intros k. by rewrite V3, D.
  - intros i. by rewrite N3, (s_count _ _ S).
Qed.
End recovery.

(** ** Witness: the table and index of [Stack], with one row *)

Section witness.
Definition ex_order : list frameID := (map_to_list (pageTable ex_stored)).*2.
Definition ex_flushed : BufferPool := (FlushAll ex_order ex_stored).1.
Definition ex_synced : BufferPool := (Sync ex_flushed).1.
Definition ex_device : gmap string (list byte) :=
  list_to_map (zip ["table"; "index"] ((λ d, durable (Disk.file d)) <$> files ex_synced)).

Lemma ex_flush : FlushAll ex_order ex_stored = (ex_flushed, Ret tt).
Proof. vm_compute. reflexivity. Qed.
Lemma ex_sync : Sync ex_flushed = (ex_synced, Ret tt).
Proof. vm_compute. reflexivity. Qed.
Lemma ex_survives : survives ex_device ["table"; "index"] (files ex_synced).
Proof. vm_compute. repeat constructor. Qed.
Lemma ex_whole : Forall durable_whole (files ex_synced) ∧ len (files ex_synced) < 2 ^ 32.
Proof. vm_compute. repeat constructor. Qed.

Lemma crash_recovery_witness :
  ∃ s3, restart 4 ["table"; "index"] ex_device = Ret s3 ∧ database ex_table ex_index s3 [[ex_tuple]] 0 [].
Proof.
  destruct (crash_recovery ex_table ex_index ex_stored [[ex_tuple]] 0 [] ex_order ex_flushed ex_synced
    ["table"; "index"] ex_device 4 ex_stored_db (reflexivity _) ex_flush ex_sync ex_survives (proj1 ex_whole)
    (proj2 ex_whole) eq_refl) as (s3&E&HD&_).
  exists s3. split; [exact E|exact HD].
Defined.
End witness.
End Recovery.
