(* ===== verification/Queries.v ===== *)
(** * The access methods composed through their callbacks

    Two clients of a table and its index in one buffer pool: building a unique
    index by scanning the table and inserting into the index from the scan's
    callback, and a range query that scans the index and gets the rows from the
    heap in the callback.  Both callbacks run while the scan holds a page, so
    they share the pool's frames with it. *)

From S2P Require Import Prelude Bytes PageLayout SlottedPage Disk LRU BufferPool BufferInv PoolSpec Pager Callback Heap Record BTreeNode BTree BTreeInv BTreeSpec BTreeInsert BTreeIndex Stack.

Module Queries.
Import Pool PoolInv Callback Stack BTreeSpec.

(** The entries an index on [keyof] has for the tuples [l]. *)
Definition index_entries (keyof : list byte → Z) (l : list Heap.item) : entries :=
  (λ '(tid, t), (keyof t, tid)) <$> l.

(** The keys of the rows, in physical order. *)
Definition row_keys (keyof : list byte → Z) (tss : list Heap.tuples) : list Z :=
  (index_entries keyof (Heap.all_tuples 0 tss)).*1.

Section queries.
Context (table index : FileHandle) (distinct : hfile index ≠ hfile table).

Definition heap_scan {A} := Heap.Scan (PW:=pool_pager table) (A:=A).
Definition index_scan {CP : Node.Caps} {A} := BTree.Scan (PW:=pool_pager index) (A:=A).

(** ** Building a unique index *)

(** [func(tid, data) error { return index.Insert(keyof(data), tid) }] *)
Definition add_entry (keyof : list byte → Z) : callback BufferPool Heap.item unit := λ '(tid, t) '(s, u),
  match index_insert index 5 (keyof t) tid s with
  | Some (s, r) => ((s, u), r)
  | None => ((s, u), Panic)
  end.

(** Frames for the scan and an insertion, and page ids for the index. *)
Definition enough (s : BufferPool) (tss : list Heap.tuples) : Prop :=
  healthy s ∧ (7 ≤ room s)%nat ∧ len (Heap.all_tuples 0 tss) ≤ 2 ^ 38.

Definition built (keyof : list byte → Z) (l : list Heap.item) (s : BufferPool) (_ : unit) : Prop :=
  p_inv (PagerView:=pool_view index) ∅ s ∧
  ∃ h es, btree (VW:=pool_view index) true s h es ∧ es ≡ₚ index_entries keyof l.

Definition not_built (keyof : list byte → Z) (s0 : BufferPool) (tss : list Heap.tuples)
    (l : list Heap.item) (e : error) (s : BufferPool) (_ : unit) : Prop :=
  (e = ErrDuplicateKey ∧ ¬ NoDup (index_entries keyof l).*1) ∨ ¬ enough s0 tss.

(** An insertion can only fail on a duplicate key or for want of resources. *)
Lemma room_to_insert keyof s0 tss l s h es :
  during (VW:=pool_view table) s0 s → l `prefix_of` Heap.all_tuples 0 tss →
  p_inv (PagerView:=pool_view index) ∅ s → btree (VW:=pool_view index) true s h es →
  es ≡ₚ index_entries keyof l → enough s0 tss → BTreeInsert.able_for (VW:=pool_view index) h s.
Proof.
  intros D Hl Ii HB HP (Hh&Hr&Hn).
  destruct (BTreeIndex.height_facts (H1:=pool_pager_spec index) _ _ _ _ Ii HB) as [_ H4].
  pose proof (BTreeIndex.pages_bound (H1:=pool_pager_spec index) _ _ _ _ Ii HB) as Hp.
  apply Permutation_length in HP. apply prefix_length in Hl. unfold index_entries in HP. rewrite length_fmap in HP.
  destruct D as [_ _ _ R H]. simpl in R, H. split_and!; [by apply H|simpl; lia|unfold Disk.MaxUint32; lia].
Qed.

Lemma add_entry_inv keyof s0 tss :
  p_inv (PagerView:=pool_view table) ∅ s0 → Heap.heap_rep (H:=pool_view table) s0 tss →
  (∀ t, Node.go_key (keyof t)) →
  loop_inv (VW:=pool_view table) s0 (Heap.all_tuples 0 tss) (add_entry keyof) (built keyof) (not_built keyof s0 tss).
Proof.
  intros I0 Hh Hk. split; [|intros l s s' u I' O (Ii&h&es&HB&HP)|done].
  2:{ destruct (index_other table index distinct _ _ _ _ _ I' O Ii HB) as [Ii' HB']. split; [done|by exists h, es]. }
  intros l [tid t] s u s' u' r D Hl (Ii&h&es&HB&HP) E. simpl in E.
  assert (Node.go_tid tid) as Htid.
  { assert ((tid, t) ∈ Heap.all_tuples 0 tss) as Hin by (destruct Hl as [k ->]; set_solver).
    apply Heap.scan_order_exact in Hin as (?&?&?). by eapply (heap_tid_ok table). }
  assert (l `prefix_of` Heap.all_tuples 0 tss) as Hl' by (etrans; [by eexists|done]).
  destruct (BTreeIndex.height_facts (H1:=pool_pager_spec index) _ _ _ _ Ii HB) as [_ H4].
  pose proof (room_to_insert _ _ _ _ _ _ _ D Hl' Ii HB HP) as Henough. destruct HB as (rt&lvs&ns&T&->).
  destruct (BTreeIndex.Insert_ok (SW:=pool_pager_spec index) s rt h lvs ns (keyof t) tid 5 Ii T (Hk t) Htid)
    as (s2&x&E2&[Ii2 N2 R2 O2 H2]&Hx); [lia|].
  unfold index_insert in E. rewrite E2 in E. injection E as <- <- <-. split.
  { apply (other_kept index table); [congruence|done..|apply D]. }
  destruct x as [[]|e|]; [| |done].
  - destruct Hx as (rt'&h'&lvs'&ns'&T'&_&(a&b&Ea&Eb)). split; [done|]. exists h', (BTreeInv.flat lvs').
    split; [by exists rt', lvs', ns'|]. unfold index_entries. rewrite fmap_app, Eb, <-Permutation_middle, <-Ea, HP.
    simpl. by rewrite Permutation_app_comm.
  - destruct Hx as [(->&Hin&_)|(He&Ha&_)]; [left|right; auto]. split; [done|].
    unfold index_entries in *. rewrite HP in Hin. rewrite !fmap_app. intros (_&Hd&_)%NoDup_app.
    apply (Hd _ Hin). simpl. set_solver.
Qed.

(** C12: building a unique index by a scan of the table whose callback inserts
    into the index, in the same pool.  It always terminates and never panics;
    success means that no two rows have the same key and that the index maps each
    key to the tid of its row and nothing else, the table being as before.  On a
    healthy pool with seven free frames (one for the scan, six for an insertion)
    and for at most 2^38 rows, which the index file has page ids for, the only
    failure is ErrDuplicateKey, and it says that two rows have the same
    key. *)
Theorem index_build keyof s tss fuel :
  database table index s tss 0 [] → (∀ t, Node.go_key (keyof t)) → (length tss < fuel)%nat →
  ∃ s' u r, heap_scan fuel (add_entry keyof) s tt = Some ((s', u), r) ∧
  Heap.heap_rep (H:=pool_view table) s' tss ∧
  match r with
  | Ret _ => NoDup (row_keys keyof tss) ∧ ∃ h es, database table index s' tss h es ∧
      ∀ k tid, as_map es !! k = Some tid ↔
        0 ≤ Heap.Page tid ∧ 0 ≤ Heap.Slot tid ∧ ∃ t, Heap.tuple_at tss tid = Some t ∧ keyof t = k
  | Fail e => (e = ErrDuplicateKey ∧ ¬ NoDup (row_keys keyof tss)) ∨ ¬ enough s tss
  | Panic => False
  end.
Proof.
  intros [It Ii Ht Hi] Hk Hf.
  destruct (Heap.Scan_loop_spec (SW:=pool_pager_spec table) (add_entry_inv keyof s tss It Ht Hk)
    tss tss fuel s [] [] tt It Ht eq_refl Hf) as (s'&u&r&E&It'&K&Hr);
    [reflexivity|done|split; [done|by exists 0%nat, []]|].
  assert (Heap.heap_rep (H:=pool_view table) s' tss) as Ht'.
  { destruct Ht as [Hc Hp]. split; [by rewrite (kp_count _ _ K)|]. intros i ts. rewrite (kp_page _ _ K). apply Hp. }
  exists s', u, r. split_and!; [exact E|done|]. destruct Hr as [Hr|[(n&e&_&_&->) Hn]].
  2:{ right. intros (?&?&_). apply Hn. split; [done|simpl; lia]. }
  destruct r as [[]|e|]; [| |done]; simpl in Hr.
  - destruct Hr as (Ii'&h&es&HB&HP). pose proof HB as (rt&lvs&ns&T&->).
    destruct (BTreeInv.sub_sorted _ _ _ _ _ _ _ _ _ (tr_sub _ _ _ _ _ _ T)) as [Hs _]. apply sorted_NoDup in Hs.
    unfold row_keys. split; [by rewrite <-HP|]. exists h, (BTreeInv.flat lvs). split; [by split|].
    intros k tid. unfold as_map. rewrite <-elem_of_list_to_map by done. rewrite HP. unfold index_entries.
    rewrite list_elem_of_fmap. split.
    + intros ([tid' t]&[= -> ->]&(?&?&?)%Heap.scan_order_exact). eauto.
    + intros (?&?&t&Ht0&<-). exists (tid, t). split; [done|]. by apply Heap.scan_order_exact.
  - destruct Hr as (l&x&[k Hl]&[[-> Hd]|Hn]); [left|by right]. split; [done|]. intros H. apply Hd.
    change (Z.of_nat 0) with 0 in Hl. unfold row_keys in H. rewrite Hl in H. unfold index_entries in *. rewrite !fmap_app in H. rewrite !fmap_app.
    by apply NoDup_app in H as [? _].
Qed.

(** ** A range query *)

(** [func(key, tid) error { data, err := heap.Get(tid); rows = append(rows, ...) }] *)
Definition fetch_row : callback BufferPool (Z * Heap.TID) (list (Z * list byte)) := λ '(k, tid) '(s, rows),
  match heap_get table tid s with
  | (s, Ret t) => ((s, rows ++ [(k, t)]), Ret tt)
  | (s, Fail e) => ((s, rows), Fail e)
  | (s, Panic) => ((s, rows), Panic)
  end.

(** A row of the result is the tuple its index entry points to. *)
Definition row_of (tss : list Heap.tuples) (e : Z * Heap.TID) (row : Z * list byte) : Prop :=
  row.1 = e.1 ∧ Heap.tuple_at tss e.2 = Some row.2.

(** The index points into the table. *)
Definition points_into (tss : list Heap.tuples) (e : Z * Heap.TID) : Prop :=
  0 ≤ Heap.Page e.2 ∧ 0 ≤ Heap.Slot e.2 ∧ is_Some (Heap.tuple_at tss e.2).

Definition fetched (tss : list Heap.tuples) (l : entries) (s : BufferPool) (rows : list (Z * list byte)) : Prop :=
  p_inv (PagerView:=pool_view table) ∅ s ∧ Heap.heap_rep (H:=pool_view table) s tss ∧ Forall2 (row_of tss) l rows.

Definition not_fetched (tss : list Heap.tuples) (s0 : BufferPool) (l : entries) (_ : error) (s : BufferPool)
    (rows : list (Z * list byte)) : Prop :=
  (∃ l' x, l = l' ++ [x] ∧ fetched tss l' s rows) ∧ ¬ (healthy s0 ∧ (2 ≤ room s0)%nat).

Lemma fetch_row_inv tss s0 L :
  p_inv (PagerView:=pool_view index) ∅ s0 → Forall (points_into tss) L →
  loop_inv (VW:=pool_view index) s0 L fetch_row (fetched tss) (not_fetched tss s0).
Proof.
  intros I0 HL.
  assert (∀ l s s' rows, p_inv (PagerView:=pool_view index) ∅ s' → p_others (PagerView:=pool_view index) s s' →
    fetched tss l s rows → fetched tss l s' rows) as Hstep.
  { intros l s s' rows I' O (It&Ht&HF). by destruct (heap_other table index distinct _ _ _ I' O It Ht). }
  split; [|done|intros l e s s' rows I' O [(l'&x&->&HF) Hn]; split; [|done]; exists l', x; eauto].
  intros l [k tid] s rows s' rows' r D [m Hm] (It&Ht&HF) E. subst L. simpl in E.
  apply Forall_app in HL as [[_ [(Hp&Hs&[t Hat]) _]%Forall_cons]%Forall_app _]. simpl in Hp, Hs, Hat.
  destruct (heap_get table tid s) as [s2 x] eqn:EG.
  destruct (Heap.Get_spec (SW:=pool_pager_spec table) _ _ _ _ _ It Ht Hp Hs EG) as ([It2 _ R2 O2 H2]&S2&Hx&Hret).
  assert (p_kept (VW:=pool_view index) s s2) as K by (apply (other_kept table index); [done..|apply D]).
  pose proof (Heap.heap_same (VW:=pool_view table) _ _ _ S2 Ht) as Ht2.
  destruct x as [t'|e|]; [| |done]; injection E as <- <- <-; (split; [done|]).
  - split_and!; [done|done|]. apply Forall2_app; [done|]. constructor; [|constructor]. split; [done|exact Hx].
  - split; [by exists l, (k, tid)|]. intros [Hh Hr]. destruct D as [_ _ _ R H]. simpl in R, H.
    specialize (Hret (H Hh) ltac:(simpl; lia)). rewrite Hat in Hret. by discriminate Hret.
Qed.

(** C13: a range query through the index.  The scan of the index hands each entry
    with [lo <= key <= hi] to a callback that gets the row from the heap, in the
    same pool; every entry of the range has to point to a tuple of the heap, as
    the entries of an index built from it do.  It terminates, never panics and
    leaves the database as it was; success returns, in key order, the tuple of every entry of the range; an error
    comes with the rows of a prefix, and cannot occur on a healthy pool with two
    free frames, one for the leaf the scan holds and one for the row's page. *)
Theorem range_query {CP : Node.Caps} {OK : Node.CapsOk} s tss h es lo hi fuel fuel' :
  database table index s tss h es → Forall (points_into tss) (range lo hi es) → (h < fuel)%nat →
  (Z.to_nat (p_count (PagerView:=pool_view index) s) ≤ fuel')%nat →
  ∃ s' rows r, index_scan fuel fuel' lo hi fetch_row s [] = Some ((s', rows), r) ∧
  database table index s' tss h es ∧
  match r with
  | Ret _ => Forall2 (row_of tss) (range lo hi es) rows
  | Fail _ => (∃ l, l `prefix_of` range lo hi es ∧ Forall2 (row_of tss) l rows) ∧ ¬ (healthy s ∧ (2 ≤ room s)%nat)
  | Panic => False
  end.
Proof.
  intros [It Ii Ht Hi] HL Hf Hf'. pose proof Hi as (rt&lvs&ns&T&->).
  pose proof (BTreeIndex.leaves_count (SW:=pool_pager_spec index) _ _ _ _ _ _ Ii T).
  destruct (Scan_ok (SW:=pool_pager_spec index) _ _ _ _ _ _ fuel fuel' lo hi fetch_row _ _ [] Ii T Hf ltac:(lia)
    (fetch_row_inv tss s _ Ii HL)) as (s'&rows&r&E&Ii'&K&Hr); [done|].
  pose proof (BTreeIndex.btree_kept (VW:=pool_view index) _ _ _ _ _ K Hi) as Hi'.
  exists s', rows, r. split; [exact E|].
  assert (∀ l, fetched tss l s' rows → database table index s' tss h (BTreeInv.flat lvs) ∧ Forall2 (row_of tss) l rows)
    as Hdb by (intros l (?&?&?); by split).
  destruct Hr as [Hr|[(l1&l2&e&El&HJ&->) Hn]].
  - destruct r as [[]|e|]; [by apply Hdb| |done]. destruct Hr as (l&x&[m Hp]&(l'&y&Ey&HF)&Hn).
    destruct (Hdb _ HF) as [? HF2]. split; [done|]. split; [|done]. exists l'. split; [|done].
    apply app_inj_tail in Ey as [-> _]. exists (x :: m). by rewrite Hp, <-app_assoc.
  - destruct (Hdb _ HJ) as [? HF2]. split; [done|]. split; [exists l1; split; [by exists l2|done]|].
    intros [Hh Hr]. apply Hn. split; [done|simpl; lia].
Qed.
End queries.

(** ** Witnesses: the table and index of [Stack], with one row *)

Section witnesses.

(** The key column of a row. *)
Definition ex_keyof (t : list byte) : Z :=
  match Record.Decode ex_schema t with
  | Ret [Record.VInt v] => v mod 2 ^ 63
  | _ => 0
  end.

Lemma ex_keyof_ok t : Node.go_key (ex_keyof t).
Proof.
  unfold ex_keyof, Node.go_key. destruct (Record.Decode ex_schema t) as [[|[|n| |] [|]]| |]; try lia.
  pose proof (Z.mod_pos_bound n (2 ^ 63)). lia.
Qed.

Lemma ex_stored_ready : healthy ex_stored ∧ (7 ≤ room ex_stored)%nat.
Proof. split; [apply PoolSpec.healthy_forall; vm_compute; repeat constructor|vm_compute; lia]. Qed.

Lemma ex_enough : NoDup (row_keys ex_keyof [[ex_tuple]]) ∧ enough ex_stored [[ex_tuple]].
Proof.
  split.
  - assert (row_keys ex_keyof [[ex_tuple]] = [42]) as -> by (vm_compute; reflexivity). apply NoDup_singleton.
  - destruct ex_stored_ready. split_and!; [done|done|]. by vm_compute.
Qed.

Lemma index_build_witness :
  ∃ s' h es, heap_scan ex_table 2 (add_entry ex_index ex_keyof) ex_stored tt = Some ((s', tt), Ret tt) ∧
    database ex_table ex_index s' [[ex_tuple]] h es ∧ as_map es !! 42 = Some (Heap.Tid 0 0).
Proof.
  destruct (index_build ex_table ex_index ex_distinct ex_keyof ex_stored [[ex_tuple]] 2 ex_stored_db ex_keyof_ok
    ltac:(simpl; lia)) as (s'&[]&r&E&_&Hr). destruct r as [[]|e|]; [|exfalso|destruct Hr].
  - destruct Hr as (_&h&es&HD&Hm). exists s', h, es. split; [exact E|]. split; [exact HD|].
    apply Hm. split; [done|]. split; [done|]. exists ex_tuple. split; vm_compute; reflexivity.
  - destruct Hr as [[_ Hn]|Hn]; apply Hn, ex_enough.
Defined.

(** The pool after the row was entered in the index. *)
Definition ex_indexed : BufferPool :=
  match index_insert ex_index 6 42 (Heap.Tid 0 0) ex_stored with Some (s, _) => s | None => ex_stored end.

Lemma ex_indexed_is : index_insert ex_index 6 42 (Heap.Tid 0 0) ex_stored = Some (ex_indexed, Ret tt).
Proof.
  assert (snd <$> index_insert ex_index 6 42 (Heap.Tid 0 0) ex_stored = Some (Ret tt)) as E by (vm_compute; reflexivity).
  unfold ex_indexed. destruct (index_insert _ _ _ _ _) as [[s2 r]|]; [|discriminate E]. by injection E as ->.
Qed.

Lemma ex_key_ok : Node.go_key 42.
Proof. vm_compute. split; [discriminate|reflexivity]. Qed.

(** Every entry of the index of one row points to that row. *)
Lemma singleton_points {CP : Node.Caps} {OK : Node.CapsOk} table index s tss h es key tid tup :
  database table index s tss h es → as_map es = {[key := tid]} → Node.go_tid tid →
  Heap.tuple_at tss tid = Some tup → Forall (points_into tss) es.
Proof.
  intros HD Hm [[? _] [? _]] Hat. apply Forall_forall. intros [k tid'] Hin.
  pose proof (db_index _ _ _ _ _ _ HD) as (rt&lvs&ns&T&->).
  destruct (BTreeInv.sub_sorted _ _ _ _ _ _ _ _ _ (tr_sub _ _ _ _ _ _ T)) as [Hs _]. apply sorted_NoDup in Hs.
  apply elem_of_list_to_map_1 in Hin; [|done]. unfold as_map in Hm. rewrite Hm in Hin.
  apply lookup_singleton_Some in Hin as [<- <-]. split_and!; [done|done|by eexists].
Qed.

Lemma ex_indexed_db : ∃ tss h es, database ex_table ex_index ex_indexed tss h es ∧ (h < 6)%nat ∧
  Forall (points_into tss) es.
Proof.
  destruct (insert_row ex_table ex_index ex_distinct ex_db [] 0 [] ex_tuple 42 ex_stored (Heap.Tid 0 0) ex_indexed 6
    ex_database ex_key_ok (Nat.lt_0_succ 5) ex_stored_is ex_indexed_is) as (tss&h&es&HD&Hh&Hm&Htid&Hat&_).
  exists tss, h, es. split; [exact HD|]. split; [lia|]. eapply singleton_points; [exact HD|exact Hm|exact Htid|exact Hat].
Qed.

Lemma range_query_witness :
  ∃ s' rows tss h es, index_scan ex_index 6 3 0 50 (fetch_row ex_table) ex_indexed [] = Some ((s', rows), Ret tt) ∧
    database ex_table ex_index s' tss h es ∧ Forall2 (row_of tss) (range 0 50 es) rows.
Proof.
  destruct ex_indexed_db as (tss&h&es&HD&Hh&HP).
  destruct (range_query ex_table ex_index ex_distinct ex_indexed tss h es 0 50 6 3 HD) as (s'&rows&r&E&HD'&Hr).
  - apply Forall_forall. intros e [_ [_ He]%list_elem_of_filter]%list_elem_of_filter.
    rewrite Forall_forall in HP. apply (HP e He).
  - exact Hh.
  - vm_compute. lia.
  - exists s', rows, tss, h, es. destruct r as [[]|e|]; [|exfalso|destruct Hr].
    + split; [exact E|]. split; [exact HD'|exact Hr].
    + apply (proj2 Hr). split; [apply PoolSpec.healthy_forall; vm_compute; repeat constructor|vm_compute; lia].
Defined.
End witnesses.
End Queries.
